(* ===== verification/_CoqProject ===== *)
-Q . S2P
Prelude.v
Types.v
NodeState.v
Interfaces.v
Tasks.v
BTree.v
DeferredCompletion.v
Membership.v
Display.v
MemoryLog.v
Mocks.v
RaftNode.v
RaftNodeProps.v
RaftNodeClaims.v
ElectionSafety.v
Replication.v
ReplicationProps.v
ReplicationClaims.v
IoStage.v
EventLoop.v
Bytes.v
Codec.v
Segment.v
SegmentLog.v
SegmentIndex.v
StoreFiles.v
StorageEngine.v
Snapshots.v
Channel.v
Simulator.v
TestStores.v
SimSupport.v
InvariantChecker.v
SimulatedCluster.v
FollowerLoop.v
FollowerDisk.v
TestScripts.v
ReplicationTests.v
UnitTests.v
EventLoopCluster.v
DiskCluster.v
CheckedClusters.v
