(* ===== verification/Prelude.v ===== *)
(** * xraft: a verification library for the Raft engine of this repository

    The program is a replicated log in the style of KRaft: nodes elect a
    leader, followers fetch entries from it, a storage crate keeps log, votes
    and snapshots on disk, a transport crate frames and carries messages, a
    test crate simulates clusters and checks them.  The sources are
    several generations of the same components side by side; each file is
    modelled as it is written, and what a file calls but no file under src/
    defines is a class or a parameter with the documented behaviour as its
    laws.

    ** The parts and their models

    - Shared data.  [Types] (types.rs, log_entry.rs, voter.rs, config.rs,
      rpc.rs, error.rs, snapshot.rs), [NodeState] (node_state.rs,
      consensus_state.rs, io_action.rs), [Interfaces] (traits.rs, listener.rs:
      a class per trait, and the laws clients may rely on, with the abstract
      contiguous log they speak of), [Display] (the texts of identifiers and
      errors).
    - Consensus node.  [RaftNode] is raft_node.rs: recovery, bootstrap, timers,
      dispatch, votes, leadership, over any stores, transport and clock.
      [RaftNodeProps] specifies each operation by weakest preconditions,
      [RaftNodeClaims] states what one node guarantees, [ElectionSafety] puts
      nodes on a network that delays, reorders, duplicates and loses messages,
      with failing stores and crashes.
    - Event-driven node.  [EventLoop] is election.rs and event_loop.rs, which
      collect I/O actions and execute them in a batch; [IoStage] is the
      execution, io_action.rs and io_stage.rs, with every interleaving of the
      joined groups as a step relation.  [EventLoopCluster] puts event loops on
      the network, with crashes between and inside batches, [DiskCluster] puts
      the vote files of the storage crate under them, [CheckedClusters] runs
      the election check of the test crate on both kinds of cluster.
    - Follower replication.  [Replication] is replication.rs: fetch requests,
      responses, divergence, commit notification; [ReplicationProps] and
      [ReplicationClaims] its specification and guarantees, [FollowerLoop] the
      loop of ticks and messages its front ends run in, [FollowerDisk] the
      follower with an I/O stage over the segmented log.
      [DeferredCompletion] (deferred_completion.rs, over the ordered maps of
      [BTree]) is the queue of waiting clients, [Membership] (membership.rs)
      the configuration changes.
    - Storage.  [Bytes] (fixed-width integers), [Segment] (segment.rs, on the
      bytes of the file), [SegmentLog] (segment_log.rs), [SegmentIndex]
      (segment_index.rs), [StoreFiles] (quorum_state_file.rs, over a file
      system of directory entries and inodes with what of them is synced;
      replacing a file is a sequence of operations that may fail or be cut by
      a crash anywhere), [StorageEngine] (leader_epoch_checkpoint.rs and
      lib.rs), [Snapshots] (snapshot_store.rs, the writer of snapshot.rs,
      snapshot_coordinator.rs), [MemoryLog] (the in-memory stores).
    - Transport.  [Codec] (codec.rs), [Channel] (channel.rs, over a store of
      tokio's mpsc channels), [Simulator] (simulator.rs: drops, delays, reordering and
      partitions on top of the channels).  The concurrent operations are tasks,
      [Tasks]: a resumption with one step per await, in which a lock is taken by
      one step, that may have to wait, and given back by a later one, so that
      any interleaving of them, and any wait, is a run of a system.
    - Test crate.  [Mocks] (xraft-test/src/mocks), which also instantiate the
      classes in demonstrations; [TestStores] (memory_log.rs,
      memory_quorum_state.rs, memory_snapshot.rs, memory_state_machine.rs,
      test_harness.rs); [SimSupport] (test_state_machine.rs, test_listener.rs,
      completion_tracker.rs, simulated_network.rs, simulated_clock.rs);
      [InvariantChecker] (invariant_checker.rs); [SimulatedCluster]
      (simulated_cluster.rs, which puts stores, bus, clock and drivers of
      several nodes together).
    - Unit tests.  [TestScripts] is the form of a transcribed test,
      [ReplicationTests] the tests of replication.rs, [UnitTests] those of
      membership.rs, codec.rs, simulator.rs and the storage crate.

    ** How code becomes definitions

    Machine integers are [N] with wrapping additions written out; [u64_add] is
    the release-mode addition.  A method that mutates its receiver is a
    function of the state; a fallible one lives in the state-and-error monad
    [SE], whose state survives an error as the fields of a Rust object do.
    Trait objects are type classes; interior mutability is the store after the
    call.  Hash sets and maps are stdpp's [gset] and [gmap], ordered maps are
    sorted association lists ([BTree]), vectors are lists.  Clocks are explicit
    and may move with every reading.  A panic of the test crate is [None].
    bincode, serde_json, crc32c, the random generator and tokio's RwLock and
    mpsc channels are parameters; the ranges of the generator, the documented
    behaviour of lock and channel, the round trip of an encoding and the range
    of a checksum are hypotheses where they are needed, and each theorem with
    such a hypothesis has a witness with a concrete instance.

    ** What the theorems show

    - Elections: at most one leader per term in every reachable state of a
      cluster; votes move forward only, are durable before they are granted,
      and survive restarts; bootstrap and leadership are all or nothing.  The
      event loop: the same for votes, the record of a vote precedes it in the
      batch, a leader holds a majority, check quorum keeps the vote, pre-votes
      change nothing.  A cluster of event loops has one leader per term when
      crashed nodes stay away, under every interleaving of writes and sends,
      and when they restart, if writes come first; with the interleaving of
      io_action.rs a run ends with two.  Writing first, the same holds with the
      vote in files, for crashes and power failures between any two file
      operations, and every file a crash leaves can be opened.  The invariant
      checker's election check never fires on clusters of raft_node.rs.
    - Replication: the high watermark never decreases and committed entries
      never change; commands are applied in order and never twice, and none is
      skipped while the committed voters records decode; the returned batch brings the disk to the in-memory log; identity changes are
      persisted; messages that must not be accepted change nothing; the fetches
      of ticks keep their interval and are sent when it is over, and only a
      divergence is answered by a fetch at once.  With its batches executed on
      the segmented log, what a restart reads is the log in memory.
    - Completions and membership: every waiting client is answered once;
      configurations come from proposals or snapshots, quorums of neighbouring
      configurations intersect.
    - I/O batches: the interleavings of [join!] are equivalent to sequential
      execution; those of [try_join!] leave prefixes of both groups.
    - Storage: the segmented log refines the abstract log through rollover,
      truncation, restarts and crashes in the middle of an append; segments
      recover exactly their acknowledged batches; the vote file is replaced
      atomically; the engine recovers log, vote and epoch checkpoint; the
      sparse index is a floor lookup; snapshots arrive whole.
    - Transport: decoding accepts exactly the well-formed frames of the
      cluster, and round trips.  A send of the channel transport that waits for
      a full inbox goes through after one receive.  The simulator, in
      every interleaving, delivers at most what was sent, everything when no
      fault is configured, applies the rules of a link in order and waits within
      the configured range; its calls neither spin nor deadlock: at rest the
      lock is free and only full inboxes are waited for.
    - Test crate: the log stores implement the abstract log; the
      test state machine round trips through its snapshot; the tracker of
      proposals agrees with the completion queue; each check of the invariant
      checker decides the Raft property it is named after, and accepted
      histories have append-only leaders; in the simulated cluster the storage
      check compares store and memory, stopped and partitioned nodes are not
      reached, restarts recover the durable state, and
      replication stops at convergence or at its bound.
    - The unit tests of the sources pass on the model, those of replication.rs
      for any new node state and any encoding that round trips.
    - Lemmas after the demonstrations of several files show behaviour that
      contradicts a comment or loses data.

    ** Fuel and bounds

    The scans of a segment file take the length of the file plus one as fuel:
    each batch they pass has at least twelve bytes.  The binary search takes
    the number of entries, each step halves the range.  A chunked transfer
    takes one step per byte plus one.  Restoring the test state machine takes
    the length of the snapshot: each record has at least twelve bytes.
    [replicate_fully] takes its bound on rounds.  All other recursion is
    structural.
    Offsets and terms are assumed below the last [u64] where an operation adds
    to them, and a batch below 4 GiB where its length is stored in 32 bits.

    ** What is not modelled

    Tracing, serde derives, thread scheduling inside a single store call,
    partial failures of directory operations, the crate roots (re-exports
    only) and accessors that return a field.  Where a message of an error is
    formatted with values its text is shortened; a unit test that looks into it
    checks the variant.  The driver and the three-store stage that
    simulated_cluster.rs imports are not in the repository; its theorems hold
    for every driver that satisfies the laws of [EventLoopDriverLaws].  No file
    answers a Fetch request on the leader's side, so that the safety of
    replicated logs across nodes cannot be stated of the code; it is stated of
    one follower and of the scenarios of the simulated cluster. *)

From Stdlib Require Import NArith ZifyBool ZifyN ZifyNat Lia.
From stdpp Require Import base list gmap numbers option strings.

#[global] Open Scope N_scope.

(** ** Machine integers

    Offsets, terms and node identifiers are [u64] in the source.  They are
    kept as [N]; additions that the source performs on [u64] are written with
    [u64_add], which wraps as the release build does (a debug build panics
    exactly when the addition leaves the range). *)

Definition u64_modulus : N := 18446744073709551616.
Definition u64_max : N := 18446744073709551615.
Definition u32_modulus : N := 4294967296.

Definition u64_add (a b : N) : N := (a + b) mod u64_modulus.
(** [a - b] on [u64], wrapping. *)
Definition u64_sub (a b : N) : N := (a + (u64_modulus - b)) mod u64_modulus.
(** [u64::saturating_sub]. *)
Definition u64_saturating_sub (a b : N) : N := a - b.

Lemma u64_add_small (a b : N) : a + b <= u64_max -> u64_add a b = a + b.
Proof. unfold u64_add, u64_modulus, u64_max. intros. apply N.mod_small. lia. Qed.

Lemma u64_add_le (a b : N) : u64_add a b <= a + b.
Proof. unfold u64_add, u64_modulus. apply N.Div0.mod_le. Qed.

Lemma u64_sub_small (a b : N) : b <= a -> a <= u64_max -> u64_sub a b = a - b.
Proof.
  unfold u64_sub, u64_modulus, u64_max. intros Hb Ha.
  symmetry. apply (N.mod_unique _ _ 1); lia.
Qed.

Lemma u64_add_bound (a b : N) : u64_add a b <= u64_max.
Proof.
  unfold u64_add, u64_modulus, u64_max.
  pose proof (N.mod_lt (a + b) 18446744073709551616). lia.
Qed.

Lemma u64_add_assoc_small (a b c : N) :
  u64_add (u64_add a b) c = u64_add a (b + c).
Proof.
  unfold u64_add. rewrite N.Div0.add_mod_idemp_l. f_equal. lia.
Qed.

(** ** Results

    The source's [Result<T, E>]. *)

Inductive result (A E : Type) : Type :=
| Ok (a : A)
| Err (e : E).
Arguments Ok {A E} a.
Arguments Err {A E} e.

Definition is_ok {A E} (r : result A E) : bool :=
  match r with Ok _ => true | Err _ => false end.

Definition result_map_err {A E F} (f : E -> F) (r : result A E) : result A F :=
  match r with Ok a => Ok a | Err e => Err (f e) end.

(** [r?] in a function that has no state to thread. *)
Definition result_bind {A B E} (r : result A E) (k : A -> result B E) : result B E :=
  match r with Ok a => k a | Err e => Err e end.

#[global] Instance result_eq_dec {A E} `{EqDecision A, EqDecision E} : EqDecision (result A E).
Proof. solve_decision. Defined.

(** ** Field updates

    [s <| f := v |>] is the record [s] with its field [f] replaced: the
    assignment [s.f = v] of the source. *)

Class Updater {R T : Type} (proj : R -> T) := update_field : (T -> T) -> R -> R.
Arguments update_field {R T} proj {_} f r /.

Declare Scope xraft_scope.
Delimit Scope xraft_scope with xraft.
Notation "x <| proj := v |>" := (update_field proj (fun _ => v) x)
  (at level 1, left associativity, proj at level 10, v at level 200,
   format "x  <| proj  :=  v |>") : xraft_scope.
#[global] Open Scope xraft_scope.

(** ** The state-and-error monad

    An [async fn f(&mut self) -> Result<A, E>] is a function from the state
    to the state after the call and its result.  The state is returned on the
    error path as well: an early return with [?] does not undo the
    assignments made before it. *)

Definition SE (S E A : Type) : Type := S -> S * result A E.

Section SEMonad.
Context {S E : Type}.

Definition se_ret {A} (a : A) : SE S E A := fun s => (s, Ok a).
Definition se_throw {A} (e : E) : SE S E A := fun s => (s, Err e).
Definition se_bind {A B} (m : SE S E A) (k : A -> SE S E B) : SE S E B :=
  fun s => match m s with
           | (s', Ok a) => k a s'
           | (s', Err e) => (s', Err e)
           end.
Definition se_get {A} (f : S -> A) : SE S E A := fun s => (s, Ok (f s)).
Definition se_modify (f : S -> S) : SE S E unit := fun s => (f s, Ok tt).
(** Run [m] and hand its result to [k], error or not: a [match] on a
    [Result] instead of [?]. *)
Definition se_try {A B} (m : SE S E A) (k : result A E -> SE S E B) : SE S E B :=
  fun s => let '(s', r) := m s in k r s'.
(** [self.part.method(..)] where the part of the state that [get] and [put]
    select is the receiver. *)
Definition se_zoom {T A} (get : S -> T) (put : T -> S -> S) (m : SE T E A) : SE S E A :=
  fun s => let '(t, r) := m (get s) in (put t s, r).
End SEMonad.

Notation "x <- m ;; k" := (se_bind m (fun x => k))
  (at level 60, m at next level, right associativity) : xraft_scope.
Notation "m ;;; k" := (se_bind m (fun _ => k))
  (at level 60, right associativity) : xraft_scope.

(** *** Reasoning about the monad: weakest preconditions

    [wp m Q s] holds when running [m] in [s] ends in a state and a result
    that satisfy [Q].  Every program in the monad terminates, so this is
    total correctness. *)

Section WP.
Context {S E : Type}.

Definition wp {A} (m : SE S E A) (Q : S -> result A E -> Prop) (s : S) : Prop :=
  Q (m s).1 (m s).2.

Lemma wp_ret {A} (a : A) Q (s : S) : Q s (Ok a) -> wp (se_ret (E:=E) a) Q s.
Proof. done. Qed.

Lemma wp_throw {A} (e : E) (Q : S -> result A E -> Prop) s : Q s (Err e) -> wp (se_throw e) Q s.
Proof. done. Qed.

Lemma wp_get {A} (f : S -> A) Q s : Q s (Ok (f s)) -> wp (se_get (E:=E) f) Q s.
Proof. done. Qed.

Lemma wp_modify (f : S -> S) Q s : Q (f s) (Ok tt) -> wp (se_modify (E:=E) f) Q s.
Proof. done. Qed.

Lemma wp_bind {A B} (m : SE S E A) (k : A -> SE S E B) Q s :
  wp m (fun s' r => match r with
                    | Ok a => wp (k a) Q s'
                    | Err e => Q s' (Err e)
                    end) s ->
  wp (se_bind m k) Q s.
Proof. unfold wp, se_bind. destruct (m s) as [s' [a|e]]; done. Qed.

Lemma wp_try {A B} (m : SE S E A) (k : result A E -> SE S E B) Q s :
  wp m (fun s' r => wp (k r) Q s') s -> wp (se_try m k) Q s.
Proof. unfold wp, se_try. destruct (m s) as [s' r]; done. Qed.

Lemma wp_zoom {T A} (get : S -> T) (put : T -> S -> S) (m : SE T E A) Q s :
  (forall t r, m (get s) = (t, r) -> Q (put t s) r) -> wp (se_zoom get put m) Q s.
Proof. unfold wp, se_zoom. intros HQ. destruct (m (get s)) as [t r] eqn:Hm; cbn; eauto. Qed.

Lemma wp_mono {A} (m : SE S E A) (Q Q' : S -> result A E -> Prop) s :
  wp m Q s -> (forall s' r, Q s' r -> Q' s' r) -> wp m Q' s.
Proof. unfold wp. eauto. Qed.

Lemma wp_run {A} (m : SE S E A) Q s s' r : wp m Q s -> m s = (s', r) -> Q s' r.
Proof. unfold wp. intros HQ Hm. by rewrite Hm in HQ. Qed.
End WP.

(** ** Quorums *)

(** The number of votes that make a majority of [n] voters, [n / 2 + 1] in
    every file of the source. *)
Definition majority_of (n : nat) : nat := (n / 2 + 1)%nat.

Lemma majority_of_double (n : nat) : (n < 2 * majority_of n)%nat.
Proof.
  unfold majority_of.
  pose proof (Nat.div_mod_eq n 2). pose proof (Nat.mod_upper_bound n 2). lia.
Qed.

(** Two majorities of the same set share a member. *)
Lemma majority_intersect (V A B : gset N) :
  A ⊆ V -> B ⊆ V ->
  (majority_of (size V) <= size A)%nat -> (majority_of (size V) <= size B)%nat ->
  exists x, x ∈ A /\ x ∈ B.
Proof.
  intros HA HB HsA HsB.
  destruct (decide (A ∩ B = ∅)) as [Hd|Hne].
  - assert (size (A ∪ B) = size A + size B)%nat as Hu.
    { apply size_union. set_solver. }
    assert (size (A ∪ B) <= size V)%nat by (apply subseteq_size; set_solver).
    pose proof (majority_of_double (size V)). lia.
  - apply set_choose_L in Hne as [x Hx]. exists x. set_solver.
Qed.

(** ** Lists *)

Section Lists.
Context {A : Type}.
Implicit Types (l : list A) (f : A -> bool).

(** [Iterator::find]. *)
Fixpoint list_find_first (f : A -> bool) (l : list A) : option A :=
  match l with
  | [] => None
  | x :: l' => if f x then Some x else list_find_first f l'
  end.

Lemma list_find_first_Some f l x :
  list_find_first f l = Some x -> x ∈ l /\ f x = true.
Proof.
  induction l as [|y l IH]; cbn; [done|].
  destruct (f y) eqn:Hy; intros; simplify_eq.
  - split; [constructor|done].
  - destruct IH; [done|]. split; [by constructor|done].
Qed.

Lemma list_find_first_None f l :
  list_find_first f l = None <-> forall x, x ∈ l -> f x = false.
Proof.
  induction l as [|y l IH]; cbn; [set_solver|].
  destruct (f y) eqn:Hy.
  - split; [done|]. intros Hall.
    rewrite (Hall y) in Hy; [done|constructor].
  - rewrite IH. setoid_rewrite elem_of_cons. naive_solver.
Qed.

(** [Iterator::any]. *)
Lemma existsb_true f l : existsb f l = true <-> exists x, x ∈ l /\ f x = true.
Proof.
  rewrite existsb_exists. by setoid_rewrite list_elem_of_In.
Qed.

Lemma existsb_false f l : existsb f l = false <-> forall x, x ∈ l -> f x = false.
Proof.
  rewrite <- not_true_iff_false, existsb_true. split.
  - intros Hn x Hx. apply not_true_is_false. eauto.
  - intros Hall (x & Hx & Hf). by rewrite Hall in Hf.
Qed.

(** [Iterator::filter] with a boolean test, and [Vec::retain]. *)
Fixpoint list_filter (f : A -> bool) (l : list A) : list A :=
  match l with
  | [] => []
  | x :: l' => if f x then x :: list_filter f l' else list_filter f l'
  end.

Lemma elem_of_list_filter_b f l x : x ∈ list_filter f l <-> x ∈ l /\ f x = true.
Proof.
  induction l as [|y l IH]; cbn; [set_solver|].
  destruct (f y) eqn:Hy; rewrite ?elem_of_cons, IH.
  - split; [intros [->|[??]]; auto|intros [[->|?] ?]; auto].
  - split; [intros [??]; auto|intros [[->|?] ?]; [congruence|auto]].
Qed.

Lemma list_filter_app f l1 l2 :
  list_filter f (l1 ++ l2) = list_filter f l1 ++ list_filter f l2.
Proof. induction l1 as [|x l1 IH]; cbn; [done|]. destruct (f x); cbn; by rewrite IH. Qed.

Lemma list_filter_all f l : (forall x, x ∈ l -> f x = true) -> list_filter f l = l.
Proof.
  induction l as [|x l IH]; cbn; intros Hall; [done|].
  rewrite Hall by constructor. f_equal. apply IH. intros. apply Hall. by constructor.
Qed.

Lemma list_filter_none f l : (forall x, x ∈ l -> f x = false) -> list_filter f l = [].
Proof.
  induction l as [|x l IH]; cbn; intros Hall; [done|].
  rewrite Hall by constructor. apply IH. intros. apply Hall. by constructor.
Qed.

Lemma list_filter_ext f g l :
  (forall x, x ∈ l -> f x = g x) -> list_filter f l = list_filter g l.
Proof.
  induction l as [|x l IH]; cbn; intros Hall; [done|].
  rewrite (Hall x) by constructor. rewrite IH; [done|]. intros. apply Hall. by constructor.
Qed.

Lemma list_filter_filter f g l :
  list_filter f (list_filter g l) = list_filter (fun x => f x && g x) l.
Proof.
  induction l as [|x l IH]; cbn; [done|].
  destruct (g x) eqn:Hg; cbn; destruct (f x); cbn; by rewrite IH.
Qed.

Lemma list_filter_length f l : (length (list_filter f l) <= length l)%nat.
Proof. induction l as [|x l IH]; cbn; [lia|]. destruct (f x); cbn; lia. Qed.
End Lists.

(** ** Flattened maps

    Everything that the values of a map contribute, in no particular order. *)

Section FlatMaps.
Context `{Countable K} {V B : Type}.
Implicit Types (m : gmap K V) (g : K -> V -> list B).

Definition gmap_flat g m : list B := map_to_list m ≫= uncurry g.

Lemma gmap_flat_empty g : gmap_flat g ∅ = [].
Proof. unfold gmap_flat. by rewrite map_to_list_empty. Qed.

Lemma gmap_flat_insert g m k v :
  gmap_flat g (<[k := v]> m) ≡ₚ g k v ++ gmap_flat g (delete k m).
Proof.
  unfold gmap_flat. rewrite <- insert_delete_eq, map_to_list_insert by apply lookup_delete_eq.
  done.
Qed.

Lemma gmap_flat_lookup g m k v :
  m !! k = Some v -> gmap_flat g m ≡ₚ g k v ++ gmap_flat g (delete k m).
Proof. intros Hk. rewrite <- (insert_id m k v) at 1 by done. apply gmap_flat_insert. Qed.

Lemma gmap_flat_ext g g' m :
  (forall k v, m !! k = Some v -> g k v = g' k v) -> gmap_flat g m = gmap_flat g' m.
Proof.
  intros Hg. unfold gmap_flat.
  assert (forall kv, kv ∈ map_to_list m -> uncurry g kv = uncurry g' kv) as Hl.
  { intros [k v] Hin. apply elem_of_map_to_list in Hin. cbn. eauto. }
  induction (map_to_list m) as [|kv l IH]; [done|]. cbn.
  rewrite Hl by constructor. f_equal. apply IH. intros. apply Hl. by constructor.
Qed.
End FlatMaps.

#[global] Instance app_submseteq_proper {A} :
  Proper (submseteq ==> submseteq ==> submseteq) (@app A).
Proof. intros l1 l2 H12 k1 k2 Hk. by apply submseteq_app. Qed.

#[global] Instance app_submseteq_proper_flip {A} :
  Proper (flip submseteq ==> flip submseteq ==> flip submseteq) (@app A).
Proof. intros l1 l2 H12 k1 k2 Hk. by apply submseteq_app. Qed.

(** Replacing one part of a concatenation. *)
Lemma concat_insert {A} (ls : list (list A)) (i : nat) (o o' : list A) :
  ls !! i = Some o -> o ++ concat (<[i := o']> ls) ≡ₚ o' ++ concat ls.
Proof.
  intros Hi. rewrite <- (take_drop_middle ls i o Hi) at 2.
  rewrite insert_take_drop by by eapply lookup_lt_Some.
  rewrite !concat_app. cbn. solve_Permutation.
Qed.

(** ** Automation *)

Create HintDb xraft.
Create Rewrite HintDb xraft.

#[export] Hint Rewrite @list_filter_app @length_app @app_nil_r : xraft.

(** Split every conjunction of the goal and every branch of the code that the
    hypothesis [H] still mentions. *)
Ltac split_code_in H :=
  repeat match type of H with
  | context [match ?x with _ => _ end] =>
      lazymatch x with
      | context [match _ with _ => _ end] => fail
      | _ => let E := fresh "E" in destruct x eqn:E
      end; simplify_eq/=
  end; simplify_eq/=.

Ltac split_code :=
  repeat match goal with
  | |- context [match ?x with _ => _ end] =>
      lazymatch x with
      | context [match _ with _ => _ end] => fail
      | _ => let E := fresh "E" in destruct x eqn:E
      end; simplify_eq/=
  end.

(** One weakest-precondition step; [wp_steps] runs them to the end of the
    straight-line part. *)
Ltac wp_step :=
  lazymatch goal with
  | |- wp (se_ret _) _ _ => apply wp_ret
  | |- wp (se_throw _) _ _ => apply wp_throw
  | |- wp (se_get _) _ _ => apply wp_get
  | |- wp (se_modify _) _ _ => apply wp_modify
  | |- wp (se_bind _ _) _ _ => apply wp_bind
  | |- wp (se_try _ _) _ _ => apply wp_try
  | |- wp (if ?b then _ else _) _ _ => let E := fresh "E" in destruct b eqn:E
  end.

Ltac wp_steps := repeat (wp_step; cbn beta iota).
