(* ===== verification/Types.v ===== *)
(** * Shared data of the consensus core

    The plain data of [xraft-core]: identifiers ([types.rs]), log entries
    ([log_entry.rs], [app_record.rs]), voters ([voter.rs]), persisted voting
    state ([quorum_state.rs]), configuration ([config.rs]), roles and the
    public projection ([consensus_state.rs]), the protocol state of a node
    ([node_state.rs], [follower_progress.rs]), RPC messages ([rpc.rs]),
    snapshots ([snapshot.rs]), I/O actions ([io_action.rs]) and errors.

    [NodeId], [Term], [Offset] wrap one [u64] and are kept as [N]; a
    [ClusterId] wraps a UUID, a 128-bit number whose nil value is [0];
    instants and durations are natural numbers of one unit. *)

From Stdlib Require Import ZifyBool Lia.
From Stdlib Require Import Strings.Byte.
From stdpp Require Import base list gmap numbers option strings.
From S2P Require Import Prelude.

(** ** Identifiers *)

Abbreviation NodeId := N (only parsing).
Abbreviation Term := N (only parsing).
Abbreviation ClusterId := N (only parsing).
Abbreviation Instant := N (only parsing).
Abbreviation Duration := N (only parsing).
Abbreviation bytes := (list byte) (only parsing).

(** [Term::ZERO] and [Uuid::nil()]. *)
Definition term_zero : Term := 0.
Definition uuid_nil : ClusterId := 0.
Definition is_nil (c : ClusterId) : bool := c =? uuid_nil.

(** [Term::next]. *)
Definition next_term (t : Term) : Term := u64_add t 1.

#[global] Instance byte_eq_dec : EqDecision byte := Byte.byte_eq_dec.

(** ** Log entries *)

Inductive EntryType :=
| Command
| LeaderChangeMessage
| VotersRecordEntry.

#[global] Instance EntryType_eq_dec : EqDecision EntryType.
Proof. solve_decision. Defined.

Definition EntryType_eqb (a b : EntryType) : bool := bool_decide (a = b).

Record LogEntry := mkLogEntry {
  offset : N;
  term : Term;
  entry_type : EntryType;
  payload : bytes;
}.

#[global] Instance LogEntry_eq_dec : EqDecision LogEntry.
Proof. solve_decision. Defined.

Record AppRecord := mkAppRecord { rec_data : bytes }.
Record AppSnapshot := mkAppSnapshot { snap_data : bytes }.

#[global] Instance AppRecord_eq_dec : EqDecision AppRecord.
Proof. solve_decision. Defined.

(** [LogEntry::command] and [LogEntry::leader_change]. *)
Definition command_entry (off : N) (t : Term) (r : AppRecord) : LogEntry :=
  mkLogEntry off t Command (rec_data r).
Definition leader_change_entry (off : N) (t : Term) : LogEntry :=
  mkLogEntry off t LeaderChangeMessage [].

(** ** Voters *)

Record VoterInfo := mkVoterInfo {
  voter_id : NodeId;
  endpoint : string;
}.

#[global] Instance VoterInfo_eq_dec : EqDecision VoterInfo.
Proof. solve_decision. Defined.

Record VotersRecord := mkVotersRecord {
  vr_version : N;
  vr_voters : list VoterInfo;
}.

(** The identifiers of a voter list, and [voters.iter().any(|v| v.node_id == n)]. *)
Definition voter_ids (vs : list VoterInfo) : list NodeId := map voter_id vs.
Definition is_member (n : NodeId) (vs : list VoterInfo) : bool :=
  existsb (fun v => voter_id v =? n) vs.

Lemma is_member_spec (n : NodeId) (vs : list VoterInfo) :
  is_member n vs = true <-> n ∈ voter_ids vs.
Proof.
  unfold is_member, voter_ids. rewrite existsb_true, list_elem_of_fmap.
  split; intros (v & H1 & H2); exists v; split; auto; lia.
Qed.

(** ** Roles and persisted voting state *)

Inductive Role := Unattached | Follower | Candidate | Leader.

#[global] Instance Role_eq_dec : EqDecision Role.
Proof. solve_decision. Defined.

Definition role_eqb (a b : Role) : bool := bool_decide (a = b).

Lemma role_eqb_spec (a b : Role) : role_eqb a b = true <-> a = b.
Proof. apply bool_decide_eq_true. Qed.

Lemma role_eqb_false (a b : Role) : role_eqb a b = false <-> a <> b.
Proof. apply bool_decide_eq_false. Qed.

Record QuorumState := mkQuorumState {
  qs_current_term : Term;
  qs_voted_for : option NodeId;
  qs_leader_id : option NodeId;
  qs_leader_epoch : Term;
}.

#[global] Instance QuorumState_eq_dec : EqDecision QuorumState.
Proof. solve_decision. Defined.

(** ** Errors

    The variants the sources construct.  A message built with [format!] is
    kept as the values it prints. *)

Inductive XraftError :=
| StorageError (what : string)
| TransportError (what : string)
| NotLeader
| Shutdown
| SerializationError (what : string)
| Corruption (what : string)
| InvalidConfig (reason : string)
| RecoveryRequired
| AlreadyBootstrapped (reason : string)
| InvalidBootstrapConfig (reason : string)
| InvalidClusterId
| InvalidElectionState (role : Role)
| InvalidResponse (reason : string)
| StateMachineApplyError (off : N)
(** Variants of [io::Error] the code inspects. *)
| IoWouldBlock
| IoTimedOut
| IoNotFound
| IoConnectionReset
| IoUnexpectedEof
| IoOther (what : string).

#[global] Instance XraftError_eq_dec : EqDecision XraftError.
Proof. solve_decision. Defined.

Abbreviation Result A := (result A XraftError) (only parsing).

(** ** Configuration *)

Record RaftConfig := mkRaftConfig {
  cfg_node_id : NodeId;
  election_timeout_min_ms : N;
  election_timeout_max_ms : N;
  fetch_interval_ms : N;
  max_batch_size : N;
  max_fetch_bytes : N;
  snapshot_interval : N;
  data_dir : string;
}.

Definition default_inner : RaftConfig := {|
  cfg_node_id := 0;
  election_timeout_min_ms := 150;
  election_timeout_max_ms := 300;
  fetch_interval_ms := 50;
  max_batch_size := 256;
  max_fetch_bytes := 1048576;
  snapshot_interval := 10000;
  data_dir := "data";
|}.

Definition with_node_id (n : NodeId) : RaftConfig := {|
  cfg_node_id := n;
  election_timeout_min_ms := election_timeout_min_ms default_inner;
  election_timeout_max_ms := election_timeout_max_ms default_inner;
  fetch_interval_ms := fetch_interval_ms default_inner;
  max_batch_size := max_batch_size default_inner;
  max_fetch_bytes := max_fetch_bytes default_inner;
  snapshot_interval := snapshot_interval default_inner;
  data_dir := data_dir default_inner;
|}.

Definition validate (c : RaftConfig) : result unit string :=
  if election_timeout_max_ms c <=? election_timeout_min_ms c then
    Err "election_timeout_min_ms must be < election_timeout_max_ms"%string
  else if election_timeout_min_ms c <=? fetch_interval_ms c then
    Err "fetch_interval_ms must be < election_timeout_min_ms"%string
  else Ok tt.

(** ** Snapshots *)

Record SnapshotId := mkSnapshotId { sid_end_offset : N; sid_epoch : Term }.

Record SnapshotMetadata := mkSnapshotMetadata {
  last_included_offset : N;
  last_included_term : Term;
  sm_voters : list VoterInfo;
  sm_leader_epoch : Term;
}.

Record Snapshot := mkSnapshot {
  snap_metadata : SnapshotMetadata;
  app_snapshot : AppSnapshot;
}.

(** ** RPC messages *)

Record VoteRequest := mkVoteRequest {
  vreq_term : Term;
  candidate_id : NodeId;
  last_log_offset : N;
  last_log_term : Term;
  vreq_is_pre_vote : bool;
}.

Record VoteResponse := mkVoteResponse {
  vresp_term : Term;
  vote_granted : bool;
  vresp_is_pre_vote : bool;
}.

Record FetchRequest := mkFetchRequest {
  replica_id : NodeId;
  fetch_offset : N;
  last_fetched_epoch : Term;
  freq_max_bytes : N;
}.

Record DivergingEpoch := mkDivergingEpoch { div_epoch : Term; div_end_offset : N }.

Record FetchResponse := mkFetchResponse {
  fr_leader_id : NodeId;
  fr_leader_epoch : Term;
  fr_high_watermark : N;
  fr_log_start_offset : N;
  fr_entries : list LogEntry;
  fr_diverging_epoch : option DivergingEpoch;
  fr_snapshot_id : option SnapshotId;
}.

Record FetchSnapshotRequest := mkFetchSnapshotRequest {
  fsr_snapshot_id : SnapshotId;
  fsr_position : N;
  fsr_max_bytes : N;
}.

Record FetchSnapshotResponse := mkFetchSnapshotResponse {
  fsp_data : bytes;
  fsp_position : N;
  is_last_chunk : bool;
}.

Inductive RpcMembershipError :=
| MENotLeader (leader_id : option NodeId)
| MEChangeInProgress
| MENodeAlreadyVoter
| MENodeNotFound
| MENodeNotCaughtUp.

Inductive RpcPayload :=
| PVoteRequest (r : VoteRequest)
| PVoteResponse (r : VoteResponse)
| PFetchRequest (r : FetchRequest)
| PFetchResponse (r : FetchResponse)
| PFetchSnapshotRequest (r : FetchSnapshotRequest)
| PFetchSnapshotResponse (r : FetchSnapshotResponse)
| PAddVoterRequest (voter : VoterInfo)
| PRemoveVoterRequest (node_id : NodeId)
| PUpdateVoterRequest (voter : VoterInfo)
| PMembershipChangeResponse (success : bool) (error : option RpcMembershipError).

Record RpcEnvelope := mkRpcEnvelope {
  env_cluster_id : ClusterId;
  env_leader_epoch : Term;
  env_source : NodeId;
  env_payload : RpcPayload;
}.
