(* ===== verification/NodeState.v ===== *)
(** * The protocol state of a node

    [node_state.rs] with its follower progress ([follower_progress.rs]) and
    its public projection ([consensus_state.rs]), and the I/O actions that
    the event-driven components collect ([io_action.rs]).  Hash sets and
    maps are stdpp's [gset] and [gmap]. *)

From Stdlib Require Import ZifyBool Lia.
From stdpp Require Import base list gmap numbers option strings.
From S2P Require Import Prelude Types.

Record PendingMembershipChange := mkPending {
  pend_offset : N;
  pend_voters : list VoterInfo;
}.

Record FollowerProgress := mkFollowerProgress {
  fp_node_id : NodeId;
  fp_fetch_offset : N;
  fp_last_fetch_timestamp : Instant;
  fp_is_voter : bool;
}.

Record NodeState := mkNodeState {
  node_id : NodeId;
  cluster_id : ClusterId;
  current_term : Term;
  voted_for : option NodeId;
  role : Role;
  leader_id : option NodeId;
  log_start_offset : N;
  log_end_offset : N;
  high_watermark : N;
  voter_set : list VoterInfo;
  observers : gset NodeId;
  pending_membership_change : option PendingMembershipChange;
  follower_state : gmap NodeId FollowerProgress;
  election_deadline : Instant;
  votes_received : gset NodeId;
  pre_votes_received : gset NodeId;
  check_quorum_deadline : Instant;
}.

#[export] Instance node_id_updater : Updater node_id := fun f s =>
  mkNodeState (f (node_id s)) (cluster_id s) (current_term s) (voted_for s) (role s) (leader_id s) (log_start_offset s) (log_end_offset s) (high_watermark s) (voter_set s) (observers s) (pending_membership_change s) (follower_state s) (election_deadline s) (votes_received s) (pre_votes_received s) (check_quorum_deadline s).
#[export] Instance cluster_id_updater : Updater cluster_id := fun f s =>
  mkNodeState (node_id s) (f (cluster_id s)) (current_term s) (voted_for s) (role s) (leader_id s) (log_start_offset s) (log_end_offset s) (high_watermark s) (voter_set s) (observers s) (pending_membership_change s) (follower_state s) (election_deadline s) (votes_received s) (pre_votes_received s) (check_quorum_deadline s).
#[export] Instance current_term_updater : Updater current_term := fun f s =>
  mkNodeState (node_id s) (cluster_id s) (f (current_term s)) (voted_for s) (role s) (leader_id s) (log_start_offset s) (log_end_offset s) (high_watermark s) (voter_set s) (observers s) (pending_membership_change s) (follower_state s) (election_deadline s) (votes_received s) (pre_votes_received s) (check_quorum_deadline s).
#[export] Instance voted_for_updater : Updater voted_for := fun f s =>
  mkNodeState (node_id s) (cluster_id s) (current_term s) (f (voted_for s)) (role s) (leader_id s) (log_start_offset s) (log_end_offset s) (high_watermark s) (voter_set s) (observers s) (pending_membership_change s) (follower_state s) (election_deadline s) (votes_received s) (pre_votes_received s) (check_quorum_deadline s).
#[export] Instance role_updater : Updater role := fun f s =>
  mkNodeState (node_id s) (cluster_id s) (current_term s) (voted_for s) (f (role s)) (leader_id s) (log_start_offset s) (log_end_offset s) (high_watermark s) (voter_set s) (observers s) (pending_membership_change s) (follower_state s) (election_deadline s) (votes_received s) (pre_votes_received s) (check_quorum_deadline s).
#[export] Instance leader_id_updater : Updater leader_id := fun f s =>
  mkNodeState (node_id s) (cluster_id s) (current_term s) (voted_for s) (role s) (f (leader_id s)) (log_start_offset s) (log_end_offset s) (high_watermark s) (voter_set s) (observers s) (pending_membership_change s) (follower_state s) (election_deadline s) (votes_received s) (pre_votes_received s) (check_quorum_deadline s).
#[export] Instance log_start_offset_updater : Updater log_start_offset := fun f s =>
  mkNodeState (node_id s) (cluster_id s) (current_term s) (voted_for s) (role s) (leader_id s) (f (log_start_offset s)) (log_end_offset s) (high_watermark s) (voter_set s) (observers s) (pending_membership_change s) (follower_state s) (election_deadline s) (votes_received s) (pre_votes_received s) (check_quorum_deadline s).
#[export] Instance log_end_offset_updater : Updater log_end_offset := fun f s =>
  mkNodeState (node_id s) (cluster_id s) (current_term s) (voted_for s) (role s) (leader_id s) (log_start_offset s) (f (log_end_offset s)) (high_watermark s) (voter_set s) (observers s) (pending_membership_change s) (follower_state s) (election_deadline s) (votes_received s) (pre_votes_received s) (check_quorum_deadline s).
#[export] Instance high_watermark_updater : Updater high_watermark := fun f s =>
  mkNodeState (node_id s) (cluster_id s) (current_term s) (voted_for s) (role s) (leader_id s) (log_start_offset s) (log_end_offset s) (f (high_watermark s)) (voter_set s) (observers s) (pending_membership_change s) (follower_state s) (election_deadline s) (votes_received s) (pre_votes_received s) (check_quorum_deadline s).
#[export] Instance voter_set_updater : Updater voter_set := fun f s =>
  mkNodeState (node_id s) (cluster_id s) (current_term s) (voted_for s) (role s) (leader_id s) (log_start_offset s) (log_end_offset s) (high_watermark s) (f (voter_set s)) (observers s) (pending_membership_change s) (follower_state s) (election_deadline s) (votes_received s) (pre_votes_received s) (check_quorum_deadline s).
#[export] Instance observers_updater : Updater observers := fun f s =>
  mkNodeState (node_id s) (cluster_id s) (current_term s) (voted_for s) (role s) (leader_id s) (log_start_offset s) (log_end_offset s) (high_watermark s) (voter_set s) (f (observers s)) (pending_membership_change s) (follower_state s) (election_deadline s) (votes_received s) (pre_votes_received s) (check_quorum_deadline s).
#[export] Instance pending_membership_change_updater : Updater pending_membership_change := fun f s =>
  mkNodeState (node_id s) (cluster_id s) (current_term s) (voted_for s) (role s) (leader_id s) (log_start_offset s) (log_end_offset s) (high_watermark s) (voter_set s) (observers s) (f (pending_membership_change s)) (follower_state s) (election_deadline s) (votes_received s) (pre_votes_received s) (check_quorum_deadline s).
#[export] Instance follower_state_updater : Updater follower_state := fun f s =>
  mkNodeState (node_id s) (cluster_id s) (current_term s) (voted_for s) (role s) (leader_id s) (log_start_offset s) (log_end_offset s) (high_watermark s) (voter_set s) (observers s) (pending_membership_change s) (f (follower_state s)) (election_deadline s) (votes_received s) (pre_votes_received s) (check_quorum_deadline s).
#[export] Instance election_deadline_updater : Updater election_deadline := fun f s =>
  mkNodeState (node_id s) (cluster_id s) (current_term s) (voted_for s) (role s) (leader_id s) (log_start_offset s) (log_end_offset s) (high_watermark s) (voter_set s) (observers s) (pending_membership_change s) (follower_state s) (f (election_deadline s)) (votes_received s) (pre_votes_received s) (check_quorum_deadline s).
#[export] Instance votes_received_updater : Updater votes_received := fun f s =>
  mkNodeState (node_id s) (cluster_id s) (current_term s) (voted_for s) (role s) (leader_id s) (log_start_offset s) (log_end_offset s) (high_watermark s) (voter_set s) (observers s) (pending_membership_change s) (follower_state s) (election_deadline s) (f (votes_received s)) (pre_votes_received s) (check_quorum_deadline s).
#[export] Instance pre_votes_received_updater : Updater pre_votes_received := fun f s =>
  mkNodeState (node_id s) (cluster_id s) (current_term s) (voted_for s) (role s) (leader_id s) (log_start_offset s) (log_end_offset s) (high_watermark s) (voter_set s) (observers s) (pending_membership_change s) (follower_state s) (election_deadline s) (votes_received s) (f (pre_votes_received s)) (check_quorum_deadline s).
#[export] Instance check_quorum_deadline_updater : Updater check_quorum_deadline := fun f s =>
  mkNodeState (node_id s) (cluster_id s) (current_term s) (voted_for s) (role s) (leader_id s) (log_start_offset s) (log_end_offset s) (high_watermark s) (voter_set s) (observers s) (pending_membership_change s) (follower_state s) (election_deadline s) (votes_received s) (pre_votes_received s) (f (check_quorum_deadline s)).

(** [NodeState::new_unattached]; [now] is the [Instant::now()] it reads. *)
Definition new_unattached (id : NodeId) (now : Instant) : NodeState := {|
  node_id := id;
  cluster_id := uuid_nil;
  current_term := term_zero;
  voted_for := None;
  role := Unattached;
  leader_id := None;
  log_start_offset := 0;
  log_end_offset := 0;
  high_watermark := 0;
  voter_set := [];
  observers := ∅;
  pending_membership_change := None;
  follower_state := ∅;
  election_deadline := now;
  votes_received := ∅;
  pre_votes_received := ∅;
  check_quorum_deadline := now;
|}.

Record ConsensusState := mkConsensusState {
  cs_node_id : NodeId;
  cs_current_term : Term;
  cs_role : Role;
  cs_leader_id : option NodeId;
  cs_log_end_offset : N;
  cs_high_watermark : N;
  cs_voter_set : list VoterInfo;
}.

(** [NodeState::project]. *)
Definition project (s : NodeState) : ConsensusState := {|
  cs_node_id := node_id s;
  cs_current_term := current_term s;
  cs_role := role s;
  cs_leader_id := leader_id s;
  cs_log_end_offset := log_end_offset s;
  cs_high_watermark := high_watermark s;
  cs_voter_set := voter_set s;
|}.

(** ** I/O actions *)

Inductive IoAction :=
| PersistQuorumState (qs : QuorumState)
| AppendLog (entries : list LogEntry)
| TruncateSuffix (from : N)
| TruncatePrefix (up_to : N)
| SendRpc (target : NodeId) (env : RpcEnvelope)
| SaveSnapshot (snap : Snapshot).

(** [IoActionBatch] is the vector of its actions; [push] appends. *)
Abbreviation IoActionBatch := (list IoAction) (only parsing).
Definition batch_push (b : IoActionBatch) (a : IoAction) : IoActionBatch := b ++ [a].
