(* ===== verification/Interfaces.v ===== *)
(** * The traits components talk through

    [traits.rs] and [listener.rs]: one type class per trait, an operation per
    method.  A method that takes [&self] with interior mutability returns the
    store after the call.  [StateMachine], [Clock], [TransportSender] and
    [TransportReceiver] are used by [raft_node.rs] and [replication.rs]
    through the methods below.

    What one component may rely on about another is a class of laws
    ([QuorumStateStoreLaws], [LogStoreLaws]); the clients' theorems assume
    the laws, the stores' files provide instances. *)

From Stdlib Require Import ZifyBool Lia.
From Stdlib Require Import Strings.Byte.
From stdpp Require Import base list gmap numbers option strings.
From S2P Require Import Prelude Types.

(** ** Stores *)

Class LogStore (L : Type) := {
  ls_append : list LogEntry -> SE L XraftError unit;
  ls_read : N -> N -> L -> Result (list LogEntry);
  ls_truncate_suffix : N -> SE L XraftError unit;
  ls_truncate_prefix : N -> SE L XraftError unit;
  ls_log_start_offset : L -> N;
  ls_log_end_offset : L -> N;
  ls_entry_at : N -> L -> Result (option LogEntry);
}.

(** The store of voting state is generic in the record it persists: the
    sources use two versions of it, with and without the cluster id. *)
Class QuorumStateStore (QS Q : Type) := {
  qss_load : Q -> Result (option QS);
  qss_save : QS -> SE Q XraftError unit;
}.

Class SnapshotIO (S : Type) := {
  sio_save : Snapshot -> SE S XraftError unit;
  sio_load_latest : S -> Result (option Snapshot);
}.

(** ** Runtime *)

Class TransportSender (T : Type) := {
  ts_send : NodeId -> RpcEnvelope -> SE T XraftError unit;
}.

Class TransportReceiver (T : Type) := {
  tr_recv : SE T XraftError RpcEnvelope;
}.

(** Reading the clock or drawing a timeout may move it. *)
Class Clock (C : Type) := {
  clk_now : C -> C * Instant;
  clk_random_election_timeout : C -> C * Duration;
  clk_sleep_until : Instant -> C -> C;
}.

Class StateMachine (S : Type) := {
  sm_apply : N -> AppRecord -> SE S XraftError unit;
  sm_restore : AppSnapshot -> SE S XraftError unit;
}.

Class Listener (L : Type) := {
  li_handle_commit : list (N * AppRecord) -> L -> L;
  (** The reader is the snapshot's bytes and metadata. *)
  li_handle_load_snapshot : bytes -> SnapshotMetadata -> L -> L;
  li_handle_leader_change : NodeId -> Term -> L -> L;
  li_begin_shutdown : L -> L;
}.

(** [listener_event.rs]: one constructor per callback. *)
Inductive ListenerEvent :=
| EvCommit (batch : list (N * AppRecord))
| EvLoadSnapshot (data : bytes) (metadata : SnapshotMetadata)
| EvLeaderChange (leader : NodeId) (t : Term)
| EvShutdown.

(** ** Laws *)

(** Durability of the voting state: [load] never fails and reads what was
    last saved; a save that reports an error has left the old record or the
    new one (the write goes to a temporary file that is renamed). *)
Class QuorumStateStoreLaws (QS Q : Type) `{QuorumStateStore QS Q} := {
  qss_persisted : Q -> option QS;
  qss_load_persisted : forall q, qss_load q = Ok (qss_persisted q);
  qss_save_ok : forall qs q q',
    qss_save qs q = (q', Ok tt) -> qss_persisted q' = Some qs;
  qss_save_err : forall qs q q' e,
    qss_save qs q = (q', Err e) ->
    qss_persisted q' = qss_persisted q \/ qss_persisted q' = Some qs;
}.

(** A sender only ever puts on the wire what it was asked to send; a send
    that reports an error may or may not have. *)
Class TransportSenderLaws (T : Type) `{TransportSender T} := {
  ts_sent : T -> list (NodeId * RpcEnvelope);
  ts_send_sent : forall target env t t' r,
    ts_send target env t = (t', r) ->
    forall m, m ∈ ts_sent t' -> m ∈ ts_sent t \/ m = (target, env);
}.

(** ** Contiguous logs

    The abstract value of a log: a start offset and the entries from it on.
    Entry [i] carries offset [start + i]. *)

Record AbsLog := mkAbsLog { al_start : N; al_entries : list LogEntry }.

Definition al_end (l : AbsLog) : N := al_start l + N.of_nat (length (al_entries l)).

(** Offsets of [es] run upwards from [o] without a gap. *)
Fixpoint contiguous (o : N) (es : list LogEntry) : bool :=
  match es with
  | [] => true
  | e :: es' => (offset e =? o) && contiguous (o + 1) es'
  end.

Definition al_wf (l : AbsLog) : Prop := contiguous (al_start l) (al_entries l) = true.

Definition al_append (es : list LogEntry) (l : AbsLog) : AbsLog :=
  mkAbsLog (al_start l) (al_entries l ++ es).

(** [start, end) *)
Definition al_read (a b : N) (l : AbsLog) : list LogEntry :=
  list_filter (fun e => (a <=? offset e) && (offset e <? b)) (al_entries l).

Definition al_truncate_suffix (from : N) (l : AbsLog) : AbsLog :=
  mkAbsLog (al_start l) (list_filter (fun e => offset e <? from) (al_entries l)).

Definition al_truncate_prefix (up_to : N) (l : AbsLog) : AbsLog :=
  mkAbsLog (N.max (al_start l) up_to)
           (list_filter (fun e => up_to <=? offset e) (al_entries l)).

Definition al_entry_at (o : N) (l : AbsLog) : option LogEntry :=
  list_find_first (fun e => offset e =? o) (al_entries l).

(** A store implements the trait for well-formed logs when its observations
    are those of an abstract log and its successful operations are the
    abstract ones. *)
Class LogStoreLaws (L : Type) `{LogStore L} := {
  ls_inv : L -> Prop;
  ls_abs : L -> AbsLog;
  ls_abs_wf : forall l, ls_inv l -> al_wf (ls_abs l);
  ls_start_abs : forall l, ls_inv l -> ls_log_start_offset l = al_start (ls_abs l);
  ls_end_abs : forall l, ls_inv l -> ls_log_end_offset l = al_end (ls_abs l);
  ls_read_abs : forall l a b, ls_inv l -> ls_read a b l = Ok (al_read a b (ls_abs l));
  ls_entry_at_abs : forall l o, ls_inv l -> o < al_end (ls_abs l) ->
    ls_entry_at o l = Ok (al_entry_at o (ls_abs l));
  ls_append_abs : forall l es l' r,
    ls_inv l -> contiguous (al_end (ls_abs l)) es = true ->
    al_end (al_append es (ls_abs l)) <= u64_max ->
    ls_append es l = (l', r) ->
    ls_inv l' /\ (r = Ok tt -> ls_abs l' = al_append es (ls_abs l))
              /\ (forall e, r = Err e -> ls_abs l' = ls_abs l);
  ls_truncate_suffix_abs : forall l from,
    ls_inv l -> al_start (ls_abs l) <= from ->
    exists l', ls_truncate_suffix from l = (l', Ok tt) /\ ls_inv l' /\
               ls_abs l' = al_truncate_suffix from (ls_abs l);
}.

(** ** Facts about contiguous logs *)

Lemma contiguous_app (o : N) (es1 es2 : list LogEntry) :
  contiguous o (es1 ++ es2) =
  contiguous o es1 && contiguous (o + N.of_nat (length es1)) es2.
Proof.
  revert o. induction es1 as [|e es1 IH]; intros o; cbn [contiguous app length].
  - rewrite N.add_0_r. done.
  - rewrite IH, andb_assoc. do 2 f_equal. lia.
Qed.

Lemma contiguous_bounds (o : N) (es : list LogEntry) (e : LogEntry) :
  contiguous o es = true -> e ∈ es -> o <= offset e < o + N.of_nat (length es).
Proof.
  revert o. induction es as [|e' es IH]; intros o Hc He; [set_solver|].
  cbn [contiguous] in Hc. apply andb_prop in Hc as [Ho Hc].
  apply elem_of_cons in He as [->|He]; cbn [length]; [lia|].
  specialize (IH _ Hc He). lia.
Qed.

(** Filtering a contiguous log by an upper bound takes a prefix of it. *)
Lemma contiguous_filter_below (o b : N) (es : list LogEntry) :
  contiguous o es = true ->
  list_filter (fun e => offset e <? b) es = take (N.to_nat (b - o)) es.
Proof.
  revert o. induction es as [|e es IH]; intros o Hc.
  - by rewrite take_nil.
  - cbn [contiguous] in Hc. apply andb_prop in Hc as [Ho Hc]. cbn [list_filter].
    destruct (offset e <? b) eqn:Hb.
    + rewrite (IH _ Hc). replace (N.to_nat (b - o)) with (S (N.to_nat (b - (o + 1)))) by lia.
      done.
    + replace (N.to_nat (b - o)) with 0%nat by lia. cbn [take].
      apply list_filter_none. intros x Hx.
      pose proof (contiguous_bounds _ _ _ Hc Hx). lia.
Qed.

(** Filtering by a lower bound drops a prefix. *)
Lemma contiguous_filter_above (o a : N) (es : list LogEntry) :
  contiguous o es = true ->
  list_filter (fun e => a <=? offset e) es = drop (N.to_nat (a - o)) es.
Proof.
  revert o. induction es as [|e es IH]; intros o Hc.
  - by rewrite drop_nil.
  - cbn [contiguous] in Hc. pose proof Hc as Hc0. apply andb_prop in Hc as [Ho Hc].
    cbn [list_filter]. destruct (a <=? offset e) eqn:Hb.
    + replace (N.to_nat (a - o)) with 0%nat by lia. cbn [drop]. f_equal.
      apply list_filter_all. intros x Hx.
      pose proof (contiguous_bounds _ _ _ Hc Hx). lia.
    + rewrite (IH _ Hc). replace (N.to_nat (a - o)) with (S (N.to_nat (a - (o + 1)))) by lia.
      done.
Qed.

Lemma contiguous_take (o : N) (n : nat) (es : list LogEntry) :
  contiguous o es = true -> contiguous o (take n es) = true.
Proof.
  intros Hc. rewrite <- (take_drop n es), contiguous_app in Hc.
  by apply andb_prop in Hc as [? _].
Qed.

Lemma contiguous_drop (o : N) (n : nat) (es : list LogEntry) :
  contiguous o es = true -> (n <= length es)%nat ->
  contiguous (o + N.of_nat n) (drop n es) = true.
Proof.
  intros Hc Hn. rewrite <- (take_drop n es), contiguous_app in Hc.
  apply andb_prop in Hc as [_ Hc]. by rewrite length_take_le in Hc.
Qed.

Lemma contiguous_lookup (o : N) (es : list LogEntry) (i : nat) (e : LogEntry) :
  contiguous o es = true -> es !! i = Some e -> offset e = o + N.of_nat i.
Proof.
  revert o i. induction es as [|e' es IH]; intros o i Hc Hi; [done|].
  cbn [contiguous] in Hc. apply andb_prop in Hc as [Ho Hc].
  destruct i as [|i]; cbn in Hi; simplify_eq.
  - lia.
  - rewrite (IH _ _ Hc Hi). lia.
Qed.

(** The offset after the last entry. *)
Lemma contiguous_last_end (o : N) (es : list LogEntry) :
  contiguous o es = true -> o + N.of_nat (length es) <= u64_max ->
  match last es with Some e => u64_add (offset e) 1 | None => o end
  = o + N.of_nat (length es).
Proof.
  intros Hc Hle. destruct (last es) as [e|] eqn:El.
  - rewrite last_lookup in El. pose proof (contiguous_lookup _ _ _ _ Hc El).
    destruct es; [done|]. cbn in *. rewrite u64_add_small; lia.
  - apply last_None in El as ->. cbn. lia.
Qed.

(** Looking an offset up is indexing. *)
Lemma contiguous_find (o k : N) (es : list LogEntry) :
  contiguous o es = true -> o <= k ->
  list_find_first (fun e => offset e =? k) es = es !! N.to_nat (k - o).
Proof.
  revert o. induction es as [|e es IH]; intros o Hc Hk; [done|].
  cbn [contiguous] in Hc. apply andb_prop in Hc as [Ho Hc]. cbn [list_find_first].
  destruct (offset e =? k) eqn:He.
  - replace (N.to_nat (k - o)) with 0%nat by lia. done.
  - rewrite (IH (o + 1)) by (auto; lia).
    replace (N.to_nat (k - o)) with (S (N.to_nat (k - (o + 1)))) by lia. done.
Qed.

(** Reading a range of a well-formed log is a slice. *)
Lemma al_read_slice (a b : N) (l : AbsLog) :
  al_wf l ->
  al_read a b l =
  drop (N.to_nat (a - al_start l)) (take (N.to_nat (b - al_start l)) (al_entries l)).
Proof.
  intros Hwf. unfold al_read.
  rewrite <- (contiguous_filter_below (al_start l)) by done.
  rewrite <- (contiguous_filter_above (al_start l)).
  - rewrite list_filter_filter. done.
  - rewrite (contiguous_filter_below (al_start l)) by done. by apply contiguous_take.
Qed.

#[export] Hint Resolve contiguous_take contiguous_drop : xraft.
