(* ===== verification/Tasks.v ===== *)
(** * Asynchronous tasks and the locks they share

    An [async fn] that shares state with others is a [Task]: a sequence of
    actions on the shared world, one per await of the source.  Between two of
    them any other task may run.  An action that returns [None] is
    [Poll::Pending]: the task waits and the world is unchanged.
    [tokio::time::sleep] is a constructor of its own, so that delays can be
    spoken about.

    A lock is taken by an action that may be pending and given back by a later
    action of the task that holds the guard.  The lock itself is tokio's
    [RwLock]: the class [RwLock] with what tokio documents as its laws.

    [task_run] runs one task undisturbed; [task_step] is one step of one task
    of a pool.  The invariants of a pool are proved once, from what each
    action of a task may do ([holds]); no pool can step for ever
    ([pool_terminates]). *)

From Stdlib Require Import ZifyBool ZifyN Lia.
From stdpp Require Import base list numbers option.
From S2P Require Import Prelude Types.

#[warnings="-register-all"] Inductive Task (W A : Type) : Type :=
| Done (a : A)
| Step (f : W -> option (W * Task W A))
| Sleep (d : Duration) (k : Task W A).
Arguments Done {W A} a.
Arguments Step {W A} f.
Arguments Sleep {W A} d k.

Section Tasks.
Context {W : Type}.

Fixpoint task_bind {A B} (t : Task W A) (k : A -> Task W B) : Task W B :=
  match t with
  | Done a => k a
  | Step f => Step (fun w => match f w with
                             | Some (w', t') => Some (w', task_bind t' k)
                             | None => None
                             end)
  | Sleep d t' => Sleep d (task_bind t' k)
  end.

(** One await on a primitive that may be pending. *)
Definition await {A} (f : W -> option (W * A)) : Task W A :=
  Step (fun w => match f w with
                 | Some (w', a) => Some (w', Done a)
                 | None => None
                 end).
Definition sleep (d : Duration) : Task W unit := Sleep d (Done tt).

(** Run a task with nobody else: the world, the result and the time slept. *)
Fixpoint task_run {A} (t : Task W A) (w : W) : option (W * A * Duration) :=
  match t with
  | Done a => Some (w, a, 0)
  | Step f => match f w with
              | Some (w', t') => task_run t' w'
              | None => None
              end
  | Sleep d k => match task_run k w with
                 | Some (w', a, d') => Some (w', a, d + d')
                 | None => None
                 end
  end.

Lemma task_run_bind {A B} (t : Task W A) (k : A -> Task W B) (w : W) :
  task_run (task_bind t k) w =
  match task_run t w with
  | Some (w', a, d) =>
      match task_run (k a) w' with
      | Some (w'', b, d') => Some (w'', b, d + d')
      | None => None
      end
  | None => None
  end.
Proof.
  revert t w. fix IH 1. intros [a|f|d t'] w; cbn.
  - by destruct (task_run (k a) w) as [[[??]?]|].
  - destruct (f w) as [[w' t']|]; [apply IH|done].
  - rewrite IH. destruct (task_run t' w) as [[[w' a] d']|]; [|done].
    destruct (task_run (k a) w') as [[[??]?]|]; [|done]. by rewrite N.add_assoc.
Qed.

(** ** One step of one task

    A thread is a task and the instant from which it may run. *)

Inductive task_step {A} (now : Instant) :
  W -> Instant * Task W A -> W -> Instant * Task W A -> Prop :=
| task_step_action wake f w w' t :
    wake <= now -> f w = Some (w', t) ->
    task_step now w (wake, Step f) w' (now, t)
| task_step_sleep wake d k w :
    wake <= now -> task_step now w (wake, Sleep d k) w (now + d, k).

(** ** What the actions of a task may do

    [holds R D o t]: the task [t] owns [o] (a list of messages, say), each of
    its actions turns the world and what the task owns in the way [R] allows,
    and it ends with a result that [D] allows with what it still owns. *)

Section Holds.
Context {O A : Type} (R : W -> O -> W -> O -> Prop) (D : O -> A -> Prop).

#[warnings="-register-all"] Inductive holds (o : O) : Task W A -> Prop :=
| holds_done a : D o a -> holds o (Done a)
| holds_step f :
    (forall w w' t, f w = Some (w', t) -> exists o', R w o w' o' /\ holds o' t) ->
    holds o (Step f)
| holds_sleep d k : holds o k -> holds o (Sleep d k).

Lemma holds_task_step now w wake t w' wake' t' o :
  (forall v p, R v p v p) ->
  holds o t -> task_step now w (wake, t) w' (wake', t') ->
  exists o', R w o w' o' /\ holds o' t'.
Proof.
  intros Hrefl Ho Hs. inversion Hs; subst; inversion Ho; subst; eauto.
Qed.

Lemma holds_await {B} o (f : W -> option (W * B)) (k : B -> Task W A) :
  (forall w w' b, f w = Some (w', b) -> exists o', R w o w' o' /\ holds o' (k b)) ->
  holds o (task_bind (await f) k).
Proof.
  intros Hf. constructor. intros w w' t. cbn.
  destruct (f w) as [[w1 b]|] eqn:E; [|done]. intros [= <- <-]. eauto.
Qed.
End Holds.

(** ** Every pool comes to rest *)

(** [t'] is what is left of [t] after one action, in some world. *)
Inductive remains {A} : Task W A -> Task W A -> Prop :=
| remains_step f w w' t : f w = Some (w', t) -> remains t (Step f)
| remains_sleep d k : remains k (Sleep d k).

Lemma remains_inv {A} (t' t : Task W A) :
  remains t' t ->
  match t with
  | Done _ => False
  | Step f => exists w w', f w = Some (w', t')
  | Sleep _ k => t' = k
  end.
Proof. intros Ht. destruct Ht; eauto. Qed.

Lemma remains_acc {A} (t : Task W A) : Acc remains t.
Proof.
  revert t. fix IH 1. intros [a|f|d k]; constructor; intros t' Ht%remains_inv; cbn in Ht.
  - destruct Ht.
  - destruct Ht as (w & w' & Hf). revert Hf. destruct (f w) as [[w1 t1]|]; [|discriminate].
    intros [= <- <-]. exact (IH t1).
  - subst t'. exact (IH k).
Qed.

(** One task of the pool has made an action. *)
Definition pool_remains {A} (ts' ts : list (Task W A)) : Prop :=
  exists i t t', ts !! i = Some t /\ remains t' t /\ ts' = <[i := t']> ts.

Lemma pool_terminates {A} : well_founded (pool_remains (A := A)).
Proof.
  intros ts. induction ts as [|t ts IH].
  { constructor. by intros ts' (i & t & t' & Hi & _). }
  revert ts IH. induction (remains_acc t) as [t _ IHt]. intros ts IH.
  induction IH as [ts Hts IHts]. constructor.
  intros ts' ([|i] & t0 & t' & Hi & Hr & ->); cbn in Hi.
  - injection Hi as <-. apply IHt; [done|]. by constructor.
  - cbn. apply IHts. by exists i, t0, t'.
Qed.

End Tasks.

(** ** [tokio::sync::RwLock] *)

(** [read] and [write] give a guard, or are pending; the guards are dropped. *)
Class RwLock (L : Type) := {
  rw_new : L;
  rw_read : L -> option L;
  rw_write : L -> option L;
  rw_drop_read : L -> L;
  rw_drop_write : L -> L;
}.

(** Any number of readers or one writer; a lock nobody holds is granted, and
    dropping the guard gives it back. *)
Class RwLockLaws (L : Type) `{RwLock L} := {
  rw_readers : L -> nat;
  rw_writer : L -> bool;
  rw_new_free : rw_readers rw_new = 0%nat /\ rw_writer rw_new = false;
  rw_read_shared : forall l l', rw_read l = Some l' ->
    rw_writer l = false /\ rw_readers l' = S (rw_readers l) /\ rw_writer l' = false;
  rw_write_exclusive : forall l l', rw_write l = Some l' ->
    rw_readers l = 0%nat /\ rw_writer l = false /\ rw_readers l' = 0%nat /\ rw_writer l' = true;
  rw_read_granted : forall l, rw_readers l = 0%nat -> rw_writer l = false ->
    exists l', rw_read l = Some l' /\ rw_drop_read l' = l;
  rw_write_granted : forall l, rw_readers l = 0%nat -> rw_writer l = false ->
    exists l', rw_write l = Some l' /\ rw_drop_write l' = l;
  rw_read_dropped : forall l, (0 < rw_readers l)%nat ->
    rw_readers (rw_drop_read l) = pred (rw_readers l) /\ rw_writer (rw_drop_read l) = rw_writer l;
  rw_write_dropped : forall l, rw_writer l = true ->
    rw_readers (rw_drop_write l) = rw_readers l /\ rw_writer (rw_drop_write l) = false;
}.

(** A lock that counts its guards. *)
Record CountingLock := mkLock { lock_readers : nat; lock_writer : bool }.

#[global] Instance counting_RwLock : RwLock CountingLock := {|
  rw_new := mkLock 0 false;
  rw_read l := if lock_writer l then None else Some (mkLock (S (lock_readers l)) false);
  rw_write l := if lock_writer l || negb (lock_readers l =? 0)%nat then None else Some (mkLock 0 true);
  rw_drop_read l := mkLock (pred (lock_readers l)) (lock_writer l);
  rw_drop_write l := mkLock (lock_readers l) false;
|}.

#[global] Instance counting_RwLockLaws : RwLockLaws CountingLock.
Proof.
  refine {| rw_readers := lock_readers; rw_writer := lock_writer |}; try done.
  - intros [r [|]] l'; cbn; [done|]. by intros [= <-].
  - intros [[|r] [|]] l'; cbn; try done. by intros [= <-].
  - intros [r wr]; cbn. intros -> ->. by eexists.
  - intros [r wr]; cbn. intros -> ->. by eexists.
Defined.

Notation "x <-- t ;; k" := (task_bind t (fun x => k))
  (at level 60, t at next level, right associativity) : xraft_scope.
