(* ===== verification/BTree.v ===== *)
(** * Ordered maps

    [std::collections::BTreeMap<u64, V>] as the list of its entries in key
    order.  The list is the iteration order, which the sources rely on when
    they walk [range(..k)] or take [next_back()]; a map with strictly
    increasing keys is determined by its lookups ([bt_ext]). *)

From Stdlib Require Import ZifyBool ZifyN Lia Sorting.Sorted.
From stdpp Require Import base list sets numbers option.
From S2P Require Import Prelude.

Abbreviation BTreeMap V := (list (N * V)) (only parsing).

Section BTreeMap.
Context {V : Type}.
Implicit Types (m : BTreeMap V) (k : N) (v : V).

(** The type's invariant. *)
Definition bt_wf m : Prop := StronglySorted N.lt (map fst m).

Fixpoint bt_get k m : option V :=
  match m with
  | [] => None
  | (k', v) :: m' => if k' =? k then Some v else bt_get k m'
  end.

Fixpoint bt_insert k v m : BTreeMap V :=
  match m with
  | [] => [(k, v)]
  | (k', v') :: m' =>
      if k <? k' then (k, v) :: (k', v') :: m'
      else if k =? k' then (k, v) :: m'
      else (k', v') :: bt_insert k v m'
  end.

Fixpoint bt_remove k m : BTreeMap V :=
  match m with
  | [] => []
  | (k', v') :: m' => if k' =? k then m' else (k', v') :: bt_remove k m'
  end.

(** [range(..k)], [range(k..)] and [range(..=k)]. *)
Definition bt_range_lt k m : BTreeMap V := list_filter (fun kv => fst kv <? k) m.
Definition bt_range_ge k m : BTreeMap V := list_filter (fun kv => k <=? fst kv) m.
Definition bt_range_le k m : BTreeMap V := list_filter (fun kv => fst kv <=? k) m.

(** [entry(k).or_insert(v)]: keep the value that is there. *)
Definition bt_or_insert k v m : BTreeMap V :=
  match bt_get k m with Some _ => m | None => bt_insert k v m end.

(** *** Keys *)

Lemma bt_get_keys k m : bt_get k m = None <-> k ∉ map fst m.
Proof.
  induction m as [|[k' v'] m IH]; cbn; [set_solver|].
  destruct (k' =? k) eqn:E.
  - split; [done|]. intros Hn. exfalso. apply Hn. apply N.eqb_eq in E. subst. constructor.
  - rewrite IH, not_elem_of_cons. split; [intros; split; [lia|done]|naive_solver].
Qed.

Lemma bt_wf_cons k v m :
  bt_wf ((k, v) :: m) <-> bt_wf m /\ Forall (fun kv => k < fst kv) m.
Proof.
  unfold bt_wf. cbn. split.
  - intros H. inversion H; subst. split; [done|]. by apply Stdlib.Lists.List.Forall_map.
  - intros [? ?]. constructor; [done|]. by apply Stdlib.Lists.List.Forall_map.
Qed.

Lemma bt_wf_filter (f : N * V -> bool) m : bt_wf m -> bt_wf (list_filter f m).
Proof.
  induction m as [|[k v] m IH]; cbn; [done|]. rewrite bt_wf_cons. intros [Hm Hk].
  destruct (f (k, v)); [|auto]. apply bt_wf_cons. split; [auto|].
  rewrite list.Forall_forall in *. intros x Hx. apply Hk.
  by apply elem_of_list_filter_b in Hx as [? _].
Qed.

Lemma bt_get_gt k k' m :
  Forall (fun kv => k' < fst kv) m -> k <= k' -> bt_get k m = None.
Proof.
  intros Hall Hk. apply bt_get_keys. intros ([? ?] & -> & Hin)%list_elem_of_fmap.
  rewrite list.Forall_forall in Hall. specialize (Hall _ Hin). cbn in *. lia.
Qed.

(** *** Lookup after each operation *)

Lemma bt_get_insert k k' v m :
  bt_get k' (bt_insert k v m) = if k =? k' then Some v else bt_get k' m.
Proof.
  induction m as [|[k0 v0] m IH]; cbn; [done|].
  destruct (k <? k0) eqn:E1; cbn; [done|].
  destruct (k =? k0) eqn:E2; cbn.
  - destruct (k =? k') eqn:E3; [done|].
    destruct (k0 =? k') eqn:E4; [lia|done].
  - destruct (k0 =? k') eqn:E4; [|done].
    destruct (k =? k') eqn:E3; [lia|done].
Qed.

Lemma bt_wf_insert k v m : bt_wf m -> bt_wf (bt_insert k v m).
Proof.
  induction m as [|[k0 v0] m IH]; cbn; intros Hwf.
  - apply bt_wf_cons. split; constructor.
  - destruct (k <? k0) eqn:E1; [|destruct (k =? k0) eqn:E2].
    + apply bt_wf_cons. split; [done|]. apply bt_wf_cons in Hwf as [_ Hk].
      constructor; [cbn; lia|]. eapply list.Forall_impl; [done|]. cbn. intros. lia.
    + apply N.eqb_eq in E2. subst. apply bt_wf_cons in Hwf. by apply bt_wf_cons.
    + apply bt_wf_cons in Hwf as [Hm Hk]. apply bt_wf_cons. split; [auto|].
      clear IH Hm. induction m as [|[k1 v1] m IH]; cbn; [constructor; [cbn; lia|constructor]|].
      apply list.Forall_cons in Hk as [Hk1 Hk]. cbn in Hk1.
      destruct (k <? k1) eqn:?; [|destruct (k =? k1) eqn:?]; repeat constructor; cbn; try lia; auto.
Qed.

Lemma bt_wf_remove k m : bt_wf m -> bt_wf (bt_remove k m).
Proof.
  induction m as [|[k0 v0] m IH]; cbn; [done|]. rewrite bt_wf_cons. intros [Hm Hk].
  destruct (k0 =? k); [done|]. apply bt_wf_cons. split; [auto|].
  rewrite list.Forall_forall in *. intros x Hx. apply Hk.
  clear -Hx. induction m as [|[k1 v1] m IH]; cbn in *; [done|].
  destruct (k1 =? k); [by constructor|]. apply elem_of_cons in Hx as [->|?]; [constructor|].
  constructor. auto.
Qed.

Lemma bt_get_remove k k' m :
  bt_wf m -> bt_get k' (bt_remove k m) = if k =? k' then None else bt_get k' m.
Proof.
  induction m as [|[k0 v0] m IH]; cbn; intros Hwf; [by destruct (k =? k')|].
  apply bt_wf_cons in Hwf as [Hm Hk].
  destruct (k0 =? k) eqn:E; cbn.
  - apply N.eqb_eq in E. subst.
    destruct (k =? k') eqn:E'; [|done]. apply N.eqb_eq in E'. subst.
    eapply bt_get_gt; [done|lia].
  - rewrite (IH Hm). destruct (k0 =? k') eqn:E1; [|done].
    destruct (k =? k') eqn:E2; [lia|done].
Qed.

Lemma bt_get_filter (f : N -> bool) k m :
  bt_wf m -> bt_get k (list_filter (fun kv => f (fst kv)) m) =
  if f k then bt_get k m else None.
Proof.
  induction m as [|[k0 v0] m IH]; cbn; intros Hwf; [by destruct (f k)|].
  apply bt_wf_cons in Hwf as [Hm Hk]. specialize (IH Hm).
  destruct (f k0) eqn:E0; cbn; destruct (k0 =? k) eqn:E.
  - apply N.eqb_eq in E. subst. by rewrite E0.
  - done.
  - apply N.eqb_eq in E. subst. rewrite IH, E0. done.
  - done.
Qed.

Lemma bt_remove_mid k v m1 m2 : bt_wf (m1 ++ (k, v) :: m2) ->
  bt_remove k (m1 ++ (k, v) :: m2) = m1 ++ m2.
Proof.
  induction m1 as [|[k0 v0] m1 IH]; cbn; intros Hwf; [by rewrite N.eqb_refl|].
  apply bt_wf_cons in Hwf as [Hm Hk].
  apply Forall_app in Hk as [_ Hk]. apply list.Forall_cons in Hk as [Hk _]. cbn in Hk.
  destruct (k0 =? k) eqn:E; [lia|]. f_equal. auto.
Qed.

(** *** Extensionality *)

Lemma bt_ext m1 m2 :
  bt_wf m1 -> bt_wf m2 -> (forall k, bt_get k m1 = bt_get k m2) -> m1 = m2.
Proof.
  revert m2. induction m1 as [|[k1 v1] m1 IH]; intros [|[k2 v2] m2] H1 H2 Heq; [done|..].
  - specialize (Heq k2). cbn in Heq. by rewrite N.eqb_refl in Heq.
  - specialize (Heq k1). cbn in Heq. by rewrite N.eqb_refl in Heq.
  - apply bt_wf_cons in H1 as [H1 Hk1]. apply bt_wf_cons in H2 as [H2 Hk2].
    assert (k1 = k2) as ->.
    { destruct (N.lt_trichotomy k1 k2) as [Hlt|[->|Hlt]]; [|done|]; exfalso.
      - specialize (Heq k1). cbn in Heq. rewrite N.eqb_refl in Heq.
        destruct (k2 =? k1) eqn:?; [lia|].
        rewrite (bt_get_gt k1 k2) in Heq; [done..|lia].
      - specialize (Heq k2). cbn in Heq. rewrite N.eqb_refl in Heq.
        destruct (k1 =? k2) eqn:?; [lia|].
        rewrite (bt_get_gt k2 k1) in Heq; [done..|lia]. }
    pose proof (Heq k2) as Hv. cbn in Hv. rewrite N.eqb_refl in Hv. simplify_eq.
    f_equal. apply IH; [done..|]. intros k. specialize (Heq k). cbn in Heq.
    destruct (k2 =? k) eqn:E; [|done]. apply N.eqb_eq in E. subst.
    by rewrite !(bt_get_gt k k) by (done || lia).
Qed.

Lemma bt_elem_get k v m : bt_wf m -> (k, v) ∈ m <-> bt_get k m = Some v.
Proof.
  induction m as [|[k0 v0] m IH]; cbn; intros Hwf; [set_solver|].
  apply bt_wf_cons in Hwf as [Hm Hk]. rewrite elem_of_cons, (IH Hm).
  destruct (k0 =? k) eqn:E.
  - apply N.eqb_eq in E. subst. rewrite (bt_get_gt k k) by (done || lia).
    split; [intros [[= ->]|?]; done|]. intros [= ->]. auto.
  - split; [intros [[= -> ->]|?]; [lia|done]|auto].
Qed.

(** [range(..k)] and [range(k..)] split the map. *)
Lemma bt_range_split k m : bt_wf m -> m = bt_range_lt k m ++ bt_range_ge k m.
Proof.
  unfold bt_range_lt, bt_range_ge.
  induction m as [|[k0 v0] m IH]; cbn; intros Hwf; [done|].
  apply bt_wf_cons in Hwf as [Hm Hk]. destruct (k0 <? k) eqn:E1.
  - replace (k <=? k0) with false by lia. cbn. f_equal. auto.
  - replace (k <=? k0) with true by lia.
    rewrite list_filter_none; cbn.
    + f_equal. symmetry. apply list_filter_all. intros [k1 v1] Hx.
      rewrite list.Forall_forall in Hk. specialize (Hk _ Hx). cbn in *. lia.
    + intros [k1 v1] Hx. rewrite list.Forall_forall in Hk. specialize (Hk _ Hx). cbn in *. lia.
Qed.

(** Removing every key of a range, one by one, leaves the complement. *)
Lemma bt_remove_all_filter (f : N -> bool) m ks :
  bt_wf m -> (forall k, k ∈ ks <-> k ∈ map fst m /\ f k = true) ->
  foldl (fun acc k => bt_remove k acc) m ks = list_filter (fun kv => negb (f (fst kv))) m.
Proof.
  intros Hwf Hks.
  assert (forall acc, bt_wf acc ->
    bt_wf (foldl (fun acc k => bt_remove k acc) acc ks) /\
    forall k, bt_get k (foldl (fun acc k => bt_remove k acc) acc ks) =
              if decide (k ∈ ks) then None else bt_get k acc) as Hfold.
  { clear Hks. induction ks as [|k0 ks IH]; intros acc Hacc; cbn.
    - split; [done|]. intros k. by rewrite decide_False by set_solver.
    - destruct (IH (bt_remove k0 acc)) as [Hw Hg]; [by apply bt_wf_remove|].
      split; [done|]. intros k. rewrite Hg, bt_get_remove by done.
      destruct (decide (k ∈ ks)), (decide (k ∈ k0 :: ks)); [done|set_solver|..].
      + destruct (k0 =? k) eqn:E; [done|]. exfalso.
        apply N.eqb_neq in E. set_solver.
      + destruct (k0 =? k) eqn:E; [|done]. apply N.eqb_eq in E. set_solver. }
  destruct (Hfold m Hwf) as [Hw Hg].
  apply bt_ext; [done|by apply bt_wf_filter|].
  intros k. rewrite Hg. rewrite (bt_get_filter (fun k => negb (f k))) by done.
  destruct (decide (k ∈ ks)) as [Hin|Hout].
  - apply Hks in Hin as [_ ->]. done.
  - destruct (f k) eqn:Hf; cbn; [|done]. apply bt_get_keys. rewrite Hks in Hout. naive_solver.
Qed.
End BTreeMap.

#[export] Hint Resolve bt_wf_insert bt_wf_remove bt_wf_filter : xraft.
