(* ===== verification/DeferredCompletion.v ===== *)
(** * The deferred completion queue

    [deferred_completion.rs]: client futures parked by log offset until the
    high watermark passes it.  A [oneshot::Sender<u64>] is the identity of the
    future it resolves; sending on it, or dropping it, is recorded as an
    event.  The result of [sender.send] is ignored by the code (the receiver
    may be gone), so it does not appear. *)

From Stdlib Require Import ZifyBool ZifyN Lia.
From stdpp Require Import base list sets numbers option sorting.
From S2P Require Import Prelude BTree.

(** ** Operations *)

Abbreviation Sender := N (only parsing).
Abbreviation DeferredCompletionQueue := (BTreeMap (list Sender)) (only parsing).

Definition dcq_new : DeferredCompletionQueue := [].

(** [self.pending.entry(offset).or_default().push(sender)] *)
Definition park (off : N) (sender : Sender) (q : DeferredCompletionQueue)
  : DeferredCompletionQueue :=
  bt_insert off (default [] (bt_get off q) ++ [sender]) q.

(** The loop over the collected offsets: remove the bucket, send on every
    sender of it, count. *)
Fixpoint complete_loop (offsets : list N) (q : DeferredCompletionQueue)
    (sent : list (Sender * N)) (count : nat)
  : DeferredCompletionQueue * list (Sender * N) * nat :=
  match offsets with
  | [] => (q, sent, count)
  | off :: offsets' =>
      match bt_get off q with
      | Some senders =>
          complete_loop offsets' (bt_remove off q)
            (sent ++ map (fun s => (s, off)) senders) (count + length senders)
      | None => complete_loop offsets' q sent count
      end
  end.

Definition complete (hw : N) (q : DeferredCompletionQueue)
  : DeferredCompletionQueue * list (Sender * N) * nat :=
  complete_loop (map fst (bt_range_lt hw q)) q [] 0.

(** The same loop with the senders dropped instead. *)
Fixpoint fail_loop (offsets : list N) (q : DeferredCompletionQueue)
    (dropped : list Sender) (count : nat)
  : DeferredCompletionQueue * list Sender * nat :=
  match offsets with
  | [] => (q, dropped, count)
  | off :: offsets' =>
      match bt_get off q with
      | Some senders =>
          fail_loop offsets' (bt_remove off q) (dropped ++ senders) (count + length senders)
      | None => fail_loop offsets' q dropped count
      end
  end.

Definition fail_at_or_above (threshold : N) (q : DeferredCompletionQueue)
  : DeferredCompletionQueue * list Sender * nat :=
  fail_loop (map fst (bt_range_ge threshold q)) q [] 0.

(** [self.pending.values().map(|v| v.len()).sum()] *)
Definition dcq_len (q : DeferredCompletionQueue) : nat :=
  sum_list (map (fun kv => length (snd kv)) q).
Definition dcq_is_empty (q : DeferredCompletionQueue) : bool :=
  match q with [] => true | _ => false end.

(** ** Abstraction

    The queue stands for the list of parked pairs, by offset and then by the
    order of parking. *)

Definition parked (q : DeferredCompletionQueue) : list (Sender * N) :=
  q ≫= fun kv => map (fun s => (s, fst kv)) (snd kv).

(** Keys strictly increase and no bucket is empty. *)
Definition dcq_inv (q : DeferredCompletionQueue) : Prop :=
  bt_wf q /\ forall off ss, (off, ss) ∈ q -> ss <> [].

(** ** The loops are range removals *)

Lemma complete_loop_spec (q : DeferredCompletionQueue) :
  bt_wf q -> forall pre post sent count,
  q = pre ++ post ->
  complete_loop (map fst pre) q sent count =
  (post, sent ++ parked pre, (count + dcq_len pre)%nat).
Proof.
  intros Hwf pre. revert q Hwf.
  induction pre as [|[off ss] pre IH]; intros q Hwf post sent count ->; cbn.
  - by rewrite app_nil_r, Nat.add_0_r.
  - rewrite N.eqb_refl. apply bt_wf_cons in Hwf as [Hwf _].
    rewrite (IH _ Hwf post) by done. rewrite <- app_assoc. f_equal.
    unfold dcq_len. cbn. lia.
Qed.

Lemma fail_loop_suffix (pre post : DeferredCompletionQueue) :
  bt_wf (pre ++ post) -> forall dropped count,
  fail_loop (map fst post) (pre ++ post) dropped count =
  (pre, dropped ++ map fst (parked post), (count + dcq_len post)%nat).
Proof.
  revert pre. induction post as [|[off ss] post IH]; intros pre Hwf dropped count; cbn.
  - by rewrite !app_nil_r, Nat.add_0_r.
  - assert (bt_get off (pre ++ (off, ss) :: post) = Some ss) as ->.
    { apply bt_elem_get; [done|]. set_solver. }
    assert (bt_remove off (pre ++ (off, ss) :: post) = pre ++ post) as Hrem.
    { apply bt_remove_mid. done. }
    rewrite Hrem, IH by (rewrite <- Hrem; by apply bt_wf_remove).
    f_equal; [f_equal|].
    + unfold parked. cbn. rewrite map_app, <- app_assoc, map_map. cbn. by rewrite map_id.
    + unfold dcq_len. cbn. lia.
Qed.

(** ** Correctness *)

Lemma complete_spec (q : DeferredCompletionQueue) (hw : N) :
  dcq_inv q ->
  complete hw q = (bt_range_ge hw q, parked (bt_range_lt hw q), dcq_len (bt_range_lt hw q)).
Proof.
  intros [Hwf _]. unfold complete.
  rewrite (complete_loop_spec q Hwf _ (bt_range_ge hw q)); [done|by apply bt_range_split].
Qed.

Lemma fail_spec (q : DeferredCompletionQueue) (threshold : N) :
  dcq_inv q ->
  fail_at_or_above threshold q =
  (bt_range_lt threshold q, map fst (parked (bt_range_ge threshold q)),
   dcq_len (bt_range_ge threshold q)).
Proof.
  intros [Hwf _]. unfold fail_at_or_above.
  rewrite (bt_range_split threshold q) at 2 by done.
  rewrite fail_loop_suffix; [done|]. by rewrite <- bt_range_split.
Qed.

Lemma parked_app (q1 q2 : DeferredCompletionQueue) :
  parked (q1 ++ q2) = parked q1 ++ parked q2.
Proof. unfold parked. apply bind_app. Qed.

Lemma dcq_len_parked (q : DeferredCompletionQueue) : dcq_len q = length (parked q).
Proof.
  induction q as [|[off ss] q IH]; [done|].
  change (dcq_len ((off, ss) :: q)) with (length ss + dcq_len q)%nat.
  change (parked ((off, ss) :: q)) with (map (fun s => (s, off)) ss ++ parked q).
  rewrite length_app, length_map, IH. done.
Qed.

Lemma parked_park (off : N) (s : Sender) (q : DeferredCompletionQueue) :
  dcq_inv q -> parked (park off s q) ≡ₚ (s, off) :: parked q.
Proof.
  intros [Hwf _]. unfold park. induction q as [|[k ss] q IH]; [done|].
  pose proof Hwf as Hwf0. apply bt_wf_cons in Hwf as [Hwf Hk]. cbn [bt_get bt_insert].
  destruct (k =? off) eqn:Ek.
  - apply N.eqb_eq in Ek. subst. rewrite N.ltb_irrefl, N.eqb_refl. cbn.
    rewrite map_app, <- app_assoc. cbn. symmetry. apply Permutation_middle.
  - destruct (off <? k) eqn:Elt.
    + rewrite (bt_get_gt off k) by (done || lia). cbn. done.
    + destruct (off =? k) eqn:?; [lia|]. cbn.
      rewrite (IH Hwf). symmetry. apply Permutation_middle.
Qed.

Lemma dcq_inv_new : dcq_inv dcq_new.
Proof. split; [constructor|set_solver]. Qed.

Lemma dcq_inv_park (off : N) (s : Sender) (q : DeferredCompletionQueue) :
  dcq_inv q -> dcq_inv (park off s q).
Proof.
  intros [Hwf Hne]. assert (bt_wf (park off s q)) as Hwf' by by apply bt_wf_insert.
  split; [done|]. intros k ss Hin. apply bt_elem_get in Hin; [|done].
  unfold park in Hin. rewrite bt_get_insert in Hin. destruct (off =? k).
  - simplify_eq. by destruct (default _ _).
  - apply bt_elem_get in Hin; eauto.
Qed.

Lemma dcq_inv_filter (f : N * list Sender -> bool) (q : DeferredCompletionQueue) :
  dcq_inv q -> dcq_inv (list_filter f q).
Proof.
  intros [Hwf Hne]. split; [by apply bt_wf_filter|].
  intros k ss [Hin _]%elem_of_list_filter_b. eauto.
Qed.

#[export] Hint Resolve dcq_inv_new dcq_inv_park dcq_inv_filter : xraft.

Lemma dcq_empty_len (q : DeferredCompletionQueue) :
  dcq_inv q -> dcq_is_empty q = true <-> dcq_len q = 0%nat.
Proof.
  intros [_ Hne]. destruct q as [|[off ss] q]; [done|]. split; [done|].
  intros Hl. exfalso. specialize (Hne off ss ltac:(constructor)).
  destruct ss; [done|]. unfold dcq_len in Hl. cbn in Hl. lia.
Qed.

Lemma elem_of_parked (q : DeferredCompletionQueue) (s : Sender) (off : N) :
  (s, off) ∈ parked q <-> exists ss, (off, ss) ∈ q /\ s ∈ ss.
Proof.
  unfold parked. rewrite list_elem_of_bind. split.
  - intros ([k ss] & Hin & Hq). apply list_elem_of_fmap in Hin as (s' & ? & ?).
    simplify_eq/=. eauto.
  - intros (ss & Hq & Hs). exists (off, ss). split; [|done].
    apply list_elem_of_fmap. eauto.
Qed.

(** [complete hw] resolves exactly the parked futures whose offset is
    below the high watermark, each with its own offset, in offset order and,
    within an offset, in the order they were parked; it returns their number,
    and the queue keeps exactly the others. *)
Theorem complete_correct (q : DeferredCompletionQueue) (hw : N) :
  dcq_inv q ->
  exists q' sent n, complete hw q = (q', sent, n) /\
    parked q = sent ++ parked q' /\
    (forall s off, (s, off) ∈ sent <-> (s, off) ∈ parked q /\ off < hw) /\
    (forall s off, (s, off) ∈ parked q' <-> (s, off) ∈ parked q /\ hw <= off) /\
    n = length sent /\ dcq_len q' = (dcq_len q - n)%nat.
Proof.
  intros Hinv. rewrite complete_spec by done. do 3 eexists. split; [done|].
  assert (parked q = parked (bt_range_lt hw q) ++ parked (bt_range_ge hw q)) as Hsplit.
  { rewrite <- parked_app. f_equal. apply bt_range_split, Hinv. }
  split_and!; [done|..].
  1-2: intros s off; rewrite !elem_of_parked; unfold bt_range_lt, bt_range_ge;
       setoid_rewrite elem_of_list_filter_b; cbn; naive_solver lia.
  - apply dcq_len_parked.
  - rewrite !dcq_len_parked, Hsplit, length_app. lia.
Qed.

Lemma complete_correct_witness :
  exists q' sent n, complete 6 (park 7 2 (park 5 1 dcq_new)) = (q', sent, n) /\ sent = [(1, 5)].
Proof.
  destruct (complete_correct (park 7 2 (park 5 1 dcq_new)) 6) as (q' & sent & n & He & _);
    [auto with xraft|].
  exists q', sent, n. split; [exact He|]. vm_compute in He. by injection He as <- <- <-.
Defined.

(** ** Every future is resolved at most once

    A history of calls on one queue, with what happened to the senders. *)

Inductive DcqOp := OpPark (off : N) (s : Sender) | OpComplete (hw : N) | OpFail (threshold : N).

Record DcqTrace := mkTrace {
  tr_queue : DeferredCompletionQueue;
  tr_sent : list (Sender * N);
  tr_dropped : list Sender;
}.

Definition dcq_step (t : DcqTrace) (op : DcqOp) : DcqTrace :=
  match op with
  | OpPark off s => mkTrace (park off s (tr_queue t)) (tr_sent t) (tr_dropped t)
  | OpComplete hw =>
      let '(q, sent, _) := complete hw (tr_queue t) in
      mkTrace q (tr_sent t ++ sent) (tr_dropped t)
  | OpFail threshold =>
      let '(q, dropped, _) := fail_at_or_above threshold (tr_queue t) in
      mkTrace q (tr_sent t) (tr_dropped t ++ dropped)
  end.

Definition dcq_run (ops : list DcqOp) : DcqTrace := foldl dcq_step (mkTrace dcq_new [] []) ops.

Definition parks (ops : list DcqOp) : list (Sender * N) :=
  ops ≫= fun op => match op with OpPark off s => [(s, off)] | _ => [] end.

(** What a trace accounts for: still parked, resolved, failed. *)
Definition accounted (t : DcqTrace) : list Sender :=
  map fst (parked (tr_queue t)) ++ map fst (tr_sent t) ++ tr_dropped t.

Lemma map_fst_parked_split (q : DeferredCompletionQueue) (k : N) :
  bt_wf q ->
  map fst (parked q) ≡ₚ map fst (parked (bt_range_lt k q)) ++ map fst (parked (bt_range_ge k q)).
Proof.
  intros Hwf. rewrite (bt_range_split k q) at 1 by done. by rewrite parked_app, map_app.
Qed.

Lemma dcq_step_accounted (t : DcqTrace) (op : DcqOp) :
  dcq_inv (tr_queue t) ->
  dcq_inv (tr_queue (dcq_step t op)) /\
  accounted (dcq_step t op) ≡ₚ map fst (parks [op]) ++ accounted t.
Proof.
  intros Hinv. unfold accounted. destruct op as [off s|hw|th]; cbn [dcq_step].
  - cbn. split; [auto with xraft|]. by rewrite parked_park.
  - rewrite complete_spec by done. cbn. split; [by apply dcq_inv_filter|].
    rewrite map_app, (map_fst_parked_split (tr_queue t) hw) by apply Hinv. solve_Permutation.
  - rewrite fail_spec by done. cbn. split; [by apply dcq_inv_filter|].
    rewrite (map_fst_parked_split (tr_queue t) th) by apply Hinv. solve_Permutation.
Qed.

Lemma dcq_run_accounted (ops : list DcqOp) :
  dcq_inv (tr_queue (dcq_run ops)) /\
  accounted (dcq_run ops) ≡ₚ map fst (parks ops).
Proof.
  induction ops as [|op ops IH] using rev_ind; [split; [apply dcq_inv_new|done]|].
  unfold dcq_run, parks in *. rewrite foldl_app, bind_app, map_app. cbn [foldl].
  destruct IH as [Hinv Hacc].
  destruct (dcq_step_accounted _ op Hinv) as [Hinv' ->]. split; [done|].
  rewrite Hacc. apply Permutation_app_comm.
Qed.

(** C29: After any sequence of [park], [complete] and [fail_at_or_above] calls
    on a fresh queue, the parked senders are exactly those still pending,
    those resolved and those dropped, with multiplicity: no future is lost,
    and none is resolved twice or both resolved and failed. *)
Theorem every_future_accounted_once (ops : list DcqOp) :
  map fst (parks ops) ≡ₚ
  map fst (parked (tr_queue (dcq_run ops))) ++ map fst (tr_sent (dcq_run ops))
    ++ tr_dropped (dcq_run ops).
Proof. symmetry. apply dcq_run_accounted. Qed.
