(* ===== verification/Membership.v ===== *)
(** * Cluster membership

    [membership.rs]: the committed voter configuration and at most one
    uncommitted change.  [HashSet<NodeId>] is [gset N]. *)

From Stdlib Require Import ZifyBool ZifyN Lia.
From stdpp Require Import base list sets gmap numbers option.
From S2P Require Import Prelude.

Module Membership.

(** ** Data *)

Record VotersRecord := mkVotersRecord {
  voters : gset N;
  offset : N;
}.

#[global] Instance VotersRecord_eq_dec : EqDecision VotersRecord.
Proof. solve_decision. Defined.

Definition contains (r : VotersRecord) (n : N) : bool := bool_decide (n ∈ voters r).
Definition quorum_size (r : VotersRecord) : nat := (size (voters r) / 2 + 1)%nat.

Record PendingMembershipChange := mkPending {
  record : VotersRecord;
  pending_offset : N;
}.

Record MembershipState := mkMembership {
  committed : VotersRecord;
  pending_membership_change : option PendingMembershipChange;
}.

Inductive MembershipError :=
| ChangeAlreadyPending (pending_offset : N)
| NoPendingChange
| OffsetMismatch (expected actual : N).

(** ** Operations *)

Definition new (c : VotersRecord) : MembershipState := mkMembership c None.
Definition restore_from_snapshot (c : VotersRecord) : MembershipState := mkMembership c None.

Definition committed_voters (s : MembershipState) : VotersRecord := committed s.

Definition effective_voters (s : MembershipState) : VotersRecord :=
  match pending_membership_change s with
  | Some pending => record pending
  | None => committed s
  end.

Definition has_pending_change (s : MembershipState) : bool :=
  match pending_membership_change s with Some _ => true | None => false end.

Definition propose_change (new_voters : gset N) (log_offset : N)
  : SE MembershipState MembershipError VotersRecord := fun s =>
  match pending_membership_change s with
  | Some pending => (s, Err (ChangeAlreadyPending (pending_offset pending)))
  | None =>
      let r := mkVotersRecord new_voters log_offset in
      (mkMembership (committed s) (Some (mkPending r log_offset)), Ok r)
  end.

(** [take()] empties the slot; on a mismatch the change is put back. *)
Definition commit_change (committed_offset : N)
  : SE MembershipState MembershipError VotersRecord := fun s =>
  match pending_membership_change s with
  | None => (mkMembership (committed s) None, Err NoPendingChange)
  | Some pending =>
      if negb (pending_offset pending =? committed_offset) then
        (mkMembership (committed s) (Some pending),
         Err (OffsetMismatch (pending_offset pending) committed_offset))
      else (mkMembership (record pending) None, Ok (record pending))
  end.

Definition clear_pending_if_truncated (truncate_from : N) (s : MembershipState)
  : MembershipState :=
  match pending_membership_change s with
  | Some pending =>
      if truncate_from <=? pending_offset pending
      then mkMembership (committed s) None else s
  | None => s
  end.

Definition clear_pending (s : MembershipState) : MembershipState :=
  mkMembership (committed s) None.

Definition apply_snapshot (snapshot_voters : VotersRecord) (s : MembershipState)
  : MembershipState :=
  mkMembership snapshot_voters None.

(** ** The manager as a state machine *)

Inductive Op :=
| OpPropose (vs : gset N) (off : N)
| OpCommit (off : N)
| OpTruncate (from : N)
| OpClear
| OpSnapshot (r : VotersRecord).

Definition step (s : MembershipState) (op : Op) : MembershipState :=
  match op with
  | OpPropose vs off => (propose_change vs off s).1
  | OpCommit off => (commit_change off s).1
  | OpTruncate from => clear_pending_if_truncated from s
  | OpClear => clear_pending s
  | OpSnapshot r => apply_snapshot r s
  end.

Definition run (s : MembershipState) (ops : list Op) : MembershipState := foldl step s ops.

(** The pending record carries the offset of its log entry. *)
Definition inv (s : MembershipState) : Prop :=
  forall p, pending_membership_change s = Some p -> offset (record p) = pending_offset p.

Lemma inv_step (s : MembershipState) (op : Op) : inv s -> inv (step s op).
Proof.
  unfold inv, step, propose_change, commit_change, clear_pending_if_truncated.
  intros Hinv p. destruct op; cbn; split_code; cbn; intros; simplify_eq/=; eauto.
Qed.

(** *** Errors do not change the state *)

Lemma propose_error_unchanged (s s' : MembershipState) (vs : gset N) (off : N) e :
  propose_change vs off s = (s', Err e) ->
  s' = s /\ exists p, pending_membership_change s = Some p /\
                     e = ChangeAlreadyPending (pending_offset p).
Proof. unfold propose_change. intros H. split_code_in H; eauto. Qed.

Lemma commit_error_unchanged (s s' : MembershipState) (off : N) e :
  commit_change off s = (s', Err e) ->
  s' = s /\ e = match pending_membership_change s with
                | None => NoPendingChange
                | Some p => OffsetMismatch (pending_offset p) off
                end.
Proof.
  unfold commit_change. destruct s as [c [p|]]; cbn; intros H; split_code_in H; done.
Qed.

(** ** Where a committed configuration comes from *)

(** [survives op off]: the call leaves a change pending at [off] in place and
    does not commit it. *)
Definition survives (op : Op) (off : N) : Prop :=
  match op with
  | OpPropose _ _ => True
  | OpCommit off' => off' <> off
  | OpTruncate from => off < from
  | OpClear => False
  | OpSnapshot _ => False
  end.

Lemma pending_step_inv (s : MembershipState) (op : Op) (p : PendingMembershipChange) :
  pending_membership_change (step s op) = Some p ->
  (pending_membership_change s = Some p /\ survives op (pending_offset p)) \/
  (exists vs off, op = OpPropose vs off /\ pending_membership_change s = None /\
                  p = mkPending (mkVotersRecord vs off) off).
Proof.
  unfold step, propose_change, commit_change, clear_pending_if_truncated.
  destruct s as [c pc]. destruct op as [vs off|off|from| |r]; destruct pc as [q|]; cbn;
    try done; intros H; split_code_in H; try done; eauto 7.
  - left. split; [done|]. cbn. lia.
  - left. split; [done|]. cbn. lia.
Qed.

(** A pending change was proposed, with nothing pending at that moment, and
    every later call left it in place. *)
Lemma pending_provenance (s : MembershipState) (ops : list Op) (p : PendingMembershipChange) :
  pending_membership_change s = None ->
  pending_membership_change (run s ops) = Some p ->
  exists pre post vs off,
    ops = pre ++ OpPropose vs off :: post /\
    pending_membership_change (run s pre) = None /\
    p = mkPending (mkVotersRecord vs off) off /\
    Forall (fun op => survives op off) post.
Proof.
  intros Hs. induction ops as [|op ops IH] using rev_ind; [cbn; congruence|].
  unfold run in *. rewrite foldl_app. cbn [foldl]. intros Hp.
  apply pending_step_inv in Hp as [[Hp Hsv]|(vs & off & -> & Hnone & ->)].
  - destruct (IH Hp) as (pre & post & vs & off & -> & Hn & -> & Hall).
    exists pre, (post ++ [op]), vs, off. rewrite <- app_assoc. split_and!; try done.
    apply Forall_app. split; [done|]. by constructor.
  - exists ops, [], vs, off. split_and!; try done.
Qed.

Lemma committed_step_inv (s : MembershipState) (op : Op) :
  committed (step s op) <> committed s ->
  (exists r, op = OpSnapshot r /\ committed (step s op) = r) \/
  (exists p, pending_membership_change s = Some p /\ op = OpCommit (pending_offset p) /\
             committed (step s op) = record p).
Proof.
  unfold step, propose_change, commit_change, clear_pending_if_truncated.
  destruct s as [c pc]. destruct op as [vs off|off|from| |r]; destruct pc as [q|]; cbn;
    try done; intros H; split_code_in H; try done; eauto.
  right. exists q. split_and!; try done. f_equal. lia.
Qed.

(** C27: single-change discipline.  In any history of calls on a fresh
    membership state, a configuration becomes the committed one in only two
    ways: a snapshot installs it, or it was proposed while nothing else was
    pending, its log entry was not truncated or cleared and no snapshot was
    applied afterwards, and [commit_change] was called with exactly the offset
    it was proposed at. *)
Theorem committed_config_provenance (c0 : VotersRecord) (ops : list Op) (op : Op) :
  committed (run (new c0) (ops ++ [op])) <> committed (run (new c0) ops) ->
  let r := committed (run (new c0) (ops ++ [op])) in
  op = OpSnapshot r \/
  exists pre post,
    ops = pre ++ OpPropose (voters r) (offset r) :: post /\
    has_pending_change (run (new c0) pre) = false /\
    Forall (fun o => survives o (offset r)) post /\
    op = OpCommit (offset r).
Proof.
  unfold run. rewrite foldl_app. cbn [foldl]. intros Hne.
  apply committed_step_inv in Hne as [(r & -> & Hr)|(p & Hp & -> & Hr)]; cbn zeta; rewrite Hr.
  - by left.
  - right. apply pending_provenance in Hp as (pre & post & vs & off & -> & Hn & -> & Hall);
      [|done].
    exists pre, post. cbn. split_and!; try done.
    unfold has_pending_change. by unfold run in Hn; rewrite Hn.
Qed.

(** Truncating the log at or below the pending entry always unblocks the
    manager: the next proposal succeeds and becomes the effective
    configuration; a truncation above the entry leaves it pending, and the
    next proposal is refused with the pending offset. *)
Theorem truncation_unblocks_proposals (s : MembershipState) (p : PendingMembershipChange)
    (from : N) (vs : gset N) (off : N) :
  pending_membership_change s = Some p ->
  let '(s', r) := propose_change vs off (clear_pending_if_truncated from s) in
  if from <=? pending_offset p
  then r = Ok (mkVotersRecord vs off) /\ effective_voters s' = mkVotersRecord vs off /\
       committed s' = committed s
  else r = Err (ChangeAlreadyPending (pending_offset p)) /\ s' = s.
Proof.
  intros Hp. unfold clear_pending_if_truncated. rewrite Hp.
  destruct (from <=? pending_offset p); unfold propose_change; cbn; [done|].
  rewrite Hp. done.
Qed.

Lemma truncation_unblocks_proposals_witness :
  exists s p, pending_membership_change s = Some p /\
  (let '(s', r) := propose_change {[1; 2; 5]} 12 (clear_pending_if_truncated 10 s) in
   if 10 <=? pending_offset p
   then r = Ok (mkVotersRecord {[1; 2; 5]} 12) /\
        effective_voters s' = mkVotersRecord {[1; 2; 5]} 12 /\ committed s' = committed s
   else r = Err (ChangeAlreadyPending (pending_offset p)) /\ s' = s).
Proof.
  exists (run (new (mkVotersRecord {[1; 2; 3]} 0)) [OpPropose {[1; 2; 3; 4]} 10]).
  exists (mkPending (mkVotersRecord {[1; 2; 3; 4]} 10) 10).
  split; [reflexivity|].
  apply (truncation_unblocks_proposals _ (mkPending (mkVotersRecord {[1; 2; 3; 4]} 10) 10)).
  reflexivity.
Defined.

Lemma committed_config_provenance_witness :
  let ops := [OpPropose {[1; 2; 3; 4]} 5; OpTruncate 7] in
  let c0 := mkVotersRecord {[1; 2; 3]} 0 in
  let r := committed (run (new c0) (ops ++ [OpCommit 5])) in
  OpCommit 5 = OpSnapshot r \/
  exists pre post,
    ops = pre ++ OpPropose (voters r) (offset r) :: post /\
    has_pending_change (run (new c0) pre) = false /\
    Forall (fun o => survives o (offset r)) post /\
    OpCommit 5 = OpCommit (offset r).
Proof.
  apply (committed_config_provenance (mkVotersRecord {[1; 2; 3]} 0)
           [OpPropose {[1; 2; 3; 4]} 5; OpTruncate 7] (OpCommit 5)).
  vm_compute. intros H. discriminate H.
Defined.

(** ** Quorums of successive configurations *)

(** Two configurations that differ in at most one voter. *)
Definition single_change (V W : gset N) : Prop :=
  V = W \/ (exists n, (n ∉ V) /\ W = {[n]} ∪ V) \/ (exists n, (n ∉ W) /\ V = {[n]} ∪ W).

Lemma quorum_of_add (V A B : gset N) (n : N) :
  n ∉ V -> A ⊆ V -> B ⊆ {[n]} ∪ V ->
  (size V / 2 + 1 <= size A)%nat -> (size ({[n]} ∪ V) / 2 + 1 <= size B)%nat ->
  exists x, x ∈ A /\ x ∈ B.
Proof.
  intros Hn HA HB HsA HsB.
  rewrite size_union, size_singleton in HsB by set_solver.
  destruct (decide (A ∩ B = ∅)) as [Hd|Hne].
  - assert (size (A ∪ B) = size A + size B)%nat as Hu by (apply size_union; set_solver).
    assert (size (A ∪ B) <= size ({[n]} ∪ V))%nat as Hle by (apply subseteq_size; set_solver).
    rewrite Hu, size_union, size_singleton in Hle by set_solver.
    assert (size V < 2 * (size V / 2) + 2)%nat as H1.
    { pose proof (Nat.div_mod_eq (size V) 2). pose proof (Nat.mod_upper_bound (size V) 2). lia. }
    assert (S (size V) < 2 * (S (size V) / 2) + 2)%nat as H2.
    { pose proof (Nat.div_mod_eq (S (size V)) 2).
      pose proof (Nat.mod_upper_bound (S (size V)) 2). lia. }
    cbn [Nat.add] in *. lia.
  - apply set_choose_L in Hne as [x Hx]. exists x. set_solver.
Qed.

(** C28: With [quorum_size] as computed by the code, a quorum of the committed
    configuration and a quorum of the effective (possibly pending) one share
    a voter whenever the pending change adds or removes one voter or none. *)
Theorem single_change_quorums_intersect (s : MembershipState) (A B : gset N) :
  single_change (voters (committed_voters s)) (voters (effective_voters s)) ->
  A ⊆ voters (committed_voters s) -> (quorum_size (committed_voters s) <= size A)%nat ->
  B ⊆ voters (effective_voters s) -> (quorum_size (effective_voters s) <= size B)%nat ->
  exists x, x ∈ A /\ x ∈ B.
Proof.
  unfold quorum_size. generalize (voters (committed_voters s)), (voters (effective_voters s)).
  intros V W Hsc HA HsA HB HsB.
  destruct Hsc as [->|[(n & Hn & ->)|(n & Hn & ->)]].
  - eapply majority_intersect; [exact HA|exact HB|done|done].
  - eapply quorum_of_add; [exact Hn|exact HA|exact HB|done|done].
  - edestruct (quorum_of_add W B A n) as (x & ? & ?); [done..|]. eauto.
Qed.

Lemma single_change_quorums_intersect_witness :
  exists x, x ∈ ({[1; 2]} : gset N) /\ x ∈ ({[2; 3; 4]} : gset N).
Proof.
  apply (single_change_quorums_intersect
    (run (new (mkVotersRecord {[1; 2; 3]} 0)) [OpPropose {[1; 2; 3; 4]} 5])).
  - right. left. exists 4. cbn. split; [set_solver|]. vm_compute. reflexivity.
  - cbn. set_solver.
  - vm_compute. lia.
  - cbn. set_solver.
  - vm_compute. lia.
Defined.

(** [propose_change] does not check the new voter set: from [{1,2,3}] it
    accepts [{4,5}], and a quorum of the effective configuration is then
    disjoint from a quorum of the committed one. *)
Theorem propose_accepts_disjoint_config :
  let s := (propose_change {[4; 5]} 7 (new (mkVotersRecord {[1; 2; 3]} 0))).1 in
  is_ok (propose_change {[4; 5]} 7 (new (mkVotersRecord {[1; 2; 3]} 0))).2 = true /\
  exists A B : gset N,
    A ⊆ voters (committed_voters s) /\ (quorum_size (committed_voters s) <= size A)%nat /\
    B ⊆ voters (effective_voters s) /\ (quorum_size (effective_voters s) <= size B)%nat /\
    A ## B.
Proof.
  split; [reflexivity|]. exists {[1; 2]}, {[4; 5]}. cbn.
  split_and!; [set_solver|vm_compute; lia|set_solver|vm_compute; lia|set_solver].
Qed.

End Membership.
