(* ===== verification/Display.v ===== *)
(** * Rendering of identifiers and errors

    The [Display] implementations of types.rs, membership.rs and error.rs.
    Numbers are printed in decimal ([pretty]); the order in which a [HashSet]
    prints its elements, the text of a UUID and that of an [io::Error] are
    parameters. *)

From Stdlib Require Import NArith ZifyBool ZifyN ZifyNat Lia Ascii String.
From stdpp Require Import base gmap numbers option strings pretty list.
From S2P Require Import Prelude Types Membership.

#[local] Open Scope string_scope.

(** ** types.rs *)

Definition display_node_id (n : NodeId) : string := "NodeId(" +:+ pretty n +:+ ")".
Definition display_term (t : Term) : string := "Term(" +:+ pretty t +:+ ")".
Definition display_offset (o : N) : string := "Offset(" +:+ pretty o +:+ ")".
(** The later of the two implementations. *)
Definition display_offset_at (o : N) : string := "@" +:+ pretty o.
Definition display_cluster_id (uuid : ClusterId -> string) (c : ClusterId) : string :=
  "ClusterId(" +:+ uuid c +:+ ")".
Definition display_cluster (uuid : ClusterId -> string) (c : ClusterId) : string :=
  "Cluster(" +:+ uuid c +:+ ")".

(** ** membership.rs *)

Definition display_membership_error (e : Membership.MembershipError) : string :=
  match e with
  | Membership.ChangeAlreadyPending pending_offset =>
      "membership change already pending at offset " +:+ pretty pending_offset
  | Membership.NoPendingChange => "no pending membership change to commit"
  | Membership.OffsetMismatch expected actual =>
      "offset mismatch: expected " +:+ pretty expected +:+ ", got " +:+ pretty actual
  end.

(** [{:?}] of a [HashSet]: the elements in [order], with commas, in braces. *)
Fixpoint comma_separated (l : list string) : string :=
  match l with
  | [] => EmptyString
  | [x] => x
  | x :: l' => x +:+ ", " +:+ comma_separated l'
  end.
Definition debug_set (order : gset N -> list N) (s : gset N) : string :=
  "{" +:+ comma_separated (map pretty (order s)) +:+ "}".

Definition display_membership_state (order : gset N -> list N) (s : Membership.MembershipState) : string :=
  "MembershipState { committed: " +:+ debug_set order (Membership.voters (Membership.committed s))
    +:+ ", pending: " +:+
    match Membership.pending_membership_change s with
    | Some p => "Some(offset=" +:+ pretty (Membership.pending_offset p) +:+ ")"
    | None => "None"
    end +:+ " }".

(** ** error.rs

    The messages of the [#[error]] attributes; the other variants have none in
    the file. *)

Definition display_error (e : XraftError) : option string :=
  match e with
  | StorageError what => Some ("storage error: " +:+ what)
  | TransportError what => Some ("transport error: " +:+ what)
  | NotLeader => Some "not leader"
  | SerializationError what => Some ("serialization error: " +:+ what)
  | Corruption what => Some ("corruption: " +:+ what)
  | _ => None
  end.

(** ** No two are confused *)

(** A separator that does not begin with a digit ends a number. *)
Definition is_digit (c : ascii) : bool :=
  let n := nat_of_ascii c in (48 <=? n)%nat && (n <=? 57)%nat.

Definition non_digit_head (s : string) : Prop :=
  match s with EmptyString => True | String c _ => is_digit c = false end.

Fixpoint all_digits (s : string) : bool :=
  match s with EmptyString => true | String c s' => is_digit c && all_digits s' end.

Lemma pretty_char_digit x : is_digit (pretty_N_char x) = true.
Proof. unfold pretty_N_char. by repeat case_match. Qed.

Lemma pretty_go_digits x s : all_digits s = true -> all_digits (pretty_N_go x s) = true.
Proof.
  revert s. induction (N.lt_wf_0 x) as [x _ IH]; intros s Hs.
  assert (x = 0 \/ 0 < x)%N as [->|Hx] by lia; [by rewrite pretty_N_go_0|].
  rewrite pretty_N_go_step by done. apply IH; [by apply N.div_lt|]. cbn. by rewrite pretty_char_digit.
Qed.

Lemma pretty_digits (n : N) : all_digits (pretty n) = true.
Proof. unfold pretty, pretty_N. case_decide; [done|]. by apply pretty_go_digits. Qed.

Lemma digits_app_inj (a b r s : string) :
  all_digits a = true -> all_digits b = true -> non_digit_head r -> non_digit_head s ->
  a +:+ r = b +:+ s -> a = b /\ r = s.
Proof.
  revert b. induction a as [|c a IH]; intros [|d b]; cbn; intros Ha Hb Hr Hs He.
  - done.
  - change (r = String d (b +:+ s)) in He. subst r. cbn in Hr. apply andb_prop in Hb as [? _]. congruence.
  - change (String c (a +:+ r) = s) in He. subst s. cbn in Hs. apply andb_prop in Ha as [? _]. congruence.
  - change (String c (a +:+ r) = String d (b +:+ s)) in He. injection He as -> He. apply andb_prop in Ha as [_ Ha], Hb as [_ Hb].
    destruct (IH b Ha Hb Hr Hs He) as [-> ->]. done.
Qed.

Lemma pretty_app_inj (m n : N) (r s : string) :
  non_digit_head r -> non_digit_head s -> pretty m +:+ r = pretty n +:+ s -> m = n /\ r = s.
Proof.
  intros Hr Hs He. destruct (digits_app_inj _ _ _ _ (pretty_digits m) (pretty_digits n) Hr Hs He) as [Hp ->].
  by apply (inj pretty) in Hp.
Qed.

(** Different identifiers, offsets and membership errors never print alike,
    and the two renderings of an offset differ. *)
Theorem displays_distinct :
  (forall m n, display_node_id m = display_node_id n -> m = n) /\
  (forall s t, display_term s = display_term t -> s = t) /\
  (forall o p, display_offset o = display_offset p -> o = p) /\
  (forall o p, display_offset_at o = display_offset_at p -> o = p) /\
  (forall o p, display_offset o <> display_offset_at p) /\
  (forall e f, display_membership_error e = display_membership_error f -> e = f).
Proof.
  split_and!; try (intros m n [= He]; by apply pretty_app_inj in He as [-> _]).
  - intros o p He. apply (inj (String.append _)) in He. exact (pretty_N_inj o p He).
  - intros [a| |a b] [c| |c d]; cbn [display_membership_error]; intros He; try discriminate He.
    + apply (inj (String.append _)), (inj pretty) in He. by subst.
    + done.
    + apply (inj (String.append _)) in He. apply pretty_app_inj in He as [-> He]; [|done..].
      apply (inj (String.append _)), (inj pretty) in He. by subst.
Qed.

(** The messages of error.rs tell the variants and their texts apart. *)
Lemma display_error_inj e f m : display_error e = Some m -> display_error f = Some m -> e = f.
Proof.
  destruct e, f; cbn [display_error]; intros [= <-] He; try discriminate He; try done;
    apply (inj Some), (inj (String.append _)) in He; by subst.
Qed.
