(* ===== verification/MemoryLog.v ===== *)
(** * In-memory stores

    [memory_log_store.rs] (module [MemoryLogStore]), the older
    [memory_log.rs] (module [MemoryLog]) and [memory_quorum_state.rs]
    (module [MemoryQuorumState]).  [MemoryLogStore] is shown to implement the
    abstract log of [Interfaces] and [MemoryLog] to be observationally equal
    to it on contiguous logs. *)

From Stdlib Require Import ZifyBool ZifyN ZifyNat Lia QArith.
From stdpp Require Import base list gmap numbers option strings.
From S2P Require Import Prelude Types Interfaces.

#[local] Open Scope N_scope.

Module MemoryLogStore.

(** ** Data

    The failure probability is an [f64]; the code only compares it with one. *)

Record Inner := mkInner {
  entries : list LogEntry;
  start_offset : N;
  fsync_failure_probability : Q;
}.

Definition new : Inner := mkInner [] 0 (0%Q).

Definition set_fsync_failure_probability (p : Q) (s : Inner) : Inner :=
  mkInner (entries s) (start_offset s) p.

(** ** Operations *)

Definition append_sync (es : list LogEntry) : SE Inner XraftError unit := fun s =>
  if Qle_bool (1%Q) (fsync_failure_probability s) then
    (s, Err (StorageError "simulated fsync failure"%string))
  else
    (mkInner (foldl (fun v e => v ++ [e]) (entries s) es) (start_offset s)
             (fsync_failure_probability s), Ok tt).

Definition read_sync (start end_ : N) (s : Inner) : Result (list LogEntry) :=
  let start_idx := N.to_nat (u64_saturating_sub start (start_offset s)) in
  let end_idx := N.to_nat (u64_saturating_sub end_ (start_offset s)) in
  let end_idx := Nat.min end_idx (length (entries s)) in
  if (end_idx <? start_idx)%nat then Ok []
  else Ok (drop start_idx (take end_idx (entries s))).

Definition entry_at_sync (off : N) (s : Inner) : Result (option LogEntry) :=
  if off <? start_offset s then Ok None
  else Ok (entries s !! N.to_nat (off - start_offset s)).

Definition truncate_suffix_sync (from : N) : SE Inner XraftError unit := fun s =>
  if from <=? start_offset s then
    (mkInner [] (start_offset s) (fsync_failure_probability s), Ok tt)
  else
    let idx := N.to_nat (from - start_offset s) in
    (mkInner (take idx (entries s)) (start_offset s) (fsync_failure_probability s), Ok tt).

Definition truncate_prefix_sync (up_to : N) : SE Inner XraftError unit := fun s =>
  if up_to <=? start_offset s then (s, Ok tt)
  else
    let remove_count := N.to_nat (up_to - start_offset s) in
    if (length (entries s) <=? remove_count)%nat then
      (mkInner [] up_to (fsync_failure_probability s), Ok tt)
    else
      (mkInner (drop remove_count (entries s)) up_to (fsync_failure_probability s), Ok tt).

Definition overwrite_entry (off : N) (e : LogEntry) (s : Inner) : Inner :=
  let idx := N.to_nat (u64_sub off (start_offset s)) in
  if (idx <? length (entries s))%nat then
    mkInner (<[idx := e]> (entries s)) (start_offset s) (fsync_failure_probability s)
  else s.

Definition log_end_offset (s : Inner) : N :=
  u64_add (start_offset s) (N.of_nat (length (entries s))).

#[global] Instance memory_LogStore : LogStore Inner := {|
  ls_append := append_sync;
  ls_read := read_sync;
  ls_truncate_suffix := truncate_suffix_sync;
  ls_truncate_prefix := truncate_prefix_sync;
  ls_log_start_offset := start_offset;
  ls_log_end_offset := log_end_offset;
  ls_entry_at := entry_at_sync;
|}.

(** ** The store as an abstract log *)

Definition abs (s : Inner) : AbsLog := mkAbsLog (start_offset s) (entries s).
Definition inv (s : Inner) : Prop := al_wf (abs s) /\ al_end (abs s) <= u64_max.

Lemma foldl_push (es v : list LogEntry) : foldl (fun v e => v ++ [e]) v es = v ++ es.
Proof.
  revert v. induction es as [|e es IH]; intros v; cbn; [by rewrite app_nil_r|].
  by rewrite IH, <- app_assoc.
Qed.

Lemma append_abs (s s' : Inner) (es : list LogEntry) r :
  inv s -> contiguous (al_end (abs s)) es = true -> al_end (al_append es (abs s)) <= u64_max ->
  append_sync es s = (s', r) ->
  inv s' /\ (r = Ok tt -> abs s' = al_append es (abs s)) /\
  (forall e, r = Err e -> abs s' = abs s).
Proof.
  intros [Hwf Hle] Hc Hb. unfold append_sync. rewrite foldl_push.
  destruct (Qle_bool _ _); intros; simplify_eq; [split_and!; [split|..]; done|].
  split_and!; [split|..]; try done; cbn.
  unfold al_wf, abs in *; cbn in *. unfold al_end in Hc. cbn in Hc.
  by rewrite contiguous_app, Hwf, Hc.
Qed.

Lemma read_abs (s : Inner) (a b : N) : inv s -> read_sync a b s = Ok (al_read a b (abs s)).
Proof.
  intros [Hwf _]. rewrite al_read_slice by done. unfold read_sync, u64_saturating_sub, abs.
  cbn [al_start al_entries].
  set (i := N.to_nat (a - _)). set (j := N.to_nat (b - _)).
  destruct (Nat.min j (length (entries s)) <? i)%nat eqn:E.
  - rewrite drop_ge; [done|]. rewrite length_take. lia.
  - assert (take (Nat.min j (length (entries s))) (entries s) = take j (entries s)) as ->;
      [|done].
    destruct (decide (j <= length (entries s))%nat).
    + by replace (Nat.min j (length (entries s))) with j by lia.
    + by rewrite !take_ge by lia.
Qed.

Lemma entry_at_abs (s : Inner) (o : N) : inv s -> entry_at_sync o s = Ok (al_entry_at o (abs s)).
Proof.
  intros [Hwf _]. unfold entry_at_sync, al_entry_at. cbn. destruct (o <? start_offset s) eqn:E.
  - f_equal. symmetry. apply list_find_first_None. intros x Hx.
    pose proof (contiguous_bounds _ _ _ Hwf Hx). cbn in *. lia.
  - f_equal. symmetry. apply contiguous_find; [done|lia].
Qed.

Lemma truncate_suffix_abs (s : Inner) (from : N) :
  inv s -> exists s', truncate_suffix_sync from s = (s', Ok tt) /\ inv s' /\
                      abs s' = al_truncate_suffix from (abs s).
Proof.
  intros [Hwf Hle]. unfold truncate_suffix_sync, al_truncate_suffix.
  rewrite (contiguous_filter_below (start_offset s)) by done.
  destruct (from <=? start_offset s) eqn:E; eexists; split_and!; try done.
  - split; [done|]. revert Hle. unfold al_end, abs; cbn. lia.
  - unfold abs; cbn. by replace (N.to_nat (from - start_offset s)) with 0%nat by lia.
  - split; [by apply contiguous_take|]. revert Hle. unfold al_end, abs; cbn.
    rewrite length_take. lia.
Qed.

Lemma truncate_prefix_abs (s : Inner) (up_to : N) :
  inv s -> up_to <= u64_max ->
  exists s', truncate_prefix_sync up_to s = (s', Ok tt) /\ inv s' /\
             abs s' = al_truncate_prefix up_to (abs s).
Proof.
  intros [Hwf Hle] Hu. unfold truncate_prefix_sync, al_truncate_prefix.
  rewrite (contiguous_filter_above (start_offset s)) by done.
  destruct (up_to <=? start_offset s) eqn:E; [|destruct (Nat.leb _ _) eqn:E2];
    eexists; split_and!; try done; unfold inv, al_wf, al_end, abs in *; cbn in *.
  - destruct s; cbn in *. f_equal; [lia|].
    by replace (N.to_nat (up_to - _)) with 0%nat by lia.
  - split; [done|lia].
  - f_equal; [lia|]. by rewrite drop_ge by lia.
  - split; [|rewrite length_drop; lia].
    replace up_to with (start_offset s + N.of_nat (N.to_nat (up_to - start_offset s))) at 1 by lia.
    apply contiguous_drop; [done|lia].
  - f_equal. lia.
Qed.

#[global] Instance memory_LogStoreLaws : LogStoreLaws Inner.
Proof.
  refine {| ls_inv := inv; ls_abs := abs |}.
  - by intros l [? _].
  - done.
  - intros l [_ Hle]. apply u64_add_small. done.
  - intros. by apply read_abs.
  - intros. by apply entry_at_abs.
  - intros. by apply append_abs.
  - intros. by apply truncate_suffix_abs.
Defined.

(** ** Refinement over whole histories *)

Inductive LogOp :=
| LAppend (es : list LogEntry)
| LTruncateSuffix (from : N)
| LTruncatePrefix (up_to : N).

Definition mem_op (s : Inner) (op : LogOp) : Inner :=
  match op with
  | LAppend es => (append_sync es s).1
  | LTruncateSuffix from => (truncate_suffix_sync from s).1
  | LTruncatePrefix up_to => (truncate_prefix_sync up_to s).1
  end.

(** The contract of a call: appended offsets continue the log and stay in range. *)
Definition op_ok (op : LogOp) (a : AbsLog) : bool :=
  match op with
  | LAppend es => contiguous (al_end a) es && (al_end (al_append es a) <=? u64_max)
  | LTruncateSuffix _ => true
  | LTruncatePrefix up_to => up_to <=? u64_max
  end.

Definition abs_op (a : AbsLog) (op : LogOp) : AbsLog :=
  match op with
  | LAppend es => al_append es a
  | LTruncateSuffix from => al_truncate_suffix from a
  | LTruncatePrefix up_to => al_truncate_prefix up_to a
  end.

Fixpoint ops_ok (ops : list LogOp) (a : AbsLog) : bool :=
  match ops with
  | [] => true
  | op :: ops' => op_ok op a && ops_ok ops' (abs_op a op)
  end.

Definition reliable (s : Inner) : Prop := Qle_bool (1%Q) (fsync_failure_probability s) = false.

Lemma mem_op_abs (s : Inner) (op : LogOp) :
  inv s -> reliable s -> op_ok op (abs s) = true ->
  inv (mem_op s op) /\ reliable (mem_op s op) /\ abs (mem_op s op) = abs_op (abs s) op.
Proof.
  intros Hinv Hr Hop. destruct op as [es|from|up_to]; cbn [op_ok mem_op abs_op] in *.
  - apply andb_prop in Hop as [Hc Hle].
    destruct (append_sync es s) as [s' r] eqn:E.
    destruct (append_abs s s' es r) as (? & Hok & _); [done|done|lia|done|].
    unfold append_sync in E. rewrite Hr in E. simplify_eq. eauto.
  - destruct (truncate_suffix_abs s from Hinv) as (s' & E & ? & ?). rewrite E. cbn.
    split_and!; [done| |done]. unfold truncate_suffix_sync in E.
    destruct (from <=? _); simplify_eq; done.
  - destruct (truncate_prefix_abs s up_to Hinv) as (s' & E & ? & ?); [lia|]. rewrite E. cbn.
    split_and!; [done| |done]. unfold truncate_prefix_sync in E.
    destruct (up_to <=? start_offset s); [|destruct (Nat.leb _ _)]; simplify_eq; done.
Qed.

Lemma mem_run_abs (ops : list LogOp) (s : Inner) :
  inv s -> reliable s -> ops_ok ops (abs s) = true ->
  inv (foldl mem_op s ops) /\ abs (foldl mem_op s ops) = foldl abs_op (abs s) ops.
Proof.
  revert s. induction ops as [|op ops IH]; intros s Hinv Hr Hok; cbn; [done|].
  cbn in Hok. apply andb_prop in Hok as [Hop Hok].
  destruct (mem_op_abs s op Hinv Hr Hop) as (Hi & Hr' & Ha).
  rewrite <- Ha in *. eauto.
Qed.

(** C32: The in-memory log store refines the abstract log: after any sequence
    of appends that continue the log and of truncations at either end, every
    range read, every entry lookup and both ends of the log are those of the
    abstract log after the same operations. *)
Theorem memory_log_refines (ops : list LogOp) :
  ops_ok ops (mkAbsLog 0 []) = true ->
  let s := foldl mem_op new ops in
  let a := foldl abs_op (mkAbsLog 0 []) ops in
  (forall i j, read_sync i j s = Ok (al_read i j a)) /\
  (forall o, entry_at_sync o s = Ok (al_entry_at o a)) /\
  start_offset s = al_start a /\ log_end_offset s = al_end a /\ al_wf a.
Proof.
  intros Hok s a. destruct (mem_run_abs ops new) as [Hinv Ha]; [done|done|done|].
  fold s in Hinv, Ha. change (foldl abs_op (abs new) ops) with a in Ha. rewrite <- Ha.
  split_and!; intros.
  - by apply read_abs.
  - by apply entry_at_abs.
  - done.
  - apply u64_add_small, Hinv.
  - apply Hinv.
Qed.

Definition demo_entry (o : N) : LogEntry := mkLogEntry o 1 Command [].

Lemma memory_log_refines_witness :
  read_sync 0 9 (foldl mem_op new
    [LAppend [demo_entry 0; demo_entry 1; demo_entry 2]; LTruncateSuffix 2; LTruncatePrefix 1])
  = Ok [demo_entry 1].
Proof.
  destruct (memory_log_refines
    [LAppend [demo_entry 0; demo_entry 1; demo_entry 2]; LTruncateSuffix 2; LTruncatePrefix 1])
    as (Hread & _); [reflexivity|].
  rewrite Hread. reflexivity.
Defined.

End MemoryLogStore.

Module MemoryLog.

(** ** The older store: operations search by the entries' own offsets *)

Record Store := mkStore { entries : list LogEntry; start_offset : N }.

Definition new : Store := mkStore [] 0.

Definition append (es : list LogEntry) (s : Store) : Store :=
  mkStore (foldl (fun v e => v ++ [e]) (entries s) es) (start_offset s).

Definition read (start end_ : N) (s : Store) : list LogEntry :=
  list_filter (fun e => (start <=? offset e) && (offset e <? end_)) (entries s).

Definition truncate_suffix (from : N) (s : Store) : Store :=
  mkStore (list_filter (fun e => offset e <? from) (entries s)) (start_offset s).

Definition log_end_offset (s : Store) : N :=
  match last (entries s) with
  | Some e => u64_add (offset e) 1
  | None => start_offset s
  end.

Definition entry_at (off : N) (s : Store) : option LogEntry :=
  list_find_first (fun e => offset e =? off) (entries s).

Definition abs (s : Store) : AbsLog := mkAbsLog (start_offset s) (entries s).

Lemma log_end_abs (s : Store) :
  al_wf (abs s) -> al_end (abs s) <= u64_max -> log_end_offset s = al_end (abs s).
Proof. apply (contiguous_last_end (start_offset s) (entries s)). Qed.

(** On a contiguous log the two in-memory stores cannot be told apart:
    the store that indexes its vector by [offset - start] and the one that
    searches by the offsets stored in the entries give the same reads,
    lookups and end offset, before and after any contiguous append and any
    suffix truncation. *)
Theorem memory_stores_agree (s : Store) (p : Q) (es : list LogEntry) (from i j o : N) :
  let t := MemoryLogStore.mkInner (entries s) (start_offset s) p in
  contiguous (start_offset s) (entries s ++ es) = true ->
  start_offset s + N.of_nat (length (entries s ++ es)) <= u64_max ->
  Qle_bool (1%Q) p = false ->
  let s1 := truncate_suffix from (append es s) in
  let t1 := (MemoryLogStore.truncate_suffix_sync from (MemoryLogStore.append_sync es t).1).1 in
  MemoryLogStore.read_sync i j t1 = Ok (read i j s1) /\
  MemoryLogStore.entry_at_sync o t1 = Ok (entry_at o s1) /\
  MemoryLogStore.log_end_offset t1 = log_end_offset s1.
Proof.
  intros t Hc Hle Hp s1 t1.
  assert (MemoryLogStore.inv (MemoryLogStore.append_sync es t).1 /\
          MemoryLogStore.abs (MemoryLogStore.append_sync es t).1 = abs (append es s)) as [Hi Ha].
  { unfold MemoryLogStore.append_sync, append, MemoryLogStore.inv, MemoryLogStore.abs, abs,
      al_wf, al_end. cbn. rewrite Hp, MemoryLogStore.foldl_push. done. }
  destruct (MemoryLogStore.truncate_suffix_abs _ from Hi) as (t' & E & Hi' & Ha').
  unfold t1. rewrite E. cbn [fst]. rewrite Ha in Ha'. change (MemoryLogStore.abs t' = abs s1) in Ha'.
  split_and!.
  - rewrite MemoryLogStore.read_abs, Ha' by done. done.
  - rewrite MemoryLogStore.entry_at_abs, Ha' by done. done.
  - destruct Hi' as [Hwf Hend]. rewrite Ha' in Hwf, Hend. rewrite log_end_abs by done.
    rewrite <- Ha'. apply u64_add_small. by rewrite <- Ha' in Hend.
Qed.

Lemma memory_stores_agree_witness :
  MemoryLogStore.log_end_offset
    (MemoryLogStore.truncate_suffix_sync 1
      (MemoryLogStore.append_sync [mkLogEntry 0 1 Command []; mkLogEntry 1 1 Command []]
         MemoryLogStore.new).1).1
  = log_end_offset (truncate_suffix 1
      (append [mkLogEntry 0 1 Command []; mkLogEntry 1 1 Command []] new)).
Proof.
  destruct (memory_stores_agree new (0%Q)
    [mkLogEntry 0 1 Command []; mkLogEntry 1 1 Command []] 1 0 9 0) as (_ & _ & H);
    [reflexivity|vm_compute; discriminate|reflexivity|exact H].
Defined.

End MemoryLog.

Module MemoryQuorumState.

(** ** The in-memory store of voting state *)

Record Store (QS : Type) := mkStore { state : option QS }.
Arguments mkStore {QS} state.
Arguments state {QS} s.

Definition new {QS} : Store QS := mkStore None.
Definition load {QS} (s : Store QS) : Result (option QS) := Ok (state s).
Definition save {QS} (qs : QS) : SE (Store QS) XraftError unit := fun _ => (mkStore (Some qs), Ok tt).

#[global] Instance memory_QuorumStateStore {QS} : QuorumStateStore QS (Store QS) :=
  {| qss_load := load; qss_save := save |}.

#[global] Instance memory_QuorumStateStoreLaws {QS} : QuorumStateStoreLaws QS (Store QS).
Proof.
  refine {| qss_persisted := state |}; [done| |]; cbn; unfold save; intros; by simplify_eq/=.
Defined.

End MemoryQuorumState.
