(* ===== verification/Mocks.v ===== *)
(** * The mock collaborators of [xraft-test/src/mocks]

    The stores, clock and transport the repository's own tests inject into
    [RaftNode].  They are concrete instances of the classes of [Interfaces],
    with proofs of the laws those classes state. *)

From Stdlib Require Import ZifyBool ZifyN ZifyNat Lia.
From stdpp Require Import base list gmap numbers option strings.
From S2P Require Import Prelude Types Interfaces Tasks.

Module Mocks.

(** ** Clock ([mocks/clock.rs]), in milliseconds *)

Record MockClock := mkClock { base : Instant; offset_ms : N; election_timeout : Duration }.

Definition clock_new (start : Instant) : MockClock := mkClock start 0 200.
Definition set_election_timeout (d : Duration) (c : MockClock) : MockClock :=
  mkClock (base c) (offset_ms c) d.
Definition advance (d : Duration) (c : MockClock) : MockClock :=
  mkClock (base c) (u64_add (offset_ms c) d) (election_timeout c).
Definition clock_now (c : MockClock) : Instant := base c + offset_ms c.
Definition sleep_until (deadline : Instant) (c : MockClock) : MockClock :=
  let now := clock_now c in
  if now <? deadline then advance (deadline - now) c else c.

#[global] Instance mock_Clock : Clock MockClock := {|
  clk_now c := (c, clock_now c);
  clk_random_election_timeout c := (c, election_timeout c);
  clk_sleep_until := sleep_until;
|}.

(** Sleeping reaches the deadline and never moves the clock back. *)
Lemma sleep_until_now (deadline : Instant) (c : MockClock) :
  base c <= deadline -> deadline - base c <= u64_max ->
  clock_now (sleep_until deadline c) = N.max deadline (clock_now c).
Proof.
  intros H1 H2. unfold sleep_until, clock_now. destruct (_ <? _) eqn:E; cbn; [|lia].
  rewrite u64_add_small; lia.
Qed.

(** [SharedMockClock] wraps an [Arc] of a clock: [new] returns two handles on
    the same clock, so whatever one of them does the other one sees.  The
    shared clock is the state, the wrapper's methods are those of the clock. *)
Definition shared_new (start : Instant) : MockClock := clock_new start.
Definition shared_now (c : MockClock) : Instant := clock_now c.
Definition shared_sleep_until (deadline : Instant) (c : MockClock) : MockClock :=
  sleep_until deadline c.
Definition shared_random_election_timeout (c : MockClock) : Duration := election_timeout c.

(** ** Transport ([mocks/transport.rs]) *)

Record MockTransportSender := mkSender { outbox : list (NodeId * RpcEnvelope) }.

Definition sender_new : MockTransportSender := mkSender [].
Definition take_sent (t : MockTransportSender) : MockTransportSender * list (NodeId * RpcEnvelope) :=
  (mkSender [], outbox t).
Definition sender_send (target : NodeId) (env : RpcEnvelope)
  : SE MockTransportSender XraftError unit := fun t =>
  (mkSender (outbox t ++ [(target, env)]), Ok tt).

#[global] Instance mock_TransportSender : TransportSender MockTransportSender :=
  {| ts_send := sender_send |}.

#[global] Instance mock_TransportSenderLaws : TransportSenderLaws MockTransportSender.
Proof.
  refine {| ts_sent := outbox |}. cbn. unfold sender_send. intros target env t t' r Hs m Hm.
  simplify_eq/=. apply elem_of_app in Hm as [?|Hm]; [by left|right]. by apply list_elem_of_singleton.
Defined.

(** [MockTransportReceiver]: waits for a notification that never comes. *)
Definition receiver_recv {W : Type} : Task W (result RpcEnvelope XraftError) :=
  await (fun _ => None).

Lemma receiver_recv_blocks {W : Type} (w : W) : task_run receiver_recv w = None.
Proof. done. Qed.

(** A receiver with an empty queue: [recv] reports that nothing is there. *)
#[global] Instance idle_TransportReceiver : TransportReceiver unit :=
  {| tr_recv := se_throw IoWouldBlock |}.

(** ** Snapshots ([mocks/snapshot_io.rs]) *)

Record MockSnapshotIO := mkSnapshotIO { snapshot : option Snapshot }.

Definition snapshot_new : MockSnapshotIO := mkSnapshotIO None.
Definition with_snapshot (s : Snapshot) : MockSnapshotIO := mkSnapshotIO (Some s).
Definition snapshot_save (s : Snapshot) : SE MockSnapshotIO XraftError unit := fun _ =>
  (mkSnapshotIO (Some s), Ok tt).
Definition load_latest (m : MockSnapshotIO) : Result (option Snapshot) := Ok (snapshot m).

#[global] Instance mock_SnapshotIO : SnapshotIO MockSnapshotIO :=
  {| sio_save := snapshot_save; sio_load_latest := load_latest |}.

(** ** Voting state ([mocks/quorum_state_store.rs]), generic in the record *)

Record MockQuorumStateStore (QS : Type) := mkQuorumStore { qstate : option QS; save_count : N }.
Arguments mkQuorumStore {QS} qstate save_count.
Arguments qstate {QS} m.
Arguments save_count {QS} m.

Definition quorum_new {QS} : MockQuorumStateStore QS := mkQuorumStore None 0.
Definition with_state {QS} (qs : QS) : MockQuorumStateStore QS := mkQuorumStore (Some qs) 0.
Definition quorum_load {QS} (m : MockQuorumStateStore QS) : Result (option QS) := Ok (qstate m).
Definition quorum_save {QS} (qs : QS) : SE (MockQuorumStateStore QS) XraftError unit := fun m =>
  (mkQuorumStore (Some qs) (u64_add (save_count m) 1), Ok tt).

#[global] Instance mock_QuorumStateStore {QS} : QuorumStateStore QS (MockQuorumStateStore QS) :=
  {| qss_load := quorum_load; qss_save := quorum_save |}.

#[global] Instance mock_QuorumStateStoreLaws {QS} :
  QuorumStateStoreLaws QS (MockQuorumStateStore QS).
Proof.
  refine {| qss_persisted := qstate |}; [done| |]; cbn; unfold quorum_save; intros; by simplify_eq/=.
Defined.

(** ** State machine and listener ([mocks/state_machine.rs], [mocks/listener.rs]) *)

#[global] Instance mock_StateMachine : StateMachine unit :=
  {| sm_apply _ _ := se_ret tt; sm_restore _ := se_ret tt |}.

#[global] Instance mock_Listener : Listener unit :=
  {| li_handle_commit _ l := l; li_handle_load_snapshot _ _ l := l;
     li_handle_leader_change _ _ l := l; li_begin_shutdown l := l |}.

(** ** Log ([mocks/log_store.rs]) *)

Record MockLogStore := mkLogStore {
  entries : list LogEntry;
  start_offset : N;
  append_count : N;
}.

Definition log_new : MockLogStore := mkLogStore [] 0 0.

Definition with_end_offset (end_ : N) : MockLogStore :=
  mkLogStore (map (fun i => mkLogEntry (N.of_nat i) 1 Command []) (seq 0 (N.to_nat end_))) 0 0.

Definition log_append (es : list LogEntry) : SE MockLogStore XraftError unit := fun s =>
  (mkLogStore (entries s ++ es) (start_offset s) (u64_add (append_count s) 1), Ok tt).

Definition log_read (start end_ : N) (s : MockLogStore) : Result (list LogEntry) :=
  Ok (list_filter (fun e => (start <=? offset e) && (offset e <? end_) && (start_offset s <=? offset e))
        (entries s)).

Definition log_truncate_suffix (from : N) : SE MockLogStore XraftError unit := fun s =>
  (mkLogStore (list_filter (fun e => offset e <? from) (entries s)) (start_offset s)
     (append_count s), Ok tt).

Definition log_truncate_prefix (up_to : N) : SE MockLogStore XraftError unit := fun s =>
  (mkLogStore (list_filter (fun e => up_to <=? offset e) (entries s)) up_to
     (append_count s), Ok tt).

Definition log_end_offset (s : MockLogStore) : N :=
  match last (entries s) with
  | Some e => u64_add (offset e) 1
  | None => start_offset s
  end.

Definition log_entry_at (off : N) (s : MockLogStore) : Result (option LogEntry) :=
  Ok (list_find_first (fun e => offset e =? off) (entries s)).

#[global] Instance mock_LogStore : LogStore MockLogStore := {|
  ls_append := log_append;
  ls_read := log_read;
  ls_truncate_suffix := log_truncate_suffix;
  ls_truncate_prefix := log_truncate_prefix;
  ls_log_start_offset := start_offset;
  ls_log_end_offset := log_end_offset;
  ls_entry_at := log_entry_at;
|}.

Definition log_abs (s : MockLogStore) : AbsLog := mkAbsLog (start_offset s) (entries s).
Definition log_inv (s : MockLogStore) : Prop :=
  al_wf (log_abs s) /\ al_end (log_abs s) <= u64_max.

Lemma mock_log_end_abs (s : MockLogStore) : log_inv s -> log_end_offset s = al_end (log_abs s).
Proof. intros [Hwf Hle]. apply (contiguous_last_end (start_offset s) (entries s)); done. Qed.

Lemma log_read_abs (s : MockLogStore) (a b : N) :
  log_inv s -> log_read a b s = Ok (al_read a b (log_abs s)).
Proof.
  intros [Hwf _]. unfold log_read, al_read. f_equal. apply list_filter_ext. intros e He.
  pose proof (contiguous_bounds _ _ _ Hwf He). cbn in *. lia.
Qed.

#[global] Instance mock_LogStoreLaws : LogStoreLaws MockLogStore.
Proof.
  refine {| ls_inv := log_inv; ls_abs := log_abs |}.
  - by intros l [? _].
  - done.
  - apply mock_log_end_abs.
  - intros. by apply log_read_abs.
  - done.
  - intros l es l' r [Hwf _] Hc Hle [= <- <-]. split_and!; [split|..]; try done.
    unfold al_wf, al_end, log_abs in *; cbn in *. by rewrite contiguous_app, Hwf, Hc.
  - intros l from [Hwf Hle] Hf. eexists. split_and!; [done| |done].
    unfold log_inv, al_wf, al_end, log_abs in *; cbn in *.
    rewrite (contiguous_filter_below (start_offset l)) by done.
    split; [by apply contiguous_take|]. rewrite length_take. lia.
Defined.

End Mocks.
