(* ===== verification/RaftNode.v ===== *)
(** * The consensus node of [raft_node.rs]

    [RaftNode] with its constructor, crash recovery, bootstrap, timers, RPC
    dispatch, voting and the transition to leader.  Every [async fn] of the
    source is a program of the state-and-error monad over the whole node; the
    trait objects are the classes of [Interfaces].  [bincode] is a parameter.
    The voting state persisted by this file carries the cluster id. *)

From Stdlib Require Import ZifyBool ZifyN ZifyNat Lia.
From Stdlib Require Import Strings.Byte.
From stdpp Require Import base list gmap numbers option strings.
From S2P Require Import Prelude Types NodeState Interfaces.

Module RaftNode.

Record QuorumState := mkQuorumState {
  q_current_term : Term;
  q_voted_for : option NodeId;
  q_leader_id : option NodeId;
  q_leader_epoch : Term;
  q_cluster_id : ClusterId;
}.

Record Node {LS QSS SN TS TR CK SM LI : Type} := mkNode {
  state : NodeState;
  config : RaftConfig;
  log_store : LS;
  quorum_state_store : QSS;
  snapshot_io : SN;
  transport_sender : TS;
  transport_receiver : TR;
  clock : CK;
  state_machine : SM;
  listener : LI;
  bootstrapped : bool;
}.
Arguments Node : clear implicits.

Section Node.
Context {LS QSS SN TS TR CK SM LI : Type}.
Context `{!LogStore LS} `{!QuorumStateStore QuorumState QSS} `{!SnapshotIO SN}.
Context `{!TransportSender TS} `{!TransportReceiver TR} `{!Clock CK}.
Context `{!StateMachine SM} `{!Listener LI}.
(** [bincode::serialize] and [bincode::deserialize] at [VotersRecord]. *)
Context (serialize_voters : VotersRecord -> Result bytes).
Context (deserialize_voters : bytes -> Result VotersRecord).

Abbreviation RNode := (Node LS QSS SN TS TR CK SM LI).
Abbreviation M := (SE RNode XraftError).
Implicit Types n : RNode.

(** ** Access to the parts of a node *)

Definition set_state (s : NodeState) n : RNode :=
  mkNode _ _ _ _ _ _ _ _ s (config n) (log_store n) (quorum_state_store n) (snapshot_io n)
    (transport_sender n) (transport_receiver n) (clock n) (state_machine n) (listener n)
    (bootstrapped n).
Definition set_log (l : LS) n : RNode :=
  mkNode _ _ _ _ _ _ _ _ (state n) (config n) l (quorum_state_store n) (snapshot_io n)
    (transport_sender n) (transport_receiver n) (clock n) (state_machine n) (listener n)
    (bootstrapped n).
Definition set_quorum_store (q : QSS) n : RNode :=
  mkNode _ _ _ _ _ _ _ _ (state n) (config n) (log_store n) q (snapshot_io n)
    (transport_sender n) (transport_receiver n) (clock n) (state_machine n) (listener n)
    (bootstrapped n).
Definition set_sender (t : TS) n : RNode :=
  mkNode _ _ _ _ _ _ _ _ (state n) (config n) (log_store n) (quorum_state_store n)
    (snapshot_io n) t (transport_receiver n) (clock n) (state_machine n) (listener n)
    (bootstrapped n).
Definition set_receiver (t : TR) n : RNode :=
  mkNode _ _ _ _ _ _ _ _ (state n) (config n) (log_store n) (quorum_state_store n)
    (snapshot_io n) (transport_sender n) t (clock n) (state_machine n) (listener n)
    (bootstrapped n).
Definition set_clock (c : CK) n : RNode :=
  mkNode _ _ _ _ _ _ _ _ (state n) (config n) (log_store n) (quorum_state_store n)
    (snapshot_io n) (transport_sender n) (transport_receiver n) c (state_machine n)
    (listener n) (bootstrapped n).
Definition set_state_machine (m : SM) n : RNode :=
  mkNode _ _ _ _ _ _ _ _ (state n) (config n) (log_store n) (quorum_state_store n)
    (snapshot_io n) (transport_sender n) (transport_receiver n) (clock n) m (listener n)
    (bootstrapped n).
Definition set_listener (l : LI) n : RNode :=
  mkNode _ _ _ _ _ _ _ _ (state n) (config n) (log_store n) (quorum_state_store n)
    (snapshot_io n) (transport_sender n) (transport_receiver n) (clock n)
    (state_machine n) l (bootstrapped n).
Definition set_bootstrapped (b : bool) n : RNode :=
  mkNode _ _ _ _ _ _ _ _ (state n) (config n) (log_store n) (quorum_state_store n)
    (snapshot_io n) (transport_sender n) (transport_receiver n) (clock n)
    (state_machine n) (listener n) b.

(** [self.state.f] and assignments to [self.state]. *)
Definition get {A} (f : NodeState -> A) : M A := se_get (fun n => f (state n)).
Definition upd (f : NodeState -> NodeState) : M unit :=
  se_modify (fun n => set_state (f (state n)) n).

(** Calls on the injected trait objects. *)
Definition save (qs : QuorumState) : M unit :=
  se_zoom quorum_state_store set_quorum_store (qss_save qs).
Definition append (es : list LogEntry) : M unit := se_zoom log_store set_log (ls_append es).
Definition truncate_suffix (from : N) : M unit :=
  se_zoom log_store set_log (ls_truncate_suffix from).
Definition send (target : NodeId) (env : RpcEnvelope) : M unit :=
  se_zoom transport_sender set_sender (ts_send target env).

(** A fallible read that does not move the store. *)
Definition lift {A} (f : RNode -> Result A) : M A := fun n => (n, f n).

(** [let timeout = self.clock.random_election_timeout();
     self.state.election_deadline = self.clock.now() + timeout;] *)
Definition start_election_timer : M unit := se_modify (fun n =>
  let '(c1, timeout) := clk_random_election_timeout (clock n) in
  let '(c2, now) := clk_now c1 in
  set_state ((state n) <| election_deadline := now + timeout |>) (set_clock c2 n)).

(** ** Queries *)

Definition has_quorum (s : NodeState) : bool :=
  let total := length (voter_set s) in
  if (total =? 0)%nat then false
  else (majority_of total <=? size (votes_received s))%nat.

Definition last_log_info (l : LS) : N * Term :=
  let end_ := ls_log_end_offset l in
  if end_ =? 0 then (0, term_zero)
  else
    let last_offset := end_ - 1 in
    match ls_entry_at last_offset l with
    | Ok (Some e) => (last_offset, term e)
    | _ => (last_offset, term_zero)
    end.

Definition log_has_voters_record (l : LS) : bool :=
  let start := ls_log_start_offset l in
  let end_ := ls_log_end_offset l in
  if end_ <=? start then false
  else match ls_read start end_ l with
       | Ok es => existsb (fun e => EntryType_eqb (entry_type e) VotersRecordEntry) es
       | Err _ => false
       end.

Definition has_existing_data (l : LS) (q : QSS) (s : SN) : Result bool :=
  if negb (ls_log_start_offset l =? 0) || negb (ls_log_end_offset l =? 0) then Ok true
  else
    result_bind (qss_load q) (fun qs =>
      if bool_decide (is_Some qs) then Ok true
      else
        result_bind (sio_load_latest s) (fun snap =>
          if bool_decide (is_Some snap) then Ok true else Ok false)).

(** The duplicate check inserts into a set as it goes. *)
Fixpoint first_duplicate (seen : gset NodeId) (vs : list VoterInfo) : option NodeId :=
  match vs with
  | [] => None
  | v :: vs' =>
      if bool_decide (voter_id v ∈ seen) then Some (voter_id v)
      else first_duplicate ({[voter_id v]} ∪ seen) vs'
  end.

Definition validate_bootstrap_config (id : NodeId) (cid : ClusterId) (vs : list VoterInfo)
  : Result unit :=
  if is_nil cid then Err (InvalidBootstrapConfig "cluster_id must not be nil"%string)
  else if (length vs =? 0)%nat then
    Err (InvalidBootstrapConfig "initial_voters must not be empty"%string)
  else match first_duplicate ∅ vs with
       | Some _ => Err (InvalidBootstrapConfig "duplicate node_id in initial_voters"%string)
       | None =>
           if negb (is_member id vs) then
             Err (InvalidBootstrapConfig "this node must be included in initial_voters"%string)
           else Ok tt
       end.

(** ** Elections *)

(** The voters record of the first election; if it cannot be appended, the
    leader-change message before it is rolled back. *)
Definition append_voters_record : M unit :=
  vs <- get voter_set ;;
  payload <- lift (fun _ => serialize_voters (mkVotersRecord 1 vs)) ;;
  vr <- se_get (fun n => {| offset := ls_log_end_offset (log_store n);
                            term := current_term (state n);
                            entry_type := VotersRecordEntry;
                            payload := payload |}) ;;
  se_try (append [vr]) (fun r =>
    match r with
    | Ok _ => se_ret tt
    | Err e =>
        lcm_offset <- se_get (fun n =>
          u64_saturating_sub (ls_log_end_offset (log_store n)) 1) ;;
        se_try (truncate_suffix lcm_offset) (fun _ => se_throw e)
    end).

(** The transition itself, after the appends. *)
Definition take_leadership : M unit :=
  upd (fun s => s <| role := Leader |> <| leader_id := Some (node_id s) |>) ;;;
  end_ <- se_get (fun n => ls_log_end_offset (log_store n)) ;;
  upd (fun s => s <| log_end_offset := end_ |>) ;;;
  single <- get (fun s => (length (voter_set s) =? 1)%nat) ;;
  (if single : bool then upd (fun s => s <| high_watermark := log_end_offset s |>)
   else se_ret tt) ;;;
  se_modify (fun n =>
    set_listener (li_handle_leader_change (node_id (state n)) (current_term (state n))
                    (listener n)) n).

Definition become_leader : M unit :=
  needs_voters_record <- se_get (fun n => negb (log_has_voters_record (log_store n))) ;;
  lcm <- se_get (fun n => {| offset := ls_log_end_offset (log_store n);
                             term := current_term (state n);
                             entry_type := LeaderChangeMessage;
                             payload := [] |}) ;;
  append [lcm] ;;;
  (if needs_voters_record : bool then append_voters_record else se_ret tt) ;;;
  take_leadership.

Fixpoint broadcast_loop (env : RpcEnvelope) (vs : list VoterInfo) : M unit :=
  match vs with
  | [] => se_ret tt
  | v :: vs' =>
      id <- get node_id ;;
      (if negb (voter_id v =? id) then se_try (send (voter_id v) env) (fun _ => se_ret tt)
       else se_ret tt) ;;;
      broadcast_loop env vs'
  end.

Definition broadcast_vote_requests : M unit :=
  info <- se_get (fun n => last_log_info (log_store n)) ;;
  env <- get (fun s =>
    {| env_cluster_id := cluster_id s;
       env_leader_epoch := term_zero;
       env_source := node_id s;
       env_payload := PVoteRequest {| vreq_term := current_term s;
                                      candidate_id := node_id s;
                                      last_log_offset := info.1;
                                      last_log_term := info.2;
                                      vreq_is_pre_vote := false |} |}) ;;
  vs <- get voter_set ;;
  broadcast_loop env vs.

Definition handle_election_timeout : M unit :=
  r <- get role ;;
  if negb (role_eqb r Follower) && negb (role_eqb r Candidate) then
    se_throw (InvalidElectionState r)
  else
    upd (fun s => s <| current_term := next_term (current_term s) |>
                    <| voted_for := Some (node_id s) |>
                    <| role := Candidate |>
                    <| leader_id := None |>
                    <| votes_received := {[node_id s]} |>) ;;;
    qs <- get (fun s => mkQuorumState (current_term s) (voted_for s) None term_zero
                                      (cluster_id s)) ;;
    save qs ;;;
    quorum <- get has_quorum ;;
    if quorum : bool then become_leader
    else broadcast_vote_requests ;;; start_election_timer.

(** The assignments made when a higher term [t] is seen, and their
    persistence. *)
Definition step_down (t : Term) : M unit :=
  upd (fun s => s <| current_term := t |>
                  <| voted_for := None |>
                  <| role := Follower |>
                  <| leader_id := None |>
                  <| votes_received := ∅ |>) ;;;
  start_election_timer ;;;
  qs <- get (fun s => mkQuorumState (current_term s) None None term_zero (cluster_id s)) ;;
  save qs.

(** The handler from the stale-term check on: [request.term] is not above
    the current term any more. *)
Definition decide_vote (request : VoteRequest) : M VoteResponse :=
  stale <- get (fun s => vreq_term request <? current_term s) ;;
  if stale : bool then
    get (fun s => mkVoteResponse (current_term s) false (vreq_is_pre_vote request))
  else
    can_vote <- get (fun s => match voted_for s with
                              | None => true
                              | Some voted => voted =? candidate_id request
                              end) ;;
    ours <- se_get (fun n => last_log_info (log_store n)) ;;
    let log_ok := (ours.2 <? last_log_term request)
                  || ((last_log_term request =? ours.2)
                      && (ours.1 <=? last_log_offset request)) in
    let granted := can_vote && log_ok in
    (if granted && negb (vreq_is_pre_vote request) then
       upd (fun s => s <| voted_for := Some (candidate_id request) |>) ;;;
       qs <- get (fun s => mkQuorumState (current_term s) (voted_for s) None term_zero
                                         (cluster_id s)) ;;
       save qs ;;;
       start_election_timer
     else se_ret tt) ;;;
    get (fun s => mkVoteResponse (current_term s) granted (vreq_is_pre_vote request)).

Definition handle_vote_request (request : VoteRequest) : M VoteResponse :=
  known <- get (fun s => is_member (candidate_id request) (voter_set s)) ;;
  if negb known then
    get (fun s => mkVoteResponse (current_term s) false (vreq_is_pre_vote request))
  else
    higher <- get (fun s => current_term s <? vreq_term request) ;;
    (if higher : bool then step_down (vreq_term request) else se_ret tt) ;;;
    decide_vote request.

Definition handle_vote_response (from : NodeId) (response : VoteResponse) : M unit :=
  higher <- get (fun s => current_term s <? vresp_term response) ;;
  if higher : bool then step_down (vresp_term response)
  else
    ignore <- get (fun s => negb (role_eqb (role s) Candidate)
                            || negb (vresp_term response =? current_term s)) ;;
    if ignore : bool then se_ret tt
    else if vresp_is_pre_vote response then se_ret tt
    else
      known <- get (fun s => is_member from (voter_set s)) ;;
      if negb known then se_ret tt
      else if vote_granted response then
        upd (fun s => s <| votes_received := {[from]} ∪ votes_received s |>) ;;;
        quorum <- get has_quorum ;;
        if quorum : bool then become_leader else se_ret tt
      else se_ret tt.

(** ** Timers and dispatch *)

Definition tick : M unit :=
  now <- (fun n => let '(c, now) := clk_now (clock n) in (set_clock c n, Ok now)) ;;
  due <- get (fun s => (role_eqb (role s) Follower || role_eqb (role s) Candidate)
                       && (election_deadline s <=? now)) ;;
  if due : bool then handle_election_timeout else se_ret tt.

Definition poll : M unit :=
  idle <- get (fun s => negb (role_eqb (role s) Follower)
                        && negb (role_eqb (role s) Candidate)) ;;
  if idle : bool then se_ret tt
  else
    se_modify (fun n => set_clock (clk_sleep_until (election_deadline (state n)) (clock n)) n) ;;;
    handle_election_timeout.

Definition handle_rpc (envelope : RpcEnvelope) : M unit :=
  fenced <- se_get (fun n =>
    bootstrapped n && negb (is_nil (cluster_id (state n)))
    && (is_nil (env_cluster_id envelope)
        || negb (cluster_id (state n) =? env_cluster_id envelope))) ;;
  if fenced : bool then se_throw InvalidClusterId
  else match env_payload envelope with
       | PVoteRequest req =>
           response <- handle_vote_request req ;;
           reply <- get (fun s => {| env_cluster_id := cluster_id s;
                                     env_leader_epoch := term_zero;
                                     env_source := node_id s;
                                     env_payload := PVoteResponse response |}) ;;
           se_try (send (env_source envelope) reply) (fun r =>
             match r with
             | Ok _ => se_ret tt
             | Err _ => se_throw (TransportError "failed to send VoteResponse"%string)
             end)
       | PVoteResponse resp => handle_vote_response (env_source envelope) resp
       | _ => se_ret tt
       end.

Definition step : M unit :=
  tick ;;;
  se_try (se_zoom transport_receiver set_receiver tr_recv) (fun r =>
    match r with
    | Ok envelope => handle_rpc envelope
    | Err IoWouldBlock => se_ret tt
    | Err IoTimedOut => se_ret tt
    | Err _ => se_throw (TransportError "transport recv failed"%string)
    end).

(** ** Start-up *)

(** The newest [VotersRecord] of the log that decodes; the caller passes
    the entries in reverse. *)
Fixpoint find_voters (es : list LogEntry) : option (list VoterInfo) :=
  match es with
  | [] => None
  | e :: es' =>
      if EntryType_eqb (entry_type e) VotersRecordEntry then
        match deserialize_voters (payload e) with
        | Ok r => Some (vr_voters r)
        | Err _ => find_voters es'
        end
      else find_voters es'
  end.

Definition recover_quorum_state : M bool :=
  qs <- lift (fun n => qss_load (quorum_state_store n)) ;;
  match qs with
  | Some qs =>
      upd (fun s => s <| current_term := q_current_term qs |>
                      <| voted_for := q_voted_for qs |>
                      <| leader_id := q_leader_id qs |>
                      <| cluster_id := q_cluster_id qs |>) ;;;
      se_ret true
  | None => se_ret false
  end.

(** Returns whether a snapshot gave the voter set, and its end offset. *)
Definition recover_snapshot : M (bool * N) :=
  snap <- lift (fun n => sio_load_latest (snapshot_io n)) ;;
  match snap with
  | Some snap =>
      let snapshot_end := u64_add (last_included_offset (snap_metadata snap)) 1 in
      upd (fun s => s <| voter_set := sm_voters (snap_metadata snap) |>
                      <| log_start_offset := snapshot_end |>
                      <| high_watermark := snapshot_end |>) ;;;
      se_zoom state_machine set_state_machine (sm_restore (app_snapshot snap)) ;;;
      se_ret (true, snapshot_end)
  | None => se_ret (false, 0)
  end.

Definition recover : M unit :=
  has_quorum_state <- recover_quorum_state ;;
  snap <- recover_snapshot ;;
  store_start <- se_get (fun n => ls_log_start_offset (log_store n)) ;;
  store_end <- se_get (fun n => ls_log_end_offset (log_store n)) ;;
  upd (fun s => if log_start_offset s <? store_start
                then s <| log_start_offset := store_start |> else s) ;;;
  upd (fun s => s <| log_end_offset := N.max store_end snap.2 |>) ;;;
  (if negb snap.1 && has_quorum_state && (store_start <? store_end) then
     es <- lift (fun n => ls_read store_start store_end (log_store n)) ;;
     match find_voters (rev es) with
     | Some vs => upd (fun s => s <| voter_set := vs |>)
     | None => se_ret tt
     end
   else se_ret tt) ;;;
  upd (fun s => s <| role := Follower |>) ;;;
  start_election_timer ;;;
  se_modify (set_bootstrapped true).

(** [now] is the [Instant::now()] of [NodeState::new_unattached]. *)
Definition new (cfg : RaftConfig) (ls : LS) (qss : QSS) (sn : SN) (ts : TS) (tr : TR)
    (ck : CK) (sm : SM) (li : LI) (now : Instant) : Result RNode :=
  result_bind (result_map_err InvalidConfig (validate cfg)) (fun _ =>
  result_bind (has_existing_data ls qss sn) (fun has_data =>
    let node := mkNode _ _ _ _ _ _ _ _ (new_unattached (cfg_node_id cfg) now) cfg
                  ls qss sn ts tr ck sm li false in
    if has_data : bool then
      match recover node with
      | (node', Ok _) => Ok node'
      | (node', Err RecoveryRequired) => Ok (set_bootstrapped true node')
      | (_, Err e) => Err e
      end
    else Ok node)).

Definition bootstrap (cid : ClusterId) (initial_voters : list VoterInfo) : M unit :=
  already <- se_get bootstrapped ;;
  if already : bool then
    se_throw (AlreadyBootstrapped "node has already been bootstrapped or recovered"%string)
  else
    r <- get role ;;
    if negb (role_eqb r Unattached) then
      se_throw (AlreadyBootstrapped "node is not in Unattached state"%string)
    else
      has_data <- lift (fun n => has_existing_data (log_store n) (quorum_state_store n)
                                                   (snapshot_io n)) ;;
      if has_data : bool then
        se_throw (AlreadyBootstrapped
          "existing data detected (log, quorum-state, or snapshot)"%string)
      else
        lift (fun n => validate_bootstrap_config (node_id (state n)) cid initial_voters) ;;;
        upd (fun s => s <| cluster_id := cid |>
                        <| voter_set := initial_voters |>
                        <| current_term := term_zero |>
                        <| voted_for := None |>
                        <| leader_id := None |>
                        <| role := Follower |>
                        <| votes_received := ∅ |>
                        <| pre_votes_received := ∅ |>) ;;;
        start_election_timer ;;;
        se_modify (set_bootstrapped true).

(** [RaftNode::read]. *)
Definition read n : Result ConsensusState := Ok (project (state n)).
End Node.

End RaftNode.
