(* ===== verification/RaftNodeProps.v ===== *)
(** * What the operations of [raft_node.rs] guarantee

    Weakest-precondition rules for the calls a node makes on its injected
    stores, then a specification of each handler: what it does to the vote in
    memory and on disk, which messages it may send, when it becomes leader. *)

From Stdlib Require Import ZifyBool ZifyN ZifyNat Lia.
From Stdlib Require Import Strings.Byte.
From stdpp Require Import base list gmap numbers option strings.
From S2P Require Import Prelude Types NodeState Interfaces RaftNode.

(** ** Votes *)

(** A vote state is a term and the candidate voted for in it. *)
Abbreviation Vote := (N * option N)%type (only parsing).

(** [vote_le a b]: [b] is a later vote state than [a]: a higher term, or the
    same term with the vote of [a], if it had one, unchanged. *)
Definition vote_le (a b : Vote) : Prop :=
  a.1 < b.1 \/ (a.1 = b.1 /\ (a.2 = None \/ a.2 = b.2)).

#[export] Instance vote_le_preorder : PreOrder vote_le.
Proof.
  split.
  - intros [t v]. right. auto.
  - intros [t1 v1] [t2 v2] [t3 v3]. unfold vote_le. cbn.
    intros [?|[? [?|?]]] [?|[? [?|?]]]; subst; auto; left; lia.
Qed.

Lemma vote_le_some (t t' c : N) (v : option N) :
  vote_le (t, Some c) (t', v) -> t < t' \/ (t' = t /\ v = Some c).
Proof. unfold vote_le. cbn. naive_solver. Qed.

Section Props.
Context {LS QSS SN TS TR CK SM LI : Type}.
Context `{!LogStore LS} `{!QuorumStateStore RaftNode.QuorumState QSS} `{!SnapshotIO SN}.
Context `{!TransportSender TS} `{!TransportReceiver TR} `{!Clock CK}.
Context `{!StateMachine SM} `{!Listener LI}.
Context `{!QuorumStateStoreLaws RaftNode.QuorumState QSS} `{!TransportSenderLaws TS}.
Context (serialize_voters : VotersRecord -> Result bytes).
Context (deserialize_voters : bytes -> Result VotersRecord).

Import RaftNode.

Abbreviation RNode := (Node LS QSS SN TS TR CK SM LI).
Abbreviation M := (SE RNode XraftError).
Implicit Types n : RNode.

Definition persisted n : option QuorumState := qss_persisted (quorum_state_store n).
Definition vote_of (q : option QuorumState) : Vote :=
  match q with None => (0, None) | Some qs => (q_current_term qs, q_voted_for qs) end.
Definition persisted_vote n : Vote := vote_of (persisted n).
Definition memory_vote n : Vote := (current_term (state n), voted_for (state n)).

(** The durable vote is never ahead of the vote in memory. *)
Definition vote_safe n : Prop := vote_le (persisted_vote n) (memory_vote n).

Definition sent n : list (NodeId * RpcEnvelope) := ts_sent (transport_sender n).

(** ** Rules for the injected calls *)

Definition saved (qs : QuorumState) n (q : QSS) (r : Result unit) : Prop :=
  qss_persisted q = Some qs \/ (qss_persisted q = persisted n /\ exists e, r = Err e).

Lemma wp_save (qs : QuorumState) Q n :
  (forall q r, saved qs n q r -> Q (set_quorum_store q n) r) -> wp (save qs) Q n.
Proof.
  intros HQ. apply wp_zoom. intros q [[]|e] Hs; apply HQ.
  - left. by eapply qss_save_ok.
  - destruct (qss_save_err _ _ _ _ Hs); [right|left]; eauto.
Qed.

Lemma wp_append (es : list LogEntry) (Q : RNode -> Result unit -> Prop) n :
  (forall l r, Q (set_log l n) r) -> wp (append es) Q n.
Proof. intros HQ. apply wp_zoom. auto. Qed.

Lemma wp_truncate (from : N) (Q : RNode -> Result unit -> Prop) n :
  (forall l r, Q (set_log l n) r) -> wp (truncate_suffix from) Q n.
Proof. intros HQ. apply wp_zoom. auto. Qed.

Lemma wp_send (target : NodeId) (env : RpcEnvelope) (Q : RNode -> Result unit -> Prop) n :
  (forall t r, (forall m, m ∈ ts_sent t -> m ∈ sent n \/ m = (target, env)) ->
               Q (set_sender t n) r) ->
  wp (send target env) Q n.
Proof. intros HQ. apply wp_zoom. intros t r Hs. apply HQ. by eapply ts_send_sent. Qed.

Lemma wp_start_election_timer (Q : RNode -> Result unit -> Prop) n :
  (forall c d, Q (set_state ((state n) <| election_deadline := d |>) (set_clock c n)) (Ok tt)) ->
  wp start_election_timer Q n.
Proof.
  intros HQ. apply wp_modify.
  destruct (clk_random_election_timeout _) as [c1 d]. destruct (clk_now c1) as [c2 t]. apply HQ.
Qed.

Lemma wp_lift {A} (f : RNode -> Result A) (Q : RNode -> Result A -> Prop) n :
  Q n (f n) -> wp (lift f) Q n.
Proof. done. Qed.

(** ** Becoming leader touches neither the vote nor the network *)

Definition same_vote_view n n' : Prop :=
  node_id (state n') = node_id (state n) /\
  cluster_id (state n') = cluster_id (state n) /\
  memory_vote n' = memory_vote n /\
  votes_received (state n') = votes_received (state n) /\
  voter_set (state n') = voter_set (state n) /\
  quorum_state_store n' = quorum_state_store n /\
  transport_sender n' = transport_sender n /\
  bootstrapped n' = bootstrapped n.

Lemma wp_become_leader (Q : RNode -> Result unit -> Prop) n :
  (forall n' r, same_vote_view n n' ->
     (r = Ok tt /\ role (state n') = Leader) \/
     ((exists e, r = Err e) /\ role (state n') = role (state n)) -> Q n' r) ->
  wp (become_leader serialize_voters) Q n.
Proof.
  intros HQ. unfold become_leader, append_voters_record, take_leadership, get, upd. wp_steps.
  apply wp_append. intros l [[]|e]; [|apply HQ; [done|right; eauto]].
  wp_steps; try (apply wp_lift; destruct (serialize_voters _) as [pl|e];
    [|apply HQ; [done|right; eauto]]); wp_steps;
    try (apply wp_append; intros l2 [[]|e2]; wp_steps); try (apply HQ; [done|left; done]).
  all: apply wp_truncate; intros l3 r3; wp_steps; apply HQ; [done|right; eauto].
Qed.

(** ** Broadcasting only adds vote requests to the network *)

Lemma wp_broadcast_loop (env : RpcEnvelope) (vs : list VoterInfo)
    (Q : RNode -> Result unit -> Prop) n :
  (forall t, (forall m, m ∈ ts_sent t -> m ∈ sent n \/ exists v, m = (v, env)) ->
             Q (set_sender t n) (Ok tt)) ->
  wp (broadcast_loop env vs) Q n.
Proof.
  revert n. induction vs as [|v vs IH]; intros n HQ; cbn [broadcast_loop].
  - apply wp_ret. destruct n. apply (HQ transport_sender0). auto.
  - unfold get. wp_steps.
    + apply wp_send. intros t r Ht. wp_steps. apply IH. intros t' Ht'.
      apply (HQ t'). intros m Hm. destruct (Ht' m Hm) as [Hm'|]; [|auto].
      destruct (Ht m Hm'); eauto.
    + by apply IH.
Qed.

(** The vote request a node sends is for itself, in its current term. *)
Definition own_vote_request n (env : RpcEnvelope) : Prop :=
  env_source env = node_id (state n) /\
  exists r, env_payload env = PVoteRequest r /\ candidate_id r = node_id (state n) /\
            vreq_term r = current_term (state n) /\ vreq_is_pre_vote r = false.

Lemma wp_broadcast (Q : RNode -> Result unit -> Prop) n :
  (forall t, (forall m, m ∈ ts_sent t -> m ∈ sent n \/
                        exists v env, m = (v, env) /\ own_vote_request n env) ->
             Q (set_sender t n) (Ok tt)) ->
  wp broadcast_vote_requests Q n.
Proof.
  intros HQ. unfold broadcast_vote_requests, get. wp_steps.
  apply wp_broadcast_loop. intros t Ht. apply HQ. intros m Hm.
  destruct (Ht m Hm) as [|[v ->]]; [auto|right].
  do 2 eexists. split; [done|]. split; [done|]. cbn. eauto.
Qed.

(** ** Stepping down *)

(** The node after a higher term [t] was adopted in memory. *)
Definition stepped_down (t : Term) n n' : Prop :=
  node_id (state n') = node_id (state n) /\
  cluster_id (state n') = cluster_id (state n) /\
  memory_vote n' = (t, None) /\ role (state n') = Follower /\
  votes_received (state n') = ∅ /\
  voter_set (state n') = voter_set (state n) /\
  log_store n' = log_store n /\
  transport_sender n' = transport_sender n /\
  bootstrapped n' = bootstrapped n.

Lemma wp_step_down (t : Term) (Q : RNode -> Result unit -> Prop) n :
  (forall n' r, stepped_down t n n' ->
     (r = Ok tt /\ persisted_vote n' = (t, None)) \/
     ((exists e, r = Err e) /\
      (persisted_vote n' = (t, None) \/ persisted_vote n' = persisted_vote n)) -> Q n' r) ->
  wp (step_down t) Q n.
Proof.
  intros HQ. unfold step_down, get, upd. wp_steps.
  apply wp_start_election_timer. intros c d. wp_steps. apply wp_save. intros q r Hs.
  unfold persisted_vote, persisted in HQ.
  destruct Hs as [Hs|[Hs [e ->]]]; [destruct r as [[]|e]|]; apply HQ; try done; cbn;
    rewrite Hs; [left|right|right]; eauto.
Qed.

(** ** Handlers *)

(** What every handler does to the votes: terms and votes only move
    forward, on disk and in memory, and disk stays behind memory. *)
Definition votes_advance n n' : Prop :=
  vote_safe n ->
  vote_safe n' /\ vote_le (persisted_vote n) (persisted_vote n') /\
  vote_le (memory_vote n) (memory_vote n').

(** The candidacy is kept as it was, or given up. *)
Definition candidacy_kept n n' : Prop :=
  (role (state n') = role (state n) /\
   votes_received (state n') = votes_received (state n) /\
   current_term (state n') = current_term (state n)) \/
  (role (state n') = Follower /\ votes_received (state n') = ∅).

(** The candidate's log is at least as up to date as ours. *)
Definition log_up_to_date (l : LS) (req : VoteRequest) : Prop :=
  (last_log_info l).2 < last_log_term req \/
  (last_log_term req = (last_log_info l).2 /\ (last_log_info l).1 <= last_log_offset req).

Record vote_request_post (req : VoteRequest) n n' (r : Result VoteResponse) : Prop := {
  vrp_id : node_id (state n') = node_id (state n);
  vrp_voters : voter_set (state n') = voter_set (state n);
  vrp_sender : transport_sender n' = transport_sender n;
  vrp_votes : votes_advance n n';
  vrp_candidacy : candidacy_kept n n';
  vrp_persisted : persisted_vote n' = persisted_vote n \/ (persisted_vote n').2 = None \/
    (persisted_vote n' = (vreq_term req, Some (candidate_id req)) /\
     vreq_is_pre_vote req = false);
  vrp_response : forall resp, r = Ok resp ->
    vresp_term resp = current_term (state n') /\
    vresp_is_pre_vote resp = vreq_is_pre_vote req /\
    (vote_granted resp = true ->
       vresp_term resp = vreq_term req /\
       candidate_id req ∈ voter_ids (voter_set (state n)) /\
       log_up_to_date (log_store n) req /\
       (vreq_is_pre_vote req = false ->
          persisted_vote n' = (vreq_term req, Some (candidate_id req)) /\
          memory_vote n' = (vreq_term req, Some (candidate_id req))));
}.

Lemma votes_advance_refl n : votes_advance n n.
Proof. intros ?. done. Qed.

Lemma votes_advance_trans n1 n2 n3 :
  votes_advance n1 n2 -> votes_advance n2 n3 -> votes_advance n1 n3.
Proof.
  intros H12 H23 Hs. destruct (H12 Hs) as (? & ? & ?).
  destruct H23 as (? & ? & ?); [done|]. split_and!; [done|by etrans|by etrans].
Qed.

Lemma candidacy_kept_trans n1 n2 n3 :
  candidacy_kept n1 n2 -> candidacy_kept n2 n3 -> candidacy_kept n1 n3.
Proof. unfold candidacy_kept. naive_solver congruence. Qed.

(** A refusal, or a pre-vote, changes nothing. *)
Lemma vote_request_post_unchanged (req : VoteRequest) n (resp : VoteResponse) :
  vresp_term resp = current_term (state n) ->
  vresp_is_pre_vote resp = vreq_is_pre_vote req ->
  (vote_granted resp = true ->
     vreq_is_pre_vote req = true /\ vresp_term resp = vreq_term req /\
     candidate_id req ∈ voter_ids (voter_set (state n)) /\ log_up_to_date (log_store n) req) ->
  vote_request_post req n n (Ok resp).
Proof.
  intros Ht Hp Hg. split; auto using votes_advance_refl; [by left|].
  intros ? [= <-]. split_and!; [done|done|]. naive_solver congruence.
Qed.

(** The node after a vote for the request's candidate was cast in memory
    and [q] came back from the save. *)
Lemma vote_request_post_cast (req : VoteRequest) n n' (r : Result VoteResponse) :
  (voted_for (state n) = None \/ voted_for (state n) = Some (candidate_id req)) ->
  vreq_term req = current_term (state n) -> vreq_is_pre_vote req = false ->
  candidate_id req ∈ voter_ids (voter_set (state n)) -> log_up_to_date (log_store n) req ->
  node_id (state n') = node_id (state n) -> voter_set (state n') = voter_set (state n) ->
  transport_sender n' = transport_sender n ->
  role (state n') = role (state n) ->
  votes_received (state n') = votes_received (state n) ->
  memory_vote n' = (vreq_term req, Some (candidate_id req)) ->
  (persisted_vote n' = memory_vote n' /\
     (forall resp, r = Ok resp -> resp = mkVoteResponse (vreq_term req) true false)) \/
  (persisted_vote n' = persisted_vote n /\ exists e, r = Err e) ->
  vote_request_post req n n' r.
Proof.
  intros Hv Ht Hpre Hmem Hlog ? ? ? ? ? Hmv Hcase.
  assert (vote_le (memory_vote n) (memory_vote n')) as Hle.
  { rewrite Hmv. right. cbn. naive_solver. }
  assert (current_term (state n') = current_term (state n)).
  { unfold memory_vote in Hmv. by injection Hmv as -> _. }
  split; try done.
  - intros Hs. unfold vote_safe in *. destruct Hcase as [[-> _]|[-> _]].
    + split_and!; [done|by etrans|done].
    + split_and!; [by etrans|done|done].
  - left. done.
  - destruct Hcase as [[-> _]|[-> _]]; auto.
  - intros resp ->. destruct Hcase as [[Hp Hr]|[_ [e [=]]]].
    rewrite (Hr _ eq_refl). cbn. rewrite Hpre, Hp. split_and!; [congruence|done|].
    intros _. split_and!; done.
Qed.

Lemma wp_decide_vote (req : VoteRequest) n :
  vreq_term req <= current_term (state n) ->
  candidate_id req ∈ voter_ids (voter_set (state n)) ->
  wp (decide_vote req) (vote_request_post req n) n.
Proof.
  intros Hle Hmem. unfold decide_vote, get, upd. wp_steps.
  { by apply vote_request_post_unchanged. }
  - match goal with H : _ && _ && _ = true |- _ => apply andb_prop in H as [Hg Hpre] end.
    rewrite Hg. apply negb_true_iff in Hpre. apply andb_prop in Hg as [Hcan Hlog].
    apply wp_save. intros q r Hs. destruct r as [[]|e]; [apply wp_start_election_timer; intros c d; wp_steps|];
      apply vote_request_post_cast; try done; try lia.
    all: try (unfold log_up_to_date; lia).
    all: try (destruct (voted_for (state n)); [right; f_equal; lia|by left]).
    all: try (unfold memory_vote; cbn; f_equal; lia).
    all: unfold saved in Hs; unfold persisted_vote, persisted in *; cbn in *.
    + left. destruct Hs as [Hs|[_ [? [=]]]]. rewrite Hs. split; [done|].
      intros resp [= <-]. f_equal; [lia|done].
    + destruct Hs as [Hs|[Hs _]]; rewrite Hs;
        [left; split; [done|intros ? [=]]|right; eauto].
  - apply vote_request_post_unchanged; [done|done|]. cbn. intros Hg. rewrite Hg in *. cbn in *.
    apply andb_prop in Hg as [_ Hlog]. split_and!; [by apply negb_false_iff|lia|done|].
    unfold log_up_to_date. lia.
Qed.

Lemma stepped_down_advance (t : Term) n n' :
  current_term (state n) < t -> stepped_down t n n' ->
  persisted_vote n' = (t, None) \/ persisted_vote n' = persisted_vote n ->
  votes_advance n n'.
Proof.
  intros Hlt (_ & _ & Hmv & _) Hp Hs.
  assert (vote_le (memory_vote n) (memory_vote n')) by (rewrite Hmv; left; cbn; lia).
  unfold vote_safe in *. rewrite Hmv in *.
  destruct Hp as [->| ->]; split_and!; try done; by etrans.
Qed.

Lemma wp_handle_vote_request (req : VoteRequest) n :
  wp (handle_vote_request req) (vote_request_post req n) n.
Proof.
  unfold handle_vote_request, get. wp_steps.
  { apply vote_request_post_unchanged; done. }
  - apply negb_false_iff, is_member_spec in E. apply wp_step_down. intros n1 r Hsd Hp.
    assert (votes_advance n n1) as Hadv.
    { apply (stepped_down_advance (vreq_term req)); [lia|done|]. naive_solver. }
    destruct Hsd as (Hid & _ & Hmv & Hrole & Hvr & Hvs & Hlog & Hts & _).
    destruct Hp as [[-> Hp]|[[e ->] Hp]].
    + eapply wp_mono.
      { apply wp_decide_vote; [|by rewrite Hvs]. unfold memory_vote in Hmv.
        injection Hmv as -> _. lia. }
      intros n2 r2 [H1 H2 H3 H4 H5 H6 H7]. split; try congruence.
      * by eapply votes_advance_trans.
      * eapply candidacy_kept_trans; [|done]. by right.
      * destruct H6 as [->|[?|?]]; [|auto|auto]. right; left. by rewrite Hp.
      * intros resp Hr. destruct (H7 _ Hr) as (? & ? & Hg). rewrite Hvs, Hlog in Hg. done.
    + split; try done; [by right|]. destruct Hp as [->| ->]; auto.
  - apply negb_false_iff, is_member_spec in E. apply wp_decide_vote; [lia|done].
Qed.

(** *** Election timeout *)

Record started_election n n' (r : Result unit) : Prop := {
  se_id : node_id (state n') = node_id (state n);
  se_voters : voter_set (state n') = voter_set (state n);
  se_memory : memory_vote n' = (next_term (current_term (state n)), Some (node_id (state n)));
  se_votes : votes_received (state n') = {[node_id (state n)]};
  se_persisted : persisted_vote n' = memory_vote n' \/
    (persisted_vote n' = persisted_vote n /\ (exists e, r = Err e) /\
     transport_sender n' = transport_sender n /\ role (state n') = Candidate);
  se_sent : forall m, m ∈ sent n' -> m ∈ sent n \/
    exists v env, m = (v, env) /\ own_vote_request n' env;
  se_role : role (state n') = Candidate \/
    (role (state n') = Leader /\ has_quorum (state n') = true);
}.

Lemma has_quorum_ext (s s' : NodeState) :
  voter_set s' = voter_set s -> votes_received s' = votes_received s ->
  has_quorum s' = has_quorum s.
Proof. unfold has_quorum. by intros -> ->. Qed.

(** The electable roles. *)
Definition electable n : bool :=
  role_eqb (role (state n)) Follower || role_eqb (role (state n)) Candidate.

Lemma wp_handle_election_timeout n :
  wp (handle_election_timeout serialize_voters)
     (fun n' r => (electable n = false /\ n' = n /\
                   r = Err (InvalidElectionState (role (state n)))) \/
                  (electable n = true /\ started_election n n' r)) n.
Proof.
  unfold handle_election_timeout, get, upd, electable. wp_steps.
  { left. by destruct (role_eqb _ Follower), (role_eqb _ Candidate). }
  assert (forall P Q : Prop, Q -> P \/ (role_eqb (role (state n)) Follower
            || role_eqb (role (state n)) Candidate = true /\ Q)) as Hright.
  { intros. right. by destruct (role_eqb _ Follower), (role_eqb _ Candidate). }
  apply wp_save. intros q r Hs. unfold saved in Hs. unfold persisted in Hs. cbn in Hs.
  destruct r as [[]|e].
  2:{ apply Hright. split; try done; auto.
      unfold persisted_vote, persisted; cbn. destruct Hs as [->|[-> _]]; [by left|right; eauto]. }
  assert (vote_of (qss_persisted q) =
          (next_term (current_term (state n)), Some (node_id (state n)))) as Hq.
  { destruct Hs as [->|[_ [? [=]]]]. done. }
  wp_steps.
  - apply wp_become_leader. intros n' r' (H1 & H2 & H3 & H4 & H5 & H6 & H7 & H8) Hr.
    apply Hright. split; try done.
    + left. unfold persisted_vote, persisted. by rewrite H6, H3.
    + unfold sent. rewrite H7. auto.
    + destruct Hr as [[_ ?]|[_ ?]]; [right|by left]. split; [done|].
      rewrite <- E0. by apply has_quorum_ext.
  - apply wp_broadcast. intros t Ht. apply wp_start_election_timer. intros c d.
    apply Hright. split; try done; by left.
Qed.

Lemma started_election_advance n n' (r : Result unit) :
  current_term (state n) < u64_max -> started_election n n' r -> votes_advance n n'.
Proof.
  intros Hb [H1 H2 H3 H4 H5 H6 H7] Hs.
  assert (vote_le (memory_vote n) (memory_vote n')).
  { rewrite H3. left. cbn. unfold next_term. rewrite u64_add_small; lia. }
  unfold vote_safe in *. destruct H5 as [->|[-> _]]; split_and!; try done; by etrans.
Qed.

(** *** Vote response *)

Record vote_counted (from : NodeId) (resp : VoteResponse) n n' : Prop := {
  vc_view : node_id (state n') = node_id (state n) /\
    voter_set (state n') = voter_set (state n) /\
    memory_vote n' = memory_vote n /\ quorum_state_store n' = quorum_state_store n /\
    transport_sender n' = transport_sender n;
  vc_candidate : role (state n) = Candidate;
  vc_response : vresp_term resp = current_term (state n) /\ vote_granted resp = true /\
    vresp_is_pre_vote resp = false /\ from ∈ voter_ids (voter_set (state n));
  vc_votes : votes_received (state n') = {[from]} ∪ votes_received (state n);
  vc_role : role (state n') = Candidate \/
    (role (state n') = Leader /\ has_quorum (state n') = true);
}.

Lemma wp_handle_vote_response (from : NodeId) (resp : VoteResponse) n :
  wp (handle_vote_response serialize_voters from resp)
     (fun n' r =>
        (current_term (state n) < vresp_term resp /\ stepped_down (vresp_term resp) n n' /\
         (persisted_vote n' = (vresp_term resp, None) \/
          (persisted_vote n' = persisted_vote n /\ exists e, r = Err e))) \/
        n' = n \/ vote_counted from resp n n') n.
Proof.
  unfold handle_vote_response, get, upd. wp_steps; try (right; left; done).
  - apply wp_step_down. intros n' r Hsd Hp. left. split_and!; [lia|done|]. naive_solver.
  - apply wp_become_leader. intros n' r (H1 & H2 & H3 & H4 & H5 & H6 & H7 & H8) Hr.
    right; right. apply orb_false_iff in E0 as [Ec Et]. apply negb_false_iff in Ec, Et.
    apply role_eqb_spec in Ec. apply negb_false_iff, is_member_spec in E2.
    split; try done; [split_and!; auto; lia|].
    destruct Hr as [[_ ?]|[_ Hr]]; [right|left; by rewrite Hr]. split; [done|].
    rewrite <- E4. by apply has_quorum_ext.
  - right; right. apply orb_false_iff in E0 as [Ec Et]. apply negb_false_iff in Ec, Et.
    apply role_eqb_spec in Ec. apply negb_false_iff, is_member_spec in E2.
    split; try done; [split_and!; auto; lia|]. by left.
Qed.

Lemma vote_counted_advance (from : NodeId) (resp : VoteResponse) n n' :
  vote_counted from resp n n' -> votes_advance n n'.
Proof.
  intros [(_ & _ & Hm & Hq & _) _ _ _ _] Hs.
  unfold vote_safe, persisted_vote, persisted in *. rewrite Hm, Hq. done.
Qed.

(** ** Start-up *)

Record restored n n' : Prop := {
  rs_id : node_id (state n') = node_id (state n);
  rs_store : quorum_state_store n' = quorum_state_store n;
  rs_sender : transport_sender n' = transport_sender n;
  rs_votes : votes_received (state n') = votes_received (state n);
  rs_memory : memory_vote n = (0, None) -> memory_vote n' = persisted_vote n';
  rs_role : role (state n') = role (state n) \/ role (state n') = Follower;
}.

Lemma wp_recover_quorum_state (Q : RNode -> Result bool -> Prop) n :
  (forall n' b, restored n n' -> snapshot_io n' = snapshot_io n ->
                log_store n' = log_store n -> Q n' (Ok b)) ->
  wp recover_quorum_state Q n.
Proof.
  intros HQ. unfold recover_quorum_state, upd. wp_steps. apply wp_lift.
  rewrite qss_load_persisted. destruct (qss_persisted _) as [qs|] eqn:Hp; wp_steps;
    apply HQ; try done; split; try done; auto;
    unfold persisted_vote, persisted; cbn; by rewrite Hp.
Qed.

(** The rest of recovery leaves votes and the network alone. *)
Definition votes_untouched n n' : Prop :=
  node_id (state n') = node_id (state n) /\ quorum_state_store n' = quorum_state_store n /\
  transport_sender n' = transport_sender n /\
  votes_received (state n') = votes_received (state n) /\
  memory_vote n' = memory_vote n /\
  (role (state n') = role (state n) \/ role (state n') = Follower).

Lemma restored_trans n1 n2 n3 : restored n1 n2 -> votes_untouched n2 n3 -> restored n1 n3.
Proof.
  intros [H1 H2 H3 H4 H5 H6] (G1 & G2 & G3 & G4 & G5 & G6). split; try congruence.
  - unfold persisted_vote, persisted in *. rewrite G5, G2. exact H5.
  - naive_solver congruence.
Qed.

#[local] Instance votes_untouched_preorder : PreOrder votes_untouched.
Proof. split; unfold votes_untouched; [intros n|intros n1 n2 n3]; intuition congruence. Qed.

Lemma wp_recover_snapshot (Q : RNode -> Result (bool * N) -> Prop) n :
  (forall n' r, votes_untouched n n' -> Q n' r) -> wp recover_snapshot Q n.
Proof.
  intros HQ. unfold recover_snapshot, upd. wp_steps. apply wp_lift.
  destruct (sio_load_latest _) as [[snap|]|e]; wp_steps; try (by apply HQ).
  apply wp_zoom. intros sm r _. destruct r; wp_steps; apply HQ; unfold votes_untouched; cbn; auto 10.
Qed.

Lemma wp_recover n : wp (recover deserialize_voters) (fun n' r => restored n n') n.
Proof.
  unfold recover, upd. wp_steps. apply wp_recover_quorum_state. intros n1 b H1 _ _. wp_steps.
  apply wp_recover_snapshot. intros n2 [[vs off]|e] H2; [|by eapply restored_trans].
  pose proof (restored_trans _ _ _ H1 H2) as H12. wp_steps;
    [apply wp_lift; destruct (ls_read _ _ _) as [es|e]; [destruct (find_voters _ _)|]; wp_steps|];
    try (apply wp_start_election_timer; intros c d; wp_steps);
    (eapply restored_trans; [exact H12|]);
    unfold votes_untouched, memory_vote; cbn; destruct (log_start_offset (state n2) <? _); cbn; auto 10.
Qed.

Lemma has_existing_data_false (l : LS) (q : QSS) (sn : SN) :
  has_existing_data l q sn = Ok false <->
  ls_log_start_offset l = 0 /\ ls_log_end_offset l = 0 /\ qss_persisted q = None /\
  sio_load_latest sn = Ok None.
Proof.
  unfold has_existing_data. rewrite qss_load_persisted. cbn.
  destruct (ls_log_start_offset l =? 0) eqn:E1; cbn; [|split; [done|lia]].
  destruct (ls_log_end_offset l =? 0) eqn:E2; cbn; [|split; [done|lia]].
  assert (ls_log_start_offset l = 0 /\ ls_log_end_offset l = 0) as [-> ->] by lia.
  destruct (qss_persisted q); cbn; [naive_solver|].
  destruct (sio_load_latest sn) as [[|]|]; cbn; naive_solver.
Qed.

(** A node that comes up has in memory exactly the vote its store holds,
    and is not a candidate. *)
Lemma new_restores (cfg : RaftConfig) ls qss sn ts tr ck sm li now n :
  new deserialize_voters cfg ls qss sn ts tr ck sm li now = Ok n ->
  node_id (state n) = cfg_node_id cfg /\ quorum_state_store n = qss /\
  transport_sender n = ts /\ votes_received (state n) = ∅ /\
  memory_vote n = vote_of (qss_persisted qss) /\
  (role (state n) = Unattached \/ role (state n) = Follower).
Proof.
  unfold new. destruct (validate cfg) as [[]|]; [cbn|done].
  destruct (has_existing_data ls qss sn) as [[|]|] eqn:Hd; [cbn| |done].
  - set (n0 := mkNode _ _ _ _ _ _ _ _ _ cfg ls qss sn ts tr ck sm li false).
    pose proof (wp_recover n0) as Hr. unfold wp in Hr.
    destruct (recover deserialize_voters n0) as [n1 r1]. cbn in Hr.
    destruct Hr as [H1 H2 H3 H4 H5 H6]. specialize (H5 eq_refl).
    unfold persisted_vote, persisted in H5. rewrite H2 in H5. cbn in *.
    destruct r1 as [u|[]]; intros; simplify_eq/=; auto 10.
  - cbn. intros [= <-]. apply has_existing_data_false in Hd as (_ & _ & -> & _). cbn. auto 10.
Qed.

Lemma first_duplicate_None (seen : gset N) (vs : list VoterInfo) :
  first_duplicate seen vs = None <->
  NoDup (voter_ids vs) /\ forall v, v ∈ voter_ids vs -> v ∉ seen.
Proof.
  revert seen. induction vs as [|v vs IH]; intros seen; cbn.
  - split; [intros _; split; [constructor|set_solver]|done].
  - rewrite list.NoDup_cons. destruct (bool_decide _) eqn:Hin.
    + apply bool_decide_eq_true in Hin. split; [done|]. intros [_ Hs].
      destruct (Hs (voter_id v)); [constructor|done].
    + apply bool_decide_eq_false in Hin. rewrite IH. fold (voter_ids vs). split.
      * intros [Hnd Hs]. split_and!; [|done|].
        -- intros Hv. apply (Hs _ Hv). set_solver.
        -- intros w Hw. apply elem_of_cons in Hw as [->|Hw]; [done|]. specialize (Hs w Hw). set_solver.
      * intros [[Hv Hnd] Hs]. split; [done|]. intros w Hw.
        apply not_elem_of_union. split; [|apply Hs; by constructor].
        intros ->%elem_of_singleton. done.
Qed.

(** What [validate_bootstrap_config] accepts. *)
Definition valid_bootstrap (id : NodeId) (cid : ClusterId) (vs : list VoterInfo) : Prop :=
  cid <> uuid_nil /\ vs <> [] /\ NoDup (voter_ids vs) /\ id ∈ voter_ids vs.

Lemma validate_bootstrap_config_ok (id : NodeId) (cid : ClusterId) (vs : list VoterInfo) :
  validate_bootstrap_config id cid vs = Ok tt <-> valid_bootstrap id cid vs.
Proof.
  unfold validate_bootstrap_config, valid_bootstrap, is_nil.
  destruct (cid =? uuid_nil) eqn:E1; [split; [done|naive_solver lia]|].
  destruct vs as [|v vs]; [split; [done|naive_solver]|]. cbn [length Nat.eqb].
  destruct (first_duplicate ∅ (v :: vs)) eqn:E2.
  - split; [done|]. intros (_ & _ & Hnd & _).
    assert (first_duplicate ∅ (v :: vs) = None)
      by (apply first_duplicate_None; split; [done|]; intros; apply not_elem_of_empty).
    congruence.
  - apply first_duplicate_None in E2 as [Hnd _].
    destruct (is_member id (v :: vs)) eqn:E3; cbn [negb].
    + apply is_member_spec in E3. split; [|done]. intros _. split_and!; [lia|done|done|done].
    + split; [done|]. intros (_ & _ & _ & Hm%is_member_spec). congruence.
Qed.

(** When bootstrap is allowed. *)
Definition can_bootstrap (cid : ClusterId) (vs : list VoterInfo) n : Prop :=
  bootstrapped n = false /\ role (state n) = Unattached /\
  has_existing_data (log_store n) (quorum_state_store n) (snapshot_io n) = Ok false /\
  valid_bootstrap (node_id (state n)) cid vs.

Record bootstrapped_as (cid : ClusterId) (vs : list VoterInfo) n n' : Prop := {
  ba_view : node_id (state n') = node_id (state n) /\
    quorum_state_store n' = quorum_state_store n /\
    transport_sender n' = transport_sender n /\ log_store n' = log_store n /\
    snapshot_io n' = snapshot_io n;
  ba_cluster : cluster_id (state n') = cid /\ voter_set (state n') = vs;
  ba_state : memory_vote n' = (0, None) /\ role (state n') = Follower /\
    leader_id (state n') = None /\
    votes_received (state n') = ∅ /\ bootstrapped n' = true;
}.

Lemma wp_bootstrap (cid : ClusterId) (vs : list VoterInfo) n :
  wp (bootstrap cid vs)
     (fun n' r => (r = Ok tt /\ can_bootstrap cid vs n /\ bootstrapped_as cid vs n n') \/
                  ((exists e, r = Err e) /\ ~ can_bootstrap cid vs n /\ n' = n)) n.
Proof.
  unfold bootstrap, get, upd, can_bootstrap. wp_steps.
  { right. naive_solver congruence. }
  { right. apply negb_true_iff, role_eqb_false in E0. naive_solver. }
  apply negb_false_iff, role_eqb_spec in E0.
  apply wp_lift. destruct (has_existing_data _ _ _) as [[|]|] eqn:Hd; wp_steps;
    [right; naive_solver| |right; naive_solver].
  apply wp_lift. destruct (validate_bootstrap_config _ _ _) as [[]|] eqn:Hv; wp_steps.
  - apply validate_bootstrap_config_ok in Hv. apply wp_start_election_timer. intros c d.
    wp_steps. left. split_and!; try done.
  - right. rewrite <- validate_bootstrap_config_ok. naive_solver congruence.
Qed.
End Props.

#[export] Hint Resolve vote_le_some : xraft.

(** Continue through the monad and through the calls on injected stores. *)
Ltac wp_call :=
  lazymatch goal with
  | |- wp RaftNode.start_election_timer _ _ => apply wp_start_election_timer; intros ? ?
  | |- wp (RaftNode.save _) _ _ => apply wp_save; intros ? ? ?
  | |- wp (RaftNode.step_down _) _ _ => apply wp_step_down; intros ? ? ? ?
  | |- wp (RaftNode.become_leader _) _ _ => apply wp_become_leader; intros ? ? ? ?
  | |- wp RaftNode.broadcast_vote_requests _ _ => apply wp_broadcast; intros ? ?
  | |- wp (RaftNode.lift _) _ _ => apply wp_lift
  end.
