(* ===== verification/RaftNodeClaims.v ===== *)
(** * Correctness of the consensus node, operation by operation

    The guarantees of [raft_node.rs] that a user of one node relies on: votes
    only move forward and are durable before they are granted, a restart
    resumes the durable vote, bootstrap is accepted exactly under its guards
    and changes nothing otherwise, messages of another cluster are fenced, and
    becoming leader is all or nothing on the log. *)

From Stdlib Require Import ZifyBool ZifyN ZifyNat Lia.
From Stdlib Require Import Strings.Byte.
From stdpp Require Import base list gmap numbers option strings.
From S2P Require Import Prelude Types NodeState Interfaces Mocks RaftNode RaftNodeProps.

Section Claims.
Context {LS QSS SN TS TR CK SM LI : Type}.
Context `{!LogStore LS} `{!QuorumStateStore RaftNode.QuorumState QSS} `{!SnapshotIO SN}.
Context `{!TransportSender TS} `{!TransportReceiver TR} `{!Clock CK}.
Context `{!StateMachine SM} `{!Listener LI}.
Context `{!QuorumStateStoreLaws RaftNode.QuorumState QSS} `{!TransportSenderLaws TS}.
Context (serialize_voters : VotersRecord -> Result bytes).

Import RaftNode.

Abbreviation RNode := (Node LS QSS SN TS TR CK SM LI).
Implicit Types n : RNode.

(** ** Votes only move forward *)

Lemma wp_handle_rpc_advance (env : RpcEnvelope) n :
  wp (handle_rpc serialize_voters env) (fun n' _ => votes_advance n n') n.
Proof.
  unfold handle_rpc, get. wp_steps; [apply votes_advance_refl|].
  destruct (env_payload env); try (wp_steps; apply votes_advance_refl).
  - apply wp_bind. eapply wp_mono; [apply wp_handle_vote_request|]. intros n1 r1 Hp.
    destruct r1 as [resp|e]; [|apply Hp]. wp_steps. apply wp_send. intros t r2 _.
    destruct r2; wp_steps; intros Hs; apply Hp, Hs.
  - eapply wp_mono; [apply wp_handle_vote_response|]. intros n' r1 [(Hlt & Hsd & Hp)|[->|Hvc]].
    + eapply stepped_down_advance; [done..|]. naive_solver.
    + apply votes_advance_refl.
    + by eapply vote_counted_advance.
Qed.

Lemma wp_timeout_advance n :
  current_term (state n) < u64_max ->
  wp (handle_election_timeout serialize_voters) (fun n' _ => votes_advance n n') n.
Proof.
  intros Hb. eapply wp_mono; [apply wp_handle_election_timeout|].
  intros n' r [(_ & -> & _)|[_ Hse]]; [apply votes_advance_refl|].
  by eapply started_election_advance.
Qed.

Lemma wp_tick_advance n :
  current_term (state n) < u64_max ->
  wp (tick serialize_voters) (fun n' _ => votes_advance n n') n.
Proof.
  intros Hb. unfold tick, get. apply wp_bind. unfold wp at 1.
  destruct (clk_now (clock n)) as [c now]. cbn [fst snd]. wp_steps.
  - exact (wp_timeout_advance (set_clock c n) Hb).
  - exact (votes_advance_refl n).
Qed.

(** C8: One iteration of the node's event loop, timer and message together,
    never lowers its term and never changes a vote already cast in the
    current term, neither in memory nor in the durable store, whatever the
    stores and the transport answer; and the durable vote stays behind the
    vote in memory. *)
Theorem step_votes_advance n n' (r : Result unit) :
  current_term (state n) < u64_max -> vote_safe n -> step serialize_voters n = (n', r) ->
  vote_le (memory_vote n) (memory_vote n') /\
  vote_le (persisted_vote n) (persisted_vote n') /\ vote_safe n'.
Proof.
  intros Hb Hs Hrun. cut (votes_advance n n').
  { intros Hadv. destruct (Hadv Hs) as (? & ? & ?). done. }
  revert Hrun. apply (wp_run _ (fun n' _ => votes_advance n n')). unfold step.
  apply wp_bind. eapply wp_mono; [by apply wp_tick_advance|]. intros n1 [[]|e] H1; [|done].
  wp_steps. apply wp_zoom. intros t r1 _.
  assert (votes_advance n (set_receiver t n1)) as H1'. { intros Hs'. apply H1, Hs'. }
  destruct r1 as [env|e].
  - eapply wp_mono; [apply wp_handle_rpc_advance|]. intros n2 r2 H2.
    by eapply votes_advance_trans.
  - destruct e; wp_steps; done.
Qed.

(** ** Start-up *)

(** C9: A restart resumes the durable vote: the node [RaftNode::new] builds
    over any stores has in memory exactly the term and vote of the quorum
    state store (term 0 and no vote when it is empty), no received votes,
    and is Unattached or Follower, never Candidate or Leader. *)
Theorem restart_resumes_durable_vote (deserialize_voters : bytes -> Result VotersRecord)
    (cfg : RaftConfig) ls qss sn ts tr ck sm li now n :
  new deserialize_voters cfg ls qss sn ts tr ck sm li now = Ok n ->
  memory_vote n = vote_of (qss_persisted qss) /\ persisted_vote n = memory_vote n /\
  votes_received (state n) = ∅ /\
  (role (state n) = Unattached \/ role (state n) = Follower).
Proof.
  intros (H1 & H2 & H3 & H4 & H5 & H6)%new_restores. split_and!; try done.
  unfold persisted_vote, persisted. by rewrite H2, H5.
Qed.

(** Bootstrap succeeds exactly when the node was never bootstrapped or
    recovered, is Unattached, all three stores are empty, and the arguments
    name a non-nil cluster and a non-empty duplicate-free voter list that
    contains the node; it then holds that configuration in memory only,
    with term 0 and no vote, and in every other case it fails and leaves
    the whole node as it was. *)
Theorem bootstrap_correct (cid : ClusterId) (vs : list VoterInfo) n :
  (can_bootstrap cid vs n /\
     exists n', bootstrap cid vs n = (n', Ok tt) /\ bootstrapped_as cid vs n n') \/
  (~ can_bootstrap cid vs n /\ exists e, bootstrap cid vs n = (n, Err e)).
Proof.
  pose proof (wp_bootstrap cid vs n) as Hw. unfold wp in Hw.
  destruct (bootstrap cid vs n) as [n' r]. cbn in Hw.
  destruct Hw as [(-> & ? & ?)|([e ->] & ? & ->)]; [left|right]; eauto.
Qed.

(** A node that belongs to a cluster refuses every message that carries
    a nil or a different cluster id, without any effect on the node. *)
Theorem foreign_cluster_fenced (env : RpcEnvelope) n :
  bootstrapped n = true -> cluster_id (state n) <> uuid_nil ->
  env_cluster_id env <> cluster_id (state n) ->
  handle_rpc serialize_voters env n = (n, Err InvalidClusterId).
Proof.
  intros Hb Hc He. unfold handle_rpc, se_bind, se_get. rewrite Hb. unfold is_nil.
  destruct (cluster_id (state n) =? uuid_nil) eqn:E1; [lia|].
  destruct (cluster_id (state n) =? env_cluster_id env) eqn:E2; [lia|].
  cbn. by rewrite orb_true_r.
Qed.

(** ** Granting a vote *)

Context `{!LogStoreLaws LS}.

(** The code's view of the end of the log is the last entry, when the log has
    one. *)
Lemma last_log_info_abs (l : LS) (e : LogEntry) :
  ls_inv l -> last (al_entries (ls_abs l)) = Some e -> last_log_info l = (offset e, term e).
Proof.
  intros Hi Hl. pose proof (ls_abs_wf _ Hi) as Hwf. pose proof (ls_end_abs _ Hi) as Hend.
  rewrite last_lookup in Hl. pose proof (contiguous_lookup _ _ _ _ Hwf Hl) as Ho.
  pose proof (lookup_lt_Some _ _ _ Hl) as Hlt. unfold al_end in *.
  assert (ls_log_end_offset l = offset e + 1) as He by (rewrite Hend, Ho; lia).
  unfold last_log_info. rewrite He. replace (offset e + 1 =? 0) with false by lia.
  replace (offset e + 1 - 1) with (offset e) by lia.
  rewrite ls_entry_at_abs by (done || unfold al_end; lia).
  unfold al_entry_at. rewrite (contiguous_find (al_start (ls_abs l))) by (done || lia).
  replace (N.to_nat (offset e - al_start (ls_abs l))) with (pred (length (al_entries (ls_abs l)))) by lia.
  by rewrite Hl.
Qed.

(** C7: A vote is granted only when it may be, and is durable before it is
    answered.  A granted response to a real vote request means: the candidate
    is in the voter set; if our log has a last entry, the candidate's log ends
    in a later term, or in the same term at no smaller offset; we had not voted
    for another candidate in the request's term nor left that term behind; the
    response carries the request's term; and both the memory and the durable
    store hold a vote for that candidate in that term.  Nothing is said of the
    candidate's log when ours has been compacted up to its end. *)
Theorem granted_vote_is_durable (req : VoteRequest) n n' (resp : VoteResponse) :
  handle_vote_request req n = (n', Ok resp) ->
  vote_granted resp = true -> vreq_is_pre_vote req = false ->
  vresp_term resp = vreq_term req /\
  candidate_id req ∈ voter_ids (voter_set (state n)) /\
  (forall e, ls_inv (log_store n) -> last (al_entries (ls_abs (log_store n))) = Some e ->
     term e < last_log_term req \/ (last_log_term req = term e /\ offset e <= last_log_offset req)) /\
  (vote_safe n -> vote_le (memory_vote n) (vreq_term req, Some (candidate_id req))) /\
  persisted_vote n' = (vreq_term req, Some (candidate_id req)) /\
  memory_vote n' = (vreq_term req, Some (candidate_id req)).
Proof.
  intros Hrun Hg Hpre.
  pose proof (wp_run _ _ _ _ _ (wp_handle_vote_request req n) Hrun) as [_ _ _ Hadv _ _ Hr].
  destruct (Hr _ eq_refl) as (_ & _ & Hgr). destruct (Hgr Hg) as (? & ? & Hlog & Hd).
  destruct (Hd Hpre) as [Hp Hm]. split_and!; try done.
  - intros e Hi Hl. unfold log_up_to_date in Hlog. by rewrite (last_log_info_abs _ _ Hi Hl) in Hlog.
  - intros Hs. destruct (Hadv Hs) as (_ & _ & Hle). by rewrite Hm in Hle.
Qed.

(** ** Becoming leader *)

Definition has_voters_entry (a : AbsLog) : bool :=
  existsb (fun e => EntryType_eqb (entry_type e) VotersRecordEntry) (al_entries a).

Lemma log_has_voters_record_abs (l : LS) :
  ls_inv l -> log_has_voters_record l = has_voters_entry (ls_abs l).
Proof.
  intros Hi. pose proof (ls_abs_wf _ Hi) as Hwf. unfold log_has_voters_record, has_voters_entry.
  rewrite ls_start_abs, ls_end_abs by done. destruct (al_end _ <=? al_start _) eqn:E.
  - unfold al_end in E. destruct (al_entries (ls_abs l)); [done|cbn in E; lia].
  - rewrite ls_read_abs by done. f_equal. unfold al_read. apply list_filter_all. intros e He.
    pose proof (contiguous_bounds _ _ _ Hwf He). unfold al_end in *. lia.
Qed.

(** The entries a new leader appends. *)
Definition leader_entries (a : AbsLog) (t : Term) (record : bytes) : list LogEntry :=
  mkLogEntry (al_end a) t LeaderChangeMessage [] ::
  (if has_voters_entry a then [] else [mkLogEntry (al_end a + 1) t VotersRecordEntry record]).

Lemma al_truncate_append (a : AbsLog) (es : list LogEntry) :
  al_wf a -> contiguous (al_end a) es = true ->
  al_truncate_suffix (al_end a) (al_append es a) = a.
Proof.
  intros Hwf Hc. destruct a as [s xs]. unfold al_truncate_suffix, al_append, al_end in *. cbn in *.
  f_equal. rewrite list_filter_app, list_filter_all, list_filter_none; [apply app_nil_r| |].
  - intros e He. pose proof (contiguous_bounds _ _ _ Hc He). lia.
  - intros e He. pose proof (contiguous_bounds _ _ _ Hwf He). cbn in *. lia.
Qed.

(** The node keeps everything but its log. *)
Lemma wp_append_abs (es : list LogEntry) (Q : RNode -> Result unit -> Prop) n :
  ls_inv (log_store n) -> contiguous (al_end (ls_abs (log_store n))) es = true ->
  al_end (al_append es (ls_abs (log_store n))) <= u64_max ->
  (forall l r, ls_inv l -> (r = Ok tt -> ls_abs l = al_append es (ls_abs (log_store n))) ->
     (forall e, r = Err e -> ls_abs l = ls_abs (log_store n)) -> Q (set_log l n) r) ->
  wp (append es) Q n.
Proof.
  intros Hi Hc Hle HQ. apply wp_zoom. intros l r Hr.
  destruct (ls_append_abs _ _ _ _ Hi Hc Hle Hr) as (? & ? & ?). auto.
Qed.

Lemma al_end_append (es : list LogEntry) (a : AbsLog) :
  al_end (al_append es a) = al_end a + N.of_nat (length es).
Proof. unfold al_end, al_append. cbn. rewrite length_app. lia. Qed.

(** What [take_leadership] does to the state. *)
Definition made_leader n n' : Prop :=
  role (state n') = Leader /\ leader_id (state n') = Some (node_id (state n)) /\
  current_term (state n') = current_term (state n) /\
  log_end_offset (state n') = al_end (ls_abs (log_store n')) /\
  high_watermark (state n') = (if (length (voter_set (state n)) =? 1)%nat
                               then al_end (ls_abs (log_store n'))
                               else high_watermark (state n)).

Lemma wp_take_leadership (Q : RNode -> Result unit -> Prop) n :
  ls_inv (log_store n) ->
  (forall n', made_leader n n' -> log_store n' = log_store n -> Q n' (Ok tt)) ->
  wp take_leadership Q n.
Proof.
  intros Hi HQ. unfold take_leadership, get, upd. wp_steps; apply HQ; try done;
    unfold made_leader; cbn in *; rewrite E; cbn; by rewrite ls_end_abs.
Qed.

(** [l] is the log before the leader-change message was appended. *)
Lemma wp_append_voters_record (Q : RNode -> Result unit -> Prop) (a : AbsLog) (lcm : LogEntry)
    (record : bytes) n :
  serialize_voters (mkVotersRecord 1 (voter_set (state n))) = Ok record ->
  ls_inv (log_store n) -> al_wf a -> offset lcm = al_end a ->
  ls_abs (log_store n) = al_append [lcm] a -> al_end a + 2 <= u64_max ->
  (forall l, ls_inv l ->
     ls_abs l = al_append [lcm; mkLogEntry (al_end a + 1) (current_term (state n))
                                  VotersRecordEntry record] a -> Q (set_log l n) (Ok tt)) ->
  (forall l e, ls_inv l -> ls_abs l = a -> Q (set_log l n) (Err e)) ->
  wp (append_voters_record serialize_voters) Q n.
Proof.
  intros Hser Hi Hwf Hlcm Ha Hb Hok Herr. unfold append_voters_record, get. wp_steps.
  apply wp_lift. rewrite Hser. wp_steps.
  assert (ls_log_end_offset (log_store n) = al_end a + 1) as Hend.
  { rewrite ls_end_abs, Ha, al_end_append by done. cbn [length]. lia. }
  apply wp_append_abs; [done|cbn [contiguous Types.offset]; rewrite <- ls_end_abs by done; lia
    |rewrite Ha, !al_end_append; cbn [length]; lia|].
  intros l [[]|e] Hl H1 H2; wp_steps; rewrite Hend in *.
  - apply Hok; [done|]. rewrite H1, Ha by done. unfold al_append. cbn. by rewrite <- app_assoc.
  - specialize (H2 e eq_refl). cbn [log_store set_log]. rewrite ls_end_abs, H2, Ha, al_end_append by done.
    apply wp_zoom. cbn [log_store set_log].
    destruct (ls_truncate_suffix_abs l (u64_saturating_sub (al_end a + N.of_nat (length [lcm])) 1))
      as (l' & -> & Hl' & Ha'); [done| |].
    { rewrite H2, Ha. unfold u64_saturating_sub, al_end. cbn. lia. }
    intros t r0 [= <- <-]. wp_steps. apply (Herr l'); [done|].
    rewrite Ha', H2, Ha. unfold u64_saturating_sub. cbn [length].
    replace (al_end a + N.of_nat 1 - 1) with (al_end a) by lia.
    apply al_truncate_append; [done|]. cbn. rewrite Hlcm. lia.
Qed.

(** C31: Becoming leader is all or nothing.  When the record of voters can
    be serialised, [become_leader] either appends the leader-change message
    of the term, followed by the voters record exactly when the log had
    none, and the node is leader with its log boundary (and, alone in its
    cluster, its high watermark) at the end of the log; or it fails, and
    the log holds what it held before and the protocol state is unchanged,
    also when the second append failed after the first had succeeded. *)
Theorem become_leader_all_or_nothing n n' (r : Result unit) (record : bytes) :
  let a := ls_abs (log_store n) in
  serialize_voters (mkVotersRecord 1 (voter_set (state n))) = Ok record ->
  ls_inv (log_store n) -> al_end a + 2 <= u64_max ->
  become_leader serialize_voters n = (n', r) ->
  ls_inv (log_store n') /\
  ((r = Ok tt /\ made_leader n n' /\
    ls_abs (log_store n') =
      al_append (leader_entries a (current_term (state n)) record) a) \/
   ((exists e, r = Err e) /\ state n' = state n /\ ls_abs (log_store n') = a)).
Proof.
  intros a Hser Hi Hb. pose proof (ls_abs_wf _ Hi) as Hwf. fold a in Hwf.
  set (Q := fun (n' : RNode) (r : Result unit) => ls_inv (log_store n') /\
    ((r = Ok tt /\ made_leader n n' /\
      ls_abs (log_store n') =
        al_append (leader_entries a (current_term (state n)) record) a) \/
     ((exists e, r = Err e) /\ state n' = state n /\ ls_abs (log_store n') = a))).
  apply (wp_run _ Q). unfold become_leader. wp_steps.
  apply wp_append_abs;
    [done|cbn [contiguous Types.offset]; rewrite ls_end_abs by done; lia
    |rewrite al_end_append; fold a; cbn [length]; lia|].
  intros l [[]|e] Hl H1 H2; fold a in H1, H2; [|by split; [|right; eauto]].
  specialize (H1 eq_refl). rewrite ls_end_abs in H1 by done. fold a in H1.
  wp_steps; rewrite log_has_voters_record_abs in E by done; fold a in E.
  - apply negb_true_iff in E. eapply wp_append_voters_record;
      [exact Hser|exact Hl|exact Hwf| |exact H1|exact Hb| |]; [done|..].
    + intros l' Hl' Ha'. apply wp_take_leadership; [done|]. intros n2 Hm Hlog.
      split; [by rewrite Hlog|left]. split_and!; [done|done|].
      unfold leader_entries. by rewrite E, Hlog.
    + intros l' e Hl' Ha'. split; [done|right; eauto].
  - apply negb_false_iff in E. apply wp_take_leadership; [done|]. intros n2 Hm Hlog.
    split; [by rewrite Hlog|left]. split_and!; [done|done|].
    unfold leader_entries. by rewrite E, Hlog.
Qed.
End Claims.

(** ** Concrete nodes over the mock collaborators *)

Module NodeDemo.

Import RaftNode Mocks.

(** Stand-ins for [bincode], on the records of the runs below. *)
Definition ser (r : VotersRecord) : Result bytes := Ok [].
Definition de (b : bytes) : Result VotersRecord := Err (SerializationError "truncated"%string).

Abbreviation DNode := (Node MockLogStore (MockQuorumStateStore QuorumState) MockSnapshotIO
                            MockTransportSender unit MockClock unit unit).

Definition voters3 : list VoterInfo :=
  [mkVoterInfo 1 "a"%string; mkVoterInfo 2 "b"%string; mkVoterInfo 3 "c"%string].

Definition fresh (i : N) : DNode :=
  mkNode _ _ _ _ _ _ _ _ (new_unattached i 0) (with_node_id i) log_new quorum_new snapshot_new
    sender_new tt (clock_new 0) tt tt false.

Definition booted (i : N) : DNode := (bootstrap 7 voters3 (fresh i)).1.

Definition request (c t : N) : VoteRequest := mkVoteRequest t c 0 0 false.

Lemma step_votes_advance_witness :
  vote_le (memory_vote (booted 1)) (memory_vote (RaftNode.step ser (booted 1)).1).
Proof.
  apply (step_votes_advance ser (booted 1) (RaftNode.step ser (booted 1)).1
           (RaftNode.step ser (booted 1)).2);
    [by vm_compute|right; by vm_compute; auto|apply surjective_pairing].
Defined.

Definition saved_state : QuorumState := mkQuorumState 6 (Some 3) None 0 7.

Definition restarted : Result DNode :=
  new de (with_node_id 1) log_new (with_state saved_state) snapshot_new sender_new tt (clock_new 0)
    tt tt 0.

Lemma restart_resumes_durable_vote_witness :
  exists n, restarted = Ok n /\ memory_vote n = (6, Some 3).
Proof.
  destruct restarted as [n|e] eqn:E; [|by vm_compute in E]. exists n. split; [done|].
  destruct (restart_resumes_durable_vote de (with_node_id 1) log_new (with_state saved_state)
              snapshot_new sender_new tt (clock_new 0) tt tt 0 n) as [Hm _];
    [exact E|].
  rewrite Hm. reflexivity.
Defined.

Lemma foreign_cluster_fenced_witness :
  handle_rpc ser (mkRpcEnvelope 8 0 2 (PVoteRequest (request 2 4))) (booted 1)
  = (booted 1, Err InvalidClusterId).
Proof. apply foreign_cluster_fenced; [by vm_compute|by vm_compute|by vm_compute]. Defined.

Lemma become_leader_all_or_nothing_witness :
  ls_inv (log_store (become_leader ser (booted 1)).1).
Proof.
  apply (become_leader_all_or_nothing ser (booted 1) (become_leader ser (booted 1)).1
           (become_leader ser (booted 1)).2 []);
    [reflexivity|split; by vm_compute|by vm_compute|apply surjective_pairing].
Defined.

(** ** Two deviations *)

(** A node that is not in its own voter set still counts its own vote: here
    node 9 recovers a one-voter configuration [{1}] from a snapshot, times out
    and becomes leader of its term alone. *)
Definition one_voter_snapshot : Snapshot :=
  mkSnapshot (mkSnapshotMetadata 4 1 [mkVoterInfo 1 "a"%string] 1) (mkAppSnapshot []).

Definition outsider : Result DNode :=
  new de (with_node_id 9) log_new (with_state (mkQuorumState 1 None None 0 7))
    (with_snapshot one_voter_snapshot) sender_new tt (clock_new 0) tt tt 0.

Lemma outsider_elects_itself :
  exists n, outsider = Ok n /\ (9 ∉ voter_ids (voter_set (state n))) /\
    role (state (handle_election_timeout ser n).1) = Leader /\
    node_id (state (handle_election_timeout ser n).1) = 9.
Proof.
  destruct outsider as [n|e] eqn:E; [|by vm_compute in E]. exists n.
  vm_compute in E. injection E as <-. split_and!; [done| |done|done].
  cbn. set_solver.
Qed.

(** A candidate whose log ends in term 1 is refused by a node whose log ends
    in term 5, and is granted the vote by the same node once its log has been
    compacted up to its end: the term of the last entry is then read as 0. *)
Definition voter_with_log (l : MockLogStore) : DNode := set_log l (booted 1).
Definition log5 : MockLogStore := (log_append [mkLogEntry 0 5 Command []] log_new).1.
Definition log5_compacted : MockLogStore := (log_truncate_prefix 1 log5).1.
Definition stale_request : VoteRequest := mkVoteRequest 6 2 0 1 false.
Definition current_request : VoteRequest := mkVoteRequest 6 2 0 5 false.

Lemma granted_vote_is_durable_witness :
  persisted_vote (handle_vote_request current_request (voter_with_log log5)).1 = (6, Some 2) /\
  (term (mkLogEntry 0 5 Command []) < last_log_term current_request \/
   (last_log_term current_request = 5 /\ 0 <= last_log_offset current_request)).
Proof.
  destruct (granted_vote_is_durable current_request (voter_with_log log5)
    (handle_vote_request current_request (voter_with_log log5)).1 (mkVoteResponse 6 true false))
    as (_ & _ & Hlog & _ & Hp & _); [by vm_compute..|].
  split; [exact Hp|]. apply (Hlog (mkLogEntry 0 5 Command [])); [|reflexivity].
  split; [reflexivity|by vm_compute].
Defined.

Lemma compacted_log_grants_stale_candidate :
  log_end_offset log5_compacted = log_end_offset log5 /\
  (handle_vote_request stale_request (voter_with_log log5)).2
    = Ok (mkVoteResponse 6 false false) /\
  (handle_vote_request stale_request (voter_with_log log5_compacted)).2
    = Ok (mkVoteResponse 6 true false).
Proof. by vm_compute. Qed.

End NodeDemo.
