(* ===== verification/ElectionSafety.v ===== *)
(** * At most one leader per term

    A cluster of [RaftNode]s and the network between them.  A step runs one
    operation of one node: a timer tick or poll, the delivery of any message
    ever sent to it (messages may be lost, duplicated and reordered), a
    bootstrap, or a crash and restart over the stores the node left behind.
    An operation may stop half way with an error of its store; the durable
    voting state is then the old or the new record, so a crash in the middle
    of an operation is a failed save followed by a restart.

    The membership is fixed: every voter list a node uses is empty or lists
    [V] once each, and the nodes of the cluster are members of [V]. *)

From Stdlib Require Import ZifyBool ZifyN ZifyNat Lia.
From Stdlib Require Import Strings.Byte.
From stdpp Require Import base list gmap numbers option strings relations.
From S2P Require Import Prelude Types NodeState Interfaces Mocks RaftNode RaftNodeProps RaftNodeClaims.

Section Cluster.
Context {LS QSS SN TS TR CK SM LI : Type}.
Context `{!LogStore LS} `{!QuorumStateStore RaftNode.QuorumState QSS} `{!SnapshotIO SN}.
Context `{!TransportSender TS} `{!TransportReceiver TR} `{!Clock CK}.
Context `{!StateMachine SM} `{!Listener LI}.
Context `{!QuorumStateStoreLaws RaftNode.QuorumState QSS} `{!TransportSenderLaws TS}.
Context (serialize_voters : VotersRecord -> Result bytes).
Context (deserialize_voters : bytes -> Result VotersRecord).
(** The members of the cluster. *)
Context (V : gset N).

Import RaftNode.

Abbreviation RNode := (Node LS QSS SN TS TR CK SM LI).
Implicit Types n : RNode.

(** ** The cluster *)

Record Cluster := mkCluster {
  nodes : gmap N RNode;
  net : list (NodeId * RpcEnvelope);
}.

Definition voters_ok (vs : list VoterInfo) : Prop :=
  vs = [] \/ (NoDup (voter_ids vs) /\ list_to_set (voter_ids vs) = V).

(** Node [i] after an operation, with what it sent on the network. *)
Definition set_node (i : N) n (c : Cluster) : Cluster :=
  mkCluster (<[i := n]> (nodes c)) (net c ++ sent n).

(** [n] is what [RaftNode::new] makes of the stores [ls], [qss], [sn]. *)
Definition boots (i : N) (ls : LS) (qss : QSS) (sn : SN) n : Prop :=
  i ∈ V /\ voters_ok (voter_set (state n)) /\
  exists cfg ts tr ck sm li now,
    cfg_node_id cfg = i /\ ts_sent ts = [] /\
    new deserialize_voters cfg ls qss sn ts tr ck sm li now = Ok n.

Inductive cstep (c : Cluster) : Cluster -> Prop :=
| cs_tick i n n' r :
    nodes c !! i = Some n -> current_term (state n) < u64_max ->
    tick serialize_voters n = (n', r) -> cstep c (set_node i n' c)
| cs_poll i n n' r :
    nodes c !! i = Some n -> current_term (state n) < u64_max ->
    poll serialize_voters n = (n', r) -> cstep c (set_node i n' c)
| cs_deliver i env n n' r :
    nodes c !! i = Some n -> (i, env) ∈ net c ->
    handle_rpc serialize_voters env n = (n', r) -> cstep c (set_node i n' c)
| cs_bootstrap i cid vs n n' r :
    nodes c !! i = Some n -> list_to_set (voter_ids vs) = V ->
    bootstrap cid vs n = (n', r) -> cstep c (set_node i n' c)
| cs_restart i n n' :
    nodes c !! i = Some n ->
    boots i (log_store n) (quorum_state_store n) (snapshot_io n) n' ->
    cstep c (set_node i n' c).

(** Initially no node has voting state and nothing has been sent. *)
Definition initial (c : Cluster) : Prop :=
  net c = [] /\
  forall i n, nodes c !! i = Some n ->
    exists ls qss sn, qss_persisted qss = None /\ boots i ls qss sn n.

Definition reachable (c : Cluster) : Prop := exists c0, initial c0 /\ rtc cstep c0 c.

(** ** The invariant

    [G v t c] is ghost: voter [v] durably voted for [c] in term [t]. *)

Implicit Types G : N -> N -> N -> Prop.

(** The votes known once node [i] is in state [n]. *)
Definition add_vote G (i : N) n : N -> N -> N -> Prop := fun v t c =>
  G v t c \/ (v = i /\ persisted_vote n = (t, Some c)).

Definition msg_ok G (m : NodeId * RpcEnvelope) : Prop :=
  match env_payload m.2 with
  | PVoteRequest r =>
      env_source m.2 = candidate_id r /\ vreq_is_pre_vote r = false /\
      G (candidate_id r) (vreq_term r) (candidate_id r)
  | PVoteResponse r =>
      vote_granted r = true -> vresp_is_pre_vote r = false ->
      G (env_source m.2) (vresp_term r) m.1
  | _ => True
  end.

Definition running n : Prop := role (state n) = Candidate \/ role (state n) = Leader.

Record node_ok G (i : N) n : Prop := {
  no_id : node_id (state n) = i;
  no_member : i ∈ V;
  no_voters : voters_ok (voter_set (state n));
  no_safe : vote_safe n;
  no_ghost : forall t c, G i t c -> vote_le (t, Some c) (persisted_vote n);
  no_known : forall t c, persisted_vote n = (t, Some c) -> G i t c;
  no_received : running n -> forall v, v ∈ votes_received (state n) ->
    v ∈ V /\ (v = i \/ G v (current_term (state n)) i);
  no_leader : role (state n) = Leader ->
    G i (current_term (state n)) i /\
    (majority_of (size V) <= size (votes_received (state n)))%nat;
  no_sent : forall m, m ∈ sent n -> msg_ok G m;
}.

Record ghost_ok G : Prop := {
  go_fun : forall v t c c', G v t c -> G v t c' -> c = c';
  go_self : forall v t c, G v t c -> G c t c;
}.

Lemma msg_ok_mono G (i : N) n m : msg_ok G m -> msg_ok (add_vote G i n) m.
Proof. unfold msg_ok, add_vote. destruct (env_payload m.2); naive_solver. Qed.

Lemma quorum_size (s : NodeState) :
  voters_ok (voter_set s) -> has_quorum s = true ->
  (majority_of (size V) <= size (votes_received s))%nat.
Proof.
  unfold has_quorum. intros [->|[Hnd <-]]; [done|].
  rewrite size_list_to_set by done. unfold voter_ids. rewrite length_map.
  destruct (length (voter_set s) =? 0)%nat; [done|]. lia.
Qed.

Lemma voter_in_V (s : NodeState) (v : N) :
  voters_ok (voter_set s) -> v ∈ voter_ids (voter_set s) -> v ∈ V.
Proof. intros [->|[_ <-]]; [set_solver|]. by rewrite elem_of_list_to_set. Qed.

(** ** One operation of one node *)

(** What has to be shown of the state [n'] an operation leaves. *)
Record op_post G (i : N) n n' : Prop := {
  op_id : node_id (state n') = i;
  op_voters : voters_ok (voter_set (state n'));
  op_safe : vote_safe n';
  op_persisted : vote_le (persisted_vote n) (persisted_vote n');
  op_origin : forall t c, persisted_vote n' = (t, Some c) -> G i t c \/ c = i \/ G c t c;
  op_received : running n' -> forall v, v ∈ votes_received (state n') ->
    v ∈ V /\ (v = i \/ G v (current_term (state n')) i);
  op_leader : role (state n') = Leader ->
    add_vote G i n' i (current_term (state n')) i /\
    (majority_of (size V) <= size (votes_received (state n')))%nat;
  op_sent : forall m, m ∈ sent n' -> msg_ok (add_vote G i n') m;
}.

Lemma op_post_ok G i n n' :
  ghost_ok G -> node_ok G i n -> op_post G i n n' ->
  node_ok (add_vote G i n') i n' /\ ghost_ok (add_vote G i n').
Proof.
  intros [Hfun Hself] [N1 N2 N3 N4 N5 N6 N7 N8 N9] [P1 P2 P3 P4 P5 P6 P7 P8].
  assert (forall t c, G i t c -> vote_le (t, Some c) (persisted_vote n')) as Hold.
  { intros t c Hg. etrans; [by apply N5|done]. }
  assert (forall t c c', G i t c -> persisted_vote n' = (t, Some c') -> c = c') as Hnew.
  { intros t c c' Hg Hp. apply Hold in Hg. rewrite Hp in Hg.
    apply vote_le_some in Hg as [?|[_ [= ->]]]; [lia|done]. }
  split; split; try done.
  - intros t c [Hg|[_ ->]]; [auto|done].
  - intros t c Hp. right. done.
  - intros Hr v Hv. destruct (P6 Hr v Hv) as [? [?|?]]; unfold add_vote; auto.
  - intros v t c c' [H1|[-> H1]] [H2|[He H2]]; subst; eauto; [|congruence].
    symmetry. eauto.
  - intros v t c [H1|[-> H1]]; [left; eauto|].
    destruct (P5 _ _ H1) as [?|[->|?]]; [left; eauto|by right|by left].
Qed.

(** An operation that leaves the candidacy and the network alone. *)
Lemma op_post_quiet G i n n' :
  node_ok G i n ->
  node_id (state n') = node_id (state n) -> voter_set (state n') = voter_set (state n) ->
  votes_advance n n' -> candidacy_kept n n' ->
  (forall m, m ∈ sent n' -> msg_ok (add_vote G i n') m) ->
  (forall t c, persisted_vote n' = (t, Some c) -> G i t c \/ c = i \/ G c t c) ->
  op_post G i n n'.
Proof.
  intros [N1 N2 N3 N4 N5 N6 N7 N8 N9] Hid Hvs Hadv Hk Hsent Horig.
  destruct (Hadv N4) as (Hsafe & Hpers & Hmem).
  split; try done; [congruence|congruence| |].
  - unfold running in *. destruct Hk as [(-> & -> & ->)|[-> _]]; [done|naive_solver].
  - destruct Hk as [(-> & -> & ->)|[-> _]]; [|done]. intros Hl. destruct (N8 Hl).
    split; [by left|done].
Qed.

Lemma op_post_refl G i n : node_ok G i n -> op_post G i n n.
Proof.
  intros Hok. apply op_post_quiet; auto using votes_advance_refl; [by left| |].
  - intros m Hm. apply msg_ok_mono. by apply Hok.
  - intros t c Hp. left. by apply Hok.
Qed.

Lemma op_post_started G i n n' (r : Result unit) :
  node_ok G i n -> current_term (state n) < u64_max -> started_election n n' r ->
  op_post G i n n'.
Proof.
  intros Hok Hb Hse. pose proof (started_election_advance _ _ _ Hb Hse) as Hadv.
  destruct Hok as [N1 N2 N3 N4 N5 N6 N7 N8 N9]. destruct (Hadv N4) as (Hsafe & Hpers & Hmem).
  destruct Hse as [H1 H2 H3 H4 H5 H6 H7]. rewrite N1 in *.
  assert (persisted_vote n' = memory_vote n' ->
          add_vote G i n' i (current_term (state n')) i) as Hself.
  { intros Hp. right. rewrite Hp. unfold memory_vote in *. split; [done|].
    by injection H3 as -> ->. }
  split; try done; [congruence| | | |].
  - intros t c Hp. destruct H5 as [He|[He _]].
    + right; left. rewrite He, H3 in Hp. congruence.
    + left. rewrite He in Hp. auto.
  - intros _ v. rewrite H4, elem_of_singleton. intros ->. auto.
  - intros Hl. destruct H5 as [He|(_ & _ & _ & Hr)]; [|congruence].
    split; [auto|]. apply quorum_size; [congruence|]. destruct H7 as [?|[_ ?]]; [congruence|done].
  - intros m Hm. destruct H5 as [He|(_ & _ & Hts & _)].
    + destruct (H6 m Hm) as [?|(v & env & -> & Hs & req & Hreq & Hc & Ht & Hp)];
        [apply msg_ok_mono; auto|].
      unfold msg_ok. cbn. rewrite Hreq, Hc, Ht, H1, Hs. auto.
    + apply msg_ok_mono, N9. unfold sent in *. by rewrite Hts in Hm.
Qed.

Lemma op_post_counted G i (env : RpcEnvelope) (resp : VoteResponse) n n' :
  ghost_ok G -> node_ok G i n -> msg_ok G (i, env) -> env_payload env = PVoteResponse resp ->
  vote_counted (env_source env) resp n n' -> op_post G i n n'.
Proof.
  intros Hg Hok Hm Hpl Hvc. pose proof (vote_counted_advance _ _ _ _ Hvc) as Hadv.
  destruct Hok as [N1 N2 N3 N4 N5 N6 N7 N8 N9]. destruct (Hadv N4) as (Hsafe & Hpers & Hmem).
  destruct Hvc as [(V1 & V2 & V3 & V4 & V5) V6 (V7 & V8 & V9 & V10) V11 V12].
  unfold msg_ok in Hm. cbn in Hm. rewrite Hpl in Hm. specialize (Hm V8 V9).
  assert (current_term (state n') = current_term (state n)) as Hct.
  { unfold memory_vote in V3. congruence. }
  assert (persisted_vote n' = persisted_vote n) as Hpv.
  { unfold persisted_vote, persisted. by rewrite V4. }
  split; try done; [congruence|congruence| | | |].
  - intros t c. rewrite Hpv. auto.
  - intros _ v. rewrite V11, Hct. intros [->%elem_of_singleton|Hv]%elem_of_union.
    + split; [by eapply voter_in_V|]. right. by rewrite <- V7.
    + apply N7; [by left|done].
  - intros Hl. split.
    + left. rewrite Hct, <- V7. by eapply go_self.
    + apply quorum_size; [congruence|]. destruct V12 as [?|[_ ?]]; [congruence|done].
  - unfold sent. rewrite V5. intros m Hin. by apply msg_ok_mono, N9.
Qed.

Lemma node_ok_clock G i (c : CK) n : node_ok G i n -> node_ok G i (set_clock c n).
Proof. intros [N1 N2 N3 N4 N5 N6 N7 N8 N9]. split; done. Qed.

Lemma op_post_clock G i (c : CK) n n' : op_post G i (set_clock c n) n' -> op_post G i n n'.
Proof. intros [P1 P2 P3 P4 P5 P6 P7 P8]. split; done. Qed.

Lemma timeout_op G i n :
  node_ok G i n -> current_term (state n) < u64_max ->
  wp (handle_election_timeout serialize_voters) (fun n' _ => op_post G i n n') n.
Proof.
  intros Hok Hb. eapply wp_mono; [apply wp_handle_election_timeout|].
  intros n' r [(_ & -> & _)|[_ Hse]]; [by apply op_post_refl|by eapply op_post_started].
Qed.

Lemma tick_op G i n :
  node_ok G i n -> current_term (state n) < u64_max ->
  wp (tick serialize_voters) (fun n' _ => op_post G i n n') n.
Proof.
  intros Hok Hb. unfold tick, get. apply wp_bind. unfold wp at 1.
  destruct (clk_now (clock n)) as [c now]. cbn [fst snd]. wp_steps.
  - eapply wp_mono; [by apply timeout_op; [apply node_ok_clock|]|].
    intros n' r. apply op_post_clock.
  - by eapply op_post_clock, op_post_refl, node_ok_clock.
Qed.

Lemma poll_op G i n :
  node_ok G i n -> current_term (state n) < u64_max ->
  wp (poll serialize_voters) (fun n' _ => op_post G i n n') n.
Proof.
  intros Hok Hb. unfold poll, get. wp_steps; [by apply op_post_refl|].
  eapply wp_mono; [by apply timeout_op; [apply node_ok_clock|]|].
  intros n' r. apply op_post_clock.
Qed.

Lemma vote_response_op G i (env : RpcEnvelope) (resp : VoteResponse) n :
  ghost_ok G -> node_ok G i n -> msg_ok G (i, env) -> env_payload env = PVoteResponse resp ->
  wp (handle_vote_response serialize_voters (env_source env) resp)
     (fun n' _ => op_post G i n n') n.
Proof.
  intros Hg Hok Hm Hpl. eapply wp_mono; [apply wp_handle_vote_response|].
  intros n' r [(Hlt & Hsd & Hp)|[->|Hvc]].
  - pose proof Hsd as (H1 & _ & H3 & H4 & H5 & H6 & _ & H8 & _).
    apply op_post_quiet; auto; [eapply stepped_down_advance; [done..|]; naive_solver|by right| |].
    + unfold sent. rewrite H8. intros m Hin. by apply msg_ok_mono, Hok.
    + intros t c Hp'. left. destruct Hp as [Hp|[Hp _]]; rewrite Hp in Hp'; [done|].
      by apply Hok.
  - by apply op_post_refl.
  - by eapply op_post_counted.
Qed.

(** Replying to a vote request: the vote is durable before the reply. *)
Lemma vote_request_op G i (env : RpcEnvelope) (req : VoteRequest) n n1 n' (r : Result VoteResponse) :
  node_ok G i n -> msg_ok G (i, env) -> env_payload env = PVoteRequest req ->
  vote_request_post req n n1 r ->
  node_id (state n') = node_id (state n1) -> voter_set (state n') = voter_set (state n1) ->
  memory_vote n' = memory_vote n1 -> persisted_vote n' = persisted_vote n1 ->
  candidacy_kept n1 n' ->
  (forall m, m ∈ sent n' -> m ∈ sent n1 \/ exists resp e, r = Ok resp /\
     m = (env_source env, e) /\ env_source e = node_id (state n1) /\
     env_payload e = PVoteResponse resp) ->
  op_post G i n n'.
Proof.
  intros Hok Hm Hpl [R1 R2 R3 R4 R5 R6 R7] H1 H2 H3 H4 H5 Hs.
  unfold msg_ok in Hm. cbn in Hm. rewrite Hpl in Hm. destruct Hm as (Hsrc & Hpre & Hg).
  apply op_post_quiet; try done; [congruence|congruence| |by eapply candidacy_kept_trans| |].
  - intros Hsafe. unfold vote_safe in *. rewrite H3, H4. by apply R4.
  - intros m Hin. destruct (Hs m Hin) as [Hin1|(resp & e & -> & -> & He & Hp)].
    + apply msg_ok_mono, Hok. unfold sent in *. by rewrite R3 in Hin1.
    + destruct (R7 _ eq_refl) as (Ht & _ & Hgr). unfold msg_ok. cbn. rewrite Hp, He, R1.
      intros Hgrant _. destruct (Hgr Hgrant) as (Ht' & _ & _ & Hdur).
      destruct (Hdur Hpre) as [Hd _]. right. rewrite H4, Hd, Ht', Hsrc.
      split; [by apply Hok|done].
  - intros t c Hp. rewrite H4 in Hp. destruct R6 as [Hq|[Hq|[Hq _]]]; rewrite Hq in Hp || rewrite Hp in Hq.
    + left. by apply Hok.
    + done.
    + right; right. by injection Hp as <- <-.
Qed.

Lemma deliver_op G i (env : RpcEnvelope) n :
  ghost_ok G -> node_ok G i n -> msg_ok G (i, env) ->
  wp (handle_rpc serialize_voters env) (fun n' _ => op_post G i n n') n.
Proof.
  intros Hg Hok Hm. unfold handle_rpc, get. wp_steps; [by apply op_post_refl|].
  destruct (env_payload env) as [req|resp|a|a|a|a|a|a|a|a b] eqn:Hpl;
    try (wp_steps; by apply op_post_refl); [|by eapply vote_response_op].
  apply wp_bind. eapply wp_mono; [apply wp_handle_vote_request|]. intros n1 r Hpost.
  destruct r as [resp|e].
  - wp_steps. apply wp_send. intros t r Ht.
    assert (op_post G i n (set_sender t n1)).
    { eapply vote_request_op; try done; [by left|]. intros m Hin.
      destruct (Ht m Hin) as [?| ->]; [by left|right]. eauto 10. }
    destruct r; wp_steps; done.
  - eapply vote_request_op; try done; [by left|]. intros m Hin. by left.
Qed.

Lemma bootstrap_op G i (cid : ClusterId) (vs : list VoterInfo) n :
  node_ok G i n -> list_to_set (voter_ids vs) = V ->
  wp (bootstrap cid vs) (fun n' _ => op_post G i n n') n.
Proof.
  intros Hok HV. eapply wp_mono; [apply wp_bootstrap|]. intros n' r [(_ & Hcan & Hba)|(_ & _ & ->)].
  2: by apply op_post_refl.
  destruct Hcan as (_ & _ & Hd & Hval). apply has_existing_data_false in Hd as (_ & _ & Hd & _).
  destruct Hba as [(B1 & B2 & B3 & _) [_ B4] (B5 & B6 & _ & B7 & _)].
  assert (persisted_vote n = (0, None)) as Hp by (unfold persisted_vote, persisted; by rewrite Hd).
  assert (persisted_vote n' = (0, None)) as Hp'
    by (unfold persisted_vote, persisted; by rewrite B2, Hd).
  split; unfold vote_safe, running; rewrite ?Hp, ?Hp', ?B5, ?B6; try done.
  - rewrite B1. apply Hok.
  - right. rewrite B4. split; [apply Hval|done].
  - naive_solver.
  - unfold sent. rewrite B3. intros m Hin. by apply msg_ok_mono, Hok.
Qed.

Lemma boots_op G i (ls : LS) (sn : SN) n n' :
  node_ok G i n -> boots i ls (quorum_state_store n) sn n' -> op_post G i n n'.
Proof.
  intros Hok (Hi & Hv & cfg & ts & tr & ck & sm & li & now & Hcfg & Hts & Hnew).
  apply new_restores in Hnew as (H1 & H2 & H3 & H4 & H5 & H6).
  assert (persisted_vote n' = persisted_vote n) as Hp
    by (unfold persisted_vote, persisted; by rewrite H2).
  change (memory_vote n' = persisted_vote n) in H5.
  split; unfold vote_safe, running; rewrite ?Hp, ?H5; try done; try congruence.
  - intros t c Hpv. left. by apply Hok.
  - naive_solver congruence.
  - naive_solver congruence.
  - unfold sent. rewrite H3, Hts. set_solver.
Qed.

(** ** The cluster *)

Record cluster_inv G (c : Cluster) : Prop := {
  ci_ghost : ghost_ok G;
  ci_nodes : forall i n, nodes c !! i = Some n -> node_ok G i n;
  ci_net : forall m, m ∈ net c -> msg_ok G m;
}.

Lemma node_ok_other G i j n n' : i <> j -> node_ok G j n -> node_ok (add_vote G i n') j n.
Proof.
  intros Hij [N1 N2 N3 N4 N5 N6 N7 N8 N9]. split; try done; unfold add_vote.
  - intros t c [?|[? _]]; [auto|congruence].
  - auto.
  - intros Hr v Hv. destruct (N7 Hr v Hv) as [? [?|?]]; auto.
  - intros Hl. destruct (N8 Hl). auto.
  - intros m Hm. by apply msg_ok_mono, N9.
Qed.

Lemma cluster_inv_op G i n n' (c : Cluster) :
  cluster_inv G c -> nodes c !! i = Some n -> op_post G i n n' ->
  cluster_inv (add_vote G i n') (set_node i n' c).
Proof.
  intros [Hg Hn Hm] Hi Hop. destruct (op_post_ok G i n n') as [Hok Hg']; auto.
  split; [done| |]; cbn.
  - intros j m Hj. destruct (decide (i = j)) as [<-|Hne].
    + rewrite lookup_insert_eq in Hj. by simplify_eq.
    + rewrite lookup_insert_ne in Hj by done. apply node_ok_other; auto.
  - intros m [Hin|Hin]%elem_of_app; [by apply msg_ok_mono, Hm|by apply Hok].
Qed.

(** Every step is one operation of one node. *)
Lemma cstep_op G (c c' : Cluster) :
  cluster_inv G c -> cstep c c' ->
  exists i n n', nodes c !! i = Some n /\ op_post G i n n' /\ c' = set_node i n' c.
Proof.
  intros [Hg Hn Hm] Hstep.
  destruct Hstep as [i n n' r Hi Hb Hop|i n n' r Hi Hb Hop|i env n n' r Hi Hin Hop
                    |i cid vs n n' r Hi HV Hop|i n n' Hi Hboot];
    specialize (Hn i n Hi); exists i, n, n'; split_and!; try done.
  - exact (wp_run _ _ _ _ _ (tick_op _ _ _ Hn Hb) Hop).
  - exact (wp_run _ _ _ _ _ (poll_op _ _ _ Hn Hb) Hop).
  - exact (wp_run _ _ _ _ _ (deliver_op _ _ _ _ Hg Hn (Hm _ Hin)) Hop).
  - exact (wp_run _ _ _ _ _ (bootstrap_op _ _ _ _ _ Hn HV) Hop).
  - by eapply boots_op.
Qed.

Lemma cluster_inv_step G (c c' : Cluster) :
  cluster_inv G c -> cstep c c' -> exists G', cluster_inv G' c'.
Proof.
  intros Hinv Hstep. destruct (cstep_op _ _ _ Hinv Hstep) as (i & n & n' & ? & ? & ->).
  eexists. by eapply cluster_inv_op.
Qed.

Lemma cstep_persisted G (c c' : Cluster) (i : N) n :
  cluster_inv G c -> cstep c c' -> nodes c !! i = Some n ->
  exists n', nodes c' !! i = Some n' /\ vote_le (persisted_vote n) (persisted_vote n').
Proof.
  intros Hinv Hstep Hi. destruct (cstep_op _ _ _ Hinv Hstep) as (j & m & m' & Hj & Hop & ->). cbn.
  destruct (decide (j = i)) as [->|Hne].
  - exists m'. rewrite lookup_insert_eq. simplify_eq. split; [done|apply Hop].
  - exists n. by rewrite lookup_insert_ne.
Qed.

Lemma cluster_inv_initial (c : Cluster) :
  initial c -> cluster_inv (fun _ _ _ => False) c.
Proof.
  intros [Hnet Hn]. split; [split; done| |by rewrite Hnet; set_solver].
  intros i n Hi. destruct (Hn i n Hi) as (ls & qss & sn & Hq & HiV & Hv & cfg & ts & tr & ck & sm
    & li & now & Hcfg & Hts & (H1 & H2 & H3 & H4 & H5 & H6)%new_restores).
  assert (persisted_vote n = (0, None)) as Hp.
  { unfold persisted_vote, persisted. by rewrite H2, Hq. }
  rewrite Hq in H5. split; unfold vote_safe, running, sent; rewrite ?Hp, ?H5, ?H3, ?Hts;
    try done; try congruence.
  - naive_solver congruence.
  - naive_solver congruence.
  - set_solver.
Qed.

Lemma reachable_inv (c : Cluster) : reachable c -> exists G, cluster_inv G c.
Proof.
  intros (c0 & H0 & Hr). apply cluster_inv_initial in H0. remember (fun _ _ _ => False) as G.
  clear HeqG. revert G H0. induction Hr as [c|c c' c'' Hs _ IH]; intros G HG; [by exists G|].
  destruct (cluster_inv_step _ _ _ HG Hs) as [G' HG']. by eapply IH.
Qed.

(** Leaders of the same term share a voter, which voted once. *)
Lemma one_leader (c : Cluster) (i j : N) n m :
  reachable c ->
  nodes c !! i = Some n -> nodes c !! j = Some m ->
  role (state n) = Leader -> role (state m) = Leader ->
  current_term (state n) = current_term (state m) -> i = j.
Proof.
  intros [G [Hg Hn _]]%reachable_inv Hi Hj Hli Hlj Ht.
  destruct (Hn _ _ Hi) as [_ _ _ _ _ _ Ri Li _]. destruct (Hn _ _ Hj) as [_ _ _ _ _ _ Rj Lj _].
  destruct (Li Hli) as [Gi Mi], (Lj Hlj) as [Gj Mj].
  assert (forall v, v ∈ votes_received (state n) -> v ∈ V /\ G v (current_term (state n)) i) as Ai.
  { intros v Hv. destruct (Ri (or_intror Hli) v Hv) as [? [->|?]]; auto. }
  assert (forall v, v ∈ votes_received (state m) -> v ∈ V /\ G v (current_term (state n)) j) as Aj.
  { intros v Hv. rewrite Ht in *. destruct (Rj (or_intror Hlj) v Hv) as [? [->|?]]; auto. }
  destruct (majority_intersect V (votes_received (state n)) (votes_received (state m)))
    as (x & Hx & Hy); [intros v Hv; by apply Ai|intros v Hv; by apply Aj|done|done|].
  eapply go_fun; [done|by apply Ai|by apply Aj].
Qed.

(** C1: Election safety.  In every state a cluster can reach by timeouts,
    deliveries of sent messages in any order and any number of times,
    bootstraps, failing stores and crashes with restart from durable state,
    two leaders of the same term are the same node. *)
Theorem election_safety (c : Cluster) (i j : N) n m :
  reachable c ->
  nodes c !! i = Some n -> nodes c !! j = Some m ->
  role (state n) = Leader -> role (state m) = Leader ->
  current_term (state n) = current_term (state m) -> i = j.
Proof. apply one_leader. Qed.

(** C2: A vote survives crashes.  In every reachable state, what a node
    would vote in memory is never behind its durable vote, and no sequence
    of further steps, restarts included, moves the durable vote back to a
    lower term or to another candidate of the same term. *)
Theorem durable_vote_never_retracted (c c' : Cluster) (i : N) n n' :
  reachable c -> rtc cstep c c' ->
  nodes c !! i = Some n -> nodes c' !! i = Some n' ->
  vote_le (persisted_vote n) (persisted_vote n') /\ vote_le (persisted_vote n') (memory_vote n').
Proof.
  intros [G HG]%reachable_inv Hr. revert G HG n.
  induction Hr as [c|c c1 c2 Hs _ IH]; intros G HG n Hi Hi'.
  - simplify_eq. split; [done|]. by eapply ci_nodes.
  - destruct (cstep_persisted _ _ _ _ _ HG Hs Hi) as (n1 & H1 & Hle).
    destruct (cluster_inv_step _ _ _ HG Hs) as [G' HG'].
    destruct (IH _ HG' _ H1 Hi') as [? ?]. split; [by etrans|done].
Qed.

End Cluster.

(** ** A three-node run

    Nodes 1, 2 and 3 over the mock stores: all bootstrap, node 1 times out,
    node 2 votes for it and node 1 becomes leader. *)

Module Demo.

Import RaftNode Mocks NodeDemo.

Abbreviation DCluster := (@Cluster MockLogStore (MockQuorumStateStore QuorumState) MockSnapshotIO
                            MockTransportSender unit MockClock unit unit).

Definition V3 : gset N := {[1; 2; 3]}.
Definition start3 : DCluster :=
  mkCluster (<[1 := fresh 1]> (<[2 := fresh 2]> (<[3 := fresh 3]> ∅))) [].

Lemma start3_initial : initial de V3 start3.
Proof.
  split; [done|]. intros i n Hi.
  assert (i ∈ V3 /\ n = fresh i) as [HV ->].
  { cbn in Hi. repeat (apply lookup_insert_Some in Hi as [[<- <-]|[_ Hi]]; [by split; vm_compute|]).
    done. }
  exists log_new, quorum_new, snapshot_new. split; [done|]. split_and!; [done|by left|].
  exists (with_node_id i), sender_new, tt, (clock_new 0), tt, tt, 0. done.
Qed.

(** One operation of node [i], when it exists. *)
Definition on (i : N) (op : SE DNode XraftError unit) (c : DCluster) : DCluster :=
  match nodes c !! i with Some n => set_node i (op n).1 c | None => c end.

Definition msg_to (i : N) (c : DCluster) : RpcEnvelope :=
  match list_find_first (fun m => m.1 =? i) (net c) with
  | Some m => m.2
  | None => mkRpcEnvelope 0 0 0 (PRemoveVoterRequest 0)
  end.

Definition boot3 : DCluster :=
  on 3 (bootstrap 7 voters3) (on 2 (bootstrap 7 voters3) (on 1 (bootstrap 7 voters3) start3)).
Definition timed_out : DCluster := on 1 (poll ser) boot3.
Definition voted : DCluster := on 2 (handle_rpc ser (msg_to 2 timed_out)) timed_out.
Definition elected : DCluster := on 1 (handle_rpc ser (msg_to 1 voted)) voted.

Lemma on_bootstrap (i : N) (c : DCluster) :
  rtc (cstep ser de V3) start3 c -> rtc (cstep ser de V3) start3 (on i (bootstrap 7 voters3) c).
Proof.
  intros Hr. unfold on. destruct (nodes c !! i) as [n|] eqn:Hi; [|done].
  eapply rtc_r; [done|]. eapply cs_bootstrap; [done| |apply surjective_pairing]. by vm_compute.
Qed.

Lemma msg_to_net (i : N) (c : DCluster) :
  existsb (fun m => m.1 =? i) (net c) = true -> (i, msg_to i c) ∈ net c.
Proof.
  intros (m & Hm & Hi)%existsb_true. unfold msg_to. destruct (list_find_first _ _) as [m'|] eqn:E.
  - apply list_find_first_Some in E as [Hin He]. destruct m' as [j env]. cbn in *.
    by replace i with j by lia.
  - rewrite list_find_first_None in E. specialize (E m Hm). cbn in E. congruence.
Qed.

Lemma on_deliver (i : N) (c : DCluster) :
  existsb (fun m => m.1 =? i) (net c) = true ->
  rtc (cstep ser de V3) start3 c ->
  rtc (cstep ser de V3) start3 (on i (handle_rpc ser (msg_to i c)) c).
Proof.
  intros Hm%msg_to_net Hr. unfold on. destruct (nodes c !! i) as [n|] eqn:Hi; [|done].
  eapply rtc_r; [done|]. eapply cs_deliver; [done|done|apply surjective_pairing].
Qed.

Lemma elected_reachable : reachable ser de V3 elected.
Proof.
  exists start3. split; [apply start3_initial|]. unfold elected. apply on_deliver; [by vm_compute|].
  unfold voted. apply on_deliver; [by vm_compute|]. unfold timed_out.
  set (b := boot3). assert (rtc (cstep ser de V3) start3 b).
  { unfold b, boot3. do 3 apply on_bootstrap. done. }
  unfold on. destruct (nodes b !! 1) as [n|] eqn:Hn; [|done].
  eapply rtc_r; [done|]. eapply cs_poll; [done| |apply surjective_pairing].
  assert (option_map (fun m => current_term (state m)) (nodes b !! 1) = Some 0) as Ht by by vm_compute.
  rewrite Hn in Ht. injection Ht as ->. by vm_compute.
Qed.

(** The node that [elected] has at [i]. *)
Definition node_at (i : N) (c : DCluster) : DNode := default (fresh 0) (nodes c !! i).

Lemma election_safety_witness :
  role (state (node_at 1 elected)) = Leader /\ current_term (state (node_at 1 elected)) = 1 /\
  (forall (j : N) (n : DNode), nodes elected !! j = Some n -> role (state n) = Leader ->
     current_term (state n) = 1 -> 1 = j).
Proof.
  split_and!; [by vm_compute|by vm_compute|]. intros j n Hj Hl Ht.
  apply (election_safety ser de V3 elected 1 j (node_at 1 elected) n elected_reachable);
    [by vm_compute|exact Hj|by vm_compute|exact Hl|rewrite Ht; by vm_compute].
Defined.

Lemma durable_vote_never_retracted_witness :
  persisted_vote (node_at 2 elected) = (1, Some 1) /\
  vote_le (persisted_vote (node_at 2 elected)) (persisted_vote (node_at 2 elected)).
Proof.
  split; [by vm_compute|].
  apply (durable_vote_never_retracted ser de V3 elected elected 2 (node_at 2 elected)
           (node_at 2 elected) elected_reachable); [done|by vm_compute|by vm_compute].
Defined.

End Demo.
