(* ===== verification/Replication.v ===== *)
(** * Follower replication: [replication.rs]

    The follower side of the Fetch protocol: building fetch requests, the
    fetch timer, validation of a response, and its processing (snapshot
    hand-off, divergence truncation, append, high-watermark advance and the
    three-phase commit notification), with the dispatchers [RaftNode] and
    [FollowerEventLoop] of the same file.

    The file uses methods of [NodeState] that the repository does not define:
    [append_entries], [truncate_suffix], [entries_in_range] and
    [last_log_term].  They are the class [InMemoryLog]; what the code relies
    on about them is [InMemoryLogLaws], with [list_InMemoryLog] an instance.
    [LogEntry::as_app_record] and [bincode] are parameters. *)

From Stdlib Require Import ZifyBool ZifyN ZifyNat Lia.
From Stdlib Require Import Strings.Byte.
From stdpp Require Import base list gmap numbers option strings.
From S2P Require Import Prelude Types NodeState Interfaces BTree DeferredCompletion.

(** ** The in-memory log of a follower *)

(** The methods act on the log and on the [log_end_offset] field beside it. *)
Class InMemoryLog (LG : Type) := {
  iml_append_entries : list LogEntry -> LG * N -> LG * N;
  iml_truncate_suffix : N -> LG * N -> LG * N;
  iml_entries_in_range : N -> N -> LG -> list LogEntry;
  iml_last_log_term : LG -> Term;
}.

Class InMemoryLogLaws (LG : Type) `{InMemoryLog LG} := {
  iml_abs : LG -> AbsLog;
  iml_append_abs : forall es l e,
    al_wf (iml_abs l) -> e = al_end (iml_abs l) -> contiguous e es = true ->
    iml_abs (iml_append_entries es (l, e)).1 = al_append es (iml_abs l) /\
    (iml_append_entries es (l, e)).2 = al_end (al_append es (iml_abs l));
  iml_truncate_abs : forall from l e,
    al_wf (iml_abs l) -> e = al_end (iml_abs l) -> al_start (iml_abs l) <= from <= e ->
    iml_abs (iml_truncate_suffix from (l, e)).1 = al_truncate_suffix from (iml_abs l) /\
    (iml_truncate_suffix from (l, e)).2 = from;
  iml_range_abs : forall a b l,
    al_wf (iml_abs l) -> iml_entries_in_range a b l = al_read a b (iml_abs l);
}.

(** [trait SnapshotCoordinator]. *)
Class SnapshotCoordinator (SC : Type) := {
  sc_begin_snapshot_transfer : NodeId -> SnapshotId -> NodeState -> SC -> SC * IoActionBatch;
  sc_is_transfer_in_progress : SC -> bool;
}.

Module Replication.

(** ** State *)

(** [NodeState] with the three fields only this file uses. *)
Record FollowerState {LG : Type} := mkFollower {
  base : NodeState;
  log : LG;
  fetch_deadline : Instant;
  leader_epoch_checkpoint : gmap Term N;
}.
Arguments FollowerState : clear implicits.

(** What [handle_fetch_response] may change: the state, the application
    callbacks' receivers, the completion queue and the channels of the futures
    it resolves or drops, the snapshot coordinator, the clock. *)
Record World {LG SM LI SC CK : Type} := mkWorld {
  state : FollowerState LG;
  state_machine : SM;
  listener : LI;
  completion_queue : BTreeMap (list N);
  resolved : list (N * N);
  failed : list N;
  snapshot_coordinator : SC;
  clock : CK;
}.
Arguments World : clear implicits.

Record ReplicationManager := mkManager {
  max_fetch_bytes : N;
  fetch_interval : Duration;
}.

Record FetchResponseResult := mkFetchResult {
  io_batch : IoActionBatch;
  snapshot_transfer_initiated : bool;
}.

(** [ReplicationManager::new]; the interval is in the clock's unit. *)
Definition manager_new (config : RaftConfig) : ReplicationManager :=
  mkManager (Types.max_fetch_bytes config) (fetch_interval_ms config).

(** ** The default snapshot coordinator *)

Record DefaultSnapshotCoordinator := mkCoordinator {
  in_progress : bool;
  dsc_max_fetch_bytes : N;
}.

Definition coordinator_new (bytes : N) : DefaultSnapshotCoordinator := mkCoordinator false bytes.

Definition begin_snapshot_transfer (leader : NodeId) (sid : SnapshotId) (s : NodeState)
    (c : DefaultSnapshotCoordinator) : DefaultSnapshotCoordinator * IoActionBatch :=
  let request := {| fsr_snapshot_id := sid;
                    fsr_position := 0;
                    fsr_max_bytes := dsc_max_fetch_bytes c |} in
  let envelope := {| env_cluster_id := cluster_id s;
                     env_leader_epoch := current_term s;
                     env_source := node_id s;
                     env_payload := PFetchSnapshotRequest request |} in
  (mkCoordinator true (dsc_max_fetch_bytes c), batch_push [] (SendRpc leader envelope)).

#[global] Instance default_SnapshotCoordinator : SnapshotCoordinator DefaultSnapshotCoordinator :=
  {| sc_begin_snapshot_transfer := begin_snapshot_transfer;
     sc_is_transfer_in_progress := in_progress |}.

Section Manager.
Context {LG SM LI SC CK : Type}.
Context `{!InMemoryLog LG} `{!StateMachine SM} `{!Listener LI}.
Context `{!SnapshotCoordinator SC} `{!Clock CK}.
(** [LogEntry::as_app_record] and [bincode::deserialize::<VotersRecord>]. *)
Context (as_app_record : LogEntry -> AppRecord).
Context (deserialize_voters : bytes -> Result VotersRecord).
(** [self]. *)
Context (mgr : ReplicationManager).

Abbreviation RWorld := (World LG SM LI SC CK).
Abbreviation M := (SE RWorld XraftError).
Implicit Types (w : RWorld) (st : FollowerState LG).

(** ** Access *)

Definition set_base (s : NodeState) st : FollowerState LG :=
  mkFollower _ s (log st) (fetch_deadline st) (leader_epoch_checkpoint st).
Definition set_log (p : LG * N) st : FollowerState LG :=
  mkFollower _ ((base st) <| log_end_offset := p.2 |>) p.1 (fetch_deadline st)
    (leader_epoch_checkpoint st).
Definition set_fetch_deadline (d : Instant) st : FollowerState LG :=
  mkFollower _ (base st) (log st) d (leader_epoch_checkpoint st).
Definition set_checkpoint (c : gmap Term N) st : FollowerState LG :=
  mkFollower _ (base st) (log st) (fetch_deadline st) c.

Definition set_state st w : RWorld :=
  mkWorld _ _ _ _ _ st (state_machine w) (listener w) (completion_queue w) (resolved w)
    (failed w) (snapshot_coordinator w) (clock w).
Definition set_state_machine (sm : SM) w : RWorld :=
  mkWorld _ _ _ _ _ (state w) sm (listener w) (completion_queue w) (resolved w)
    (failed w) (snapshot_coordinator w) (clock w).
Definition set_listener (l : LI) w : RWorld :=
  mkWorld _ _ _ _ _ (state w) (state_machine w) l (completion_queue w) (resolved w)
    (failed w) (snapshot_coordinator w) (clock w).
Definition set_queue (q : BTreeMap (list N)) (res : list (N * N)) (fail : list N) w : RWorld :=
  mkWorld _ _ _ _ _ (state w) (state_machine w) (listener w) q res fail
    (snapshot_coordinator w) (clock w).
Definition set_coordinator (c : SC) w : RWorld :=
  mkWorld _ _ _ _ _ (state w) (state_machine w) (listener w) (completion_queue w)
    (resolved w) (failed w) c (clock w).
Definition set_clock (c : CK) w : RWorld :=
  mkWorld _ _ _ _ _ (state w) (state_machine w) (listener w) (completion_queue w)
    (resolved w) (failed w) (snapshot_coordinator w) c.

Definition get {A} (f : NodeState -> A) : M A := se_get (fun w => f (base (state w))).
Definition upd (f : NodeState -> NodeState) : M unit :=
  se_modify (fun w => set_state (set_base (f (base (state w))) (state w)) w).
Definition upd_state (f : FollowerState LG -> FollowerState LG) : M unit :=
  se_modify (fun w => set_state (f (state w)) w).

(** ** Fetch requests and the fetch timer *)

Definition build_fetch_request st : option (NodeId * RpcEnvelope) :=
  let s := base st in
  match leader_id s with
  | None => None
  | Some leader =>
      if negb (role_eqb (role s) Follower) then None
      else
        let request := {| replica_id := node_id s;
                          fetch_offset := log_end_offset s;
                          last_fetched_epoch := iml_last_log_term (log st);
                          freq_max_bytes := max_fetch_bytes mgr |} in
        Some (leader, {| env_cluster_id := cluster_id s;
                         env_leader_epoch := current_term s;
                         env_source := node_id s;
                         env_payload := PFetchRequest request |})
  end.

Definition push_fetch (b : IoActionBatch) st : IoActionBatch :=
  match build_fetch_request st with
  | Some (leader, envelope) => batch_push b (SendRpc leader envelope)
  | None => b
  end.

Definition on_fetch_tick (now : Instant) st : FollowerState LG * IoActionBatch :=
  let st := set_fetch_deadline (now + fetch_interval mgr) st in
  (st, push_fetch [] st).

Definition poll_fetch (now : Instant) st : FollowerState LG * option IoActionBatch :=
  if (fetch_deadline st <=? now) && role_eqb (role (base st)) Follower then
    let '(st', b) := on_fetch_tick now st in (st', Some b)
  else (st, None).

Definition time_until_fetch st (now : Instant) : Duration :=
  if fetch_deadline st <=? now then 0 else fetch_deadline st - now.

(** [RaftNode::tick] and [FollowerEventLoop::run_tick]. *)
Definition tick st (c : CK) : FollowerState LG * CK * IoActionBatch :=
  let '(c', now) := clk_now c in
  let '(st', b) := poll_fetch now st in
  (st', c', default [] b).

(** ** Validation *)

Definition both_fields (response : FetchResponse) : bool :=
  bool_decide (is_Some (fr_snapshot_id response))
  && bool_decide (is_Some (fr_diverging_epoch response)).

Definition both_fields_error : XraftError :=
  InvalidResponse "response contains both snapshot_id and diverging_epoch"%string.

Definition quorum_state_of (s : NodeState) : QuorumState :=
  mkQuorumState (current_term s) (voted_for s) (leader_id s) (current_term s).

Definition validate_and_update_term (response : FetchResponse) : M (option QuorumState) :=
  stale <- get (fun s => fr_leader_epoch response <? current_term s) ;;
  if stale : bool then se_throw (InvalidResponse "stale leader epoch"%string)
  else
    higher <- get (fun s => current_term s <? fr_leader_epoch response) ;;
    if higher : bool then
      upd (fun s => s <| current_term := fr_leader_epoch response |>
                      <| voted_for := None |>
                      <| leader_id := Some (fr_leader_id response) |>
                      <| role := Follower |>
                      <| votes_received := ∅ |>
                      <| pre_votes_received := ∅ |>) ;;;
      qs <- get quorum_state_of ;;
      se_ret (Some qs)
    else
      r <- get role ;;
      if negb (role_eqb r Follower) then
        se_throw (InvalidResponse "node is not Follower"%string)
      else
        known <- get leader_id ;;
        match known with
        | Some known_leader =>
            if negb (fr_leader_id response =? known_leader) then
              se_throw (InvalidResponse "response from another leader"%string)
            else if both_fields response then se_throw both_fields_error
            else se_ret None
        | None =>
            upd (fun s => s <| leader_id := Some (fr_leader_id response) |>) ;;;
            qs <- get quorum_state_of ;;
            se_ret (Some qs)
        end.

Definition reset_timers : M unit := se_modify (fun w =>
  let '(c1, now) := clk_now (clock w) in
  let '(c2, timeout) := clk_random_election_timeout c1 in
  set_clock c2 (set_state (set_fetch_deadline (now + fetch_interval mgr)
    (set_base ((base (state w)) <| election_deadline := now + timeout |>) (state w))) w)).

(** ** Commit notification *)

Fixpoint apply_entries (es : list LogEntry) : M unit :=
  match es with
  | [] => se_ret tt
  | e :: es' =>
      (match entry_type e with
       | Command =>
           se_try (se_zoom state_machine set_state_machine
                     (sm_apply (offset e) (as_app_record e))) (fun r =>
             match r with
             | Ok _ => se_ret tt
             | Err _ =>
                 se_modify (fun w => set_listener (li_begin_shutdown (listener w)) w) ;;;
                 se_throw (StateMachineApplyError (offset e))
             end)
       | VotersRecordEntry =>
           match deserialize_voters (payload e) with
           | Err _ => se_throw (InvalidResponse "failed to deserialize VotersRecord"%string)
           | Ok record =>
               upd (fun s => s <| voter_set := vr_voters record |>) ;;;
               upd (fun s => match pending_membership_change s with
                             | Some pending =>
                                 if pend_offset pending <=? offset e
                                 then s <| pending_membership_change := None |> else s
                             | None => s
                             end)
           end
       | LeaderChangeMessage =>
           upd_state (fun st => set_checkpoint (<[term e := offset e]> (leader_epoch_checkpoint st)) st)
       end) ;;;
      apply_entries es'
  end.

(** The committed commands, as the listener receives them. *)
Definition app_records (es : list LogEntry) : list (N * AppRecord) :=
  map (fun e => (offset e, as_app_record e))
      (list_filter (fun e => EntryType_eqb (entry_type e) Command) es).

Definition execute_commit_notification (old_hw new_hw : N) : M unit :=
  committed <- se_get (fun w => iml_entries_in_range old_hw new_hw (log (state w))) ;;
  apply_entries committed ;;;
  se_modify (fun w => set_listener (li_handle_commit (app_records committed) (listener w)) w) ;;;
  se_modify (fun w =>
    let '(q, sent, _) := complete new_hw (completion_queue w) in
    set_queue q (resolved w ++ sent) (failed w) w).

(** ** Processing a response *)

Definition push_quorum (b : IoActionBatch) (qs : option QuorumState) : IoActionBatch :=
  match qs with Some qs => batch_push b (PersistQuorumState qs) | None => b end.

(** [response.snapshot_id] is present. *)
Definition handle_snapshot (response : FetchResponse) (sid : SnapshotId)
    (deferred : option QuorumState) : M FetchResponseResult :=
  busy <- se_get (fun w => sc_is_transfer_in_progress (snapshot_coordinator w)) ;;
  if busy : bool then se_ret (mkFetchResult (push_quorum [] deferred) false)
  else
    batch <- (fun w =>
      let leader := default (fr_leader_id response) (leader_id (base (state w))) in
      let '(c, b) := sc_begin_snapshot_transfer leader sid (base (state w))
                       (snapshot_coordinator w) in
      (set_coordinator c w, Ok b)) ;;
    se_ret (mkFetchResult (push_quorum (foldl batch_push [] batch) deferred) true).

(** The epochs whose entries start at or beyond the truncation point go. *)
Definition prune_checkpoint (point : N) (c : gmap Term N) : gmap Term N :=
  let to_remove := map fst (list_filter (fun kv => point <=? kv.2) (map_to_list c)) in
  foldl (fun c t => delete t c) c to_remove.

Definition handle_divergence (d : DivergingEpoch) (deferred : option QuorumState)
  : M FetchResponseResult :=
  point <- get (fun s => N.min (div_end_offset d) (log_end_offset s)) ;;
  uncommit <- get (fun s => point <? high_watermark s) ;;
  if uncommit : bool then
    se_throw (InvalidResponse "divergence truncation point is below high_watermark"%string)
  else
    upd_state (fun st =>
      set_log (iml_truncate_suffix point (log st, log_end_offset (base st))) st) ;;;
    upd (fun s => match pending_membership_change s with
                  | Some pending => if point <=? pend_offset pending
                                    then s <| pending_membership_change := None |> else s
                  | None => s
                  end) ;;;
    upd_state (fun st => set_checkpoint (prune_checkpoint point (leader_epoch_checkpoint st)) st) ;;;
    se_modify (fun w =>
      let '(q, dropped, _) := fail_at_or_above point (completion_queue w) in
      set_queue q (resolved w) (failed w ++ dropped) w) ;;;
    batch <- se_get (fun w => push_fetch (batch_push [] (TruncateSuffix point)) (state w)) ;;
    se_ret (mkFetchResult (push_quorum batch deferred) false).

(** [windows(2)] of the entries: every offset is its predecessor's plus one. *)
Fixpoint windows_contiguous (es : list LogEntry) : bool :=
  match es with
  | e1 :: (e2 :: _) as rest =>
      if negb (offset e2 =? u64_add (offset e1) 1) then false else windows_contiguous rest
  | _ => true
  end.

Definition append_entries (entries : list LogEntry) : M unit :=
  match entries with
  | [] => se_ret tt
  | first :: _ =>
      mismatch <- get (fun s => negb (offset first =? log_end_offset s)) ;;
      if mismatch : bool then
        se_throw (InvalidResponse "first entry offset does not match log_end_offset"%string)
      else if negb (windows_contiguous entries) then
        se_throw (InvalidResponse "non-contiguous entries"%string)
      else
        upd_state (fun st =>
          set_log (iml_append_entries entries (log st, log_end_offset (base st))) st)
  end.

Definition advance_high_watermark (leader_hw : N) : M unit :=
  new_hw <- get (fun s => N.min leader_hw (log_end_offset s)) ;;
  old_hw <- get high_watermark ;;
  if old_hw <? new_hw then
    upd (fun s => s <| high_watermark := new_hw |>) ;;;
    execute_commit_notification old_hw new_hw
  else se_ret tt.

Definition handle_entries (response : FetchResponse) (deferred : option QuorumState)
  : M FetchResponseResult :=
  append_entries (fr_entries response) ;;;
  advance_high_watermark (fr_high_watermark response) ;;;
  let b := if (length (fr_entries response) =? 0)%nat then []
           else batch_push [] (AppendLog (fr_entries response)) in
  se_ret (mkFetchResult (push_quorum b deferred) false).

Definition handle_fetch_response (response : FetchResponse) : M FetchResponseResult :=
  deferred <- validate_and_update_term response ;;
  if both_fields response then se_throw both_fields_error
  else
    reset_timers ;;;
    match fr_snapshot_id response with
    | Some sid => handle_snapshot response sid deferred
    | None =>
        match fr_diverging_epoch response with
        | Some d => handle_divergence d deferred
        | None => handle_entries response deferred
        end
    end.

(** [RaftNode::handle_message]. *)
Definition handle_message (envelope : RpcEnvelope) : M FetchResponseResult :=
  foreign <- get (fun s => negb (env_cluster_id envelope =? cluster_id s)) ;;
  if foreign : bool then se_throw InvalidClusterId
  else match env_payload envelope with
       | PFetchResponse response =>
           if negb (env_source envelope =? fr_leader_id response) then
             se_throw (InvalidResponse "envelope source does not match leader_id"%string)
           else handle_fetch_response response
       | _ => se_throw (InvalidResponse "message type not handled"%string)
       end.
End Manager.

End Replication.
