(* ===== verification/ReplicationProps.v ===== *)
(** * Correctness of follower replication

    The invariant of a follower (its log is contiguous, the high watermark
    lies inside it), what one fetch response may do to log, watermark, state
    machine, completions and I/O batch, and the guarantees over whole
    sequences of responses. *)

From Stdlib Require Import ZifyBool ZifyN ZifyNat Lia.
From Stdlib Require Import Strings.Byte.
From stdpp Require Import base list gmap numbers option strings.
From S2P Require Import Prelude Types NodeState Interfaces BTree DeferredCompletion Replication.

(** ** Observing the application

    The commands a state machine accepted, in order, and the batches a
    listener was handed. *)

Class StateMachineTrace (SM : Type) `{StateMachine SM} := {
  sm_applied : SM -> list (N * AppRecord);
  sm_apply_traced : forall off r s s' res, sm_apply off r s = (s', res) ->
    sm_applied s' = sm_applied s ++ (if is_ok res then [(off, r)] else []);
}.

Class ListenerTrace (LI : Type) `{Listener LI} := {
  li_committed : LI -> list (N * AppRecord);
  li_commit_traced : forall b l, li_committed (li_handle_commit b l) = li_committed l ++ b;
  li_shutdown_traced : forall l, li_committed (li_begin_shutdown l) = li_committed l;
}.

(** ** Logs *)

Lemma al_read_all (a : AbsLog) : al_wf a -> al_read (al_start a) (al_end a) a = al_entries a.
Proof.
  intros Hwf. apply list_filter_all. intros e He.
  pose proof (contiguous_bounds _ _ _ Hwf He). unfold al_end. lia.
Qed.

(** A range of a contiguous log splits at any point of it. *)
Lemma al_read_split (x y z : N) (a : AbsLog) :
  al_wf a -> x <= y -> y <= z -> al_read x z a = al_read x y a ++ al_read y z a.
Proof.
  unfold al_wf, al_read. generalize (al_start a). induction (al_entries a) as [|e es IH];
    intros o Hwf Hxy Hyz; [done|]. cbn [contiguous] in Hwf. apply andb_prop in Hwf as [Ho Hc].
  cbn [list_filter]. rewrite (IH _ Hc Hxy Hyz).
  destruct (x <=? offset e) eqn:E1, (offset e <? y) eqn:E2, (y <=? offset e) eqn:E3,
    (offset e <? z) eqn:E4; cbn [andb]; try lia; try done.
  - rewrite list_filter_none; [done|]. intros e' He'.
    pose proof (contiguous_bounds _ _ _ Hc He'). lia.
Qed.

Lemma al_read_append (x y : N) (es : list LogEntry) (a : AbsLog) :
  contiguous (al_end a) es = true -> y <= al_end a -> al_read x y (al_append es a) = al_read x y a.
Proof.
  intros Hc Hy. unfold al_read, al_append. cbn. rewrite list_filter_app.
  rewrite (list_filter_none _ es); [by rewrite app_nil_r|].
  intros e He. pose proof (contiguous_bounds _ _ _ Hc He). lia.
Qed.

Lemma al_read_truncate (x y from : N) (a : AbsLog) :
  y <= from -> al_read x y (al_truncate_suffix from a) = al_read x y a.
Proof.
  intros Hy. unfold al_read, al_truncate_suffix. cbn. rewrite list_filter_filter.
  apply list_filter_ext. intros e _. lia.
Qed.

Lemma al_truncate_end (from : N) (a : AbsLog) :
  al_wf a -> al_start a <= from <= al_end a ->
  al_wf (al_truncate_suffix from a) /\ al_end (al_truncate_suffix from a) = from.
Proof.
  intros Hwf Hf. unfold al_wf, al_end, al_truncate_suffix in *. cbn.
  rewrite (contiguous_filter_below (al_start a)) by done.
  split; [by apply contiguous_take|]. rewrite length_take. lia.
Qed.

Lemma al_append_wf (es : list LogEntry) (a : AbsLog) :
  al_wf a -> contiguous (al_end a) es = true ->
  al_wf (al_append es a) /\ al_end (al_append es a) = al_end a + N.of_nat (length es).
Proof.
  unfold al_wf, al_end, al_append. cbn. intros Hwf Hc. rewrite contiguous_app, Hwf, Hc, length_app.
  split; [done|lia].
Qed.

(** The offset check of the code gives a contiguous run, below the end of
    the [u64] range. *)
Lemma windows_contiguous_spec (e : LogEntry) (es : list LogEntry) :
  Replication.windows_contiguous (e :: es) = true ->
  offset e + N.of_nat (length (e :: es)) <= u64_max ->
  contiguous (offset e) (e :: es) = true.
Proof.
  revert e. induction es as [|e2 es IH]; intros e Hw Hb.
  - cbn. lia.
  - cbn [Replication.windows_contiguous] in Hw.
    destruct (negb _) eqn:E; [done|]. apply negb_false_iff in E.
    cbn [length] in Hb. rewrite u64_add_small in E by lia.
    specialize (IH e2 Hw). cbn [contiguous]. cbn [contiguous] in IH. cbn [length] in IH.
    rewrite N.eqb_refl in *. replace (offset e + 1) with (offset e2) by lia. cbn [andb].
    rewrite N.eqb_refl. apply IH. lia.
Qed.

Lemma contiguous_windows (o : N) (es : list LogEntry) :
  contiguous o es = true -> o + N.of_nat (length es) <= u64_max ->
  Replication.windows_contiguous es = true.
Proof.
  revert o. induction es as [|e1 es IH]; intros o Hc Hb; [done|].
  cbn [contiguous] in Hc. apply andb_prop in Hc as [Ho Hc]. cbn [length] in Hb.
  specialize (IH _ Hc). destruct es as [|e2 es]; [done|]. cbn [Replication.windows_contiguous].
  cbn [contiguous] in Hc. apply andb_prop in Hc as [Ho2 _]. cbn [length] in *.
  rewrite u64_add_small by lia. replace (offset e2 =? offset e1 + 1) with true by lia.
  cbn [negb]. apply IH. lia.
Qed.

Section Props.
Context {LG SM LI SC CK : Type}.
Context `{!InMemoryLog LG} `{!StateMachine SM} `{!Listener LI}.
Context `{!SnapshotCoordinator SC} `{!Clock CK}.
Context `{!InMemoryLogLaws LG} `{!StateMachineTrace SM} `{!ListenerTrace LI}.
Context (as_app_record : LogEntry -> AppRecord).
Context (deserialize_voters : bytes -> Result VotersRecord).
Context (mgr : Replication.ReplicationManager).

Import Replication.

Abbreviation RWorld := (World LG SM LI SC CK).
Implicit Types (w : RWorld) (st : FollowerState LG).

(** ** The invariant *)

Definition wlog w : AbsLog := iml_abs (log (state w)).
Definition hw w : N := high_watermark (base (state w)).
Definition applied w : list (N * AppRecord) := sm_applied (state_machine w).
Definition notified w : list (N * AppRecord) := li_committed (listener w).
Definition commands (es : list LogEntry) : list (N * AppRecord) := app_records as_app_record es.

Record winv w : Prop := {
  wi_wf : al_wf (wlog w);
  wi_end : log_end_offset (base (state w)) = al_end (wlog w);
  wi_hw : al_start (wlog w) <= hw w <= al_end (wlog w);
  wi_queue : dcq_inv (completion_queue w);
}.

(** The fields of the state that neither the log nor the commit phase touch. *)
Definition identity (s : NodeState) : N * N * N * option N * Role * option N :=
  (node_id s, cluster_id s, current_term s, voted_for s, role s, leader_id s).

Lemma commands_app (es1 es2 : list LogEntry) : commands (es1 ++ es2) = commands es1 ++ commands es2.
Proof. unfold commands, app_records. by rewrite list_filter_app, map_app. Qed.

Lemma commands_cons (e : LogEntry) (es : list LogEntry) :
  commands (e :: es) = commands [e] ++ commands es.
Proof. apply (commands_app [e] es). Qed.

(** Errors of the commit phase: the watermark has moved, not every command
    has been applied. *)
Definition commit_failure {A} (r : Result A) : bool :=
  match r with
  | Err (StateMachineApplyError _) => true
  | Err e => bool_decide (e = InvalidResponse "failed to deserialize VotersRecord"%string)
  | Ok _ => false
  end.

(** The failures that stop the node: the state machine refused a command. *)
Definition apply_failure {A} (r : Result A) : bool :=
  match r with Err (StateMachineApplyError _) => true | _ => false end.

(** A voters record that does not decode. *)
Definition undecodable (e : LogEntry) : Prop :=
  entry_type e = VotersRecordEntry /\ is_ok (deserialize_voters (payload e)) = false.

Record applied_entries (es : list LogEntry) w w' (r : Result unit) : Prop := {
  ae_log : log (state w') = log (state w);
  ae_end : log_end_offset (base (state w')) = log_end_offset (base (state w));
  ae_hw : hw w' = hw w;
  ae_queue : completion_queue w' = completion_queue w /\ resolved w' = resolved w /\
             failed w' = failed w;
  ae_identity : identity (base (state w')) = identity (base (state w));
  ae_listener : notified w' = notified w;
  ae_applied : exists done rest, commands es = done ++ rest /\
    applied w' = applied w ++ done /\ (r = Ok tt -> rest = []);
  ae_error : r = Ok tt \/ commit_failure r = true;
  ae_decode : commit_failure r = true -> apply_failure r = true \/ exists e, e ∈ es /\ undecodable e;
}.

Lemma applied_entries_cons (e : LogEntry) (es : list LogEntry) w w1 w2 (r : Result unit) :
  applied_entries [e] w w1 (Ok tt) -> applied_entries es w1 w2 r ->
  applied_entries (e :: es) w w2 r.
Proof.
  intros [A1 A2 A3 (A4 & A4' & A4'') A5 A6 (d1 & r1 & A7 & A7' & A7'') _ _]
         [B1 B2 B3 (B4 & B4' & B4'') B5 B6 (d2 & r2 & B7 & B7' & B7'') B8 B9].
  rewrite (A7'' eq_refl), app_nil_r in A7.
  split; try congruence; [split_and!; congruence| |].
  - exists (d1 ++ d2), r2. split_and!; [|by rewrite B7', A7', app_assoc|done].
    by rewrite commands_cons, A7, B7, app_assoc.
  - intros Hf. destruct (B9 Hf) as [?|(x & ? & ?)]; [by left|right]. exists x. split; [by right|done].
Qed.

(** A control record applies no command. *)
Lemma applied_entries_control (e : LogEntry) w (w' : RWorld) (r : Result unit) :
  entry_type e <> Command ->
  log (state w') = log (state w) ->
  log_end_offset (base (state w')) = log_end_offset (base (state w)) -> hw w' = hw w ->
  completion_queue w' = completion_queue w -> resolved w' = resolved w -> failed w' = failed w ->
  identity (base (state w')) = identity (base (state w)) ->
  listener w' = listener w -> state_machine w' = state_machine w ->
  r = Ok tt \/ (commit_failure r = true /\ undecodable e) ->
  applied_entries [e] w w' r.
Proof.
  intros Hc H1 H2 H3 H4 H5 H6 H7 H8 H9 H10. split; try done.
  3: naive_solver.
  3:{ intros Hf. destruct H10 as [->|[_ He]]; [done|right]. exists e. split; [left|done]. }
  - unfold notified. congruence.
  - exists [], []. unfold commands, app_records, applied. cbn. unfold EntryType_eqb.
    rewrite bool_decide_eq_false_2 by done. by rewrite app_nil_r, H9.
Qed.

Lemma wp_apply_entry (e : LogEntry) w :
  wp (apply_entries as_app_record deserialize_voters [e]) (applied_entries [e] w) w.
Proof.
  cbn [apply_entries]. unfold upd, upd_state. apply wp_bind. destruct (entry_type e) eqn:Ht.
  - apply wp_try, wp_zoom. intros s r Hs. apply sm_apply_traced in Hs.
    assert (commands [e] = [(offset e, as_app_record e)]) as Hcmd.
    { unfold commands, app_records. cbn. by rewrite Ht. }
    destruct r as [u|err]; wp_steps; split; try done; try (by left); try (by right); try (intros _; by left).
    + exists [(offset e, as_app_record e)], []. by rewrite Hcmd.
    + unfold notified. cbn. apply li_shutdown_traced.
    + exists [], [(offset e, as_app_record e)]. by rewrite Hcmd.
  - wp_steps. apply applied_entries_control; try done; [congruence|by left].
  - destruct (deserialize_voters (payload e)) as [rec|err] eqn:Ed; wp_steps;
      apply applied_entries_control; try done; try congruence; try (by left);
      try (right; split; [done|split; [done|by rewrite Ed]]);
      unfold hw; cbn; destruct (pending_membership_change _); try done; by destruct (_ <=? _).
Qed.

Lemma apply_entries_cons_eq (e : LogEntry) (es : list LogEntry) w :
  apply_entries as_app_record deserialize_voters (e :: es) w =
  se_bind (apply_entries as_app_record deserialize_voters [e])
          (fun _ => apply_entries as_app_record deserialize_voters es) w.
Proof.
  cbn [apply_entries]. unfold se_bind, se_ret. destruct (match entry_type e with _ => _ end w) as [w1 [u|err]]; done.
Qed.

Lemma wp_apply_entries (es : list LogEntry) w :
  wp (apply_entries as_app_record deserialize_voters es) (applied_entries es w) w.
Proof.
  revert w. induction es as [|e es IH]; intros w.
  - apply wp_ret. split; try done; [|by left]. exists [], [].
    split_and!; [done|by rewrite app_nil_r|done].
  - unfold wp. rewrite apply_entries_cons_eq. apply wp_bind.
    eapply wp_mono; [apply wp_apply_entry|]. intros w1 [[]|err] H1.
    + eapply wp_mono; [apply IH|]. intros w2 r. by apply applied_entries_cons.
    + destruct H1 as [H1 H2 H3 H4 H5 H6 (d & rest & H7 & H8 & _) H9 H10]. split; try done.
      * exists d, (rest ++ commands es). split_and!; [|done|done]. by rewrite commands_cons, H7, app_assoc.
      * intros Hf. destruct (H10 Hf) as [?|(x & ->%list_elem_of_singleton & ?)]; [by left|right].
        exists e. split; [left|done].
Qed.

(** ** What one response may do *)

(** Nothing but identity and timers changed. *)
Definition quiet w w' : Prop :=
  log (state w') = log (state w) /\
  log_end_offset (base (state w')) = log_end_offset (base (state w)) /\
  hw w' = hw w /\ completion_queue w' = completion_queue w /\ resolved w' = resolved w /\
  failed w' = failed w /\ state_machine w' = state_machine w /\ listener w' = listener w.

(** [k] bounds the entries appended. *)
Record core_post {A} (k : nat) w w' (r : Result A) : Prop := {
  cp_inv : winv w';
  cp_start : al_start (wlog w') = al_start (wlog w);
  cp_hw : hw w <= hw w';
  cp_end : al_end (wlog w') <= al_end (wlog w) + N.of_nat k;
  cp_committed : al_read (al_start (wlog w)) (hw w) (wlog w') =
                 al_read (al_start (wlog w)) (hw w) (wlog w);
  cp_applied : exists done rest,
    commands (al_read (hw w) (hw w') (wlog w')) = done ++ rest /\
    applied w' = applied w ++ done /\ (commit_failure r = false -> rest = []);
  cp_notified : notified w' = notified w ++
    (if commit_failure r then [] else commands (al_read (hw w) (hw w') (wlog w')));
  cp_resolved : hw w < hw w' -> commit_failure r = false ->
    resolved w' = resolved w ++ parked (bt_range_lt (hw w') (completion_queue w)) /\
    completion_queue w' = bt_range_ge (hw w') (completion_queue w);
  cp_decode : commit_failure r = true -> apply_failure r = true \/
    exists e, e ∈ al_read (hw w) (hw w') (wlog w') /\ undecodable e;
}.

Lemma al_read_empty (x y : N) (a : AbsLog) : y <= x -> al_read x y a = [].
Proof. intros Hle. apply list_filter_none. intros e _. lia. Qed.

Lemma applied_none {A} (x y : N) (a : AbsLog) w w' (r : Result A) :
  y <= x -> applied w' = applied w ->
  exists done rest, commands (al_read x y a) = done ++ rest /\
    applied w' = applied w ++ done /\ (commit_failure r = false -> rest = []).
Proof.
  intros Hle ->. exists [], []. rewrite al_read_empty by done.
  split_and!; [done|by rewrite app_nil_r|done].
Qed.

Lemma notified_none {A} (x y : N) (a : AbsLog) w w' (r : Result A) :
  y <= x -> notified w' = notified w ->
  notified w' = notified w ++ (if commit_failure r then [] else commands (al_read x y a)).
Proof.
  intros Hle ->. rewrite al_read_empty by done. destruct (commit_failure r); by rewrite app_nil_r.
Qed.

Lemma quiet_winv w w' : quiet w w' -> winv w -> winv w'.
Proof.
  intros (H1 & H2 & H3 & H4 & _) [W1 W2 W3 W4]. unfold wlog in *.
  split; unfold wlog; rewrite ?H1, ?H2, ?H3, ?H4; done.
Qed.

(** A call that leaves log and watermark alone. *)
Lemma core_post_quiet {A} (k : nat) w w' (r : Result A) :
  winv w -> quiet w w' -> commit_failure r = false -> core_post k w w' r.
Proof.
  intros Hi Hq Hr. pose proof (quiet_winv _ _ Hq Hi).
  destruct Hq as (H1 & H2 & H3 & H4 & H5 & H6 & H7 & H8).
  split; try done; unfold wlog; rewrite ?H1; try lia; try done.
  - apply applied_none; [lia|]. unfold applied. by rewrite H7.
  - apply notified_none; [lia|]. unfold notified. by rewrite H8.
Qed.

Lemma core_post_after_quiet {A} (k : nat) w w1 w' (r : Result A) :
  quiet w w1 -> core_post k w1 w' r -> core_post k w w' r.
Proof.
  intros (H1 & H2 & H3 & H4 & H5 & H6 & H7 & H8) [C1 C2 C3 C4 C5 C6 C7 C8 C9].
  unfold wlog, applied, notified in *. rewrite H1, H3, H4, H5, H7, H8 in *. split; done.
Qed.

(** *** Validation and timers *)

Definition validate_post w w' (r : Result (option QuorumState)) : Prop :=
  quiet w w' /\ commit_failure r = false /\
  match r with
  | Err _ => w' = w
  | Ok None => w' = w
  | Ok (Some qs) => qs = quorum_state_of (base (state w')) /\
      node_id (base (state w')) = node_id (base (state w)) /\
      cluster_id (base (state w')) = cluster_id (base (state w)) /\
      current_term (base (state w)) <= current_term (base (state w'))
  end.

Lemma wp_validate (response : FetchResponse) w :
  wp (validate_and_update_term response)
     (fun w' r => validate_post w w' r /\
        (forall d, r = Ok d ->
           current_term (base (state w')) = fr_leader_epoch response /\
           role (base (state w')) = Follower /\
           leader_id (base (state w')) = Some (fr_leader_id response))) w.
Proof.
  unfold validate_and_update_term, get, upd. wp_steps.
  - by split.
  - split; [|naive_solver]. split_and!; try done. cbn. lia.
  - by split.
  - apply negb_false_iff, role_eqb_spec in E1.
    destruct (leader_id (base (state w))) as [l|] eqn:El; wp_steps; [by split|by split| |].
    + split; [done|]. intros d [= <-]. apply negb_false_iff in E2.
      split_and!; [lia|done|]. rewrite El. f_equal. lia.
    + split; [split_and!; try done|]. cbn. intros d _. split_and!; [lia|done|done].
Qed.

(** Only the two deadlines and the clock move. *)
Definition with_timers (c : CK) (election fetch : Instant) w : RWorld :=
  set_clock c (set_state (set_fetch_deadline fetch
    (set_base ((base (state w)) <| election_deadline := election |>) (state w))) w).

Lemma wp_reset_timers (Q : RWorld -> Result unit -> Prop) w :
  (forall c e f, Q (with_timers c e f w) (Ok tt)) -> wp (reset_timers mgr) Q w.
Proof.
  intros HQ. apply wp_modify. destruct (clk_now _) as [c1 now].
  destruct (clk_random_election_timeout c1) as [c2 t]. apply HQ.
Qed.

(** A same-term response of the known leader is accepted as it is. *)
Lemma validate_accepts (response : FetchResponse) w :
  fr_leader_epoch response = current_term (base (state w)) ->
  role (base (state w)) = Follower ->
  leader_id (base (state w)) = Some (fr_leader_id response) ->
  both_fields response = false ->
  validate_and_update_term response w = (w, Ok None).
Proof.
  intros He Hr Hl Hb. unfold validate_and_update_term, get, se_bind, se_get.
  cbn beta iota. rewrite He, N.ltb_irrefl. cbn beta iota. rewrite N.ltb_irrefl, Hr. cbn beta iota.
  change (role_eqb Follower Follower) with true. cbn [negb].
  cbn beta iota. by rewrite Hl, N.eqb_refl, Hb.
Qed.

(** *** Snapshot hand-off *)

Lemma wp_handle_snapshot (k : nat) (response : FetchResponse) (sid : SnapshotId) (d : option QuorumState) w :
  winv w -> wp (handle_snapshot response sid d)
               (fun w' r => core_post k w w' r /\ wlog w' = wlog w) w.
Proof.
  intros Hi. unfold handle_snapshot. wp_steps; [by split; [apply core_post_quiet|]|].
  unfold wp at 1. destruct (sc_begin_snapshot_transfer _ _ _ _) as [c b]. cbn [fst snd].
  wp_steps. by split; [apply core_post_quiet|].
Qed.

(** *** Divergence *)

Definition truncation_point (d : DivergingEpoch) w : N :=
  N.min (div_end_offset d) (al_end (wlog w)).

Record truncated (p : N) w w' : Prop := {
  td_log : wlog w' = al_truncate_suffix p (wlog w);
  td_end : log_end_offset (base (state w')) = p;
  td_hw : hw w' = hw w;
  td_queue : completion_queue w' = bt_range_lt p (completion_queue w);
  td_failed : failed w' = failed w ++ map fst (parked (bt_range_ge p (completion_queue w)));
  td_resolved : resolved w' = resolved w;
  td_app : state_machine w' = state_machine w /\ listener w' = listener w;
  td_identity : identity (base (state w')) = identity (base (state w));
  td_pending : forall m, pending_membership_change (base (state w')) = Some m ->
    pend_offset m < p /\ pending_membership_change (base (state w)) = Some m;
}.

Lemma truncated_core {A} (k : nat) (p : N) w w' (r : Result A) :
  winv w -> hw w <= p <= al_end (wlog w) -> truncated p w w' -> commit_failure r = false ->
  core_post k w w' r.
Proof.
  intros [W1 W2 W3 W4] Hp [T1 T2 T3 T4 T5 T6 [T7 T8] T9 T10] Hr.
  destruct (al_truncate_end p (wlog w) W1) as [Hwf Hend]; [lia|].
  split; try lia.
  - split; rewrite ?T1, ?T3; [done|congruence| |rewrite T4; by apply dcq_inv_filter].
    rewrite Hend. cbn. lia.
  - by rewrite T1.
  - rewrite T1, Hend. lia.
  - rewrite T1. apply al_read_truncate. lia.
  - apply applied_none; [lia|]. unfold applied. by rewrite T7.
  - apply notified_none; [lia|]. unfold notified. by rewrite T8.
Qed.

Lemma wp_handle_divergence (d : DivergingEpoch) (deferred : option QuorumState) w :
  winv w ->
  wp (handle_divergence mgr d deferred)
     (fun w' r => let p := truncation_point d w in
        match r with
        | Err _ => w' = w /\ p < hw w /\ commit_failure r = false
        | Ok res => hw w <= p /\ truncated p w w' /\
            res = mkFetchResult
              (push_quorum (push_fetch mgr [TruncateSuffix p] (state w')) deferred) false
        end) w.
Proof.
  intros [W1 W2 W3 W4]. unfold handle_divergence, get, upd, upd_state. rewrite <- ?W2.
  assert (N.min (div_end_offset d) (log_end_offset (base (state w))) = truncation_point d w) as Hpt
    by (unfold truncation_point; by rewrite W2).
  wp_steps; rewrite Hpt in *.
  { unfold hw. split_and!; [done|lia|done]. }
  assert (hw w <= truncation_point d w <= al_end (wlog w)) as Hp.
  { unfold hw, truncation_point in *. lia. }
  set (p := truncation_point d w) in *. cbn [completion_queue set_state].
  rewrite fail_spec by done. cbn [fst snd].
  destruct (iml_truncate_abs p (log (state w)) (log_end_offset (base (state w)))) as [H1 H2];
    [done|done|rewrite W2; unfold hw in *; unfold wlog in *; lia|].
  split; [lia|]. split; [|done].
  split; cbn; try done; unfold wlog, hw; cbn;
    destruct (pending_membership_change (base (state w))) as [m|] eqn:Em; cbn;
    try destruct (p <=? pend_offset m) eqn:Ep; cbn; try done; intros m'; rewrite ?Em; try done.
  intros [= <-]. split; [lia|done].
Qed.

(** *** Append and commit *)

Definition appended (es : list LogEntry) w w' : Prop :=
  wlog w' = al_append es (wlog w) /\
  log_end_offset (base (state w')) = al_end (wlog w') /\ hw w' = hw w /\
  completion_queue w' = completion_queue w /\ resolved w' = resolved w /\
  failed w' = failed w /\ state_machine w' = state_machine w /\ listener w' = listener w /\
  identity (base (state w')) = identity (base (state w)).

Lemma al_append_nil (a : AbsLog) : al_append [] a = a.
Proof. destruct a. unfold al_append. cbn. by rewrite app_nil_r. Qed.

Lemma wp_append_entries (es : list LogEntry) w :
  winv w -> al_end (wlog w) + N.of_nat (length es) <= u64_max ->
  wp (append_entries es)
     (fun w' r => match r with
                  | Err _ => w' = w /\ commit_failure r = false /\
                             contiguous (al_end (wlog w)) es = false
                  | Ok _ => appended es w w' /\ contiguous (al_end (wlog w)) es = true
                  end) w.
Proof.
  intros [W1 W2 W3 W4] Hb. destruct es as [|e es]; cbn [append_entries].
  { apply wp_ret. unfold appended. by rewrite al_append_nil. }
  unfold get, upd_state. wp_steps; rewrite W2 in *.
  - split_and!; [done|done|]. cbn [contiguous]. by apply negb_true_iff in E as ->.
  - apply negb_false_iff in E. apply negb_true_iff in E0. split_and!; [done|done|].
    apply not_true_is_false. intros Hc. rewrite (contiguous_windows _ _ Hc) in E0 by done. done.
  - apply negb_false_iff in E, E0. assert (offset e = al_end (wlog w)) as He by lia.
    rewrite <- He in Hb. pose proof (windows_contiguous_spec _ _ E0 Hb) as Hc. rewrite He in Hc.
    split; [|done].
    destruct (iml_append_abs (e :: es) (log (state w)) (al_end (wlog w)) W1 eq_refl Hc) as [H1 H2].
    unfold appended, wlog, hw in *; cbn. by rewrite H1, H2.
Qed.

Record advanced (leader_hw : N) w w' (r : Result unit) : Prop := {
  ad_core : core_post 0 w w' r;
  ad_log : wlog w' = wlog w;
  ad_identity : identity (base (state w')) = identity (base (state w));
  ad_failed : failed w' = failed w;
  ad_hw : hw w' = N.max (hw w) (N.min leader_hw (al_end (wlog w)));
  ad_result : r = Ok tt \/ commit_failure r = true;
}.

Lemma wp_commit_notification (new_hw : N) w w0 :
  winv w0 -> hw w0 < new_hw <= al_end (wlog w0) ->
  w = set_state (set_base ((base (state w0)) <| high_watermark := new_hw |>) (state w0)) w0 ->
  wp (execute_commit_notification as_app_record deserialize_voters (hw w0) new_hw)
     (fun w' r => core_post 0 w0 w' r /\ wlog w' = wlog w0 /\ hw w' = new_hw /\
        identity (base (state w')) = identity (base (state w0)) /\ failed w' = failed w0 /\
        (r = Ok tt \/ commit_failure r = true)) w.
Proof.
  intros [W1 W2 W3 W4] Hhw ->. set (w := set_state _ w0). unfold execute_commit_notification. wp_steps.
  rewrite iml_range_abs by done. change (iml_abs (log (state w))) with (wlog w0).
  set (es := al_read (hw w0) new_hw (wlog w0)).
  eapply wp_mono; [apply wp_apply_entries|]. intros w1 r Hae.
  destruct Hae as [A1 A2 A3 (A4 & A5 & A6) A7 A8 (d & rest & A9 & A10 & A11) A12 A13].
  assert (wlog w1 = wlog w0) as Hlog by (unfold wlog; by rewrite A1).
  assert (hw w1 = new_hw) as Hh by (by rewrite A3).
  destruct r as [[]|e]; wp_steps.
  - cbn [completion_queue set_listener]. rewrite A4. cbn [completion_queue set_state w].
    rewrite complete_spec by done. specialize (A11 eq_refl) as ->. rewrite app_nil_r in A9.
    split_and!; try done. split; unfold wlog, hw in *; cbn.
    + split; unfold wlog, hw in *; cbn; rewrite ?Hlog, ?Hh, ?A2; try done; [lia|].
      by apply dcq_inv_filter.
    + by rewrite Hlog.
    + lia.
    + rewrite Hlog. lia.
    + by rewrite Hlog.
    + rewrite Hlog, Hh. exists d, []. split_and!; [by rewrite app_nil_r|done|done].
    + rewrite Hlog, Hh. unfold notified in *. cbn. rewrite li_commit_traced, A8. done.
    + intros _ _. rewrite Hh, A5. done.
    + done.
  - destruct A12 as [[=]|Hf]. split_and!; try done; try (by right). split; unfold hw in *.
    + split; unfold hw in *; rewrite ?Hlog, ?Hh, ?A2, ?A4; try done. lia.
    + by rewrite Hlog.
    + lia.
    + rewrite Hlog. lia.
    + by rewrite Hlog.
    + rewrite Hlog, Hh. exists d, rest. split_and!; [done|done|]. intros. congruence.
    + rewrite Hf, app_nil_r. done.
    + intros. congruence.
    + rewrite Hlog, Hh. exact A13.
Qed.

Lemma wp_advance_high_watermark (leader_hw : N) w :
  winv w ->
  wp (advance_high_watermark as_app_record deserialize_voters leader_hw)
     (advanced leader_hw w) w.
Proof.
  intros Hi. pose proof Hi as [W1 W2 W3 W4]. unfold advance_high_watermark, get, upd. wp_steps;
    rewrite W2 in *; change (high_watermark (base (state w))) with (hw w) in *.
  - eapply wp_mono; [eapply wp_commit_notification; [done|split; [lia|lia]|done]|].
    intros w' r (H1 & H2 & H3 & H4 & H5 & H6). split; try done. lia.
  - split; try done; [by apply core_post_quiet|lia|by left].
Qed.

Lemma appended_core {A} (es : list LogEntry) w w1 w' (r : Result A) :
  winv w -> contiguous (al_end (wlog w)) es = true -> appended es w w1 ->
  core_post 0 w1 w' r -> core_post (length es) w w' r.
Proof.
  intros [W1 W2 W3 W4] Hc (H1 & H2 & H3 & H4 & H5 & H6 & H7 & H8 & H9)
         [C1 C2 C3 C4 C5 C6 C7 C8 C9].
  destruct (al_append_wf es (wlog w) W1 Hc) as [_ Hend].
  unfold applied, notified in *. rewrite H1, H3, H4, H5, H7, H8 in *. split; try done.
  - lia.
  - cbn [al_start al_append] in C5. rewrite C5. apply al_read_append; [done|lia].
Qed.

Lemma appended_winv (es : list LogEntry) w w1 :
  winv w -> contiguous (al_end (wlog w)) es = true -> appended es w w1 -> winv w1.
Proof.
  intros [W1 W2 W3 W4] Hc (H1 & H2 & H3 & H4 & _).
  destruct (al_append_wf es (wlog w) W1 Hc) as [Hwf Hend].
  split; rewrite ?H3, ?H4; try done; rewrite H1; [done|cbn [al_start al_append]; lia].
Qed.

(** *** The whole handler *)

(** A batch acts on a log by its appends and truncations, in order. *)
Definition exec_log (a : AbsLog) (act : IoAction) : AbsLog :=
  match act with
  | AppendLog es => al_append es a
  | TruncateSuffix from => al_truncate_suffix from a
  | _ => a
  end.

Definition is_send (act : IoAction) : bool := match act with SendRpc _ _ => true | _ => false end.
Definition is_persist (act : IoAction) : bool :=
  match act with PersistQuorumState _ => true | _ => false end.

(** Starting a snapshot transfer only sends messages. *)
Definition only_sends : Prop := forall leader sid s (c : SC) c' b,
  sc_begin_snapshot_transfer leader sid s c = (c', b) -> forallb is_send b = true.

(** [b] is the batch without the voting state: it has the log effects that
    lead from the log before to the log after. *)
Definition log_batch w w' (b : IoActionBatch) : Prop :=
  foldl exec_log (wlog w) b = wlog w' /\ existsb is_persist b = false.

Lemma sends_log_batch w w' (b : IoActionBatch) :
  wlog w' = wlog w -> forallb is_send b = true -> log_batch w w' b.
Proof.
  unfold log_batch. intros ->. induction b as [|[] b IH]; cbn; try done.
Qed.

Lemma foldl_batch_push (b acc : IoActionBatch) : foldl batch_push acc b = acc ++ b.
Proof.
  revert acc. induction b as [|x b IH]; intros acc; cbn; [by rewrite app_nil_r|].
  rewrite IH. unfold batch_push. by rewrite <- app_assoc.
Qed.

Definition result_ok w w1 w' (d : option QuorumState) (r : Result FetchResponseResult) : Prop :=
  forall res, r = Ok res ->
    identity (base (state w')) = identity (base (state w1)) /\
    exists b, io_batch res = push_quorum b d /\ log_batch w w' b.

Lemma wp_snapshot_result (response : FetchResponse) (sid : SnapshotId) (d : option QuorumState) w :
  only_sends -> wp (handle_snapshot response sid d) (fun w' r => result_ok w w w' d r) w.
Proof.
  intros Hs. unfold handle_snapshot. wp_steps.
  - intros res [= <-]. split; [done|]. exists []. split; [done|]. by apply sends_log_batch.
  - unfold wp at 1. destruct (sc_begin_snapshot_transfer _ _ _ _) as [c b] eqn:Hb. cbn [fst snd].
    wp_steps. intros res [= <-]. split; [done|]. cbn [io_batch]. rewrite foldl_batch_push.
    exists b. split; [done|]. apply sends_log_batch; [done|]. by eapply Hs.
Qed.

Lemma log_batch_truncate w w' (p : N) st :
  wlog w' = al_truncate_suffix p (wlog w) -> log_batch w w' (push_fetch mgr [TruncateSuffix p] st).
Proof.
  unfold push_fetch, log_batch. intros ->. by destruct (build_fetch_request mgr st) as [[l e]|].
Qed.

Lemma wp_handle_entries (response : FetchResponse) (d : option QuorumState) w :
  winv w -> al_end (wlog w) + N.of_nat (length (fr_entries response)) <= u64_max ->
  wp (handle_entries as_app_record deserialize_voters response d)
     (fun w' r => core_post (length (fr_entries response)) w w' r /\ result_ok w w w' d r) w.
Proof.
  intros Hi Hb. unfold handle_entries. apply wp_bind.
  eapply wp_mono; [by apply wp_append_entries|]. intros w1 [u|e]; cbn beta iota.
  2:{ intros (-> & Hf & _). by split; [apply core_post_quiet|]. }
  intros [Happ Hc]. pose proof (appended_winv _ _ _ Hi Hc Happ) as Hi1.
  apply wp_bind. eapply wp_mono; [by apply wp_advance_high_watermark|].
  intros w2 r [A1 A2 A3 A4 A5 A6].
  pose proof (appended_core _ _ _ _ _ Hi Hc Happ A1) as Hcore.
  destruct r as [[]|e]; wp_steps.
  - split; [destruct Hcore; split; done|]. intros res [= <-].
    destruct Happ as (H1 & _ & _ & _ & _ & _ & _ & _ & H9). split; [congruence|]. eexists.
    split; [done|]. unfold log_batch. rewrite A2, H1.
    destruct (fr_entries response); cbn; [by rewrite al_append_nil|done].
  - split; [destruct Hcore; split; done|done].
Qed.

Lemma wp_handle_fetch_response (response : FetchResponse) w :
  winv w -> al_end (wlog w) + N.of_nat (length (fr_entries response)) <= u64_max ->
  wp (handle_fetch_response as_app_record deserialize_voters mgr response)
     (fun w' r => core_post (length (fr_entries response)) w w' r /\
        (only_sends -> forall res, r = Ok res ->
           exists w1 d, validate_post w w1 (Ok d) /\ result_ok w w1 w' d r)) w.
Proof.
  intros Hi Hb. unfold handle_fetch_response. apply wp_bind.
  eapply wp_mono; [apply wp_validate|]. intros w1 [d|e] [(Hq & Hf & Hv) _].
  2:{ subst. split; [by apply core_post_quiet|done]. }
  wp_steps. { split; [by apply core_post_quiet|done]. }
  apply wp_reset_timers. intros c te tf. set (w2 := with_timers c te tf w1).
  assert (quiet w1 w2) as Hq2 by done.
  assert (identity (base (state w2)) = identity (base (state w1))) as Hid2 by done.
  clearbody w2.
  assert (quiet w w2) as Hq12 by (unfold quiet in *; intuition congruence).
  pose proof (quiet_winv _ _ Hq12 Hi) as Hi2.
  assert (wlog w2 = wlog w) as Hlog2 by (unfold wlog; by destruct Hq12 as [-> _]).
  assert (forall w' r, result_ok w2 w2 w' d r -> result_ok w w1 w' d r) as Hres.
  { unfold result_ok, log_batch. rewrite Hlog2, Hid2. done. }
  assert (validate_post w w1 (Ok d)) as Hval by (split_and!; done).
  assert (forall w' r, core_post (length (fr_entries response)) w2 w' r -> result_ok w2 w2 w' d r ->
    core_post (length (fr_entries response)) w w' r /\
    (only_sends -> forall res, r = Ok res ->
       exists w1 d, validate_post w w1 (Ok d) /\ result_ok w w1 w' d r)) as Hfin.
  { intros w' r Hc Hr. split; [by eapply core_post_after_quiet|]. eauto. }
  destruct (fr_snapshot_id response) as [sid|]; [|destruct (fr_diverging_epoch response) as [dv|]].
  - pose proof (wp_handle_snapshot (length (fr_entries response)) response sid d w2 Hi2) as Hs.
    pose proof (wp_snapshot_result response sid d w2) as Hsr. unfold wp in *.
    split; [eapply core_post_after_quiet; [done|]; by apply Hs|]. eauto 10.
  - eapply wp_mono; [by apply wp_handle_divergence|]. intros w' r Hp. cbn zeta in Hp.
    destruct r as [res|e].
    + destruct Hp as (Hhw & Ht & ->). apply Hfin.
      * eapply truncated_core; [done| |done|done]. unfold truncation_point in *. lia.
      * intros ? [= <-]. split; [apply Ht|]. eexists. split; [done|].
        apply log_batch_truncate, Ht.
    + destruct Hp as (-> & _ & Hfail). apply Hfin; [by apply core_post_quiet|done].
  - eapply wp_mono; [apply wp_handle_entries; [done|by rewrite Hlog2]|].
    intros w' r [Hc Hr]. by apply Hfin.
Qed.
End Props.
