(* ===== verification/ReplicationClaims.v ===== *)
(** * What a follower guarantees

    The properties of the follower pipeline of [replication.rs], for one
    message and for whole sequences of messages, and a concrete follower on
    which they are evaluated. *)

From Stdlib Require Import ZifyBool ZifyN ZifyNat Lia.
From Stdlib Require Import Strings.Byte.
From stdpp Require Import base list gmap numbers option strings.
From S2P Require Import Prelude Types NodeState Interfaces BTree DeferredCompletion.
From S2P Require Import Mocks Replication ReplicationProps.

Section Claims.
Context {LG SM LI SC CK : Type}.
Context `{!InMemoryLog LG} `{!StateMachine SM} `{!Listener LI}.
Context `{!SnapshotCoordinator SC} `{!Clock CK}.
Context `{!InMemoryLogLaws LG} `{!StateMachineTrace SM} `{!ListenerTrace LI}.
Context (as_app_record : LogEntry -> AppRecord).
Context (deserialize_voters : bytes -> Result VotersRecord).
Context (mgr : Replication.ReplicationManager).

Import Replication.

Abbreviation RWorld := (World LG SM LI SC CK).
Implicit Types w : RWorld.

Abbreviation handle := (handle_message as_app_record deserialize_voters mgr).

(** The entries a message carries. *)
Definition entries_of (env : RpcEnvelope) : list LogEntry :=
  match env_payload env with PFetchResponse r => fr_entries r | _ => [] end.

(** The log stays in the range of its offsets after [env]. *)
Definition fits (env : RpcEnvelope) w : Prop :=
  al_end (wlog w) + N.of_nat (length (entries_of env)) <= u64_max.

Lemma wp_handle_message (env : RpcEnvelope) w :
  winv w -> fits env w ->
  wp (handle env)
     (fun w' r => core_post as_app_record deserialize_voters (length (entries_of env)) w w' r /\
        (only_sends (SC := SC) -> forall res, r = Ok res ->
           exists w1 d, validate_post w w1 (Ok d) /\ result_ok w w1 w' d r)) w.
Proof.
  intros Hi Hf. unfold handle_message, get, fits, entries_of in *. wp_steps.
  { split; [by apply core_post_quiet|done]. }
  destruct (env_payload env); wp_steps; try (split; [by apply core_post_quiet|done]).
  by apply wp_handle_fetch_response.
Qed.

(** C4: The follower's invariant.  Every message, accepted or rejected and
    also when the state machine or a record makes it fail half way, leaves
    a contiguous log with [log_end_offset] at its end and the high watermark
    inside it; the high watermark and the log start never go back, and no
    entry below the old high watermark is changed or removed. *)
Theorem high_watermark_never_decreases (env : RpcEnvelope) w w' (r : Result FetchResponseResult) :
  winv w -> fits env w -> handle env w = (w', r) ->
  winv w' /\ hw w <= hw w' /\ al_start (wlog w') = al_start (wlog w) /\
  al_read (al_start (wlog w)) (hw w) (wlog w') = al_read (al_start (wlog w)) (hw w) (wlog w).
Proof.
  intros Hi Hf Hr. pose proof (wp_run _ _ _ _ _ (wp_handle_message env w Hi Hf) Hr)
    as [[C1 C2 C3 C4 C5 C6 C7 C8 C9] _]. done.
Qed.

(** ** Sequences of messages *)

(** A node serves messages one after the other.  When the state machine refuses
    a command the node halts (crash-stop); any other error is returned and the
    node goes on with the next message, also when the commit phase stopped at a
    voters record that does not decode. *)
Fixpoint serve (envs : list RpcEnvelope) w : RWorld * bool :=
  match envs with
  | [] => (w, false)
  | env :: envs' =>
      match handle env w with
      | (w', r) => if apply_failure r then (w', true) else serve envs' w'
      end
  end.

Definition total_entries (envs : list RpcEnvelope) : N :=
  N.of_nat (length (envs ≫= entries_of)).

(** The committed part of the log, and its commands. *)
Definition committed w : list LogEntry := al_read (al_start (wlog w)) (hw w) (wlog w).
Definition committed_commands w : list (N * AppRecord) := commands as_app_record (committed w).

(** Every committed voters record decodes. *)
Definition records_decode w : Prop := Forall (fun e => ~ undecodable deserialize_voters e) (committed w).

(** One message of a sequence. *)
Lemma serve_step (env : RpcEnvelope) (envs : list RpcEnvelope) w w1 (r : Result FetchResponseResult) :
  winv w -> al_end (wlog w) + total_entries (env :: envs) <= u64_max -> handle env w = (w1, r) ->
  core_post as_app_record deserialize_voters (length (entries_of env)) w w1 r /\ fits env w /\
  al_end (wlog w1) + total_entries envs <= u64_max.
Proof.
  intros Hi Hb Hh. unfold total_entries in *. cbn [mbind list_bind] in Hb. rewrite length_app in Hb.
  assert (fits env w) as Hf by (unfold fits; lia).
  pose proof (wp_run _ _ _ _ _ (wp_handle_message env w Hi Hf) Hh) as [Hcore _].
  split_and!; [done|done|]. destruct Hcore. unfold mbind in *. lia.
Qed.

Lemma core_post_committed {A} (k : nat) w w' (r : Result A) :
  winv w -> core_post as_app_record deserialize_voters k w w' r ->
  committed w' = committed w ++ al_read (hw w) (hw w') (wlog w').
Proof.
  intros [_ _ W3 _] [C1 C2 C3 C4 C5 C6 C7 C8 C9]. unfold committed. rewrite C2.
  rewrite (al_read_split (al_start (wlog w)) (hw w)) by (apply C1 || lia). by rewrite C5.
Qed.

Lemma core_post_commands {A} (k : nat) w w' (r : Result A) :
  winv w -> core_post as_app_record deserialize_voters k w w' r ->
  committed_commands w' =
  committed_commands w ++ commands as_app_record (al_read (hw w) (hw w') (wlog w')).
Proof.
  intros Hi Hc. unfold committed_commands. by rewrite (core_post_committed _ _ _ _ Hi Hc), commands_app.
Qed.

(** What is committed stays. *)
Lemma serve_committed (envs : list RpcEnvelope) w w' (halted : bool) :
  winv w -> al_end (wlog w) + total_entries envs <= u64_max -> serve envs w = (w', halted) ->
  winv w' /\ committed w `prefix_of` committed w'.
Proof.
  revert w. induction envs as [|env envs IH]; intros w Hi Hb Hs; cbn [serve] in Hs; [by simplify_eq|].
  destruct (handle env w) as [w1 r] eqn:Hh. destruct (serve_step env envs w w1 r Hi Hb Hh) as (Hc & _ & Hb1).
  assert (committed w `prefix_of` committed w1) as Hp
    by (rewrite (core_post_committed _ _ _ _ Hi Hc); by apply prefix_app_r).
  destruct (apply_failure r); [simplify_eq; split; [apply Hc|done]|].
  destruct (IH w1 (cp_inv _ _ _ _ _ _ Hc) Hb1 Hs). split; [done|]. by etrans.
Qed.

(** A commit phase that stopped short, though every committed record decodes,
    stopped because the state machine failed. *)
Lemma decoded_failure {A} (k : nat) w w1 (w' : RWorld) (r : Result A) :
  winv w -> core_post as_app_record deserialize_voters k w w1 r -> committed w1 `prefix_of` committed w' ->
  records_decode w' -> apply_failure r = false -> commit_failure r = false.
Proof.
  intros Hi Hc [rest Hp] Hd Ha. apply not_true_is_false. intros Hf.
  destruct (cp_decode _ _ _ _ _ _ Hc Hf) as [?|(e & He & Hu)]; [congruence|].
  unfold records_decode in Hd. rewrite Hp, (core_post_committed _ _ _ _ Hi Hc), !Forall_app in Hd.
  destruct Hd as [[_ Hd] _]. rewrite list.Forall_forall in Hd. by apply (Hd e He).
Qed.

Lemma serve_in_order (envs : list RpcEnvelope) w w' (halted : bool) :
  winv w -> al_end (wlog w) + total_entries envs <= u64_max ->
  applied w `sublist_of` committed_commands w -> serve envs w = (w', halted) ->
  applied w' `sublist_of` committed_commands w'.
Proof.
  revert w. induction envs as [|env envs IH]; intros w Hi Hb Ha Hs; cbn [serve] in Hs; [by simplify_eq|].
  destruct (handle env w) as [w1 r] eqn:Hh. destruct (serve_step env envs w w1 r Hi Hb Hh) as (Hc & _ & Hb1).
  assert (applied w1 `sublist_of` committed_commands w1) as Ha1.
  { rewrite (core_post_commands _ _ _ _ Hi Hc).
    destruct (cp_applied _ _ _ _ _ _ Hc) as (dn & rest & -> & -> & _).
    apply sublist_app; [done|]. by apply sublist_inserts_r. }
  destruct (apply_failure r); [by simplify_eq|]. by apply (IH w1 (cp_inv _ _ _ _ _ _ Hc) Hb1 Ha1).
Qed.

Lemma serve_applied (envs : list RpcEnvelope) w w' (halted : bool) :
  winv w -> al_end (wlog w) + total_entries envs <= u64_max ->
  applied w = committed_commands w -> notified w = committed_commands w ->
  serve envs w = (w', halted) -> records_decode w' ->
  exists rest, committed_commands w' = applied w' ++ rest /\
    (halted = false -> rest = [] /\ notified w' = committed_commands w').
Proof.
  revert w. induction envs as [|env envs IH]; intros w Hi Hb Ha Hn Hs Hd; cbn [serve] in Hs.
  { simplify_eq. exists []. by rewrite app_nil_r. }
  destruct (handle env w) as [w1 r] eqn:Hh. destruct (serve_step env envs w w1 r Hi Hb Hh) as (Hc & _ & Hb1).
  pose proof (core_post_commands _ _ _ _ Hi Hc) as Hcc.
  destruct (cp_applied _ _ _ _ _ _ Hc) as (dn & rest & C6 & C6' & C6'').
  destruct (apply_failure r) eqn:Haf; simplify_eq.
  - exists rest. split; [|done]. by rewrite Hcc, C6, C6', Ha, app_assoc.
  - destruct (serve_committed envs w1 w' halted (cp_inv _ _ _ _ _ _ Hc) Hb1 Hs) as [_ Hp].
    pose proof (decoded_failure _ _ _ _ _ Hi Hc Hp Hd Haf) as Hcf.
    specialize (C6'' Hcf) as ->. rewrite app_nil_r in C6.
    eapply (IH w1); [apply Hc|done| | |done|done].
    + by rewrite Hcc, C6, C6', Ha.
    + by rewrite Hcc, (cp_notified _ _ _ _ _ _ Hc), Hcf, Hn.
Qed.

(** C3: exactly-once, in-order application.  A follower whose application has
    seen exactly the committed commands is given any sequence of messages; it
    halts only when the state machine refuses a command, and goes on after any
    other error.  In every case what has been applied is a subsequence of the
    committed commands: none is applied twice, uncommitted or out of order.  If
    moreover every committed voters record decodes, nothing is skipped: as
    long as the node has not halted, the state machine has applied exactly the
    commands below the high watermark and the listener has been handed the same
    ones; if it has halted, what was applied is a prefix of them. *)
Theorem commands_applied_exactly_once (envs : list RpcEnvelope) w w' (halted : bool) :
  winv w -> al_end (wlog w) + total_entries envs <= u64_max ->
  applied w = committed_commands w -> notified w = committed_commands w ->
  serve envs w = (w', halted) ->
  applied w' `sublist_of` committed_commands w' /\
  (records_decode w' ->
     (halted = false -> applied w' = committed_commands w' /\ notified w' = committed_commands w') /\
     applied w' `prefix_of` committed_commands w').
Proof.
  intros Hi Hb Ha Hn Hs. split; [by eapply serve_in_order; [..|rewrite Ha|done]|]. intros Hd.
  destruct (serve_applied _ _ _ _ Hi Hb Ha Hn Hs Hd) as (rest & Hr & Hh).
  split; [|by exists rest]. intros ->. destruct (Hh eq_refl) as [-> ?].
  by rewrite app_nil_r in Hr.
Qed.

(** ** The I/O batch *)

(** The I/O batch mirrors memory.  When a message is accepted, the
    appends and truncations of the returned batch, run in order on a durable
    log equal to the follower's log before the message, give the follower's
    log after it. *)
Theorem batch_mirrors_log (env : RpcEnvelope) w w' (res : FetchResponseResult) :
  only_sends (SC := SC) -> winv w -> fits env w -> handle env w = (w', Ok res) ->
  foldl exec_log (wlog w) (io_batch res) = wlog w'.
Proof.
  intros Hso Hi Hf Hr.
  pose proof (wp_run _ _ _ _ _ (wp_handle_message env w Hi Hf) Hr) as [_ Hb].
  destruct (Hb Hso res eq_refl) as (w1 & d & _ & Hres).
  destruct (Hres res eq_refl) as (_ & b & Hbatch & Hl & _). rewrite Hbatch, <- Hl.
  destruct d; [|done]. cbn [push_quorum]. unfold batch_push. by rewrite foldl_app.
Qed.

(** C18: A term or leader change is handed to the disk.  When a message is
    accepted, either term, vote and leader are those of before and the batch
    persists no voting state, or the last action of the batch, and no other,
    persists exactly the new term, vote and leader. *)
Theorem identity_change_persisted (env : RpcEnvelope) w w' (res : FetchResponseResult) :
  only_sends (SC := SC) -> winv w -> fits env w -> handle env w = (w', Ok res) ->
  (identity (base (state w')) = identity (base (state w)) /\
   existsb is_persist (io_batch res) = false) \/
  (exists b, io_batch res = b ++ [PersistQuorumState (quorum_state_of (base (state w')))] /\
             existsb is_persist b = false).
Proof.
  intros Hso Hi Hf Hr.
  pose proof (wp_run _ _ _ _ _ (wp_handle_message env w Hi Hf) Hr) as [_ Hb].
  destruct (Hb Hso res eq_refl) as (w1 & d & (_ & _ & Hv) & Hres).
  destruct (Hres res eq_refl) as (Hid & b & Hbatch & _ & Hp).
  destruct d as [qs|]; [right|left].
  - exists b. split; [|done]. rewrite Hbatch. cbn [push_quorum]. unfold batch_push.
    destruct Hv as (-> & _). unfold quorum_state_of. unfold identity in Hid.
    injection Hid as _ _ H1 H2 _ H3. by rewrite H1, H2, H3.
  - subst w1. by rewrite Hbatch.
Qed.

(** ** Rejections *)

(** A response this follower must not act on. *)
Definition unacceptable (env : RpcEnvelope) w : Prop :=
  let s := base (state w) in
  env_cluster_id env <> cluster_id s \/
  match env_payload env with
  | PFetchResponse resp =>
      env_source env <> fr_leader_id resp \/
      fr_leader_epoch resp < current_term s \/
      (fr_leader_epoch resp = current_term s /\
       (role s <> Follower \/ exists l, leader_id s = Some l /\ l <> fr_leader_id resp))
  | _ => True
  end.

(** C40: Responses of another cluster, of a source that is not the leader
    they name, of an older term, of the same term while not a follower or
    from a leader other than the known one, and all other message types are
    refused with an error and without any effect. *)
Theorem unacceptable_rejected (env : RpcEnvelope) w :
  unacceptable env w -> exists e, handle env w = (w, Err e).
Proof.
  unfold unacceptable, handle_message, handle_fetch_response, validate_and_update_term, get, se_bind,
    se_get, se_throw. intros Hu. destruct (env_cluster_id env =? _) eqn:Ec; [|by eexists].
  cbn [negb]. destruct Hu as [Hu|Hu]; [lia|].
  destruct (env_payload env) as [a|a|a|resp|a|a|a|a|a|a b]; try (by eexists).
  destruct (env_source env =? fr_leader_id resp) eqn:Es; [|by eexists]. cbn [negb].
  destruct Hu as [Hu|[Hu|[Hu1 Hu2]]]; [lia| |].
  - replace (fr_leader_epoch resp <? _) with true by lia. by eexists.
  - replace (fr_leader_epoch resp <? _) with false by lia.
    replace (_ <? fr_leader_epoch resp) with false by lia.
    destruct (role_eqb _ Follower) eqn:Er; [|by eexists]. apply role_eqb_spec in Er. cbn [negb].
    destruct Hu2 as [?|(l & -> & Hl)]; [done|].
    replace (fr_leader_id resp =? l) with false by lia. by eexists.
Qed.

(** ** Divergence *)

(** C17: Divergence.  A well-formed response of the current leader that
    reports a diverging epoch truncates the log at the smaller of the
    reported offset and the log end, drops exactly the futures parked at or
    above that point and no others, drops a pending membership change at or
    above it, and asks for the entries from there; if the point lies below
    the high watermark it is refused and log, watermark, futures and
    pending change stay as they are. *)
Theorem divergence_truncates (response : FetchResponse) (d : DivergingEpoch) w w'
    (r : Result FetchResponseResult) :
  let p := truncation_point d w in
  winv w -> fr_diverging_epoch response = Some d -> fr_snapshot_id response = None ->
  fr_leader_epoch response = current_term (base (state w)) ->
  role (base (state w)) = Follower ->
  leader_id (base (state w)) = Some (fr_leader_id response) ->
  handle_fetch_response as_app_record deserialize_voters mgr response w = (w', r) ->
  (hw w <= p /\ truncated p w w' /\
   r = Ok (mkFetchResult (push_fetch mgr [TruncateSuffix p] (state w')) false)) \/
  (p < hw w /\ (exists e, r = Err e) /\ wlog w' = wlog w /\ hw w' = hw w /\
   completion_queue w' = completion_queue w /\
   pending_membership_change (base (state w')) = pending_membership_change (base (state w))).
Proof.
  intros p Hi Hd Hsn He Hro Hl.
  assert (both_fields response = false) as Hbf by (unfold both_fields; by rewrite Hsn).
  set (Q := fun w' (r : Result FetchResponseResult) =>
    (hw w <= p /\ truncated p w w' /\
     r = Ok (mkFetchResult (push_fetch mgr [TruncateSuffix p] (state w')) false)) \/
    (p < hw w /\ (exists e, r = Err e) /\ wlog w' = wlog w /\ hw w' = hw w /\
     completion_queue w' = completion_queue w /\
     pending_membership_change (base (state w')) = pending_membership_change (base (state w)))).
  apply (wp_run _ Q). unfold handle_fetch_response. apply wp_bind. unfold wp at 1.
  rewrite validate_accepts by done. cbn [fst snd]. rewrite Hbf, Hsn, Hd. apply wp_bind.
  apply wp_reset_timers. intros c te tf.
  eapply wp_mono; [apply wp_handle_divergence; by apply (quiet_winv w)|].
  intros w2 [res|e] H; [left|right].
  - destruct H as (? & [T1 T2 T3 T4 T5 T6 T7 T8 T9] & ->). split_and!; [done| |done]. by split.
  - destruct H as (-> & ? & _). split_and!; try done. by eexists.
Qed.
End Claims.

(** ** A concrete follower *)

Module FollowerDemo.

Import Mocks Replication.

(** A log that starts at offset 0. *)
#[global] Instance list_InMemoryLog : InMemoryLog (list LogEntry) := {|
  iml_append_entries es p := (p.1 ++ es, p.2 + N.of_nat (length es));
  iml_truncate_suffix from p := (list_filter (fun e => offset e <? from) p.1, from);
  iml_entries_in_range a b l := list_filter (fun e => (a <=? offset e) && (offset e <? b)) l;
  iml_last_log_term l := match last l with Some e => term e | None => 0 end;
|}.

#[global] Instance list_InMemoryLogLaws : InMemoryLogLaws (list LogEntry).
Proof.
  refine {| iml_abs l := mkAbsLog 0 l |}; [|done|done].
  intros es l e _ -> _. split; [done|]. cbn. unfold al_end, al_append. cbn. rewrite length_app. lia.
Defined.

(** A state machine that records what it applies and fails at one offset,
    and a listener that records its batches. *)
Record Recorder := mkRecorder { rec_applied : list (N * AppRecord); fail_at : option N }.

#[global] Instance recorder_StateMachine : StateMachine Recorder := {|
  sm_apply off r s :=
    if bool_decide (fail_at s = Some off) then (s, Err (StateMachineApplyError off))
    else (mkRecorder (rec_applied s ++ [(off, r)]) (fail_at s), Ok tt);
  sm_restore _ := se_ret tt;
|}.

#[global] Instance recorder_StateMachineTrace : StateMachineTrace Recorder.
Proof.
  refine {| sm_applied := rec_applied |}. cbn. intros off r s s' res.
  destruct (bool_decide _); intros [= <- <-]; cbn; [by rewrite app_nil_r|done].
Defined.

Record Batches := mkBatches { batches : list (N * AppRecord) }.

#[global] Instance batches_Listener : Listener Batches := {|
  li_handle_commit b l := mkBatches (batches l ++ b);
  li_handle_load_snapshot _ _ l := l;
  li_handle_leader_change _ _ l := l;
  li_begin_shutdown l := l;
|}.

#[global] Instance batches_ListenerTrace : ListenerTrace Batches.
Proof. by refine {| li_committed := batches |}. Defined.

Definition record_of (e : LogEntry) : AppRecord := mkAppRecord (payload e).
Definition no_voters (b : bytes) : Result VotersRecord := Err (SerializationError "malformed"%string).
Definition mgr : ReplicationManager := manager_new default_inner.

Abbreviation DWorld := (World (list LogEntry) Recorder Batches DefaultSnapshotCoordinator MockClock).

(** Node 2 follows node 1 in term 1 with two entries, none committed. *)
Definition cmd (o : N) : LogEntry := mkLogEntry o 1 Command [].
Definition follower_state : NodeState :=
  (new_unattached 2 0) <| cluster_id := 7 |> <| current_term := 1 |> <| role := Follower |>
                       <| leader_id := Some 1 |> <| NodeState.log_end_offset := 2 |>.
Definition follower : DWorld :=
  mkWorld _ _ _ _ _ (mkFollower _ follower_state [cmd 0; cmd 1] 0 ∅) (mkRecorder [] None)
    (mkBatches []) dcq_new [] [] (coordinator_new 1024) (clock_new 0).

Lemma follower_winv : winv follower.
Proof. split; [done|done|by vm_compute|]. apply dcq_inv_new. Qed.

Lemma default_only_sends : only_sends (SC := DefaultSnapshotCoordinator).
Proof. intros leader sid s c c' b [= <- <-]. done. Qed.

Definition from_leader (r : FetchResponse) : RpcEnvelope := mkRpcEnvelope 7 1 1 (PFetchResponse r).
Definition append_msg : RpcEnvelope :=
  from_leader (mkFetchResponse 1 1 3 0 [cmd 2; cmd 3] None None).
Definition diverge : FetchResponse :=
  mkFetchResponse 1 1 0 0 [] (Some (mkDivergingEpoch 1 1)) None.

Abbreviation run := (handle_message record_of no_voters mgr).

Lemma high_watermark_never_decreases_witness :
  winv (run append_msg follower).1 /\ hw follower <= hw (run append_msg follower).1.
Proof.
  destruct (high_watermark_never_decreases record_of no_voters mgr append_msg follower
    (run append_msg follower).1 (run append_msg follower).2) as (H1 & H2 & _);
    [apply follower_winv|by vm_compute|apply surjective_pairing|]. done.
Defined.

Lemma commands_applied_exactly_once_witness :
  applied (serve record_of no_voters mgr [append_msg; from_leader diverge] follower).1
  = map (fun e => (offset e, record_of e)) [cmd 0; cmd 1; cmd 2].
Proof.
  destruct (commands_applied_exactly_once record_of no_voters mgr
    [append_msg; from_leader diverge] follower
    (serve record_of no_voters mgr [append_msg; from_leader diverge] follower).1 false)
    as [_ Hd]; [apply follower_winv|by vm_compute|done|done|by vm_compute|].
  destruct Hd as [Hh _]; [|destruct (Hh eq_refl) as [-> _]; by vm_compute].
  repeat (constructor; [by intros [[=] _]|]). constructor.
Defined.

Lemma batch_mirrors_log_witness :
  exists res, run append_msg follower = ((run append_msg follower).1, Ok res) /\
    foldl exec_log (wlog follower) (io_batch res) = wlog (run append_msg follower).1.
Proof.
  eexists. split; [by vm_compute|].
  apply (batch_mirrors_log record_of no_voters mgr append_msg follower);
    [apply default_only_sends|apply follower_winv|by vm_compute|by vm_compute].
Defined.

Definition new_term_msg : RpcEnvelope := from_leader (mkFetchResponse 1 4 0 0 [] None None).

Lemma identity_change_persisted_witness :
  exists res, run new_term_msg follower = ((run new_term_msg follower).1, Ok res) /\
    exists b, io_batch res =
      b ++ [PersistQuorumState (quorum_state_of (base (state (run new_term_msg follower).1)))].
Proof.
  eexists. split; [by vm_compute|].
  edestruct (identity_change_persisted record_of no_voters mgr new_term_msg follower
    (run new_term_msg follower).1) as [[H _]|(b & Hb & _)];
    [apply default_only_sends|apply follower_winv|by vm_compute|by vm_compute| |].
  - by vm_compute in H.
  - exists b. exact Hb.
Defined.

Definition stale_msg : RpcEnvelope := from_leader (mkFetchResponse 1 0 3 0 [] None None).

Lemma unacceptable_rejected_witness : exists e, run stale_msg follower = (follower, Err e).
Proof. apply unacceptable_rejected. right. right; left. by vm_compute. Defined.

Lemma divergence_truncates_witness :
  let w' := (handle_fetch_response record_of no_voters mgr diverge follower).1 in
  truncated 1 follower w' /\ wlog w' = mkAbsLog 0 [cmd 0].
Proof.
  cbn zeta. split; [|by vm_compute].
  destruct (divergence_truncates record_of no_voters mgr diverge (mkDivergingEpoch 1 1) follower
    (handle_fetch_response record_of no_voters mgr diverge follower).1
    (handle_fetch_response record_of no_voters mgr diverge follower).2)
    as [(_ & H & _)|(H & _)]; [apply follower_winv|done|done|done|done|done|apply surjective_pairing| |].
  - exact H.
  - by vm_compute in H.
Defined.

(** ** Two deviations *)

(** A committed voters record that does not decode fails the commit phase
    after the watermark has moved, with an ordinary error: the follower goes
    on, and the commands committed behind the record are never applied. *)
Definition malformed : RpcEnvelope :=
  from_leader (mkFetchResponse 1 1 4 0 [mkLogEntry 2 1 VotersRecordEntry []; cmd 3] None None).
Definition next_msg : RpcEnvelope :=
  from_leader (mkFetchResponse 1 1 5 0 [cmd 4] None None).

Lemma malformed_voters_record_skips_commands :
  let w1 := (run malformed follower).1 in
  let w2 := (run next_msg w1).1 in
  (run malformed follower).2
    = Err (InvalidResponse "failed to deserialize VotersRecord"%string) /\
  is_ok (run next_msg w1).2 = true /\ hw w2 = 5 /\
  map fst (applied w2) = [0; 1; 4] /\
  map fst (committed_commands record_of w2) = [0; 1; 3; 4].
Proof. by vm_compute. Qed.

(** A response of a higher term that fails a later check has already changed
    term, vote and leader in memory, and no batch persists them. *)
Definition new_term_gap : RpcEnvelope := from_leader (mkFetchResponse 1 4 0 0 [cmd 9] None None).

Lemma rejected_response_changes_term :
  is_ok (run new_term_gap follower).2 = false /\
  current_term (base (state follower)) = 1 /\
  current_term (base (state (run new_term_gap follower).1)) = 4.
Proof. by vm_compute. Qed.

End FollowerDemo.
