(* ===== verification/IoStage.v ===== *)
(** * Executing I/O batches

    The two versions of [IoStage]: [xraft-core/src/io_stage.rs], which joins a
    log, a snapshot and a network group and collects every result, and the one
    of [xraft-core/src/io_action.rs], which joins a storage and a network group
    and stops at the first error.  A joined future is a sequence of awaited
    calls; [tokio::join!] may interleave the groups in any order between the
    calls, which the step relations below say.  Each call is one step. *)

From Stdlib Require Import ZifyBool ZifyN ZifyNat Lia Sorted.
From stdpp Require Import base list relations numbers option strings sorting sets.
From S2P Require Import Prelude Types NodeState Interfaces Mocks.

Module Joined.

(** The actions this version matches on. *)
Inductive Action :=
| AppendLog (entries : list LogEntry)
| TruncateSuffix (from : N)
| TruncatePrefix (up_to : N)
| SaveSnapshot (snap : Snapshot)
| SendRpc (target : NodeId) (env : RpcEnvelope).

Inductive IoResult :=
| SnapshotSaved
| SnapshotSaveFailed (e : XraftError)
| PrefixTruncated
| PrefixTruncateFailed (e : XraftError)
| LogAppended
| SuffixTruncated
| RpcSent
| RpcFailed (e : XraftError)
| StorageFailed (e : XraftError).

Inductive Group := LogGroup | SnapGroup | NetGroup.

Definition group_eqb (a b : Group) : bool :=
  match a, b with
  | LogGroup, LogGroup | SnapGroup, SnapGroup | NetGroup, NetGroup => true
  | _, _ => false
  end.

Lemma group_eqb_spec (a b : Group) : group_eqb a b = true <-> a = b.
Proof. by destruct a, b. Qed.

Definition group_of (a : Action) : Group :=
  match a with
  | AppendLog _ | TruncateSuffix _ | TruncatePrefix _ => LogGroup
  | SaveSnapshot _ => SnapGroup
  | SendRpc _ _ => NetGroup
  end.

Section Stage.
Context {L S N' : Type} `{LogStore L} `{SnapshotIO S} `{TransportSender N'}.

Record IoStage := mkStage { log_store : L; snapshot_io : S; network : N' }.

(** One action: the body of the group it belongs to. *)
Definition exec_one (a : Action) (st : IoStage) : IoStage * IoResult :=
  match a with
  | AppendLog es =>
      let (l, r) := ls_append es (log_store st) in
      (mkStage l (snapshot_io st) (network st),
       match r with Ok _ => LogAppended | Err e => StorageFailed e end)
  | TruncateSuffix from =>
      let (l, r) := ls_truncate_suffix from (log_store st) in
      (mkStage l (snapshot_io st) (network st),
       match r with Ok _ => SuffixTruncated | Err e => StorageFailed e end)
  | TruncatePrefix up_to =>
      let (l, r) := ls_truncate_prefix up_to (log_store st) in
      (mkStage l (snapshot_io st) (network st),
       match r with Ok _ => PrefixTruncated | Err e => PrefixTruncateFailed e end)
  | SaveSnapshot snap =>
      let (s, r) := sio_save snap (snapshot_io st) in
      (mkStage (log_store st) s (network st),
       match r with Ok _ => SnapshotSaved | Err e => SnapshotSaveFailed e end)
  | SendRpc target env =>
      let (n, r) := ts_send target env (network st) in
      (mkStage (log_store st) (snapshot_io st) n,
       match r with Ok _ => RpcSent | Err e => RpcFailed e end)
  end.

(** A group run to its end. *)
Fixpoint exec_group (actions : list (nat * Action)) (st : IoStage) (results : list (nat * IoResult))
  : IoStage * list (nat * IoResult) :=
  match actions with
  | [] => (st, results)
  | (idx, a) :: actions' =>
      let (st', r) := exec_one a st in exec_group actions' st' (results ++ [(idx, r)])
  end.

(** [batch.drain().enumerate()] and the three vectors. *)
Definition enumerate (start : nat) (batch : list Action) : list (nat * Action) :=
  zip (seq start (length batch)) batch.
Definition partition_group (g : Group) (actions : list (nat * Action)) : list (nat * Action) :=
  list_filter (fun ia => group_eqb (group_of ia.2) g) actions.

(** ** The joined futures *)

Record Joint := mkJoint {
  pending : Group -> list (nat * Action);
  stage : IoStage;
  results : Group -> list (nat * IoResult);
}.

Definition set_group {A : Type} (g : Group) (x : A) (f : Group -> A) : Group -> A :=
  fun g' => if group_eqb g' g then x else f g'.

Definition start (batch : list Action) (st : IoStage) : Joint :=
  mkJoint (fun g => partition_group g (enumerate 0 batch)) st (fun _ => []).

(** One group performs its next call. *)
Inductive poll : Joint -> Joint -> Prop :=
| poll_group j g idx a rest st' r :
    pending j g = (idx, a) :: rest -> exec_one a (stage j) = (st', r) ->
    poll j (mkJoint (set_group g rest (pending j)) st'
              (set_group g (results j g ++ [(idx, r)]) (results j))).

Definition joined (j : Joint) : Prop := forall g, pending j g = [].

(** The merge of the results after the join. *)
Definition by_index (a b : nat * IoResult) : Prop := (a.1 <= b.1)%nat.
#[local] Instance by_index_dec : RelDecision by_index.
Proof. intros a b. unfold by_index. apply _. Defined.
#[local] Instance by_index_total : Total by_index.
Proof. intros a b. unfold by_index. lia. Qed.
#[local] Instance by_index_trans : Transitive by_index.
Proof. intros a b c. unfold by_index. lia. Qed.

Definition merged (j : Joint) : list IoResult :=
  map snd (merge_sort by_index (results j LogGroup ++ results j SnapGroup ++ results j NetGroup)).

(** The groups one after the other, one of the schedules. *)
Definition execute (batch : list Action) (st : IoStage) : IoStage * list IoResult :=
  let actions := enumerate 0 batch in
  let (st1, log_results) := exec_group (partition_group LogGroup actions) st [] in
  let (st2, snap_results) := exec_group (partition_group SnapGroup actions) st1 [] in
  let (st3, net_results) := exec_group (partition_group NetGroup actions) st2 [] in
  (st3, map snd (merge_sort by_index (log_results ++ snap_results ++ net_results))).

(** The reference: the actions one by one, in the order of the batch. *)
Fixpoint exec_sequential (batch : list Action) (st : IoStage) : IoStage * list IoResult :=
  match batch with
  | [] => (st, [])
  | a :: batch' =>
      let (st', r) := exec_one a st in
      let (st'', rs) := exec_sequential batch' st' in (st'', r :: rs)
  end.

(** ** Independence of the groups *)

(** An action works on the component of its group only. *)
Definition local_to (g : Group) (a : Action) : Prop :=
  match g with
  | LogGroup => exists f : L -> L * IoResult, forall st,
      exec_one a st = (mkStage (f (log_store st)).1 (snapshot_io st) (network st), (f (log_store st)).2)
  | SnapGroup => exists f : S -> S * IoResult, forall st,
      exec_one a st = (mkStage (log_store st) (f (snapshot_io st)).1 (network st), (f (snapshot_io st)).2)
  | NetGroup => exists f : N' -> N' * IoResult, forall st,
      exec_one a st = (mkStage (log_store st) (snapshot_io st) (f (network st)).1, (f (network st)).2)
  end.

Lemma exec_one_local (a : Action) : local_to (group_of a) a.
Proof.
  destruct a as [es|from|up|snap|t env]; cbn.
  - exists (fun l => let (l', r) := ls_append es l in
      (l', match r with Ok _ => LogAppended | Err e => StorageFailed e end)).
    intros st. by destruct (ls_append es (log_store st)).
  - exists (fun l => let (l', r) := ls_truncate_suffix from l in
      (l', match r with Ok _ => SuffixTruncated | Err e => StorageFailed e end)).
    intros st. by destruct (ls_truncate_suffix from (log_store st)).
  - exists (fun l => let (l', r) := ls_truncate_prefix up l in
      (l', match r with Ok _ => PrefixTruncated | Err e => PrefixTruncateFailed e end)).
    intros st. by destruct (ls_truncate_prefix up (log_store st)).
  - exists (fun l => let (l', r) := sio_save snap l in
      (l', match r with Ok _ => SnapshotSaved | Err e => SnapshotSaveFailed e end)).
    intros st. by destruct (sio_save snap (snapshot_io st)).
  - exists (fun l => let (l', r) := ts_send t env l in
      (l', match r with Ok _ => RpcSent | Err e => RpcFailed e end)).
    intros st. by destruct (ts_send t env (network st)).
Qed.

Lemma exec_one_commute (a b : Action) (st st1 st2 : IoStage) (ra rb : IoResult) :
  group_of a <> group_of b -> exec_one a st = (st1, ra) -> exec_one b st = (st2, rb) ->
  exists st3, exec_one b st1 = (st3, rb) /\ exec_one a st2 = (st3, ra).
Proof.
  intros Hne. pose proof (exec_one_local a) as Ha. pose proof (exec_one_local b) as Hb.
  destruct (group_of a), (group_of b); try done; destruct Ha as [f Hf], Hb as [h Hh];
    rewrite Hf, Hh; intros [= <- <-] [= <- <-]; rewrite Hf, Hh; eauto.
Qed.

Lemma exec_group_acc (acts : list (nat * Action)) (st : IoStage) (rs : list (nat * IoResult)) :
  exec_group acts st rs = let (st', rs') := exec_group acts st [] in (st', rs ++ rs').
Proof.
  revert st rs. induction acts as [|[i a] acts IH]; intros st rs; cbn; [by rewrite app_nil_r|].
  destruct (exec_one a st) as [st' r]. rewrite (IH st' (rs ++ _)), (IH st' [_]).
  destruct (exec_group acts st' []) as [st'' rs']. by rewrite <- app_assoc.
Qed.

Lemma exec_group_past (g : Group) (a : Action) (acts : list (nat * Action)) (st st1 st2 : IoStage) r rs :
  group_of a = g -> Forall (fun ib => group_of ib.2 <> g) acts ->
  exec_one a st = (st1, r) -> exec_group acts st [] = (st2, rs) ->
  exists st3, exec_group acts st1 [] = (st3, rs) /\ exec_one a st2 = (st3, r).
Proof.
  intros Ha Hall. revert st st1 st2 rs. induction Hall as [|[i b] acts Hb _ IH]; intros st st1 st2 rs E1 E2.
  - cbn in *. simplify_eq. eauto.
  - cbn in E2 |- *. destruct (exec_one b st) as [stb rb] eqn:Eb.
    destruct (exec_one_commute a b st st1 stb r rb) as (st3 & -> & E3); [cbn in Hb; congruence|done|done|].
    rewrite exec_group_acc in E2. rewrite exec_group_acc.
    destruct (exec_group acts stb []) as [st4 rs4] eqn:E4. injection E2 as <- <-.
    destruct (IH _ _ _ _ E3 E4) as (st5 & -> & E5). eauto.
Qed.

(** Running what is left of each group, one group after the other. *)
Definition finish (pend : Group -> list (nat * Action)) (st : IoStage) : IoStage * (Group -> list (nat * IoResult)) :=
  let (st1, rl) := exec_group (pend LogGroup) st [] in
  let (st2, rs) := exec_group (pend SnapGroup) st1 [] in
  let (st3, rn) := exec_group (pend NetGroup) st2 [] in
  (st3, fun g => match g with LogGroup => rl | SnapGroup => rs | NetGroup => rn end).

Definition grouped (pend : Group -> list (nat * Action)) : Prop :=
  forall g, Forall (fun ib => group_of ib.2 = g) (pend g).

Lemma grouped_other (pend : Group -> list (nat * Action)) (g g' : Group) :
  grouped pend -> g' <> g -> Forall (fun ib => group_of ib.2 <> g) (pend g').
Proof. intros Hg Hne. eapply Forall_impl; [apply Hg|]. cbn. congruence. Qed.

Lemma exec_group_cons (i : nat) (a : Action) (acts : list (nat * Action)) (st st1 st2 : IoStage) r rs :
  exec_one a st = (st1, r) -> exec_group acts st1 [] = (st2, rs) ->
  exec_group ((i, a) :: acts) st [] = (st2, (i, r) :: rs).
Proof. intros E1 E2. cbn. rewrite E1, exec_group_acc, E2. done. Qed.

(** Whichever group moves first, the end is the same. *)
Lemma finish_step (pend : Group -> list (nat * Action)) (g : Group) (i : nat) (a : Action)
    (rest : list (nat * Action)) (st st' : IoStage) (r : IoResult) :
  grouped pend -> pend g = (i, a) :: rest -> exec_one a st = (st', r) ->
  exists st2 R R', finish (set_group g rest pend) st' = (st2, R') /\ finish pend st = (st2, R) /\
    forall g', R g' = if group_eqb g' g then (i, r) :: R' g' else R' g'.
Proof.
  intros Hg Hp Ea. assert (group_of a = g) as Hga.
  { pose proof (Hg g) as Hall. rewrite Hp in Hall. by apply list.Forall_cons in Hall as [? _]. }
  pose proof (fun g' => grouped_other pend g g' Hg) as Hoth. unfold finish.
  destruct g; unfold set_group; cbn [group_eqb]; rewrite Hp.
  - destruct (exec_group rest st' []) as [s1 rl] eqn:E1. rewrite (exec_group_cons i a rest st st' s1 r rl Ea E1).
    destruct (exec_group (pend SnapGroup) s1 []) as [s2 rs], (exec_group (pend NetGroup) _ []) as [s3 rn] eqn:E3.
    eexists _, _, _. split_and!; [done|done|]. by intros [].
  - destruct (exec_group (pend LogGroup) st []) as [s1 rl] eqn:E1.
    destruct (exec_group_past SnapGroup a (pend LogGroup) st st' s1 r rl) as (s1' & -> & Ea'); [done|by apply Hoth|done|done|].
    destruct (exec_group rest s1' []) as [s2 rs] eqn:E2. rewrite (exec_group_cons i a rest s1 s1' s2 r rs Ea' E2).
    destruct (exec_group (pend NetGroup) _ []) as [s3 rn] eqn:E3.
    eexists _, _, _. split_and!; [done|done|]. by intros [].
  - destruct (exec_group (pend LogGroup) st []) as [s1 rl] eqn:E1.
    destruct (exec_group_past NetGroup a (pend LogGroup) st st' s1 r rl) as (s1' & -> & Ea'); [done|by apply Hoth|done|done|].
    destruct (exec_group (pend SnapGroup) s1 []) as [s2 rs] eqn:E2.
    destruct (exec_group_past NetGroup a (pend SnapGroup) s1 s1' s2 r rs) as (s2' & -> & Ea''); [done|by apply Hoth|done|done|].
    destruct (exec_group rest s2' []) as [s3 rn] eqn:E3. rewrite (exec_group_cons i a rest s2 s2' s3 r rn Ea'' E3).
    eexists _, _, _. split_and!; [done|done|]. by intros [].
Qed.

Lemma grouped_set (pend : Group -> list (nat * Action)) (g : Group) (x : nat * Action) (rest : list (nat * Action)) :
  grouped pend -> pend g = x :: rest -> grouped (set_group g rest pend).
Proof.
  intros Hg Hp g'. unfold set_group. destruct (group_eqb g' g) eqn:E; [|apply Hg].
  apply group_eqb_spec in E as ->. pose proof (Hg g) as Hall. rewrite Hp in Hall.
  by apply list.Forall_cons in Hall as [_ ?].
Qed.

Lemma grouped_partition (acts : list (nat * Action)) : grouped (fun g => partition_group g acts).
Proof.
  intros g. apply list.Forall_forall. intros x [_ Hx]%elem_of_list_filter_b. by apply group_eqb_spec.
Qed.

(** The actions in the order of the batch, with their indices. *)
Lemma finish_sequential (batch : list Action) (k : nat) (st st' : IoStage) (rs : list IoResult) :
  exec_sequential batch st = (st', rs) ->
  exists R, finish (fun g => partition_group g (enumerate k batch)) st = (st', R) /\
    R LogGroup ++ R SnapGroup ++ R NetGroup ≡ₚ zip (seq k (length batch)) rs /\ length rs = length batch.
Proof.
  revert k st rs. induction batch as [|a batch IH]; intros k st rs E; cbn [exec_sequential] in E.
  - injection E as <- <-. by exists (fun g => match g with LogGroup => [] | SnapGroup => [] | NetGroup => [] end).
  - destruct (exec_one a st) as [st1 r] eqn:Ea. destruct (exec_sequential batch st1) as [st2 rs2] eqn:Er.
    injection E as <- <-. destruct (IH (Datatypes.S k) st1 rs2 Er) as (R & Hf & Hp & Hl).
    set (pend := fun g => partition_group g (enumerate k (a :: batch))).
    destruct (finish_step pend (group_of a) k a (partition_group (group_of a) (enumerate (Datatypes.S k) batch)) st st1 r)
      as (s2 & R1 & R2 & E1 & E2 & E3); [apply grouped_partition| |done|].
    { unfold pend, partition_group, enumerate. cbn. by destruct (group_of a). }
    assert (forall g, set_group (group_of a) (partition_group (group_of a) (enumerate (Datatypes.S k) batch)) pend g
      = partition_group g (enumerate (Datatypes.S k) batch)) as Hset.
    { intros g. unfold set_group, pend, partition_group, enumerate. cbn [length seq zip zip_with list_filter snd].
      destruct g, (group_of a); done. }
    unfold finish in E1, Hf. rewrite !Hset in E1. rewrite Hf in E1. injection E1 as <- <-.
    exists R1. split; [done|]. cbn [length seq zip zip_with]. split; [|by rewrite Hl].
    rewrite <- Hp, !E3. destruct (group_of a); cbn; [done|solve_Permutation..].
Qed.

Lemma elem_of_indexed (k n : nat) (rs : list IoResult) (i : nat) (r : IoResult) :
  (i, r) ∈ zip (seq k n) rs -> (k <= i)%nat /\ rs !! (i - k)%nat = Some r.
Proof.
  revert k n. induction rs as [|r0 rs IH]; intros k [|n] Hin; cbn in Hin; try by apply not_elem_of_nil in Hin.
  apply elem_of_cons in Hin as [Heq|Hin].
  - simplify_eq. by rewrite Nat.sub_diag.
  - apply IH in Hin as [Hk Hr]. split; [lia|]. by replace (i - k)%nat with (Datatypes.S (i - Datatypes.S k)) by lia.
Qed.

Lemma indexed_sorted (k n : nat) (rs : list IoResult) : StronglySorted by_index (zip (seq k n) rs).
Proof.
  revert k n. induction rs as [|r rs IH]; intros k [|n]; cbn; constructor; [done|].
  apply list.Forall_forall. intros [i r'] [Hk _]%elem_of_indexed. unfold by_index. cbn. lia.
Qed.

Lemma merge_indexed (k n : nat) (rs : list IoResult) (xs : list (nat * IoResult)) :
  length rs = n -> xs ≡ₚ zip (seq k n) rs -> map snd (merge_sort by_index xs) = rs.
Proof.
  intros Hl Hp. assert (merge_sort by_index xs = zip (seq k n) rs) as ->.
  2:{ change (map snd (zip (seq k n) rs)) with ((zip (seq k n) rs).*2). apply snd_zip. rewrite length_seq. lia. }
  apply (StronglySorted_unique_strong by_index).
  - intros [i1 r1] [i2 r2] E1 E2 H12 H21. unfold by_index in *. cbn in *. assert (i1 = i2) as -> by lia. f_equal.
    rewrite merge_sort_Permutation, Hp in E1. apply elem_of_indexed in E1 as [_ E1], E2 as [_ E2]. congruence.
  - apply (StronglySorted_merge_sort by_index).
  - apply indexed_sorted.
  - by rewrite merge_sort_Permutation.
Qed.

(** ** Schedules *)

Lemma poll_finish (j j' : Joint) :
  grouped (pending j) -> poll j j' ->
  grouped (pending j') /\ exists st R R', finish (pending j) (stage j) = (st, R) /\
    finish (pending j') (stage j') = (st, R') /\ forall g, results j g ++ R g = results j' g ++ R' g.
Proof.
  intros Hg Hpoll. inversion Hpoll as [? g i a rest st' r Hp Ea]; subst. split; [by eapply grouped_set|].
  destruct (finish_step _ g i a rest (stage j) st' r Hg Hp Ea) as (s2 & R & R' & E1 & E2 & E3).
  exists s2, R, R'. split_and!; [done|done|]. intros g'. rewrite E3. cbn. unfold set_group.
  destruct (group_eqb g' g) eqn:E; [|done]. apply group_eqb_spec in E as ->. by rewrite <- app_assoc.
Qed.

Lemma schedule_finish (j j' : Joint) :
  rtc poll j j' -> grouped (pending j) ->
  grouped (pending j') /\ exists st R R', finish (pending j) (stage j) = (st, R) /\
    finish (pending j') (stage j') = (st, R') /\ forall g, results j g ++ R g = results j' g ++ R' g.
Proof.
  induction 1 as [j|j1 j2 j3 Hp _ IH]; intros Hg.
  - split; [done|]. destruct (finish (pending j) (stage j)) as [st R]. by exists st, R, R.
  - destruct (poll_finish _ _ Hg Hp) as (Hg2 & st & R & R' & E1 & E2 & E3).
    destruct (IH Hg2) as (Hg3 & st2 & R2 & R3 & F1 & F2 & F3). split; [done|].
    rewrite E2 in F1. injection F1 as <- <-. exists st, R, R3. split_and!; [done|done|].
    intros g. by rewrite E3, F3.
Qed.

Lemma joined_finish (j : Joint) :
  joined j -> finish (pending j) (stage j) = (stage j, fun g => match g with LogGroup => [] | SnapGroup => [] | NetGroup => [] end).
Proof. intros Hj. unfold finish. by rewrite !Hj. Qed.

(** C14: Concurrency changes nothing.  However the runtime interleaves the log,
    snapshot and network groups of a batch, when all three have finished the
    stores, the network and the list of results are those of executing the
    actions one by one in the order of the batch: there is one result per
    action, in order, a failing action does not stop the ones after it; and a
    schedule that is not finished can always go on. *)
Theorem io_stage_sequential (batch : list Action) (st : IoStage) (j : Joint) :
  rtc poll (start batch st) j ->
  (joined j -> exec_sequential batch st = (stage j, merged j) /\ length (merged j) = length batch) /\
  (~ joined j -> exists j', poll j j') /\
  execute batch st = exec_sequential batch st.
Proof.
  intros Hr. destruct (exec_sequential batch st) as [st' rs] eqn:Es.
  destruct (finish_sequential batch 0 st st' rs Es) as (R & Hf & Hp & Hl). split_and!.
  - intros Hj. destruct (schedule_finish _ _ Hr (grouped_partition _)) as (_ & st2 & R1 & R2 & F1 & F2 & F3).
    rewrite joined_finish in F2 by done. injection F2 as <- <-. cbn in F1. rewrite Hf in F1. injection F1 as -> <-.
    assert (merged j = rs) as ->; [|done]. unfold merged. apply (merge_indexed 0 (length batch)); [done|].
    rewrite <- Hp. pose proof (F3 LogGroup) as F3l. pose proof (F3 SnapGroup) as F3s. pose proof (F3 NetGroup) as F3n.
    cbn in F3l, F3s, F3n. rewrite !app_nil_r in F3l, F3s, F3n. by rewrite F3l, F3s, F3n.
  - intros Hj. assert (exists g, pending j g <> []) as [g Hg].
    { destruct (decide (pending j LogGroup = [])) as [E1|]; [|eauto].
      destruct (decide (pending j SnapGroup = [])) as [E2|]; [|eauto].
      destruct (decide (pending j NetGroup = [])) as [E3|]; [|eauto]. destruct Hj. by intros []. }
    destruct (pending j g) as [|[i a] rest] eqn:E; [done|].
    destruct (exec_one a (stage j)) as [s1 r] eqn:Ea. eexists. by econstructor.
  - unfold execute. unfold finish in Hf.
    destruct (exec_group _ st []) as [s1 rl], (exec_group _ s1 []) as [s2 rs2], (exec_group _ s2 []) as [s3 rn].
    injection Hf as -> <-. f_equal. by apply (merge_indexed 0 (length batch)).
Qed.
End Stage.

(** *** Demonstration *)

(** A disk that fails every snapshot. *)
#[local] Instance failing_SnapshotIO : SnapshotIO unit := {|
  sio_save := fun _ s => (s, Err (IoOther "disk full"%string));
  sio_load_latest := fun _ => Ok None;
|}.

Definition demo_snapshot : Snapshot := mkSnapshot (mkSnapshotMetadata 2 1 [] 1) (mkAppSnapshot []).
Definition demo_entries : list LogEntry := [command_entry 0 1 (mkAppRecord []); command_entry 1 1 (mkAppRecord [])].
Definition demo_stage : IoStage (L := Mocks.MockLogStore) (S := unit) (N' := Mocks.MockTransportSender) :=
  mkStage Mocks.log_new tt Mocks.sender_new.
Definition demo_batch : list Action := [AppendLog demo_entries; SaveSnapshot demo_snapshot; TruncatePrefix 2].

(** Let the groups make their calls in a given order. *)
Definition call (j : Joint) (g : Group) : Joint :=
  match pending j g with
  | [] => j
  | (idx, a) :: rest =>
      let (st', r) := exec_one a (stage j) in
      mkJoint (set_group g rest (pending j)) st' (set_group g (results j g ++ [(idx, r)]) (results j))
  end.

Lemma calls_polled (gs : list Group) (j : Joint) : rtc poll j (foldl call j gs).
Proof.
  revert j. induction gs as [|g gs IH]; intros j; cbn; [done|].
  etransitivity; [|apply IH]. unfold call. destruct (pending j g) as [|[idx a] rest] eqn:Ep; [done|].
  destruct (exec_one a (stage j)) as [st' r] eqn:Ea. apply rtc_once. by econstructor.
Qed.

Definition ping : RpcEnvelope := mkRpcEnvelope 7 0 1 (PVoteResponse (mkVoteResponse 5 true false)).
Definition mixed_batch : list Action := demo_batch ++ [SendRpc 2 ping; AppendLog []].

(** The send first, then the snapshot, then the log. *)
Definition mixed_run : Joint :=
  foldl call (start mixed_batch demo_stage) [NetGroup; SnapGroup; LogGroup; LogGroup; LogGroup].

Lemma io_stage_sequential_witness :
  exec_sequential mixed_batch demo_stage = (stage mixed_run, merged mixed_run) /\
  merged mixed_run = [LogAppended; SnapshotSaveFailed (IoOther "disk full"%string); PrefixTruncated;
                      RpcSent; LogAppended].
Proof.
  split; [|reflexivity].
  apply (io_stage_sequential mixed_batch demo_stage mixed_run); [apply calls_polled|].
  intros []; reflexivity.
Defined.

(** The prefix is truncated although the snapshot that was to cover it could
    not be saved: the entries are lost. *)
Lemma truncates_after_failed_snapshot :
  let (st, rs) := execute demo_batch demo_stage in
  rs = [LogAppended; SnapshotSaveFailed (IoOther "disk full"%string); PrefixTruncated] /\
  ls_read 0 9 (log_store st) = Ok [].
Proof. by vm_compute. Qed.

End Joined.

Module TryJoined.

(** ** The version of [io_action.rs] *)

Section Stage.
Context {L T Q S : Type} `{LogStore L} `{TransportSender T} `{QuorumStateStore QuorumState Q} `{SnapshotIO S}.

Record IoStage := mkStage { log_store : L; transport : T; quorum_store : Q; snapshot_io : S }.

Definition is_send (a : IoAction) : bool := match a with SendRpc _ _ => true | _ => false end.

Definition storage_actions (batch : IoActionBatch) : list IoAction := list_filter (fun a => negb (is_send a)) batch.
Definition network_actions (batch : IoActionBatch) : list IoAction := list_filter is_send batch.

(** The body of the storage loop and of the network loop. *)
Definition exec_action (a : IoAction) : SE IoStage XraftError unit := fun st =>
  match a with
  | PersistQuorumState qs =>
      let (q, r) := qss_save qs (quorum_store st) in
      (mkStage (log_store st) (transport st) q (snapshot_io st), r)
  | AppendLog es =>
      let (l, r) := ls_append es (log_store st) in
      (mkStage l (transport st) (quorum_store st) (snapshot_io st), r)
  | TruncateSuffix from =>
      let (l, r) := ls_truncate_suffix from (log_store st) in
      (mkStage l (transport st) (quorum_store st) (snapshot_io st), r)
  | TruncatePrefix up_to =>
      let (l, r) := ls_truncate_prefix up_to (log_store st) in
      (mkStage l (transport st) (quorum_store st) (snapshot_io st), r)
  | SaveSnapshot snap =>
      let (s, r) := sio_save snap (snapshot_io st) in
      (mkStage (log_store st) (transport st) (quorum_store st) s, r)
  | SendRpc target env =>
      let (t, r) := ts_send target env (transport st) in
      (mkStage (log_store st) t (quorum_store st) (snapshot_io st), r)
  end.

(** [for action in ... { ...await?; }] *)
Fixpoint exec_all (actions : list IoAction) : SE IoStage XraftError unit :=
  match actions with
  | [] => se_ret tt
  | a :: actions' => fun st =>
      match exec_action a st with
      | (st', Err e) => (st', Err e)
      | (st', Ok _) => exec_all actions' st'
      end
  end.

(** [try_join!]: either future makes its next call; the first error ends
    both. *)
Inductive Joint :=
| Running (storage network : list IoAction) (st : IoStage)
| Failed (st : IoStage) (e : XraftError).

Inductive poll : Joint -> Joint -> Prop :=
| poll_storage a storage network st st' :
    exec_action a st = (st', Ok tt) ->
    poll (Running (a :: storage) network st) (Running storage network st')
| poll_network a storage network st st' :
    exec_action a st = (st', Ok tt) ->
    poll (Running storage (a :: network) st) (Running storage network st')
| poll_storage_err a storage network st st' e :
    exec_action a st = (st', Err e) -> poll (Running (a :: storage) network st) (Failed st' e)
| poll_network_err a storage network st st' e :
    exec_action a st = (st', Err e) -> poll (Running storage (a :: network) st) (Failed st' e).

Definition start (batch : IoActionBatch) (st : IoStage) : Joint :=
  Running (storage_actions batch) (network_actions batch) st.

(** The schedule that finishes the storage before it sends. *)
Definition execute (batch : IoActionBatch) : SE IoStage XraftError unit := fun st =>
  match exec_all (storage_actions batch) st with
  | (st', Err e) => (st', Err e)
  | (st', Ok _) => exec_all (network_actions batch) st'
  end.

(** ** Every schedule *)

Definition same_stores (a b : IoStage) : Prop :=
  log_store a = log_store b /\ quorum_store a = quorum_store b /\ snapshot_io a = snapshot_io b.

(** A storage action does not touch the transport, a send touches nothing
    else, and neither looks at the other's part. *)
Lemma exec_storage_frame (a : IoAction) (st : IoStage) (t : T) :
  is_send a = false ->
  let put st := mkStage (log_store st) t (quorum_store st) (snapshot_io st) in
  exec_action a (put st) = (put (exec_action a st).1, (exec_action a st).2) /\
  transport (exec_action a st).1 = transport st.
Proof.
  destruct a as [qs|es|from|up|tg env|snap]; cbn; try done; intros _.
  - by destruct (qss_save _ _).
  - by destruct (ls_append _ _).
  - by destruct (ls_truncate_suffix _ _).
  - by destruct (ls_truncate_prefix _ _).
  - by destruct (sio_save _ _).
Qed.

Lemma exec_send_frame (a : IoAction) (st : IoStage) l q s :
  is_send a = true ->
  let put st := mkStage l (transport st) q s in
  exec_action a (put st) = (put (exec_action a st).1, (exec_action a st).2) /\
  same_stores (exec_action a st).1 st.
Proof. destruct a as [| | | |tg env|]; cbn; try done; intros _. by destruct (ts_send _ _ _). Qed.

Lemma exec_all_snoc (xs : list IoAction) (a : IoAction) (st st' : IoStage) :
  exec_all xs st = (st', Ok tt) -> exec_all (xs ++ [a]) st = exec_action a st'.
Proof.
  revert st. induction xs as [|x xs IH]; intros st; cbn.
  - intros [= ->]. by destruct (exec_action a st') as [s [[]|e]].
  - destruct (exec_action x st) as [s [[]|e]]; [apply IH|done].
Qed.

(** The stage after the storage actions that led to [s1] and the sends that
    led to [s2]. *)
Definition combine (s1 s2 : IoStage) : IoStage :=
  mkStage (log_store s1) (transport s2) (quorum_store s1) (snapshot_io s1).

Lemma exec_storage_combine (a : IoAction) (s1 s2 : IoStage) :
  is_send a = false ->
  exec_action a (combine s1 s2) = (combine (exec_action a s1).1 s2, (exec_action a s1).2).
Proof. intros Ha. apply (exec_storage_frame a s1 (transport s2) Ha). Qed.

Lemma exec_send_combine (a : IoAction) (s1 s2 : IoStage) :
  is_send a = true ->
  exec_action a (combine s1 s2) = (combine s1 (exec_action a s2).1, (exec_action a s2).2).
Proof. intros Ha. apply (exec_send_frame a s2 (log_store s1) (quorum_store s1) (snapshot_io s1) Ha). Qed.

Lemma exec_all_storage (xs : list IoAction) (st st' : IoStage) r :
  Forall (fun a => is_send a = false) xs -> exec_all xs st = (st', r) -> st' = combine st' st.
Proof.
  intros Hall. revert st. induction Hall as [|a xs Ha _ IH]; intros st; cbn.
  - intros [= <- _]. by destruct st.
  - destruct (exec_storage_frame a st (transport st) Ha) as [_ Ht].
    destruct (exec_action a st) as [s [[]|e]] eqn:E; cbn in Ht.
    + intros Er. rewrite (IH _ Er). unfold combine. cbn. by rewrite Ht.
    + intros [= <- _]. unfold combine. rewrite <- Ht. by destruct s.
Qed.

Lemma exec_all_network (xs : list IoAction) (s1 st s2 : IoStage) r :
  Forall (fun a => is_send a = true) xs -> exec_all xs st = (s2, r) ->
  exec_all xs (combine s1 st) = (combine s1 s2, r).
Proof.
  intros Hall. revert st. induction Hall as [|a xs Ha _ IH]; intros st; cbn; [by intros [= <- <-]|].
  rewrite exec_send_combine by done. destruct (exec_action a st) as [s [[]|e]]; cbn; [apply IH|by intros [= <- <-]].
Qed.

(** What a schedule has done: a prefix of each group, in order. *)
Definition reached (batch : IoActionBatch) (st : IoStage) (j : Joint) : Prop :=
  exists sd sr nd nr s1 s2,
    storage_actions batch = sd ++ sr /\ network_actions batch = nd ++ nr /\
    match j with
    | Running storage network st' =>
        storage = sr /\ network = nr /\ st' = combine s1 s2 /\
        exec_all sd st = (s1, Ok tt) /\ exec_all nd st = (s2, Ok tt)
    | Failed st' e =>
        st' = combine s1 s2 /\
        (exec_all sd st = (s1, Err e) /\ exec_all nd st = (s2, Ok tt) \/
         exec_all sd st = (s1, Ok tt) /\ exec_all nd st = (s2, Err e))
    end.

Lemma storage_not_send (batch : IoActionBatch) (a : IoAction) : a ∈ storage_actions batch -> is_send a = false.
Proof. intros [_ Ha]%elem_of_list_filter_b. by destruct (is_send a). Qed.

Lemma network_send (batch : IoActionBatch) (a : IoAction) : a ∈ network_actions batch -> is_send a = true.
Proof. by intros [_ Ha]%elem_of_list_filter_b. Qed.

Lemma poll_reached (batch : IoActionBatch) (st : IoStage) (j j' : Joint) :
  reached batch st j -> poll j j' -> reached batch st j'.
Proof.
  intros (sd & sr & nd & nr & s1 & s2 & Hs & Hn & Hj) Hp.
  inversion Hp as [a sr' nr' x x' Ea|a sr' nr' x x' Ea|a sr' nr' x x' e Ea|a sr' nr' x x' e Ea]; subst;
    destruct Hj as (<- & <- & -> & E1 & E2).
  - rewrite exec_storage_combine in Ea by (eapply (storage_not_send batch); rewrite Hs; set_solver).
    exists (sd ++ [a]), sr', nd, nr', (exec_action a s1).1, s2. rewrite (exec_all_snoc _ _ _ _ E1), <- app_assoc.
    destruct (exec_action a s1) as [s1' r]. cbn in Ea. by simplify_eq.
  - rewrite exec_send_combine in Ea by (eapply (network_send batch); rewrite Hn; set_solver).
    exists sd, sr', (nd ++ [a]), nr', s1, (exec_action a s2).1. rewrite (exec_all_snoc _ _ _ _ E2), <- app_assoc.
    destruct (exec_action a s2) as [s2' r]. cbn in Ea. by simplify_eq.
  - rewrite exec_storage_combine in Ea by (eapply (storage_not_send batch); rewrite Hs; set_solver).
    exists (sd ++ [a]), sr', nd, nr', (exec_action a s1).1, s2. rewrite (exec_all_snoc _ _ _ _ E1), <- app_assoc.
    destruct (exec_action a s1) as [s1' r]. cbn in Ea. simplify_eq. split_and!; try done. by left.
  - rewrite exec_send_combine in Ea by (eapply (network_send batch); rewrite Hn; set_solver).
    exists sd, sr', (nd ++ [a]), nr', s1, (exec_action a s2).1. rewrite (exec_all_snoc _ _ _ _ E2), <- app_assoc.
    destruct (exec_action a s2) as [s2' r]. cbn in Ea. simplify_eq. split_and!; try done. by right.
Qed.

Lemma start_reached (batch : IoActionBatch) (st : IoStage) : reached batch st (start batch st).
Proof. exists [], (storage_actions batch), [], (network_actions batch), st, st. split_and!; try done. by destruct st. Qed.

Lemma schedule_reached (batch : IoActionBatch) (st : IoStage) (j j' : Joint) :
  rtc poll j j' -> reached batch st j -> reached batch st j'.
Proof. induction 1 as [|? ? ? Hp _ IH]; [done|]. intros Hr. apply IH. by eapply poll_reached. Qed.

(** C30: What a batch may leave behind.  However the storage and the network
    group interleave, at every moment each group has run a prefix of its
    actions in order, on stores and transport that the other group has not
    touched; the batch succeeds only when both groups have run completely, and
    then stores and transport are those of the schedule that writes first and
    sends afterwards; an error is that of the next action of one group. *)
Theorem try_join_prefixes (batch : IoActionBatch) (st : IoStage) (j : Joint) :
  rtc poll (start batch st) j ->
  reached batch st j /\
  (forall st', j = Running [] [] st' -> execute batch st = (st', Ok tt)) /\
  (forall storage network st', j = Running storage network st' ->
     storage ++ network <> [] -> exists j', poll j j').
Proof.
  intros Hr. pose proof (schedule_reached batch st _ _ Hr (start_reached batch st)) as Hj. split_and!; [done|..].
  - intros st' ->. destruct Hj as (sd & sr & nd & nr & s1 & s2 & Hs & Hn & <- & <- & -> & E1 & E2).
    rewrite app_nil_r in Hs, Hn. unfold execute. rewrite Hs, E1, Hn.
    pose proof (exec_all_network nd s1 st s2 (Ok tt)) as Hx.
    rewrite <- (exec_all_storage sd st s1 (Ok tt)) in Hx; [apply Hx; [|done]|..|done].
    + rewrite <- Hn. apply list.Forall_forall, network_send.
    + rewrite <- Hs. apply list.Forall_forall, storage_not_send.
  - intros storage network st' -> Hne. destruct storage as [|a storage].
    + destruct network as [|a network]; [done|].
      destruct (exec_action a st') as [s [[]|e]] eqn:E; eexists; [by eapply poll_network|by eapply poll_network_err].
    + destruct (exec_action a st') as [s [[]|e]] eqn:E; eexists; [by eapply poll_storage|by eapply poll_storage_err].
Qed.
End Stage.

(** *** Demonstration *)

(** A disk that fails every save of the voting state. *)
#[local] Instance failing_QuorumStateStore : QuorumStateStore QuorumState unit := {|
  qss_load := fun _ => Ok None;
  qss_save := fun _ q => (q, Err (IoOther "disk full"%string));
|}.

Definition vote : RpcEnvelope := mkRpcEnvelope 7 0 1 (PVoteResponse (mkVoteResponse 5 true false)).
Definition vote_batch : IoActionBatch := [PersistQuorumState (mkQuorumState 5 (Some 2) None 0); SendRpc 2 vote].
Definition demo_stage :
  IoStage (L := Mocks.MockLogStore) (T := Mocks.MockTransportSender) (Q := unit) (S := Mocks.MockSnapshotIO) :=
  mkStage Mocks.log_new Mocks.sender_new tt Mocks.snapshot_new.

(** Two appends and a send that leaves between them. *)
Definition append_batch : IoActionBatch :=
  [AppendLog [command_entry 0 1 (mkAppRecord [])]; SendRpc 2 vote; AppendLog [command_entry 1 1 (mkAppRecord [])]].

Lemma try_join_prefixes_witness :
  exists st, execute append_batch demo_stage = (st, Ok tt) /\ Mocks.outbox (transport st) = [(2, vote)].
Proof.
  eexists. split.
  - eapply (try_join_prefixes append_batch demo_stage); [|reflexivity].
    eapply rtc_l; [by eapply poll_storage|]. eapply rtc_l; [by eapply poll_network|].
    eapply rtc_l; [by eapply poll_storage|]. apply rtc_refl.
  - reflexivity.
Defined.

(** A granted vote can be on the wire while the record of it fails to be
    saved: the network group does not wait for the storage group. *)
Lemma vote_sent_before_persist :
  exists st e, rtc poll (start vote_batch demo_stage) (Failed st e) /\
    (2, vote) ∈ Mocks.outbox (transport st) /\ qss_load (quorum_store st) = Ok (None : option QuorumState).
Proof.
  eexists _, _. split; [|split].
  - eapply rtc_l; [by apply (poll_network (SendRpc 2 vote))|].
    eapply rtc_l; [by eapply poll_storage_err|]. apply rtc_refl.
  - apply list_elem_of_singleton. reflexivity.
  - reflexivity.
Qed.

End TryJoined.
