(* ===== verification/EventLoop.v ===== *)
(** * The event-driven node: [xraft-core/src/election.rs] and [event_loop.rs]

    The election manager fills a batch of I/O actions, the event loop
    publishes the new state and then executes the batch.  The methods of
    [NodeState] that both files call and no file defines are the operations of
    [NodeTransitions]; [NodeTransitionsLaws] states what the comments and the
    tests beside the code say of them.  [last_log_term] and
    [check_quorum_interval] are fields of the state only these files use. *)

From Stdlib Require Import ZifyBool ZifyN ZifyNat Lia.
From stdpp Require Import base list gmap numbers option strings.
From S2P Require Import Prelude Types NodeState Interfaces Mocks RaftNodeProps IoStage.

Record ElectionState := mkElectionState {
  base : NodeState;
  es_last_log_term : Term;
  check_quorum_interval : Duration;
}.

Class NodeTransitions := {
  nt_become_follower : Term -> option NodeId -> Instant -> ElectionState -> ElectionState;
  nt_become_candidate : Instant -> ElectionState -> ElectionState;
  nt_become_leader : Instant -> Duration -> ElectionState -> ElectionState;
  nt_voter_count : ElectionState -> nat;
  nt_is_voter : ElectionState -> bool;
  nt_majority : ElectionState -> nat;
  nt_is_in_voter_set : NodeId -> ElectionState -> bool;
  nt_check_quorum : Instant -> Duration -> ElectionState -> bool;
  nt_record_fetch : NodeId -> N -> Instant -> ElectionState -> ElectionState;
  nt_update_last_log_term : Term -> ElectionState -> ElectionState;
}.

(** What no transition touches: who the node is, its voters, its log's end. *)
Definition identity_of (s : ElectionState) : NodeId * ClusterId * list VoterInfo * N :=
  (node_id (base s), cluster_id (base s), voter_set (base s), log_end_offset (base s)).

(** Term and vote. *)
Definition vote_of_state (s : ElectionState) : Vote := (current_term (base s), voted_for (base s)).

Class NodeTransitionsLaws `{NodeTransitions} := {
  (** "step down to Follower": the new term and leader, without a vote when
      the term is new. *)
  follower_identity : forall t l d s, identity_of (nt_become_follower t l d s) = identity_of s;
  follower_fields : forall t l d s, let s' := base (nt_become_follower t l d s) in
    current_term s' = t /\ role s' = Follower /\ leader_id s' = l /\ election_deadline s' = d;
  follower_vote : forall t l d s, current_term (base s) < t ->
    voted_for (base (nt_become_follower t l d s)) = None;
  (** "transition to Candidate, increment term, vote for self". *)
  candidate_identity : forall d s, identity_of (nt_become_candidate d s) = identity_of s;
  candidate_fields : forall d s, let s' := base (nt_become_candidate d s) in
    current_term s' = next_term (current_term (base s)) /\ role s' = Candidate /\
    voted_for s' = Some (node_id (base s)) /\ votes_received s' = {[node_id (base s)]};
  (** The vote for itself survives the election. *)
  leader_identity : forall now t s, identity_of (nt_become_leader now t s) = identity_of s;
  leader_fields : forall now t s, let s' := base (nt_become_leader now t s) in
    role s' = Leader /\ leader_id s' = Some (node_id (base s)) /\
    vote_of_state (nt_become_leader now t s) = vote_of_state s /\
    votes_received s' = votes_received (base s);
  fetch_identity : forall n o now s, identity_of (nt_record_fetch n o now s) = identity_of s;
  fetch_fields : forall n o now s, let s' := base (nt_record_fetch n o now s) in
    role s' = role (base s) /\ votes_received s' = votes_received (base s) /\
    vote_of_state (nt_record_fetch n o now s) = vote_of_state s;
  update_base : forall t s, base (nt_update_last_log_term t s) = base s /\
    es_last_log_term (nt_update_last_log_term t s) = t;
  voter_count_spec : forall s, nt_voter_count s = length (voter_set (base s));
  is_voter_spec : forall s, nt_is_voter s = is_member (node_id (base s)) (voter_set (base s));
  majority_spec : forall s, nt_majority s = majority_of (length (voter_set (base s)));
  in_voter_set_spec : forall n s, nt_is_in_voter_set n s = is_member n (voter_set (base s));
}.

Definition set_base (f : NodeState -> NodeState) (s : ElectionState) : ElectionState :=
  mkElectionState (f (base s)) (es_last_log_term s) (check_quorum_interval s).

Module ElectionManager.

Section Manager.
Context `{NodeTransitions} {CK : Type} `{Clock CK}.

(** [clock.now() + clock.random_election_timeout()]. *)
Definition next_deadline (c : CK) : CK * Instant :=
  let '(c1, now) := clk_now c in
  let '(c2, timeout) := clk_random_election_timeout c1 in
  (c2, now + timeout).

Definition maybe_step_down_on_higher_term (message_term : Term) (s : ElectionState) (c : CK)
  : ElectionState * CK * bool :=
  if current_term (base s) <? message_term then
    let '(c', deadline) := next_deadline c in
    (nt_become_follower message_term None deadline s, c', true)
  else (s, c, false).

(** The offset of our last entry, as the requests carry it. *)
Definition our_last_offset (s : ElectionState) : N :=
  if 0 <? log_end_offset (base s) then log_end_offset (base s) - 1 else 0.

Definition envelope_of (s : ElectionState) (p : RpcPayload) : RpcEnvelope :=
  mkRpcEnvelope (cluster_id (base s)) term_zero (node_id (base s)) p.

Definition start_election (s : ElectionState) (c : CK) (batch : IoActionBatch)
  : ElectionState * CK * IoActionBatch :=
  let '(c', deadline) := next_deadline c in
  let s := nt_become_candidate deadline s in
  let batch := batch_push batch (PersistQuorumState
    (mkQuorumState (current_term (base s)) (voted_for (base s)) None term_zero)) in
  let request := mkVoteRequest (current_term (base s)) (node_id (base s)) (our_last_offset s)
                   (es_last_log_term s) false in
  let batch := foldl (fun b v =>
    if negb (voter_id v =? node_id (base s))
    then batch_push b (SendRpc (voter_id v) (envelope_of s (PVoteRequest request))) else b)
    batch (voter_set (base s)) in
  (s, c', batch).

(** Is the candidate's log at least as up to date as ours? *)
Definition log_ok (req : VoteRequest) (s : ElectionState) : bool :=
  (es_last_log_term s <? last_log_term req)
  || ((last_log_term req =? es_last_log_term s) && (our_last_offset s <=? last_log_offset req))
  || (log_end_offset (base s) =? 0).

Definition vote_rejected (req : VoteRequest) (s : ElectionState) : bool :=
  role_eqb (role (base s)) Leader
  || (vreq_term req <? current_term (base s))
  || match voted_for (base s) with
     | Some v => negb (v =? candidate_id req)
     | None => false
     end.

Definition handle_vote_request (req : VoteRequest) (s : ElectionState) (c : CK) (batch : IoActionBatch)
  : ElectionState * CK * IoActionBatch :=
  let '(s, c, _) := maybe_step_down_on_higher_term (vreq_term req) s c in
  let '(s, c, granted) :=
    if vote_rejected req s then (s, c, false)
    else if log_ok req s then
      let '(c', deadline) := next_deadline c in
      (set_base (fun b => b <| voted_for := Some (candidate_id req) |>
                            <| election_deadline := deadline |>) s, c', true)
    else (s, c, false) in
  let batch := if granted : bool then
      batch_push batch (PersistQuorumState
        (mkQuorumState (current_term (base s)) (voted_for (base s)) (leader_id (base s)) term_zero))
    else batch in
  (s, c, batch_push batch (SendRpc (candidate_id req)
     (envelope_of s (PVoteResponse (mkVoteResponse (current_term (base s)) granted false))))).

Definition handle_pre_vote_request (req : VoteRequest) (s : ElectionState) (batch : IoActionBatch)
  : IoActionBatch :=
  let would_grant := if vreq_term req <? current_term (base s) then false else log_ok req s in
  batch_push batch (SendRpc (candidate_id req)
    (envelope_of s (PVoteResponse (mkVoteResponse (current_term (base s)) would_grant true)))).

Definition handle_vote_response (resp : VoteResponse) (s : ElectionState) (c : CK)
  : ElectionState * CK * bool :=
  if current_term (base s) <? vresp_term resp then
    let '(c', deadline) := next_deadline c in
    (nt_become_follower (vresp_term resp) None deadline s, c', false)
  else (s, c, false).

Definition record_vote (voter : NodeId) (s : ElectionState) : ElectionState * bool :=
  if negb (role_eqb (role (base s)) Candidate) then (s, false)
  else
    let s := set_base (fun b => b <| votes_received := {[voter]} ∪ votes_received b |>) s in
    (s, (nt_majority s <=? size (votes_received (base s)))%nat).

Definition append_leader_change_message (s : ElectionState) (batch : IoActionBatch)
  : ElectionState * IoActionBatch * LogEntry :=
  let entry := mkLogEntry (log_end_offset (base s)) (current_term (base s)) LeaderChangeMessage [] in
  let s := set_base (fun b => b <| log_end_offset := u64_add (log_end_offset b) 1 |>) s in
  let s := nt_update_last_log_term (current_term (base s)) s in
  (s, batch_push batch (AppendLog [entry]), entry).
End Manager.

End ElectionManager.

Module EventLoop.

Import ElectionManager.

Section Loop.
Context `{NodeTransitions} {CK LI L T Q S : Type} `{Clock CK} `{Listener LI}.
Context `{LogStore L} `{TransportSender T} `{QuorumStateStore QuorumState Q} `{SnapshotIO S}.

(** [published] is what the watch channel has been sent. *)
Record EventLoop := mkLoop {
  state : ElectionState;
  clock : CK;
  io_stage : TryJoined.IoStage (L := L) (T := T) (Q := Q) (S := S);
  listener : LI;
  published : list ConsensusState;
}.

Inductive EventLoopMessage := Rpc (envelope : RpcEnvelope) | ShutdownMessage.

Definition set_state (s : ElectionState) (l : EventLoop) : EventLoop :=
  mkLoop s (clock l) (io_stage l) (listener l) (published l).
Definition set_clock (c : CK) (l : EventLoop) : EventLoop :=
  mkLoop (state l) c (io_stage l) (listener l) (published l).

(** Publish the state, then execute the batch. *)
Definition publish (l : EventLoop) : EventLoop :=
  mkLoop (state l) (clock l) (io_stage l) (listener l) (published l ++ [project (base (state l))]).
Definition publish_and_execute (batch : IoActionBatch) : SE EventLoop XraftError unit := fun l =>
  let l := publish l in
  let (io, r) := TryJoined.execute batch (io_stage l) in
  (mkLoop (state l) (clock l) io (listener l) (published l), r).

Definition on_become_leader (l : EventLoop) (batch : IoActionBatch) : EventLoop * IoActionBatch :=
  let s := state l in
  let batch := batch_push batch (PersistQuorumState
    (mkQuorumState (current_term (base s)) (voted_for (base s)) (Some (node_id (base s)))
       (current_term (base s)))) in
  let '(s, batch, _) := append_leader_change_message s batch in
  (mkLoop s (clock l) (io_stage l)
     (li_handle_leader_change (node_id (base s)) (current_term (base s)) (listener l)) (published l), batch).

(** [become_leader(clock.now(), clock.random_election_timeout())], then the
    bookkeeping. *)
Definition win_election (l : EventLoop) (batch : IoActionBatch) : EventLoop * IoActionBatch :=
  let '(c1, now) := clk_now (clock l) in
  let '(c2, timeout) := clk_random_election_timeout c1 in
  on_become_leader (set_state (nt_become_leader now timeout (state l)) (set_clock c2 l)) batch.

(** A leader without a quorum steps down and keeps its vote. *)
Definition lose_quorum (now : Instant) (l : EventLoop) : EventLoop * IoActionBatch :=
  let preserved := voted_for (base (state l)) in
  let '(c, timeout) := clk_random_election_timeout (clock l) in
  let s := nt_become_follower (current_term (base (state l))) None (now + timeout) (state l) in
  let s := set_base (fun b => b <| voted_for := preserved |>) s in
  (set_state s (set_clock c l),
   [PersistQuorumState (mkQuorumState (current_term (base s)) preserved None term_zero)]).

Definition handle_check_quorum : SE EventLoop XraftError unit := fun l =>
  let '(c1, now) := clk_now (clock l) in
  let interval := check_quorum_interval (state l) in
  if nt_check_quorum now interval (state l) then
    (publish (set_state (set_base (fun b => b <| check_quorum_deadline := now + interval |>) (state l))
       (set_clock c1 l)), Ok tt)
  else
    let (l', batch) := lose_quorum now (set_clock c1 l) in publish_and_execute batch l'.

(** A voter starts an election, which it wins at once when it is alone. *)
Definition time_out (l : EventLoop) : EventLoop * IoActionBatch :=
  let '(s, c, batch) := start_election (state l) (clock l) [] in
  let l := set_state s (set_clock c l) in
  if (nt_voter_count s =? 1)%nat then win_election l batch else (l, batch).

Definition handle_election_timeout : SE EventLoop XraftError unit := fun l =>
  if negb (nt_is_voter (state l)) then
    let '(c, deadline) := next_deadline (clock l) in
    (set_state (set_base (fun b => b <| election_deadline := deadline |>) (state l)) (set_clock c l), Ok tt)
  else let (l', batch) := time_out l in publish_and_execute batch l'.

Definition is_pre_vote (p : RpcPayload) : bool :=
  match p with
  | PVoteRequest req => vreq_is_pre_vote req
  | PVoteResponse resp => vresp_is_pre_vote resp
  | _ => false
  end.

Definition effective_term (env : RpcEnvelope) : Term :=
  match env_payload env with
  | PVoteRequest req => vreq_term req
  | PVoteResponse resp => vresp_term resp
  | PFetchResponse resp => fr_leader_epoch resp
  | _ => env_leader_epoch env
  end.

(** A real vote, counted when the node is still a candidate of that term. *)
Definition count_vote (source : NodeId) (resp : VoteResponse) (stepped_down : bool)
    (l : EventLoop) (batch : IoActionBatch) : EventLoop * IoActionBatch :=
  let s := state l in
  if negb stepped_down && role_eqb (role (base s)) Candidate && vote_granted resp
     && (vresp_term resp =? current_term (base s))
  then
    if negb (nt_is_in_voter_set source s) then (l, batch)
    else
      let '(s, has_majority) := record_vote source s in
      let l := set_state s l in
      if has_majority then win_election l batch else (l, batch)
  else (l, batch).

(** The payload-specific part; the membership payloads of the other version of
    [rpc.rs] do not occur in this one. *)
Definition dispatch (env : RpcEnvelope) (stepped_down : bool) (l : EventLoop) (batch : IoActionBatch)
  : EventLoop * IoActionBatch :=
  let s := state l in
  match env_payload env with
  | PVoteRequest req =>
      if vreq_is_pre_vote req then (l, handle_pre_vote_request req s batch)
      else
        let '(s, c, batch) := handle_vote_request req s (clock l) batch in
        (set_state s (set_clock c l), batch)
  | PVoteResponse resp =>
      if vresp_is_pre_vote resp then
        (if vote_granted resp && (vresp_term resp =? current_term (base s)) then
           set_state (set_base (fun b => b <| pre_votes_received :=
             {[env_source env]} ∪ pre_votes_received b |>) s) l
         else l, batch)
      else count_vote (env_source env) resp stepped_down l batch
  | PFetchRequest req =>
      if role_eqb (role (base s)) Leader then
        let '(c, now) := clk_now (clock l) in
        (set_state (nt_record_fetch (env_source env) (fetch_offset req) now s) (set_clock c l), batch)
      else (l, batch)
  | _ => (l, batch)
  end.

(** The handler up to the I/O. *)
Definition react (env : RpcEnvelope) (l : EventLoop) : EventLoop * IoActionBatch :=
  let '(l, batch, stepped_down) :=
    if is_pre_vote (env_payload env) then (l, [], false)
    else
      let '(s, c, sd) := maybe_step_down_on_higher_term (effective_term env) (state l) (clock l) in
      let batch := if sd : bool then
          [PersistQuorumState (mkQuorumState (current_term (base s)) None None term_zero)] else [] in
      (set_state s (set_clock c l), batch, sd) in
  dispatch env stepped_down l batch.

Definition handle_rpc (env : RpcEnvelope) : SE EventLoop XraftError unit := fun l =>
  if negb (env_cluster_id env =? cluster_id (base (state l))) then (l, Ok tt)
  else let (l', batch) := react env l in publish_and_execute batch l'.

(** The timer check at the top of an iteration of [run]. *)
Definition check_timers : SE EventLoop XraftError unit := fun l =>
  let '(c, now) := clk_now (clock l) in
  let l := set_clock c l in
  let s := base (state l) in
  if role_eqb (role s) Leader then
    if check_quorum_deadline s <=? now then handle_check_quorum l else (l, Ok tt)
  else if (role_eqb (role s) Follower || role_eqb (role s) Candidate) && (election_deadline s <=? now)
  then handle_election_timeout l
  else (l, Ok tt).

(** What [select!] does after it: a message, or the timer. *)
Inductive Event := Message (m : option EventLoopMessage) | TimerFired.

(** One iteration of [run]; [true] is the [break]. *)
Definition iteration (ev : Event) : SE EventLoop XraftError bool := fun l =>
  match check_timers l with
  | (l, Err e) => (l, Err e)
  | (l, Ok _) =>
      match ev with
      | Message (Some (Rpc env)) =>
          match handle_rpc env l with
          | (l, Err e) => (l, Err e)
          | (l, Ok _) => (l, Ok false)
          end
      | Message (Some ShutdownMessage) | Message None =>
          (mkLoop (state l) (clock l) (io_stage l) (li_begin_shutdown (listener l)) (published l), Ok true)
      | TimerFired =>
          let deadline := if role_eqb (role (base (state l))) Leader
                          then check_quorum_deadline (base (state l))
                          else election_deadline (base (state l)) in
          (set_clock (clk_sleep_until deadline (clock l)) l, Ok false)
      end
  end.

Fixpoint run (evs : list Event) : SE EventLoop XraftError unit := fun l =>
  match evs with
  | [] => (l, Ok tt)
  | ev :: evs' =>
      match iteration ev l with
      | (l, Err e) => (l, Err e)
      | (l, Ok true) => (l, Ok tt)
      | (l, Ok false) => run evs' l
      end
  end.

(** ** Reactions *)

Context `{!NodeTransitionsLaws}.

Abbreviation vote l := (vote_of_state (state l)).

(** Candidates and leaders have voted for themselves and hold votes of voters
    only; a leader holds a majority of them. *)
Definition good (s : ElectionState) : Prop :=
  role (base s) = Candidate \/ role (base s) = Leader ->
  voted_for (base s) = Some (node_id (base s)) /\
  votes_received (base s) ⊆ list_to_set (voter_ids (voter_set (base s))) /\
  (role (base s) = Leader ->
   (majority_of (length (voter_set (base s))) <= size (votes_received (base s)))%nat).

(** The vote on disk after the records of a batch, from [v]. *)
Definition record_step (v : Vote) (a : IoAction) : Vote :=
  match a with PersistQuorumState qs => (qs_current_term qs, qs_voted_for qs) | _ => v end.
Definition recorded (v : Vote) (batch : IoActionBatch) : Vote := foldl record_step v batch.

(** What every handler does to the node before its I/O. *)
Record reaction (l : EventLoop) (b : IoActionBatch) (l' : EventLoop) (b' : IoActionBatch) : Prop := {
  rx_vote : vote_le (vote l) (vote l');
  rx_good : good (state l) -> good (state l');
  rx_recorded : forall v, recorded v b = vote l -> recorded v b' = vote l';
  rx_io : io_stage l' = io_stage l;
}.

Lemma reaction_refl l b : reaction l b l b.
Proof. split; auto. reflexivity. Qed.

Lemma reaction_trans l1 b1 l2 b2 l3 b3 :
  reaction l1 b1 l2 b2 -> reaction l2 b2 l3 b3 -> reaction l1 b1 l3 b3.
Proof.
  intros [A1 A2 A3 A4] [B1 B2 B3 B4]. split; eauto; [by etrans|congruence].
Qed.

Lemma recorded_push v b a : recorded v (batch_push b a) = record_step (recorded v b) a.
Proof. unfold recorded, batch_push. by rewrite foldl_app. Qed.

(** A change that leaves votes and role alone. *)
Lemma reaction_same l b l' b' :
  vote l' = vote l -> role (base (state l')) = role (base (state l)) ->
  votes_received (base (state l')) = votes_received (base (state l)) ->
  node_id (base (state l')) = node_id (base (state l)) ->
  voter_set (base (state l')) = voter_set (base (state l)) ->
  (forall v, recorded v b' = recorded v b) -> io_stage l' = io_stage l -> reaction l b l' b'.
Proof.
  intros Hv Hr Hvr Hn Hvs Hb Hio. split; [by rewrite Hv| |intros v Hrec; by rewrite Hb, Hrec, Hv|done].
  unfold good. rewrite Hr, Hvr, Hn, Hvs. unfold vote_of_state in Hv. injection Hv as _ ->. done.
Qed.

Lemma reaction_follower l b l' b' (qs : QuorumState) :
  role (base (state l')) = Follower -> vote_le (vote l) (vote l') ->
  b' = batch_push b (PersistQuorumState qs) -> vote l' = (qs_current_term qs, qs_voted_for qs) ->
  io_stage l' = io_stage l -> reaction l b l' b'.
Proof.
  intros Hr Hv -> Hq Hio. split; [done| |intros v _; by rewrite recorded_push|done].
  intros _. unfold good. rewrite Hr. intros [?|?]; done.
Qed.

Lemma step_down_reaction (t : Term) (l : EventLoop) s c sd :
  maybe_step_down_on_higher_term t (state l) (clock l) = (s, c, sd) ->
  reaction l [] (set_state s (set_clock c l))
    (if sd then [PersistQuorumState (mkQuorumState (current_term (base s)) None None term_zero)] else []) /\
  identity_of s = identity_of (state l) /\ t <= current_term (base s) /\
  (sd = false -> s = state l).
Proof.
  unfold maybe_step_down_on_higher_term. destruct (current_term (base (state l)) <? t) eqn:E.
  - destruct (next_deadline (clock l)) as [c' d]. intros [= <- <- <-].
    destruct (follower_fields t None d (state l)) as (F1 & F2 & F3 & _).
    pose proof (follower_vote t None d (state l) ltac:(lia)) as F4. split_and!; [|apply follower_identity|lia|done].
    eapply reaction_follower; [done| |done| |done]; unfold vote_of_state; cbn; rewrite ?F4, ?F1; [left; cbn; lia|done].
  - intros [= <- <- <-]. split_and!; [|done|lia|done].
    by apply reaction_same.
Qed.

Lemma win_election_reaction (l : EventLoop) (b : IoActionBatch) l' b' :
  win_election l b = (l', b') ->
  voted_for (base (state l)) = Some (node_id (base (state l))) ->
  votes_received (base (state l)) ⊆ list_to_set (voter_ids (voter_set (base (state l)))) ->
  (majority_of (length (voter_set (base (state l)))) <= size (votes_received (base (state l))))%nat ->
  reaction l b l' b' /\ role (base (state l')) = Leader.
Proof.
  unfold win_election. destruct (clk_now (clock l)) as [c1 now], (clk_random_election_timeout c1) as [c2 t].
  unfold on_become_leader, append_leader_change_message. cbn.
  set (s1 := nt_become_leader now t (state l)). intros [= <- <-] Hself Hvotes Hmaj.
  destruct (leader_fields now t (state l)) as (F1 & F2 & F3 & F4). fold s1 in F1, F2, F3, F4.
  pose proof (leader_identity now t (state l)) as Hid. fold s1 in Hid. unfold identity_of in Hid. injection Hid as I1 I2 I3 I4.
  set (s2 := set_base _ s1). destruct (update_base (current_term (base s1)) s2) as [Hb _].
  assert (vote_of_state (nt_update_last_log_term (current_term (base s1)) s2) = vote_of_state (state l)) as Hv.
  { unfold vote_of_state. rewrite Hb. cbn. done. }
  cbn. rewrite Hb. split; [|done]. split; cbn.
  - by rewrite Hv.
  - intros _ _. rewrite Hb. cbn. rewrite I1, I3, F4. unfold vote_of_state in F3. injection F3 as _ F3.
    rewrite F3. done.
  - intros v Hr. rewrite !recorded_push. cbn. rewrite Hv. done.
  - done.
Qed.

(** The answer to a vote request whose term is not above ours. *)
Definition vote_answer (req : VoteRequest) (granted : bool) (s : ElectionState) (b b' : IoActionBatch) : Prop :=
  b' = batch_push (if granted then batch_push b (PersistQuorumState
          (mkQuorumState (current_term (base s)) (Some (candidate_id req)) (leader_id (base s)) term_zero)) else b)
        (SendRpc (candidate_id req)
          (envelope_of s (PVoteResponse (mkVoteResponse (current_term (base s)) granted false)))) /\
  (granted = true -> vote_of_state s = (vreq_term req, Some (candidate_id req)) /\ role (base s) <> Leader).

Lemma vote_request_reaction (req : VoteRequest) (l : EventLoop) (b : IoActionBatch) s c b' :
  vreq_term req <= current_term (base (state l)) ->
  handle_vote_request req (state l) (clock l) b = (s, c, b') ->
  reaction l b (set_state s (set_clock c l)) b' /\ exists granted, vote_answer req granted s b b'.
Proof.
  intros Ht. unfold handle_vote_request, maybe_step_down_on_higher_term.
  replace (current_term (base (state l)) <? vreq_term req) with false by lia.
  assert (forall x : IoAction, (forall v, record_step v x = v) -> forall v, recorded v (batch_push b x) = recorded v b) as Hsend.
  { intros x Hx v. by rewrite recorded_push, Hx. }
  destruct (vote_rejected req (state l)) eqn:Erej; [|destruct (log_ok req (state l)) eqn:Elog].
  - intros [= <- <- <-]. split; [apply reaction_same; try done; by apply Hsend|]. by exists false.
  - destruct (next_deadline (clock l)) as [c' d]. intros [= <- <- <-].
    unfold vote_rejected in Erej. apply orb_false_iff in Erej as [[Er Et]%orb_false_iff Ev].
    assert (role (base (state l)) <> Leader) as Hrole by (intros Hl; rewrite Hl in Er; done).
    assert (vreq_term req = current_term (base (state l))) as Hterm by lia.
    split; [split; cbn|].
    + right. split; [done|]. cbn. destruct (voted_for (base (state l))) as [v|]; [right|by left]. f_equal. lia.
    + intros Hg. unfold good in *. cbn. intros Hr. destruct (Hg Hr) as (G1 & G2 & G3). rewrite G1 in Ev.
      split_and!; [f_equal; lia|done|done].
    + intros v _. by rewrite !recorded_push.
    + done.
    + exists true. split; [done|]. intros _. cbn. unfold vote_of_state. cbn. by rewrite Hterm.
  - intros [= <- <- <-]. split; [apply reaction_same; try done; by apply Hsend|]. by exists false.
Qed.

Lemma size_union_singleton_voters (v : NodeId) (X : gset NodeId) (vs : list VoterInfo) :
  is_member v vs = true -> X ⊆ list_to_set (voter_ids vs) -> {[v]} ∪ X ⊆ (list_to_set (voter_ids vs) : gset NodeId).
Proof. intros Hm%is_member_spec HX. set_solver. Qed.

Lemma count_vote_reaction (source : NodeId) (resp : VoteResponse) (sd : bool) (l l' : EventLoop) b b' :
  good (state l) -> count_vote source resp sd l b = (l', b') ->
  reaction l b l' b'.
Proof.
  intros Hg. unfold count_vote. destruct (_ && (vresp_term resp =? _)) eqn:E; [|intros [= <- <-]; apply reaction_refl].
  apply andb_prop in E as [[[_ Hr%role_eqb_spec]%andb_prop _]%andb_prop _].
  destruct (nt_is_in_voter_set source (state l)) eqn:Ev; cbn [negb]; [|intros [= <- <-]; apply reaction_refl].
  rewrite in_voter_set_spec in Ev. unfold record_vote. rewrite Hr. cbn [role_eqb negb].
  replace (negb (role_eqb Candidate Candidate)) with false by done.
  destruct (Hg (or_introl Hr)) as (G1 & G2 & _).
  set (s1 := set_base _ (state l)).
  assert (votes_received (base s1) ⊆ list_to_set (voter_ids (voter_set (base (state l))))) as Hv1
    by (cbn; by apply size_union_singleton_voters).
  assert (reaction l b (set_state s1 l) b) as Hrx.
  { split; [done| |done|done]. intros _. unfold good. cbn. rewrite Hr, G1. intros _. split_and!; [done|done|]. done. }
  rewrite majority_spec. destruct (majority_of _ <=? _)%nat eqn:Em; [|by intros [= <- <-]].
  intros Hw. eapply reaction_trans; [apply Hrx|].
  eapply (win_election_reaction (set_state s1 l)); [done|done|done|]. cbn in *. lia.
Qed.

Lemma dispatch_reaction (env : RpcEnvelope) (sd : bool) (l l' : EventLoop) b b' :
  good (state l) -> (is_pre_vote (env_payload env) = false -> effective_term env <= current_term (base (state l))) ->
  dispatch env sd l b = (l', b') -> reaction l b l' b'.
Proof.
  intros Hg Ht. unfold dispatch. unfold is_pre_vote, effective_term in Ht.
  destruct (env_payload env) as [req|resp|req|resp|r|r|v|n|v|ok e];
    try (intros [= <- <-]; apply reaction_refl).
  - destruct (vreq_is_pre_vote req).
    + intros [= <- <-]. apply reaction_same; try done. intros v. unfold handle_pre_vote_request.
      by rewrite recorded_push.
    + destruct (handle_vote_request req (state l) (clock l) b) as [[s c] b1] eqn:Ev. intros [= <- <-].
      apply (vote_request_reaction req l b s c b1); auto.
  - destruct (vresp_is_pre_vote resp); [|by apply count_vote_reaction].
    destruct (vote_granted resp && _); intros [= <- <-]; [by apply reaction_same|apply reaction_refl].
  - destruct (role_eqb _ Leader); [|intros [= <- <-]; apply reaction_refl].
    destruct (clk_now (clock l)) as [c now]. intros [= <- <-].
    destruct (fetch_fields (env_source env) (fetch_offset req) now (state l)) as (F1 & F2 & F3).
    pose proof (fetch_identity (env_source env) (fetch_offset req) now (state l)) as Hid.
    unfold identity_of in Hid. injection Hid as I1 I2 I3 I4. by apply reaction_same.
Qed.

Lemma react_reaction (env : RpcEnvelope) (l l' : EventLoop) b' :
  good (state l) -> react env l = (l', b') -> reaction l [] l' b'.
Proof.
  intros Hg. unfold react. destruct (is_pre_vote (env_payload env)) eqn:Ep.
  - intros Hd. eapply dispatch_reaction; [done| |done]. intros Hp. congruence.
  - destruct (maybe_step_down_on_higher_term _ _ _) as [[s c] sd] eqn:Es. intros Hd.
    destruct (step_down_reaction _ _ _ _ _ Es) as (Hrx & _ & Hle & _).
    eapply reaction_trans; [apply Hrx|]. eapply dispatch_reaction; [by apply Hrx|done|done].
Qed.

(** ** Timers *)

Lemma recorded_sends (f : VoterInfo -> IoAction) (keep : VoterInfo -> bool) (vs : list VoterInfo) b v :
  (forall x w, record_step w (f x) = w) ->
  recorded v (foldl (fun b x => if keep x then batch_push b (f x) else b) b vs) = recorded v b.
Proof.
  intros Hf. revert b. induction vs as [|x vs IH]; intros b; cbn; [done|]. rewrite IH.
  destruct (keep x); [|done]. by rewrite recorded_push, Hf.
Qed.

Lemma start_election_reaction (l : EventLoop) s c b :
  nt_is_voter (state l) = true -> current_term (base (state l)) < u64_max ->
  start_election (state l) (clock l) [] = (s, c, b) ->
  reaction l [] (set_state s (set_clock c l)) b /\ role (base s) = Candidate /\
  identity_of s = identity_of (state l) /\ votes_received (base s) = {[node_id (base s)]} /\ good s.
Proof.
  intros Hvoter Hb. unfold start_election. destruct (next_deadline (clock l)) as [c' d].
  set (s1 := nt_become_candidate d (state l)). intros [= <- <- <-].
  destruct (candidate_fields d (state l)) as (F1 & F2 & F3 & F4). fold s1 in F1, F2, F3, F4.
  pose proof (candidate_identity d (state l)) as Hid. fold s1 in Hid. pose proof Hid as Hid'.
  unfold identity_of in Hid'. injection Hid' as I1 I2 I3 I4. rewrite <- I1 in F3, F4.
  unfold next_term in F1. rewrite u64_add_small in F1 by lia.
  assert (good s1) as Hgood.
  { unfold good. rewrite F2, F3, F4, I1, I3. intros _. split_and!; [done| |done].
    rewrite is_voter_spec in Hvoter. apply is_member_spec in Hvoter. set_solver. }
  split_and!; try done. split; cbn.
  - left. unfold vote_of_state. cbn. lia.
  - done.
  - intros v _. rewrite (recorded_sends (fun x => SendRpc (voter_id x) _)) by done. done.
  - done.
Qed.

(** The part of [handle_election_timeout] before the I/O. *)
Lemma time_out_reaction (l : EventLoop) l' b' :
  nt_is_voter (state l) = true -> current_term (base (state l)) < u64_max ->
  time_out l = (l', b') -> reaction l [] l' b'.
Proof.
  intros Hv Hb. unfold time_out. destruct (start_election (state l) (clock l) []) as [[s c] b] eqn:Hs. intros Hw.
  destruct (start_election_reaction l s c b Hv Hb Hs) as (Hrx & Hr & _ & Hvr & Hg).
  rewrite voter_count_spec in Hw. destruct (Nat.eqb_spec (length (voter_set (base s))) 1) as [Hone|_]; [|by simplify_eq].
  eapply reaction_trans; [apply Hrx|]. destruct (Hg (or_introl Hr)) as (G1 & G2 & _).
  eapply win_election_reaction; [done|done|done|]. cbn. rewrite Hone, Hvr, size_singleton. done.
Qed.

Lemma lose_quorum_reaction (now : Instant) (l l' : EventLoop) b' :
  lose_quorum now l = (l', b') -> reaction l [] l' b'.
Proof.
  unfold lose_quorum. destruct (clk_random_election_timeout (clock l)) as [c t]. intros [= <- <-].
  destruct (follower_fields (current_term (base (state l))) None (now + t) (state l)) as (F1 & F2 & F3 & _).
  eapply reaction_follower; [done| |done|done|done]. unfold vote_of_state. cbn. rewrite F1. right. auto.
Qed.

(** ** The I/O *)

Context `{!QuorumStateStoreLaws QuorumState Q}.

Definition stored_vote (o : option QuorumState) : Vote :=
  match o with Some qs => (qs_current_term qs, qs_voted_for qs) | None => (term_zero, None) end.
Definition durable_vote (io : TryJoined.IoStage (L := L) (T := T) (Q := Q) (S := S)) : Vote :=
  stored_vote (qss_persisted (TryJoined.quorum_store io)).

Lemma exec_action_durable (a : IoAction) io io' :
  TryJoined.exec_action a io = (io', Ok tt) -> durable_vote io' = record_step (durable_vote io) a.
Proof.
  unfold durable_vote. destruct a as [qs|es|from|up|t env|snap]; cbn.
  - destruct (qss_save qs (TryJoined.quorum_store io)) as [q r] eqn:E. intros [= <- ->]. cbn.
    by rewrite (qss_save_ok _ _ _ E).
  - destruct (ls_append _ _). by intros [= <- _].
  - destruct (ls_truncate_suffix _ _). by intros [= <- _].
  - destruct (ls_truncate_prefix _ _). by intros [= <- _].
  - destruct (ts_send _ _ _). by intros [= <- _].
  - destruct (sio_save _ _). by intros [= <- _].
Qed.

Lemma exec_all_durable (acts : list IoAction) io io' :
  TryJoined.exec_all acts io = (io', Ok tt) -> durable_vote io' = recorded (durable_vote io) acts.
Proof.
  revert io. induction acts as [|a acts IH]; intros io; cbn; [by intros [= <-]|].
  destruct (TryJoined.exec_action a io) as [io1 [[]|e]] eqn:E; [|done]. intros He.
  by rewrite (IH _ He), (exec_action_durable _ _ _ E).
Qed.

Lemma recorded_storage (batch : IoActionBatch) (v : Vote) :
  recorded (recorded v (TryJoined.storage_actions batch)) (TryJoined.network_actions batch) = recorded v batch.
Proof.
  assert (forall w, recorded w (TryJoined.network_actions batch) = w) as Hn.
  { intros w. unfold recorded, TryJoined.network_actions. revert w.
    induction batch as [|a batch IH]; intros w; cbn; [done|]. by destruct a; cbn; rewrite IH. }
  rewrite Hn. clear Hn. unfold recorded, TryJoined.storage_actions. revert v.
  induction batch as [|a batch IH]; intros v; cbn; [done|]. by destruct a; cbn; rewrite IH.
Qed.

Lemma publish_and_execute_ok (batch : IoActionBatch) (l l' : EventLoop) r :
  publish_and_execute batch l = (l', r) ->
  state l' = state l /\
  (r = Ok tt -> durable_vote (io_stage l') = recorded (durable_vote (io_stage l)) batch).
Proof.
  unfold publish_and_execute, TryJoined.execute. cbn.
  destruct (TryJoined.exec_all (TryJoined.storage_actions batch) (io_stage l)) as [io1 [[]|e]] eqn:E1.
  - destruct (TryJoined.exec_all (TryJoined.network_actions batch) io1) as [io2 r2] eqn:E2.
    intros [= <- <-]. split; [done|]. intros ->. cbn.
    by rewrite (exec_all_durable _ _ _ E2), (exec_all_durable _ _ _ E1), recorded_storage.
  - intros [= <- <-]. done.
Qed.

(** ** Handlers *)

(** What a handler does: the vote moves forward and the invariant is kept
    whatever the I/O does; if the I/O succeeds the vote on disk follows. *)
Record handled (l l' : EventLoop) {A : Type} (r : Result A) : Prop := {
  hd_vote : vote_le (vote l) (vote l');
  hd_good : good (state l');
  hd_durable : is_ok r = true -> durable_vote (io_stage l) = vote l -> durable_vote (io_stage l') = vote l';
}.

Lemma handled_io (l l1 l' : EventLoop) batch r :
  good (state l) -> reaction l [] l1 batch -> publish_and_execute batch l1 = (l', r) -> handled l l' r.
Proof.
  intros Hg [A1 A2 A3 A4] He. destruct (publish_and_execute_ok batch l1 l' r He) as [Hs Hd]. split.
  - by rewrite Hs.
  - rewrite Hs. auto.
  - intros Hr Hv. destruct r as [[]|]; [|done]. rewrite (Hd eq_refl), A4, Hs. apply A3. by rewrite <- Hv.
Qed.

Lemma handled_quiet (l l' : EventLoop) {A : Type} (r : Result A) :
  good (state l) -> reaction l [] l' [] -> handled l l' r.
Proof.
  intros Hg [A1 A2 A3 A4]. split; [done|auto|]. intros _ Hv. rewrite A4, Hv.
  apply (A3 (vote l)). done.
Qed.

Lemma handle_rpc_handled (env : RpcEnvelope) (l l' : EventLoop) r :
  good (state l) -> handle_rpc env l = (l', r) -> handled l l' r.
Proof.
  intros Hg. unfold handle_rpc. destruct (negb _); [intros [= <- <-]; apply handled_quiet; [done|apply reaction_refl]|].
  destruct (react env l) as [l1 batch] eqn:E. intros He. eapply handled_io; [done|by eapply react_reaction|done].
Qed.

Lemma handle_election_timeout_handled (l l' : EventLoop) r :
  good (state l) -> current_term (base (state l)) < u64_max ->
  handle_election_timeout l = (l', r) -> handled l l' r.
Proof.
  intros Hg Hb. unfold handle_election_timeout. destruct (nt_is_voter (state l)) eqn:Ev; cbn [negb].
  - destruct (time_out l) as [l1 b1] eqn:Et. intros He.
    eapply handled_io; [done|by apply time_out_reaction|done].
  - destruct (next_deadline (clock l)) as [c d]. intros [= <- <-]. apply handled_quiet; [done|]. by apply reaction_same.
Qed.

Lemma handle_check_quorum_handled (l l' : EventLoop) r :
  good (state l) -> handle_check_quorum l = (l', r) -> handled l l' r.
Proof.
  intros Hg. unfold handle_check_quorum. destruct (clk_now (clock l)) as [c1 now].
  destruct (nt_check_quorum now _ (state l)).
  - intros [= <- <-]. apply handled_quiet; [done|]. by apply reaction_same.
  - destruct (lose_quorum now (set_clock c1 l)) as [l1 b1] eqn:Eq. intros He.
    apply lose_quorum_reaction in Eq. destruct Eq as [A1 A2 A3 A4].
    eapply (handled_io l l1); [done|by split|exact He].
Qed.

Lemma handled_trans (l1 l2 l3 : EventLoop) {A B : Type} (r1 : Result A) (r2 : Result B) :
  is_ok r1 = true -> handled l1 l2 r1 -> handled l2 l3 r2 -> handled l1 l3 r2.
Proof. intros Hr [A1 A2 A3] [B1 B2 B3]. split; [by etrans|done|]. eauto. Qed.

Lemma check_timers_handled (l l' : EventLoop) r :
  good (state l) -> current_term (base (state l)) < u64_max -> check_timers l = (l', r) -> handled l l' r.
Proof.
  intros Hg Hb. unfold check_timers. destruct (clk_now (clock l)) as [c now]. cbn [set_clock state base].
  assert (handled l (set_clock c l) (Ok tt : Result unit)) as Hq by (apply handled_quiet; [done|by apply reaction_same]).
  destruct (role_eqb _ Leader); [destruct (_ <=? now)|destruct (_ && _)]; try (intros [= <- <-]; apply Hq).
  - intros He. eapply (handled_trans l (set_clock c l) l' (Ok tt : Result unit) r); [done|done|]. by eapply handle_check_quorum_handled.
  - intros He. eapply (handled_trans l (set_clock c l) l' (Ok tt : Result unit) r); [done|done|]. by eapply handle_election_timeout_handled.
Qed.

Lemma iteration_handled (ev : Event) (l l' : EventLoop) r :
  good (state l) -> current_term (base (state l)) < u64_max -> iteration ev l = (l', r) -> handled l l' r.
Proof.
  intros Hg Hb. unfold iteration. destruct (check_timers l) as [l1 [[]|e]] eqn:Et.
  2:{ intros [= <- <-]. destruct (check_timers_handled _ _ _ Hg Hb Et). by split. }
  pose proof (check_timers_handled _ _ _ Hg Hb Et) as Hh. intros Hev.
  eapply handled_trans; [|apply Hh|]; [done|]. pose proof (hd_good _ _ _ Hh) as Hg1.
  destruct ev as [[[env|]|]|]; try (injection Hev as <- <-; apply handled_quiet; [done|by apply reaction_same]).
  destruct (handle_rpc env l1) as [l2 [[]|e]] eqn:Er; injection Hev as <- <-;
    destruct (handle_rpc_handled env l1 l2 _ Hg1 Er); by split.
Qed.

(** ** Guarantees *)

(** C23: Votes of the event loop.  One iteration, timers and message together,
    never lowers the term and never changes a vote cast in the current term,
    also when a leader steps down because its quorum is gone, and whatever the
    disk and the network answer; when its I/O succeeds and the vote on disk was
    the one in memory before, it is so afterwards.  A node that is leader
    afterwards has voted for itself and holds votes of a majority of the
    voters, all of them voters. *)
Theorem event_loop_votes_safe (ev : Event) (l l' : EventLoop) r :
  good (state l) -> current_term (base (state l)) < u64_max -> iteration ev l = (l', r) ->
  vote_le (vote l) (vote l') /\ good (state l') /\
  (is_ok r = true -> durable_vote (io_stage l) = vote l -> durable_vote (io_stage l') = vote l') /\
  (role (base (state l')) = Leader ->
   voted_for (base (state l')) = Some (node_id (base (state l'))) /\
   votes_received (base (state l')) ⊆ list_to_set (voter_ids (voter_set (base (state l')))) /\
   (length (voter_set (base (state l'))) < 2 * size (votes_received (base (state l'))))%nat).
Proof.
  intros Hg Hb Hi. destruct (iteration_handled ev l l' r Hg Hb Hi) as [A1 A2 A3]. split_and!; try done.
  intros Hr. destruct (A2 (or_intror Hr)) as (G1 & G2 & G3). split_and!; [done|done|].
  pose proof (majority_of_double (length (voter_set (base (state l'))))). specialize (G3 Hr). lia.
Qed.

Definition grants (a : IoAction) : option (NodeId * Term) :=
  match a with
  | SendRpc target env =>
      match env_payload env with
      | PVoteResponse resp =>
          if vote_granted resp && negb (vresp_is_pre_vote resp) then Some (target, vresp_term resp) else None
      | _ => None
      end
  | _ => None
  end.

Lemma win_election_grants (l l' : EventLoop) b b' :
  win_election l b = (l', b') -> exists b1, b' = b ++ b1 /\ Forall (fun a => grants a = None) b1.
Proof.
  unfold win_election. destruct (clk_now _) as [c1 now], (clk_random_election_timeout c1) as [c2 t].
  unfold on_become_leader, append_leader_change_message, batch_push. cbn. intros [= _ <-].
  rewrite <- app_assoc. eexists. split; [done|]. by repeat constructor.
Qed.

(** Only a real vote request is answered with a vote. *)
Lemma dispatch_grants (env : RpcEnvelope) (sd : bool) (l l' : EventLoop) b b' :
  (forall req, env_payload env = PVoteRequest req -> vreq_is_pre_vote req = true) ->
  dispatch env sd l b = (l', b') -> exists b1, b' = b ++ b1 /\ Forall (fun a => grants a = None) b1.
Proof.
  assert (exists b1, b = b ++ b1 /\ Forall (fun a => grants a = None) b1) as Hnil
    by (exists []; by rewrite app_nil_r).
  intros Hreq. unfold dispatch. destruct (env_payload env) as [req|resp|req|resp|r|r|v|n|v|ok e] eqn:Ep;
    try (by intros [= _ <-]).
  - rewrite (Hreq req eq_refl). intros [= _ <-]. eexists. split; [done|]. constructor; [|constructor].
    cbn. by rewrite andb_false_r.
  - destruct (vresp_is_pre_vote resp); [by intros [= _ <-]|]. unfold count_vote.
    destruct (_ && _); [|by intros [= _ <-]]. destruct (negb _); [by intros [= _ <-]|].
    destruct (record_vote _ _) as [s maj]. destruct maj; [apply win_election_grants|by intros [= _ <-]].
  - destruct (role_eqb _ _); [|by intros [= _ <-]]. destruct (clk_now _). by intros [= _ <-].
Qed.

Lemma react_grants (env : RpcEnvelope) (l l' : EventLoop) batch a target t :
  react env l = (l', batch) -> a ∈ batch -> grants a = Some (target, t) ->
  vote l' = (t, Some target) /\ role (base (state l')) <> Leader /\
  exists b1 qs, batch = b1 ++ [PersistQuorumState qs; a] /\
    (qs_current_term qs, qs_voted_for qs) = vote l'.
Proof.
  unfold react. intros Hr Ha Hgr.
  destruct (if is_pre_vote (env_payload env) then _ else _) as [[l1 b0] sd] eqn:E0.
  assert (Forall (fun a => grants a = None) b0 /\
    (is_pre_vote (env_payload env) = false -> effective_term env <= current_term (base (state l1)))) as [Hb0 Ht].
  { destruct (is_pre_vote (env_payload env)); [injection E0 as <- <- <-; split; [constructor|done]|].
    destruct (maybe_step_down_on_higher_term _ _ _) as [[s c] sd'] eqn:Es. injection E0 as <- <- <-.
    destruct (step_down_reaction _ _ _ _ _ Es) as (_ & _ & Hle & _). split; [|done].
    destruct sd'; by repeat constructor. }
  assert (forall b1, batch = b0 ++ b1 -> Forall (fun a => grants a = None) b1 -> False) as Hno.
  { intros b1 -> Hb1. pose proof (Forall_app_2 _ _ _ Hb0 Hb1) as Hall. rewrite list.Forall_forall in Hall.
    specialize (Hall a Ha). congruence. }
  destruct (env_payload env) as [req|resp|req|resp|r|r|v|n|v|ok e] eqn:Ep;
    try (destruct (dispatch_grants env sd l1 l' b0 batch) as (b1 & H1' & H2'); [congruence|done|by destruct (Hno b1)]).
  destruct (vreq_is_pre_vote req) eqn:Epre.
  { destruct (dispatch_grants env sd l1 l' b0 batch) as (b1 & H1' & H2'); [congruence|done|by destruct (Hno b1)]. }
  unfold dispatch in Hr. rewrite Ep, Epre in Hr.
  destruct (handle_vote_request req (state l1) (clock l1) b0) as [[s c] b1] eqn:Ev. injection Hr as <- <-.
  destruct (vote_request_reaction req l1 b0 s c b1) as (_ & granted & Hb1 & Hg);
    [unfold effective_term in Ht; rewrite Ep in Ht; apply Ht; unfold is_pre_vote; done|done|].
  destruct granted; [|destruct (Hno [SendRpc (candidate_id req)
    (envelope_of s (PVoteResponse (mkVoteResponse (current_term (base s)) false false)))]);
    [done|by repeat constructor]].
  destruct (Hg eq_refl) as [Hvote Hrole]. unfold batch_push in Hb1. rewrite <- app_assoc in Hb1. subst b1.
  rewrite elem_of_app in Ha. destruct Ha as [Ha|Ha];
    [rewrite list.Forall_forall in Hb0; specialize (Hb0 a Ha); congruence|].
  apply elem_of_cons in Ha as [->|Ha]; [done|]. apply list_elem_of_singleton in Ha as ->.
  cbn in Hgr. injection Hgr as <- <-. unfold vote_of_state in Hvote. injection Hvote as Hv1 Hv2.
  cbn. unfold vote_of_state. cbn. rewrite Hv2. split_and!; [done|done|].
  eexists b0, _. split; [done|]. done.
Qed.

(** C13: A vote is recorded before it is answered.  Every granted real vote
    among the actions a message causes stands directly behind the record of
    it in the batch, names the node's term and goes to the candidate the node
    has voted for in that term; the node is not a leader. *)
Theorem granted_vote_recorded_first (env : RpcEnvelope) (l l' : EventLoop) batch a target t :
  react env l = (l', batch) -> a ∈ batch -> grants a = Some (target, t) ->
  vote l' = (t, Some target) /\ role (base (state l')) <> Leader /\
  exists b1 qs, batch = b1 ++ [PersistQuorumState qs; a] /\
    (qs_current_term qs, qs_voted_for qs) = vote l'.
Proof. apply react_grants. Qed.

(** Pre-votes change nothing.  A pre-vote request leaves the node exactly
    as it was and is answered with one message: granted when the term is not
    behind ours and the log is at least as up to date. *)
Theorem pre_vote_inert (env : RpcEnvelope) (req : VoteRequest) (l : EventLoop) :
  env_payload env = PVoteRequest req -> vreq_is_pre_vote req = true ->
  exists granted,
    react env l = (l, [SendRpc (candidate_id req) (envelope_of (state l)
      (PVoteResponse (mkVoteResponse (current_term (base (state l))) granted true)))]) /\
    granted = (current_term (base (state l)) <=? vreq_term req) && log_ok req (state l).
Proof.
  intros Hp Hpre. unfold react, dispatch, is_pre_vote. rewrite Hp, Hpre. cbn. eexists. split; [done|].
  rewrite N.leb_antisym. by destruct (vreq_term req <? _).
Qed.

(** Check quorum.  A leader whose voters still fetch stays leader and
    checks again after the interval; otherwise it becomes a follower without a
    leader in the same term and keeps its vote, in memory and in the record it
    writes. *)
Theorem check_quorum_correct (l l' : EventLoop) r :
  handle_check_quorum l = (l', r) ->
  let '(c1, now) := clk_now (clock l) in
  let interval := check_quorum_interval (state l) in
  if nt_check_quorum now interval (state l) then
    r = Ok tt /\ state l' = set_base (fun b => b <| check_quorum_deadline := now + interval |>) (state l) /\
    io_stage l' = io_stage l
  else
    role (base (state l')) = Follower /\ leader_id (base (state l')) = None /\ vote l' = vote l /\
    identity_of (state l') = identity_of (state l) /\
    (r = Ok tt -> durable_vote (io_stage l') = vote l).
Proof.
  unfold handle_check_quorum. destruct (clk_now (clock l)) as [c1 now].
  destruct (nt_check_quorum now _ (state l)); [by intros [= <- <-]|].
  unfold lose_quorum. cbn. destruct (clk_random_election_timeout c1) as [c2 t]. intros He.
  destruct (publish_and_execute_ok _ _ _ _ He) as [Hs Hd]. rewrite Hs. cbn.
  destruct (follower_fields (current_term (base (state l))) None (now + t) (state l)) as (F1 & F2 & F3 & _).
  pose proof (follower_identity (current_term (base (state l))) None (now + t) (state l)) as Hid.
  split_and!; [done|done|unfold vote_of_state; cbn; by rewrite F1|done|].
  intros Hr. rewrite (Hd Hr). unfold vote_of_state. cbn. by rewrite F1.
Qed.
End Loop.
End EventLoop.

(** * Demonstration *)

Module EventLoopDemo.

Import ElectionManager EventLoop.

(** The transitions as the comments describe them. *)
#[export] Instance demo_transitions : NodeTransitions := {|
  nt_become_follower t l d := set_base (fun b =>
    b <| current_term := t |> <| role := Follower |> <| leader_id := l |> <| voted_for := None |>
      <| election_deadline := d |>);
  nt_become_candidate d := set_base (fun b =>
    b <| current_term := next_term (current_term b) |> <| role := Candidate |>
      <| voted_for := Some (node_id b) |> <| votes_received := {[node_id b]} |> <| election_deadline := d |>);
  nt_become_leader now timeout s := mkElectionState
    ((base s) <| role := Leader |> <| leader_id := Some (node_id (base s)) |>
              <| check_quorum_deadline := now + timeout |>) (es_last_log_term s) timeout;
  nt_voter_count s := length (voter_set (base s));
  nt_is_voter s := is_member (node_id (base s)) (voter_set (base s));
  nt_majority s := majority_of (length (voter_set (base s)));
  nt_is_in_voter_set n s := is_member n (voter_set (base s));
  nt_check_quorum _ _ s := bool_decide (follower_state (base s) <> ∅);
  nt_record_fetch n o now := set_base (fun b =>
    b <| follower_state := <[n := mkFollowerProgress n o now true]> (follower_state b) |>);
  nt_update_last_log_term t s := mkElectionState (base s) t (check_quorum_interval s);
|}.

#[export] Instance demo_transitions_laws : NodeTransitionsLaws.
Proof. by split. Qed.

Definition demo_base : NodeState :=
  (new_unattached 1 0) <| cluster_id := 9 |> <| role := Follower |>
    <| voter_set := [mkVoterInfo 1 "a"; mkVoterInfo 2 "b"; mkVoterInfo 3 "c"] |>.

Abbreviation Loop := (EventLoop (CK := Mocks.MockClock) (LI := unit) (L := Mocks.MockLogStore)
  (T := Mocks.MockTransportSender) (Q := Mocks.MockQuorumStateStore QuorumState) (S := Mocks.MockSnapshotIO)).

Definition demo_loop : Loop :=
  mkLoop (mkElectionState demo_base 0 0) (Mocks.clock_new 0)
    (TryJoined.mkStage Mocks.log_new Mocks.sender_new Mocks.quorum_new Mocks.snapshot_new) tt [].

Definition vote_from_2 : RpcEnvelope := mkRpcEnvelope 9 0 2 (PVoteResponse (mkVoteResponse 1 true false)).
Definition request_from_2 (pre : bool) : RpcEnvelope :=
  mkRpcEnvelope 9 0 2 (PVoteRequest (mkVoteRequest 4 2 0 0 pre)).

Lemma demo_good : good (state demo_loop).
Proof. intros [?|?]; done. Qed.

(** The timer makes a candidate, the vote of node 2 a leader. *)
Lemma event_loop_votes_safe_witness :
  let l := (iteration (Message (Some (Rpc vote_from_2))) demo_loop).1 in
  role (base (state l)) = Leader /\ durable_vote (io_stage l) = (1, Some 1).
Proof.
  intros l. split; [by vm_compute|].
  destruct (event_loop_votes_safe (Message (Some (Rpc vote_from_2))) demo_loop l (Ok false))
    as (_ & _ & H & _); [apply demo_good|done|by vm_compute|].
  rewrite H; [by vm_compute|done|by vm_compute].
Defined.

Lemma granted_vote_recorded_first_witness :
  exists b1 qs, (react (request_from_2 false) demo_loop).2
    = b1 ++ [PersistQuorumState qs; SendRpc 2 (mkRpcEnvelope 9 0 1 (PVoteResponse (mkVoteResponse 4 true false)))].
Proof.
  destruct (granted_vote_recorded_first (request_from_2 false) demo_loop
    (react (request_from_2 false) demo_loop).1 (react (request_from_2 false) demo_loop).2
    (SendRpc 2 (mkRpcEnvelope 9 0 1 (PVoteResponse (mkVoteResponse 4 true false)))) 2 4)
    as (_ & _ & b1 & qs & H & _); [by vm_compute| |by vm_compute|].
  - vm_compute. by right; right; left.
  - exists b1, qs. exact H.
Defined.

Lemma pre_vote_inert_witness : (react (request_from_2 true) demo_loop).1 = demo_loop.
Proof.
  destruct (pre_vote_inert (request_from_2 true) (mkVoteRequest 4 2 0 0 true) demo_loop) as (g & H & _);
    [reflexivity|reflexivity|]. by rewrite H.
Defined.

Definition demo_leader : Loop := (iteration (Message (Some (Rpc vote_from_2))) demo_loop).1.

Lemma check_quorum_correct_witness :
  vote_of_state (state (handle_check_quorum demo_leader).1) = (1, Some 1).
Proof.
  pose proof (check_quorum_correct demo_leader (handle_check_quorum demo_leader).1
    (handle_check_quorum demo_leader).2 (surjective_pairing _)) as H.
  destruct (clk_now (clock demo_leader)) as [c now] eqn:Ec.
  assert (nt_check_quorum now (check_quorum_interval (state demo_leader)) (state demo_leader) = false) as Hf
    by (by vm_compute).
  cbv zeta in H. rewrite Hf in H. destruct H as (_ & _ & H & _). rewrite H. by vm_compute.
Defined.

End EventLoopDemo.
