(* ===== verification/Bytes.v ===== *)
(** * Fixed-width integers as bytes

    [to_le_bytes]/[from_le_bytes] and [to_be_bytes]/[from_be_bytes] of the
    Rust standard library, and [read_exact] on an in-memory file. *)

From Stdlib Require Import ZifyBool ZifyN ZifyNat Lia.
From Stdlib Require Import Strings.Byte.
From stdpp Require Import base list numbers option.
From S2P Require Import Prelude Types.

(** The low byte of [n]. *)
Definition byte_of (n : N) : byte := default x00 (Byte.of_N (n mod 256)).

Lemma to_N_byte_of (n : N) : Byte.to_N (byte_of n) = n mod 256.
Proof.
  unfold byte_of. destruct (Byte.of_N (n mod 256)) as [b|] eqn:E; cbn.
  - by apply Byte.to_of_N.
  - apply Byte.of_N_None_iff in E. pose proof (N.mod_lt n 256). lia.
Qed.

Lemma byte_of_to_N (b : byte) : byte_of (Byte.to_N b) = b.
Proof. by destruct b. Qed.

(** ** Little endian *)

Fixpoint to_le_bytes (k : nat) (n : N) : bytes :=
  match k with
  | O => []
  | S k' => byte_of n :: to_le_bytes k' (n / 256)
  end.

Fixpoint from_le_bytes (bs : bytes) : N :=
  match bs with
  | [] => 0
  | b :: bs' => Byte.to_N b + 256 * from_le_bytes bs'
  end.

Lemma length_to_le_bytes (k : nat) (n : N) : length (to_le_bytes k n) = k.
Proof. revert n. induction k as [|k IH]; intros n; cbn; [done|by rewrite IH]. Qed.

Lemma from_to_le_bytes (k : nat) (n : N) :
  n < 256 ^ N.of_nat k -> from_le_bytes (to_le_bytes k n) = n.
Proof.
  revert n. induction k as [|k IH]; intros n Hn.
  - cbn in *. lia.
  - cbn [to_le_bytes from_le_bytes]. rewrite to_N_byte_of, IH.
    + pose proof (N.div_mod n 256). lia.
    + rewrite Nat2N.inj_succ, N.pow_succ_r' in Hn.
      apply N.Div0.div_lt_upper_bound. lia.
Qed.

Lemma from_le_bytes_bound (bs : bytes) : from_le_bytes bs < 256 ^ N.of_nat (length bs).
Proof.
  induction bs as [|b bs IH]; [cbn; lia|]. cbn [from_le_bytes length].
  rewrite Nat2N.inj_succ, N.pow_succ_r'. pose proof (Byte.to_N_bounded b). lia.
Qed.

Lemma to_from_le_bytes (bs : bytes) : to_le_bytes (length bs) (from_le_bytes bs) = bs.
Proof.
  induction bs as [|b bs IH]; [done|]. cbn [length to_le_bytes from_le_bytes].
  pose proof (Byte.to_N_bounded b).
  assert ((Byte.to_N b + 256 * from_le_bytes bs) / 256 = from_le_bytes bs) as ->.
  { symmetry. apply (N.div_unique _ _ _ (Byte.to_N b)); lia. }
  rewrite IH. f_equal. rewrite <- (byte_of_to_N b) at 2. unfold byte_of. do 2 f_equal.
  rewrite N.mul_comm, N.Div0.mod_add. done.
Qed.

(** ** Big endian *)

Definition to_be_bytes (k : nat) (n : N) : bytes := rev (to_le_bytes k n).
Definition from_be_bytes (bs : bytes) : N := from_le_bytes (rev bs).

Lemma length_to_be_bytes (k : nat) (n : N) : length (to_be_bytes k n) = k.
Proof. unfold to_be_bytes. by rewrite length_rev, length_to_le_bytes. Qed.

Lemma from_to_be_bytes (k : nat) (n : N) :
  n < 256 ^ N.of_nat k -> from_be_bytes (to_be_bytes k n) = n.
Proof. unfold from_be_bytes, to_be_bytes. rewrite rev_involutive. apply from_to_le_bytes. Qed.

Lemma to_from_be_bytes (bs : bytes) : to_be_bytes (length bs) (from_be_bytes bs) = bs.
Proof.
  unfold from_be_bytes, to_be_bytes. rewrite <- (length_rev bs), to_from_le_bytes.
  apply rev_involutive.
Qed.

(** ** Reading *)

(** [read_exact] of [k] bytes: the bytes and the rest, or end of file. *)
Definition read_exact (k : nat) (rest : bytes) : option (bytes * bytes) :=
  if (length rest <? k)%nat then None else Some (take k rest, drop k rest).

Lemma read_exact_app (k : nat) (a b : bytes) :
  length a = k -> read_exact k (a ++ b) = Some (a, b).
Proof.
  intros <-. unfold read_exact. rewrite length_app.
  replace (length a + length b <? length a)%nat with false by lia.
  by rewrite take_app_length, drop_app_length.
Qed.

Lemma read_exact_short (k : nat) (a : bytes) : (length a < k)%nat -> read_exact k a = None.
Proof. intros H. unfold read_exact. by replace (length a <? k)%nat with true by lia. Qed.

Lemma read_exact_Some (k : nat) (l a b : bytes) :
  read_exact k l = Some (a, b) -> l = a ++ b /\ length a = k.
Proof.
  unfold read_exact. destruct (length l <? k)%nat eqn:E; [done|]. intros [= <- <-].
  rewrite take_drop, length_take. split; [done|lia].
Qed.
