(* ===== verification/Codec.v ===== *)
(** * The wire codec: [xraft-transport/src/codec.rs]

    Length-prefixed frames: four big-endian bytes, then the [bincode] payload.
    [bincode] is a parameter. *)

From Stdlib Require Import ZifyBool ZifyN ZifyNat Lia.
From Stdlib Require Import Strings.Byte.
From stdpp Require Import base list numbers option strings.
From S2P Require Import Prelude Types Bytes.

Module Codec.

Definition MAX_FRAME_LEN : N := 64 * 1024 * 1024.

Record RpcCodec := mkCodec { expected_cluster_id : ClusterId }.

Section Codec.
Context (serialize : RpcEnvelope -> option bytes).
Context (deserialize : bytes -> option RpcEnvelope).

Definition terr {A} (reason : string) : Result A := Err (TransportError reason).

Definition encode (c : RpcCodec) (envelope : RpcEnvelope) : Result bytes :=
  match serialize envelope with
  | None => terr "bincode encode failed"
  | Some payload =>
      let len := N.of_nat (length payload) in
      if u32_modulus <=? len then terr "envelope too large for u32 length prefix"
      else if MAX_FRAME_LEN <? len then terr "encoded envelope exceeds MAX_FRAME_LEN"
      else Ok (to_be_bytes 4 len ++ payload)
  end.

Definition decode (c : RpcCodec) (buf : bytes) : Result RpcEnvelope :=
  if (length buf <? 4)%nat then terr "buffer too short for length prefix"
  else
    let len := from_be_bytes (take 4 buf) in
    if MAX_FRAME_LEN <? len then terr "declared frame length exceeds MAX_FRAME_LEN"
    else
      let payload := drop 4 buf in
      if N.of_nat (length payload) <? len then terr "buffer shorter than declared length"
      else if len <? N.of_nat (length payload) then
        terr "trailing bytes after declared payload length"
      else match deserialize payload with
           | None => terr "bincode decode failed"
           | Some envelope =>
               if negb (env_cluster_id envelope =? expected_cluster_id c) then Err InvalidClusterId
               else Ok envelope
           end.

(** ** What is accepted *)

(** A frame: four length bytes that announce exactly the rest. *)
Definition frame (payload : bytes) : bytes := to_be_bytes 4 (N.of_nat (length payload)) ++ payload.

Lemma frame_split (payload : bytes) :
  N.of_nat (length payload) <= MAX_FRAME_LEN ->
  length (frame payload) = (4 + length payload)%nat /\
  from_be_bytes (take 4 (frame payload)) = N.of_nat (length payload) /\
  drop 4 (frame payload) = payload.
Proof.
  intros Hl. unfold frame. pose proof (length_to_be_bytes 4 (N.of_nat (length payload))) as H4.
  rewrite length_app, H4, take_app_le, drop_app_ge, H4, take_ge by lia.
  split; [done|]. rewrite from_to_be_bytes.
  - by rewrite Nat.sub_diag.
  - unfold MAX_FRAME_LEN in Hl. cbn. lia.
Qed.

(** The decoder accepts exactly the frames of its own cluster: [decode]
    returns an envelope if and only if the buffer is the length prefix of a
    payload of at most [MAX_FRAME_LEN] bytes followed by that payload and
    nothing else, the payload decodes to the envelope, and the envelope
    carries the expected cluster id. *)
Theorem decode_accepts_exactly_frames (c : RpcCodec) (buf : bytes) (envelope : RpcEnvelope) :
  decode c buf = Ok envelope <->
  exists payload, buf = frame payload /\ N.of_nat (length payload) <= MAX_FRAME_LEN /\
    deserialize payload = Some envelope /\ env_cluster_id envelope = expected_cluster_id c.
Proof.
  split.
  - unfold decode, terr. destruct (length buf <? 4)%nat eqn:E1; [done|].
    destruct (MAX_FRAME_LEN <? _) eqn:E2; [done|].
    destruct (N.of_nat (length (drop 4 buf)) <? from_be_bytes (take 4 buf)) eqn:E3; [done|].
    destruct (from_be_bytes (take 4 buf) <? N.of_nat (length (drop 4 buf))) eqn:E4; [done|].
    destruct (deserialize (drop 4 buf)) as [env|] eqn:E5; [|done].
    destruct (_ =? _) eqn:E6; [|done]. cbn [negb]. intros [= <-].
    exists (drop 4 buf). split_and!; [|lia|done|lia].
    unfold frame. replace (N.of_nat (length (drop 4 buf))) with (from_be_bytes (take 4 buf)) by lia.
    assert (length (take 4 buf) = 4%nat) as Hl by (rewrite length_take; lia).
    rewrite <- Hl at 1. rewrite to_from_be_bytes. symmetry. apply take_drop.
  - intros (payload & -> & Hl & Hd & Hc). destruct (frame_split payload Hl) as (H1 & H2 & H3).
    unfold decode, terr. rewrite H1, H2, H3, Hd.
    replace (4 + length payload <? 4)%nat with false by lia.
    replace (MAX_FRAME_LEN <? N.of_nat (length payload)) with false by lia.
    rewrite N.ltb_irrefl. by replace (env_cluster_id envelope =? expected_cluster_id c) with true by lia.
Qed.

Lemma encode_ok (c : RpcCodec) (envelope : RpcEnvelope) (buf : bytes) :
  encode c envelope = Ok buf <->
  exists payload, serialize envelope = Some payload /\
    N.of_nat (length payload) <= MAX_FRAME_LEN /\ buf = frame payload.
Proof.
  unfold encode, terr, frame, MAX_FRAME_LEN, u32_modulus.
  destruct (serialize envelope) as [payload|]; [|naive_solver].
  destruct (_ <=? _) eqn:E1; [split; [done|]; intros (p & [= <-] & Hl & _); lia|].
  destruct (_ <? _) eqn:E2; [split; [done|]; intros (p & [= <-] & Hl & _); lia|].
  split; [intros [= <-]; exists payload; split_and!; [done|lia|done]|].
  by intros (p & [= <-] & _ & ->).
Qed.

(** What a codec makes of a frame. *)
Lemma decode_frame (d : RpcCodec) (envelope : RpcEnvelope) (payload : bytes) :
  N.of_nat (length payload) <= MAX_FRAME_LEN -> deserialize payload = Some envelope ->
  decode d (frame payload) = if env_cluster_id envelope =? expected_cluster_id d
                             then Ok envelope else Err InvalidClusterId.
Proof.
  intros Hl Hs. destruct (frame_split payload Hl) as (H1 & H2 & H3).
  unfold decode, terr. rewrite H1, H2, H3, Hs.
  replace (4 + length payload <? 4)%nat with false by lia.
  replace (MAX_FRAME_LEN <? N.of_nat (length payload)) with false by lia.
  rewrite N.ltb_irrefl. by destruct (_ =? _).
Qed.

(** A buffer that is no frame is refused. *)
Lemma decode_no_frame (d : RpcCodec) (buf : bytes) :
  (forall payload, buf = frame payload -> N.of_nat (length payload) <= MAX_FRAME_LEN -> False) ->
  is_ok (decode d buf) = false.
Proof.
  intros Hno. destruct (decode d buf) as [envelope|] eqn:E; [|done].
  apply decode_accepts_exactly_frames in E as (payload & Hb & Hl & _). by destruct (Hno payload).
Qed.

(** Cutting a frame or adding to it gives no frame. *)
Lemma frame_cut (payload q : bytes) (n : nat) :
  N.of_nat (length payload) <= MAX_FRAME_LEN -> (n < length (frame payload))%nat ->
  take n (frame payload) = frame q -> N.of_nat (length q) <= MAX_FRAME_LEN -> False.
Proof.
  intros Hl Hn Heq Hq. destruct (frame_split payload Hl) as (H1 & H2 & _).
  destruct (frame_split q Hq) as (G1 & G2 & _).
  assert (length (take n (frame payload)) = length (frame q)) as Hlen by by rewrite Heq.
  rewrite length_take, G1, H1 in Hlen. rewrite <- Heq, take_take, Nat.min_l, H2 in G2 by lia. lia.
Qed.
Lemma frame_extend (payload q more : bytes) :
  N.of_nat (length payload) <= MAX_FRAME_LEN -> more <> [] ->
  frame payload ++ more = frame q -> N.of_nat (length q) <= MAX_FRAME_LEN -> False.
Proof.
  intros Hl Hn Heq Hq. destruct (frame_split q Hq) as (G1 & _).
  apply (frame_cut q payload (length (frame payload)) Hq); [|by rewrite <- Heq, take_app_length|done].
  rewrite <- Heq, length_app. destruct more; [done|]. cbn. lia.
Qed.

(** C37: Wire round trip.  An envelope that one codec encodes is decoded to
    itself by a codec of the envelope's cluster, and refused with
    [InvalidClusterId] by a codec of any other cluster. *)
Theorem encode_decode_roundtrip (c d : RpcCodec) (envelope : RpcEnvelope) (buf : bytes) :
  (forall e p, serialize e = Some p -> deserialize p = Some e) ->
  encode c envelope = Ok buf ->
  decode d buf = if env_cluster_id envelope =? expected_cluster_id d
                 then Ok envelope else Err InvalidClusterId.
Proof.
  intros Hrt (payload & Hs & Hl & ->)%encode_ok. apply decode_frame; auto.
Qed.
End Codec.

(** One message type, encoded in one byte, shows the hypotheses can hold. *)
Definition demo_env : RpcEnvelope := mkRpcEnvelope 7 0 1 (PRemoveVoterRequest 3).
Definition demo_ser (e : RpcEnvelope) : option bytes :=
  match e with
  | mkRpcEnvelope 7 0 1 (PRemoveVoterRequest 3) => Some [x01]
  | _ => None
  end.
Definition demo_de (b : bytes) : option RpcEnvelope :=
  match b with [x01] => Some demo_env | _ => None end.

Lemma demo_roundtrip (e : RpcEnvelope) (p : bytes) : demo_ser e = Some p -> demo_de p = Some e.
Proof.
  destruct e as [c t s pl]. cbn. intros H. split_code_in H. done.
Qed.

Lemma encode_decode_roundtrip_witness :
  decode demo_de (mkCodec 7) [x00; x00; x00; x01; x01] = Ok demo_env.
Proof.
  apply (encode_decode_roundtrip demo_ser demo_de (mkCodec 7) (mkCodec 7) demo_env);
    [apply demo_roundtrip|by vm_compute].
Defined.

End Codec.
