(* ===== verification/Segment.v ===== *)
(** * Log segments: [xraft-storage/src/segment.rs]

    One segment file and its in-memory bookkeeping.  The file is its bytes;
    the cursor of the source always stands at [pos], so the bytes from [pos]
    on are passed along.  [bincode] and [crc32c] are parameters. *)

From Stdlib Require Import ZifyBool ZifyN ZifyNat Lia.
From Stdlib Require Import Strings.Byte.
From stdpp Require Import base list numbers option strings.
From S2P Require Import Prelude Types Interfaces Bytes.

Module Segment.

Definition BATCH_MAGIC : bytes := [x58; x52; x41; x46].

Record Segment := mkSegment {
  base_offset : N;
  file : bytes;
  size : N;
  entry_count : N;
  next_offset : N;
}.

(** [File::set_len]: truncate, or extend with zeros. *)
Definition set_len (n : N) (f : bytes) : bytes :=
  take (N.to_nat n) (f ++ replicate (N.to_nat n - length f) x00).

(** Overwrite from [pos] on. *)
Definition write_at (pos : N) (data f : bytes) : bytes :=
  take (N.to_nat pos) f ++ data ++ drop (N.to_nat pos + length data) f.

Section Segment.
Context (serialize : list LogEntry -> option bytes).
Context (deserialize : bytes -> option (list LogEntry)).
Context (crc32c : bytes -> N).

(** ** Batches *)

Definition batch_bytes (payload : bytes) : bytes :=
  BATCH_MAGIC ++ to_le_bytes 4 (crc32c payload)
    ++ to_le_bytes 4 (N.of_nat (length payload) mod u32_modulus) ++ payload.

(** The fields of a 12-byte header. *)
Definition header_crc (h : bytes) : N := from_le_bytes (take 4 (drop 4 h)).
Definition header_len (h : bytes) : N := from_le_bytes (take 4 (drop 8 h)).
Definition header_magic_ok (h : bytes) : bool := bool_decide (take 4 h = BATCH_MAGIC).

(** ** Recovery *)

(** The scan of [recover]; returns the entries counted and the end of the
    last good batch. *)
Fixpoint recover_loop (fuel : nat) (file_size : N) (rest : bytes) (pos total last_good : N)
  : N * N :=
  match fuel with
  | O => (total, last_good)
  | S fuel' =>
      if negb (pos + 12 <=? file_size) then (total, last_good)
      else match read_exact 12 rest with
      | None => (total, last_good)
      | Some (header, rest1) =>
          if negb (header_magic_ok header) then (total, last_good)
          else
            let stored_crc := header_crc header in
            let payload_len := header_len header in
            if file_size <? pos + 12 + payload_len then (total, last_good)
            else match read_exact (N.to_nat payload_len) rest1 with
            | None => (total, last_good)
            | Some (payload, rest2) =>
                if negb (crc32c payload =? stored_crc) then (total, last_good)
                else match deserialize payload with
                | None => (total, last_good)
                | Some entries =>
                    let pos' := pos + 12 + payload_len in
                    recover_loop fuel' file_size rest2 pos'
                      (u64_add total (N.of_nat (length entries))) pos'
                end
            end
      end
  end.

Definition recover (s : Segment) : Segment :=
  let '(total, last_good) := recover_loop (S (length (file s))) (size s) (file s) 0 0 0 in
  let shrink := last_good <? size s in
  mkSegment (base_offset s)
    (if shrink then set_len last_good (file s) else file s)
    (if shrink then last_good else size s)
    total (u64_add (base_offset s) total).

(** [Segment::open] on a file with the given contents (empty when it was
    just created). *)
Definition open (contents : bytes) (base : N) : Segment :=
  let s := mkSegment base contents (N.of_nat (length contents)) 0 base in
  if 0 <? size s then recover s else s.

(** ** Append *)

Definition append (entries : list LogEntry) : SE Segment XraftError unit := fun s =>
  match entries with
  | [] => (s, Ok tt)
  | _ =>
      match serialize entries with
      | None => (s, Err (IoOther "bincode"%string))
      | Some payload =>
          let buf := batch_bytes payload in
          let n := N.of_nat (length entries) in
          (mkSegment (base_offset s) (file s ++ buf) (size s + N.of_nat (length buf))
             (u64_add (entry_count s) n) (u64_add (next_offset s) n), Ok tt)
      end
  end.

(** ** Read *)

Fixpoint read_loop (fuel : nat) (start end_ file_size : N) (rest : bytes) (pos : N)
    (result : list LogEntry) : Result (list LogEntry) :=
  match fuel with
  | O => Ok result
  | S fuel' =>
      if negb (pos + 12 <=? file_size) then Ok result
      else match read_exact 12 rest with
      | None => Err IoUnexpectedEof
      | Some (header, rest1) =>
          if negb (header_magic_ok header) then Err (Corruption "invalid batch magic"%string)
          else
            let payload_len := header_len header in
            match read_exact (N.to_nat payload_len) rest1 with
            | None => Err IoUnexpectedEof
            | Some (payload, rest2) =>
                if negb (crc32c payload =? header_crc header) then
                  Err (Corruption "CRC mismatch"%string)
                else match deserialize payload with
                | None => Err (Corruption "deserialize error"%string)
                | Some entries =>
                    read_loop fuel' start end_ file_size rest2 (pos + 12 + payload_len)
                      (result ++ list_filter
                         (fun e => (start <=? offset e) && (offset e <? end_)) entries)
                end
            end
      end
  end.

Definition read (start end_ : N) (s : Segment) : Result (list LogEntry) :=
  read_loop (S (length (file s))) start end_ (size s) (file s) 0 [].

Definition read_all (s : Segment) : Result (list LogEntry) := read 0 u64_max s.

(** ** Truncate *)

(** What the scan of [truncate_suffix] decides: where to cut and how many
    entries remain, and the batch to write at the cut first. *)
Inductive Cut :=
| NoCut
| CutAt (pos remaining : N)
| CutAfterRewrite (pos : N) (batch : bytes) (remaining : N)
| CutFails (e : XraftError).

Fixpoint truncate_loop (fuel : nat) (from file_size : N) (rest : bytes) (pos remaining : N) : Cut :=
  match fuel with
  | O => NoCut
  | S fuel' =>
      if negb (pos + 12 <=? file_size) then NoCut
      else match read_exact 12 rest with
      | None => CutFails IoUnexpectedEof
      | Some (header, rest1) =>
          if negb (header_magic_ok header) then NoCut
          else
            let payload_len := header_len header in
            match read_exact (N.to_nat payload_len) rest1 with
            | None => CutFails IoUnexpectedEof
            | Some (payload, rest2) =>
                match deserialize payload with
                | None => NoCut
                | Some entries =>
                    if existsb (fun e => from <=? offset e) entries then
                      let before := list_filter (fun e => offset e <? from) entries in
                      match before with
                      | [] => CutAt pos remaining
                      | _ =>
                          match serialize before with
                          | None => CutFails (IoOther "bincode"%string)
                          | Some new_payload =>
                              CutAfterRewrite pos (batch_bytes new_payload)
                                (u64_add remaining (N.of_nat (length before)))
                          end
                      end
                    else
                      truncate_loop fuel' from file_size rest2 (pos + 12 + payload_len)
                        (u64_add remaining (N.of_nat (length entries)))
                end
            end
      end
  end.

Definition truncate_suffix (from : N) : SE Segment XraftError bool := fun s =>
  let cut pos remaining f :=
    (mkSegment (base_offset s) (set_len pos f) pos remaining
       (u64_add (base_offset s) remaining), Ok true) in
  match truncate_loop (S (length (file s))) from (size s) (file s) 0 0 with
  | NoCut => (s, Ok false)
  | CutFails e => (s, Err e)
  | CutAt pos remaining => cut pos remaining (file s)
  | CutAfterRewrite pos batch remaining =>
      cut (pos + N.of_nat (length batch)) remaining (write_at pos batch (file s))
  end.

(** ** The contents of a well-formed file *)

Context (deserialize_serialize : forall es p, serialize es = Some p -> deserialize p = Some es).
Context (crc_bound : forall p, crc32c p < u32_modulus).

(** [encodes bs f]: [f] is the batches [bs], one after the other, each of
    less than 4 GiB. *)
Inductive encodes : list (list LogEntry) -> bytes -> Prop :=
| encodes_nil : encodes [] []
| encodes_cons es bs payload f :
    serialize es = Some payload -> N.of_nat (length payload) < u32_modulus ->
    encodes bs f -> encodes (es :: bs) (batch_bytes payload ++ f).

Lemma encodes_app (bs1 bs2 : list (list LogEntry)) (f1 f2 : bytes) :
  encodes bs1 f1 -> encodes bs2 f2 -> encodes (bs1 ++ bs2) (f1 ++ f2).
Proof.
  intros H1 H2. induction H1 as [|es bs payload f Hs Hl _ IH]; [done|].
  cbn. rewrite <- app_assoc. by constructor.
Qed.

Lemma encodes_snoc (bs : list (list LogEntry)) (f : bytes) (es : list LogEntry) (payload : bytes) :
  encodes bs f -> serialize es = Some payload -> N.of_nat (length payload) < u32_modulus ->
  encodes (bs ++ [es]) (f ++ batch_bytes payload).
Proof.
  intros Hf Hs Hl. apply encodes_app; [done|]. rewrite <- (app_nil_r (batch_bytes payload)).
  constructor; [done|done|constructor].
Qed.

(** *** Headers *)

Definition header_of (payload : bytes) : bytes :=
  BATCH_MAGIC ++ to_le_bytes 4 (crc32c payload)
    ++ to_le_bytes 4 (N.of_nat (length payload) mod u32_modulus).

Lemma batch_bytes_split (payload : bytes) : batch_bytes payload = header_of payload ++ payload.
Proof. unfold batch_bytes, header_of. by rewrite <- !app_assoc. Qed.

Lemma length_header (payload : bytes) : length (header_of payload) = 12%nat.
Proof. unfold header_of. by rewrite !length_app, !length_to_le_bytes. Qed.

Lemma length_batch (payload : bytes) : length (batch_bytes payload) = (12 + length payload)%nat.
Proof. rewrite batch_bytes_split, length_app, length_header. done. Qed.

Lemma header_of_fields (payload : bytes) :
  N.of_nat (length payload) < u32_modulus ->
  header_magic_ok (header_of payload) = true /\
  header_crc (header_of payload) = crc32c payload /\
  header_len (header_of payload) = N.of_nat (length payload).
Proof.
  intros Hl. pose proof (crc_bound payload) as Hc. unfold u32_modulus in *.
  unfold header_magic_ok, header_crc, header_len, header_of. split_and!.
  - by apply bool_decide_eq_true.
  - change (drop 4 (BATCH_MAGIC ++ ?x)) with x. rewrite take_app_le by (by rewrite length_to_le_bytes).
    rewrite take_ge by (by rewrite length_to_le_bytes). apply from_to_le_bytes. by change (256 ^ N.of_nat 4) with 4294967296.
  - change (drop 8 (BATCH_MAGIC ++ ?x)) with (drop 4 x).
    rewrite drop_app_length' by (by rewrite length_to_le_bytes).
    rewrite take_ge by (by rewrite length_to_le_bytes).
    rewrite N.mod_small by done. apply from_to_le_bytes. by change (256 ^ N.of_nat 4) with 4294967296.
Qed.

Lemma scan_batch (payload f : bytes) :
  N.of_nat (length payload) < u32_modulus ->
  read_exact 12 (batch_bytes payload ++ f) = Some (header_of payload, payload ++ f) /\
  read_exact (N.to_nat (header_len (header_of payload))) (payload ++ f) = Some (payload, f).
Proof.
  intros Hl. destruct (header_of_fields payload Hl) as (_ & _ & ->). split.
  - rewrite batch_bytes_split, <- app_assoc. apply read_exact_app, length_header.
  - apply read_exact_app. lia.
Qed.

Definition count (bs : list (list LogEntry)) : N := N.of_nat (length (concat bs)).

Lemma count_cons (es : list LogEntry) (bs : list (list LogEntry)) :
  count (es :: bs) = N.of_nat (length es) + count bs.
Proof. unfold count. cbn. rewrite length_app. lia. Qed.

(** *** Recovery of a file with a damaged tail *)

(** A tail at which the scan stops at once. *)
Definition stops (junk : bytes) : Prop := forall fuel pos total,
  recover_loop fuel (pos + N.of_nat (length junk)) junk pos total pos = (total, pos).

Lemma recover_loop_encodes (bs : list (list LogEntry)) (f junk : bytes) :
  encodes bs f -> stops junk ->
  forall fuel pos total file_size, (length f < fuel)%nat -> total + count bs <= u64_max ->
    file_size = pos + N.of_nat (length f) + N.of_nat (length junk) ->
    recover_loop fuel file_size (f ++ junk) pos total pos
    = (total + count bs, pos + N.of_nat (length f)).
Proof.
  intros Hf Hj. induction Hf as [|es bs payload f Hs Hl Hf IH]; intros fuel pos total file_size Hfu Ht ->.
  - cbn [length app]. rewrite N.add_0_r, Hj. change (count []) with 0. change (N.of_nat 0) with 0.
    by rewrite !N.add_0_r.
  - destruct fuel as [|fuel]; [lia|]. cbn [recover_loop].
    rewrite count_cons, <- app_assoc, length_app, length_batch in *.
    destruct (scan_batch payload (f ++ junk) Hl) as [-> ->].
    destruct (header_of_fields payload Hl) as (-> & -> & ->).
    rewrite N.eqb_refl, (deserialize_serialize _ _ Hs), u64_add_small by lia. cbn [negb].
    replace (pos + 12 <=? _) with true by lia. cbn [negb].
    replace (_ <? pos + 12 + N.of_nat (length payload)) with false by lia.
    rewrite IH; [f_equal; lia|lia|lia|lia].
Qed.

Lemma stops_nil : stops [].
Proof.
  intros fuel pos total. destruct fuel as [|fuel]; [done|]. cbn [recover_loop length].
  by replace (pos + 12 <=? pos + N.of_nat 0) with false by lia.
Qed.

(** A batch of which only a proper prefix reached the disk. *)
Lemma stops_torn (payload : bytes) (k : nat) :
  N.of_nat (length payload) < u32_modulus -> (k < length (batch_bytes payload))%nat ->
  stops (take k (batch_bytes payload)).
Proof.
  intros Hl Hk fuel pos total. destruct fuel as [|fuel]; [done|]. cbn [recover_loop].
  rewrite length_take, length_batch in *.
  destruct (decide (k < 12)%nat) as [Hk12|Hk12].
  - by replace (pos + 12 <=? _) with false by lia.
  - replace (pos + 12 <=? _) with true by lia. cbn [negb].
    rewrite batch_bytes_split, take_app_ge by (rewrite length_header; lia).
    rewrite read_exact_app by apply length_header.
    destruct (header_of_fields payload Hl) as (-> & _ & ->). cbn [negb].
    by replace (_ <? pos + 12 + N.of_nat (length payload)) with true by lia.
Qed.

(** A tail that does not start with the magic bytes. *)
Lemma stops_bad_magic (junk : bytes) : take 4 junk <> BATCH_MAGIC -> stops junk.
Proof.
  intros Hm fuel pos total. destruct fuel as [|fuel]; [done|]. cbn [recover_loop].
  destruct (negb _) eqn:E; [done|]. destruct (read_exact 12 junk) as [[h r]|] eqn:Er; [|done].
  apply read_exact_Some in Er as [-> Hh]. unfold header_magic_ok. rewrite bool_decide_eq_false_2; [done|].
  rewrite take_app_le in Hm by lia. done.
Qed.

(** A whole batch whose payload was damaged so that its checksum differs. *)
Lemma stops_bad_crc (payload damaged rest : bytes) :
  N.of_nat (length payload) < u32_modulus -> length damaged = length payload ->
  crc32c damaged <> crc32c payload -> stops (header_of payload ++ damaged ++ rest).
Proof.
  intros Hl Hlen Hc fuel pos total. destruct fuel as [|fuel]; [done|]. cbn [recover_loop].
  rewrite !length_app, length_header, Hlen.
  replace (pos + 12 <=? _) with true by lia. rewrite read_exact_app by apply length_header.
  destruct (header_of_fields payload Hl) as (-> & -> & ->). cbn [negb].
  replace (_ <? pos + 12 + N.of_nat (length payload)) with false by lia.
  rewrite read_exact_app by lia. by replace (crc32c damaged =? crc32c payload) with false by lia.
Qed.

(** *** The invariant of an open segment *)

Record seg_ok (bs : list (list LogEntry)) (s : Segment) : Prop := {
  so_file : encodes bs (file s);
  so_size : size s = N.of_nat (length (file s));
  so_count : entry_count s = count bs;
  so_next : next_offset s = base_offset s + count bs;
  so_offsets : contiguous (base_offset s) (concat bs) = true;
  so_bound : base_offset s + count bs <= u64_max;
  so_nonempty : Forall (fun es => es <> []) bs;
}.

Lemma set_len_app (f junk : bytes) : set_len (N.of_nat (length f)) (f ++ junk) = f.
Proof.
  unfold set_len. rewrite Nat2N.id, take_app_le, take_app_length; [done|].
  rewrite length_app. lia.
Qed.

(** Opening a file that holds whole batches and then a damaged tail keeps
    exactly the batches. *)
Lemma open_damaged (bs : list (list LogEntry)) (f junk : bytes) (base : N) :
  encodes bs f -> stops junk -> contiguous base (concat bs) = true -> base + count bs <= u64_max ->
  Forall (fun es => es <> []) bs ->
  seg_ok bs (open (f ++ junk) base) /\ file (open (f ++ junk) base) = f /\
  base_offset (open (f ++ junk) base) = base.
Proof.
  intros Hf Hj Hc Hb Hne. unfold open. cbn [size]. destruct (0 <? _) eqn:E.
  - unfold recover. cbn [file size base_offset].
    rewrite (recover_loop_encodes bs f junk Hf Hj); [|rewrite length_app; lia|lia|rewrite length_app; lia].
    rewrite !N.add_0_l, length_app. cbn [file base_offset].
    assert ((if N.of_nat (length f) <? N.of_nat (length f + length junk)
             then set_len (N.of_nat (length f)) (f ++ junk) else f ++ junk) = f) as ->.
    { destruct (N.of_nat (length f) <? _) eqn:E2; [apply set_len_app|]. destruct junk; [by rewrite app_nil_r|].
      cbn in E2. lia. }
    split; [|done]. split; cbn; try done; [destruct (N.of_nat (length f) <? _) eqn:E2; lia|].
    rewrite u64_add_small; lia.
  - rewrite length_app in E. destruct f, junk; cbn in E; try lia.
    inversion Hf; subst.
    split; [split|done]; change (count []) with 0 in *;
      cbn [file size entry_count next_offset base_offset]; try done; try lia; constructor.
Qed.

(** *** Reading a well-formed file *)

Definition in_range (start end_ : N) (e : LogEntry) : bool := (start <=? offset e) && (offset e <? end_).

Lemma read_loop_encodes (start end_ : N) (bs : list (list LogEntry)) (f : bytes) :
  encodes bs f ->
  forall fuel pos file_size result, (length f < fuel)%nat -> file_size = pos + N.of_nat (length f) ->
    read_loop fuel start end_ file_size f pos result
    = Ok (result ++ list_filter (in_range start end_) (concat bs)).
Proof.
  intros Hf. induction Hf as [|es bs payload f Hs Hl Hf IH]; intros fuel pos file_size result Hfu ->.
  - destruct fuel as [|fuel]; [lia|]. cbn [read_loop length].
    replace (pos + 12 <=? pos + N.of_nat 0) with false by lia. cbn. by rewrite app_nil_r.
  - destruct fuel as [|fuel]; [lia|]. cbn [read_loop]. rewrite length_app, length_batch in *.
    replace (pos + 12 <=? _) with true by lia. cbn [negb].
    destruct (scan_batch payload f Hl) as [-> ->].
    destruct (header_of_fields payload Hl) as (-> & -> & ->).
    rewrite N.eqb_refl, (deserialize_serialize _ _ Hs). cbn [negb].
    rewrite IH by lia. cbn [concat]. by rewrite list_filter_app, <- app_assoc.
Qed.

Lemma read_ok (bs : list (list LogEntry)) (s : Segment) (start end_ : N) :
  seg_ok bs s -> read start end_ s = Ok (list_filter (in_range start end_) (concat bs)).
Proof.
  intros [H1 H2 _ _ _ _ _]. unfold read. rewrite (read_loop_encodes start end_ bs _ H1); [done|lia|lia].
Qed.

(** *** Appending *)

Lemma append_ok (bs : list (list LogEntry)) (s : Segment) (es : list LogEntry) (payload : bytes) :
  seg_ok bs s -> es <> [] -> serialize es = Some payload -> N.of_nat (length payload) < u32_modulus ->
  contiguous (next_offset s) es = true -> next_offset s + N.of_nat (length es) <= u64_max ->
  exists s', append es s = (s', Ok tt) /\ seg_ok (bs ++ [es]) s' /\
    base_offset s' = base_offset s /\ file s' = file s ++ batch_bytes payload /\
    next_offset s' = next_offset s + N.of_nat (length es).
Proof.
  intros [H1 H2 H3 H4 H5 H6 H7] Hne Hs Hl Hc Hb. unfold append. rewrite Hs.
  assert (count (bs ++ [es]) = count bs + N.of_nat (length es)) as Hcount.
  { unfold count. rewrite concat_app, length_app. cbn. rewrite app_nil_r. lia. }
  destruct es as [|e es]; [done|]. eexists. split; [done|].
  rewrite !u64_add_small by lia. split_and!; try done. split; cbn [file size entry_count next_offset base_offset].
  - by apply encodes_snoc.
  - rewrite length_app. lia.
  - lia.
  - lia.
  - rewrite concat_app, contiguous_app, H5. cbn [concat]. rewrite app_nil_r. cbn [andb].
    unfold count in H4. by rewrite <- H4.
  - lia.
  - apply list.Forall_app. split; [done|]. by constructor.
Qed.

(** *** Truncating *)

(** Serialising a prefix of a batch succeeds and is not longer. *)
Context (serialize_prefix : forall es p k, serialize es = Some p ->
  exists p', serialize (take k es) = Some p' /\ (length p' <= length p)%nat).

Definition below (from : N) (e : LogEntry) : bool := offset e <? from.

(** What a decision of the scan means for the batches from [pos] on. *)
Definition cut_ok (from : N) (bs : list (list LogEntry)) (f : bytes) (pos remaining : N) (c : Cut) : Prop :=
  let kept := list_filter (below from) (concat bs) in
  match c with
  | NoCut => kept = concat bs
  | CutFails _ => False
  | CutAt q rem => exists bs1 k,
      encodes bs1 (take k f) /\ (k <= length f)%nat /\ q = pos + N.of_nat k /\
      concat bs1 = kept /\ rem = remaining + count bs1 /\ Forall (fun es => es <> []) bs1
  | CutAfterRewrite q batch rem => exists bs1 k es p,
      encodes bs1 (take k f) /\ (k <= length f)%nat /\ q = pos + N.of_nat k /\
      batch = batch_bytes p /\ serialize es = Some p /\ N.of_nat (length p) < u32_modulus /\
      concat bs1 ++ es = kept /\ rem = remaining + count (bs1 ++ [es]) /\
      Forall (fun es => es <> []) (bs1 ++ [es])
  end.

Lemma existsb_below (from o : N) (es rest : list LogEntry) :
  contiguous o (es ++ rest) = true ->
  if existsb (fun e => from <=? offset e) es
  then list_filter (below from) (es ++ rest) = list_filter (below from) es
  else list_filter (below from) (es ++ rest) = es ++ list_filter (below from) rest.
Proof.
  intros Hc. rewrite list_filter_app. rewrite contiguous_app in Hc. apply andb_prop in Hc as [Hc1 Hc2].
  destruct (existsb _ es) eqn:E.
  - apply existsb_true in E as (e & He & Hf). rewrite (list_filter_none _ rest); [by rewrite app_nil_r|].
    intros x Hx. pose proof (contiguous_bounds _ _ _ Hc1 He). pose proof (contiguous_bounds _ _ _ Hc2 Hx).
    unfold below. lia.
  - f_equal. apply list_filter_all. intros e He. unfold below.
    rewrite existsb_false in E. specialize (E e He). cbn in E. lia.
Qed.

Lemma truncate_loop_encodes (from : N) (bs : list (list LogEntry)) (f : bytes) :
  encodes bs f ->
  forall fuel o pos remaining file_size, (length f < fuel)%nat ->
    file_size = pos + N.of_nat (length f) -> contiguous o (concat bs) = true ->
    remaining + count bs <= u64_max -> Forall (fun es => es <> []) bs ->
    cut_ok from bs f pos remaining (truncate_loop fuel from file_size f pos remaining).
Proof.
  intros Hf. induction Hf as [|es bs payload f Hs Hl Hf IH];
    intros fuel o pos remaining file_size Hfu -> Hc Hb Hne; (destruct fuel as [|fuel]; [lia|]);
    cbn [truncate_loop].
  - cbn [length]. by replace (pos + 12 <=? pos + N.of_nat 0) with false by lia.
  - rewrite count_cons in Hb. rewrite length_app, length_batch in *.
    apply list.Forall_cons in Hne as [Hes Hne].
    replace (pos + 12 <=? _) with true by lia. cbn [negb].
    destruct (scan_batch payload f Hl) as [-> ->].
    destruct (header_of_fields payload Hl) as (-> & _ & ->). cbn [negb].
    rewrite (deserialize_serialize _ _ Hs). cbn [concat] in Hc.
    pose proof (existsb_below from o es (concat bs) Hc) as Hex.
    rewrite contiguous_app in Hc. apply andb_prop in Hc as [Hc1 Hc2].
    unfold cut_ok. cbn [concat]. destruct (existsb _ es).
    + rewrite Hex. unfold below. rewrite (contiguous_filter_below o from es Hc1).
      destruct (take (N.to_nat (from - o)) es) as [|e before] eqn:Hbefore.
      * exists [], 0%nat. change (count []) with 0. split_and!; [constructor|lia|lia|done|lia|constructor].
      * destruct (serialize_prefix es payload (N.to_nat (from - o)) Hs) as (p' & Hs' & Hlen).
        rewrite Hbefore in Hs'. rewrite Hs'. exists [], 0%nat, (e :: before), p'.
        assert (length (e :: before) <= length es)%nat.
        { rewrite <- Hbefore, length_take. lia. }
        split_and!; try done; [constructor|lia|lia|lia| |by repeat constructor].
        rewrite u64_add_small by lia. unfold count. cbn [app concat]. by rewrite app_nil_r.
    + rewrite Hex, u64_add_small by lia.
      specialize (IH fuel (o + N.of_nat (length es)) (pos + 12 + N.of_nat (length payload))
        (remaining + N.of_nat (length es)) (pos + N.of_nat (12 + length payload + length f))).
      unfold cut_ok in IH. destruct (truncate_loop _ _ _ _ _ _) as [|q rem|q batch rem|e].
      * rewrite IH; [done|lia|lia|done|lia|done].
      * destruct IH as (bs1 & k & H1 & H2 & H3 & H4 & H5 & H6); [lia|lia|done|lia|done|].
        exists (es :: bs1), (length (batch_bytes payload) + k)%nat.
        rewrite take_app_ge, length_batch by (rewrite length_batch; lia).
        replace (12 + length payload + k - (12 + length payload))%nat with k by lia.
        rewrite length_app, length_batch.
        split_and!; [by constructor|lia|lia|cbn; by rewrite H4|rewrite count_cons; lia|by constructor].
      * destruct IH as (bs1 & k & es1 & p & H1 & H2 & H3 & H4 & H5 & H6 & H7 & H8 & H9);
          [lia|lia|done|lia|done|].
        exists (es :: bs1), (length (batch_bytes payload) + k)%nat, es1, p.
        rewrite take_app_ge, length_batch by (rewrite length_batch; lia).
        replace (12 + length payload + k - (12 + length payload))%nat with k by lia.
        rewrite length_app, length_batch.
        split_and!; try done; [by constructor|lia|lia|cbn; by rewrite <- app_assoc, H7| |by constructor].
        cbn [app]. rewrite count_cons. lia.
      * apply IH; [lia|lia|done|lia|done].
Qed.

Lemma set_len_take (k : nat) (f : bytes) :
  (k <= length f)%nat -> set_len (N.of_nat k) f = take k f.
Proof.
  intros Hk. unfold set_len. rewrite Nat2N.id, take_app_le by lia. done.
Qed.

Lemma truncate_suffix_ok (bs : list (list LogEntry)) (s : Segment) (from : N) :
  seg_ok bs s -> base_offset s <= from ->
  exists bs' s' b, truncate_suffix from s = (s', Ok b) /\ seg_ok bs' s' /\
    base_offset s' = base_offset s /\ concat bs' = list_filter (below from) (concat bs).
Proof.
  intros [H1 H2 H3 H4 H5 H6 H7] Hf. unfold truncate_suffix.
  pose proof (truncate_loop_encodes from bs _ H1 (S (length (file s))) (base_offset s) 0 0 (size s)) as Hcut.
  specialize (Hcut ltac:(lia) ltac:(lia) H5 ltac:(lia) H7). unfold cut_ok in Hcut.
  assert (forall bs', concat bs' = list_filter (below from) (concat bs) ->
    contiguous (base_offset s) (concat bs') = true /\ count bs' <= count bs) as Hkept.
  { intros bs' Heq. unfold count. rewrite Heq. unfold below.
    rewrite (contiguous_filter_below (base_offset s)) by done.
    split; [by apply contiguous_take|]. rewrite length_take. lia. }
  destruct (truncate_loop _ _ _ _ _ _) as [|q rem|q batch rem|e].
  - exists bs, s, false. by rewrite Hcut.
  - destruct Hcut as (bs1 & k & C1 & C2 & -> & C4 & -> & C6). destruct (Hkept bs1 C4) as [K1 K2].
    exists bs1. eexists _, true. split; [done|]. split; [|done].
    rewrite !N.add_0_l, set_len_take, u64_add_small by lia. split; cbn; try done; try lia.
    rewrite length_take. lia.
  - destruct Hcut as (bs1 & k & es & p & C1 & C2 & -> & -> & C5 & C6 & C7 & -> & C8).
    assert (concat (bs1 ++ [es]) = list_filter (below from) (concat bs)) as Hc.
    { rewrite concat_app. cbn. by rewrite app_nil_r. }
    destruct (Hkept (bs1 ++ [es]) Hc) as [K1 K2].
    exists (bs1 ++ [es]). eexists _, true. split; [done|]. split; [|done].
    assert (set_len (0 + N.of_nat k + N.of_nat (length (batch_bytes p)))
              (write_at (0 + N.of_nat k) (batch_bytes p) (file s)) = take k (file s) ++ batch_bytes p) as ->.
    { unfold write_at. rewrite N.add_0_l, Nat2N.id, app_assoc, <- Nat2N.inj_add.
      rewrite set_len_take by (rewrite !length_app, length_take; lia).
      rewrite take_app_le by (rewrite length_app, length_take; lia).
      apply take_ge. rewrite length_app, length_take. lia. }
    rewrite u64_add_small by lia.
    split; cbn [file size entry_count next_offset base_offset]; try done; try lia.
    + by apply encodes_snoc.
    + rewrite length_app, length_take. lia.
  - done.
Qed.

(** *** A torn append *)

Lemma torn_open_ok (bs : list (list LogEntry)) (s : Segment) (es : list LogEntry)
    (payload : bytes) (k : nat) :
  seg_ok bs s -> serialize es = Some payload -> N.of_nat (length payload) < u32_modulus ->
  contiguous (next_offset s) es = true -> next_offset s + N.of_nat (length es) <= u64_max ->
  es <> [] ->
  seg_ok (if (k <? length (batch_bytes payload))%nat then bs else bs ++ [es])
    (open (file s ++ take k (batch_bytes payload)) (base_offset s)) /\
  base_offset (open (file s ++ take k (batch_bytes payload)) (base_offset s)) = base_offset s.
Proof.
  intros Hok Hs Hl Hc Hb Hne.
  pose proof Hok as [H1 H2 H3 H4 H5 H6 H7]. destruct (Nat.ltb_spec k (length (batch_bytes payload))).
  - destruct (open_damaged bs (file s) (take k (batch_bytes payload)) (base_offset s)) as (Ho & _ & Hbase);
      [done|by apply stops_torn|done|done|done|done].
  - rewrite take_ge by lia. rewrite <- (app_nil_r (file s ++ _)).
    assert (count (bs ++ [es]) = count bs + N.of_nat (length es)) as Hcount.
    { unfold count. rewrite concat_app, length_app. cbn. rewrite app_nil_r. lia. }
    destruct (open_damaged (bs ++ [es]) (file s ++ batch_bytes payload) [] (base_offset s)) as (Ho & _ & Hbase);
      [by apply encodes_snoc|apply stops_nil| |lia|apply list.Forall_app; split; [done|by constructor]|done].
    rewrite concat_app, contiguous_app, H5. cbn [concat]. rewrite app_nil_r.
    unfold count in H4. by rewrite <- H4.
Qed.

(** ** Guarantees *)

(** C6: Crash safety of an append.  A segment that holds the batches [bs] and
    crashes while appending [es], so that any prefix of the new batch has
    reached the disk, reopens to exactly [bs], or to [bs] and [es] when the
    whole batch was written: acknowledged entries are never lost, a batch is
    never recovered in part, and reading the reopened segment returns exactly
    the recovered entries. *)
Theorem torn_append_recovered (bs : list (list LogEntry)) (s : Segment) (es : list LogEntry)
    (payload : bytes) (k : nat) :
  seg_ok bs s -> serialize es = Some payload -> N.of_nat (length payload) < u32_modulus ->
  contiguous (next_offset s) es = true -> next_offset s + N.of_nat (length es) <= u64_max ->
  es <> [] ->
  let t := open (file s ++ take k (batch_bytes payload)) (base_offset s) in
  let recovered := if (k <? length (batch_bytes payload))%nat then bs else bs ++ [es] in
  seg_ok recovered t /\ read_all t = Ok (list_filter (in_range 0 u64_max) (concat recovered)).
Proof.
  intros Hok Hs Hl Hc Hb Hne t recovered.
  destruct (torn_open_ok bs s es payload k) as [Hr _]; [done..|]. split; [done|]. by apply read_ok.
Qed.

(** Corruption is cut off.  A segment file whose batches [bs] are followed
    by bytes without the batch magic, or by a batch whose payload no longer
    matches its checksum (and anything after it), reopens to exactly [bs], and
    the file is cut back to them. *)
Theorem corrupt_tail_dropped (bs : list (list LogEntry)) (f tail : bytes) (base : N) :
  encodes bs f -> contiguous base (concat bs) = true -> base + count bs <= u64_max ->
  Forall (fun es => es <> []) bs ->
  (take 4 tail <> BATCH_MAGIC \/
   exists payload damaged rest, tail = header_of payload ++ damaged ++ rest /\
     N.of_nat (length payload) < u32_modulus /\ length damaged = length payload /\
     crc32c damaged <> crc32c payload) ->
  seg_ok bs (open (f ++ tail) base) /\ file (open (f ++ tail) base) = f.
Proof.
  intros Hf Hc Hb Hne Ht. cut (stops tail).
  { intros Hs. destruct (open_damaged bs f tail base) as (? & ? & _); done. }
  destruct Ht as [Ht|(p & d & r & -> & Hl & Hlen & Hcrc)]; [by apply stops_bad_magic|].
  by apply stops_bad_crc.
Qed.

(** Appending to and truncating a segment.  After an append the segment
    reads back as before followed by the new entries; after truncating at
    [from] it reads back as the entries below [from], also when the cut falls
    inside a batch, which is then rewritten in place; both leave a file that
    recovers to the same contents. *)
Theorem append_truncate_read (bs : list (list LogEntry)) (s : Segment) (es : list LogEntry)
    (payload : bytes) (from : N) :
  seg_ok bs s -> es <> [] -> serialize es = Some payload -> N.of_nat (length payload) < u32_modulus ->
  contiguous (next_offset s) es = true -> next_offset s + N.of_nat (length es) < u64_max ->
  base_offset s <= from ->
  exists s1 s2 b, append es s = (s1, Ok tt) /\ read_all s1 = Ok (concat bs ++ es) /\
    truncate_suffix from s1 = (s2, Ok b) /\
    read_all s2 = Ok (list_filter (below from) (concat bs ++ es)) /\
    read_all (open (file s2) (base_offset s2)) = read_all s2 /\
    next_offset s2 = N.min from (next_offset s + N.of_nat (length es)).
Proof.
  intros Hok Hne Hs Hl Hc Hb Hf.
  destruct (append_ok bs s es payload Hok Hne Hs Hl Hc) as (s1 & Ha & Hok1 & Hb1 & _ & Hn1); [lia|].
  assert (concat (bs ++ [es]) = concat bs ++ es) as Hcat.
  { rewrite concat_app. cbn. by rewrite app_nil_r. }
  destruct (truncate_suffix_ok (bs ++ [es]) s1 from Hok1) as (bs2 & s2 & b & Ht & Hok2 & Hb2 & Hcat2); [lia|].
  assert (forall bs' s', seg_ok bs' s' -> base_offset s' + count bs' < u64_max -> read_all s' = Ok (concat bs')) as Hall.
  { intros bs' s' Hok' Hlt. unfold read_all. rewrite (read_ok bs') by done. f_equal.
    apply list_filter_all. intros e He. pose proof (contiguous_bounds _ _ _ (so_offsets _ _ Hok') He).
    unfold in_range. unfold count in Hlt. lia. }
  assert (count (bs ++ [es]) = count bs + N.of_nat (length es)) as Hcount.
  { unfold count. rewrite Hcat, length_app. lia. }
  assert (count bs2 = N.min (from - base_offset s) (count (bs ++ [es]))) as Hcount2.
  { unfold count. rewrite Hcat2. unfold below.
    rewrite (contiguous_filter_below (base_offset s1)) by apply Hok1. rewrite length_take, Hb1. lia. }
  pose proof (so_next _ _ Hok) as Hn. pose proof (so_next _ _ Hok2) as Hn2.
  exists s1, s2, b. rewrite (Hall (bs ++ [es]) s1), (Hall bs2 s2), Hcat, Hcat2, Hcat by (done || lia).
  split_and!; try done; [|lia].
  rewrite <- (app_nil_r (file s2)).
  destruct (open_damaged bs2 (file s2) [] (base_offset s2)) as (Ho & _ & Hob);
    [apply Hok2|apply stops_nil|apply Hok2|apply Hok2|apply Hok2|].
  rewrite (Hall bs2 _ Ho), Hcat2, Hcat by lia. done.
Qed.
End Segment.

(** ** A concrete encoding

    Entries of empty payload whose offset and term fit a byte, two bytes an
    entry; the checksum is the sum of the bytes. *)
Fixpoint demo_ser (es : list LogEntry) : option bytes :=
  match es with
  | [] => Some []
  | e :: es' =>
      match entry_type e, payload e, demo_ser es' with
      | Command, [], Some p =>
          if (offset e <? 256) && (term e <? 256)
          then Some (byte_of (offset e) :: byte_of (term e) :: p) else None
      | _, _, _ => None
      end
  end.

Fixpoint demo_de (bs : bytes) : option (list LogEntry) :=
  match bs with
  | [] => Some []
  | o :: t :: rest =>
      match demo_de rest with
      | Some es => Some (mkLogEntry (Byte.to_N o) (Byte.to_N t) Command [] :: es)
      | None => None
      end
  | _ => None
  end.

Definition demo_crc (b : bytes) : N := foldr (fun x acc => Byte.to_N x + acc) 0 b mod u32_modulus.

Lemma demo_de_ser (es : list LogEntry) (p : bytes) : demo_ser es = Some p -> demo_de p = Some es.
Proof.
  revert p. induction es as [|e es IH]; intros p; cbn; [by intros [= <-]|].
  destruct e as [o t ty pl]. cbn. destruct ty, pl; try done.
  destruct (demo_ser es) as [q|]; [|done]. destruct (_ && _) eqn:E; [|done]. intros [= <-].
  cbn. rewrite (IH q eq_refl), !to_N_byte_of, !N.mod_small by lia. done.
Qed.

Lemma demo_crc_bound (p : bytes) : demo_crc p < u32_modulus.
Proof. unfold demo_crc. by apply N.mod_lt. Qed.

Lemma demo_ser_prefix (es : list LogEntry) (p : bytes) (k : nat) :
  demo_ser es = Some p -> exists p', demo_ser (take k es) = Some p' /\ (length p' <= length p)%nat.
Proof.
  revert p k. induction es as [|e es IH]; intros p [|k] Hs; cbn in *; simplify_eq;
    try (eexists; split; [done|cbn; lia]).
  destruct e as [o t ty pl]. cbn in *. destruct ty, pl; try done.
  destruct (demo_ser es) as [q|]; [|done]. destruct (_ && _) eqn:E; [|done]. simplify_eq.
  destruct (IH q k eq_refl) as (p' & -> & Hl). eexists. split; [done|]. cbn. lia.
Qed.

Definition ent (o : N) : LogEntry := mkLogEntry o 1 Command [].
Definition seg0 : Segment := open demo_de demo_crc [] 5.

Lemma seg0_ok : seg_ok demo_ser demo_crc [] seg0.
Proof. by split; [constructor|..]. Qed.

Lemma torn_append_recovered_witness :
  read_all demo_de demo_crc
    (open demo_de demo_crc (file seg0 ++ take 13 (batch_bytes demo_crc [x05; x01])) 5) = Ok [].
Proof.
  destruct (torn_append_recovered demo_ser demo_de demo_crc demo_de_ser demo_crc_bound
    [] seg0 [ent 5] [x05; x01] 13) as [_ H];
    [apply seg0_ok|done|done|done|done|done|exact H].
Defined.

Lemma corrupt_tail_dropped_witness :
  file (open demo_de demo_crc ([] ++ header_of demo_crc [x05; x01] ++ [x06; x01] ++ [x00]) 5) = [].
Proof.
  apply (corrupt_tail_dropped demo_ser demo_de demo_crc demo_de_ser demo_crc_bound [] []);
    [constructor|done|done|constructor|].
  right. exists [x05; x01], [x06; x01], [x00]. by vm_compute.
Defined.

Lemma append_truncate_read_witness :
  exists s1 s2 b, append demo_ser demo_crc [ent 5; ent 6; ent 7] seg0 = (s1, Ok tt) /\
    truncate_suffix demo_ser demo_de demo_crc 7 s1 = (s2, Ok b) /\
    read_all demo_de demo_crc s2 = Ok [ent 5; ent 6].
Proof.
  destruct (append_truncate_read demo_ser demo_de demo_crc demo_de_ser demo_crc_bound demo_ser_prefix
    [] seg0 [ent 5; ent 6; ent 7] [x05; x01; x06; x01; x07; x01] 7)
    as (s1 & s2 & b & H1 & _ & H2 & H3 & _);
    [apply seg0_ok|done|done|done|done|done|done|].
  exists s1, s2, b. split_and!; [exact H1|exact H2|exact H3].
Defined.

(** Truncating inside a batch rewrites the batch in place.  A crash after the
    new checksum and before the new length leaves a batch whose checksum fails,
    and recovery drops entries that were below the cut. *)
Lemma torn_truncate_loses_entries :
  let s1 := (append demo_ser demo_crc [ent 5; ent 6; ent 7] seg0).1 in
  let torn := write_at 0 (take 8 (batch_bytes demo_crc [x05; x01; x06; x01])) (file s1) in
  read_all demo_de demo_crc (truncate_suffix demo_ser demo_de demo_crc 7 s1).1 = Ok [ent 5; ent 6] /\
  read_all demo_de demo_crc (open demo_de demo_crc torn 5) = Ok [].
Proof. by vm_compute. Qed.

End Segment.
