(* ===== verification/SegmentLog.v ===== *)
(** * The segmented log: [xraft-storage/src/segment_log.rs]

    A directory of segment files and the file with the persisted start
    offset.  The directory is the list of its [.log] files, by base offset;
    removing a file succeeds.  [bincode] and [crc32c] are those of
    [Segment]. *)

From Stdlib Require Import ZifyBool ZifyN ZifyNat Lia.
From Stdlib Require Import Strings.Byte.
From stdpp Require Import base list numbers option strings sorting sets.
From S2P Require Import Prelude Types Interfaces Bytes Segment.

Module SegmentLog.

Import Segment.

Definition DEFAULT_SEGMENT_SIZE_LIMIT : N := 64 * 1024 * 1024.

Record SegmentLog := mkLog {
  segment_size_limit : N;
  segments : list Segment;
  log_start_offset : N;
  log_end_offset : N;
  (** The contents of the [log-start-offset] file, when it is a number. *)
  start_file : option N;
}.

Section Log.
Context (serialize : list LogEntry -> option bytes).
Context (deserialize : bytes -> option (list LogEntry)).
Context (crc32c : bytes -> N).

Abbreviation seg_open := (Segment.open deserialize crc32c).
Abbreviation seg_append := (Segment.append serialize crc32c).
Abbreviation seg_read := (Segment.read deserialize crc32c).
Abbreviation seg_truncate := (Segment.truncate_suffix serialize deserialize crc32c).

(** ** Open *)

(** A file of the directory; a missing one is created empty. *)
Definition contents (dir : list (N * bytes)) (base : N) : bytes :=
  match list_find_first (fun f => f.1 =? base) dir with Some f => f.2 | None => [] end.

(** Empty trailing segments go, down to one segment; the argument is reversed. *)
Fixpoint pop_empty (rev_segments : list Segment) : list Segment :=
  match rev_segments with
  | s :: (_ :: _) as rest => if entry_count s =? 0 then pop_empty rest else rev_segments
  | _ => rev_segments
  end.

Definition physical_start (segs : list Segment) : N :=
  match segs with s :: _ => base_offset s | [] => 0 end.

Definition open_with_limit (dir : list (N * bytes)) (start : option N) (limit : N) : SegmentLog :=
  let segment_files := merge_sort N.le (map fst dir) in
  let opened := map (fun base => seg_open (contents dir base) base) segment_files in
  let segs := rev (pop_empty (rev opened)) in
  let persisted_start := default 0 start in
  let log_start := N.max persisted_start (physical_start segs) in
  let log_end := match last segs with Some s => next_offset s | None => log_start end in
  mkLog limit segs log_start log_end start.

Definition open (dir : list (N * bytes)) (start : option N) : SegmentLog :=
  open_with_limit dir start DEFAULT_SEGMENT_SIZE_LIMIT.

(** ** Append *)

(** Replace the last segment. *)
Definition set_last (s : Segment) (ss : list Segment) : list Segment :=
  match ss with [] => [] | _ => removelast ss ++ [s] end.

(** The segments with one that may be written at the end: the first one is
    created, a full one is rolled. *)
Definition writable_segments (first : N) (l : SegmentLog) : list Segment :=
  let segs := match segments l with
              | [] => [seg_open [] first]
              | ss => ss
              end in
  let roll := match last segs with
              | Some s => segment_size_limit l <=? size s
              | None => false
              end in
  if roll then segs ++ [seg_open [] first] else segs.

Definition append (entries : list LogEntry) : SE SegmentLog XraftError unit := fun l =>
  match entries with
  | [] => (l, Ok tt)
  | first :: _ =>
      if negb (offset first =? log_end_offset l) then
        (l, Err (Corruption "append offset mismatch"%string))
      else
        let segs := writable_segments (offset first) l in
        match last segs with
        | None => (l, Ok tt)
        | Some s =>
            match seg_append entries s with
            | (s', Err e) =>
                (mkLog (segment_size_limit l) (set_last s' segs) (log_start_offset l)
                   (log_end_offset l) (start_file l), Err e)
            | (s', Ok _) =>
                (mkLog (segment_size_limit l) (set_last s' segs) (log_start_offset l)
                   (u64_add (log_end_offset l) (N.of_nat (length entries))) (start_file l), Ok tt)
            end
        end
  end.

(** ** Read *)

Fixpoint read_segments (effective_start end_ : N) (ss : list Segment) (result : list LogEntry)
  : Result (list LogEntry) :=
  match ss with
  | [] => Ok result
  | s :: ss' =>
      if (next_offset s <=? effective_start) || (end_ <=? base_offset s) then
        read_segments effective_start end_ ss' result
      else match seg_read effective_start end_ s with
           | Err e => Err e
           | Ok es => read_segments effective_start end_ ss' (result ++ es)
           end
  end.

Definition read (start end_ : N) (l : SegmentLog) : Result (list LogEntry) :=
  let effective_start := N.max start (log_start_offset l) in
  if end_ <=? effective_start then Ok []
  else read_segments effective_start end_ (segments l) [].

Definition entry_at (off : N) (l : SegmentLog) : Result (option LogEntry) :=
  result_bind (read off (u64_add off 1) l) (fun es => Ok (head es)).

(** ** Truncate *)

(** Segments at or after [from] go, down to one; the argument is reversed. *)
Fixpoint pop_from (from : N) (rev_segments : list Segment) : list Segment :=
  match rev_segments with
  | s :: (_ :: _) as rest => if from <=? base_offset s then pop_from from rest else rev_segments
  | _ => rev_segments
  end.

Definition truncate_suffix (from : N) : SE SegmentLog XraftError unit := fun l =>
  if log_end_offset l <=? from then (l, Ok tt)
  else
    let segs := rev (pop_from from (rev (segments l))) in
    let with_segs ss e :=
      mkLog (segment_size_limit l) ss (log_start_offset l) e (start_file l) in
    match last segs with
    | None => (with_segs segs from, Ok tt)
    | Some s =>
        match seg_truncate from s with
        | (s', Err e) => (with_segs (set_last s' segs) (log_end_offset l), Err e)
        | (s', Ok _) => (with_segs (set_last s' segs) from, Ok tt)
        end
    end.

Definition truncate_prefix (up_to : N) : SE SegmentLog XraftError unit := fun l =>
  (mkLog (segment_size_limit l)
     (list_filter (fun s => negb (next_offset s <=? up_to)) (segments l))
     up_to (log_end_offset l) (Some up_to), Ok tt).

#[local] Instance segment_LogStore : LogStore SegmentLog := {|
  ls_append := append;
  ls_read := read;
  ls_truncate_suffix := truncate_suffix;
  ls_truncate_prefix := truncate_prefix;
  ls_log_start_offset := log_start_offset;
  ls_log_end_offset := log_end_offset;
  ls_entry_at := entry_at;
|}.

(** ** The log as an abstract log *)

Context (deserialize_serialize : forall es p, serialize es = Some p -> deserialize p = Some es).
Context (crc_bound : forall p, crc32c p < u32_modulus).
Context (serialize_prefix : forall es p k, serialize es = Some p ->
  exists p', serialize (take k es) = Some p' /\ (length p' <= length p)%nat).

Abbreviation ok := (seg_ok serialize crc32c).

(** The segments follow one another from [o] to [e]. *)
Inductive chain : N -> list Segment -> list LogEntry -> N -> Prop :=
| chain_nil o : chain o [] [] o
| chain_cons o s ss bs es e :
    ok bs s -> base_offset s = o -> chain (next_offset s) ss es e ->
    chain o (s :: ss) (concat bs ++ es) e.

Lemma chain_contiguous (o e : N) (ss : list Segment) (es : list LogEntry) :
  chain o ss es e -> contiguous o es = true /\ e = o + N.of_nat (length es).
Proof.
  intros Hc. induction Hc as [o|o s ss bs es e Hok <- _ [IH1 IH2]]; [split; [done|cbn; lia]|].
  destruct Hok as [_ _ _ H4 H5 _]. unfold count in H4. rewrite contiguous_app, length_app, H5, <- H4.
  split; [done|lia].
Qed.

Lemma chain_app (o m e : N) (ss1 ss2 : list Segment) (es1 es2 : list LogEntry) :
  chain o ss1 es1 m -> chain m ss2 es2 e -> chain o (ss1 ++ ss2) (es1 ++ es2) e.
Proof.
  intros H1 H2. induction H1 as [o|o s ss bs es m Hok Hb _ IH]; [done|].
  cbn. rewrite <- app_assoc. econstructor; eauto.
Qed.

Lemma chain_app_inv (o e : N) (ss1 ss2 : list Segment) (es : list LogEntry) :
  chain o (ss1 ++ ss2) es e ->
  exists m es1 es2, es = es1 ++ es2 /\ chain o ss1 es1 m /\ chain m ss2 es2 e.
Proof.
  revert o es. induction ss1 as [|s ss1 IH]; intros o es Hc.
  - exists o, [], es. split_and!; [done|constructor|done].
  - cbn in Hc. inversion Hc as [|? ? ? bs es' ? Hok Hb Hc']; subst.
    destruct (IH _ _ Hc') as (m & es1 & es2 & -> & H1 & H2).
    exists m, (concat bs ++ es1), es2. split_and!; [by rewrite app_assoc| |done]. by econstructor.
Qed.

Lemma chain_single (bs : list (list LogEntry)) (s : Segment) :
  ok bs s -> chain (base_offset s) [s] (concat bs) (next_offset s).
Proof. intros Hok. rewrite <- (app_nil_r (concat bs)). econstructor; [done|done|constructor]. Qed.

Lemma chain_single_inv (o e : N) (s : Segment) (es : list LogEntry) :
  chain o [s] es e -> exists bs, ok bs s /\ base_offset s = o /\ next_offset s = e /\ es = concat bs.
Proof.
  intros Hc. inversion Hc as [|? ? ? bs es' ? Hok Hb Hc']; subst. inversion Hc'; subst.
  exists bs. by rewrite app_nil_r.
Qed.

(** All entries on disk. *)
Definition seg_entries (s : Segment) : list LogEntry :=
  match seg_read 0 (next_offset s) s with Ok es => es | Err _ => [] end.
Definition disk_entries (ss : list Segment) : list LogEntry := concat (map seg_entries ss).

Lemma seg_entries_ok (bs : list (list LogEntry)) (s : Segment) : ok bs s -> seg_entries s = concat bs.
Proof.
  intros Hok. unfold seg_entries. rewrite (read_ok serialize deserialize crc32c deserialize_serialize crc_bound bs) by done.
  apply list_filter_all. intros e He. destruct Hok as [_ _ _ H4 H5 _].
  pose proof (contiguous_bounds _ _ _ H5 He). unfold in_range. unfold count in H4. lia.
Qed.

Lemma chain_disk (o e : N) (ss : list Segment) (es : list LogEntry) :
  chain o ss es e -> disk_entries ss = es.
Proof.
  intros Hc. induction Hc as [o|o s ss bs es e Hok Hb _ IH]; [done|].
  unfold disk_entries in *. cbn. by rewrite (seg_entries_ok bs), IH.
Qed.

Definition log_abs (l : SegmentLog) : AbsLog :=
  mkAbsLog (log_start_offset l)
    (list_filter (fun e => log_start_offset l <=? offset e) (disk_entries (segments l))).

(** The abstract log of a chain. *)
Lemma log_abs_chain (l : SegmentLog) (o : N) (es : list LogEntry) :
  chain o (segments l) es (log_end_offset l) -> o <= log_start_offset l <= log_end_offset l ->
  log_abs l = mkAbsLog (log_start_offset l) (drop (N.to_nat (log_start_offset l - o)) es) /\
  al_wf (log_abs l) /\ al_end (log_abs l) = log_end_offset l.
Proof.
  intros Hc Ho. destruct (chain_contiguous _ _ _ _ Hc) as [Hes He]. unfold log_abs.
  rewrite (chain_disk _ _ _ _ Hc), (contiguous_filter_above o) by done. split; [done|].
  unfold al_wf, al_end. cbn. rewrite length_drop. split; [|lia].
  replace (log_start_offset l) with (o + N.of_nat (N.to_nat (log_start_offset l - o))) at 1 by lia.
  apply contiguous_drop; [done|lia].
Qed.

(** *** The invariant *)

Record log_ok (es : list LogEntry) (l : SegmentLog) : Prop := {
  lo_limit : 0 < segment_size_limit l;
  lo_chain : exists o, chain o (segments l) es (log_end_offset l) /\ o <= log_start_offset l;
  lo_start : log_start_offset l <= log_end_offset l;
  lo_end : log_end_offset l <= u64_max;
  lo_sorted : StronglySorted N.lt (map base_offset (segments l));
  lo_start_file : log_start_offset l = N.max (default 0 (start_file l)) (physical_start (segments l));
}.

Definition log_inv (l : SegmentLog) : Prop := exists es, log_ok es l.

Lemma log_ok_abs (es : list LogEntry) (l : SegmentLog) :
  log_ok es l ->
  log_abs l = mkAbsLog (log_start_offset l) (list_filter (fun e => log_start_offset l <=? offset e) es).
Proof. intros [_ (o & Hc & _) _ _ _ _]. unfold log_abs. by rewrite (chain_disk _ _ _ _ Hc). Qed.

Lemma log_ok_wf (es : list LogEntry) (l : SegmentLog) :
  log_ok es l -> al_wf (log_abs l) /\ al_end (log_abs l) = log_end_offset l.
Proof. intros [_ (o & Hc & Ho) Hs _ _ _]. by apply (log_abs_chain l o es). Qed.

Lemma chain_elem (o e : N) (ss : list Segment) (es : list LogEntry) (s : Segment) :
  chain o ss es e -> s ∈ ss -> o <= base_offset s /\ base_offset s <= next_offset s /\ next_offset s <= e.
Proof.
  intros Hc. induction Hc as [o|o s' ss bs es e Hok <- Hc IH]; [set_solver|].
  pose proof (so_next _ _ _ _ Hok). destruct (chain_contiguous _ _ _ _ Hc) as [_ ->].
  intros [->|Hs]%elem_of_cons; [lia|]. specialize (IH Hs). lia.
Qed.

Lemma physical_start_chain (o e : N) (ss : list Segment) (es : list LogEntry) :
  chain o ss es e -> ss <> [] -> physical_start ss = o.
Proof. intros Hc Hne. by destruct Hc. Qed.

Lemma chain_snoc_inv (o e : N) (pre : list Segment) (s : Segment) (es : list LogEntry) :
  chain o (pre ++ [s]) es e ->
  exists es0 bs, es = es0 ++ concat bs /\ chain o pre es0 (base_offset s) /\ ok bs s /\ next_offset s = e.
Proof.
  intros Hc. destruct (chain_app_inv _ _ _ _ _ Hc) as (m & es1 & es2 & -> & H1 & H2).
  destruct (chain_single_inv _ _ _ _ H2) as (bs & Hok & <- & <- & ->). by exists es1, bs.
Qed.

Lemma chain_snoc (o : N) (pre : list Segment) (s : Segment) (es : list LogEntry) (bs : list (list LogEntry)) :
  chain o pre es (base_offset s) -> ok bs s -> chain o (pre ++ [s]) (es ++ concat bs) (next_offset s).
Proof. intros H1 H2. eapply chain_app; [done|]. by apply chain_single. Qed.

Lemma set_last_snoc (pre : list Segment) (s s' : Segment) : set_last s' (pre ++ [s]) = pre ++ [s'].
Proof. unfold set_last. rewrite removelast_last. by destruct pre. Qed.

Lemma fresh_ok (base : N) : base <= u64_max ->
  ok [] (seg_open [] base) /\ base_offset (seg_open [] base) = base /\ next_offset (seg_open [] base) = base.
Proof.
  intros Hb. split_and!; [|done|done].
  change (seg_open [] base) with (mkSegment base [] 0 0 base).
  split; change (count []) with 0; cbn; try done; try lia; constructor.
Qed.

(** *** Reading *)

Lemma read_segments_chain (a b : N) (o e : N) (ss : list Segment) (es result : list LogEntry) :
  chain o ss es e ->
  read_segments a b ss result = Ok (result ++ list_filter (in_range a b) es).
Proof.
  intros Hc. revert result. induction Hc as [o|o s ss bs es e Hok <- _ IH]; intros result; cbn [read_segments].
  - cbn. by rewrite app_nil_r.
  - rewrite list_filter_app. destruct ((next_offset s <=? a) || (b <=? base_offset s)) eqn:E.
    + rewrite IH, (list_filter_none _ (concat bs)); [done|]. intros x Hx.
      destruct Hok as [_ _ _ H4 H5 _ _]. pose proof (contiguous_bounds _ _ _ H5 Hx).
      unfold count in H4. unfold in_range. lia.
    + rewrite (read_ok serialize deserialize crc32c deserialize_serialize crc_bound bs) by done.
      by rewrite IH, app_assoc.
Qed.

Lemma seg_log_read_abs (es : list LogEntry) (l : SegmentLog) (a b : N) :
  log_ok es l -> read a b l = Ok (al_read a b (log_abs l)).
Proof.
  intros Hl. rewrite (log_ok_abs es l Hl). destruct Hl as [_ (o & Hc & _) _ _ _ _].
  unfold read, al_read. cbn [al_entries]. rewrite list_filter_filter.
  destruct (b <=? N.max a (log_start_offset l)) eqn:E.
  - f_equal. symmetry. apply list_filter_none. intros x _. lia.
  - rewrite (read_segments_chain _ _ _ _ _ _ _ Hc). cbn [app]. f_equal. apply list_filter_ext.
    intros x _. unfold in_range. lia.
Qed.

Lemma seg_log_entry_at_abs (es : list LogEntry) (l : SegmentLog) (o : N) :
  log_ok es l -> o < log_end_offset l -> entry_at o l = Ok (al_entry_at o (log_abs l)).
Proof.
  intros Hl Ho. unfold entry_at. pose proof (lo_end _ _ Hl).
  rewrite u64_add_small, (seg_log_read_abs es) by (done || lia). cbn [result_bind]. f_equal.
  unfold al_read, al_entry_at. induction (al_entries (log_abs l)) as [|e ents IH]; [done|].
  cbn [list_filter list_find_first]. destruct (offset e =? o) eqn:E.
  - by replace ((o <=? offset e) && (offset e <? o + 1)) with true by lia.
  - by replace ((o <=? offset e) && (offset e <? o + 1)) with false by lia.
Qed.

(** *** Appending *)

Lemma StronglySorted_snoc_lt (ss : list N) (x : N) :
  StronglySorted N.lt ss -> (forall y, y ∈ ss -> y < x) -> StronglySorted N.lt (ss ++ [x]).
Proof.
  intros Hs. induction Hs as [|y ss Hs IH Hy]; intros Hx; cbn.
  - by repeat constructor.
  - constructor; [apply IH; set_solver|]. apply list.Forall_app. split; [done|].
    constructor; [set_solver|constructor].
Qed.

Lemma StronglySorted_app_l (ss1 ss2 : list N) :
  StronglySorted N.lt (ss1 ++ ss2) -> StronglySorted N.lt ss1.
Proof.
  induction ss1 as [|x ss1 IH]; cbn; intros Hs; [constructor|].
  inversion Hs as [|? ? Hs' Hx]; subst. apply list.Forall_app in Hx as [Hx _]. constructor; auto.
Qed.

(** A segment file of at least one byte holds an entry. *)
Lemma size_nonempty (bs : list (list LogEntry)) (s : Segment) :
  ok bs s -> 0 < size s -> base_offset s < next_offset s.
Proof.
  intros [H1 H2 _ H4 _ _ H7] Hsz. destruct H1 as [|es bs payload f _ _ _]; [cbn in H2; lia|].
  apply list.Forall_cons in H7 as [He _]. rewrite count_cons in H4. destruct es; [done|]. cbn in H4. lia.
Qed.

(** What [append] finds before it writes. *)
Lemma writable_segments_ok (es : list LogEntry) (l : SegmentLog) (segs : list Segment) :
  log_ok es l -> segs = writable_segments (log_end_offset l) l ->
  exists o pre s es0 bs, segs = pre ++ [s] /\ es = es0 ++ concat bs /\
    chain o pre es0 (base_offset s) /\ ok bs s /\ next_offset s = log_end_offset l /\
    o <= log_start_offset l /\ StronglySorted N.lt (map base_offset segs) /\
    log_start_offset l = N.max (default 0 (start_file l)) (physical_start segs).
Proof.
  intros [Hlim (o & Hc & Ho) Hs He Hsort Hsf] ->. unfold writable_segments.
  destruct (fresh_ok (log_end_offset l) He) as (Hf & Hfb & Hfn). set (fresh := seg_open [] _) in *.
  destruct (segments l) as [|s0 ss0] eqn:Esegs.
  - inversion Hc; subst. cbn [last]. change (size fresh) with 0. replace (segment_size_limit l <=? 0) with false by lia.
    exists (log_end_offset l), [], fresh, [], []. cbn [physical_start map] in *. rewrite Hfb.
    split_and!; try done; [by repeat constructor|lia].
  - assert (segments l <> []) as Hne by (by rewrite Esegs).
    rewrite <- Esegs in *. clear s0 ss0 Esegs.
    assert (exists pre s, segments l = pre ++ [s]) as (pre & s & Ess).
    { destruct (segments l) as [|s ss _] using rev_ind; [done|by eauto]. } rewrite Ess in *.
    rewrite last_snoc. destruct (chain_snoc_inv _ _ _ _ _ Hc) as (es0 & bs & -> & H1 & H2 & H3).
    destruct (segment_size_limit l <=? size s) eqn:Eroll.
    + exists o, (pre ++ [s]), fresh, (es0 ++ concat bs), []. cbn [concat]. rewrite app_nil_r, Hfb.
      split_and!; try done.
      * rewrite (map_app _ (pre ++ [s])). cbn [map]. apply StronglySorted_snoc_lt; [done|]. rewrite Hfb.
        assert (base_offset s < log_end_offset l) as Hlt by (rewrite <- H3; eapply size_nonempty; [done|lia]).
        intros y. rewrite map_app. intros [Hy|Hy]%elem_of_app; [|set_solver].
        apply list_elem_of_fmap in Hy as (s' & -> & Hs'). pose proof (chain_elem _ _ _ _ _ H1 Hs'). lia.
      * rewrite Hsf. by destruct pre.
    + exists o, pre, s, es0, bs. split_and!; done.
Qed.

(** No batch of 4 GiB or more, whose length the header cannot hold. *)
Definition fits (es : list LogEntry) : Prop :=
  forall p, serialize es = Some p -> N.of_nat (length p) < u32_modulus.

Lemma append_log_ok (ds : list LogEntry) (l l' : SegmentLog) (es : list LogEntry) r :
  log_ok ds l -> contiguous (log_end_offset l) es = true -> fits es ->
  log_end_offset l + N.of_nat (length es) <= u64_max -> append es l = (l', r) ->
  log_start_offset l' = log_start_offset l /\
  match r with
  | Ok _ => log_ok (ds ++ es) l'
  | Err _ => log_ok ds l' /\ serialize es = None
  end.
Proof.
  intros Hl Hc Hfit Hb. unfold append. destruct es as [|e es]; [intros [= <- <-]; by rewrite app_nil_r|].
  pose proof Hc as Hoff. cbn [contiguous] in Hoff. apply andb_prop in Hoff as [Hoff%N.eqb_eq _].
  rewrite Hoff, N.eqb_refl. cbn [negb].
  destruct (writable_segments_ok ds l _ Hl eq_refl) as (o & pre & s & ds0 & bs & Hw & -> & H1 & H2 & H3 & H4 & H5 & H6).
  rewrite Hw in *. rewrite last_snoc.
  destruct Hl as [Hlim _ Hs He _ _].
  destruct (serialize (e :: es)) as [p|] eqn:Hser.
  - destruct (append_ok serialize crc32c bs s (e :: es) p) as (s' & Ha & Hok & Hb' & _ & Hn);
      [done|done|done|by apply Hfit|by rewrite H3|by rewrite H3|].
    rewrite Ha, set_last_snoc. intros [= <- <-]. split; [done|].
    assert (map base_offset (pre ++ [s']) = map base_offset (pre ++ [s])) as Hbases
      by (rewrite !map_app; cbn; by rewrite Hb').
    assert (next_offset s' = u64_add (log_end_offset l) (N.of_nat (S (length es)))) as Hend'
      by (cbn [length] in *; rewrite u64_add_small; lia).
    split; cbn [segment_size_limit segments log_start_offset log_end_offset start_file].
    + done.
    + exists o. split; [|done]. rewrite <- app_assoc, <- Hend'.
      replace (concat bs ++ e :: es) with (concat (bs ++ [e :: es])) by (rewrite concat_app; cbn; by rewrite app_nil_r).
      apply chain_snoc; [by rewrite Hb'|done].
    + rewrite <- Hend'. lia.
    + rewrite <- Hend'. lia.
    + by rewrite Hbases.
    + rewrite H6. destruct pre; cbn; by rewrite ?Hb'.
  - unfold Segment.append. rewrite Hser, set_last_snoc. intros [= <- <-]. split_and!; [done| |done].
    split; cbn; try done. exists o. split; [|done]. rewrite <- H3. by apply chain_snoc.
Qed.

(** *** Truncating *)

Lemma pop_from_chain (from o e : N) (ss : list Segment) (es : list LogEntry) :
  chain o ss es e -> ss <> [] -> o <= from <= e ->
  exists pre s post es0 bs, rev (pop_from from (rev ss)) = pre ++ [s] /\ ss = pre ++ [s] ++ post /\
    chain o pre es0 (base_offset s) /\ ok bs s /\ base_offset s <= from <= next_offset s /\
    list_filter (below from) es = es0 ++ list_filter (below from) (concat bs).
Proof.
  revert e es. induction ss as [|s ss IH] using rev_ind; intros e es Hc Hne Hf; [done|].
  destruct (chain_snoc_inv _ _ _ _ _ Hc) as (es0 & bs & -> & H1 & H2 & H3). rewrite rev_app_distr.
  destruct (chain_contiguous _ _ _ _ H1) as [Hco Hlen].
  assert (base_offset s <= from -> list_filter (below from) es0 = es0) as Hall.
  { intros Hlt. apply list_filter_all. intros x Hx. pose proof (contiguous_bounds _ _ _ Hco Hx). unfold below. lia. }
  destruct (decide (ss = [])) as [->|Hss].
  - inversion H1; subst. exists [], s, [], [], bs. by split_and!; try done; lia.
  - assert (pop_from from (rev [s] ++ rev ss) =
            if from <=? base_offset s then pop_from from (rev ss) else s :: rev ss) as ->.
    { cbn. destruct (rev ss) eqn:E; [|done]. apply (f_equal (@rev _)) in E. by rewrite rev_involutive in E. }
    destruct (from <=? base_offset s) eqn:Ecut.
    + destruct (IH _ _ H1 Hss) as (pre & s' & post & es1 & bs1 & E1 & E2 & E3 & E4 & E5 & E6); [lia|].
      exists pre, s', (post ++ [s]), es1, bs1. split_and!; try done; try lia.
      * by rewrite E2, <- !app_assoc.
      * rewrite list_filter_app, E6, (list_filter_none _ (concat bs)); [by rewrite app_nil_r|].
        intros x Hx. pose proof (contiguous_bounds _ _ _ (so_offsets _ _ _ _ H2) Hx). unfold below. lia.
    + exists ss, s, [], es0, bs. cbn [rev]. rewrite rev_involutive.
      split_and!; try done; try lia. rewrite list_filter_app, Hall by lia. done.
Qed.

Lemma truncate_suffix_log_ok (ds : list LogEntry) (l : SegmentLog) (from : N) :
  log_ok ds l -> log_start_offset l <= from ->
  exists l', truncate_suffix from l = (l', Ok tt) /\ log_ok (list_filter (below from) ds) l' /\
    log_start_offset l' = log_start_offset l.
Proof.
  intros Hl Hf. pose proof Hl as [Hlim (o & Hc & Ho) Hs He Hsort Hsf]. unfold truncate_suffix.
  destruct (chain_contiguous _ _ _ _ Hc) as [Hco Hend].
  destruct (log_end_offset l <=? from) eqn:E.
  { exists l. split_and!; [done| |done]. rewrite list_filter_all; [done|].
    intros x Hx. pose proof (contiguous_bounds _ _ _ Hco Hx). unfold below. lia. }
  destruct (decide (segments l = [])) as [Hnil|Hne].
  { rewrite Hnil in Hc. inversion Hc; subst. lia. }
  destruct (pop_from_chain from _ _ _ _ Hc Hne) as (pre & s & post & es0 & bs & -> & Ess & H1 & H2 & H3 & H4); [lia|].
  rewrite last_snoc.
  destruct (truncate_suffix_ok serialize deserialize crc32c deserialize_serialize crc_bound serialize_prefix bs s from)
    as (bs' & s' & b & Ht & Hok' & Hb' & Hcat); [done|lia|].
  rewrite Ht, set_last_snoc. eexists. split; [done|]. split; [|done].
  assert (next_offset s' = from) as Hn'.
  { rewrite (so_next _ _ _ _ Hok'), Hb'. unfold count. rewrite Hcat. unfold below.
    rewrite (contiguous_filter_below (base_offset s)) by apply H2. rewrite length_take.
    pose proof (so_next _ _ _ _ H2) as Hn. unfold count in Hn. lia. }
  assert (map base_offset (pre ++ [s']) = map base_offset (pre ++ [s])) as Hbases
    by (rewrite !map_app; cbn; by rewrite Hb').
  split; cbn [segment_size_limit segments log_start_offset log_end_offset start_file]; try done; try lia.
  - exists o. split; [|done]. rewrite H4, <- Hcat, <- Hn'. apply chain_snoc; [by rewrite Hb'|done].
  - rewrite Hbases. rewrite Ess, app_assoc, (map_app _ (pre ++ [s])) in Hsort. by eapply StronglySorted_app_l.
  - rewrite Hsf, Ess. destruct pre; cbn; by rewrite ?Hb'.
Qed.

Lemma drop_segments_chain (up o e : N) (ss : list Segment) (es : list LogEntry) :
  chain o ss es e -> o <= up <= e ->
  exists o' es', chain o' (list_filter (fun s => negb (next_offset s <=? up)) ss) es' e /\ o' <= up /\
    list_filter (fun x => up <=? offset x) es' = list_filter (fun x => up <=? offset x) es.
Proof.
  intros Hc. induction Hc as [o|o s ss bs es e Hok <- Hc IH]; intros Hup.
  - exists o, []. split_and!; [constructor|lia|done].
  - cbn [list_filter]. destruct (next_offset s <=? up) eqn:E; cbn [negb].
    + destruct IH as (o' & es' & H1 & H2 & H3); [lia|]. exists o', es'. split_and!; [done|done|].
      rewrite H3, list_filter_app, (list_filter_none _ (concat bs)); [done|].
      intros x Hx. destruct Hok as [_ _ _ H4 H5 _ _]. pose proof (contiguous_bounds _ _ _ H5 Hx).
      unfold count in H4. lia.
    + exists (base_offset s), (concat bs ++ es). split_and!; [|lia|done].
      rewrite list_filter_all; [by econstructor|].
      intros s' Hs'. pose proof (chain_elem _ _ _ _ _ Hc Hs'). lia.
Qed.

Lemma StronglySorted_filter (f : Segment -> bool) (ss : list Segment) :
  StronglySorted N.lt (map base_offset ss) -> StronglySorted N.lt (map base_offset (list_filter f ss)).
Proof.
  induction ss as [|s ss IH]; cbn; [done|]. intros Hs. inversion Hs as [|? ? Hs' Hx]; subst.
  destruct (f s); cbn; [|auto]. constructor; [auto|]. rewrite list.Forall_forall in *.
  intros y (s' & -> & Hy)%list_elem_of_fmap. apply elem_of_list_filter_b in Hy as [Hy _].
  apply Hx, list_elem_of_fmap. eauto.
Qed.

Lemma truncate_prefix_log_ok (ds : list LogEntry) (l : SegmentLog) (up : N) :
  log_ok ds l -> log_start_offset l <= up <= log_end_offset l ->
  exists l' ds', truncate_prefix up l = (l', Ok tt) /\ log_ok ds' l' /\ log_start_offset l' = up /\
    list_filter (fun x => up <=? offset x) ds' = list_filter (fun x => up <=? offset x) ds.
Proof.
  intros [Hlim (o & Hc & Ho) Hs He Hsort Hsf] Hup.
  destruct (drop_segments_chain up _ _ _ _ Hc) as (o' & ds' & H1 & H2 & H3); [lia|].
  eexists _, ds'. split; [done|]. split_and!; [|done|done].
  split; cbn [segment_size_limit segments log_start_offset log_end_offset start_file]; try done; try lia.
  - by exists o'.
  - by apply StronglySorted_filter.
  - cbn [default]. destruct (list_filter _ (segments l)) as [|s ss] eqn:E; [cbn; lia|].
    rewrite (physical_start_chain _ _ _ _ H1) by done. cbn. lia.
Qed.

(** *** Reopening *)

Lemma open_id (bs : list (list LogEntry)) (s : Segment) :
  ok bs s -> seg_open (file s) (base_offset s) = s.
Proof.
  intros Hok. pose proof Hok as [H1 H2 H3 H4 H5 H6 H7].
  destruct (open_damaged serialize deserialize crc32c deserialize_serialize crc_bound bs (file s) [] (base_offset s))
    as (Ho & Hf & Hb); [done|apply stops_nil|done|done|done|]. rewrite app_nil_r in *.
  destruct Ho as [_ K2 K3 K4 _ _ _]. rewrite Hf in K2. rewrite Hb in K4.
  destruct s as [b f sz c n], (seg_open _ _) as [b' f' sz' c' n']. cbn in *. congruence.
Qed.

Lemma StronglySorted_lt_NoDup (xs : list N) : StronglySorted N.lt xs -> NoDup xs.
Proof.
  induction 1 as [|x xs _ IH Hx]; constructor; [|done]. intros Hin.
  rewrite list.Forall_forall in Hx. specialize (Hx x Hin). lia.
Qed.

Lemma merge_sort_sorted (dir fs : list (N * bytes)) :
  StronglySorted N.lt (map fst fs) -> dir ≡ₚ fs -> merge_sort N.le (map fst dir) = map fst fs.
Proof.
  intros Hs Hp. apply (StronglySorted_unique N.le).
  - apply (StronglySorted_merge_sort N.le).
  - clear Hp. induction Hs as [|x xs _ IH Hx]; constructor; [done|].
    eapply Forall_impl; [done|]. cbn. lia.
  - rewrite merge_sort_Permutation. by rewrite Hp.
Qed.

Lemma contents_perm (dir fs : list (N * bytes)) (f : N * bytes) :
  StronglySorted N.lt (map fst fs) -> dir ≡ₚ fs -> f ∈ fs -> contents dir f.1 = f.2.
Proof.
  intros Hs Hp Hf. unfold contents.
  assert (NoDup (map fst dir)) as Hnd by (rewrite Hp; by apply StronglySorted_lt_NoDup).
  assert (f ∈ dir) as Hin by (by rewrite Hp). clear Hs Hp Hf fs.
  induction dir as [|g dir IH]; [set_solver|]. cbn [list_find_first map] in *.
  inversion Hnd as [|? ? Hg Hnd']; subst. apply elem_of_cons in Hin as [->|Hin].
  - by rewrite N.eqb_refl.
  - destruct (g.1 =? f.1) eqn:E; [|by apply IH]. apply N.eqb_eq in E. destruct Hg. rewrite E.
    apply list_elem_of_fmap. eauto.
Qed.

(** Whatever order the directory lists its files in, opening it opens them
    in the order of their base offsets. *)
Lemma opened_files (dir fs : list (N * bytes)) :
  StronglySorted N.lt (map fst fs) -> dir ≡ₚ fs ->
  map (fun base => seg_open (contents dir base) base) (merge_sort N.le (map fst dir))
  = map (fun f => seg_open f.2 f.1) fs.
Proof.
  intros Hs Hp. rewrite (merge_sort_sorted dir fs Hs Hp), map_map. apply map_ext_in.
  intros f Hf. rewrite (contents_perm dir fs f); [done|done|done|]. by apply list_elem_of_In.
Qed.

Lemma pop_empty_chain (o e : N) (ss : list Segment) (es : list LogEntry) :
  chain o ss es e ->
  exists post, ss = rev (pop_empty (rev ss)) ++ post /\ chain o (rev (pop_empty (rev ss))) es e /\
    physical_start (rev (pop_empty (rev ss))) = physical_start ss.
Proof.
  revert e es. induction ss as [|s ss IH] using rev_ind; intros e es Hc; [by exists []|].
  destruct (chain_snoc_inv _ _ _ _ _ Hc) as (es0 & bs & -> & H1 & H2 & H3). rewrite rev_app_distr.
  destruct (decide (ss = [])) as [->|Hss]; [by exists []|].
  assert (pop_empty (rev [s] ++ rev ss) = if entry_count s =? 0 then pop_empty (rev ss) else s :: rev ss) as ->.
  { cbn. destruct (rev ss) eqn:E; [|done]. apply (f_equal (@rev _)) in E. by rewrite rev_involutive in E. }
  destruct (entry_count s =? 0) eqn:E.
  - destruct (IH _ _ H1) as (post & E1 & E2 & E3). exists (post ++ [s]).
    destruct H2 as [_ _ K3 K4 _ _ _]. unfold count in *.
    assert (concat bs = []) as -> by (destruct (concat bs); [done|cbn in *; lia]).
    replace e with (base_offset s) by (cbn in *; lia). rewrite app_nil_r. split_and!; [|done|].
    + by rewrite app_assoc, <- E1.
    + rewrite E3. by destruct ss.
  - exists []. cbn [rev]. by rewrite rev_involutive, app_nil_r.
Qed.

(** Opening a directory that holds the files of a chain. *)
Lemma open_log_ok (ds : list LogEntry) (ss : list Segment) (dir : list (N * bytes)) (limit o start e : N) (sf : option N) :
  0 < limit -> chain o ss ds e -> o <= start <= e -> e <= u64_max ->
  StronglySorted N.lt (map base_offset ss) -> start = N.max (default 0 sf) (physical_start ss) ->
  map (fun base => seg_open (contents dir base) base) (merge_sort N.le (map fst dir)) = ss ->
  log_ok ds (open_with_limit dir sf limit) /\
  log_start_offset (open_with_limit dir sf limit) = start.
Proof.
  intros Hlim Hc Hs He Hsort Hsf Hopen. unfold open_with_limit. rewrite Hopen.
  destruct (pop_empty_chain _ _ _ _ Hc) as (post & E1 & E2 & E3).
  set (ss' := rev (pop_empty (rev ss))) in *. rewrite E3, <- Hsf.
  assert (match last ss' with Some s => next_offset s | None => start end = e) as Hend.
  { clearbody ss'. destruct ss' as [|s ss' _] using rev_ind; [inversion E2; subst; cbn; lia|].
    rewrite last_snoc. by destruct (chain_snoc_inv _ _ _ _ _ E2) as (_ & _ & _ & _ & _ & ?). }
  cbn [log_start_offset]. split; [|done]. rewrite Hend. split; cbn; try done; try lia.
  - exists o. split; [done|lia].
  - rewrite E1, map_app in Hsort. by eapply StronglySorted_app_l.
Qed.

(** The files of a log. *)
Definition files (ss : list Segment) : list (N * bytes) := map (fun s => (base_offset s, file s)) ss.

Lemma map_fst_files (ss : list Segment) : map fst (files ss) = map base_offset ss.
Proof. unfold files. by rewrite map_map. Qed.

Lemma opened_chain (o e : N) (ss : list Segment) (es : list LogEntry) :
  chain o ss es e -> map (fun f => seg_open f.2 f.1) (files ss) = ss.
Proof.
  intros Hc. induction Hc as [o|o s ss bs es e Hok Hb _ IH]; [done|].
  unfold files in *. cbn. by rewrite (open_id bs s Hok), IH.
Qed.

Lemma reopen_log_ok (ds : list LogEntry) (l : SegmentLog) (dir : list (N * bytes)) (limit : N) :
  log_ok ds l -> 0 < limit -> dir ≡ₚ files (segments l) ->
  log_ok ds (open_with_limit dir (start_file l) limit) /\
  log_start_offset (open_with_limit dir (start_file l) limit) = log_start_offset l.
Proof.
  intros [_ (o & Hc & Ho) Hs He Hsort Hsf] Hlim Hp. eapply open_log_ok; try done.
  rewrite (opened_files dir (files (segments l))) by (by rewrite ?map_fst_files).
  by eapply opened_chain.
Qed.

(** A crash while [append] writes: [k] bytes of the batch reached the file,
    and the log is opened again. *)
Definition crash_append (entries : list LogEntry) (k : nat) (l : SegmentLog) : SegmentLog :=
  match entries with
  | [] => open_with_limit (files (segments l)) (start_file l) (segment_size_limit l)
  | first :: _ =>
      let segs := writable_segments (offset first) l in
      let written := match serialize entries with
                     | Some p => take k (batch_bytes crc32c p)
                     | None => []
                     end in
      let dir := match last segs with
                 | Some s => files (removelast segs) ++ [(base_offset s, file s ++ written)]
                 | None => files segs
                 end in
      open_with_limit dir (start_file l) (segment_size_limit l)
  end.

Lemma crash_append_log_ok (ds : list LogEntry) (l : SegmentLog) (es : list LogEntry) (p : bytes) (k : nat) :
  log_ok ds l -> es <> [] -> contiguous (log_end_offset l) es = true -> serialize es = Some p ->
  N.of_nat (length p) < u32_modulus -> log_end_offset l + N.of_nat (length es) <= u64_max ->
  let l' := crash_append es k l in
  log_ok (if (k <? length (batch_bytes crc32c p))%nat then ds else ds ++ es) l' /\
  log_start_offset l' = log_start_offset l.
Proof.
  intros Hl Hne Hc Hs Hp Hb. unfold crash_append. rewrite Hs. destruct es as [|e es]; [done|].
  pose proof Hc as Hoff. cbn [contiguous] in Hoff. apply andb_prop in Hoff as [Hoff%N.eqb_eq _]. rewrite Hoff.
  destruct (writable_segments_ok ds l _ Hl eq_refl) as (o & pre & s & ds0 & bs & Hw & -> & H1 & H2 & H3 & H4 & H5 & H6).
  rewrite Hw in *. rewrite last_snoc, removelast_last. destruct Hl as [Hlim _ Hst He _ _].
  set (f := file s ++ take k (batch_bytes crc32c p)). set (t := seg_open f (base_offset s)).
  set (rec := if (k <? length (batch_bytes crc32c p))%nat then bs else bs ++ [e :: es]).
  destruct (torn_open_ok serialize deserialize crc32c deserialize_serialize crc_bound bs s (e :: es) p k)
    as [Hr Htb]; [done|done|done|by rewrite H3|by rewrite H3|done|]. fold f t rec in Hr, Htb.
  assert (map base_offset (pre ++ [t]) = map base_offset (pre ++ [s])) as Hbases
    by (rewrite !map_app; cbn; by rewrite Htb).
  replace (if (k <? _)%nat then ds0 ++ concat bs else (ds0 ++ concat bs) ++ e :: es) with (ds0 ++ concat rec).
  2:{ unfold rec. destruct (k <? _)%nat; [done|]. rewrite concat_app. cbn. by rewrite app_nil_r, app_assoc. }
  apply (open_log_ok _ (pre ++ [t]) _ _ o _ (next_offset t)); [done|by apply chain_snoc; rewrite ?Htb| | | | |].
  - split; [done|]. rewrite (so_next _ _ _ _ Hr), Htb. pose proof (so_next _ _ _ _ H2).
    assert (count bs <= count rec); [|lia]. unfold rec, count. destruct (k <? _)%nat; [lia|].
    rewrite concat_app, length_app. lia.
  - rewrite (so_next _ _ _ _ Hr). apply Hr.
  - by rewrite Hbases.
  - rewrite H6. destruct pre; cbn; by rewrite ?Htb.
  - rewrite (opened_files _ (files pre ++ [(base_offset s, f)])).
    + rewrite map_app, (opened_chain _ _ _ _ H1). done.
    + rewrite map_app, map_fst_files. rewrite map_app in H5. done.
    + done.
Qed.

(** *** Runs *)

Inductive SegOp :=
| SAppend (es : list LogEntry)
| STruncateSuffix (from : N)
| STruncatePrefix (up_to : N)
| SReopen (dir : list (N * bytes))
| SCrashAppend (es : list LogEntry) (k : nat).

Definition seg_op (l : SegmentLog) (op : SegOp) : SegmentLog :=
  match op with
  | SAppend es => (append es l).1
  | STruncateSuffix from => (truncate_suffix from l).1
  | STruncatePrefix up_to => (truncate_prefix up_to l).1
  | SReopen dir => open_with_limit dir (start_file l) (segment_size_limit l)
  | SCrashAppend es k => crash_append es k l
  end.

(** The whole batch reached the disk. *)
Definition whole_batch (es : list LogEntry) (k : nat) : bool :=
  match serialize es with Some p => negb (k <? length (batch_bytes crc32c p))%nat | None => false end.

Definition seg_abs_op (a : AbsLog) (op : SegOp) : AbsLog :=
  match op with
  | SAppend es => al_append es a
  | STruncateSuffix from => al_truncate_suffix from a
  | STruncatePrefix up_to => al_truncate_prefix up_to a
  | SReopen _ => a
  | SCrashAppend es k => if whole_batch es k then al_append es a else a
  end.

Definition append_fits (a : AbsLog) (es : list LogEntry) : bool :=
  contiguous (al_end a) es && (al_end a + N.of_nat (length es) <=? u64_max) &&
  match serialize es with Some p => N.of_nat (length p) <? u32_modulus | None => false end.

(** The callers' obligations: appends continue the log, truncations stay
    within it, a reopening finds the files of the log, in any order. *)
Definition seg_op_ok (l : SegmentLog) (a : AbsLog) (op : SegOp) : Prop :=
  match op with
  | SAppend es => append_fits a es = true
  | SCrashAppend es _ => append_fits a es = true /\ es <> []
  | STruncateSuffix from => al_start a <= from
  | STruncatePrefix up_to => al_start a <= up_to <= al_end a
  | SReopen dir => dir ≡ₚ files (segments l)
  end.

Fixpoint seg_ops_ok (l : SegmentLog) (a : AbsLog) (ops : list SegOp) : Prop :=
  match ops with
  | [] => True
  | op :: ops' => seg_op_ok l a op /\ seg_ops_ok (seg_op l op) (seg_abs_op a op) ops'
  end.

Lemma append_fits_inv (a : AbsLog) (es : list LogEntry) :
  append_fits a es = true ->
  contiguous (al_end a) es = true /\ al_end a + N.of_nat (length es) <= u64_max /\
  exists p, serialize es = Some p /\ N.of_nat (length p) < u32_modulus.
Proof.
  unfold append_fits. intros [[H1 H2]%andb_prop H3]%andb_prop. split_and!; [done|lia|].
  destruct (serialize es) as [p|]; [|done]. exists p. split; [done|lia].
Qed.

Lemma al_append_ok (ds es : list LogEntry) (l l' : SegmentLog) :
  log_ok ds l -> contiguous (log_end_offset l) es = true ->
  log_ok (ds ++ es) l' -> log_start_offset l' = log_start_offset l ->
  log_abs l' = al_append es (log_abs l).
Proof.
  intros Hl Hc Hl' Hs. rewrite (log_ok_abs _ _ Hl), (log_ok_abs _ _ Hl'), Hs. unfold al_append. cbn.
  rewrite list_filter_app. f_equal. f_equal. apply list_filter_all. intros x Hx.
  pose proof (contiguous_bounds _ _ _ Hc Hx). pose proof (lo_start _ _ Hl). lia.
Qed.

Lemma seg_op_abs (l : SegmentLog) (op : SegOp) :
  log_inv l -> seg_op_ok l (log_abs l) op ->
  log_inv (seg_op l op) /\ log_abs (seg_op l op) = seg_abs_op (log_abs l) op.
Proof.
  intros [ds Hl] Hop. destruct (log_ok_wf ds l Hl) as [Hwf Hend]. pose proof (log_ok_abs ds l Hl) as Habs.
  assert (al_start (log_abs l) = log_start_offset l) as Hst by done.
  destruct op as [es|from|up|dir|es k]; cbn [seg_op seg_abs_op seg_op_ok] in *; rewrite ?Hend in *.
  - apply append_fits_inv in Hop as (Hc & Hb & p & Hp & Hfit). rewrite Hend in *.
    destruct (append es l) as [l' r] eqn:E. cbn.
    destruct (append_log_ok ds l l' es r) as [Hs' Hr]; [done|done|intros q; congruence|done|done|].
    destruct r as [[]|e]; [|destruct Hr; congruence]. split; [by exists (ds ++ es)|]. by eapply al_append_ok.
  - destruct (truncate_suffix_log_ok ds l from Hl Hop) as (l' & -> & Hl' & Hs'). cbn.
    split; [by eexists|]. rewrite (log_ok_abs _ _ Hl'), Habs, Hs'. unfold al_truncate_suffix. cbn.
    rewrite !list_filter_filter. f_equal. apply list_filter_ext. intros x _. unfold below. lia.
  - destruct (truncate_prefix_log_ok ds l up Hl Hop) as (l' & ds' & -> & Hl' & Hs' & Hds). cbn.
    split; [by eexists|]. rewrite (log_ok_abs _ _ Hl'), Habs, Hs', Hds. unfold al_truncate_prefix. cbn.
    rewrite N.max_r by lia. rewrite list_filter_filter. f_equal. apply list_filter_ext. intros x _. lia.
  - destruct (reopen_log_ok ds l dir (segment_size_limit l) Hl) as [Hl' Hs']; [apply Hl|done|].
    split; [by eexists|]. rewrite (log_ok_abs _ _ Hl'), Habs, Hs'. done.
  - destruct Hop as [(Hc & Hb & p & Hp & Hfit)%append_fits_inv Hne]. rewrite Hend in *.
    destruct (crash_append_log_ok ds l es p k) as [Hl' Hs']; [done..|]. unfold whole_batch. rewrite Hp.
    split; [by eexists|]. destruct (k <? _)%nat; cbn [negb].
    + rewrite (log_ok_abs _ _ Hl'), Habs, Hs'. done.
    + by eapply al_append_ok.
Qed.

Lemma seg_run_abs (ops : list SegOp) (l : SegmentLog) :
  log_inv l -> seg_ops_ok l (log_abs l) ops ->
  log_inv (foldl seg_op l ops) /\ log_abs (foldl seg_op l ops) = foldl seg_abs_op (log_abs l) ops.
Proof.
  revert l. induction ops as [|op ops IH]; intros l Hl Hok; [done|]. cbn in *. destruct Hok as [Hop Hok].
  destruct (seg_op_abs l op Hl Hop) as [Hl' Ha]. rewrite <- Ha in *. auto.
Qed.

Lemma open_empty_ok (limit : N) :
  0 < limit -> log_ok [] (open_with_limit [] None limit) /\ log_abs (open_with_limit [] None limit) = mkAbsLog 0 [].
Proof.
  intros Hlim. split; [|done]. unfold open_with_limit. cbn. split; cbn; try done; [|constructor].
  exists 0. split; [constructor|done].
Qed.

(** C5: The segmented log refines the abstract log.  After any sequence of
    appends that continue the log, truncations within it, restarts (the
    directory listed in any order) and crashes in the middle of an append with
    any number of bytes of the batch on disk, every range read, every entry
    lookup and both ends of the log are those of the abstract log after the
    same operations, where a restart does nothing and a crashed append is an
    append when the whole batch reached the disk and nothing otherwise. *)
Theorem segment_log_refines (limit : N) (ops : list SegOp) :
  0 < limit -> seg_ops_ok (open_with_limit [] None limit) (mkAbsLog 0 []) ops ->
  let l := foldl seg_op (open_with_limit [] None limit) ops in
  let a := foldl seg_abs_op (mkAbsLog 0 []) ops in
  (forall i j, read i j l = Ok (al_read i j a)) /\
  (forall o, o < al_end a -> entry_at o l = Ok (al_entry_at o a)) /\
  log_start_offset l = al_start a /\ log_end_offset l = al_end a /\ al_wf a.
Proof.
  intros Hlim Hok l a. destruct (open_empty_ok limit Hlim) as [Hl0 Ha0].
  destruct (seg_run_abs ops (open_with_limit [] None limit)) as [(ds & Hl) Ha];
    [by eexists|by rewrite Ha0|]. fold l in Hl, Ha. rewrite Ha0 in Ha. fold a in Ha.
  destruct (log_ok_wf ds l Hl) as [Hwf Hend]. rewrite <- Ha. split_and!; try done.
  - intros i j. by apply (seg_log_read_abs ds).
  - intros o Ho. apply (seg_log_entry_at_abs ds); [done|]. by rewrite <- Hend.
Qed.

(** Rollover.  A batch is never split: appending to a log whose last
    segment has reached the size limit puts the whole batch in a new segment
    whose base is the offset of its first entry and leaves the old segments as
    they are; below the limit the batch goes to the last segment. *)
Theorem append_rolls_at_limit (l l' : SegmentLog) (e : LogEntry) (es : list LogEntry)
    (pre : list Segment) (s : Segment) :
  log_inv l -> segments l = pre ++ [s] -> append_fits (log_abs l) (e :: es) = true ->
  append (e :: es) l = (l', Ok tt) ->
  exists t,
    if segment_size_limit l <=? size s
    then segments l' = pre ++ [s; t] /\ base_offset t = offset e /\ seg_entries t = e :: es
    else segments l' = pre ++ [t] /\ base_offset t = base_offset s /\ seg_entries t = seg_entries s ++ e :: es.
Proof.
  intros [ds Hl] Hsegs Hfit Ha. destruct (log_ok_wf ds l Hl) as [_ Hend].
  destruct (append_fits_inv _ _ Hfit) as (Hc & Hb & p & Hp & Hlen). rewrite Hend in *.
  pose proof Hc as Hoff. cbn [contiguous] in Hoff. apply andb_prop in Hoff as [Hoff%N.eqb_eq _].
  destruct (fresh_ok (log_end_offset l) (lo_end _ _ Hl)) as (Hf & Hfb & Hfn).
  unfold append, writable_segments in Ha. rewrite Hoff, N.eqb_refl in Ha. cbn [negb] in Ha.
  assert (match segments l with [] => [seg_open [] (log_end_offset l)] | ss => ss end = pre ++ [s]) as Hw
    by (rewrite Hsegs; by destruct pre).
  rewrite Hw, last_snoc in Ha. destruct (lo_chain _ _ Hl) as (o & Hch & _). rewrite Hsegs in Hch.
  destruct (chain_snoc_inv _ _ _ _ _ Hch) as (es0 & bs & _ & _ & Hs & Hn).
  destruct (segment_size_limit l <=? size s); rewrite last_snoc in Ha.
  - destruct (append_ok serialize crc32c [] _ (e :: es) p Hf) as (t & Et & Hok & Hbt & _);
      [done|done|done|by rewrite Hfn|by rewrite Hfn|].
    rewrite Et, set_last_snoc in Ha. simplify_eq. exists t.
    rewrite Hoff, Hbt, Hfb, (seg_entries_ok _ _ Hok). cbn. by rewrite app_nil_r, <- app_assoc.
  - destruct (append_ok serialize crc32c bs s (e :: es) p Hs) as (t & Et & Hok & Hbt & _);
      [done|done|done|by rewrite Hn|by rewrite Hn|].
    rewrite Et, set_last_snoc in Ha. simplify_eq. exists t.
    rewrite Hbt, (seg_entries_ok _ _ Hok), (seg_entries_ok _ _ Hs), concat_app. cbn. by rewrite app_nil_r.
Qed.

(** *** The store's promise *)

Section Promise.
(** No batch reaches 4 GiB. *)
Context (serialize_fits : forall es, fits es).

#[local] Program Instance segment_LogStoreLaws : LogStoreLaws SegmentLog := {|
  ls_inv := log_inv;
  ls_abs := log_abs;
|}.
Next Obligation. intros l [ds Hl]. apply (log_ok_wf ds l Hl). Qed.
Next Obligation. done. Qed.
Next Obligation. intros l [ds Hl]. symmetry. apply (log_ok_wf ds l Hl). Qed.
Next Obligation. intros l a b [ds Hl]. by apply (seg_log_read_abs ds). Qed.
Next Obligation.
  intros l o [ds Hl] Ho. apply (seg_log_entry_at_abs ds); [done|]. destruct (log_ok_wf ds l Hl) as [_ <-]. done.
Qed.
Next Obligation.
  intros l es l' r [ds Hl] Hc Hb E. destruct (log_ok_wf ds l Hl) as [_ Hend].
  rewrite Hend in Hc. unfold al_end, al_append in Hb. cbn [al_start al_entries] in Hb.
  rewrite length_app in Hb. unfold al_end in Hend.
  destruct (append_log_ok ds l l' es r) as [Hs Hr]; [done|done|apply serialize_fits|lia|done|].
  destruct r as [[]|e].
  - split_and!; [by eexists| |done]. intros _. by eapply al_append_ok.
  - destruct Hr as [Hr _]. split_and!; [by eexists|done|]. intros _ _.
    by rewrite (log_ok_abs _ _ Hl), (log_ok_abs _ _ Hr), Hs.
Qed.
Next Obligation.
  intros l from Hi Hf. destruct (seg_op_abs l (STruncateSuffix from) Hi Hf) as [Hi' Ha].
  destruct Hi as [ds Hl]. destruct (truncate_suffix_log_ok ds l from Hl Hf) as (l' & E & _ & _).
  exists l'. cbn in *. by rewrite E in *.
Qed.
End Promise.
End Log.

(** ** Demonstration *)

Abbreviation demo_open := (open_with_limit demo_de demo_crc).
Abbreviation demo_op := (seg_op demo_ser demo_de demo_crc).

(** Three batches in two segments, a crash in the middle of a fourth. *)
Definition demo_run : list SegOp :=
  [SAppend [ent 0; ent 1]; SAppend [ent 2]; SCrashAppend [ent 3; ent 4] 14; STruncateSuffix 2;
   SCrashAppend [ent 2; ent 3] 16; STruncatePrefix 1].

Lemma segment_log_refines_witness :
  read demo_de demo_crc 0 9 (foldl demo_op (demo_open [] None 20) demo_run) = Ok [ent 1; ent 2; ent 3].
Proof.
  destruct (segment_log_refines demo_ser demo_de demo_crc demo_de_ser demo_crc_bound demo_ser_prefix
    20 demo_run) as (Hr & _); [done| |].
  - repeat (split; [by vm_compute|]). done.
  - rewrite Hr. by vm_compute.
Defined.

Definition demo_log : SegmentLog := foldl demo_op (demo_open [] None 14) [SAppend [ent 0; ent 1]].

Lemma demo_log_inv : log_inv demo_ser demo_crc demo_log.
Proof.
  destruct (open_empty_ok demo_ser demo_de demo_crc 14) as [Hl Ha]; [done|].
  eapply (seg_run_abs demo_ser demo_de demo_crc demo_de_ser demo_crc_bound demo_ser_prefix); [by eexists|].
  rewrite Ha. split; [by vm_compute|done].
Qed.

Lemma append_rolls_at_limit_witness :
  exists s t, segments (demo_op demo_log (SAppend [ent 2; ent 3])) = [s; t] /\ base_offset t = 2.
Proof.
  set (s := default seg0 (head (segments demo_log))).
  destruct (append_rolls_at_limit demo_ser demo_de demo_crc demo_de_ser demo_crc_bound
    demo_log (demo_op demo_log (SAppend [ent 2; ent 3])) (ent 2) [ent 3] [] s) as [t Ht];
    [apply demo_log_inv|by vm_compute..|].
  exists s, t. assert ((segment_size_limit demo_log <=? size s) = true) as Hs by (by vm_compute).
  rewrite Hs in Ht. destruct Ht as (H1 & H2 & _). split; [exact H1|exact H2].
Defined.

(** [truncate_prefix] does not look at the bounds of the log: beyond its end
    it leaves a log that starts after it ends, and the next append at the
    reported end is stored but never readable. *)
Lemma truncate_prefix_beyond_end :
  let l := (truncate_prefix 5 demo_log).1 in
  log_start_offset l = 5 /\ log_end_offset l = 2 /\
  read demo_de demo_crc 0 9 (append demo_ser demo_de demo_crc [ent 2] l).1 = Ok [].
Proof. by vm_compute. Qed.

(** [truncate_prefix] removes the files before it persists the new start.  A
    crash in between, when every file was removed, leaves an empty directory
    and the old start: the log restarts at its old start instead of its end. *)
Lemma crash_in_truncate_prefix_rewinds :
  let l := demo_log in
  let done_ := (truncate_prefix 2 l).1 in
  segments done_ = [] /\ log_end_offset done_ = 2 /\
  log_end_offset (demo_open (files (segments done_)) (start_file done_) 14) = 2 /\
  log_end_offset (demo_open (files (segments done_)) (start_file l) 14) = 0.
Proof. by vm_compute. Qed.

End SegmentLog.
