(* ===== verification/SegmentIndex.v ===== *)
(** * The sparse index of a segment: [xraft-storage/src/segment_index.rs]

    Pairs of a log offset and a byte position, in memory and in a file of
    16-byte little-endian records.  [create] and [create_or_truncate] differ
    in what they do with an existing file. *)

From Stdlib Require Import ZifyBool ZifyN ZifyNat Lia Sorted.
From Stdlib Require Import Strings.Byte.
From stdpp Require Import base list numbers option strings sorting.
From S2P Require Import Prelude Types Bytes.

Module SparseIndex.

Definition INDEX_ENTRY_SIZE : nat := 16.

Record SparseIndex := mkIndex {
  entries : list (N * N);
  file : bytes;
  interval : N;
}.

(** The existing file, when there is one, is the first argument. *)
Definition create (existing : option bytes) (interval : N) : Result SparseIndex :=
  match existing with
  | Some _ => Err (IoOther "already exists"%string)
  | None => Ok (mkIndex [] [] interval)
  end.

Definition create_or_truncate (existing : option bytes) (interval : N) : Result SparseIndex :=
  Ok (mkIndex [] [] interval).

Fixpoint read_entries (count : nat) (rest : bytes) (acc : list (N * N)) : Result (list (N * N)) :=
  match count with
  | O => Ok acc
  | S count' =>
      match read_exact INDEX_ENTRY_SIZE rest with
      | None => Err IoUnexpectedEof
      | Some (buf, rest') =>
          let offset := from_le_bytes (take 8 buf) in
          let position := from_le_bytes (take 8 (drop 8 buf)) in
          read_entries count' rest' (acc ++ [(offset, position)])
      end
  end.

Definition open (contents : bytes) (interval : N) : Result SparseIndex :=
  let file_len := length contents in
  let valid_len := (file_len - file_len mod INDEX_ENTRY_SIZE)%nat in
  let f := if (valid_len <? file_len)%nat then take valid_len contents else contents in
  let entry_count := (valid_len / INDEX_ENTRY_SIZE)%nat in
  result_bind (read_entries entry_count f []) (fun es => Ok (mkIndex es f interval)).

Definition entry_bytes (e : N * N) : bytes := to_le_bytes 8 e.1 ++ to_le_bytes 8 e.2.

Definition append (offset byte_position : N) (i : SparseIndex) : SparseIndex :=
  mkIndex (entries i ++ [(offset, byte_position)])
    (file i ++ to_le_bytes 8 offset ++ to_le_bytes 8 byte_position) (interval i).

(** The [while lo < hi] loop; it runs at most [hi - lo] times. *)
Fixpoint search (fuel : nat) (es : list (N * N)) (target : N) (lo hi : nat) : nat :=
  match fuel with
  | O => lo
  | S fuel' =>
      if (lo <? hi)%nat then
        let mid := (lo + (hi - lo) / 2)%nat in
        match es !! mid with
        | Some e => if e.1 <=? target then search fuel' es target (mid + 1)%nat hi
                    else search fuel' es target lo mid
        | None => lo
        end
      else lo
  end.

Definition lookup (target_offset : N) (i : SparseIndex) : option N :=
  match entries i with
  | [] => None
  | es =>
      let lo := search (length es) es target_offset 0 (length es) in
      if (lo =? 0)%nat then None
      else match es !! (lo - 1)%nat with Some e => Some e.2 | None => None end
  end.

Definition len (i : SparseIndex) : nat := length (entries i).

(** ** The file *)

Definition fits (e : N * N) : Prop := e.1 <= u64_max /\ e.2 <= u64_max.

(** The file holds the entries in memory. *)
Definition index_ok (i : SparseIndex) : Prop :=
  Forall fits (entries i) /\ file i = concat (map entry_bytes (entries i)).

Lemma length_entry_bytes (e : N * N) : length (entry_bytes e) = INDEX_ENTRY_SIZE.
Proof. unfold entry_bytes. by rewrite length_app, !length_to_le_bytes. Qed.

Lemma length_entries_bytes (es : list (N * N)) :
  length (concat (map entry_bytes es)) = (INDEX_ENTRY_SIZE * length es)%nat.
Proof.
  induction es as [|e es IH]; [done|]. cbn [map concat length].
  rewrite length_app, length_entry_bytes, IH. lia.
Qed.

Lemma read_entries_app (es acc : list (N * N)) :
  Forall fits es ->
  read_entries (length es) (concat (map entry_bytes es)) acc = Ok (acc ++ es).
Proof.
  revert acc. induction es as [|[o p] es IH]; intros acc Hf; cbn [length map concat read_entries].
  - by rewrite app_nil_r.
  - apply list.Forall_cons in Hf as [[Ho Hp] Hf]. cbn in Ho, Hp.
    rewrite read_exact_app by apply length_entry_bytes. rewrite IH by done.
    unfold entry_bytes. cbn [fst snd].
    rewrite drop_app_length' by (by rewrite length_to_le_bytes).
    rewrite (take_app_le _ (to_le_bytes 8 p)) by (by rewrite length_to_le_bytes).
    rewrite !take_ge by (by rewrite length_to_le_bytes).
    assert (256 ^ N.of_nat 8 = u64_modulus) as Hm by done.
    rewrite !from_to_le_bytes by (rewrite Hm; unfold u64_max, u64_modulus in *; lia).
    by rewrite <- app_assoc.
Qed.

Lemma index_ok_append (i : SparseIndex) (o p : N) :
  index_ok i -> o <= u64_max -> p <= u64_max -> index_ok (append o p i).
Proof.
  intros [H1 H2] Ho Hp. split; cbn [append entries file].
  - apply list.Forall_app. split; [done|]. by repeat constructor.
  - rewrite H2, map_app, concat_app. cbn [map concat]. by rewrite app_nil_r.
Qed.

(** ** The search *)

Definition sorted_entries (es : list (N * N)) : Prop := StronglySorted N.le (map fst es).

Lemma sorted_lookup (es : list (N * N)) (i j : nat) (a b : N * N) :
  sorted_entries es -> (i <= j)%nat -> es !! i = Some a -> es !! j = Some b -> a.1 <= b.1.
Proof.
  unfold sorted_entries. revert i j. induction es as [|e es IH]; intros i j Hs Hij Hi Hj; [done|].
  cbn in Hs. inversion Hs as [|? ? Hs' Hx]; subst. destruct i as [|i], j as [|j]; cbn in *; simplify_eq; try lia.
  - rewrite list.Forall_forall in Hx. apply Hx. apply list_elem_of_fmap. exists b.
    split; [done|]. by eapply list_elem_of_lookup_2.
  - eapply (IH i j); eauto. lia.
Qed.

(** The entries up to [n] are those at or below the target. *)
Definition splits (es : list (N * N)) (target : N) (n : nat) : Prop :=
  (forall k e, (k < n)%nat -> es !! k = Some e -> e.1 <= target) /\
  (forall k e, (n <= k)%nat -> es !! k = Some e -> target < e.1).

Lemma search_splits (es : list (N * N)) (target : N) :
  sorted_entries es -> forall fuel lo hi, (lo <= hi <= length es)%nat -> (hi - lo <= fuel)%nat ->
  (forall k e, (k < lo)%nat -> es !! k = Some e -> e.1 <= target) ->
  (forall k e, (hi <= k)%nat -> es !! k = Some e -> target < e.1) ->
  splits es target (search fuel es target lo hi) /\ (search fuel es target lo hi <= length es)%nat.
Proof.
  intros Hs fuel. induction fuel as [|fuel IH]; intros lo hi Hb Hfu Hlo Hhi; cbn [search].
  - assert (lo = hi) as -> by lia. split; [by split|lia].
  - destruct (Nat.ltb_spec lo hi) as [Hlt|Hge].
    2:{ assert (lo = hi) as -> by lia. split; [by split|lia]. }
    set (mid := (lo + (hi - lo) / 2)%nat).
    assert (lo <= mid < hi)%nat as Hmid.
    { unfold mid. pose proof (Nat.Div0.div_lt_upper_bound (hi - lo) 2 (hi - lo)). lia. }
    destruct (lookup_lt_is_Some_2 es mid) as [e He]; [lia|]. rewrite He.
    destruct (e.1 <=? target) eqn:E.
    + apply IH; [lia|lia| |done]. intros k e' Hk He'.
      pose proof (sorted_lookup es k mid e' e Hs ltac:(lia) He' He). lia.
    + apply IH; [lia|lia|done|]. intros k e' Hk He'.
      pose proof (sorted_lookup es mid k e e' Hs Hk He He'). lia.
Qed.

Lemma splits_filter (es : list (N * N)) (target : N) (n : nat) :
  splits es target n -> list_filter (fun e => e.1 <=? target) es = take n es.
Proof.
  revert n. induction es as [|e es IH]; intros n [H1 H2]; [by rewrite take_nil|]. cbn [list_filter].
  destruct n as [|n].
  - pose proof (H2 0%nat e ltac:(lia) eq_refl). replace (e.1 <=? target) with false by lia.
    rewrite (IH 0%nat); [done|]. split; [lia|]. intros k e' _ He'. by apply (H2 (S k) e'); [lia|].
  - pose proof (H1 0%nat e ltac:(lia) eq_refl). replace (e.1 <=? target) with true by lia. cbn [take]. f_equal.
    apply IH. split; intros k e' Hk He'; [apply (H1 (S k) e')|apply (H2 (S k) e')]; auto; lia.
Qed.

(** ** Guarantees *)

(** The binary search is a floor lookup.  On an index whose offsets do
    not decrease, [lookup] returns the byte position of the last entry whose
    offset is at most the target, and nothing exactly when every entry lies
    beyond it. *)
Theorem lookup_floor (i : SparseIndex) (target : N) :
  sorted_entries (entries i) ->
  lookup target i = option_map snd (last (list_filter (fun e => e.1 <=? target) (entries i))).
Proof.
  intros Hs. unfold lookup.
  destruct (search_splits (entries i) target Hs (length (entries i)) 0 (length (entries i))) as [Hsp Hle];
    [lia|lia|lia|intros k e Hk He; apply lookup_lt_Some in He; lia|].
  rewrite (splits_filter _ _ _ Hsp).
  destruct (entries i) as [|e es]; [by rewrite take_nil|]. set (n := search _ _ _ _ _) in *.
  destruct (Nat.eqb_spec n 0) as [Hn|Hn]; [by rewrite Hn|].
  rewrite last_lookup, length_take. replace (pred (n `min` length (e :: es))) with (n - 1)%nat by lia.
  rewrite lookup_take_lt by lia. by destruct ((e :: es) !! (n - 1)%nat).
Qed.

(** The index survives a crash.  An index whose file mirrors its entries
    and that crashes while appending, so that any proper prefix of the new
    record has reached the file, opens to exactly the entries it had, with the
    partial record cut off; a whole record is kept. *)
Theorem index_reopen (i : SparseIndex) (o p : N) (k : nat) :
  index_ok i -> o <= u64_max -> p <= u64_max ->
  open (file i ++ take k (entry_bytes (o, p))) (interval i)
  = Ok (if (k <? INDEX_ENTRY_SIZE)%nat then i else append o p i).
Proof.
  intros Hi Ho Hp. pose proof (length_entry_bytes (o, p)) as Hlen.
  assert (forall j junk, index_ok j -> (length junk < INDEX_ENTRY_SIZE)%nat -> open (file j ++ junk) (interval j) = Ok j) as Hopen.
  { clear. intros j junk [Hf Hfile] Hj. unfold open.
    assert (length (file j) = (INDEX_ENTRY_SIZE * length (entries j))%nat) as Hl
      by (rewrite Hfile; apply length_entries_bytes).
    assert (length (file j ++ junk) mod INDEX_ENTRY_SIZE = length junk)%nat as ->.
    { rewrite length_app, Hl, Nat.mul_comm, Nat.add_comm, Nat.Div0.mod_add. by apply Nat.mod_small. }
    rewrite length_app. replace (length (file j) + length junk - length junk)%nat with (length (file j)) by lia.
    assert (length (file j) / INDEX_ENTRY_SIZE = length (entries j))%nat as ->.
    { rewrite Hl, Nat.mul_comm. by apply Nat.div_mul. }
    assert ((if (length (file j) <? length (file j) + length junk)%nat
             then take (length (file j)) (file j ++ junk) else file j ++ junk) = file j) as ->.
    { destruct (Nat.ltb_spec (length (file j)) (length (file j) + length junk)).
      - by rewrite take_app_length.
      - destruct junk; [by rewrite app_nil_r|cbn in *; lia]. }
    rewrite Hfile, (read_entries_app _ [] Hf). cbn. rewrite <- Hfile. by destruct j. }
  destruct (Nat.ltb_spec k INDEX_ENTRY_SIZE).
  - apply Hopen; [done|]. rewrite length_take. lia.
  - rewrite take_ge by lia. rewrite <- (app_nil_r (file i ++ _)).
    change (file i ++ entry_bytes (o, p)) with (file (append o p i)).
    change (interval i) with (interval (append o p i)).
    apply Hopen; [by apply index_ok_append|cbn; unfold INDEX_ENTRY_SIZE; lia].
Qed.

Definition demo_index : SparseIndex := append 20 900 (append 10 400 (append 0 0 (mkIndex [] [] 10))).

Lemma lookup_floor_witness : lookup 19 demo_index = Some 400.
Proof.
  rewrite (lookup_floor demo_index 19); [reflexivity|]. unfold sorted_entries. cbn.
  repeat constructor; done.
Defined.

Lemma index_reopen_witness :
  open (file demo_index ++ take 9 (entry_bytes (30, 1200))) 10 = Ok demo_index.
Proof.
  apply (index_reopen demo_index 30 1200 9); [|done|done].
  repeat apply index_ok_append; done.
Defined.

End SparseIndex.
