(* ===== verification/StoreFiles.v ===== *)
(** * The small durable files of the storage engine

    [xraft-storage/src/quorum_state_file.rs] and
    [leader_epoch_checkpoint.rs]: a value in memory and a file that is
    replaced by writing a temporary file, syncing it and renaming it.

    The file system has a directory from names to inodes.  What a process
    reads is ahead of what is on the platter: the contents of an inode are
    durable only once [sync_all] has returned, and a change of the directory
    may be undone by a power failure until the directory itself is synced,
    which this code never does.  A replacement is the sequence of file
    operations of the source, a write being one operation per byte; the disk
    may fail any operation, and a crash may fall between any two. *)

From Stdlib Require Import ZifyBool ZifyN ZifyNat Lia Sorted.
From Stdlib Require Import Strings.Byte.
From stdpp Require Import base list gmap numbers option strings.
From S2P Require Import Prelude Types Interfaces BTree.

Module AtomicFile.

(** ** The file system *)

(** A file: what a process reads, and whether it is all on disk. *)
Record Inode := mkInode { contents : bytes; durable : bool }.

(** [earlier] are the directories a power failure may bring back. *)
Record FileSystem := mkFS {
  dir : gmap string nat;
  earlier : list (gmap string nat);
  inodes : list Inode;
}.

#[export] Instance fs_empty : Empty FileSystem := mkFS ∅ [] [].

Definition resolve (p : string) (f : FileSystem) : option (nat * Inode) :=
  match dir f !! p with
  | Some i => option_map (pair i) (inodes f !! i)
  | None => None
  end.
Definition fs_read (p : string) (f : FileSystem) : option bytes :=
  option_map (fun x => contents x.2) (resolve p f).

(** The operations: opening a file for a new content (which empties it or
    creates it), writing the next byte, opening it for writing, [sync_all] and
    [rename]. *)
Inductive FsOp :=
| Create (p : string)
| WriteByte (p : string) (b : byte)
| OpenWrite (p : string)
| SyncAll (p : string)
| Rename (p q : string).

Definition set_inode (i : nat) (x : Inode) (f : FileSystem) : FileSystem :=
  mkFS (dir f) (earlier f) (<[i := x]> (inodes f)).
Definition set_dir (d : gmap string nat) (f : FileSystem) : FileSystem :=
  mkFS d (dir f :: earlier f) (inodes f).

(** [None] is the error of a file that does not exist. *)
Definition fs_op (op : FsOp) (f : FileSystem) : option FileSystem :=
  match op with
  | Create p =>
      match resolve p f with
      | Some (i, _) => Some (set_inode i (mkInode [] false) f)
      | None =>
          let f' := set_dir (<[p := length (inodes f)]> (dir f)) f in
          Some (mkFS (dir f') (earlier f') (inodes f ++ [mkInode [] false]))
      end
  | WriteByte p b =>
      option_map (fun '(i, x) => set_inode i (mkInode (contents x ++ [b]) false) f) (resolve p f)
  | OpenWrite p => option_map (fun _ => f) (resolve p f)
  | SyncAll p => option_map (fun '(i, x) => set_inode i (mkInode (contents x) true) f) (resolve p f)
  | Rename p q => option_map (fun '(i, _) => set_dir (<[q := i]> (delete p (dir f))) f) (resolve p f)
  end.

(** Which operation of a sequence the disk fails, if any. *)
Inductive Fault :=
| NoFault
| FailAt (k : nat).

Definition fault_next (fault : Fault) : Fault :=
  match fault with FailAt (S k) => FailAt k | _ => NoFault end.

(** The operations in order, up to the first that fails.  A failed operation
    changes nothing. *)
Fixpoint run_ops (fault : Fault) (ops : list FsOp) (f : FileSystem) : FileSystem * Result unit :=
  match ops with
  | [] => (f, Ok tt)
  | op :: ops' =>
      match fault, fs_op op f with
      | FailAt O, _ | _, None => (f, Err (IoOther "io"%string))
      | _, Some f' => run_ops (fault_next fault) ops' f'
      end
  end.

(** [tokio::fs::write]. *)
Definition fs_write (p : string) (data : bytes) : list FsOp := Create p :: map (WriteByte p) data.

(** Write to temp, fsync, rename. *)
Definition replace_ops (temp final : string) (data : bytes) : list FsOp :=
  fs_write temp data ++ [OpenWrite temp; SyncAll temp] ++ [Rename temp final].

Definition replace (fault : Fault) (temp final : string) (data : bytes) (f : FileSystem)
  : FileSystem * Result unit :=
  run_ops fault (replace_ops temp final data) f.

(** ** Crashes *)

(** When the process dies the kernel still has its writes.  When the power
    fails, what was not synced may be anything afterwards; whether the
    directory is then the latest or an earlier one depends on the file
    system. *)
Inductive CrashMode := DirKept | DirLost.

Inductive lost : Inode -> Inode -> Prop :=
| lost_nothing b : lost (mkInode b true) (mkInode b true)
| lost_unsynced b b' : lost (mkInode b false) (mkInode b' true).

Inductive after_crash (m : CrashMode) (f : FileSystem) : FileSystem -> Prop :=
| process_crash : after_crash m f f
| power_failure d xs :
    d = dir f \/ (m = DirLost /\ d ∈ earlier f) -> Forall2 lost (inodes f) xs ->
    after_crash m f (mkFS d [] xs).

(** A crash between two operations of a sequence. *)
Definition crash_in (m : CrashMode) (ops : list FsOp) (f f' : FileSystem) : Prop :=
  exists k, after_crash m (run_ops NoFault (take k ops) f).1 f'.

(** ** What the operations keep *)

Definition dirs (f : FileSystem) : list (gmap string nat) := dir f :: earlier f.

(** The file [final] is safe: in every directory that can come back it is
    absent or durable, with a content that [P] allows; no two names share a
    file, and no other name of the directory is the file of [final] in an
    earlier one. *)
Record kept (final : string) (P : option bytes -> Prop) (f : FileSystem) : Prop := {
  kept_final d : d ∈ dirs f ->
    match d !! final with
    | Some i => exists b, inodes f !! i = Some (mkInode b true) /\ P (Some b)
    | None => P None
    end;
  kept_inj d p q i : d ∈ dirs f -> d !! p = Some i -> d !! q = Some i -> p = q;
  kept_bound d p i : d ∈ dirs f -> d !! p = Some i -> (i < length (inodes f))%nat;
  kept_other d p i : d ∈ dirs f -> p <> final -> dir f !! p = Some i -> d !! final <> Some i;
}.

Lemma kept_mono final (P P' : option bytes -> Prop) f :
  (forall b, P b -> P' b) -> kept final P f -> kept final P' f.
Proof.
  intros Hp [Hf Hi Hb Ho]. split; [|done..]. intros d Hd. specialize (Hf d Hd).
  destruct (d !! final); [destruct Hf as (b & ? & ?); eauto|auto].
Qed.

Lemma kept_read final P f : kept final P f -> P (fs_read final f).
Proof.
  intros Hk. pose proof (kept_final _ _ _ Hk (dir f) (list_elem_of_here _ _)) as Hf.
  unfold fs_read, resolve. destruct (dir f !! final); [|done]. by destruct Hf as (b & -> & ?).
Qed.

Lemma resolve_Some p f i x : resolve p f = Some (i, x) <-> dir f !! p = Some i /\ inodes f !! i = Some x.
Proof.
  unfold resolve. destruct (dir f !! p) as [j|]; [|naive_solver].
  destruct (inodes f !! j) as [y|] eqn:E; cbn; naive_solver.
Qed.

Lemma resolve_None final P p f : kept final P f -> resolve p f = None -> dir f !! p = None.
Proof.
  intros Hk. unfold resolve. destruct (dir f !! p) as [i|] eqn:E; [|done].
  pose proof (kept_bound _ _ _ Hk _ _ _ (list_elem_of_here _ _) E) as Hi.
  apply lookup_lt_is_Some_2 in Hi as [x ->]. done.
Qed.

(** Changing the file of another name. *)
Lemma set_inode_kept final P p i x f :
  p <> final -> dir f !! p = Some i -> kept final P f ->
  kept final P (set_inode i x f) /\ fs_read final (set_inode i x f) = fs_read final f.
Proof.
  intros Hne Hp Hk. pose proof Hk as [Hf Hi Hb Ho]. split; [split; cbn; try done|].
  - intros d Hd. specialize (Hf d Hd). specialize (Ho d p i Hd Hne Hp).
    destruct (d !! final) as [j|] eqn:E; [|done]. rewrite list_lookup_insert_ne by congruence. done.
  - intros d q j Hd Hj. rewrite length_insert. eauto.
  - unfold fs_read, resolve. cbn. specialize (Ho (dir f) p i (list_elem_of_here _ _) Hne Hp).
    destruct (dir f !! final) as [j|] eqn:E; [|done]. by rewrite list_lookup_insert_ne by congruence.
Qed.

(** A new file under another name. *)
Lemma new_file_kept final P p x f :
  p <> final -> dir f !! p = None -> kept final P f ->
  let f' := mkFS (<[p := length (inodes f)]> (dir f)) (dir f :: earlier f) (inodes f ++ [x]) in
  kept final P f' /\ fs_read final f' = fs_read final f.
Proof.
  intros Hne Hp Hk f'. pose proof Hk as [Hf Hi Hb Ho].
  assert (forall i y, inodes f !! i = Some y -> inodes f' !! i = Some y) as Hold by (intros; by apply lookup_app_l_Some).
  assert (forall d, d ∈ dirs f' -> d = <[p := length (inodes f)]> (dir f) \/ d ∈ dirs f) as Hdirs
    by (intros d [->|?]%elem_of_cons; [by left|by right]).
  assert (forall q i, dir f !! q = Some i -> i <> length (inodes f)) as Hnew
    by (intros q i Hq; specialize (Hb _ _ _ (list_elem_of_here _ _) Hq); lia).
  split; [split|].
  - assert (forall d, d ∈ dirs f -> match d !! final with
      | Some i => exists b, inodes f' !! i = Some (mkInode b true) /\ P (Some b) | None => P None end) as Hd.
    { intros d Hd. specialize (Hf d Hd). destruct (d !! final); [|done]. destruct Hf as (b & ? & ?). eauto. }
    intros d [->|Hin]%Hdirs; [|by apply Hd]. rewrite lookup_insert_ne by done. apply Hd. left.
  - intros d a b i [->|Hin]%Hdirs; [|by apply Hi].
    intros [[<- <-]|[_ Ha]]%lookup_insert_Some [[<- Hbi]|[_ Hq]]%lookup_insert_Some; try done.
    + by apply Hnew in Hq.
    + by apply Hnew in Ha.
    + eapply (Hi (dir f)); [left|done|done].
  - intros d a i [->|Hin]%Hdirs; cbn; rewrite length_app; cbn.
    + intros [[<- <-]|[_ Ha]]%lookup_insert_Some; [lia|]. specialize (Hb _ _ _ (list_elem_of_here _ _) Ha). lia.
    + intros Ha. specialize (Hb _ _ _ Hin Ha). lia.
  - intros d a i Hd Ha Hai Hfi. cbn in Hai.
    assert (exists d0, d0 ∈ dirs f /\ d0 !! final = Some i) as (d0 & Hd0 & Hf0).
    { apply Hdirs in Hd as [->|Hin]; [|by eauto]. rewrite lookup_insert_ne in Hfi by done. exists (dir f). split; [left|done]. }
    apply lookup_insert_Some in Hai as [[<- <-]|[_ Hai]].
    + specialize (Hb _ _ _ Hd0 Hf0). lia.
    + by apply (Ho d0 a i).
  - unfold fs_read, resolve. cbn. rewrite lookup_insert_ne by done. destruct (dir f !! final) as [j|] eqn:E; [|done].
    by rewrite lookup_app_l by (eapply Hb; [left|exact E]).
Qed.

(** The rename of a durable file. *)
Lemma rename_kept final P p i b f :
  p <> final -> resolve p f = Some (i, mkInode b true) -> P (Some b) -> kept final P f ->
  kept final P (set_dir (<[final := i]> (delete p (dir f))) f).
Proof.
  intros Hne [Hp Hb0]%resolve_Some HP Hk. pose proof Hk as [Hf Hi Hb Ho].
  assert (forall q j, q <> final -> <[final := i]> (delete p (dir f)) !! q = Some j ->
    q <> p /\ dir f !! q = Some j) as Hq.
  { intros q j Hqf. rewrite lookup_insert_ne by done. intros [? ?]%lookup_delete_Some. done. }
  assert (forall q, q <> final -> <[final := i]> (delete p (dir f)) !! q <> Some i) as Hown.
  { intros q Hqf [Hqp Hqi]%Hq; [|done]. apply Hqp. eapply Hi; [left|done|done]. }
  split; unfold dirs in *; cbn [dir earlier inodes set_dir].
  - intros d [->|Hd]%elem_of_cons; [|by apply Hf]. rewrite lookup_insert_eq. eauto.
  - intros d q r j [->|Hd]%elem_of_cons; [|by apply Hi]. intros Hqj Hrj.
    destruct (decide (q = final)) as [->|Hqf], (decide (r = final)) as [->|Hrf]; try done.
    + rewrite lookup_insert_eq in Hqj. simplify_eq. by apply Hown in Hrj.
    + rewrite lookup_insert_eq in Hrj. simplify_eq. by apply Hown in Hqj.
    + apply Hq in Hqj as [_ Hqj], Hrj as [_ Hrj]; [|done..]. eapply Hi; [left|done|done].
  - intros d q j [->|Hd]%elem_of_cons; [|by apply Hb]. intros [[<- <-]|[_ [_ Hqj]%lookup_delete_Some]]%lookup_insert_Some.
    + by apply lookup_lt_Some in Hb0.
    + eapply Hb; [left|done].
  - intros d q j Hd Hqf Hqj. pose proof (Hq _ _ Hqf Hqj) as [_ Hqd].
    apply elem_of_cons in Hd as [->|Hd]; [|by eapply Ho].
    rewrite lookup_insert_eq. intros [= ->]. by apply (Hown q).
Qed.

Lemma lost_durable xs ys i b :
  Forall2 lost xs ys -> xs !! i = Some (mkInode b true) -> ys !! i = Some (mkInode b true).
Proof.
  intros Hl Hi. destruct (Forall2_lookup_l _ _ _ _ _ Hl Hi) as (y & Hy & Hly). by inversion Hly; subst.
Qed.

(** The file survives every crash; unless the directory goes back, with its
    content. *)
Lemma crash_kept m final P f f' :
  kept final P f -> after_crash m f f' ->
  kept final P f' /\ (m = DirKept -> fs_read final f' = fs_read final f).
Proof.
  intros Hk Hc. pose proof Hk as [Hf Hi Hb Ho]. destruct Hc as [|d xs Hd Hl]; [done|].
  assert (d ∈ dirs f) as Hin by (destruct Hd as [->|[_ ?]]; [left|by right]).
  pose proof (Forall2_length _ _ _ Hl) as Hlen.
  split; [split; unfold dirs; cbn|].
  - intros d' ->%list_elem_of_singleton. specialize (Hf d Hin). destruct (d !! final); [|done].
    destruct Hf as (b & Hb' & ?). exists b. split; [|done]. by eapply lost_durable.
  - intros d' p q i ->%list_elem_of_singleton. by apply Hi.
  - intros d' p i ->%list_elem_of_singleton. rewrite <- Hlen. by apply Hb.
  - intros d' p i ->%list_elem_of_singleton Hne Hp Hfi. apply Hne. by eapply Hi.
  - intros ->. destruct Hd as [->|[? _]]; [|done]. specialize (Hf _ Hin). unfold fs_read, resolve. cbn.
    destruct (dir f !! final) as [i|]; [|done]. destruct Hf as (b & Hb' & _).
    by rewrite Hb', (lost_durable _ _ _ _ Hl Hb').
Qed.

(** ** Running a sequence *)

(** A crash between two operations has done what a failure of the second does. *)
Lemma run_take (ops : list FsOp) (k : nat) (f : FileSystem) :
  (run_ops NoFault (take k ops) f).1 = (run_ops (FailAt k) ops f).1.
Proof.
  revert k f. induction ops as [|op ops IH]; intros [|k] f; try done. cbn.
  destruct (fs_op op f) as [f'|]; [|done]. apply IH.
Qed.

Fixpoint fault_after (ops : list FsOp) (fault : Fault) : Fault :=
  match ops with [] => fault | _ :: ops' => fault_after ops' (fault_next fault) end.

Lemma run_ops_app (fault : Fault) (ops ops' : list FsOp) (f : FileSystem) :
  run_ops fault (ops ++ ops') f =
  match run_ops fault ops f with
  | (f', Ok _) => run_ops (fault_after ops fault) ops' f'
  | (f', Err e) => (f', Err e)
  end.
Proof.
  revert fault f. induction ops as [|op ops IH]; intros fault f; [done|]. cbn.
  destruct fault as [|[|k]]; destruct (fs_op op f); try done; apply IH.
Qed.

(** Operations that only touch the file [p]. *)
Definition only_file (p : string) (op : FsOp) : bool :=
  match op with
  | Create q | WriteByte q _ | OpenWrite q | SyncAll q => String.eqb q p
  | Rename _ _ => false
  end.

Lemma only_file_kept final P p op f f' :
  p <> final -> only_file p op = true -> kept final P f -> fs_op op f = Some f' ->
  kept final P f' /\ fs_read final f' = fs_read final f.
Proof.
  intros Hne Ho Hk. destruct op as [q|q b|q|q|]; cbn in Ho; [apply String.eqb_eq in Ho as ->..|done]; cbn;
    destruct (resolve p f) as [[i x]|] eqn:E; cbn; try done; intros [= <-]; try done.
  all: try (apply resolve_Some in E as [E _]; by eapply set_inode_kept).
  apply new_file_kept; [done|by eapply resolve_None|done].
Qed.

Lemma only_files_kept final P p ops fault f f' r :
  p <> final -> forallb (only_file p) ops = true -> kept final P f -> run_ops fault ops f = (f', r) ->
  kept final P f' /\ fs_read final f' = fs_read final f.
Proof.
  intros Hne. revert fault f. induction ops as [|op ops IH]; intros fault f Ho Hk; [by intros [= <- _]|].
  cbn in Ho. apply andb_prop in Ho as [Ho Hos]. cbn.
  destruct (fs_op op f) as [f1|] eqn:E; [|by destruct fault as [|[|k]]; intros [= <- _]].
  destruct (only_file_kept final P p op f f1 Hne Ho Hk E) as [Hk1 Hr1].
  destruct fault as [|[|k]]; [|by intros [= <- _]|]; intros Hrun; apply IH in Hrun as [? ->]; done.
Qed.

(** Writing a file and syncing it. *)
Abbreviation write_sync temp data := (fs_write temp data ++ [OpenWrite temp; SyncAll temp]).

Lemma write_sync_only p data : forallb (only_file p) (write_sync p data) = true.
Proof.
  unfold fs_write. cbn [app forallb only_file]. rewrite String.eqb_refl, forallb_app. cbn.
  rewrite String.eqb_refl, andb_true_r. cbn. induction data; cbn; [done|]. by rewrite String.eqb_refl.
Qed.

Lemma set_inode_resolve p i x y f :
  resolve p f = Some (i, x) -> resolve p (set_inode i y f) = Some (i, y).
Proof.
  intros [Hd Hi]%resolve_Some. apply resolve_Some. split; [done|]. cbn.
  apply list_lookup_insert_eq. by eapply lookup_lt_Some.
Qed.

Lemma create_resolve p f : exists i f', fs_op (Create p) f = Some f' /\ resolve p f' = Some (i, mkInode [] false).
Proof.
  cbn. destruct (resolve p f) as [[i x]|] eqn:E; do 2 eexists; (split; [done|]).
  - by eapply set_inode_resolve.
  - apply resolve_Some. cbn. split; [apply lookup_insert_eq|]. by rewrite list_lookup_middle.
Qed.

Lemma run_write_bytes p data i b f f' fault r (d0 : bool) :
  resolve p f = Some (i, mkInode b d0) -> run_ops fault (map (WriteByte p) data) f = (f', r) ->
  (fault = NoFault -> r = Ok tt) /\
  (r = Ok tt -> exists d1, resolve p f' = Some (i, mkInode (b ++ data) d1)).
Proof.
  revert b f fault d0. induction data as [|c data IH]; intros b f fault d0 Hr; cbn.
  { intros [= <- <-]. split; [done|]. rewrite app_nil_r. eauto. }
  rewrite Hr. cbn. pose proof (set_inode_resolve p i _ (mkInode (b ++ [c]) false) f Hr) as Hr'.
  rewrite (cons_middle c b data), app_assoc.
  destruct fault as [|[|k]]; [intros Hrun|by intros [= <- <-]|intros Hrun];
    destruct (IH (b ++ [c]) _ _ _ Hr' Hrun) as [Hn Ho]; split; auto; done.
Qed.

Lemma run_open_sync p i b (d0 : bool) fault f f' r :
  resolve p f = Some (i, mkInode b d0) -> run_ops fault [OpenWrite p; SyncAll p] f = (f', r) ->
  (fault = NoFault -> r = Ok tt) /\ (r = Ok tt -> resolve p f' = Some (i, mkInode b true)).
Proof.
  intros Hr Hrun. pose proof (set_inode_resolve p i _ (mkInode b true) f Hr) as Hr'. cbn in Hrun.
  rewrite Hr in Hrun. cbn in Hrun. rewrite Hr in Hrun.
  destruct fault as [|[|[|k]]]; injection Hrun as <- <-; done.
Qed.

Lemma fault_after_none ops : fault_after ops NoFault = NoFault.
Proof. induction ops; done. Qed.

Lemma run_write_sync p data fault f f' r :
  run_ops fault (write_sync p data) f = (f', r) ->
  (fault = NoFault -> r = Ok tt) /\ (r = Ok tt -> exists i, resolve p f' = Some (i, mkInode data true)).
Proof.
  rewrite run_ops_app. destruct (create_resolve p f) as (i & f1 & Hc & Hr1).
  destruct (run_ops fault (fs_write p data) f) as [f2 r2] eqn:E2. unfold fs_write in E2. cbn [run_ops] in E2.
  assert ((fault = NoFault -> r2 = Ok tt) /\
    (r2 = Ok tt -> exists d1, resolve p f2 = Some (i, mkInode data d1))) as [Hn Ho].
  { rewrite Hc in E2. destruct fault as [|[|k]]; [|by injection E2 as <- <-|];
      destruct (run_write_bytes p data i [] f1 f2 _ _ _ Hr1 E2) as [Hn Ho]; by split; [try (by intros ?; apply Hn)|]. }
  destruct r2 as [[]|e]; [|intros [= <- <-]; split; [by intros ?%Hn|done]].
  destruct (Ho eq_refl) as [d1 Hr2]. intros Hrun.
  destruct (run_open_sync p i data d1 _ f2 f' r Hr2 Hrun) as [Hn' Ho'].
  split; [intros ->; by apply Hn', fault_after_none|eauto].
Qed.

(** The outcome of a replacement: without a fault it succeeds, success means
    the new content, and a failure the old one; the file is safe throughout. *)
Lemma replace_spec (fault : Fault) (temp final : string) (data : bytes) (f f' : FileSystem) r :
  replace fault temp final data f = (f', r) ->
  (fault = NoFault -> r = Ok tt) /\
  (r = Ok tt -> fs_read final f' = Some data) /\
  (forall P, temp <> final -> P (Some data) -> kept final P f ->
     kept final P f' /\ (r <> Ok tt -> fs_read final f' = fs_read final f)).
Proof.
  unfold replace, replace_ops. rewrite app_assoc, run_ops_app. intros Hrun.
  destruct (run_ops fault (write_sync temp data) f) as [f1 r1] eqn:E1.
  destruct (run_write_sync _ _ _ _ _ _ E1) as [Hn Ho].
  assert (forall P, temp <> final -> kept final P f ->
    kept final P f1 /\ fs_read final f1 = fs_read final f) as Hk1
    by (intros P Hne Hk; eapply only_files_kept; [done|apply write_sync_only|done|exact E1]).
  destruct r1 as [[]|e].
  2:{ injection Hrun as <- <-. split_and!; [by intros ?%Hn|done|]. intros P Hne _ Hk. by destruct (Hk1 P Hne Hk). }
  destruct (Ho eq_refl) as [i Hr1]. cbn in Hrun. rewrite Hr1 in Hrun. cbn in Hrun.
  assert (fs_read final (set_dir (<[final := i]> (delete temp (dir f1))) f1) = Some data) as Hread.
  { unfold fs_read, resolve. cbn. rewrite lookup_insert_eq. by apply resolve_Some in Hr1 as [_ ->]. }
  assert (forall P, temp <> final -> P (Some data) -> kept final P f ->
    kept final P (set_dir (<[final := i]> (delete temp (dir f1))) f1)) as Hk2.
  { intros P Hne HP Hk. destruct (Hk1 P Hne Hk) as [Hk' _]. by eapply rename_kept. }
  assert (fault = NoFault -> fault_after (write_sync temp data) fault = NoFault) as Hfa.
  { intros ->. apply fault_after_none. }
  destruct (fault_after _ _) as [|[|k]]; injection Hrun as <- <-; split_and!; try done.
  - intros P Hne HP Hk. split; [by apply Hk2|done].
  - by intros ?%Hfa.
  - intros P Hne HP Hk. by destruct (Hk1 P Hne Hk).
  - intros P Hne HP Hk. split; [by apply Hk2|done].
Qed.

(** A crash during a replacement: the file is safe, and as long as the
    directory is kept it has the old or the new content. *)
Lemma crash_replace m temp final data P f f' :
  temp <> final -> P (Some data) -> kept final P f ->
  crash_in m (replace_ops temp final data) f f' ->
  kept final P f' /\
  (m = DirKept -> fs_read final f' = fs_read final f \/ fs_read final f' = Some data).
Proof.
  intros Hne HP Hk [k Hc]. rewrite run_take in Hc.
  destruct (run_ops (FailAt k) (replace_ops temp final data) f) as [f1 r1] eqn:E.
  destruct (replace_spec _ _ _ _ _ _ _ E) as (_ & Hok & Hkept).
  destruct (Hkept P Hne HP Hk) as [Hk1 Herr]. destruct (crash_kept m final P f1 f' Hk1 Hc) as [Hk' Hr].
  split; [done|]. intros Hm. rewrite (Hr Hm). destruct r1 as [[]|e]; [right; by apply Hok|left; by apply Herr].
Qed.

(** ** Files at rest *)

(** A directory of synced files, as an operating system finds it. *)
Definition files_at_rest (l : list (string * bytes)) : FileSystem :=
  mkFS (list_to_map (imap (fun i x => (x.1, i)) l)) [] (map (fun x => mkInode x.2 true) l).

Definition at_rest (f : FileSystem) : Prop :=
  earlier f = [] /\ Forall (fun x => durable x = true) (inodes f) /\
  (forall p i, dir f !! p = Some i -> (i < length (inodes f))%nat) /\
  (forall p q i, dir f !! p = Some i -> dir f !! q = Some i -> p = q).

Lemma at_rest_kept final f : at_rest f -> kept final (fun o => o = fs_read final f) f.
Proof.
  intros (He & Hd & Hb & Hi). split; unfold dirs; rewrite He.
  - intros d ->%list_elem_of_singleton. unfold fs_read, resolve. destruct (dir f !! final) as [i|] eqn:E; [|done].
    pose proof (lookup_lt_is_Some_2 _ _ (Hb _ _ E)) as [[b x] Hx]. rewrite Hx.
    rewrite Forall_lookup in Hd. specialize (Hd _ _ Hx). cbn in Hd. subst x. by eexists.
  - intros d p q i ->%list_elem_of_singleton. apply Hi.
  - intros d p i ->%list_elem_of_singleton. apply Hb.
  - intros d p i ->%list_elem_of_singleton Hne Hp Hf. apply Hne. by eapply Hi.
Qed.

End AtomicFile.

Module QuorumStateFile.

Import AtomicFile.

(** [pid] distinguishes the temporary file; [faults] are the disk's answers
    to the saves to come, in order. *)
Record QuorumStateFile := mkFile {
  fs : FileSystem;
  pid : string;
  cached : option QuorumState;
  faults : list Fault;
}.

Definition state_path : string := "quorum-state".
Definition temp_path (q : QuorumStateFile) : string := ("quorum-state." ++ pid q ++ ".tmp")%string.

Section File.
Context (to_string_pretty : QuorumState -> option bytes).
Context (from_str : bytes -> option QuorumState).

Definition open (fs0 : FileSystem) (pid0 : string) (faults0 : list Fault) : Result QuorumStateFile :=
  match fs_read state_path fs0 with
  | None => Ok (mkFile fs0 pid0 None faults0)
  | Some data =>
      match from_str data with
      | None => Err (Corruption "quorum-state parse error"%string)
      | Some state => Ok (mkFile fs0 pid0 (Some state) faults0)
      end
  end.

Definition load (q : QuorumStateFile) : Result (option QuorumState) := Ok (cached q).

(** The file operations of [save]. *)
Definition save_ops (state : QuorumState) (q : QuorumStateFile) : option (list FsOp) :=
  option_map (replace_ops (temp_path q) state_path) (to_string_pretty state).

Definition save (state : QuorumState) : SE QuorumStateFile XraftError unit := fun q =>
  match save_ops state q with
  | None => (q, Err (SerializationError "quorum-state serialize"%string))
  | Some ops =>
      let fault := default NoFault (head (faults q)) in
      let (fs', r) := run_ops fault ops (fs q) in
      match r with
      | Err e => (mkFile fs' (pid q) (cached q) (tail (faults q)), Err e)
      | Ok _ => (mkFile fs' (pid q) (Some state) (tail (faults q)), Ok tt)
      end
  end.

#[local] Instance file_QuorumStateStore : QuorumStateStore QuorumState QuorumStateFile := {|
  qss_load := load;
  qss_save := save;
|}.

#[local] Program Instance file_QuorumStateStoreLaws : QuorumStateStoreLaws QuorumState QuorumStateFile := {|
  qss_persisted := cached;
|}.
Next Obligation. done. Qed.
Next Obligation.
  intros qs q q'. cbn. unfold save. destruct (save_ops qs q); [|done].
  destruct (run_ops _ _ _) as [fs' []]; [by intros [= <-]|done].
Qed.
Next Obligation.
  intros qs q q' e. cbn. unfold save. destruct (save_ops qs q); [|intros [= <- <-]; by left].
  destruct (run_ops _ _ _) as [fs' []]; [done|]. intros [= <- <-]. by left.
Qed.

(** ** Durability *)

Context (parse_print : forall s json, to_string_pretty s = Some json -> from_str json = Some s).

(** The record in a content of the file, [None] when it cannot be parsed. *)
Definition record_in (o : option bytes) : option (option QuorumState) :=
  match o with None => Some None | Some data => option_map Some (from_str data) end.
(** What opening the file would find. *)
Definition on_disk (f : FileSystem) : option (option QuorumState) := record_in (fs_read state_path f).

(** The cache is what a process reads, and every content a crash can bring
    back is a record that [P] allows. *)
Definition file_inv (P : option QuorumState -> Prop) (q : QuorumStateFile) : Prop :=
  on_disk (fs q) = Some (cached q) /\
  kept state_path (fun o => exists r, record_in o = Some r /\ P r) (fs q).
Definition file_ok (q : QuorumStateFile) : Prop := file_inv (fun _ => True) q.

Lemma temp_path_ne (q : QuorumStateFile) : temp_path q <> state_path.
Proof. unfold temp_path, state_path. intros [=]. Qed.

Lemma open_on_disk (f : FileSystem) (o : option QuorumState) (pid0 : string) (faults0 : list Fault) :
  on_disk f = Some o <-> open f pid0 faults0 = Ok (mkFile f pid0 o faults0).
Proof.
  unfold on_disk, open, record_in. destruct (fs_read state_path f) as [d|]; [|naive_solver].
  destruct (from_str d); cbn; naive_solver.
Qed.

Lemma open_inv (f : FileSystem) (pid0 : string) (faults0 : list Fault) (q : QuorumStateFile) :
  open f pid0 faults0 = Ok q -> fs q = f /\ on_disk f = Some (cached q).
Proof.
  unfold on_disk, open, record_in. destruct (fs_read state_path f) as [d|]; [|by intros [= <-]].
  destruct (from_str d); [|done]. by intros [= <-].
Qed.

(** A new process over files at rest. *)
Lemma open_at_rest (f : FileSystem) (pid0 : string) (faults0 : list Fault) (q : QuorumStateFile) :
  at_rest f -> open f pid0 faults0 = Ok q -> file_inv (fun o => o = cached q) q.
Proof.
  intros Hf [<- Hd]%open_inv. split; [done|]. eapply kept_mono; [|by apply at_rest_kept].
  intros o ->. by exists (cached q).
Qed.

Lemma file_inv_mono (P P' : option QuorumState -> Prop) (q : QuorumStateFile) :
  (forall o, P o -> P' o) -> file_inv P q -> file_inv P' q.
Proof. intros Hp [Hd Hk]. split; [done|]. eapply kept_mono; [|exact Hk]. intros o (r & ? & ?). eauto. Qed.

Lemma save_file_inv P (s : QuorumState) (q q' : QuorumStateFile) r :
  P (Some s) -> file_inv P q -> save s q = (q', r) ->
  file_inv P q' /\ cached q' = match r with Ok _ => Some s | Err _ => cached q end.
Proof.
  unfold save, save_ops. intros HP [Hd Hk].
  destruct (to_string_pretty s) as [json|] eqn:Hs; cbn [option_map]; [|by intros [= <- <-]].
  destruct (run_ops _ _ _) as [fs' r'] eqn:Er. fold (replace (default NoFault (head (faults q)))) in Er.
  destruct (replace_spec _ _ _ _ _ _ _ Er) as (_ & Hok & Hkept).
  destruct (Hkept (fun o => exists r, record_in o = Some r /\ P r) (temp_path_ne q)) as [Hk' Herr];
    [|done|].
  { exists (Some s). cbn. by rewrite (parse_print s json Hs). }
  destruct r' as [[]|e]; intros [= <- <-]; (split; [split; [|done]|done]); unfold on_disk; cbn.
  - rewrite Hok by done. cbn. by rewrite (parse_print s json Hs).
  - by rewrite Herr.
Qed.

Lemma save_file_ok (s : QuorumState) (q q' : QuorumStateFile) r :
  file_ok q -> save s q = (q', r) ->
  file_ok q' /\ cached q' = match r with Ok _ => Some s | Err _ => cached q end.
Proof. by apply save_file_inv. Qed.

(** A crash of an idle process. *)
Lemma idle_crash P m (q : QuorumStateFile) (f' : FileSystem) :
  file_inv P q -> after_crash m (fs q) f' ->
  exists c, on_disk f' = Some c /\ (m = DirKept -> c = cached q) /\ P c /\
    forall pid0 faults0, file_inv P (mkFile f' pid0 c faults0).
Proof.
  intros [Hd Hk] Hc. destruct (crash_kept _ _ _ _ _ Hk Hc) as [Hk' Hr].
  destruct (kept_read _ _ _ Hk') as (c & Ho & HP). exists c. split_and!; try done.
  intros Hm. unfold on_disk in Hd. rewrite <- (Hr Hm), Ho in Hd. congruence.
Qed.

(** A crash inside a save. *)
Lemma saving_crash P m (s : QuorumState) (q : QuorumStateFile) ops (f' : FileSystem) :
  P (Some s) -> file_inv P q -> save_ops s q = Some ops -> crash_in m ops (fs q) f' ->
  exists c, on_disk f' = Some c /\ (m = DirKept -> c = cached q \/ c = Some s) /\ P c /\
    forall pid0 faults0, file_inv P (mkFile f' pid0 c faults0).
Proof.
  intros HPs [Hd Hk] Ho Hc. unfold save_ops in Ho.
  destruct (to_string_pretty s) as [json|] eqn:Hs; [|done]. injection Ho as <-.
  assert (record_in (Some json) = Some (Some s)) as Hnew by (cbn; by rewrite (parse_print s json Hs)).
  destruct (crash_replace m (temp_path q) state_path json
    (fun o => exists r, record_in o = Some r /\ P r) (fs q) f') as [Hk' Hr];
    [apply temp_path_ne|by exists (Some s)|done|done|].
  destruct (kept_read _ _ _ Hk') as (c & Ho & HP). exists c. split_and!; try done.
  intros Hm. unfold on_disk in Hd. destruct (Hr Hm) as [E|E]; rewrite E in Ho; [left|right]; congruence.
Qed.

(** The life of a store: saves on a disk that may fail any operation, and
    crashes inside a save after which a new process opens the file.  The list
    has every record that was on disk at first or that a save was given. *)
Inductive lifetime (q0 : QuorumStateFile) : list (option QuorumState) -> QuorumStateFile -> Prop :=
| life_opened : lifetime q0 [cached q0] q0
| life_saved tried q s : lifetime q0 tried q -> lifetime q0 (Some s :: tried) (save s q).1
| life_crashed tried q s ops m f' pid' faults' q' :
    lifetime q0 tried q -> save_ops s q = Some ops -> crash_in m ops (fs q) f' ->
    open f' pid' faults' = Ok q' -> lifetime q0 (Some s :: tried) q'.

Lemma lifetime_inv (fs0 : FileSystem) (pid0 : string) (faults0 : list Fault) (q0 : QuorumStateFile) tried q :
  at_rest fs0 -> open fs0 pid0 faults0 = Ok q0 -> lifetime q0 tried q ->
  file_inv (fun o => o ∈ tried) q.
Proof.
  intros Hf Ho Hl.
  induction Hl as [|tried q s Hl IH|tried q s ops m f' pid' faults' q' Hl IH Hs Hc Hop].
  - eapply file_inv_mono; [|by eapply open_at_rest]. intros o ->. left.
  - destruct (save s q) as [q' r] eqn:E. eapply (save_file_inv _ s q q' r); [left| |done].
    eapply file_inv_mono; [|done]. intros o Hin. by right.
  - destruct (saving_crash (fun o => o ∈ Some s :: tried) m s q ops f') as (c & Hd & _ & _ & Hinv); [left| |done|done|].
    { eapply file_inv_mono; [|done]. intros o Hin. by right. }
    rewrite (proj1 (open_on_disk f' c pid' faults') Hd) in Hop. injection Hop as <-. apply Hinv.
Qed.

(** C10: The voting state is durable and replaced atomically.  Take a store
    opened over files at rest, and any history of saves, on a disk that may
    fail any file operation, and of crashes inside a save with restarts.  Then
    a save that succeeds makes its record the one the store returns, and one
    that fails changes nothing; after a crash between saves the file opens,
    with that record as long as the directory survives; after a crash between
    any two file operations of a save the file opens, with the old record or
    the one being saved; and even when a power failure also takes back changes
    of the directory, the file opens with a record that was on disk at first or
    given to a save, never with a mixture and never with an error. *)
Theorem quorum_state_durable (fs0 : FileSystem) (pid0 : string) (faults0 : list Fault)
    (q0 : QuorumStateFile) (tried : list (option QuorumState)) (q : QuorumStateFile) :
  at_rest fs0 -> open fs0 pid0 faults0 = Ok q0 -> lifetime q0 tried q ->
  (forall s q' r, save s q = (q', r) -> load q' = Ok (if is_ok r then Some s else cached q)) /\
  (forall m f' pid' faults', after_crash m (fs q) f' ->
     exists c, open f' pid' faults' = Ok (mkFile f' pid' c faults') /\
       (m = DirKept -> c = cached q) /\ c ∈ tried) /\
  (forall s ops m f' pid' faults', save_ops s q = Some ops -> crash_in m ops (fs q) f' ->
     exists c, open f' pid' faults' = Ok (mkFile f' pid' c faults') /\
       (m = DirKept -> c = cached q \/ c = Some s) /\ c ∈ Some s :: tried).
Proof.
  intros Hf Ho Hl. pose proof (lifetime_inv _ _ _ _ _ _ Hf Ho Hl) as Hq. split_and!.
  - intros s q' r Hs. destruct (save_file_ok s q q' r) as [_ Hc]; [by eapply file_inv_mono|done|].
    unfold load. rewrite Hc. by destruct r.
  - intros m f' pid' faults' Hc. destruct (idle_crash _ _ _ _ Hq Hc) as (c & Hd & Hm & Hin & _).
    exists c. split; [by apply open_on_disk|done].
  - intros s ops m f' pid' faults' Hs Hc.
    destruct (saving_crash (fun o => o ∈ Some s :: tried) m s q ops f') as (c & Hd & Hm & Hin & _); [left| |done|done|].
    { eapply file_inv_mono; [|exact Hq]. intros o Hin. by right. }
    exists c. split; [by apply open_on_disk|done].
Qed.

End File.

(** *** Demonstration: a record of a small term, as one byte *)

Definition demo_print (s : QuorumState) : option bytes :=
  match qs_voted_for s, qs_leader_id s with
  | None, None => if (qs_current_term s <? 256) && (qs_leader_epoch s =? 0)
                  then option_map (fun b => [b]) (Byte.of_N (qs_current_term s)) else None
  | _, _ => None
  end.
Definition demo_parse (b : bytes) : option QuorumState :=
  match b with [b] => Some (mkQuorumState (Byte.to_N b) None None 0) | _ => None end.

Lemma demo_parse_print (s : QuorumState) (json : bytes) :
  demo_print s = Some json -> demo_parse json = Some s.
Proof.
  destruct s as [t v l e]. unfold demo_print. cbn. destruct v, l; try done.
  destruct (_ && _) eqn:E; [|done]. destruct (Byte.of_N t) as [b|] eqn:Eb; [|done]. intros [= <-]. cbn.
  apply Byte.to_of_N in Eb. rewrite Eb. repeat f_equal. lia.
Qed.

Definition demo_qs (t : N) : QuorumState := mkQuorumState t None None 0.

Lemma at_rest_empty : at_rest ∅.
Proof.
  unfold at_rest. change (dir ∅) with (∅ : gmap string nat).
  split_and!; [done|apply Forall_nil_2|by intros p i ?%lookup_empty_Some|by intros p q i ?%lookup_empty_Some].
Qed.

(** The second save fails when it syncs (the fourth operation). *)
Definition demo_file : QuorumStateFile := mkFile ∅ "7" None [NoFault; FailAt 3; NoFault].
Definition demo_twice : QuorumStateFile :=
  (save demo_print (demo_qs 2) (save demo_print (demo_qs 1) demo_file).1).1.
Definition demo_lifetime : list (option QuorumState) := [Some (demo_qs 2); Some (demo_qs 1); None].

Lemma demo_twice_lifetime : lifetime demo_print demo_parse demo_file demo_lifetime demo_twice.
Proof. do 2 apply life_saved. apply life_opened. Qed.

(** The power fails during a third save, before the rename: the temporary file
    has garbage. *)
Definition demo_power : FileSystem :=
  mkFS {[ "quorum-state"%string := 0%nat; "quorum-state.7.tmp"%string := 1%nat ]} []
    [mkInode [x01] true; mkInode [x2a; x2a] true].

Lemma demo_crash :
  crash_in DirKept (replace_ops (temp_path demo_twice) state_path [x03]) (fs demo_twice) demo_power.
Proof.
  exists 2%nat. apply power_failure; [left; vm_compute; reflexivity|].
  vm_compute. constructor; [constructor|constructor; [constructor|constructor]].
Qed.

Lemma quorum_state_durable_witness :
  cached demo_twice = Some (demo_qs 1) /\
  exists c, open demo_parse demo_power "8" [] = Ok (mkFile demo_power "8" c []) /\
    (c = Some (demo_qs 1) \/ c = Some (demo_qs 3)).
Proof.
  split; [by vm_compute|].
  destruct (quorum_state_durable demo_print demo_parse demo_parse_print ∅ "7" [NoFault; FailAt 3; NoFault]
    demo_file demo_lifetime demo_twice at_rest_empty) as (_ & _ & Hc);
    [reflexivity|apply demo_twice_lifetime|].
  destruct (Hc (demo_qs 3) (replace_ops (temp_path demo_twice) state_path [x03]) DirKept demo_power "8"%string [])
    as (c & Ho & Hm & _); [by vm_compute|apply demo_crash|].
  exists c. split; [exact Ho|]. destruct (Hm eq_refl) as [->| ->]; [left|right]; by vm_compute.
Defined.

(** [save] syncs the file but not the directory: after it has returned, a power
    failure may bring back the previous record. *)
Lemma rename_not_synced_loses_record :
  let q := (save demo_print (demo_qs 2) (save demo_print (demo_qs 1) (mkFile ∅ "7" None [])).1).1 in
  cached q = Some (demo_qs 2) /\
  exists f', after_crash DirLost (fs q) f' /\ on_disk demo_parse f' = Some (Some (demo_qs 1)).
Proof.
  split; [by vm_compute|].
  eexists (mkFS {[ "quorum-state"%string := 0%nat ]} [] [mkInode [x01] true; mkInode [x02] true]).
  split; [|by vm_compute]. apply power_failure.
  - right. split; [done|]. apply (list_elem_of_lookup_2 _ 1). vm_compute. reflexivity.
  - vm_compute. repeat constructor.
Qed.

End QuorumStateFile.
