(* ===== verification/StorageEngine.v ===== *)
(** * The storage facade

    [xraft-storage/src/leader_epoch_checkpoint.rs] and [StorageEngine::open]
    of [lib.rs], over the segmented log and the quorum-state file.
    [SnapshotStore::open] and [load_latest], which [lib.rs] calls, are not in
    the sources: their outcome is an argument. *)

From Stdlib Require Import ZifyBool ZifyN ZifyNat Lia Sorted.
From Stdlib Require Import Strings.Byte.
From stdpp Require Import base list gmap numbers option strings.
From S2P Require Import Prelude Types Interfaces BTree Bytes Segment SegmentLog StoreFiles.

Module LeaderEpochCheckpoint.

Import AtomicFile.

Record LeaderEpochCheckpoint := mkCheckpoint {
  efs : FileSystem;
  epochs : BTreeMap N;
  efaults : list Fault;
}.

Definition file_path : string := "leader-epoch-checkpoint".
Definition temp_path : string := "leader-epoch-checkpoint.tmp".

(** ** Lookups *)

Definition lookup (epoch : N) (c : LeaderEpochCheckpoint) : option N := bt_get epoch (epochs c).

Definition lookup_le (epoch : N) (c : LeaderEpochCheckpoint) : option (N * N) :=
  last (bt_range_le epoch (epochs c)).

Definition all_epochs (c : LeaderEpochCheckpoint) : BTreeMap N := epochs c.

Lemma sorted_snoc_lt (m : BTreeMap N) (k k' v' : N) :
  StronglySorted N.lt (map fst m ++ [k]) -> (k', v') ∈ m -> k' < k.
Proof.
  induction m as [|[a b] m IH]; intros Hwf Hin; [by apply not_elem_of_nil in Hin|]. cbn in Hwf.
  inversion Hwf as [|? ? Hs Hx]; subst. apply elem_of_cons in Hin as [Heq|Hin]; [|by apply IH].
  simplify_eq. rewrite list.Forall_forall in Hx. apply Hx, elem_of_app. right. by apply list_elem_of_singleton.
Qed.

Lemma last_greatest (m : BTreeMap N) (k v : N) :
  bt_wf m -> last m = Some (k, v) ->
  bt_get k m = Some v /\ forall k' v', bt_get k' m = Some v' -> k' <= k.
Proof.
  intros Hwf Hl. apply last_Some in Hl as [m' ->]. split.
  - apply bt_elem_get; [done|]. apply elem_of_app. right. by apply list_elem_of_singleton.
  - intros k' v' Hg. apply bt_elem_get in Hg; [|done].
    apply elem_of_app in Hg as [Hin|Hin].
    2:{ apply list_elem_of_singleton in Hin. by simplify_eq. }
    unfold bt_wf in Hwf. rewrite map_app in Hwf. cbn in Hwf.
    assert (k' < k); [|lia]. by eapply sorted_snoc_lt.
Qed.

Lemma bt_get_range_le (m : BTreeMap N) (e k : N) :
  bt_wf m -> bt_get k (bt_range_le e m) = if k <=? e then bt_get k m else None.
Proof. intros Hwf. unfold bt_range_le. apply (bt_get_filter (fun k => k <=? e)). done. Qed.

(** [lookup_le] finds the epoch in force.  It returns the greatest
    recorded epoch that is at most the given one, with its start offset, and
    nothing exactly when every recorded epoch is greater. *)
Theorem lookup_le_floor (c : LeaderEpochCheckpoint) (e : N) :
  bt_wf (epochs c) ->
  match lookup_le e c with
  | Some (k, o) => k <= e /\ lookup k c = Some o /\
      forall k' o', lookup k' c = Some o' -> k' <= e -> k' <= k
  | None => forall k' o', lookup k' c = Some o' -> e < k'
  end.
Proof.
  intros Hwf. unfold lookup_le, lookup. destruct (last (bt_range_le e (epochs c))) as [[k o]|] eqn:El.
  - destruct (last_greatest _ _ _ (bt_wf_filter _ _ Hwf) El) as [Hg Hmax].
    change (list_filter _ (epochs c)) with (bt_range_le e (epochs c)) in Hg, Hmax.
    rewrite (bt_get_range_le _ e k Hwf) in Hg. destruct (k <=? e) eqn:E; [|done].
    split_and!; [lia|done|]. intros k' o' Hk' Hle. apply (Hmax k' o').
    rewrite (bt_get_range_le _ e k' Hwf). by replace (k' <=? e) with true by lia.
  - apply last_None in El. intros k' o' Hk'. apply N.nle_gt. intros Hle.
    pose proof (bt_get_range_le _ e k' Hwf) as Hg. rewrite El, Hk' in Hg. cbn in Hg.
    by replace (k' <=? e) with true in Hg by lia.
Qed.

(** ** The file *)

Section Checkpoint.
Context (serialize : BTreeMap N -> option bytes).
Context (deserialize : bytes -> option (BTreeMap N)).

Definition open (fs : FileSystem) (faults : list Fault) : Result LeaderEpochCheckpoint :=
  match fs_read file_path fs with
  | None => Ok (mkCheckpoint fs [] faults)
  | Some [] => Ok (mkCheckpoint fs [] faults)
  | Some data =>
      match deserialize data with
      | None => Err (Corruption "leader-epoch-checkpoint parse error"%string)
      | Some m => Ok (mkCheckpoint fs m faults)
      end
  end.

Definition persist : SE LeaderEpochCheckpoint XraftError unit := fun c =>
  match serialize (epochs c) with
  | None => (c, Err (SerializationError "leader-epoch-checkpoint serialize"%string))
  | Some data =>
      let fault := default NoFault (head (efaults c)) in
      let (fs', r) := replace fault temp_path file_path data (efs c) in
      (mkCheckpoint fs' (epochs c) (tail (efaults c)), r)
  end.

Definition append (epoch start_offset : N) : SE LeaderEpochCheckpoint XraftError unit := fun c =>
  persist (mkCheckpoint (efs c) (bt_insert epoch start_offset (epochs c)) (efaults c)).

Definition rebuild (entries : BTreeMap N) : SE LeaderEpochCheckpoint XraftError unit := fun c =>
  persist (mkCheckpoint (efs c) entries (efaults c)).

(** ** Persistence *)

Context (deserialize_serialize : forall m d, serialize m = Some d -> deserialize d = Some m /\ d <> []).

Lemma persist_reopen (c c' : LeaderEpochCheckpoint) (faults : list Fault) :
  persist c = (c', Ok tt) ->
  epochs c' = epochs c /\ open (efs c') faults = Ok (mkCheckpoint (efs c') (epochs c') faults).
Proof.
  unfold persist. destruct (serialize (epochs c)) as [d|] eqn:Hs; [|done].
  destruct (replace _ _ _ _ _) as [fs' r] eqn:Er. intros [= <- ->]. split; [done|]. cbn.
  destruct (replace_spec _ _ _ _ _ _ _ Er) as (_ & Hf & _). unfold open. rewrite (Hf eq_refl).
  destruct (deserialize_serialize _ _ Hs) as [Hd Hd0]. destruct d; [done|]. by rewrite Hd.
Qed.

Lemma persist_no_fault (c : LeaderEpochCheckpoint) :
  is_Some (serialize (epochs c)) -> default NoFault (head (efaults c)) = NoFault ->
  exists c', persist c = (c', Ok tt).
Proof.
  intros [d Hd] Hf. unfold persist. rewrite Hd, Hf.
  destruct (replace NoFault _ _ _ _) as [fs' r] eqn:Er.
  destruct (replace_spec _ _ _ _ _ _ _ Er) as (Hok & _). rewrite Hok by done. by eexists.
Qed.
End Checkpoint.

End LeaderEpochCheckpoint.

Module StorageEngine.

Import AtomicFile.

Record StorageEngine := mkEngine {
  log : SegmentLog.SegmentLog;
  quorum_state : QuorumStateFile.QuorumStateFile;
  leader_epochs : LeaderEpochCheckpoint.LeaderEpochCheckpoint;
  latest_snapshot : option Snapshot;
}.

(** What the data directory holds: the segment files, the start-offset file
    and the other files of the log directory, with the disk's answers to the
    writes to come. *)
Record DataDir := mkDataDir {
  segment_files : list (N * bytes);
  start_offset_file : option N;
  log_dir : FileSystem;
  disk_faults : list Fault;
}.

(** The scan of the log for leader changes. *)
Definition epoch_step (m : BTreeMap N) (e : LogEntry) : BTreeMap N :=
  if EntryType_eqb (entry_type e) LeaderChangeMessage
  then bt_or_insert (term e) (offset e) m else m.
Definition epoch_map (entries : list LogEntry) : BTreeMap N := foldl epoch_step [] entries.

Section Engine.
Context (deserialize : bytes -> option (list LogEntry)).
Context (crc32c : bytes -> N).
Context (from_str : bytes -> option QuorumState).
Context (ser_epochs : BTreeMap N -> option bytes).
Context (de_epochs : bytes -> option (BTreeMap N)).

(** The epoch map that [open] reads off the log. *)
Definition scan (l : SegmentLog.SegmentLog) : Result (BTreeMap N) :=
  let start := SegmentLog.log_start_offset l in
  let end_ := SegmentLog.log_end_offset l in
  if start <? end_ then
    result_bind (SegmentLog.read deserialize crc32c start end_ l) (fun entries => Ok (epoch_map entries))
  else Ok [].

Definition open (pid : string) (dd : DataDir) (snapshots : Result (option Snapshot)) : Result StorageEngine :=
  let log := SegmentLog.open deserialize crc32c (segment_files dd) (start_offset_file dd) in
  result_bind (QuorumStateFile.open from_str (log_dir dd) pid []) (fun quorum_state =>
  result_bind snapshots (fun latest_snapshot =>
  result_bind (LeaderEpochCheckpoint.open de_epochs (log_dir dd) (disk_faults dd)) (fun leader_epochs =>
  result_bind (scan log) (fun m =>
  let (leader_epochs', r) := LeaderEpochCheckpoint.rebuild ser_epochs m leader_epochs in
  result_bind r (fun _ =>
  let fs' := LeaderEpochCheckpoint.efs leader_epochs' in
  Ok (mkEngine log
        (QuorumStateFile.mkFile fs' (QuorumStateFile.pid quorum_state)
           (QuorumStateFile.cached quorum_state) (QuorumStateFile.faults quorum_state))
        leader_epochs' latest_snapshot)))))).

(** ** The scan *)

Definition leader_change_of (t : Term) (e : LogEntry) : bool :=
  EntryType_eqb (entry_type e) LeaderChangeMessage && (term e =? t).

Lemma epoch_map_get (entries : list LogEntry) (m : BTreeMap N) (t : Term) :
  bt_get t (foldl epoch_step m entries) =
  match bt_get t m with
  | Some o => Some o
  | None => option_map offset (list_find_first (leader_change_of t) entries)
  end.
Proof.
  revert m. induction entries as [|e es IH]; intros m; cbn [foldl list_find_first].
  - by destruct (bt_get t m).
  - rewrite IH. unfold epoch_step, leader_change_of. destruct (EntryType_eqb _ _); cbn [andb]; [|done].
    unfold bt_or_insert. destruct (bt_get (term e) m) as [o|] eqn:E.
    + destruct (term e =? t) eqn:Et; [|done]. apply N.eqb_eq in Et as <-. by rewrite E.
    + rewrite bt_get_insert. destruct (term e =? t) eqn:Et; [|done].
      apply N.eqb_eq in Et as <-. by rewrite E.
Qed.

Lemma epoch_map_wf (entries : list LogEntry) (m : BTreeMap N) : bt_wf m -> bt_wf (foldl epoch_step m entries).
Proof.
  revert m. induction entries as [|e es IH]; intros m Hm; [done|]. cbn. apply IH. unfold epoch_step, bt_or_insert.
  destruct (EntryType_eqb _ _); [|done]. destruct (bt_get _ _); [done|by apply bt_wf_insert].
Qed.

(** ** Opening a data directory *)

Context (serialize : list LogEntry -> option bytes).
Context (deserialize_serialize : forall es p, serialize es = Some p -> deserialize p = Some es).
Context (crc_bound : forall p, crc32c p < u32_modulus).
Context (serialize_prefix : forall es p k, serialize es = Some p ->
  exists p', serialize (take k es) = Some p' /\ (length p' <= length p)%nat).
Context (de_ser_epochs : forall m d, ser_epochs m = Some d -> de_epochs d = Some m /\ d <> []).
Context (ser_epochs_total : forall m, is_Some (ser_epochs m)).

Abbreviation log_inv := (SegmentLog.log_inv serialize crc32c).
Abbreviation log_abs := (SegmentLog.log_abs deserialize crc32c).

Lemma scan_log (l : SegmentLog.SegmentLog) : log_inv l -> scan l = Ok (epoch_map (al_entries (log_abs l))).
Proof.
  intros [ds Hl]. unfold scan.
  destruct (SegmentLog.log_ok_wf serialize deserialize crc32c deserialize_serialize crc_bound _ _ Hl) as [Hwf Hend].
  set (a := log_abs l) in *. assert (al_start a = SegmentLog.log_start_offset l) as Hst by done.
  rewrite <- Hst, <- Hend. destruct (al_start a <? al_end a) eqn:E.
  - rewrite (SegmentLog.seg_log_read_abs serialize deserialize crc32c deserialize_serialize crc_bound ds) by done.
    fold a. cbn [result_bind]. do 2 f_equal. apply list_filter_all. intros x Hx.
    pose proof (contiguous_bounds _ _ _ Hwf Hx). unfold al_end. lia.
  - unfold al_end in E. destruct (al_entries a); [done|]. cbn in E. lia.
Qed.

Lemma reopened_log (l : SegmentLog.SegmentLog) (dir : list (N * bytes)) :
  log_inv l -> dir ≡ₚ SegmentLog.files (SegmentLog.segments l) ->
  let l' := SegmentLog.open deserialize crc32c dir (SegmentLog.start_file l) in
  log_inv l' /\ log_abs l' = log_abs l.
Proof.
  intros [ds Hl] Hfiles l'.
  destruct (SegmentLog.reopen_log_ok serialize deserialize crc32c deserialize_serialize crc_bound
    serialize_prefix ds l dir SegmentLog.DEFAULT_SEGMENT_SIZE_LIMIT Hl) as [Hl' Hs']; [done|done|].
  split; [by exists ds|].
  rewrite (SegmentLog.log_ok_abs serialize deserialize crc32c deserialize_serialize crc_bound _ _ Hl).
  rewrite <- Hs'. apply (SegmentLog.log_ok_abs serialize deserialize crc32c deserialize_serialize crc_bound _ _ Hl').
Qed.

Lemma checkpoint_open_faults (fs : FileSystem) (faults : list Fault) (c : LeaderEpochCheckpoint.LeaderEpochCheckpoint) :
  LeaderEpochCheckpoint.open de_epochs fs faults = Ok c -> LeaderEpochCheckpoint.efaults c = faults.
Proof.
  unfold LeaderEpochCheckpoint.open.
  destruct (fs_read _ fs) as [[|b d]|]; [| destruct (de_epochs _); [|done] |]; by intros [= <-].
Qed.

(** C26: Recovery of the storage engine.  Opening the directory of a log that
    was in use, with a readable quorum-state file, any readable or absent
    checkpoint however stale, and a disk that does not fail the checkpoint
    write, succeeds: the log reads as it did before the restart, the voting
    state is the stored one, and the epoch checkpoint maps each term to the
    offset of the first leader-change entry of that term in the log and holds
    nothing else; a further restart finds the same checkpoint. *)
Theorem engine_open_recovers (l : SegmentLog.SegmentLog) (pid : string) (dd : DataDir)
    (snap : option Snapshot) (qs : QuorumStateFile.QuorumStateFile)
    (stale : LeaderEpochCheckpoint.LeaderEpochCheckpoint) :
  log_inv l -> segment_files dd ≡ₚ SegmentLog.files (SegmentLog.segments l) ->
  start_offset_file dd = SegmentLog.start_file l ->
  QuorumStateFile.open from_str (log_dir dd) pid [] = Ok qs ->
  LeaderEpochCheckpoint.open de_epochs (log_dir dd) (disk_faults dd) = Ok stale ->
  default NoFault (head (disk_faults dd)) = NoFault ->
  exists eng, open pid dd (Ok snap) = Ok eng /\
    log_inv (log eng) /\ log_abs (log eng) = log_abs l /\
    QuorumStateFile.load (quorum_state eng) = QuorumStateFile.load qs /\
    latest_snapshot eng = snap /\
    (forall t, LeaderEpochCheckpoint.lookup t (leader_epochs eng) =
       option_map offset (list_find_first (leader_change_of t) (al_entries (log_abs l)))) /\
    LeaderEpochCheckpoint.open de_epochs (LeaderEpochCheckpoint.efs (leader_epochs eng)) [] =
      Ok (LeaderEpochCheckpoint.mkCheckpoint (LeaderEpochCheckpoint.efs (leader_epochs eng))
            (LeaderEpochCheckpoint.epochs (leader_epochs eng)) []).
Proof.
  intros Hl Hfiles Hstart Hq Hc Hfault. unfold open. rewrite Hq, Hc, Hstart. cbn [result_bind].
  destruct (reopened_log l _ Hl Hfiles) as [Hl' Habs]. set (log' := SegmentLog.open _ _ _ _) in *.
  rewrite (scan_log log' Hl'), Habs. cbn [result_bind]. unfold LeaderEpochCheckpoint.rebuild.
  destruct (LeaderEpochCheckpoint.persist_no_fault ser_epochs
    (LeaderEpochCheckpoint.mkCheckpoint (LeaderEpochCheckpoint.efs stale) (epoch_map (al_entries (log_abs l)))
       (LeaderEpochCheckpoint.efaults stale))) as [c' Hp];
    [apply ser_epochs_total|by cbn; rewrite (checkpoint_open_faults _ _ _ Hc)|].
  rewrite Hp. cbn [result_bind]. eexists. split; [done|]. cbn [log quorum_state leader_epochs latest_snapshot].
  destruct (LeaderEpochCheckpoint.persist_reopen _ _ de_ser_epochs _ _ [] Hp) as [He Hr].
  split_and!; try done. intros t. unfold LeaderEpochCheckpoint.lookup. rewrite He. cbn.
  unfold epoch_map. by rewrite epoch_map_get.
Qed.
End Engine.

(** ** Demonstration *)

(** An encoding of epoch maps: a marker and the bits of their code. *)
Fixpoint bits_of (p : positive) : bytes :=
  match p with
  | xH => []
  | xO q => x00 :: bits_of q
  | xI q => x01 :: bits_of q
  end.
Fixpoint of_bits (bs : bytes) : positive :=
  match bs with
  | [] => xH
  | x00 :: bs' => xO (of_bits bs')
  | _ :: bs' => xI (of_bits bs')
  end.

Definition demo_ser_epochs (m : BTreeMap N) : option bytes := Some (x2a :: bits_of (encode m)).
Definition demo_de_epochs (d : bytes) : option (BTreeMap N) :=
  match d with x2a :: bs => decode (of_bits bs) | _ => None end.

Lemma of_bits_of (p : positive) : of_bits (bits_of p) = p.
Proof. induction p; cbn; congruence. Qed.

Lemma demo_de_ser_epochs (m : BTreeMap N) (d : bytes) :
  demo_ser_epochs m = Some d -> demo_de_epochs d = Some m /\ d <> [].
Proof.
  intros [= <-]. split; [|done]. unfold demo_de_epochs. rewrite of_bits_of. apply decode_encode.
Qed.

Definition demo_dir : DataDir :=
  mkDataDir (SegmentLog.files (SegmentLog.segments SegmentLog.demo_log)) None
    (files_at_rest [(LeaderEpochCheckpoint.file_path, x2a :: bits_of (encode [(7, 9)]))]) [].

Abbreviation demo_open :=
  (open Segment.demo_de Segment.demo_crc QuorumStateFile.demo_parse demo_ser_epochs demo_de_epochs).

Lemma engine_open_recovers_witness :
  exists eng, demo_open "1" demo_dir (Ok None) = Ok eng /\
    LeaderEpochCheckpoint.lookup 7 (leader_epochs eng) = None.
Proof.
  destruct (engine_open_recovers Segment.demo_de Segment.demo_crc QuorumStateFile.demo_parse
    demo_ser_epochs demo_de_epochs Segment.demo_ser Segment.demo_de_ser Segment.demo_crc_bound
    Segment.demo_ser_prefix demo_de_ser_epochs (fun m => ltac:(by eexists))
    SegmentLog.demo_log "1" demo_dir None
    (QuorumStateFile.mkFile (log_dir demo_dir) "1" None [])
    (LeaderEpochCheckpoint.mkCheckpoint (log_dir demo_dir) [(7, 9)] []))
    as (eng & H1 & _ & _ & _ & _ & H2 & _);
    [apply SegmentLog.demo_log_inv|reflexivity|reflexivity|reflexivity|by vm_compute|reflexivity|].
  exists eng. split; [exact H1|]. rewrite H2. by vm_compute.
Defined.

Lemma lookup_le_floor_witness :
  let c := LeaderEpochCheckpoint.mkCheckpoint ∅ [(2, 10); (5, 30)] [] in
  LeaderEpochCheckpoint.lookup_le 4 c = Some (2, 10) /\ LeaderEpochCheckpoint.lookup 2 c = Some 10.
Proof.
  intros c. split; [reflexivity|].
  apply (LeaderEpochCheckpoint.lookup_le_floor c 4). unfold bt_wf. cbn. repeat constructor; done.
Defined.

(** A checkpoint that cannot be parsed stops the engine from opening, although
    the checkpoint is rebuilt from the log on every start. *)
Lemma corrupt_checkpoint_blocks_open :
  demo_open "1" (mkDataDir [] None (files_at_rest [(LeaderEpochCheckpoint.file_path, [x00])]) []) (Ok None)
  = Err (Corruption "leader-epoch-checkpoint parse error"%string).
Proof. by vm_compute. Qed.

End StorageEngine.
