(* ===== verification/Snapshots.v ===== *)
(** * Snapshots on disk

    [xraft-storage/src/snapshot_store.rs] (whole snapshots, chunked transfer,
    listing and purging), [SnapshotWriter] of [xraft-core/src/snapshot.rs] and
    [xraft-core/src/snapshot_coordinator.rs].  A store's directory is two maps
    keyed by the term and index in the file names, one per extension; the JSON
    encoding of the metadata is a parameter. *)

From Stdlib Require Import ZifyBool ZifyN ZifyNat Lia Sorted.
From Stdlib Require Import Strings.Byte.
From stdpp Require Import base list gmap numbers option strings sorting fin_maps.
From S2P Require Import Prelude Types.

(** Seek to [pos] and write [data]: a gap after the end is filled with zeros. *)
Definition pwrite (pos : N) (data f : bytes) : bytes :=
  take (N.to_nat pos) (f ++ replicate (N.to_nat pos - length f) x00) ++ data
    ++ drop (N.to_nat pos + length data) f.

Lemma pwrite_end (data f : bytes) : pwrite (N.of_nat (length f)) data f = f ++ data.
Proof.
  unfold pwrite. rewrite Nat2N.id, take_app_length, drop_ge by lia. by rewrite app_nil_r.
Qed.

Module SnapshotStore.

Definition DEFAULT_CHUNK_SIZE : N := 64 * 1024.

Record SnapshotMeta := mkMeta { m_term : N; m_index : N }.

#[global] Instance SnapshotMeta_eq_dec : EqDecision SnapshotMeta.
Proof. solve_decision. Defined.

Record SnapshotChunk := mkChunk { data : bytes; position : N; done : bool }.

Inductive StorageError :=
| NotFound (what : string)
| Serialization (what : string)
| Io (what : string).

Definition StorageResult (A : Type) : Type := result A StorageError.

Record SnapshotStore := mkStore {
  snap_files : gmap (N * N) bytes;
  meta_files : gmap (N * N) bytes;
  chunk_size : N;
}.

Definition new : SnapshotStore := mkStore ∅ ∅ DEFAULT_CHUNK_SIZE.

(** [None] is the failed assertion. *)
Definition with_chunk_size (n : N) (s : SnapshotStore) : option SnapshotStore :=
  if 0 <? n then Some (mkStore (snap_files s) (meta_files s) n) else None.

Definition key (m : SnapshotMeta) : N * N := (m_term m, m_index m).

(** [(a.term, a.index) < (b.term, b.index)] and its negation the other way round. *)
Definition older (a b : SnapshotMeta) : bool :=
  (m_term a <? m_term b) || (m_term a =? m_term b) && (m_index a <? m_index b).
Definition newer_first (a b : SnapshotMeta) : Prop := older a b = false.

#[global] Instance newer_first_dec : RelDecision newer_first.
Proof. intros a b. unfold newer_first. apply _. Defined.

Section Store.
Context (to_vec : SnapshotMeta -> option bytes).
Context (from_slice : bytes -> option SnapshotMeta).

Definition save_snapshot (m : SnapshotMeta) (d : bytes) : SE SnapshotStore StorageError unit := fun s =>
  match to_vec m with
  | None => (s, Err (Serialization "meta"%string))
  | Some meta_json =>
      (mkStore (<[key m := d]> (snap_files s)) (<[key m := meta_json]> (meta_files s)) (chunk_size s), Ok tt)
  end.

Definition load_snapshot (m : SnapshotMeta) (s : SnapshotStore) : StorageResult bytes :=
  match snap_files s !! key m with
  | None => Err (NotFound "snapshot file not found"%string)
  | Some d => Ok d
  end.

Definition snapshot_size (m : SnapshotMeta) (s : SnapshotStore) : StorageResult N :=
  match snap_files s !! key m with
  | None => Err (Io "not found"%string)
  | Some d => Ok (N.of_nat (length d))
  end.

Definition read_chunk (m : SnapshotMeta) (pos : N) (s : SnapshotStore) : StorageResult SnapshotChunk :=
  match snap_files s !! key m with
  | None => Err (Io "not found"%string)
  | Some d =>
      let file_len := N.of_nat (length d) in
      if file_len <=? pos then Ok (mkChunk [] pos true)
      else
        let to_read := N.min (file_len - pos) (chunk_size s) in
        let buf := take (N.to_nat to_read) (drop (N.to_nat pos) d) in
        Ok (mkChunk buf pos (file_len <=? pos + to_read))
  end.

Definition write_chunk (m : SnapshotMeta) (c : SnapshotChunk) : SE SnapshotStore StorageError unit := fun s =>
  let existing := if position c =? 0 then Some [] else snap_files s !! key m in
  match existing with
  | None => (s, Err (Io "not found"%string))
  | Some f =>
      let s1 := mkStore (<[key m := pwrite (position c) (data c) f]> (snap_files s)) (meta_files s) (chunk_size s) in
      if done c then
        match to_vec m with
        | None => (s1, Err (Serialization "meta"%string))
        | Some meta_json =>
            (mkStore (snap_files s1) (<[key m := meta_json]> (meta_files s1)) (chunk_size s1), Ok tt)
        end
      else (s1, Ok tt)
  end.

(** The directory scan, in the order of the listing. *)
Fixpoint parse_metas (listing : list ((N * N) * bytes)) : StorageResult (list SnapshotMeta) :=
  match listing with
  | [] => Ok []
  | (_, b) :: listing' =>
      match from_slice b with
      | None => Err (Serialization "meta"%string)
      | Some m => result_bind (parse_metas listing') (fun ms => Ok (m :: ms))
      end
  end.

Definition list_snapshots (s : SnapshotStore) : StorageResult (list SnapshotMeta) :=
  result_bind (parse_metas (map_to_list (meta_files s))) (fun ms => Ok (merge_sort newer_first ms)).

Definition purge_one (keep : SnapshotMeta) (acc : SnapshotStore * N) (m : SnapshotMeta) : SnapshotStore * N :=
  let (s, removed) := acc in
  if older m keep
  then (mkStore (delete (key m) (snap_files s)) (delete (key m) (meta_files s)) (chunk_size s), removed + 1)
  else (s, removed).

Definition purge_older_than (keep : SnapshotMeta) : SE SnapshotStore StorageError N := fun s =>
  match list_snapshots s with
  | Err e => (s, Err e)
  | Ok all => let (s', removed) := foldl (purge_one keep) (s, 0) all in (s', Ok removed)
  end.

(** ** Chunked transfer

    What a receiver does with a sender's chunks: read from the position the
    last chunk ended at, write, until the chunk says it is the last. *)
Fixpoint transfer (fuel : nat) (src : SnapshotStore) (m : SnapshotMeta) (pos : N) (dst : SnapshotStore)
  : SnapshotStore * StorageResult unit :=
  match fuel with
  | O => (dst, Err (Io "unfinished"%string))
  | S fuel' =>
      match read_chunk m pos src with
      | Err e => (dst, Err e)
      | Ok c =>
          match write_chunk m c dst with
          | (dst', Err e) => (dst', Err e)
          | (dst', Ok _) =>
              if done c then (dst', Ok tt)
              else transfer fuel' src m (pos + N.of_nat (length (data c))) dst'
          end
      end
  end.

Context (parse_print : forall m b, to_vec m = Some b -> from_slice b = Some m).

Lemma transfer_from (src dst : SnapshotStore) (m : SnapshotMeta) (d mj : bytes) (k fuel : nat) :
  snap_files src !! key m = Some d -> 0 < chunk_size src -> to_vec m = Some mj ->
  (k <= length d)%nat -> (0 < k -> snap_files dst !! key m = Some (take k d))%nat ->
  (length d - k < fuel)%nat ->
  exists dst', transfer fuel src m (N.of_nat k) dst = (dst', Ok tt) /\
    snap_files dst' = <[key m := d]> (snap_files dst) /\ meta_files dst' = <[key m := mj]> (meta_files dst).
Proof.
  intros Hsrc Hcs Hmj. revert k dst. induction fuel as [|fuel IH]; intros k dst Hk Hdst Hfu; [lia|].
  cbn [transfer]. unfold read_chunk. rewrite Hsrc.
  assert ((if N.of_nat k =? 0 then Some [] else snap_files dst !! key m) = Some (take k d)) as Hex.
  { destruct k as [|k]; [done|]. rewrite Hdst by lia. done. }
  assert (N.of_nat k = N.of_nat (length (take k d))) as Hpos by (rewrite length_take; lia).
  destruct (N.of_nat (length d) <=? N.of_nat k) eqn:Eend.
  - unfold write_chunk. cbn [position data done]. rewrite Hex, Hmj. cbn. eexists. split; [done|]. cbn.
    rewrite Hpos, pwrite_end, app_nil_r, take_ge by lia. done.
  - set (n := N.min (N.of_nat (length d) - N.of_nat k) (chunk_size src)).
    set (buf := take (N.to_nat n) (drop (N.to_nat (N.of_nat k)) d)).
    assert (length buf = N.to_nat n) as Hbuf by (unfold buf; rewrite length_take, length_drop; lia).
    assert (take k d ++ buf = take (k + N.to_nat n) d) as Hcat.
    { unfold buf. rewrite Nat2N.id. apply take_take_drop. }
    unfold write_chunk. cbn [position data done]. rewrite Hex, Hpos, pwrite_end, Hcat, <- Hpos.
    destruct (N.of_nat (length d) <=? N.of_nat k + n) eqn:Elast.
    + rewrite Hmj. eexists. split; [done|]. cbn. rewrite take_ge by lia. done.
    + rewrite Hbuf. replace (N.of_nat k + N.of_nat (N.to_nat n)) with (N.of_nat (k + N.to_nat n)) by lia.
      destruct (IH (k + N.to_nat n)%nat
        (mkStore (<[key m := take (k + N.to_nat n) d]> (snap_files dst)) (meta_files dst) (chunk_size dst)))
        as (dst' & E & E1 & E2); [lia|intros _; cbn; by rewrite lookup_insert_eq|lia|].
      exists dst'. split; [done|]. rewrite E1, E2. cbn. by rewrite insert_insert_eq.
Qed.

(** C36: Chunked transfer is lossless.  Reading a snapshot chunk by chunk and
    writing each chunk to another store ends, after at most one chunk per byte
    and one more, with the receiver holding exactly the sender's snapshot and
    its metadata, whatever it held under that name before, and with every
    other snapshot of the receiver untouched. *)
Theorem transfer_lossless (src dst : SnapshotStore) (m : SnapshotMeta) (d mj : bytes) :
  load_snapshot m src = Ok d -> 0 < chunk_size src -> to_vec m = Some mj ->
  exists dst', transfer (length d + 1) src m 0 dst = (dst', Ok tt) /\
    load_snapshot m dst' = Ok d /\
    (forall m', key m' <> key m -> load_snapshot m' dst' = load_snapshot m' dst) /\
    meta_files dst' = <[key m := mj]> (meta_files dst).
Proof.
  intros Hl Hcs Hmj. unfold load_snapshot in Hl. destruct (snap_files src !! key m) as [d'|] eqn:Es; [|done].
  injection Hl as ->.
  destruct (transfer_from src dst m d mj 0 (length d + 1)) as (dst' & E & E1 & E2); [done|done|done|lia|lia|lia|].
  exists dst'. split_and!; [done| | |done]; unfold load_snapshot; rewrite E1.
  - by rewrite lookup_insert_eq.
  - intros m' Hne. by rewrite lookup_insert_ne.
Qed.

(** ** Listing and purging *)

(** Each metadata file holds the metadata its name says. *)
Definition metas_ok (s : SnapshotStore) : Prop :=
  forall k b, meta_files s !! k = Some b -> exists m, from_slice b = Some m /\ key m = k.

Lemma key_inj (a b : SnapshotMeta) : key a = key b -> a = b.
Proof. destruct a, b. unfold key. cbn. congruence. Qed.

Lemma metas_ok_insert (s : SnapshotStore) (m : SnapshotMeta) (mj : bytes) snaps cs :
  metas_ok s -> to_vec m = Some mj -> metas_ok (mkStore snaps (<[key m := mj]> (meta_files s)) cs).
Proof.
  intros Hs Hmj k b. cbn. destruct (decide (key m = k)) as [<-|Hne].
  - rewrite lookup_insert_eq. intros [= <-]. eauto.
  - rewrite lookup_insert_ne by done. apply Hs.
Qed.

Lemma metas_ok_save (s s' : SnapshotStore) (m : SnapshotMeta) (d : bytes) r :
  metas_ok s -> save_snapshot m d s = (s', r) -> metas_ok s'.
Proof.
  intros Hs. unfold save_snapshot. destruct (to_vec m) eqn:E; intros [= <- _]; [|done]. by apply metas_ok_insert.
Qed.

Lemma metas_ok_write (s s' : SnapshotStore) (m : SnapshotMeta) (c : SnapshotChunk) r :
  metas_ok s -> write_chunk m c s = (s', r) -> metas_ok s'.
Proof.
  intros Hs. unfold write_chunk. destruct (if position c =? 0 then _ else _) as [f|]; [|by intros [= <- _]].
  destruct (done c); [|by intros [= <- _]]. destruct (to_vec m) eqn:E; intros [= <- _]; [|done].
  cbn. by apply metas_ok_insert.
Qed.

Lemma parse_metas_ok (listing : list ((N * N) * bytes)) :
  (forall k b, (k, b) ∈ listing -> exists m, from_slice b = Some m /\ key m = k) ->
  exists ms, parse_metas listing = Ok ms /\ map key ms = map fst listing.
Proof.
  induction listing as [|[k b] listing IH]; intros Hok; [by exists []|]. cbn.
  destruct (Hok k b) as (m & -> & Hk); [apply elem_of_cons; by left|].
  destruct IH as (ms & -> & Hms); [intros k' b' Hin; apply Hok, elem_of_cons; by right|].
  exists (m :: ms). cbn. by rewrite Hk, Hms.
Qed.

#[local] Instance newer_first_total : Total newer_first.
Proof. intros a b. unfold newer_first, older. lia. Qed.

#[local] Instance newer_first_trans : Transitive newer_first.
Proof. intros a b c. unfold newer_first, older. lia. Qed.

Lemma parsed_metas (s : SnapshotStore) (m : SnapshotMeta) (ms : list SnapshotMeta) :
  map key ms = map fst (map_to_list (meta_files s)) -> m ∈ ms <-> is_Some (meta_files s !! key m).
Proof.
  intros Hms. assert (m ∈ ms <-> key m ∈ map fst (map_to_list (meta_files s))) as ->.
  { rewrite <- Hms. split; [intros Hin; apply list_elem_of_fmap; eauto|].
    intros (m' & Heq & Hin)%list_elem_of_fmap. by rewrite (key_inj _ _ Heq). }
  split.
  - intros ([k b] & Hk & Hin)%list_elem_of_fmap. cbn in Hk. subst k.
    apply elem_of_map_to_list in Hin. eauto.
  - intros [b Hb]. apply list_elem_of_fmap. exists (key m, b). split; [done|]. by apply elem_of_map_to_list.
Qed.

Lemma list_snapshots_ok (s : SnapshotStore) :
  metas_ok s ->
  exists ms, list_snapshots s = Ok ms /\ StronglySorted newer_first ms /\ NoDup ms /\
    forall m, m ∈ ms <-> is_Some (meta_files s !! key m).
Proof.
  intros Hs. destruct (parse_metas_ok (map_to_list (meta_files s))) as (ms & Hp & Hms).
  { intros k b Hin. apply Hs. by apply elem_of_map_to_list. }
  exists (merge_sort newer_first ms). unfold list_snapshots. rewrite Hp. cbn. split_and!; [done|..].
  - apply (StronglySorted_merge_sort newer_first).
  - rewrite merge_sort_Permutation. apply (NoDup_fmap_1 key). change (key <$> ms) with (map key ms).
    rewrite Hms. apply NoDup_fst_map_to_list.
  - intros m. rewrite merge_sort_Permutation. by apply parsed_metas.
Qed.

(** Listing.  In a store whose metadata files hold what their names say,
    which saving and writing chunks preserve, listing succeeds, returns each
    snapshot that has a metadata file exactly once and nothing else, newest
    term and index first; a snapshot whose transfer has not written its last
    chunk is not listed. *)
Theorem list_snapshots_correct (s : SnapshotStore) :
  metas_ok s ->
  (exists ms, list_snapshots s = Ok ms /\ StronglySorted newer_first ms /\ NoDup ms /\
     forall m, m ∈ ms <-> is_Some (meta_files s !! key m)) /\
  (forall m d s' r, save_snapshot m d s = (s', r) -> metas_ok s') /\
  (forall m c s' r, write_chunk m c s = (s', r) -> metas_ok s' /\
     (done c = false -> list_snapshots s' = list_snapshots s)).
Proof.
  intros Hs. split_and!.
  - by apply list_snapshots_ok.
  - intros m d s' r. by apply metas_ok_save.
  - intros m c s' r Hw. split; [by eapply metas_ok_write|]. intros Hd. unfold write_chunk in Hw. rewrite Hd in Hw.
    unfold list_snapshots. destruct (if position c =? 0 then _ else _); by injection Hw as <- _.
Qed.

Definition purges (keep : SnapshotMeta) (ms : list SnapshotMeta) (k : N * N) : bool :=
  existsb (fun m => older m keep && bool_decide (key m = k)) ms.

Lemma purge_fold (keep : SnapshotMeta) (ms : list SnapshotMeta) (s : SnapshotStore) (n : N) :
  exists s', foldl (purge_one keep) (s, n) ms
      = (s', n + N.of_nat (length (list_filter (fun m => older m keep) ms))) /\
    (forall k, snap_files s' !! k = if purges keep ms k then None else snap_files s !! k) /\
    (forall k, meta_files s' !! k = if purges keep ms k then None else meta_files s !! k).
Proof.
  revert s n. induction ms as [|m ms IH]; intros s n; cbn [foldl list_filter].
  - exists s. cbn. split; [f_equal; lia|done].
  - unfold purge_one at 2. destruct (older m keep) eqn:Eo.
    + destruct (IH (mkStore (delete (key m) (snap_files s)) (delete (key m) (meta_files s)) (chunk_size s)) (n + 1))
        as (s' & -> & H1 & H2).
      exists s'. split; [cbn [length]; f_equal; lia|].
      unfold purges in *. cbn [existsb]. rewrite Eo. cbn [andb].
      split; intros k; rewrite ?H1, ?H2; cbn; destruct (decide (key m = k)) as [<-|Hne].
      all: rewrite ?bool_decide_eq_true_2, ?bool_decide_eq_false_2 by done; cbn [orb].
      all: rewrite ?lookup_delete_eq, ?lookup_delete_ne by done; by destruct (existsb _ _).
    + destruct (IH s n) as (s' & -> & H1 & H2). exists s'. split; [done|].
      unfold purges in *. cbn [existsb]. rewrite Eo. done.
Qed.

(** Purging.  [purge_older_than] removes exactly the listed snapshots
    older than the one to keep, both files of each, reports how many, and
    leaves every other file as it was. *)
Theorem purge_correct (keep : SnapshotMeta) (s : SnapshotStore) :
  metas_ok s ->
  exists s' n, purge_older_than keep s = (s', Ok n) /\
    (forall m, meta_files s' !! key m = if older m keep then None else meta_files s !! key m) /\
    (forall m, load_snapshot m s' =
       if older m keep && bool_decide (is_Some (meta_files s !! key m))
       then Err (NotFound "snapshot file not found"%string) else load_snapshot m s) /\
    exists gone, NoDup gone /\ n = N.of_nat (length gone) /\
      forall m, m ∈ gone <-> older m keep = true /\ is_Some (meta_files s !! key m).
Proof.
  intros Hs. destruct (list_snapshots_ok s Hs) as (ms & Hl & _ & Hnd & Hin).
  unfold purge_older_than. rewrite Hl. destruct (purge_fold keep ms s 0) as (s' & -> & H1 & H2).
  assert (forall m, purges keep ms (key m) = older m keep && bool_decide (is_Some (meta_files s !! key m))) as Hp.
  { intros m. apply Bool.eq_iff_eq_true. unfold purges. rewrite existsb_true, andb_true_iff, bool_decide_eq_true.
    rewrite <- Hin. split.
    - intros (m' & Hm' & [Ho Hk]%andb_prop). apply bool_decide_eq_true, key_inj in Hk as ->. done.
    - intros [Ho Hm]. exists m. split; [done|]. by rewrite Ho, bool_decide_eq_true_2. }
  eexists s', _. split; [done|]. split_and!.
  - intros m. rewrite H2, Hp. destruct (older m keep); [|done]. cbn.
    destruct (meta_files s !! key m) eqn:E; [rewrite bool_decide_eq_true_2 by eauto; done|].
    by destruct (bool_decide _).
  - intros m. unfold load_snapshot. rewrite H1, Hp. by destruct (older m keep && _).
  - exists (list_filter (fun m => older m keep) ms). split_and!; [|lia|].
    + clear -Hnd. induction Hnd as [|m ms Hm _ IH]; cbn; [constructor|].
      destruct (older m keep); [|done]. constructor; [|done]. by rewrite elem_of_list_filter_b; intros [? _].
    + intros m. rewrite elem_of_list_filter_b, Hin. tauto.
Qed.
End Store.

(** *** Demonstration: terms and indices below 256, one byte each *)

Definition demo_vec (m : SnapshotMeta) : option bytes :=
  match Byte.of_N (m_term m), Byte.of_N (m_index m) with Some a, Some b => Some [a; b] | _, _ => None end.
Definition demo_slice (b : bytes) : option SnapshotMeta :=
  match b with [x; y] => Some (mkMeta (Byte.to_N x) (Byte.to_N y)) | _ => None end.

Lemma demo_slice_vec (m : SnapshotMeta) (b : bytes) : demo_vec m = Some b -> demo_slice b = Some m.
Proof.
  destruct m as [t i]. unfold demo_vec. cbn. destruct (Byte.of_N t) as [x|] eqn:Ex; [|done].
  destruct (Byte.of_N i) as [y|] eqn:Ey; [|done]. intros [= <-]. cbn.
  apply Byte.to_of_N in Ex, Ey. by rewrite Ex, Ey.
Qed.

Definition hello : bytes := [x68; x65; x6c; x6c; x6f].
Definition demo_store : SnapshotStore :=
  (save_snapshot demo_vec (mkMeta 3 9) hello
     (save_snapshot demo_vec (mkMeta 2 200) [x00] (mkStore ∅ ∅ 2)).1).1.

Lemma demo_store_ok : metas_ok demo_slice demo_store.
Proof.
  eapply (metas_ok_save demo_vec demo_slice demo_slice_vec); [|apply surjective_pairing].
  eapply (metas_ok_save demo_vec demo_slice demo_slice_vec); [|apply surjective_pairing].
  intros k b. cbn. by rewrite lookup_empty.
Qed.

Lemma transfer_lossless_witness :
  exists dst, transfer demo_vec 6 demo_store (mkMeta 3 9) 0 new = (dst, Ok tt) /\
    load_snapshot (mkMeta 3 9) dst = Ok hello.
Proof.
  destruct (transfer_lossless demo_vec demo_store new (mkMeta 3 9) hello [x03; x09])
    as (dst & H1 & H2 & _); [reflexivity|reflexivity|reflexivity|].
  exists dst. split; [exact H1|exact H2].
Defined.

Lemma list_snapshots_correct_witness :
  exists ms, list_snapshots demo_slice demo_store = Ok ms /\ mkMeta 2 200 ∈ ms.
Proof.
  destruct (list_snapshots_correct demo_vec demo_slice demo_slice_vec demo_store) as [(ms & H1 & _ & _ & H2) _];
    [apply demo_store_ok|].
  exists ms. split; [exact H1|]. apply H2. by exists [x02; xc8].
Defined.

Lemma purge_correct_witness :
  exists s' n, purge_older_than demo_slice (mkMeta 3 9) demo_store = (s', Ok n) /\
    load_snapshot (mkMeta 3 9) s' = Ok hello.
Proof.
  destruct (purge_correct demo_slice (mkMeta 3 9) demo_store) as (s' & n & H1 & _ & H2 & _);
    [apply demo_store_ok|].
  exists s', n. split; [exact H1|]. rewrite H2. reflexivity.
Defined.

End SnapshotStore.

Module SnapshotWriter.

(** The two paths of a receive session: what is at the temporary path and at
    the final one, whether the file is still open, and the count of bytes. *)
Record SnapshotWriter := mkWriter {
  temp : option bytes;
  final : option bytes;
  is_open : bool;
  bytes_written : N;
}.

(** On a freshly created temporary file. *)
Definition new (existing : option bytes) : SnapshotWriter := mkWriter (Some []) existing true 0.

Definition write_chunk (pos : N) (d : bytes) : SE SnapshotWriter XraftError unit := fun w =>
  match is_open w, temp w with
  | true, Some f =>
      (mkWriter (Some (pwrite pos d f)) (final w) true (u64_add pos (N.of_nat (length d))), Ok tt)
  | _, _ => (w, Err (IoOther "writer already finalized"%string))
  end.

(** [sync_fails] and [rename_fails] are the disk's answers. *)
Definition finish (sync_fails rename_fails : bool) : SE SnapshotWriter XraftError unit := fun w =>
  if is_open w then
    let w' := mkWriter (temp w) (final w) false (bytes_written w) in
    if sync_fails || rename_fails then (w', Err (IoOther "io"%string))
    else (mkWriter None (temp w) false (bytes_written w), Ok tt)
  else (w, Err (IoOther "writer already finalized"%string)).

Definition abort : SE SnapshotWriter XraftError unit := fun w =>
  (if is_open w then mkWriter None (final w) false (bytes_written w) else w, Ok tt).

(** Consecutive chunks, each written where the one before ended. *)
Fixpoint write_all (pos : N) (chunks : list bytes) (w : SnapshotWriter) : SnapshotWriter :=
  match chunks with
  | [] => w
  | d :: chunks' => write_all (pos + N.of_nat (length d)) chunks' (write_chunk pos d w).1
  end.

Lemma write_all_concat (chunks : list bytes) (f : bytes) (old : option bytes) (n : N) :
  exists n', write_all (N.of_nat (length f)) chunks (mkWriter (Some f) old true n)
    = mkWriter (Some (f ++ concat chunks)) old true n'.
Proof.
  revert f n. induction chunks as [|d chunks IH]; intros f n; cbn [write_all concat].
  - exists n. by rewrite app_nil_r.
  - cbn. rewrite pwrite_end. destruct (IH (f ++ d) (u64_add (N.of_nat (length f)) (N.of_nat (length d)))) as [n' Hn'].
    exists n'. rewrite length_app, Nat2N.inj_add in Hn'. by rewrite Hn', <- app_assoc.
Qed.

(** A received snapshot appears whole or not at all.  After consecutive
    chunks, [finish] on a disk that does not fail puts exactly their
    concatenation at the final path; when the disk fails, or the session is
    aborted, or no [finish] is reached, the final path holds what it held
    before the session. *)
Theorem writer_atomic (existing : option bytes) (chunks : list bytes) (sync_fails rename_fails : bool) :
  let w := write_all 0 chunks (new existing) in
  final w = existing /\ final (abort w).1 = existing /\ temp (abort w).1 = None /\
  let (w', r) := finish sync_fails rename_fails w in
  if sync_fails || rename_fails then is_ok r = false /\ final w' = existing
  else r = Ok tt /\ final w' = Some (concat chunks) /\ temp w' = None.
Proof.
  intros w. destruct (write_all_concat chunks [] existing 0) as [n Hn].
  change (write_all 0 chunks (new existing) = mkWriter (Some (concat chunks)) existing true n) in Hn.
  unfold w. rewrite Hn. cbn. by destruct (sync_fails || rename_fails).
Qed.

(** [write_chunk] takes whatever position it is given: chunks out of order
    leave the final file with bytes nobody sent. *)
Lemma gap_filled_with_zeros :
  final (finish false false (write_chunk 3 [x61] (new None)).1).1 = Some [x00; x00; x00; x61].
Proof. reflexivity. Qed.

End SnapshotWriter.

Module SnapshotCoordinator.

Record CoordMetadata := mkCoordMetadata {
  last_included_index : N;
  cm_last_included_term : N;
  cm_leader_epoch : N;
  cm_voters : VotersRecord;
}.

Record CoordSnapshot := mkCoordSnapshot { metadata : CoordMetadata; data : bytes }.

(** The fields of the Raft state that [create_snapshot] reads. *)
Record RaftState := mkRaftState {
  rs_current_term : N;
  rs_commit_index : N;
  rs_voters : VotersRecord;
}.

(** [disk] maps the index in the file names to the contents. *)
Record SnapshotCoordinator := mkCoord {
  disk : gmap N bytes;
  latest : option CoordSnapshot;
}.

Definition new (d : gmap N bytes) : SnapshotCoordinator := mkCoord d None.

(** [std::fs::write] truncates the file before it writes; a failing write
    ([Some k]) leaves the first [k] bytes. *)
Definition persist_snapshot (fails : option nat) (s : CoordSnapshot) : SE SnapshotCoordinator XraftError unit :=
  fun c =>
  let path := last_included_index (metadata s) in
  match fails with
  | Some k => (mkCoord (<[path := take k (data s)]> (disk c)) (latest c), Err (IoOther "io"%string))
  | None => (mkCoord (<[path := data s]> (disk c)) (latest c), Ok tt)
  end.

Definition install_snapshot (fails : option nat) (s : CoordSnapshot) : SE SnapshotCoordinator XraftError unit :=
  fun c =>
  match persist_snapshot fails s c with
  | (c', Err e) => (c', Err e)
  | (c', Ok _) => (mkCoord (disk c') (Some s), Ok tt)
  end.

Section Log.
(** [crate::log::Log], which is not in the sources. *)
Context {Log : Type}.
Context (term_at : Log -> N -> option N).
Context (discard_before : N -> Log -> Log * Result unit).

Definition create_snapshot (fails : option nat) (st : RaftState) (leader_epoch : N) (log : Log) (d : bytes)
  : SE SnapshotCoordinator XraftError CoordSnapshot := fun c =>
  let last_index := rs_commit_index st in
  let last_term := default (rs_current_term st) (term_at log last_index) in
  let snapshot := mkCoordSnapshot (mkCoordMetadata last_index last_term leader_epoch (rs_voters st)) d in
  match persist_snapshot fails snapshot c with
  | (c', Err e) => (c', Err e)
  | (c', Ok _) => (mkCoord (disk c') (Some snapshot), Ok snapshot)
  end.

Definition compact_log (c : SnapshotCoordinator) (log : Log) : Log * Result unit :=
  match latest c with
  | Some s => discard_before (last_included_index (metadata s)) log
  | None => (log, Ok tt)
  end.

(** The latest snapshot is on disk. *)
Definition coord_ok (c : SnapshotCoordinator) : Prop :=
  match latest c with
  | Some s => disk c !! last_included_index (metadata s) = Some (data s)
  | None => True
  end.

Lemma persist_ok (fails : option nat) (s : CoordSnapshot) (c c' : SnapshotCoordinator) r :
  coord_ok c -> persist_snapshot fails s c = (c', r) ->
  latest c' = latest c /\
  match r with
  | Ok _ => disk c' !! last_included_index (metadata s) = Some (data s)
  | Err _ => (forall s0, latest c = Some s0 ->
      last_included_index (metadata s0) <> last_included_index (metadata s)) -> coord_ok c'
  end.
Proof.
  unfold persist_snapshot, coord_ok. intros Hc. destruct fails as [k|]; intros [= <- <-]; (split; [done|]); cbn.
  - destruct (latest c) as [s0|] eqn:E; [|done]. intros Hne. rewrite lookup_insert_ne; [done|].
    intros Heq. by apply (Hne s0).
  - by rewrite lookup_insert_eq.
Qed.

(** The coordinator reports snapshots that are on disk.  Creating and
    installing a snapshot keep the latest snapshot backed by its file, and a
    failed write leaves the previous snapshot in place, provided the write
    that fails is for another index; the metadata is the commit index, the
    term the log gives for it and the caller's leader epoch; compaction
    discards the log before the snapshot's index. *)
Theorem coordinator_snapshot_on_disk (fails : option nat) (st : RaftState) (leader_epoch : N) (log : Log)
    (d : bytes) (c c' : SnapshotCoordinator) r :
  coord_ok c -> create_snapshot fails st leader_epoch log d c = (c', r) ->
  (fails <> None -> forall s0, latest c = Some s0 -> last_included_index (metadata s0) <> rs_commit_index st) ->
  coord_ok c' /\
  match r with
  | Ok s => latest c' = Some s /\ data s = d /\
      metadata s = mkCoordMetadata (rs_commit_index st)
        (match term_at log (rs_commit_index st) with Some t => t | None => rs_current_term st end)
        leader_epoch (rs_voters st) /\
      compact_log c' log = discard_before (rs_commit_index st) log
  | Err _ => latest c' = latest c
  end.
Proof.
  intros Hc. unfold create_snapshot. set (s := mkCoordSnapshot _ d).
  destruct (persist_snapshot fails s c) as [c1 r1] eqn:Ep. intros Hr Hidx.
  destruct (persist_ok fails s c c1 r1 Hc Ep) as [Hl Hd]. destruct r1 as [[]|e]; injection Hr as <- <-.
  - split; [done|]. done.
  - split; [|done]. apply Hd. apply Hidx. intros ->. discriminate Ep.
Qed.
End Log.

Definition demo_voters : VotersRecord := mkVotersRecord 0 [].

Lemma coordinator_snapshot_on_disk_witness :
  exists s, latest (create_snapshot (fun (_ : unit) _ => Some 3) None (mkRaftState 5 10 demo_voters) 3 tt [x01] (new ∅)).1
    = Some s /\ cm_leader_epoch (metadata s) = 3.
Proof.
  pose proof (coordinator_snapshot_on_disk (fun (_ : unit) _ => Some 3) (fun _ l => (l, Ok tt)) None
    (mkRaftState 5 10 demo_voters) 3 tt [x01] (new ∅) _ _ I eq_refl) as H.
  destruct H as (_ & H1 & _ & H2 & _); [done|]. eexists. split; [exact H1|]. by rewrite H2.
Defined.

(** A failing write for the index of the latest snapshot destroys its file. *)
Lemma failed_write_destroys_latest :
  let c := (install_snapshot None (mkCoordSnapshot (mkCoordMetadata 10 3 3 demo_voters) [x01; x02]) (new ∅)).1 in
  let c' := (install_snapshot (Some 0%nat) (mkCoordSnapshot (mkCoordMetadata 10 3 3 demo_voters) [x07]) c).1 in
  coord_ok c /\ latest c' = latest c /\ disk c' !! 10 = Some [].
Proof. by vm_compute. Qed.

End SnapshotCoordinator.
