(* ===== verification/Channel.v ===== *)
(** * The in-process channel transport

    [channel.rs]: one bounded [tokio::sync::mpsc] queue per node.  The queue is
    tokio's: the class [Mpsc], with what tokio documents of it as the laws
    [MpscLaws] and a bounded list as an instance for demonstrations.  The queues
    live in a shared store, a handle is the index of its queue.  All senders
    are kept in one map behind an [Arc]; they are dropped together, when the
    last clone of the [Arc] goes.

    A call that cannot proceed yet ([send] on a full queue, [recv] on an empty
    one) is pending, [None], and changes nothing. *)

From Stdlib Require Import ZifyBool ZifyN ZifyNat Lia.
From stdpp Require Import base list gmap sets numbers option.
From S2P Require Import Prelude Types Tasks.

Module Channel.

(** ** [tokio::sync::mpsc] *)

(** One channel: [mpsc::channel], [None] when it panics; [Sender::send], which
    gives the message back when it fails; [Receiver::recv], told whether any
    sender is left; dropping the receiver.  [None] of the two calls that await
    is pending. *)
Class Mpsc (C : Type) := {
  ch_channel : N -> option C;
  ch_send : RpcEnvelope -> C -> option (C * result unit RpcEnvelope);
  ch_recv : bool -> C -> option (C * option RpcEnvelope);
  ch_drop_receiver : C -> C;
}.

(** [Semaphore::MAX_PERMITS], [usize::MAX >> 3]. *)
Definition MAX_PERMITS : N := 2305843009213693951.

(** What tokio documents.  The capacity is between one and the maximum; [send]
    fails once the receiver is gone, waits while the channel is at capacity and
    otherwise adds the message at the end; [recv] takes the oldest message,
    waits on an empty channel and ends when moreover all senders are gone;
    dropping the receiver closes the channel and drops what is in it. *)
Class MpscLaws (C : Type) `{Mpsc C} := {
  capacity : C -> N;
  queue : C -> list RpcEnvelope;
  rx_alive : C -> bool;
  ch_channel_ok : forall n, 0 < n <= MAX_PERMITS ->
    exists ch, ch_channel n = Some ch /\ capacity ch = n /\ queue ch = [] /\ rx_alive ch = true;
  ch_channel_panics : forall n, n = 0 \/ MAX_PERMITS < n -> ch_channel n = None;
  ch_send_closed : forall msg ch, rx_alive ch = false -> ch_send msg ch = Some (ch, Err msg);
  ch_send_full : forall msg ch, rx_alive ch = true -> capacity ch <= N.of_nat (length (queue ch)) ->
    ch_send msg ch = None;
  ch_send_room : forall msg ch, rx_alive ch = true -> N.of_nat (length (queue ch)) < capacity ch ->
    exists ch', ch_send msg ch = Some (ch', Ok tt) /\ queue ch' = queue ch ++ [msg] /\
      capacity ch' = capacity ch /\ rx_alive ch' = true;
  ch_recv_message : forall senders msg q ch, queue ch = msg :: q ->
    exists ch', ch_recv senders ch = Some (ch', Some msg) /\ queue ch' = q /\
      capacity ch' = capacity ch /\ rx_alive ch' = rx_alive ch;
  ch_recv_waits : forall ch, queue ch = [] -> ch_recv true ch = None;
  ch_recv_ended : forall ch, queue ch = [] -> ch_recv false ch = Some (ch, None);
  ch_dropped : forall ch, queue (ch_drop_receiver ch) = [] /\ rx_alive (ch_drop_receiver ch) = false /\
    capacity (ch_drop_receiver ch) = capacity ch;
}.

Abbreviation ChanId := nat (only parsing).

(** The channels, and the number of clones of the [Arc] that holds the senders. *)
Record Mesh (C : Type) := mkMesh { chans : list C; arcs : nat }.
#[global] Arguments mkMesh {C} chans arcs.
#[global] Arguments chans {C} m.
#[global] Arguments arcs {C} m.

Abbreviation Inboxes := (gmap NodeId ChanId) (only parsing).

Record ChannelTransport := mkTransport { inboxes : Inboxes; receivers : gmap NodeId ChanId }.
Record ChannelSender := mkSender { cs_inboxes : Inboxes }.
Record ChannelReceiver := mkReceiver { cr_rx : ChanId }.

Section Mesh.
Context {C : Type} `{Mpsc C}.
Implicit Types m : Mesh C.

Definition mpsc_channel (buffer : N) m : option (ChanId * Mesh C) :=
  match ch_channel buffer with
  | Some ch => Some (length (chans m), mkMesh (chans m ++ [ch]) (arcs m))
  | None => None
  end.

Definition mpsc_send (c : ChanId) (msg : RpcEnvelope) m : option (Mesh C * result unit RpcEnvelope) :=
  match chans m !! c with
  | Some ch =>
      match ch_send msg ch with
      | Some (ch', r) => Some (mkMesh (<[c := ch']> (chans m)) (arcs m), r)
      | None => None
      end
  | None => Some (m, Err msg)
  end.

Definition mpsc_recv (c : ChanId) m : option (Mesh C * option RpcEnvelope) :=
  match chans m !! c with
  | Some ch =>
      match ch_recv (negb (arcs m =? 0)%nat) ch with
      | Some (ch', o) => Some (mkMesh (<[c := ch']> (chans m)) (arcs m), o)
      | None => None
      end
  | None => Some (m, None)
  end.

Definition drop_receiver (c : ChanId) m : Mesh C :=
  match chans m !! c with
  | Some ch => mkMesh (<[c := ch_drop_receiver ch]> (chans m)) (arcs m)
  | None => m
  end.

Definition arc_clone m : Mesh C := mkMesh (chans m) (S (arcs m)).
Definition arc_drop m : Mesh C := mkMesh (chans m) (pred (arcs m)).

(** ** [ChannelTransport] *)

(** [receivers.insert]: a receiver that was there before is dropped. *)
Definition insert_receiver (n : NodeId) (c : ChanId) (rs : gmap NodeId ChanId) m
  : gmap NodeId ChanId * Mesh C :=
  (<[n := c]> rs, match rs !! n with Some c0 => drop_receiver c0 m | None => m end).

Fixpoint new_loop (node_ids : list NodeId) (buffer_size : N)
    (senders rs : gmap NodeId ChanId) m : option (ChannelTransport * Mesh C) :=
  match node_ids with
  | [] => Some (mkTransport senders rs, arc_clone m)
  | n :: node_ids' =>
      match mpsc_channel buffer_size m with
      | None => None
      | Some (c, m1) =>
          let '(rs', m2) := insert_receiver n c rs m1 in
          new_loop node_ids' buffer_size (<[n := c]> senders) rs' m2
      end
  end.

Definition new (node_ids : list NodeId) (buffer_size : N) : option (ChannelTransport * Mesh C) :=
  new_loop node_ids buffer_size ∅ ∅ (mkMesh [] 0).

(** [inboxes()] clones the [Arc]. *)
Definition inboxes_handle (t : ChannelTransport) m : Inboxes * Mesh C :=
  (inboxes t, arc_clone m).

Definition take_receiver (n : NodeId) (t : ChannelTransport)
  : ChannelTransport * option ChanId :=
  (mkTransport (inboxes t) (delete n (receivers t)), receivers t !! n).

Fixpoint split_loop (node_ids : list NodeId) (t : ChannelTransport) m
    (res : gmap NodeId (ChannelSender * ChannelReceiver))
  : option (gmap NodeId (ChannelSender * ChannelReceiver) * Mesh C) :=
  match node_ids with
  | [] => Some (res, arc_drop m)
  | n :: node_ids' =>
      let '(t', rx) := take_receiver n t in
      match rx with
      | None => None
      | Some c =>
          split_loop node_ids' t' (arc_clone m)
            (<[n := (mkSender (inboxes t), mkReceiver c)]> res)
      end
  end.

(** The transport is consumed: its own clone of the [Arc] is dropped. *)
Definition split (t : ChannelTransport) m
  : option (gmap NodeId (ChannelSender * ChannelReceiver) * Mesh C) :=
  split_loop (map_to_list (receivers t)).*1 t m ∅.

(** ** The two halves *)

Definition send (s : ChannelSender) (target : NodeId) (message : RpcEnvelope)
  : Task (Mesh C) (result unit XraftError) :=
  match cs_inboxes s !! target with
  | None => Done (Err IoNotFound)
  | Some tx =>
      r <-- await (mpsc_send tx message) ;;
      Done (result_map_err (fun _ => IoConnectionReset) r)
  end.

Definition recv (r : ChannelReceiver) : Task (Mesh C) (result RpcEnvelope XraftError) :=
  o <-- await (mpsc_recv (cr_rx r)) ;;
  Done (match o with Some msg => Ok msg | None => Err IoConnectionReset end).

Lemma task_run_send s target msg m :
  task_run (send s target msg) m =
  match cs_inboxes s !! target with
  | None => Some (m, Err IoNotFound, 0)
  | Some tx => match mpsc_send tx msg m with
               | Some (m', Ok _) => Some (m', Ok tt, 0)
               | Some (m', Err _) => Some (m', Err IoConnectionReset, 0)
               | None => None
               end
  end.
Proof.
  unfold send. destruct (_ !! _); [|done]. cbn.
  by destruct (mpsc_send _ _ _) as [[m' [[]|?]]|].
Qed.

Lemma task_run_recv r m :
  task_run (recv r) m =
  match mpsc_recv (cr_rx r) m with
  | Some (m', Some msg) => Some (m', Ok msg, 0)
  | Some (m', None) => Some (m', Err IoConnectionReset, 0)
  | None => None
  end.
Proof. unfold recv. cbn. by destruct (mpsc_recv _ _) as [[m' [?|]]|]. Qed.

(** ** What the calls do to a mesh *)

Context `{!MpscLaws C}.

Lemma mpsc_send_spec c msg m ch :
  chans m !! c = Some ch ->
  (rx_alive ch = false /\ mpsc_send c msg m = Some (m, Err msg)) \/
  (rx_alive ch = true /\ capacity ch <= N.of_nat (length (queue ch)) /\ mpsc_send c msg m = None) \/
  (rx_alive ch = true /\ N.of_nat (length (queue ch)) < capacity ch /\
   exists ch', mpsc_send c msg m = Some (mkMesh (<[c := ch']> (chans m)) (arcs m), Ok tt) /\
     queue ch' = queue ch ++ [msg] /\ capacity ch' = capacity ch /\ rx_alive ch' = true).
Proof.
  intros Hc. unfold mpsc_send. rewrite Hc. destruct (rx_alive ch) eqn:Ea; [right|left].
  - destruct (decide (N.of_nat (length (queue ch)) < capacity ch)) as [Hl|Hl]; [right|left].
    + destruct (ch_send_room msg ch Ea Hl) as (ch' & -> & ?). split_and!; [done|done|]. by exists ch'.
    + rewrite ch_send_full by (done || lia). split_and!; [done|lia|done].
  - rewrite ch_send_closed, list_insert_id by done. by destruct m.
Qed.

Lemma mpsc_recv_spec c m ch :
  chans m !! c = Some ch ->
  (queue ch = [] /\ mpsc_recv c m = if (arcs m =? 0)%nat then Some (m, None) else None) \/
  (exists msg q ch', queue ch = msg :: q /\
     mpsc_recv c m = Some (mkMesh (<[c := ch']> (chans m)) (arcs m), Some msg) /\
     queue ch' = q /\ capacity ch' = capacity ch /\ rx_alive ch' = rx_alive ch).
Proof.
  intros Hc. unfold mpsc_recv. rewrite Hc. destruct (queue ch) as [|msg q] eqn:Eq; [left|right].
  - split; [done|]. destruct (arcs m =? 0)%nat; cbn [negb].
    + rewrite ch_recv_ended, list_insert_id by done. by destruct m.
    + by rewrite ch_recv_waits.
  - destruct (ch_recv_message (negb (arcs m =? 0)%nat) msg q ch Eq) as (ch' & -> & ?). by exists msg, q, ch'.
Qed.

(** ** A mesh nobody has used yet

    Every inbox leads to an empty channel of its own with the configured
    capacity. *)

Definition fresh_chan (cap : N) (ch : C) : Prop :=
  capacity ch = cap /\ queue ch = [] /\ rx_alive ch = true.

Definition fresh (inb : Inboxes) (cap : N) m : Prop :=
  (forall n c, inb !! n = Some c -> exists ch, chans m !! c = Some ch /\ fresh_chan cap ch) /\
  (forall n1 n2 c, inb !! n1 = Some c -> inb !! n2 = Some c -> n1 = n2).

Lemma fresh_lt inb cap m n c : fresh inb cap m -> inb !! n = Some c -> (c < length (chans m))%nat.
Proof. intros [Hf _] Hn. destruct (Hf _ _ Hn) as (ch & Hc & _). by eapply lookup_lt_Some. Qed.

(** One more node, whose old receiver, if it had one, is dropped. *)
Lemma fresh_insert inb cap m n ch :
  fresh inb cap m -> fresh_chan cap ch ->
  let m1 := mkMesh (chans m ++ [ch]) (arcs m) in
  let m2 := match inb !! n with Some c0 => drop_receiver c0 m1 | None => m1 end in
  fresh (<[n := length (chans m)]> inb) cap m2 /\ arcs m2 = arcs m.
Proof.
  intros Hfr Hch m1 m2. pose proof Hfr as [Hf Hi].
  assert (forall k c, inb !! k = Some c -> (c < length (chans m))%nat) as Hlt by (intros; by eapply fresh_lt).
  assert (forall c, inb !! n <> Some c -> chans m2 !! c = chans m1 !! c) as Hsame.
  { intros c Hc. subst m2. destruct (inb !! n) as [c0|]; [|done]. unfold drop_receiver.
    destruct (chans m1 !! c0); [|done]. cbn [chans]. rewrite list_lookup_insert_ne; [done|]. congruence. }
  split; [split|].
  - intros k c. destruct (decide (k = n)) as [->|Hk].
    + rewrite lookup_insert_eq. intros [= <-]. exists ch. split; [|done].
      rewrite Hsame by (intros ?%Hlt; lia). subst m1. cbn. by apply list_lookup_middle.
    + rewrite lookup_insert_ne by done. intros Hc. destruct (Hf _ _ Hc) as (ch0 & Hc0 & Hf0).
      exists ch0. split; [|done]. rewrite Hsame by (intros ?; apply Hk; eauto). subst m1. cbn.
      by apply lookup_app_l_Some.
  - intros n1 n2 c. destruct (decide (n1 = n)) as [->|]; destruct (decide (n2 = n)) as [->|];
      rewrite ?lookup_insert_eq, ?lookup_insert_ne by done; intros; simplify_eq; eauto;
      match goal with Hl : inb !! _ = Some _ |- _ => apply Hlt in Hl end; lia.
  - subst m2 m1. destruct (inb !! n); [|done]. unfold drop_receiver. by destruct (_ !! _).
Qed.

Lemma new_loop_spec (ids : list NodeId) (buf : N) :
  0 < buf <= MAX_PERMITS -> forall inb m,
  fresh inb buf m ->
  exists inb' m', new_loop ids buf inb inb m = Some (mkTransport inb' inb', arc_clone m') /\
    fresh inb' buf m' /\ arcs m' = arcs m /\ dom inb' = dom inb ∪ list_to_set ids.
Proof.
  intros Hbuf. induction ids as [|n ids IH]; intros inb m Hf; cbn [new_loop].
  - exists inb, m. split_and!; [done..|set_solver].
  - unfold mpsc_channel. destruct (ch_channel_ok buf Hbuf) as (ch & -> & Hch). unfold insert_receiver.
    destruct (fresh_insert inb buf m n ch Hf) as [Hf2 Ha]; [by destruct Hch as (? & ? & ?)|].
    destruct (IH _ _ Hf2) as (inb' & m' & He & Hf' & Ha' & Hd). exists inb', m'.
    split_and!; [done..|congruence|]. rewrite Hd. set_solver.
Qed.

(** The mesh is built exactly when tokio accepts the capacity. *)
Lemma new_spec (ids : list NodeId) (buf : N) :
  0 < buf <= MAX_PERMITS ->
  exists inb m, new ids buf = Some (mkTransport inb inb, m) /\
    fresh inb buf m /\ arcs m = 1%nat /\ dom inb = list_to_set ids.
Proof.
  intros Hbuf. destruct (new_loop_spec ids buf Hbuf ∅ (mkMesh [] 0)) as (inb & m & He & Hf & Ha & Hd).
  { split; set_solver. }
  exists inb, (arc_clone m). split_and!; [done| |cbn; by rewrite Ha|set_solver].
  exact Hf.
Qed.

Lemma new_panics (n : NodeId) (ids : list NodeId) (buf : N) :
  buf = 0 \/ MAX_PERMITS < buf -> new (n :: ids) buf = None.
Proof. intros Hb. unfold new. cbn [new_loop]. unfold mpsc_channel. by rewrite ch_channel_panics. Qed.

Lemma new_Some (ids : list NodeId) (buf : N) t m :
  new ids buf = Some (t, m) ->
  exists inb, t = mkTransport inb inb /\ fresh inb buf m /\ arcs m = 1%nat /\
    dom inb = list_to_set ids.
Proof.
  intros Hnew. destruct ids as [|n ids].
  - cbn in Hnew. simplify_eq. exists ∅. split_and!; [done| |done|set_solver]. split; set_solver.
  - destruct (decide (0 < buf <= MAX_PERMITS)) as [Hb|Hb]; [|by rewrite new_panics in Hnew by lia].
    destruct (new_spec (n :: ids) buf Hb) as (inb & m' & He & ?). rewrite He in Hnew.
    simplify_eq. eauto.
Qed.

Lemma split_loop_spec (ids : list NodeId) : NoDup ids ->
  forall t m res,
  (forall n, n ∈ ids -> is_Some (receivers t !! n)) ->
  exists res' m', split_loop ids t m res = Some (res', m') /\
    chans m' = chans m /\ arcs m' = pred (length ids + arcs m) /\
    forall n, res' !! n = if decide (n ∈ ids)
                          then (fun c => (mkSender (inboxes t), mkReceiver c)) <$> receivers t !! n
                          else res !! n.
Proof.
  induction 1 as [|n ids Hn Hnd IH]; intros t m res Hall; cbn [split_loop].
  - exists res, (arc_drop m). done.
  - destruct (Hall n) as [c Hc]; [set_solver|]. cbn. rewrite Hc.
    destruct (IH (mkTransport (inboxes t) (delete n (receivers t))) (arc_clone m)
                 (<[n := (mkSender (inboxes t), mkReceiver c)]> res))
      as (res' & m' & He & Hch & Har & Hres).
    { intros k Hk. cbn. rewrite lookup_delete_ne by (intros ->; done). apply Hall. set_solver. }
    exists res', m'. split_and!; [done|done|rewrite Har; cbn; lia|].
    intros k. rewrite Hres. destruct (decide (k = n)) as [->|Hk].
    + rewrite decide_False by done. rewrite lookup_insert_eq, decide_True by set_solver.
      by rewrite Hc.
    + cbn [receivers inboxes]. rewrite lookup_delete_ne, lookup_insert_ne by done.
      destruct (decide (k ∈ ids)); [rewrite decide_True by set_solver|rewrite decide_False by set_solver];
        done.
Qed.

(** Splitting never panics; each node of the mesh gets the shared senders and
    its own receiver. *)
Lemma split_spec (t : ChannelTransport) m :
  exists res m', split t m = Some (res, m') /\
    chans m' = chans m /\ arcs m' = pred (size (receivers t) + arcs m) /\
    forall n, res !! n = (fun c => (mkSender (inboxes t), mkReceiver c)) <$> receivers t !! n.
Proof.
  unfold split.
  destruct (split_loop_spec (map_to_list (receivers t)).*1 (NoDup_fst_map_to_list _) t m ∅)
    as (res & m' & He & Hch & Har & Hres).
  { intros n ([k c] & -> & Hin)%list_elem_of_fmap. apply elem_of_map_to_list in Hin. eauto. }
  exists res, m'. split_and!; [done..| |].
  - rewrite Har, length_fmap, length_map_to_list. done.
  - intros n. rewrite Hres. destruct (decide _) as [Hin|Hin]; [done|].
    destruct (receivers t !! n) as [c|] eqn:E; [|done]. destruct Hin.
    apply list_elem_of_fmap. exists (n, c). split; [done|]. by apply elem_of_map_to_list.
Qed.

(** A send that waits because the queue of its target is full goes
    through as soon as the target receives once: the receive completes at
    once with the oldest message of the queue, and then so does the send. *)
Theorem full_send_resumes (inb : Inboxes) m (target : NodeId) (c : ChanId) (ch : C) (msg : RpcEnvelope) :
  chans m !! c = Some ch -> 0 < capacity ch -> N.of_nat (length (queue ch)) <= capacity ch ->
  inb !! target = Some c ->
  task_run (send (mkSender inb) target msg) m = None ->
  exists oldest m1 m2 ch2,
    task_run (recv (mkReceiver c)) m = Some (m1, Ok oldest, 0) /\
    task_run (send (mkSender inb) target msg) m1 = Some (m2, Ok tt, 0) /\
    head (queue ch) = Some oldest /\ chans m2 !! c = Some ch2 /\ queue ch2 = tail (queue ch) ++ [msg].
Proof.
  intros Hl Hcap Hlen Hc. pose proof (lookup_lt_Some _ _ _ Hl) as Hlt. rewrite task_run_send. cbn [cs_inboxes].
  rewrite Hc. destruct (mpsc_send_spec c msg m ch Hl) as [(Ea & ->)|[(Ea & Hfull & ->)|(Ea & _ & ch' & -> & _)]];
    [done| |done]. intros _.
  destruct (mpsc_recv_spec c m ch Hl) as [[Eq _]|(oldest & q & ch1 & Eq & Er & Hq & Hcap1 & Ha1)];
    [rewrite Eq in Hfull; cbn in Hfull; lia|].
  set (m1 := mkMesh (<[c := ch1]> (chans m)) (arcs m)).
  assert (chans m1 !! c = Some ch1) as Hl1 by (by apply list_lookup_insert_eq).
  assert (N.of_nat (length (queue ch1)) < capacity ch1) as Hroom by (rewrite Hq, Hcap1; rewrite Eq in Hlen; cbn in Hlen; lia).
  destruct (mpsc_send_spec c msg m1 ch1 Hl1) as [(Ea1 & _)|[(_ & Hf1 & _)|(_ & _ & ch2 & Es & Hq2 & _)]];
    [congruence|lia|].
  exists oldest, m1, (mkMesh (<[c := ch2]> (chans m1)) (arcs m1)), ch2.
  rewrite task_run_recv, task_run_send. cbn [cr_rx cs_inboxes]. rewrite Hc, Er, Es, Eq. split_and!; try done.
  - apply list_lookup_insert_eq. by eapply lookup_lt_Some.
  - cbn. by rewrite Hq2, Hq.
Qed.

(** Sending to a node outside the mesh and to a dropped receiver. *)
Lemma send_errors (inb : Inboxes) m (target : NodeId) (msg : RpcEnvelope) :
  (inb !! target = None ->
   task_run (send (mkSender inb) target msg) m = Some (m, Err IoNotFound, 0)) /\
  (forall c ch, inb !! target = Some c -> chans m !! c = Some ch -> rx_alive ch = false ->
   task_run (send (mkSender inb) target msg) m = Some (m, Err IoConnectionReset, 0)).
Proof.
  split; rewrite task_run_send; cbn [cs_inboxes]; [by intros ->|]. intros c ch -> Hc Ha.
  by destruct (mpsc_send_spec c msg m ch Hc) as [(_ & ->)|[(? & _)|(? & _)]]; [|congruence..].
Qed.
End Mesh.

(** ** Demonstration: a channel as a bounded list *)

Record Chan := mkChan { chan_capacity : N; chan_queue : list RpcEnvelope; chan_alive : bool }.

#[global] Instance list_Mpsc : Mpsc Chan := {|
  ch_channel n := if (n =? 0) || (MAX_PERMITS <? n) then None else Some (mkChan n [] true);
  ch_send msg ch :=
    if negb (chan_alive ch) then Some (ch, Err msg)
    else if N.of_nat (length (chan_queue ch)) <? chan_capacity ch
    then Some (mkChan (chan_capacity ch) (chan_queue ch ++ [msg]) true, Ok tt)
    else None;
  ch_recv senders ch :=
    match chan_queue ch with
    | msg :: q => Some (mkChan (chan_capacity ch) q (chan_alive ch), Some msg)
    | [] => if senders : bool then None else Some (ch, None)
    end;
  ch_drop_receiver ch := mkChan (chan_capacity ch) [] false;
|}.

#[global] Instance list_MpscLaws : MpscLaws Chan.
Proof.
  refine {| capacity := chan_capacity; queue := chan_queue; rx_alive := chan_alive |}; cbn.
  - intros n Hn. destruct (_ || _) eqn:E; [unfold MAX_PERMITS in *; lia|]. by eexists.
  - intros n Hn. destruct (_ || _) eqn:E; [done|lia].
  - by intros msg ch ->.
  - intros msg ch -> Hl. cbn. destruct (_ <? _) eqn:E; [lia|done].
  - intros msg ch -> Hl. cbn. destruct (_ <? _) eqn:E; [|lia]. by eexists.
  - intros senders msg q ch ->. by eexists.
  - by intros ch ->.
  - by intros ch ->.
  - done.
Defined.

Definition ping (k : N) : RpcEnvelope :=
  mkRpcEnvelope 1 k 1 (PVoteResponse (mkVoteResponse k true false)).

Lemma full_send_resumes_witness :
  exists oldest m1 m2 ch2,
    task_run (recv (mkReceiver 0)) (mkMesh [mkChan 1 [ping 0] true] 1) = Some (m1, Ok oldest, 0) /\
    task_run (send (mkSender {[5 := 0%nat]}) 5 (ping 1)) m1 = Some (m2, Ok tt, 0) /\
    chans m2 !! 0%nat = Some ch2.
Proof.
  destruct (full_send_resumes {[5 := 0%nat]} (mkMesh [mkChan 1 [ping 0] true] 1) 5 0 (mkChan 1 [ping 0] true) (ping 1))
    as (oldest & m1 & m2 & ch2 & H1 & H2 & _ & H3 & _); [done|by vm_compute|by vm_compute|apply lookup_singleton_eq|by vm_compute|].
  exists oldest, m1, m2, ch2. split; [exact H1|]. split; [exact H2|exact H3].
Defined.

End Channel.
