(* ===== verification/Simulator.v ===== *)
(** * The network simulator

    [simulator.rs]: a transport over the channel mesh of [Channel] that drops,
    delays and reorders messages and partitions links, driven by a seeded
    random generator.  The generator ([rand::rngs::StdRng]) is the class [Rng]
    with the documented ranges as its laws.

    The operations are tasks ([Tasks]).  Each block of the source that holds a
    guard of the shared state is two actions: taking the lock, which may have
    to wait, and the block with the drop of the guard at its end; awaiting an
    inbox is one.  Every interleaving of concurrent senders, flushes and
    configuration changes is a run of the system defined below. *)

From Stdlib Require Import ZifyBool ZifyN ZifyNat Lia QArith.
From stdpp Require Import base list gmap sets numbers option.
From S2P Require Import Prelude Types Tasks Channel.

#[local] Open Scope N_scope.

(** ** Floating point

    The values of an [f64] that the code can tell apart by comparing: a
    rational, an infinity, or not a number. *)

Inductive f64 := Fin (q : Q) | Infinite (negative : bool) | NaN.

(** IEEE [<]: false when an argument is not a number. *)
Definition f64_lt (a b : f64) : bool :=
  match a, b with
  | NaN, _ | _, NaN => false
  | Fin x, Fin y => negb (Qle_bool y x)
  | Fin _, Infinite neg => negb neg
  | Infinite neg, Fin _ => neg
  | Infinite na, Infinite nb => na && negb nb
  end.

(** [f64::clamp]. *)
Definition f64_clamp (lo hi x : f64) : f64 :=
  if f64_lt x lo then lo else if f64_lt hi x then hi else x.

(** ** The random generator *)

Class Rng (R : Type) := {
  seed_from_u64 : N -> R;
  rng_gen : R -> R * f64;
  rng_gen_range : N -> N -> R -> R * N;
  rng_shuffle : list RpcEnvelope -> R -> R * list RpcEnvelope;
}.

(** What [rand] documents: [gen::<f64>()] is in [0, 1), [gen_range(lo..=hi)]
    in the range when it is not empty, [shuffle] permutes. *)
Class RngLaws (R : Type) `{Rng R} := {
  rng_gen_unit : forall r, exists q, (rng_gen r).2 = Fin q /\ (0 <= q)%Q /\ (q < 1)%Q;
  rng_gen_range_in : forall lo hi r, lo <= hi -> lo <= (rng_gen_range lo hi r).2 <= hi;
  rng_shuffle_perm : forall l r, (rng_shuffle l r).2 ≡ₚ l;
}.

Module Simulator.

Section Simulator.
Context {R : Type} `{!Rng R} {K : Type} `{!RwLock K} {C : Type} `{!Channel.Mpsc C}.

(** ** State *)

Record LinkRules := mkLinkRules {
  drop_probability : f64;
  (** Nanoseconds. *)
  delay_range : option (Duration * Duration);
  reorder : bool;
}.

Definition default_rules : LinkRules := mkLinkRules (Fin 0) None false.

Abbreviation Link := (NodeId * NodeId)%type (only parsing).

Record SimulatorState := mkState {
  link_rules : gmap Link LinkRules;
  partitions : gset Link;
  reorder_buffers : gmap Link (list RpcEnvelope);
  rng : R;
}.

(** The state, the [RwLock] around it and the queues of the channel transport. *)
Record World := mkWorld { sim : SimulatorState; lock : K; mesh : Channel.Mesh C }.

Definition set_sim (s : SimulatorState) (w : World) : World := mkWorld s (lock w) (mesh w).
Definition set_lock (l : K) (w : World) : World := mkWorld (sim w) l (mesh w).
Definition set_mesh (m : Channel.Mesh C) (w : World) : World := mkWorld (sim w) (lock w) m.

(** Nobody holds a guard. *)
Definition unlocked (s : SimulatorState) (m : Channel.Mesh C) : World := mkWorld s rw_new m.

Record NetworkSimulator := mkSimulator { ns_inboxes : gmap NodeId nat }.
Record SimulatorSender := mkSender { ss_source : NodeId; ss_inboxes : gmap NodeId nat }.
Record SimulatorReceiver := mkReceiver { sr_rx : nat }.

(** ** Creation *)

Fixpoint create_loop (node_ids : list NodeId) (inb : gmap NodeId nat)
    (t : Channel.ChannelTransport) (m : Channel.Mesh C)
    (res : gmap NodeId (SimulatorSender * SimulatorReceiver))
  : option (gmap NodeId (SimulatorSender * SimulatorReceiver) * Channel.Mesh C) :=
  match node_ids with
  | [] => Some (res, m)
  | n :: node_ids' =>
      let '(t', rx) := Channel.take_receiver n t in
      match rx with
      | None => None
      | Some c =>
          create_loop node_ids' inb t' (Channel.arc_clone m)
            (<[n := (mkSender n inb, mkReceiver c)]> res)
      end
  end.

(** Panics when tokio refuses the capacity or an id occurs twice (its
    receiver can be taken once).  The transport and the local handle to the
    inboxes are dropped at the end. *)
Definition create (node_ids : list NodeId) (buffer_size seed : N)
  : option (NetworkSimulator * gmap NodeId (SimulatorSender * SimulatorReceiver) * World) :=
  match Channel.new node_ids buffer_size with
  | None => None
  | Some (transport, m) =>
      let '(inb, m) := Channel.inboxes_handle transport m in
      let state := mkState ∅ ∅ ∅ (seed_from_u64 seed) in
      let m := Channel.arc_clone m in
      match create_loop node_ids inb transport m ∅ with
      | None => None
      | Some (res, m) =>
          Some (mkSimulator inb, res, unlocked state (Channel.arc_drop (Channel.arc_drop m)))
      end
  end.

(** ** Fault configuration *)

(** [link_rules.entry(link).or_default()] *)
Definition rules_entry (link : Link) (s : SimulatorState) : LinkRules :=
  default default_rules (link_rules s !! link).

Definition with_rules (link : Link) (r : LinkRules) (s : SimulatorState) : SimulatorState :=
  mkState (<[link := r]> (link_rules s)) (partitions s) (reorder_buffers s) (rng s).

Definition set_drop_probability (from to : NodeId) (probability : f64) (s : SimulatorState)
  : SimulatorState :=
  let r := rules_entry (from, to) s in
  with_rules (from, to)
    (mkLinkRules (f64_clamp (Fin 0) (Fin 1) probability) (delay_range r) (reorder r)) s.

Definition set_delay (from to : NodeId) (min_delay max_delay : Duration) (s : SimulatorState)
  : SimulatorState :=
  let '(lo, hi) := if max_delay <? min_delay then (max_delay, min_delay)
                   else (min_delay, max_delay) in
  let r := rules_entry (from, to) s in
  with_rules (from, to) (mkLinkRules (drop_probability r) (Some (lo, hi)) (reorder r)) s.

Definition clear_delay (from to : NodeId) (s : SimulatorState) : SimulatorState :=
  match link_rules s !! (from, to) with
  | Some r => with_rules (from, to) (mkLinkRules (drop_probability r) None (reorder r)) s
  | None => s
  end.

Definition enable_reordering (from to : NodeId) (s : SimulatorState) : SimulatorState :=
  let r := rules_entry (from, to) s in
  let s := with_rules (from, to) (mkLinkRules (drop_probability r) (delay_range r) true) s in
  mkState (link_rules s) (partitions s)
    (<[(from, to) := default [] (reorder_buffers s !! (from, to))]> (reorder_buffers s)) (rng s).

Definition with_partitions (ps : gset Link) (s : SimulatorState) : SimulatorState :=
  mkState (link_rules s) ps (reorder_buffers s) (rng s).

Definition partition (set_a set_b : list NodeId) (s : SimulatorState) : SimulatorState :=
  with_partitions
    (foldl (fun ps a => foldl (fun ps b => {[(b, a)]} ∪ ({[(a, b)]} ∪ ps)) ps set_b)
       (partitions s) set_a) s.

Definition partition_one_way (from to : NodeId) (s : SimulatorState) : SimulatorState :=
  with_partitions ({[(from, to)]} ∪ partitions s) s.

Definition heal_partition (s : SimulatorState) : SimulatorState := with_partitions ∅ s.

Definition heal_link (from to : NodeId) (s : SimulatorState) : SimulatorState :=
  with_partitions (partitions s ∖ {[(from, to)]}) s.

Definition reset (s : SimulatorState) : SimulatorState := mkState ∅ ∅ ∅ (rng s).

Definition is_partitioned (from to : NodeId) (s : SimulatorState) : bool :=
  bool_decide ((from, to) ∈ partitions s).

(** ** The lock *)

Inductive Guard := Reading | Writing.
#[export] Instance Guard_eq_dec : EqDecision Guard.
Proof. solve_decision. Defined.

Definition guard_take (g : Guard) : K -> option K :=
  match g with Reading => rw_read | Writing => rw_write end.
Definition guard_drop (g : Guard) : K -> K :=
  match g with Reading => rw_drop_read | Writing => rw_drop_write end.

(** [self.state.read().await] and [self.state.write().await] *)
Definition acquire (g : Guard) : Task World unit :=
  await (fun w => option_map (fun l => (set_lock l w, tt)) (guard_take g (lock w))).

(** [{ let state = self.state.read().await; ... }] *)
Definition read_guard {A} (f : SimulatorState -> A) : Task World A :=
  _ <-- acquire Reading ;;
  await (fun w => Some (set_lock (guard_drop Reading (lock w)) w, f (sim w))).

(** [{ let mut state = self.state.write().await; ... }] *)
Definition write_guard {A} (f : SimulatorState -> SimulatorState * A) : Task World A :=
  _ <-- acquire Writing ;;
  await (fun w => Some (set_lock (guard_drop Writing (lock w)) (set_sim (f (sim w)).1 w), (f (sim w)).2)).

(** ** Sending *)

(** The rules of a link as read under the lock. *)
Record Snapshot := mkSnapshot {
  snap_partitioned : bool;
  snap_drop : f64;
  snap_delay : option (Duration * Duration);
  snap_reorder : bool;
}.

Definition read_rules (link : Link) (s : SimulatorState) : Snapshot :=
  let rules := link_rules s !! link in
  mkSnapshot (bool_decide (link ∈ partitions s))
    (match rules with Some r => drop_probability r | None => Fin 0 end)
    (match rules with Some r => delay_range r | None => None end)
    (match rules with Some r => reorder r | None => false end).

(** A draw from the generator. *)
Definition draw {A} (f : R -> R * A) (s : SimulatorState) : SimulatorState * A :=
  let '(r, a) := f (rng s) in
  (mkState (link_rules s) (partitions s) (reorder_buffers s) r, a).

(** Whether the message is dropped: a draw only when the probability is
    positive. *)
Definition drop_check (drop_prob : f64) : Task World bool :=
  if f64_lt (Fin 0) drop_prob then
    roll <-- write_guard (draw rng_gen) ;; Done (f64_lt roll drop_prob)
  else Done false.

(** [Duration::from_nanos(u64::try_from(nanos).unwrap_or(u64::MAX))] *)
Definition from_nanos (nanos : N) : Duration :=
  if nanos <=? u64_max then nanos else u64_max.

Definition delay_wait (range : option (Duration * Duration)) : Task World unit :=
  match range with
  | None => Done tt
  | Some (min_d, max_d) =>
      delay <-- (if max_d <=? min_d then Done min_d
                 else nanos <-- write_guard (draw (rng_gen_range min_d max_d)) ;;
                      Done (from_nanos nanos)) ;;
      sleep delay
  end.

Definition inbox_send (tx : nat) (msg : RpcEnvelope) (w : World)
  : option (World * result unit RpcEnvelope) :=
  match Channel.mpsc_send tx msg (mesh w) with
  | Some (m, r) => Some (set_mesh m w, r)
  | None => None
  end.

Definition deliver (inb : gmap NodeId nat) (to : NodeId) (msg : RpcEnvelope)
  : Task World (result unit XraftError) :=
  match inb !! to with
  | None => Done (Err IoNotFound)
  | Some tx =>
      r <-- await (inbox_send tx msg) ;;
      Done (result_map_err (fun _ => IoConnectionReset) r)
  end.

Definition apply_faults_and_deliver (inb : gmap NodeId nat) (from to : NodeId)
    (message : RpcEnvelope) : Task World (result unit XraftError) :=
  snap <-- read_guard (read_rules (from, to)) ;;
  if snap_partitioned snap then Done (Ok tt)
  else
    dropped <-- drop_check (snap_drop snap) ;;
    if dropped : bool then Done (Ok tt)
    else
      _ <-- delay_wait (snap_delay snap) ;;
      deliver inb to message.

(** [reorder_buffers.entry(link).or_default().push(message)] *)
Definition push_buffer (link : Link) (msg : RpcEnvelope) (s : SimulatorState) : SimulatorState * unit :=
  (mkState (link_rules s) (partitions s)
     (<[link := default [] (reorder_buffers s !! link) ++ [msg]]> (reorder_buffers s)) (rng s), tt).

Definition send (sender : SimulatorSender) (target : NodeId) (message : RpcEnvelope)
  : Task World (result unit XraftError) :=
  let link := (ss_source sender, target) in
  snap <-- read_guard (read_rules link) ;;
  if snap_partitioned snap then Done (Ok tt)
  else
    dropped <-- drop_check (snap_drop snap) ;;
    if dropped : bool then Done (Ok tt)
    else if snap_reorder snap then
      _ <-- write_guard (push_buffer link message) ;; Done (Ok tt)
    else
      _ <-- delay_wait (snap_delay snap) ;;
      deliver (ss_inboxes sender) target message.

Definition recv (r : SimulatorReceiver) : Task World (result RpcEnvelope XraftError) :=
  o <-- await (fun w => match Channel.mpsc_recv (sr_rx r) (mesh w) with
                        | Some (m, o) => Some (set_mesh m w, o)
                        | None => None
                        end) ;;
  Done (match o with Some msg => Ok msg | None => Err IoConnectionReset end).

(** ** Flushing *)

(** The delivery loop: failures are logged and ignored. *)
Fixpoint deliver_all (inb : gmap NodeId nat) (from to : NodeId) (msgs : list RpcEnvelope)
  : Task World unit :=
  match msgs with
  | [] => Done tt
  | msg :: msgs' =>
      _ <-- apply_faults_and_deliver inb from to msg ;;
      deliver_all inb from to msgs'
  end.

(** Empty the buffer and shuffle what was in it. *)
Definition drain_buffer (link : Link) (s : SimulatorState) : SimulatorState * list RpcEnvelope :=
  match reorder_buffers s !! link with
  | Some buffer =>
      let '(r, msgs) := rng_shuffle buffer (rng s) in
      (mkState (link_rules s) (partitions s) (<[link := []]> (reorder_buffers s)) r, msgs)
  | None => (s, [])
  end.

Definition flush_reorder_buffer (h : NetworkSimulator) (from to : NodeId) : Task World unit :=
  msgs <-- write_guard (drain_buffer (from, to)) ;;
  deliver_all (ns_inboxes h) from to msgs.

(** Switch reordering off, remove the buffer and shuffle what was in it. *)
Definition remove_buffer (link : Link) (s : SimulatorState) : SimulatorState * list RpcEnvelope :=
  let rules := match link_rules s !! link with
               | Some r => <[link := mkLinkRules (drop_probability r) (delay_range r) false]>
                             (link_rules s)
               | None => link_rules s
               end in
  match reorder_buffers s !! link with
  | Some buffer =>
      let '(r, msgs) := rng_shuffle buffer (rng s) in
      (mkState rules (partitions s) (delete link (reorder_buffers s)) r, msgs)
  | None => (mkState rules (partitions s) (reorder_buffers s) (rng s), [])
  end.

Definition disable_reordering (h : NetworkSimulator) (from to : NodeId) : Task World unit :=
  msgs <-- write_guard (remove_buffer (from, to)) ;;
  deliver_all (ns_inboxes h) from to msgs.

(** ** The running system

    Any number of sends, flushes and configuration changes in flight, with
    the history of [send] calls and of received messages. *)

Inductive Config :=
| CSetDrop (from to : NodeId) (p : f64)
| CSetDelay (from to : NodeId) (lo hi : Duration)
| CClearDelay (from to : NodeId)
| CEnableReordering (from to : NodeId)
| CPartition (set_a set_b : list NodeId)
| CPartitionOneWay (from to : NodeId)
| CHealPartition
| CHealLink (from to : NodeId)
| CReset.

Definition configure (c : Config) : SimulatorState -> SimulatorState :=
  match c with
  | CSetDrop from to p => set_drop_probability from to p
  | CSetDelay from to lo hi => set_delay from to lo hi
  | CClearDelay from to => clear_delay from to
  | CEnableReordering from to => enable_reordering from to
  | CPartition a b => partition a b
  | CPartitionOneWay from to => partition_one_way from to
  | CHealPartition => heal_partition
  | CHealLink from to => heal_link from to
  | CReset => reset
  end.

(** A configuration call takes the write lock for its change. *)
Definition config_task (c : Config) : Task World (result unit XraftError) :=
  _ <-- write_guard (fun s => (configure c s, tt)) ;; Done (Ok tt).

Abbreviation Thread := (Instant * Task World (result unit XraftError))%type (only parsing).

Record System := mkSystem {
  sys_world : World;
  sys_now : Instant;
  sys_threads : list Thread;
  sys_sent : list (NodeId * RpcEnvelope);
  sys_received : list (NodeId * RpcEnvelope);
}.

Definition spawn (t : Task World (result unit XraftError)) (y : System) : System :=
  mkSystem (sys_world y) (sys_now y) (sys_threads y ++ [(sys_now y, t)]) (sys_sent y)
    (sys_received y).

Definition log_send (target : NodeId) (msg : RpcEnvelope) (y : System) : System :=
  mkSystem (sys_world y) (sys_now y) (sys_threads y) (sys_sent y ++ [(target, msg)])
    (sys_received y).

(** [faults] says whether the run may use the fault injection. *)
Inductive sys_step (faults : bool) (inb : gmap NodeId nat) : System -> System -> Prop :=
| sys_send source target msg y :
    sys_step faults inb y (log_send target msg (spawn (send (mkSender source inb) target msg) y))
| sys_flush from to y :
    faults = true ->
    sys_step faults inb y
      (spawn (_ <-- flush_reorder_buffer (mkSimulator inb) from to ;; Done (Ok tt)) y)
| sys_disable from to y :
    faults = true ->
    sys_step faults inb y
      (spawn (_ <-- disable_reordering (mkSimulator inb) from to ;; Done (Ok tt)) y)
| sys_config c y :
    faults = true -> sys_step faults inb y (spawn (config_task c) y)
| sys_thread i th th' w w' now ths sent rcv :
    ths !! i = Some th -> task_step now w th w' th' ->
    sys_step faults inb (mkSystem w now ths sent rcv) (mkSystem w' now (<[i := th']> ths) sent rcv)
| sys_recv n c msg w w' now ths sent rcv :
    inb !! n = Some c -> task_run (recv (mkReceiver c)) w = Some (w', Ok msg, 0) ->
    sys_step faults inb (mkSystem w now ths sent rcv)
      (mkSystem w' now ths sent (rcv ++ [(n, msg)]))
| sys_drop_receiver n c w now ths sent rcv :
    faults = true -> inb !! n = Some c ->
    sys_step faults inb (mkSystem w now ths sent rcv)
      (mkSystem (set_mesh (Channel.drop_receiver c (mesh w)) w) now ths sent rcv)
| sys_tick d w now ths sent rcv :
    sys_step faults inb (mkSystem w now ths sent rcv) (mkSystem w (now + d) ths sent rcv).

Definition sys_init (w : World) : System := mkSystem w 0 [] [] [].

(** An executable scheduler for the relation. *)

Inductive Act :=
| ASend (source target : NodeId) (msg : RpcEnvelope)
| AFlush (from to : NodeId)
| ADisable (from to : NodeId)
| AConfig (c : Config)
| AThread (i : nat)
| ARecv (n : NodeId).

Definition thread_exec (now : Instant) (w : World) (th : Thread) : option (World * Thread) :=
  if fst th <=? now then
    match snd th with
    | Done _ => None
    | Step f => match f w with
                | Some (w', t) => Some (w', (now, t))
                | None => None
                end
    | Sleep d k => Some (w, (now + d, k))
    end
  else None.

Definition sys_exec (inb : gmap NodeId nat) (y : System) (a : Act) : option System :=
  match a with
  | ASend source target msg =>
      Some (log_send target msg (spawn (send (mkSender source inb) target msg) y))
  | AFlush from to =>
      Some (spawn (_ <-- flush_reorder_buffer (mkSimulator inb) from to ;; Done (Ok tt)) y)
  | ADisable from to =>
      Some (spawn (_ <-- disable_reordering (mkSimulator inb) from to ;; Done (Ok tt)) y)
  | AConfig c => Some (spawn (config_task c) y)
  | AThread i =>
      let 'mkSystem w now ths sent rcv := y in
      match ths !! i with
      | Some th => match thread_exec now w th with
                   | Some (w', th') => Some (mkSystem w' now (<[i := th']> ths) sent rcv)
                   | None => None
                   end
      | None => None
      end
  | ARecv n =>
      let 'mkSystem w now ths sent rcv := y in
      match inb !! n with
      | Some c => match task_run (recv (mkReceiver c)) w with
                  | Some (w', Ok msg, 0) => Some (mkSystem w' now ths sent (rcv ++ [(n, msg)]))
                  | _ => None
                  end
      | None => None
      end
  end.

Definition uses_faults (a : Act) : bool :=
  match a with AFlush _ _ | ADisable _ _ | AConfig _ => true | _ => false end.

Lemma sys_exec_sound faults inb y a y' :
  (uses_faults a = true -> faults = true) ->
  sys_exec inb y a = Some y' -> sys_step faults inb y y'.
Proof.
  intros Hf. destruct a as [source target msg|from to|from to|c|i|n]; cbn in *.
  - intros [= <-]. constructor.
  - intros [= <-]. constructor; auto.
  - intros [= <-]. constructor; auto.
  - intros [= <-]. constructor; auto.
  - destruct y as [w now ths sent rcv]. destruct (ths !! i) as [[wake t]|] eqn:Ei; [|done].
    unfold thread_exec. cbn. destruct (wake <=? now) eqn:Ew; [|done].
    destruct t as [a|f|d k]; [done| |].
    + destruct (f w) as [[w' t]|] eqn:Ef; [|done]. intros [= <-].
      eapply sys_thread; [done|]. constructor; [lia|done].
    + intros [= <-]. eapply sys_thread; [done|]. constructor. lia.
  - destruct y as [w now ths sent rcv]. destruct (inb !! n) as [c|] eqn:Ec; [|done].
    intros Hr. split_code_in Hr. eapply sys_recv; [done|]. unfold recv. cbn. by rewrite E.
Qed.

Fixpoint sys_exec_all (inb : gmap NodeId nat) (y : System) (acts : list Act) : option System :=
  match acts with
  | [] => Some y
  | a :: acts' => match sys_exec inb y a with
                  | Some y' => sys_exec_all inb y' acts'
                  | None => None
                  end
  end.

Lemma sys_exec_all_sound faults inb acts y y' :
  (forall a, a ∈ acts -> uses_faults a = true -> faults = true) ->
  sys_exec_all inb y acts = Some y' -> rtc (sys_step faults inb) y y'.
Proof.
  revert y. induction acts as [|a acts IH]; intros y Hf; cbn; [by intros [= <-]|].
  destruct (sys_exec inb y a) as [y1|] eqn:E; [|done]. intros Hr.
  eapply rtc_l; [eapply sys_exec_sound; [|done]|apply IH; [|done]].
  - apply Hf. constructor.
  - intros b Hb. apply Hf. by constructor.
Qed.

Context `{!Channel.MpscLaws C}.

(** ** Where a message can be

    Besides the threads: in a reorder buffer or in an inbox, here as pairs of
    target and message. *)

Definition buffered (bs : gmap Link (list RpcEnvelope)) : list (NodeId * RpcEnvelope) :=
  gmap_flat (fun link msgs => map (pair (snd link)) msgs) bs.

Definition queue_of (c : nat) (m : Channel.Mesh C) : list RpcEnvelope :=
  match Channel.chans m !! c with Some ch => Channel.queue ch | None => [] end.

Definition queued (inb : gmap NodeId nat) (m : Channel.Mesh C) : list (NodeId * RpcEnvelope) :=
  gmap_flat (fun n c => map (pair n) (queue_of c m)) inb.

Definition held (inb : gmap NodeId nat) (w : World) : list (NodeId * RpcEnvelope) :=
  buffered (reorder_buffers (sim w)) ++ queued inb (mesh w).

Lemma buffered_split (bs : gmap Link (list RpcEnvelope)) (link : Link) :
  buffered bs ≡ₚ map (pair link.2) (default [] (bs !! link)) ++ buffered (delete link bs).
Proof.
  unfold buffered. destruct (bs !! link) as [b|] eqn:E; cbn.
  - by rewrite (gmap_flat_lookup _ _ _ _ E).
  - by rewrite delete_id.
Qed.

Lemma buffered_insert (bs : gmap Link (list RpcEnvelope)) (link : Link) (msgs : list RpcEnvelope) :
  buffered (<[link := msgs]> bs) ≡ₚ map (pair link.2) msgs ++ buffered (delete link bs).
Proof. unfold buffered. by rewrite gmap_flat_insert. Qed.

(** The inboxes lead to queues of their own. *)
Definition inboxes_inj (inb : gmap NodeId nat) : Prop :=
  forall n1 n2 c, inb !! n1 = Some c -> inb !! n2 = Some c -> n1 = n2.

Lemma queued_update (inb : gmap NodeId nat) (m m' : Channel.Mesh C) (n : NodeId) (c : nat) :
  inboxes_inj inb -> inb !! n = Some c ->
  (forall c', c' <> c -> queue_of c' m' = queue_of c' m) ->
  map (pair n) (queue_of c m) ++ queued inb m' ≡ₚ
  map (pair n) (queue_of c m') ++ queued inb m.
Proof.
  intros Hinj Hn Hsame. unfold queued.
  rewrite !(gmap_flat_lookup _ _ _ _ Hn).
  rewrite (gmap_flat_ext (fun n c => map (pair n) (queue_of c m'))
             (fun n c => map (pair n) (queue_of c m)) (delete n inb)).
  - solve_Permutation.
  - intros k ck Hk. apply lookup_delete_Some in Hk as [Hne Hk]. rewrite Hsame; [done|].
    intros ->. destruct Hne. eauto.
Qed.

Lemma queue_of_insert (c c' : nat) (m : Channel.Mesh C) ch arcs' :
  (c < length (Channel.chans m))%nat ->
  queue_of c' (Channel.mkMesh (<[c := ch]> (Channel.chans m)) arcs') =
  if decide (c' = c) then Channel.queue ch else queue_of c' m.
Proof.
  intros Hlt. unfold queue_of. cbn. destruct (decide (c' = c)) as [->|Hne].
  - by rewrite list_lookup_insert_eq.
  - by rewrite list_lookup_insert_ne.
Qed.

(** What the primitives of the mesh do to the queues. *)
Lemma mpsc_send_queued inb m m' n c msg r :
  inboxes_inj inb -> inb !! n = Some c -> Channel.mpsc_send c msg m = Some (m', r) ->
  (r = Ok tt /\ queued inb m' ≡ₚ (n, msg) :: queued inb m) \/
  (exists e, r = Err e /\ m' = m).
Proof.
  intros Hinj Hn. destruct (Channel.chans m !! c) as [ch|] eqn:Ec.
  2:{ unfold Channel.mpsc_send. rewrite Ec. intros [= <- <-]. eauto. }
  pose proof (lookup_lt_Some _ _ _ Ec) as Hlt.
  destruct (Channel.mpsc_send_spec c msg m ch Ec) as [(_ & ->)|[(_ & _ & ->)|(_ & _ & ch' & -> & Hq & _)]];
    intros Hs; simplify_eq; [eauto|]. left. split; [done|].
  apply (Permutation_app_inv_l (map (pair n) (queue_of c m))).
  rewrite (queued_update inb m _ n c) by
    (auto; intros c' Hc'; rewrite queue_of_insert by done; by rewrite decide_False).
  rewrite queue_of_insert, decide_True by done. unfold queue_of. rewrite Ec, Hq, map_app. cbn.
  solve_Permutation.
Qed.

Lemma mpsc_recv_queued inb m m' n c msg :
  inboxes_inj inb -> inb !! n = Some c -> Channel.mpsc_recv c m = Some (m', Some msg) ->
  queued inb m ≡ₚ (n, msg) :: queued inb m'.
Proof.
  intros Hinj Hn. destruct (Channel.chans m !! c) as [ch|] eqn:Ec.
  2:{ unfold Channel.mpsc_recv. by rewrite Ec. }
  pose proof (lookup_lt_Some _ _ _ Ec) as Hlt.
  destruct (Channel.mpsc_recv_spec c m ch Ec) as [[_ ->]|(msg' & q & ch' & Eq & -> & Hq & _)];
    [by destruct (_ =? _)%nat|]. intros [= <- <-].
  set (m' := Channel.mkMesh _ _).
  assert (forall c', c' <> c -> queue_of c' m' = queue_of c' m) as Hsame.
  { intros c' Hc'. unfold m'. rewrite queue_of_insert by done. by rewrite decide_False. }
  pose proof (queued_update inb m m' n c Hinj Hn Hsame) as Hu.
  assert (queue_of c m' = q) as Eq'.
  { unfold m'. rewrite queue_of_insert by done. by rewrite decide_True. }
  assert (queue_of c m = msg' :: q) as Eqm by (unfold queue_of; by rewrite Ec).
  rewrite Eq', Eqm in Hu. cbn in Hu. apply (Permutation_app_inv_l (map (pair n) q)).
  rewrite <- Hu. solve_Permutation.
Qed.

Lemma drop_receiver_queued inb m n c :
  inboxes_inj inb -> inb !! n = Some c ->
  queued inb (Channel.drop_receiver c m) ⊆+ queued inb m.
Proof.
  intros Hinj Hn. unfold Channel.drop_receiver.
  destruct (Channel.chans m !! c) as [ch|] eqn:Ec; [|done].
  pose proof (lookup_lt_Some _ _ _ Ec) as Hlt. set (m' := Channel.mkMesh _ _).
  assert (forall c', c' <> c -> queue_of c' m' = queue_of c' m) as Hsame.
  { intros c' Hc'. unfold m'. rewrite queue_of_insert by done. by rewrite decide_False. }
  pose proof (queued_update inb m m' n c Hinj Hn Hsame) as Hu.
  assert (queue_of c m' = []) as Eq'.
  { unfold m'. rewrite queue_of_insert, decide_True by done. apply Channel.ch_dropped. }
  rewrite Eq' in Hu. cbn in Hu. rewrite <- Hu. by apply submseteq_inserts_l.
Qed.

(** ** Blocks under a guard *)

Section Guards.
Context {O A : Type} (RL : World -> O -> World -> O -> Prop) (D : O -> A -> Prop).
Context (RL_lock : forall w l o, RL w o (set_lock l w) o).

Lemma holds_read_guard {B} o (f : SimulatorState -> B) (k : B -> Task World A) :
  (forall w l, exists o', RL w o (set_lock l w) o' /\ holds RL D o' (k (f (sim w)))) ->
  holds RL D o (task_bind (read_guard f) k).
Proof.
  intros Hf. constructor. intros w w' t. cbn. destruct (rw_read (lock w)) as [l|]; cbn; [|done].
  intros [= <- <-]. exists o. split; [apply RL_lock|]. constructor. intros w1 w1' t1. cbn.
  intros [= <- <-]. apply Hf.
Qed.

Lemma holds_write_guard {B} o (f : SimulatorState -> SimulatorState * B) (k : B -> Task World A) :
  (forall w l, exists o', RL w o (set_lock l (set_sim (f (sim w)).1 w)) o' /\ holds RL D o' (k (f (sim w)).2)) ->
  holds RL D o (task_bind (write_guard f) k).
Proof.
  intros Hf. constructor. intros w w' t. cbn. destruct (rw_write (lock w)) as [l|]; cbn; [|done].
  intros [= <- <-]. exists o. split; [apply RL_lock|]. constructor. intros w1 w1' t1. cbn.
  intros [= <- <-]. apply Hf.
Qed.
End Guards.

(** ** At most once

    A task owns the messages it may still deliver.  No action creates a
    message: what the task owns and what is held afterwards was owned or held
    before. *)

Abbreviation Owned := (list (NodeId * RpcEnvelope)) (only parsing).

Definition no_forge (inb : gmap NodeId nat) (w : World) (o : Owned) (w' : World) (o' : Owned)
  : Prop := o' ++ held inb w' ⊆+ o ++ held inb w.

Section AtMostOnce.
Context {L : RngLaws R} (inb : gmap NodeId nat) (Hinj : inboxes_inj inb).

Abbreviation owns := (holds (no_forge inb) (fun _ _ => True)) (only parsing).

Lemma no_forge_same w o : no_forge inb w o w o.
Proof. by unfold no_forge. Qed.

Lemma no_forge_lock w l o : no_forge inb w o (set_lock l w) o.
Proof. by unfold no_forge. Qed.

Lemma owns_mono {A} (o1 o2 : Owned) (t : Task World A) : o1 ⊆+ o2 -> owns o1 t -> owns o2 t.
Proof.
  revert o1 o2 t. fix IH 3. intros o1 o2 [a|f|d t] Hsub Ho; inversion Ho as [|? Hf|? ? Hk]; subst.
  - by constructor.
  - constructor. intros w w' t Hw. destruct (Hf w w' t Hw) as (o' & HR & Ht). exists o'.
    split; [|done]. unfold no_forge in *. rewrite HR. by apply submseteq_app.
  - constructor. eapply IH; eauto.
Qed.

(** A task followed by another, which owns its own messages meanwhile. *)
Lemma owns_bind {A B} (t : Task World A) (k : A -> Task World B) (o f : Owned) :
  owns o t -> (forall a, owns f (k a)) -> owns (o ++ f) (task_bind t k).
Proof.
  intros Ho Hk. revert t o Ho. fix IH 1. intros [a|g|d t] o Ho; cbn.
  - eapply owns_mono; [|apply Hk]. by apply submseteq_inserts_l.
  - inversion Ho as [|? Hf|]; subst. constructor. intros w w' t'.
    specialize (Hf w). destruct (g w) as [[w1 t1]|]; [|done]. intros [= <- <-].
    destruct (Hf w1 t1 eq_refl) as (o' & HR & Ht). exists (o' ++ f). split; [|by apply IH].
    unfold no_forge in *. rewrite <- !app_assoc, !(Permutation_app_comm f), !app_assoc.
    by apply submseteq_app.
  - inversion Ho; subst. constructor. by apply IH.
Qed.

Lemma owns_bind_keep {A B} (t : Task World A) (k : A -> Task World B) (o : Owned) :
  owns [] t -> (forall a, owns o (k a)) -> owns o (task_bind t k).
Proof. intros Ht Hk. by apply (owns_bind t k [] o). Qed.

(** Drawing a number moves no message. *)
Lemma owns_draw {A B} (f : R -> R * A) (k : A -> Task World B) (o : Owned) :
  (forall a, owns o (k a)) -> owns o (task_bind (write_guard (draw f)) k).
Proof.
  intros Hk. apply holds_write_guard; [apply no_forge_lock|]. intros w l. exists o. unfold draw.
  destruct (f _) as [r a]. split; [by unfold no_forge|apply Hk].
Qed.

Lemma owns_drop_check p : owns [] (drop_check p).
Proof.
  unfold drop_check. destruct (f64_lt _ _); [|by constructor]. apply owns_draw. by constructor.
Qed.

Lemma owns_delay_wait range : owns [] (delay_wait range).
Proof.
  unfold delay_wait. destruct range as [[lo hi]|]; [|by constructor].
  apply owns_bind_keep; [|intros a; by repeat constructor].
  destruct (_ <=? _); [by constructor|]. apply owns_draw. by constructor.
Qed.

Lemma owns_deliver to msg : owns [(to, msg)] (deliver inb to msg).
Proof.
  unfold deliver. destruct (inb !! to) as [tx|] eqn:Et; [|by constructor].
  apply holds_await. intros w w' r. unfold inbox_send.
  destruct (Channel.mpsc_send tx msg (mesh w)) as [[m r']|] eqn:Es; [|done].
  intros [= <- <-]. exists []. split; [|by constructor].
  unfold no_forge, held. cbn.
  destruct (mpsc_send_queued _ _ _ _ _ _ _ Hinj Et Es) as [[_ Hq]|(e & _ & ->)].
  - rewrite Hq. apply Permutation_submseteq. solve_Permutation.
  - by apply submseteq_cons.
Qed.

Lemma owns_faults from to msg : owns [(to, msg)] (apply_faults_and_deliver inb from to msg).
Proof.
  apply holds_read_guard; [apply no_forge_lock|]. intros w l. exists [(to, msg)]. split; [apply no_forge_lock|].
  destruct (snap_partitioned _); [by constructor|].
  apply owns_bind_keep; [apply owns_drop_check|]. intros [|]; [by constructor|].
  apply owns_bind_keep; [apply owns_delay_wait|]. intros _. apply owns_deliver.
Qed.

Lemma owns_send source target msg : owns [(target, msg)] (send (mkSender source inb) target msg).
Proof.
  apply holds_read_guard; [apply no_forge_lock|]. intros w l. exists [(target, msg)]. split; [apply no_forge_lock|].
  cbn [ss_source].
  destruct (snap_partitioned _); [by constructor|].
  apply owns_bind_keep; [apply owns_drop_check|]. intros [|]; [by constructor|].
  destruct (snap_reorder _).
  - apply holds_write_guard; [apply no_forge_lock|]. intros w1 l1. exists []. split; [|by constructor].
    unfold no_forge, held. cbn. rewrite buffered_insert.
    rewrite (buffered_split (reorder_buffers (sim w1)) (source, target)). cbn.
    rewrite map_app. cbn. apply Permutation_submseteq. solve_Permutation.
  - apply owns_bind_keep; [apply owns_delay_wait|]. intros _. apply owns_deliver.
Qed.

Lemma owns_deliver_all from to msgs : owns (map (pair to) msgs) (deliver_all inb from to msgs).
Proof.
  induction msgs as [|msg msgs IH]; [by constructor|].
  apply (owns_bind _ _ [(to, msg)] (map (pair to) msgs)); [apply owns_faults|auto].
Qed.

(** Taking the buffer of a link: its messages move to the task. *)
Lemma drain_no_forge link w l :
  no_forge inb w [] (set_lock l (set_sim (drain_buffer link (sim w)).1 w))
    (map (pair link.2) (drain_buffer link (sim w)).2).
Proof.
  unfold no_forge, drain_buffer. destruct (_ !! link) as [b|] eqn:Eb; [|done].
  pose proof (rng_shuffle_perm b (rng (sim w))) as Hp.
  destruct (rng_shuffle b _) as [r msgs]. cbn in *. unfold held. cbn.
  rewrite buffered_insert, (buffered_split (reorder_buffers (sim w)) link), Eb. cbn.
  rewrite Hp. apply Permutation_submseteq. solve_Permutation.
Qed.

Lemma remove_no_forge link w l :
  no_forge inb w [] (set_lock l (set_sim (remove_buffer link (sim w)).1 w))
    (map (pair link.2) (remove_buffer link (sim w)).2).
Proof.
  unfold no_forge, remove_buffer. destruct (_ !! link) as [b|] eqn:Eb; [|done].
  pose proof (rng_shuffle_perm b (rng (sim w))) as Hp.
  destruct (rng_shuffle b _) as [r msgs]. cbn in *. unfold held. cbn.
  rewrite (buffered_split (reorder_buffers (sim w)) link), Eb. cbn.
  rewrite Hp. apply Permutation_submseteq. solve_Permutation.
Qed.

Lemma owns_flush from to :
  owns [] (_ <-- flush_reorder_buffer (mkSimulator inb) from to ;; Done (Ok tt : result unit XraftError)).
Proof.
  apply owns_bind_keep; [|by constructor]. apply holds_write_guard; [apply no_forge_lock|]. intros w l.
  exists (map (pair to) (drain_buffer (from, to) (sim w)).2).
  split; [apply (drain_no_forge (from, to))|apply owns_deliver_all].
Qed.

Lemma owns_disable from to :
  owns [] (_ <-- disable_reordering (mkSimulator inb) from to ;; Done (Ok tt : result unit XraftError)).
Proof.
  apply owns_bind_keep; [|by constructor]. apply holds_write_guard; [apply no_forge_lock|]. intros w l.
  exists (map (pair to) (remove_buffer (from, to) (sim w)).2).
  split; [apply (remove_no_forge (from, to))|apply owns_deliver_all].
Qed.

(** Configuration never adds a message; [reset] may throw buffers away. *)
Lemma configure_held c w : held inb (set_sim (configure c (sim w)) w) ⊆+ held inb w.
Proof.
  unfold held. cbn. apply submseteq_app; [|done].
  destruct c; cbn; try done.
  - unfold set_delay. by destruct (_ <? _).
  - unfold clear_delay. by destruct (_ !! _).
  - rewrite buffered_insert. by rewrite <- buffered_split.
  - unfold buffered. rewrite gmap_flat_empty. apply submseteq_nil_l.
Qed.

Lemma owns_config c : owns [] (config_task c).
Proof.
  apply holds_write_guard; [apply no_forge_lock|]. intros w l. exists [].
  split; [apply (configure_held c w)|by constructor].
Qed.

(** ** The invariant of the system *)

Definition sys_inv (y : System) : Prop :=
  exists os, Forall2 (fun o (th : Thread) => owns o th.2) os (sys_threads y) /\
    sys_received y ++ held inb (sys_world y) ++ concat os ⊆+ sys_sent y.

Lemma sys_inv_spawn t o y sent :
  sys_inv y -> owns o t -> sent ≡ₚ o ++ sys_sent y ->
  sys_inv (mkSystem (sys_world y) (sys_now y) (sys_threads y ++ [(sys_now y, t)]) sent
             (sys_received y)).
Proof.
  intros (os & Hos & Hsub) Ho Hsent. exists (os ++ [o]). cbn. split.
  - apply Forall2_app; [done|]. by repeat constructor.
  - rewrite concat_app. cbn. rewrite app_nil_r, Hsent, <- Hsub. apply Permutation_submseteq.
    solve_Permutation.
Qed.

Lemma sys_step_inv faults y y' : sys_inv y -> sys_step faults inb y y' -> sys_inv y'.
Proof.
  intros Hy Hs. destruct Hs as [source target msg y|from to y _|from to y _|c y _
    |i th th' w w' now ths sent rcv Hi Ht|n c msg w w' now ths sent rcv Hc Hr
    |n c w now ths sent rcv _ Hc|d w now ths sent rcv].
  - eapply (sys_inv_spawn _ _ y); [done|apply owns_send|]. cbn. solve_Permutation.
  - eapply (sys_inv_spawn _ _ y); [done|apply owns_flush|done].
  - eapply (sys_inv_spawn _ _ y); [done|apply owns_disable|done].
  - eapply (sys_inv_spawn _ _ y); [done|apply owns_config|done].
  - destruct Hy as (os & Hos & Hsub). cbn in *.
    destruct (Forall2_lookup_r _ _ _ _ _ Hos Hi) as (o & Ho & Hown).
    destruct th as [wake t], th' as [wake' t'].
    destruct (holds_task_step _ _ _ _ _ _ _ _ _ _ no_forge_same Hown Ht) as (o' & HR & Hown').
    exists (<[i := o']> os). cbn. split; [by apply Forall2_insert|].
    apply (submseteq_app_inv_l _ _ o). rewrite <- Hsub.
    unfold no_forge in HR. pose proof (concat_insert os i o o' Ho) as Hc.
    assert (o ++ rcv ++ held inb w' ++ concat (<[i:=o']> os) ≡ₚ
            (o' ++ held inb w') ++ rcv ++ concat os) as ->.
    { transitivity (rcv ++ held inb w' ++ o ++ concat (<[i:=o']> os)); [solve_Permutation|].
      rewrite Hc. solve_Permutation. }
    rewrite HR. apply Permutation_submseteq. solve_Permutation.
  - destruct Hy as (os & Hos & Hsub). exists os. cbn in *. split; [done|]. rewrite <- Hsub.
    unfold recv in Hr. cbn in Hr.
    destruct (Channel.mpsc_recv c (mesh w)) as [[m [msg'|]]|] eqn:Em; cbn in Hr; simplify_eq.
    unfold held. cbn. rewrite (mpsc_recv_queued _ _ _ _ _ _ Hinj Hc Em).
    apply Permutation_submseteq. solve_Permutation.
  - destruct Hy as (os & Hos & Hsub). exists os. cbn in *. split; [done|]. rewrite <- Hsub.
    apply submseteq_app; [done|]. apply submseteq_app; [|done]. unfold held. cbn.
    apply submseteq_app; [done|]. by eapply drop_receiver_queued.
  - destruct Hy as (os & Hos & Hsub). by exists os.
Qed.

Lemma sys_run_inv faults w y :
  held inb w = [] -> rtc (sys_step faults inb) (sys_init w) y -> sys_inv y.
Proof.
  intros Hw Hr. assert (sys_inv (sys_init w)) as Hi.
  { exists []. cbn. rewrite Hw. done. }
  induction Hr as [|y1 y2 y3 Hs _ IH]; [done|]. apply IH. by eapply sys_step_inv.
Qed.
End AtMostOnce.

(** ** The system [create] builds *)

Lemma create_loop_chans ids inb t m res res' m' :
  create_loop ids inb t m res = Some (res', m') -> Channel.chans m' = Channel.chans m.
Proof.
  revert t m res. induction ids as [|n ids IH]; intros t m res; cbn [create_loop].
  - by intros [= <- <-].
  - cbn. destruct (Channel.receivers t !! n) as [c|]; [|done]. by intros ->%IH.
Qed.

Lemma create_loop_spec ids : NoDup ids -> forall inb t m res,
  (forall n, n ∈ ids -> is_Some (Channel.receivers t !! n)) ->
  exists res' m', create_loop ids inb t m res = Some (res', m') /\
    forall n, res' !! n = if decide (n ∈ ids)
                          then (fun c => (mkSender n inb, mkReceiver c)) <$> Channel.receivers t !! n
                          else res !! n.
Proof.
  induction 1 as [|n ids Hn Hnd IH]; intros inb t m res Hall; cbn [create_loop].
  - by exists res, m.
  - destruct (Hall n) as [c Hc]; [set_solver|]. cbn. rewrite Hc.
    destruct (IH inb (Channel.mkTransport (Channel.inboxes t) (delete n (Channel.receivers t)))
                (Channel.arc_clone m) (<[n := (mkSender n inb, mkReceiver c)]> res))
      as (res' & m' & He & Hres).
    { intros k Hk. cbn. rewrite lookup_delete_ne by (intros ->; done). apply Hall. set_solver. }
    exists res', m'. split; [done|]. intros k. rewrite Hres. cbn.
    destruct (decide (k = n)) as [->|Hk].
    + rewrite decide_False by done. rewrite lookup_insert_eq, decide_True by set_solver.
      by rewrite Hc.
    + rewrite lookup_delete_ne, lookup_insert_ne by done.
      destruct (decide (k ∈ ids)); [rewrite decide_True by set_solver|rewrite decide_False by set_solver];
        done.
Qed.

(** What [create] hands out: an idle network without rules. *)
Lemma create_Some ids buf seed h halves w :
  create ids buf seed = Some (h, halves, w) ->
  Channel.fresh (ns_inboxes h) buf (mesh w) /\ sim w = mkState ∅ ∅ ∅ (seed_from_u64 seed) /\
  dom (ns_inboxes h) = list_to_set ids.
Proof.
  unfold create. destruct (Channel.new ids buf) as [[t m]|] eqn:En; [|done].
  apply Channel.new_Some in En as (inb & -> & [Hf Hi] & _ & Hd). cbn.
  destruct (create_loop ids inb _ _ ∅) as [[res m']|] eqn:El; [|done].
  intros [= <- <- <-]. apply create_loop_chans in El. cbn in *.
  split_and!; [|done|done]. split; [|done]. intros n c Hn. cbn. rewrite El. eauto.
Qed.

Lemma created_unlocked ids buf seed h halves w :
  create ids buf seed = Some (h, halves, w) -> lock w = rw_new.
Proof.
  unfold create. destruct (Channel.new ids buf) as [[t m]|]; [|done]. cbn.
  destruct (create_loop ids _ _ _ ∅) as [[res m']|]; [|done]. by intros [= <- <- <-].
Qed.

Lemma create_spec ids buf seed :
  NoDup ids -> 0 < buf <= Channel.MAX_PERMITS ->
  exists h halves w, create ids buf seed = Some (h, halves, w) /\
    forall n, halves !! n = (fun c => (mkSender n (ns_inboxes h), mkReceiver c))
                            <$> ns_inboxes h !! n.
Proof.
  intros Hnd Hbuf. unfold create.
  destruct (Channel.new_spec ids buf Hbuf) as (inb & m & -> & _ & _ & Hd). cbn.
  assert (forall n, n ∈ ids <-> is_Some (inb !! n)) as Hin.
  { intros n. rewrite <- elem_of_dom, Hd. by rewrite elem_of_list_to_set. }
  destruct (create_loop_spec ids Hnd inb (Channel.mkTransport inb inb)
              (Channel.arc_clone (Channel.arc_clone m)) ∅) as (res & m' & -> & Hres).
  { intros n Hn. by apply Hin. }
  do 3 eexists. split; [done|]. intros n. rewrite Hres. cbn.
  destruct (decide (n ∈ ids)) as [Hn|Hn]; [done|]. rewrite Hin in Hn.
  destruct (inb !! n); [|done]. by destruct Hn.
Qed.

Lemma created_held ids buf seed h halves w :
  create ids buf seed = Some (h, halves, w) ->
  inboxes_inj (ns_inboxes h) /\ held (ns_inboxes h) w = [].
Proof.
  intros ([Hf Hi] & Hs & _)%create_Some. split; [done|].
  unfold held, buffered. rewrite Hs. cbn. rewrite gmap_flat_empty. unfold queued.
  rewrite (gmap_flat_ext _ (fun _ _ => []) (ns_inboxes h)).
  - unfold gmap_flat. by induction (map_to_list (ns_inboxes h)) as [|[??] l IH].
  - intros n c Hn. unfold queue_of. destruct (Hf _ _ Hn) as (ch & -> & _ & Hq & _). by rewrite Hq.
Qed.

(** C19: However many sends, flushes, configuration changes, receives and dropped
    receivers run concurrently on a simulated network, what has been received
    together with what waits in the inboxes and the reorder buffers is part of
    what was sent, counting repetitions: the simulator never invents,
    duplicates or misroutes a message, however it drops, delays and reorders. *)
Theorem simulator_at_most_once {L : RngLaws R} ids buf seed h halves w y :
  create ids buf seed = Some (h, halves, w) ->
  rtc (sys_step true (ns_inboxes h)) (sys_init w) y ->
  sys_received y ++ held (ns_inboxes h) (sys_world y) ⊆+ sys_sent y.
Proof.
  intros [Hinj Hheld]%created_held Hr.
  destruct (sys_run_inv (ns_inboxes h) Hinj true w y Hheld Hr) as (os & _ & Hsub).
  rewrite <- Hsub, app_assoc. by apply submseteq_inserts_r.
Qed.

(** ** Without faults nothing is lost

    A task that read rules other than the defaults is marked [None]; in a
    network without rules there is none. *)

Definition fault_free (s : SimulatorState) : Prop :=
  link_rules s = ∅ /\ partitions s = ∅ /\ reorder_buffers s = ∅.

Definition lossless (inb : gmap NodeId nat) (w : World) (o : option Owned) (w' : World)
    (o' : option Owned) : Prop :=
  match o, o' with
  | None, None => True
  | None, Some _ => False
  | Some _, None => ~ fault_free (sim w)
  | Some l, Some l' =>
      fault_free (sim w) -> fault_free (sim w') /\ l' ++ held inb w' ≡ₚ l ++ held inb w
  end.

Definition delivered (o : option Owned) (r : result unit XraftError) : Prop :=
  match o with None => True | Some l => r = Ok tt -> l = [] end.

Lemma lossless_same inb w o : lossless inb w o w o.
Proof. by destruct o. Qed.
Lemma lossless_lock inb w l o : lossless inb w o (set_lock l w) o.
Proof. by destruct o. Qed.

Lemma holds_marked inb (t : Task World (result unit XraftError)) :
  holds (lossless inb) delivered None t.
Proof.
  revert t. fix IH 1. intros [a|f|d t].
  - by constructor.
  - constructor. intros w w' t. destruct (f w) as [[w1 t1]|]; [|done]. intros [= <- <-].
    exists None. split; [done|]. apply IH.
  - constructor. apply IH.
Qed.

Lemma fault_free_read link s : fault_free s -> read_rules link s = mkSnapshot false (Fin 0) None false.
Proof.
  intros (Hr & Hp & _). unfold read_rules. by rewrite Hr, Hp, lookup_empty.
Qed.

Lemma lossless_deliver inb to msg :
  inboxes_inj inb -> holds (lossless inb) delivered (Some [(to, msg)]) (deliver inb to msg).
Proof.
  intros Hinj. unfold deliver. destruct (inb !! to) as [tx|] eqn:Et; [|by constructor].
  apply holds_await. intros w w' r. unfold inbox_send.
  destruct (Channel.mpsc_send tx msg (mesh w)) as [[m r']|] eqn:Es; [|done].
  intros [= <- <-].
  destruct (mpsc_send_queued _ _ _ _ _ _ _ Hinj Et Es) as [[-> Hq]|(e & -> & ->)].
  - exists (Some []). split; [|by constructor]. intros Hff. split; [done|].
    unfold held. cbn. rewrite Hq. solve_Permutation.
  - exists (Some [(to, msg)]). split; [|by constructor]. by intros Hff.
Qed.

Lemma lossless_send inb source target msg :
  inboxes_inj inb ->
  holds (lossless inb) delivered (Some [(target, msg)]) (send (mkSender source inb) target msg).
Proof.
  intros Hinj. apply holds_read_guard; [apply lossless_lock|]. intros w l. cbn [ss_source].
  pose proof (fault_free_read (source, target) (sim w)) as Hff.
  destruct (read_rules _ _) as [part p delay reord]. cbn [snap_partitioned snap_drop snap_reorder snap_delay].
  destruct (part || f64_lt (Fin 0) p || match delay with Some _ => true | None => false end || reord)
    eqn:Ed.
  - exists None. split; [|apply holds_marked]. intros Hf%Hff. by simplify_eq.
  - exists (Some [(target, msg)]). split; [apply lossless_lock|].
    apply orb_false_iff in Ed as [[[-> Ep]%orb_false_iff Edl]%orb_false_iff ->].
    unfold drop_check. rewrite Ep. destruct delay; [done|]. cbn. by apply lossless_deliver.
Qed.

Definition exact_inv (inb : gmap NodeId nat) (y : System) : Prop :=
  fault_free (sim (sys_world y)) /\
  exists os, Forall2 (fun o (th : Thread) => holds (lossless inb) delivered (Some o) th.2)
               os (sys_threads y) /\
    sys_sent y ≡ₚ sys_received y ++ held inb (sys_world y) ++ concat os.

Lemma sys_step_exact inb y y' :
  inboxes_inj inb -> exact_inv inb y -> sys_step false inb y y' -> exact_inv inb y'.
Proof.
  intros Hinj [Hff (os & Hos & Hsent)] Hs.
  destruct Hs as [source target msg y|? ? ? [=]|? ? ? [=]|? ? [=]
    |i th th' w w' now ths sent rcv Hi Ht|n c msg w w' now ths sent rcv Hc Hr
    |? ? ? ? ? ? ? [=]|d w now ths sent rcv]; cbn in *.
  - split; [done|]. exists (os ++ [[(target, msg)]]). cbn. split.
    + apply Forall2_app; [done|]. apply Forall2_cons; [by apply lossless_send|done].
    + rewrite Hsent, concat_app. cbn. solve_Permutation.
  - destruct (Forall2_lookup_r _ _ _ _ _ Hos Hi) as (o & Ho & Hown).
    destruct th as [wake t], th' as [wake' t'].
    destruct (holds_task_step _ _ _ _ _ _ _ _ _ _ (lossless_same inb) Hown Ht) as ([o'|] & HR & Hown');
      [|done]. cbn in HR. destruct (HR Hff) as [Hff' Hp].
    split; [done|]. exists (<[i := o']> os). cbn. split; [by apply Forall2_insert|].
    apply (Permutation_app_inv_l o). rewrite Hsent. pose proof (concat_insert os i o o' Ho) as Hc.
    transitivity (rcv ++ (o ++ held inb w) ++ concat os); [solve_Permutation|].
    rewrite <- Hp. transitivity (rcv ++ held inb w' ++ (o' ++ concat os)); [solve_Permutation|].
    rewrite <- Hc. solve_Permutation.
  - unfold recv in Hr. cbn in Hr.
    destruct (Channel.mpsc_recv c (mesh w)) as [[m [msg'|]]|] eqn:Em; cbn in Hr; simplify_eq.
    split; [done|]. exists os. split; [done|]. cbn. rewrite Hsent. unfold held. cbn.
    rewrite (mpsc_recv_queued _ _ _ _ _ _ Hinj Hc Em). solve_Permutation.
  - split; [done|]. by exists os.
Qed.

(** C20: In a simulated network whose fault injection is never used, once every
    [send] has returned successfully each message has been received or waits
    in the inbox of its target, with multiplicity, whatever the interleaving
    of the concurrent sends. *)
Theorem healthy_network_lossless ids buf seed h halves w y :
  create ids buf seed = Some (h, halves, w) ->
  rtc (sys_step false (ns_inboxes h)) (sys_init w) y ->
  (forall th, th ∈ sys_threads y -> th.2 = Done (Ok tt)) ->
  sys_sent y ≡ₚ sys_received y ++ queued (ns_inboxes h) (mesh (sys_world y)).
Proof.
  intros Hc Hr Hdone. destruct (created_held _ _ _ _ _ _ Hc) as [Hinj Hheld].
  apply create_Some in Hc as (_ & Hsim & _).
  assert (exact_inv (ns_inboxes h) y) as [(_ & _ & Hb) (os & Hos & ->)].
  { assert (exact_inv (ns_inboxes h) (sys_init w)) as Hi.
    { split; cbn; [by rewrite Hsim|]. exists []. cbn. by rewrite Hheld. }
    clear Hdone. induction Hr as [|y1 y2 y3 Hs _ IH]; [done|]. apply IH. by eapply sys_step_exact. }
  assert (concat os = []) as ->.
  { induction Hos as [|o th os' ths Ho Hos IH]; [done|]. cbn.
    rewrite IH by (intros; apply Hdone; by constructor).
    rewrite (Hdone th) in Ho by constructor. inversion Ho as [? Hd| |]; subst.
    cbn in Hd. by rewrite Hd. }
  unfold held. rewrite Hb. unfold buffered. rewrite gmap_flat_empty, app_nil_r. done.
Qed.

(** ** One send, undisturbed *)

Context `{!RwLockLaws K}.

(** Nobody holds a guard. *)
Definition free (w : World) : Prop := rw_readers (lock w) = 0%nat /\ rw_writer (lock w) = false.

Lemma unlocked_free s m : free (unlocked s m).
Proof. apply rw_new_free. Qed.

Lemma task_run_read {A B} (f : SimulatorState -> A) (k : A -> Task World B) w :
  free w -> task_run (task_bind (read_guard f) k) w = task_run (k (f (sim w))) w.
Proof.
  intros [Hr Hw]. cbn. destruct (rw_read_granted (lock w) Hr Hw) as (l & -> & Hd). cbn. rewrite Hd.
  by destruct w.
Qed.

Lemma task_run_write {A B} (f : SimulatorState -> SimulatorState * A) (k : A -> Task World B) w :
  free w -> task_run (task_bind (write_guard f) k) w = task_run (k (f (sim w)).2) (set_sim (f (sim w)).1 w).
Proof.
  intros [Hr Hw]. cbn. destruct (rw_write_granted (lock w) Hr Hw) as (l & -> & Hd). cbn. by rewrite Hd.
Qed.

(** Only the generator differs. *)
Definition same_but_rng (w w' : World) : Prop :=
  mesh w' = mesh w /\ lock w' = lock w /\ link_rules (sim w') = link_rules (sim w) /\
  partitions (sim w') = partitions (sim w) /\ reorder_buffers (sim w') = reorder_buffers (sim w).

Lemma same_free w w' : same_but_rng w w' -> free w -> free w'.
Proof. unfold free. by intros (_ & -> & _). Qed.

Lemma draw_same {A} (f : R -> R * A) w :
  same_but_rng w (set_sim (draw f (sim w)).1 w) /\ (draw f (sim w)).2 = (f (rng (sim w))).2.
Proof. unfold draw, same_but_rng. by destruct (f _). Qed.

Lemma drop_check_run p w :
  free w ->
  exists w' b, task_run (drop_check p) w = Some (w', b, 0) /\ same_but_rng w w' /\
    (f64_lt (Fin 0) p = false -> b = false /\ w' = w) /\
    (f64_lt (Fin 0) p = true -> b = f64_lt (rng_gen (rng (sim w))).2 p).
Proof.
  intros Hfree. unfold drop_check. destruct (f64_lt (Fin 0) p) eqn:Ep.
  - rewrite task_run_write by done. destruct (draw_same rng_gen w) as [Hs Hd]. cbn [task_run].
    do 2 eexists. split_and!; [done|done|done|]. by rewrite Hd.
  - exists w, false. by split_and!.
Qed.

Lemma delay_wait_run {L : RngLaws R} range w :
  free w ->
  exists w' d, task_run (delay_wait range) w = Some (w', tt, d) /\ same_but_rng w w' /\
    match range with
    | None => d = 0
    | Some (lo, hi) => lo <= u64_max -> lo <= d /\ (lo <= hi -> d <= hi)
    end.
Proof.
  intros Hfree. destruct range as [[lo hi]|]; cbn [delay_wait]; [|exists w, 0; by split_and!].
  rewrite task_run_bind. destruct (hi <=? lo) eqn:Eh.
  - cbn. exists w. eexists. split_and!; [done..|]. lia.
  - rewrite task_run_write by done. destruct (draw_same (rng_gen_range lo hi) w) as [Hs Hd]. cbn [task_run].
    do 2 eexists. split_and!; [done|done|]. rewrite Hd. unfold from_nanos.
    pose proof (rng_gen_range_in lo hi (rng (sim w)) ltac:(lia)). destruct (_ <=? u64_max) eqn:E; lia.
Qed.

Lemma deliver_run inb to msg w :
  match inb !! to with
  | None => task_run (deliver inb to msg) w = Some (w, Err IoNotFound, 0)
  | Some tx =>
      match Channel.mpsc_send tx msg (mesh w) with
      | Some (m, r) =>
          task_run (deliver inb to msg) w =
          Some (set_mesh m w, result_map_err (fun _ => IoConnectionReset) r, 0)
      | None => task_run (deliver inb to msg) w = None
      end
  end.
Proof.
  unfold deliver. destruct (inb !! to) as [tx|]; [|done]. cbn. unfold inbox_send.
  by destruct (Channel.mpsc_send tx msg (mesh w)) as [[m r]|].
Qed.

(** C21: The rules of a link take effect in the documented order: a partition
    swallows the message before anything else; a drop probability of one
    loses it always and one that is not positive never; a reordering link
    buffers it without delay; otherwise it is delayed within the configured
    range and then sent as by the plain channel transport.  Apart from the
    generator nothing else changes.  The send runs alone, with the lock of the
    state free. *)
Theorem send_applies_rules {L : RngLaws R} source inb target msg s m :
  let w := unlocked s m in
  let link := (source, target) in
  let rules := default default_rules (link_rules (sim w) !! link) in
  let run := task_run (send (mkSender source inb) target msg) w in
  (link ∈ partitions (sim w) -> run = Some (w, Ok tt, 0)) /\
  (link ∉ partitions (sim w) ->
   (f64_lt (Fin 0) (drop_probability rules) = true ->
    (forall q, (q < 1)%Q -> f64_lt (Fin q) (drop_probability rules) = true) ->
    exists w', run = Some (w', Ok tt, 0) /\ same_but_rng w w') /\
   (f64_lt (Fin 0) (drop_probability rules) = false -> reorder rules = true ->
    run = Some (set_sim (push_buffer link msg (sim w)).1 w, Ok tt, 0)) /\
   (f64_lt (Fin 0) (drop_probability rules) = false -> reorder rules = false ->
    exists w1 d, same_but_rng w w1 /\
      match delay_range rules with
      | None => d = 0
      | Some (lo, hi) => lo <= u64_max -> lo <= d /\ (lo <= hi -> d <= hi)
      end /\
      run = match task_run (Channel.send (Channel.mkSender inb) target msg) (mesh w) with
            | Some (m', r, _) => Some (set_mesh m' w1, r, d)
            | None => None
            end)).
Proof.
  intros w link rules run. assert (free w) as Hfree by apply unlocked_free. clearbody w.
  subst run. unfold send. rewrite task_run_read by done.
  cbn [ss_source ss_inboxes]. fold link.
  assert (read_rules link (sim w) =
          mkSnapshot (bool_decide (link ∈ partitions (sim w))) (drop_probability rules)
            (delay_range rules) (reorder rules)) as ->.
  { unfold read_rules, rules. by destruct (link_rules (sim w) !! link). }
  cbn [snap_partitioned snap_drop snap_reorder snap_delay]. split.
  { intros Hin. by rewrite bool_decide_true. }
  intros Hout. rewrite bool_decide_false by done. rewrite task_run_bind.
  destruct (drop_check_run (drop_probability rules) w Hfree) as (w1 & b & -> & Hsame & Hno & Hyes).
  split_and!.
  - intros Hp H1. rewrite (Hyes Hp). destruct (rng_gen_unit (rng (sim w))) as (q & -> & _ & Hq).
    rewrite (H1 q Hq). by exists w1.
  - intros Hp ->. destruct (Hno Hp) as [-> ->]. by rewrite task_run_write.
  - intros Hp ->. destruct (Hno Hp) as [-> ->]. rewrite task_run_bind.
    destruct (delay_wait_run (delay_range rules) w Hfree) as (w2 & d & -> & Hs2 & Hd).
    exists w2, d. split_and!; [done|done|].
    pose proof (deliver_run inb target msg w2) as Hrun. rewrite Channel.task_run_send. cbn.
    destruct (inb !! target) as [tx|]; [|rewrite Hrun; destruct Hs2 as (<- & _); by destruct w2; rewrite !N.add_0_r].
    destruct Hs2 as (<- & _).
    destruct (Channel.mpsc_send tx msg (mesh w2)) as [[m' [[]|e]]|]; rewrite Hrun; cbn;
      by rewrite ?N.add_0_r.
Qed.

(** ** Configuration *)

Lemma partition_inner_spec (a : NodeId) (set_b : list NodeId) (ps : gset Link) (l : Link) :
  l ∈ foldl (fun ps b => {[(b, a)]} ∪ ({[(a, b)]} ∪ ps)) ps set_b <->
  l ∈ ps \/ (exists b, b ∈ set_b /\ (l = (a, b) \/ l = (b, a))).
Proof.
  revert ps. induction set_b as [|b set_b IH]; intros ps; cbn [foldl]; [set_solver|].
  rewrite IH. set_solver.
Qed.

Lemma partition_spec (set_a set_b : list NodeId) s (from to : NodeId) :
  (from, to) ∈ partitions (partition set_a set_b s) <->
  (from, to) ∈ partitions s \/ (from ∈ set_a /\ to ∈ set_b) \/ (from ∈ set_b /\ to ∈ set_a).
Proof.
  unfold partition. cbn [with_partitions partitions]. generalize (partitions s) as ps.
  induction set_a as [|a set_a IH]; intros ps; cbn [foldl]; [set_solver|].
  rewrite IH, partition_inner_spec. split.
  - intros [[?|(b & Hb & [?|?])]|?]; simplify_eq; set_solver.
  - intros [?|[[Hf Ht]|[Hf Ht]]]; [set_solver|..].
    + apply elem_of_cons in Hf as [->|Hf]; [left; right; exists to; by auto|set_solver].
    + apply elem_of_cons in Ht as [->|Ht]; [left; right; exists from; by auto|set_solver].
Qed.

(** Partitioning two groups blocks exactly the links between them, in both
    directions and besides those blocked already: a send across the cut
    returns successfully and changes nothing at all, the generator included.
    Healing clears every partition; healing a link clears that direction
    only. *)
Theorem partition_blocks_exactly (set_a set_b : list NodeId) inb s m (from to : NodeId) msg :
  let w := unlocked (partition set_a set_b s) m in
  is_partitioned from to (sim w) =
    is_partitioned from to s ||
    bool_decide ((from ∈ set_a /\ to ∈ set_b) \/ (from ∈ set_b /\ to ∈ set_a)) /\
  (is_partitioned from to (sim w) = true ->
   task_run (send (mkSender from inb) to msg) w = Some (w, Ok tt, 0)) /\
  is_partitioned from to (heal_partition (sim w)) = false /\
  (forall f t, is_partitioned from to (heal_link f t (sim w)) =
     is_partitioned from to (sim w) && negb ((f =? from) && (t =? to))).
Proof.
  intros w. split_and!.
  - unfold is_partitioned, w. cbn [sim unlocked].
    apply eq_true_iff_eq. rewrite orb_true_iff, !bool_decide_eq_true. apply partition_spec.
  - intros Hp. unfold send. rewrite task_run_read by apply unlocked_free. cbn [ss_source].
    unfold read_rules. cbn [snap_partitioned]. unfold is_partitioned in Hp. by rewrite Hp.
  - unfold is_partitioned. apply bool_decide_eq_false. set_solver.
  - intros f t. unfold is_partitioned. apply eq_true_iff_eq.
    rewrite andb_true_iff, !bool_decide_eq_true. cbn [heal_link with_partitions partitions].
    rewrite elem_of_difference, elem_of_singleton. split; intros [? Hne]; (split; [done|]).
    + destruct (f =? from) eqn:E1, (t =? to) eqn:E2; cbn; try done.
      destruct Hne. f_equal; lia.
    + intros [= -> ->]. by rewrite !N.eqb_refl in Hne.
Qed.

(** What every rule satisfies: a probability of the unit interval (or not a
    number, which no comparison accepts) and an ordered range. *)
Definition rules_wf (r : LinkRules) : Prop :=
  f64_lt (drop_probability r) (Fin 0) = false /\ f64_lt (Fin 1) (drop_probability r) = false /\
  match delay_range r with Some (lo, hi) => lo <= hi | None => True end.

Definition state_wf (s : SimulatorState) : Prop :=
  forall link r, link_rules s !! link = Some r -> rules_wf r.

Lemma default_rules_wf : rules_wf default_rules.
Proof. done. Qed.

Lemma rules_entry_wf link s : state_wf s -> rules_wf (rules_entry link s).
Proof.
  intros Hs. unfold rules_entry. destruct (link_rules s !! link) eqn:E; [by eapply Hs|].
  apply default_rules_wf.
Qed.

Lemma with_rules_wf link r s : rules_wf r -> state_wf s -> state_wf (with_rules link r s).
Proof.
  intros Hr Hs k r'. cbn. destruct (decide (k = link)) as [->|Hk].
  - rewrite lookup_insert_eq. by intros [= <-].
  - rewrite lookup_insert_ne by done. apply Hs.
Qed.

Lemma clamp_unit p :
  f64_lt (f64_clamp (Fin 0) (Fin 1) p) (Fin 0) = false /\
  f64_lt (Fin 1) (f64_clamp (Fin 0) (Fin 1) p) = false.
Proof.
  unfold f64_clamp. destruct (f64_lt p (Fin 0)) eqn:E0; [done|].
  destruct (f64_lt (Fin 1) p) eqn:E1; [done|]. done.
Qed.

Lemma configure_wf c s : state_wf s -> state_wf (configure c s).
Proof.
  intros Hs. destruct c as [from to p|from to lo hi|from to|from to|a b|from to| |from to|]; cbn;
    try done.
  - apply with_rules_wf; [|done]. destruct (rules_entry_wf (from, to) s Hs) as (_ & _ & Hd).
    destruct (clamp_unit p). by split_and!.
  - unfold set_delay. destruct (rules_entry_wf (from, to) s Hs) as (Hp0 & Hp1 & _).
    destruct (hi <? lo) eqn:E; apply with_rules_wf; try done; split_and!; cbn; try done; lia.
  - unfold clear_delay. destruct (link_rules s !! (from, to)) as [r|] eqn:E; [|done].
    apply with_rules_wf; [|done]. destruct (Hs _ _ E) as (? & ? & _). by split_and!.
  - unfold enable_reordering. intros k r. cbn.
    apply (with_rules_wf (from, to)); [|done].
    destruct (rules_entry_wf (from, to) s Hs) as (? & ? & ?). by split_and!.
Qed.

(** C35: Whatever is configured, in whatever order, on a simulator without rules,
    every link has a drop probability that compares neither below zero nor above
    one (a probability that is not a number stays one) and a delay range whose
    lower end does not exceed its upper end.  So a send over a link that is not
    partitioned, has no positive drop probability and does not reorder, and
    whose delays start below 2^64 nanoseconds, waits a time inside its range. *)
Theorem configured_delays_bounded {L : RngLaws R} (cs : list Config) (r : R) :
  let s := foldl (fun s c => configure c s) (mkState ∅ ∅ ∅ r) cs in
  state_wf s /\
  forall source inb target msg m lo hi w' res d,
    let rules := rules_entry (source, target) s in
    f64_lt (Fin 0) (drop_probability rules) = false -> reorder rules = false ->
    (source, target) ∉ partitions s ->
    delay_range rules = Some (lo, hi) -> lo <= u64_max ->
    task_run (send (mkSender source inb) target msg) (unlocked s m) = Some (w', res, d) ->
    lo <= d <= hi.
Proof.
  intros s. assert (state_wf s) as Hs.
  { subst s. induction cs as [|c cs IH] using rev_ind;
      [intros link r0 E; cbn in E; by rewrite lookup_empty in E|].
    rewrite foldl_app. by apply configure_wf. }
  split; [done|]. intros source inb target msg m lo hi w' res d rules Hp Hr Hout Hd Hlo Hrun.
  destruct (rules_entry_wf (source, target) s Hs) as (_ & _ & Hle). fold rules in Hle. rewrite Hd in Hle.
  pose proof (unlocked_free s m) as Hfree.
  revert Hrun. unfold send. rewrite task_run_read by done. cbn [ss_source ss_inboxes sim unlocked].
  assert (read_rules (source, target) s =
          mkSnapshot false (drop_probability rules) (Some (lo, hi)) false) as ->.
  { unfold read_rules. rewrite bool_decide_false by done. rewrite <- Hr, <- Hd. unfold rules, rules_entry.
    by destruct (link_rules s !! (source, target)). }
  cbn [snap_partitioned snap_drop snap_reorder snap_delay]. rewrite task_run_bind.
  destruct (drop_check_run (drop_probability rules) _ Hfree) as (w1 & b & -> & _ & Hno & _).
  destruct (Hno Hp) as [-> ->]. rewrite task_run_bind.
  destruct (delay_wait_run (Some (lo, hi)) _ Hfree) as (w2 & d2 & -> & _ & Hd2).
  pose proof (deliver_run inb target msg w2) as Hdel.
  assert (forall x, task_run (deliver inb target msg) w2 = Some x -> x.2 = 0) as Hz.
  { intros x Hx. rewrite Hx in Hdel. destruct (inb !! target); [|by simplify_eq].
    destruct (Channel.mpsc_send _ _ _) as [[??]|]; by simplify_eq. }
  destruct (task_run (deliver inb target msg) w2) as [[[w3 r3] d3]|] eqn:E; [|done].
  specialize (Hz _ eq_refl). cbn in Hz. intros [= <- <- <-]. destruct (Hd2 Hlo) as [? Hhi].
  specialize (Hhi Hle). lia.
Qed.

(** ** No deadlock

    Whether an operation can get stuck depends on what it waits for while it
    holds a guard. *)

(** An inbox of the simulator is at capacity and still read by somebody. *)
Definition inbox_full (inb : gmap NodeId nat) (w : World) : Prop :=
  exists n c ch, inb !! n = Some c /\ Channel.chans (mesh w) !! c = Some ch /\
    Channel.rx_alive ch = true /\ Channel.capacity ch <= N.of_nat (length (Channel.queue ch)).

(** [well_locked inb g t]: the task [t] runs with the guard [g] in its hands,
    or none.  It sleeps, waits for the lock, waits for an inbox and returns
    only without a guard; with one, its next action drops it and is never
    pending. *)
#[warnings="-register-all"] Inductive well_locked {A} (inb : gmap NodeId nat) : option Guard -> Task World A -> Prop :=
| wl_done a : well_locked inb None (Done a)
| wl_sleep d k : well_locked inb None k -> well_locked inb None (Sleep d k)
| wl_take g f :
    (forall w, is_Some (guard_take g (lock w)) -> is_Some (f w)) ->
    (forall w w' t, f w = Some (w', t) -> guard_take g (lock w) = Some (lock w')) ->
    (forall w w' t, f w = Some (w', t) -> well_locked inb (Some g) t) ->
    well_locked inb None (Step f)
| wl_drop g f :
    (forall w, is_Some (f w)) ->
    (forall w w' t, f w = Some (w', t) -> lock w' = guard_drop g (lock w)) ->
    (forall w w' t, f w = Some (w', t) -> well_locked inb None t) ->
    well_locked inb (Some g) (Step f)
| wl_inbox f :
    (forall w, f w = None -> inbox_full inb w) ->
    (forall w w' t, f w = Some (w', t) -> lock w' = lock w) ->
    (forall w w' t, f w = Some (w', t) -> well_locked inb None t) ->
    well_locked inb None (Step f).

Lemma bind_step_some {A B} (f : World -> option (World * Task World A)) (k : A -> Task World B) w w' t :
  match f w with Some (w1, t1) => Some (w1, task_bind t1 k) | None => None end = Some (w', t) ->
  exists t1, f w = Some (w', t1) /\ t = task_bind t1 k.
Proof. destruct (f w) as [[w1 t1]|]; [|done]. intros [= <- <-]. eauto. Qed.

Lemma well_locked_bind {A B} inb g (t : Task World A) (k : A -> Task World B) :
  well_locked inb g t -> (forall a, well_locked inb None (k a)) -> well_locked inb g (task_bind t k).
Proof.
  intros Ht Hk. induction Ht as [a|d t' _ IH|g f Hs Hl _ IH|g f Hs Hl _ IH|f Hs Hl _ IH]; cbn [task_bind].
  - apply Hk.
  - by constructor.
  - apply (wl_take inb g).
    + intros w Hg. destruct (Hs w Hg) as [[w' t] ->]. eauto.
    + intros w w' t (t1 & E & ->)%bind_step_some. eauto.
    + intros w w' t (t1 & E & ->)%bind_step_some. eauto.
  - apply wl_drop.
    + intros w. destruct (Hs w) as [[w' t] ->]. eauto.
    + intros w w' t (t1 & E & ->)%bind_step_some. eauto.
    + intros w w' t (t1 & E & ->)%bind_step_some. eauto.
  - apply wl_inbox.
    + intros w Hn. apply Hs. by destruct (f w) as [[??]|].
    + intros w w' t (t1 & E & ->)%bind_step_some. eauto.
    + intros w w' t (t1 & E & ->)%bind_step_some. eauto.
Qed.

(** A block that takes a guard, works and drops it. *)
Lemma well_locked_block {A} inb g (h : World -> World * A) :
  (forall w, lock (h w).1 = guard_drop g (lock w)) ->
  well_locked inb None (_ <-- acquire g ;; await (fun w => Some (h w))).
Proof.
  intros Hd. apply (wl_take inb g).
  - intros w [l Hl]. cbn. rewrite Hl. by eexists.
  - intros w w' t. cbn. destruct (guard_take g (lock w)) as [l|]; [|done]. by intros [= <- <-].
  - intros w w' t. cbn. destruct (guard_take g (lock w)) as [l|]; [|done]. intros [= <- <-].
    apply wl_drop; intros v; cbn; [by destruct (h v); eexists|..];
      intros v' t'; specialize (Hd v); destruct (h v) as [v1 b]; intros [= <- <-]; [done|constructor].
Qed.

Lemma well_locked_read {A} inb (f : SimulatorState -> A) : well_locked inb None (read_guard f).
Proof. by apply (well_locked_block inb Reading). Qed.

Lemma well_locked_write {A} inb (f : SimulatorState -> SimulatorState * A) :
  well_locked inb None (write_guard f).
Proof. by apply (well_locked_block inb Writing). Qed.

Lemma well_locked_deliver inb to msg : well_locked inb None (deliver inb to msg).
Proof.
  unfold deliver. destruct (inb !! to) as [c|] eqn:Ec; [|constructor].
  apply well_locked_bind; [|constructor]. apply wl_inbox; intros w; unfold inbox_send.
  - destruct (Channel.mpsc_send c msg (mesh w)) as [[m r]|] eqn:Es; [done|]. intros _.
    destruct (Channel.chans (mesh w) !! c) as [ch|] eqn:Ech; [|by unfold Channel.mpsc_send in Es; rewrite Ech in Es].
    exists to, c, ch. split_and!; [done..| |];
      destruct (Channel.mpsc_send_spec c msg (mesh w) ch Ech)
        as [(Ha & Hm)|[(Ha & Hf & _)|(_ & _ & ch' & Hm & _)]]; congruence.
  - intros w' t. destruct (Channel.mpsc_send c msg (mesh w)) as [[m r]|]; [|done]. by intros [= <- <-].
  - intros w' t. destruct (Channel.mpsc_send c msg (mesh w)) as [[m r]|]; [|done]. intros [= <- <-].
    constructor.
Qed.

Create HintDb wl.
#[local] Hint Constructors well_locked : wl.
#[local] Hint Resolve well_locked_bind well_locked_read well_locked_write well_locked_deliver : wl.

Lemma well_locked_drop_check inb p : well_locked inb None (drop_check p).
Proof. unfold drop_check. destruct (f64_lt _ _); auto with wl. Qed.

Lemma well_locked_delay inb range : well_locked inb None (delay_wait range).
Proof.
  destruct range as [[lo hi]|]; cbn [delay_wait]; [|constructor].
  apply well_locked_bind; [|repeat constructor]. destruct (_ <=? _); auto with wl.
Qed.
#[local] Hint Resolve well_locked_drop_check well_locked_delay : wl.

Lemma well_locked_faults inb from to msg : well_locked inb None (apply_faults_and_deliver inb from to msg).
Proof.
  apply well_locked_bind; [auto with wl|].
  intros [[] p d r]; cbn [snap_partitioned snap_drop snap_delay snap_reorder ss_inboxes ss_source]; [constructor|].
  apply well_locked_bind; [auto with wl|]. intros []; auto with wl.
Qed.
#[local] Hint Resolve well_locked_faults : wl.

Lemma well_locked_send inb source target msg :
  well_locked inb None (send (mkSender source inb) target msg).
Proof.
  apply well_locked_bind; [auto with wl|].
  intros [[] p d r]; cbn [snap_partitioned snap_drop snap_delay snap_reorder ss_inboxes ss_source]; [constructor|].
  apply well_locked_bind; [auto with wl|]. intros []; [constructor|]. destruct r; auto with wl.
Qed.

Lemma well_locked_deliver_all inb from to msgs : well_locked inb None (deliver_all inb from to msgs).
Proof. induction msgs; cbn [deliver_all]; auto with wl. Qed.
#[local] Hint Resolve well_locked_send well_locked_deliver_all : wl.

Lemma well_locked_flush inb from to : well_locked inb None (flush_reorder_buffer (mkSimulator inb) from to).
Proof. apply well_locked_bind; cbn [ns_inboxes]; auto with wl. Qed.

Lemma well_locked_disable inb from to : well_locked inb None (disable_reordering (mkSimulator inb) from to).
Proof. apply well_locked_bind; cbn [ns_inboxes]; auto with wl. Qed.

Lemma well_locked_config inb c : well_locked inb None (config_task c).
Proof. apply well_locked_bind; auto with wl. Qed.
#[local] Hint Resolve well_locked_flush well_locked_disable well_locked_config : wl.

(** How many of the guards are of the kind [g]. *)
Definition guards_of (g : Guard) (gs : list (option Guard)) : nat :=
  length (filter (fun o => o = Some g) gs).

Lemma guards_of_app g gs gs' : guards_of g (gs ++ gs') = (guards_of g gs + guards_of g gs')%nat.
Proof. unfold guards_of. by rewrite list.filter_app, length_app. Qed.

Lemma guards_of_one g o :
  guards_of g [o] = match o, g with
                    | Some Reading, Reading | Some Writing, Writing => 1%nat
                    | _, _ => 0%nat
                    end.
Proof. by destruct o as [[]|], g. Qed.
#[local] Arguments guards_of : simpl never.

Lemma guards_of_insert g gs i o o' :
  gs !! i = Some o ->
  (guards_of g (<[i := o']> gs) + guards_of g [o] = guards_of g gs + guards_of g [o'])%nat.
Proof.
  intros Hi. pose proof (lookup_lt_Some _ _ _ Hi).
  rewrite insert_take_drop by done. rewrite <- (take_drop_middle gs i o Hi) at 3.
  change (o' :: drop (S i) gs) with ([o'] ++ drop (S i) gs).
  change (o :: drop (S i) gs) with ([o] ++ drop (S i) gs). rewrite !guards_of_app. lia.
Qed.

(** The lock knows the guards the threads hold. *)
Definition lock_inv (inb : gmap NodeId nat) (y : System) : Prop :=
  exists gs, Forall2 (fun g th => well_locked inb g (snd th)) gs (sys_threads y) /\
    rw_readers (lock (sys_world y)) = guards_of Reading gs /\
    Nat.b2n (rw_writer (lock (sys_world y))) = guards_of Writing gs.

Lemma lock_inv_spawn inb y t :
  lock_inv inb y -> well_locked inb None t -> lock_inv inb (spawn t y).
Proof.
  intros (gs & Hf & Hr & Hw) Ht. exists (gs ++ [None]). cbn.
  rewrite !guards_of_app, Hr, Hw. split_and!; [|symmetry; apply Nat.add_0_r..].
  by apply Forall2_app; [|repeat constructor].
Qed.

(** One action of a thread, in terms of the guard it holds. *)
Lemma well_locked_step {A} inb now w g wake (t : Task World A) w' wake' t' :
  well_locked inb g t -> task_step now w (wake, t) w' (wake', t') ->
  exists g', well_locked inb g' t' /\
    match g, g' with
    | None, None => lock w' = lock w
    | None, Some g' => guard_take g' (lock w) = Some (lock w')
    | Some g, None => lock w' = guard_drop g (lock w)
    | Some _, Some _ => False
    end.
Proof.
  intros Ht Hs. inversion Hs; subst; inversion Ht; subst.
  - exists (Some g0). eauto.
  - exists None. eauto.
  - exists None. eauto.
  - exists None. eauto.
Qed.

Lemma lock_inv_step inb faults y y' : lock_inv inb y -> sys_step faults inb y y' -> lock_inv inb y'.
Proof.
  intros Hinv Hs. destruct Hs as [source target msg y|from to y _|from to y _|c y _
    |i [wake t] [wake' t'] w w' now ths sent rcv Hi Hs|n c msg w w' now ths sent rcv Hc Hr
    |n c w now ths sent rcv _ Hc|d w now ths sent rcv].
  - destruct (lock_inv_spawn inb y (send (mkSender source inb) target msg) Hinv) as (gs & ?); [auto with wl|].
    by exists gs.
  - apply lock_inv_spawn; auto with wl.
  - apply lock_inv_spawn; auto with wl.
  - apply lock_inv_spawn; auto with wl.
  - destruct Hinv as (gs & Hf & Hr & Hw). cbn in *.
    destruct (Forall2_lookup_r _ _ _ _ _ Hf Hi) as (g & Hg & Ht). cbn in Ht.
    destruct (well_locked_step _ _ _ _ _ _ _ _ _ Ht Hs) as (g' & Ht' & Hl).
    exists (<[i := g']> gs). cbn. split; [by apply Forall2_insert|].
    pose proof (guards_of_insert Reading gs i g g' Hg) as Hcr.
    pose proof (guards_of_insert Writing gs i g g' Hg) as Hcw.
    rewrite !guards_of_one in Hcr, Hcw.
    destruct g as [[|]|], g' as [[|]|]; try done; cbn in Hcr, Hcw, Hl.
    + destruct (rw_read_dropped (lock w)) as [H1 H2]; [lia|]. rewrite Hl, H1, H2. lia.
    + destruct (rw_writer (lock w)) eqn:Ew; cbn in Hw; [|lia].
      destruct (rw_write_dropped (lock w) Ew) as [H1 H2]. rewrite Hl, H1, H2. cbn. lia.
    + destruct (rw_read_shared _ _ Hl) as (H1 & H2 & H3). rewrite H1 in Hw. rewrite H2, H3. cbn in *. lia.
    + destruct (rw_write_exclusive _ _ Hl) as (H1 & H2 & H3 & H4). rewrite H2 in Hw. rewrite H3, H4. cbn in *. lia.
    + rewrite Hl. lia.
  - destruct Hinv as (gs & Hinv). exists gs. cbn in *.
    destruct (Channel.mpsc_recv c (mesh w)) as [[m [msg'|]]|]; cbn in Hr; by simplify_eq.
  - exact Hinv.
  - exact Hinv.
Qed.

(** A thread acts, after some time. *)
Definition thread_step (y y' : System) : Prop :=
  exists d i th th' w', sys_threads y !! i = Some th /\
    task_step (sys_now y + d) (sys_world y) th w' th' /\
    y' = mkSystem w' (sys_now y + d) (<[i := th']> (sys_threads y)) (sys_sent y) (sys_received y).

Lemma thread_step_runs faults inb y y' : thread_step y y' -> rtc (sys_step faults inb) y y'.
Proof.
  intros (d & i & th & th' & w' & Hi & Hs & ->). destruct y as [w now ths sent rcv]. cbn in *.
  eapply rtc_l; [apply (sys_tick _ _ d)|]. eapply rtc_once. by eapply sys_thread.
Qed.

Lemma thread_step_acc y : Acc (flip thread_step) y.
Proof.
  remember (map snd (sys_threads y)) as ts eqn:Hts. revert y Hts.
  induction (pool_terminates ts) as [ts _ IH]. intros y ->. constructor.
  intros y' (d & i & [wake t] & [wake' t'] & w' & Hi & Hs & ->). eapply IH; [|reflexivity].
  exists i, t, t'. cbn. rewrite list_lookup_fmap, Hi, list_fmap_insert. split_and!; [done| |done].
  inversion Hs; subst; by econstructor.
Qed.

Lemma thread_can_step y i wake t w' t' :
  sys_threads y !! i = Some (wake, t) ->
  (forall now, wake <= now -> exists wake', task_step now (sys_world y) (wake, t) w' (wake', t')) ->
  exists y', thread_step y y'.
Proof.
  intros Hi Hs. destruct (Hs (sys_now y + wake)) as [wake' Hs']; [lia|].
  eexists. exists wake, i, (wake, t), (wake', t'), w'. eauto.
Qed.

Lemma quiescent_free inb y :
  lock_inv inb y -> (forall y', ~ thread_step y y') ->
  free (sys_world y) /\ Forall (fun th => well_locked inb None (snd th)) (sys_threads y).
Proof.
  intros (gs & Hf & Hr & Hw) Hq.
  assert (Hnone : Forall (fun g => g = None) gs).
  { apply Forall_lookup. intros i [g|] Hi; [|done]. exfalso.
    destruct (Forall2_lookup_l _ _ _ _ _ Hf Hi) as ([wake t] & Hth & Ht). cbn in Ht.
    inversion Ht as [| | |g' f Hs _ _|]; subst.
    destruct (Hs (sys_world y)) as [[w' t'] Ef].
    destruct (thread_can_step y i wake (Step f) w' t' Hth) as [y' Hy]; [|by eapply Hq].
    intros now Hnow. eexists. by constructor. }
  assert (Hzero : forall g, guards_of g gs = 0%nat).
  { intros g. unfold guards_of. clear - Hnone. induction Hnone as [|o gs -> _ IH]; [done|].
    by rewrite list.filter_cons_False. }
  rewrite Hzero in Hr, Hw. split; [split; [done|by destruct (rw_writer _)]|].
  clear - Hf Hnone. induction Hf as [|g th gs ths Ht Hf IH]; [done|].
  inversion Hnone; subst. constructor; [done|by apply IH].
Qed.

(** C22: The simulator neither spins nor deadlocks.  In every reachable state,
    whatever sends, flushes and configuration changes are in flight: the
    threads make finitely many actions before all of them are done or wait;
    and when none can act any more, even after any delay has passed, nobody
    holds the lock of the state and every unfinished call waits for an inbox
    that is full and still has its receiver.  In particular no call waits for
    the lock for ever, and all return when there is room. *)
Theorem simulator_deadlock_free ids buf seed h halves w y :
  create ids buf seed = Some (h, halves, w) ->
  rtc (sys_step true (ns_inboxes h)) (sys_init w) y ->
  Acc (flip thread_step) y /\
  forall y', rtc thread_step y y' -> (forall y'', ~ thread_step y' y'') ->
    free (sys_world y') /\
    forall wake t, (wake, t) ∈ sys_threads y' ->
      (exists r, t = Done r) \/
      (exists f, t = Step f /\ f (sys_world y') = None /\ inbox_full (ns_inboxes h) (sys_world y')).
Proof.
  intros Hc Hrun. split; [apply thread_step_acc|]. intros y' Hrun' Hq.
  assert (Hinv : lock_inv (ns_inboxes h) y').
  { assert (Hall : rtc (sys_step true (ns_inboxes h)) (sys_init w) y').
    { etransitivity; [exact Hrun|]. clear - Hrun'. induction Hrun' as [|y1 y2 y3 H12 _ IH]; [done|].
      etransitivity; [by eapply thread_step_runs|done]. }
    refine (rtc_ind_r (lock_inv (ns_inboxes h)) _ _ _ y' Hall).
    - exists []. cbn. rewrite (created_unlocked _ _ _ _ _ _ Hc).
      destruct rw_new_free as [-> ->]. by split_and!.
    - intros y1 y2 _ Hs Hi. by eapply lock_inv_step. }
  destruct (quiescent_free _ _ Hinv Hq) as [Hfree Hths]. split; [done|].
  intros wake t [i Hi]%list_elem_of_lookup. pose proof (Forall_lookup_1 _ _ _ _ Hths Hi) as Ht. cbn in Ht.
  inversion Ht as [a|d k _|g f Hs _ _| |f Hs _ _]; subst.
  - eauto.
  - exfalso. destruct (thread_can_step y' i wake (Sleep d k) (sys_world y') k Hi) as [y2 Hy]; [|by eapply Hq].
    intros now Hnow. eexists. by constructor.
  - exfalso. destruct (Hs (sys_world y')) as [[w' t'] Ef].
    { destruct Hfree as [Hr Hw]. destruct g; cbn.
      - destruct (rw_read_granted _ Hr Hw) as (l & -> & _). eauto.
      - destruct (rw_write_granted _ Hr Hw) as (l & -> & _). eauto. }
    destruct (thread_can_step y' i wake (Step f) w' t' Hi) as [y2 Hy]; [|by eapply Hq].
    intros now Hnow. eexists. by constructor.
  - right. exists f. destruct (f (sys_world y')) as [[w' t']|] eqn:Ef; [|eauto].
    exfalso. destruct (thread_can_step y' i wake (Step f) w' t' Hi) as [y2 Hy]; [|by eapply Hq].
    intros now Hnow. eexists. by constructor.
Qed.

(** ** Flushing a healthy link *)

Definition quiet_link (link : Link) (s : SimulatorState) : Prop :=
  (link ∉ partitions s) /\ f64_lt (Fin 0) (drop_probability (rules_entry link s)) = false /\
  delay_range (rules_entry link s) = None.

Lemma faults_quiet inb from to msg w :
  free w -> quiet_link (from, to) (sim w) ->
  task_run (apply_faults_and_deliver inb from to msg) w = task_run (deliver inb to msg) w.
Proof.
  intros Hfree (Hout & Hp & Hd). unfold apply_faults_and_deliver. rewrite task_run_read by done.
  unfold read_rules, rules_entry in *. cbn [snap_partitioned snap_drop snap_delay].
  rewrite bool_decide_false by done.
  destruct (link_rules (sim w) !! (from, to)) as [r|]; cbn [default from_option id] in *;
    unfold drop_check; rewrite ?Hp, ?Hd; done.
Qed.

Lemma deliver_all_quiet inb from to c msgs : inb !! to = Some c -> forall w ch,
  free w -> quiet_link (from, to) (sim w) ->
  Channel.chans (mesh w) !! c = Some ch -> Channel.rx_alive ch = true ->
  N.of_nat (length (Channel.queue ch) + length msgs) <= Channel.capacity ch ->
  exists m', task_run (deliver_all inb from to msgs) w = Some (set_mesh m' w, tt, 0) /\
    queue_of c m' = Channel.queue ch ++ msgs.
Proof.
  intros Hc. induction msgs as [|msg msgs IH]; intros w ch Hfree Hq Hch Hal Hroom; cbn [deliver_all].
  - exists (mesh w). split; [by destruct w|]. unfold queue_of. by rewrite Hch, app_nil_r.
  - rewrite task_run_bind, faults_quiet by done.
    pose proof (deliver_run inb to msg w) as Hd. rewrite Hc in Hd. cbn in Hroom.
    destruct (Channel.mpsc_send_spec c msg (mesh w) ch Hch)
      as [(Ha & _)|[(_ & Hfull & _)|(_ & _ & ch' & Es & Hq' & Hcap' & Ha')]]; [congruence|lia|].
    rewrite Es in Hd. rewrite Hd. set (m1 := Channel.mkMesh _ _).
    destruct (IH (set_mesh m1 w) ch') as (m' & -> & Hqueue); [done|done| |done| |].
    + apply list_lookup_insert_eq. by eapply lookup_lt_Some.
    + rewrite Hq', Hcap', length_app. cbn. lia.
    + exists m'. split; [done|]. by rewrite Hqueue, Hq', <- app_assoc.
Qed.

(** Flushing a link without partition, drops and delays whose target has
    room appends all buffered messages to the target's inbox in the order of
    the shuffle, behind what was there, and leaves the buffer empty. *)
Theorem flush_delivers_permutation {L : RngLaws R} inb from to c ch w buffer :
  inb !! to = Some c -> free w -> quiet_link (from, to) (sim w) ->
  reorder_buffers (sim w) !! (from, to) = Some buffer ->
  Channel.chans (mesh w) !! c = Some ch -> Channel.rx_alive ch = true ->
  N.of_nat (length (Channel.queue ch) + length buffer) <= Channel.capacity ch ->
  exists w' msgs, task_run (flush_reorder_buffer (mkSimulator inb) from to) w = Some (w', tt, 0) /\
    msgs ≡ₚ buffer /\ queue_of c (mesh w') = Channel.queue ch ++ msgs /\
    reorder_buffers (sim w') = <[(from, to) := []]> (reorder_buffers (sim w)).
Proof.
  intros Hc Hfree Hq Hb Hch Hal Hroom. unfold flush_reorder_buffer. rewrite task_run_write by done.
  unfold drain_buffer. rewrite Hb.
  pose proof (rng_shuffle_perm buffer (rng (sim w))) as Hp.
  destruct (rng_shuffle buffer (rng (sim w))) as [r msgs]. cbn [fst snd ns_inboxes] in *.
  set (w1 := set_sim _ w).
  destruct (deliver_all_quiet inb from to c msgs Hc w1 ch) as (m' & Hrun & Hqueue); try done.
  { by rewrite Hp. }
  exists (set_mesh m' w1), msgs. split_and!; done.
Qed.

End Simulator.

(** ** Demonstration

    A generator that always draws one half, cycles through ranges and
    reverses. *)

Module Demo.

#[export] Instance half_Rng : Rng N := {|
  seed_from_u64 s := s;
  rng_gen r := (r + 1, Fin (1 # 2));
  rng_gen_range lo hi r := (r + 1, lo + r mod (hi - lo + 1));
  rng_shuffle l r := (r + 1, rev l);
|}.

#[export] Instance half_RngLaws : RngLaws N.
Proof.
  split.
  - intros r. exists (1 # 2). by vm_compute.
  - intros lo hi r Hle. cbn. pose proof (N.mod_lt r (hi - lo + 1) ltac:(lia)). lia.
  - intros l r. cbn. symmetry. apply Permutation_rev.
Defined.

Abbreviation DWorld := (World (R := N) (K := CountingLock) (C := Channel.Chan)) (only parsing).
Abbreviation DSystem := (System (R := N) (K := CountingLock) (C := Channel.Chan)) (only parsing).

Definition net : NetworkSimulator * gmap NodeId (SimulatorSender * SimulatorReceiver) * DWorld :=
  default (mkSimulator ∅, ∅, unlocked (mkState ∅ ∅ ∅ 0) (Channel.mkMesh [] 0)) (create [1; 2] 4 7).
Definition net_inboxes : gmap NodeId nat := ns_inboxes net.1.1.

Lemma net_created3 : create [1; 2] 4 7 = Some (net.1.1, net.1.2, net.2).
Proof. by vm_compute. Qed.

Definition msg (k : N) : RpcEnvelope := Channel.ping k.

Definition run_acts (acts : list Act) : DSystem :=
  default (sys_init net.2) (sys_exec_all net_inboxes (sys_init net.2) acts).

(** Every thread of a run of [run_acts] has returned successfully. *)
Ltac threads_done :=
  let th := fresh "th" in let Hth := fresh "Hth" in
  intros th Hth; unfold run_acts in Hth; vm_compute in Hth;
  repeat (apply elem_of_cons in Hth as [->|Hth]; [done|]); by apply elem_of_nil in Hth.

(** A lossy, reordering link with two concurrent senders. *)
Definition faulty_acts : list Act :=
  [AConfig (CEnableReordering 1 2); AThread 0; AThread 0;
   ASend 1 2 (msg 1); ASend 1 2 (msg 2); AThread 1; AThread 2; AThread 1; AThread 2;
   AThread 2; AThread 2; AThread 1; AThread 1;
   AConfig (CSetDrop 1 2 (Fin (9 # 10))); AConfig (CSetDelay 2 1 5 3);
   AThread 3; AThread 3; AThread 4; AThread 4;
   ASend 2 1 (msg 3); AThread 5; AThread 5; AThread 5; AThread 5;
   AFlush 1 2; AThread 6; AThread 6; AThread 6; AThread 6; AThread 6; AThread 6;
   AConfig (CSetDrop 1 2 NaN); AThread 7; AThread 7; AThread 6; AThread 6; AThread 6; ARecv 2].

Lemma faulty_run : sys_exec_all net_inboxes (sys_init net.2) faulty_acts = Some (run_acts faulty_acts).
Proof. by vm_compute. Qed.

Lemma faulty_received : sys_received (run_acts faulty_acts) = [(2, msg 2)].
Proof. by vm_compute. Qed.

Lemma simulator_at_most_once_witness :
  [(2, msg 2)] ++ held net_inboxes (sys_world (run_acts faulty_acts)) ⊆+
  sys_sent (run_acts faulty_acts).
Proof.
  rewrite <- faulty_received.
  apply (simulator_at_most_once [1; 2] 4 7 net.1.1 net.1.2 net.2 (run_acts faulty_acts) net_created3).
  apply (sys_exec_all_sound true _ faulty_acts); [done|exact faulty_run].
Defined.

(** Two concurrent sends and a receive without any fault. *)
Definition healthy_acts : list Act :=
  [ASend 1 2 (msg 1); ASend 2 2 (msg 2); AThread 0; AThread 1; AThread 1; AThread 1; AThread 0; AThread 0;
   ARecv 2].

Lemma healthy_run :
  sys_exec_all net_inboxes (sys_init net.2) healthy_acts = Some (run_acts healthy_acts).
Proof. by vm_compute. Qed.

Lemma healthy_network_lossless_witness :
  [(2, msg 1); (2, msg 2)] ≡ₚ
  [(2, msg 2)] ++ queued net_inboxes (mesh (sys_world (run_acts healthy_acts))).
Proof.
  apply (healthy_network_lossless [1; 2] 4 7 net.1.1 net.1.2 net.2 (run_acts healthy_acts)
           net_created3).
  - apply (sys_exec_all_sound false _ healthy_acts); [|exact healthy_run].
    intros a Ha. by repeat (apply elem_of_cons in Ha as [->|Ha]; [done|]); apply elem_of_nil in Ha.
  - threads_done.
Defined.

(** Inboxes for one message: the second send waits, a configuration change
    is done in the meantime. *)
Definition small_net : NetworkSimulator * gmap NodeId (SimulatorSender * SimulatorReceiver) * DWorld :=
  default (mkSimulator ∅, ∅, unlocked (mkState ∅ ∅ ∅ 0) (Channel.mkMesh [] 0)) (create [1; 2] 1 7).
Definition small_inboxes : gmap NodeId nat := ns_inboxes small_net.1.1.

Lemma small_net_created : create [1; 2] 1 7 = Some (small_net.1.1, small_net.1.2, small_net.2).
Proof. by vm_compute. Qed.

Definition blocked_acts : list Act :=
  [ASend 1 2 (msg 1); ASend 1 2 (msg 2); AConfig CHealPartition;
   AThread 0; AThread 1; AThread 1; AThread 0; AThread 0; AThread 2; AThread 2].
Definition blocked : DSystem :=
  default (sys_init small_net.2) (sys_exec_all small_inboxes (sys_init small_net.2) blocked_acts).

Lemma blocked_run : sys_exec_all small_inboxes (sys_init small_net.2) blocked_acts = Some blocked.
Proof. by vm_compute. Qed.

Lemma blocked_quiescent y : ~ thread_step blocked y.
Proof.
  intros (d & i & th & th' & w' & Hi & Hs & _). revert Hi Hs.
  generalize (sys_now blocked + d). intros now.
  destruct i as [|[|[|i]]]; vm_compute; intros Hi; simplify_eq; inversion 1; subst; try done.
  all: match goal with Hf : _ = Some _ |- _ => by vm_compute in Hf end.
Qed.

Lemma simulator_deadlock_free_witness :
  free (sys_world blocked) /\ inbox_full small_inboxes (sys_world blocked).
Proof.
  destruct (simulator_deadlock_free [1; 2] 1 7 small_net.1.1 small_net.1.2 small_net.2 blocked
              small_net_created) as [_ Hd].
  { apply (sys_exec_all_sound true _ blocked_acts); [done|exact blocked_run]. }
  destruct (Hd blocked (rtc_refl _ _) blocked_quiescent) as [Hfree Hth]. split; [exact Hfree|].
  destruct (sys_threads blocked !! 1%nat) as [[wake t]|] eqn:E; [|by vm_compute in E].
  destruct (Hth wake t (list_elem_of_lookup_2 _ _ _ E)) as [[r ->]|(f & _ & _ & Hf)]; [|exact Hf].
  by vm_compute in E.
Defined.

(** A link that delays, with room in the inbox. *)
Definition slow_state : SimulatorState := set_delay 1 2 9 4 (mkState ∅ ∅ ∅ 3).
Definition slow_mesh : Channel.Mesh Channel.Chan := Channel.mkMesh [Channel.mkChan 2 [] true] 1.
Definition slow_world : DWorld := unlocked slow_state slow_mesh.

Lemma send_applies_rules_witness :
  exists w1 d, same_but_rng slow_world w1 /\ (4 <= d /\ d <= 9) /\
    task_run (send (mkSender 1 {[2 := 0%nat]}) 2 (msg 1)) slow_world =
    Some (set_mesh (Channel.mkMesh [Channel.mkChan 2 [msg 1] true] 1) w1, Ok tt, d).
Proof.
  destruct (send_applies_rules 1 {[2 := 0%nat]} 2 (msg 1) slow_state slow_mesh) as [_ Hout].
  destruct Hout as (_ & _ & Hd); [set_solver|].
  destruct Hd as (w1 & d & Hs & Hr & Hrun); [by vm_compute|by vm_compute|].
  exists w1, d. split; [exact Hs|]. split.
  - change (4 <= u64_max -> 4 <= d /\ (4 <= 9 -> d <= 9)) in Hr. unfold u64_max in Hr. lia.
  - etransitivity; [exact Hrun|reflexivity].
Defined.

Lemma configured_delays_bounded_witness :
  exists w' res d,
    task_run (send (mkSender 1 {[2 := 0%nat]}) 2 (msg 1)) slow_world = Some (w', res, d) /\ 4 <= d <= 9.
Proof.
  destruct (task_run (send (mkSender 1 {[2 := 0%nat]}) 2 (msg 1)) slow_world)
    as [[[w' res] d]|] eqn:E; [|by vm_compute in E].
  exists w', res, d. split; [done|].
  refine (proj2 (configured_delays_bounded [CSetDelay 1 2 9 4] 3) 1 {[2 := 0%nat]} 2 (msg 1)
            slow_mesh 4 9 w' res d _ _ _ _ _ E);
    [by vm_compute|by vm_compute|set_solver|by vm_compute|by vm_compute].
Defined.

Definition buffered_world : DWorld :=
  unlocked (mkState ∅ ∅ {[(1, 2) := [msg 1; msg 2]]} 3)
    (Channel.mkMesh [Channel.mkChan 3 [msg 0] true] 1).

Lemma flush_delivers_permutation_witness :
  exists w' msgs,
    task_run (flush_reorder_buffer (mkSimulator {[2 := 0%nat]}) 1 2) buffered_world = Some (w', tt, 0) /\
    msgs ≡ₚ [msg 1; msg 2] /\ queue_of 0 (mesh w') = [msg 0] ++ msgs.
Proof.
  destruct (flush_delivers_permutation {[2 := 0%nat]} 1 2 0 (Channel.mkChan 3 [msg 0] true)
              buffered_world [msg 1; msg 2]) as (w' & msgs & H1 & H2 & H3 & _);
    [reflexivity|by vm_compute| |reflexivity|reflexivity|reflexivity|by vm_compute|].
  - split; [set_solver|]. by vm_compute.
  - exists w', msgs. split; [exact H1|]. split; [exact H2|exact H3].
Defined.

(** ** What modelling showed *)

(** A send that has read the rules of a reordering link buffers its message
    after [disable_reordering] has removed the buffer: reordering is off, no
    thread is left, and the message stays in a buffer that only an explicit
    flush would empty. *)
Definition strand_acts : list Act :=
  [AConfig (CEnableReordering 1 2); AThread 0; AThread 0; ASend 1 2 (msg 1); AThread 1; AThread 1;
   ADisable 1 2; AThread 2; AThread 2; AThread 1; AThread 1].

Lemma disable_strands_message :
  exists y, rtc (sys_step true net_inboxes) (sys_init net.2) y /\
    (forall th, th ∈ sys_threads y -> th.2 = Done (Ok tt)) /\
    reorder (rules_entry (1, 2) (sim (sys_world y))) = false /\
    reorder_buffers (sim (sys_world y)) !! (1, 2) = Some [msg 1] /\ sys_received y = [].
Proof.
  exists (run_acts strand_acts). split_and!; try by vm_compute.
  - by apply (sys_exec_all_sound true _ strand_acts).
  - threads_done.
Qed.

(** [reset], documented to clear the fault rules, throws buffered messages away. *)
Lemma reset_loses_buffered :
  let y := run_acts [AConfig (CEnableReordering 1 2); AThread 0; AThread 0;
                     ASend 1 2 (msg 1); AThread 1; AThread 1; AThread 1; AThread 1;
                     AConfig CReset; AThread 2; AThread 2] in
  sys_sent y = [(2, msg 1)] /\ sys_received y ++ held net_inboxes (sys_world y) = [] /\
  (forall th, th ∈ sys_threads y -> th.2 = Done (Ok tt)).
Proof.
  split_and!; try by vm_compute. threads_done.
Qed.

End Demo.

End Simulator.
