(* ===== verification/TestStores.v ===== *)
(** * The stores of the test crate

    The second set of in-memory stores that [xraft-test] keeps for its own
    tests: [memory_log.rs] (module [MemLog]), the log of [test_harness.rs]
    (module [HarnessLog]), [memory_quorum_state.rs] and the voting-state store
    of the harness (module [MemQuorum]), [memory_snapshot.rs] (module
    [MemSnapshot]), [memory_state_machine.rs] (module [MemStateMachine]), and
    the null objects and the recording listener of the harness (module
    [Harness]).

    The log stores are shown to implement the log of [Interfaces]. *)

From Stdlib Require Import ZifyBool ZifyN ZifyNat Lia.
From stdpp Require Import base list sets numbers option strings.
From S2P Require Import Prelude Types Interfaces MemoryLog Mocks.

(** ** [memory_log.rs] *)

Module MemLog.

Record Inner := mkInner { entries : list LogEntry; start_offset : N }.

Definition new : Inner := mkInner [] 0.

Definition append (es : list LogEntry) : SE Inner XraftError unit := fun s =>
  (mkInner (foldl (fun v e => v ++ [e]) (entries s) es) (start_offset s), Ok tt).

Definition read (start end_ : N) (s : Inner) : Result (list LogEntry) :=
  Ok (list_filter (fun e => (start <=? offset e) && (offset e <? end_)) (entries s)).

Definition truncate_suffix (from : N) : SE Inner XraftError unit := fun s =>
  (mkInner (list_filter (fun e => offset e <? from) (entries s)) (start_offset s), Ok tt).

Definition truncate_prefix (up_to : N) : SE Inner XraftError unit := fun s =>
  (mkInner (list_filter (fun e => up_to <=? offset e) (entries s)) up_to, Ok tt).

Definition log_end_offset (s : Inner) : N :=
  match last (entries s) with
  | Some e => u64_add (offset e) 1
  | None => start_offset s
  end.

Definition entry_at (off : N) (s : Inner) : Result (option LogEntry) :=
  Ok (list_find_first (fun e => offset e =? off) (entries s)).

#[global] Instance mem_LogStore : LogStore Inner := {|
  ls_append := append;
  ls_read := read;
  ls_truncate_suffix := truncate_suffix;
  ls_truncate_prefix := truncate_prefix;
  ls_log_start_offset := start_offset;
  ls_log_end_offset := log_end_offset;
  ls_entry_at := entry_at;
|}.

Definition abs (s : Inner) : AbsLog := mkAbsLog (start_offset s) (entries s).

#[global] Instance mem_LogStoreLaws : LogStoreLaws Inner.
Proof.
  refine {| ls_inv l := al_wf (abs l) /\ al_end (abs l) <= u64_max; ls_abs := abs |}.
  - by intros l [? _].
  - done.
  - intros l [Hwf Hle]. by apply (contiguous_last_end (start_offset l) (entries l)).
  - done.
  - done.
  - intros l es l' r [Hwf _] Hc Hle. cbn. unfold append. rewrite MemoryLogStore.foldl_push.
    intros [= <- <-]. split; [split|split]; try done.
    unfold al_wf, al_end, abs in *; cbn in *. by rewrite contiguous_app, Hwf, Hc.
  - intros l from [Hwf Hle] Hf. eexists. split; [done|]. split; [|done].
    unfold al_wf, al_end, abs in *; cbn in *.
    rewrite (contiguous_filter_below (start_offset l)) by done.
    split; [by apply contiguous_take|]. rewrite length_take. lia.
Defined.

(** [truncate_prefix] takes any offset: a smaller one than before moves the
    reported start back over entries that are gone. *)
Lemma truncate_prefix_moves_start_back :
  let s := (truncate_prefix 1 (truncate_prefix 3
              (append (map (fun o => mkLogEntry o 1 Command []) [0; 1; 2; 3]) new).1).1).1 in
  start_offset s = 1 /\ entry_at 1 s = Ok None /\ log_end_offset s = 4.
Proof. by vm_compute. Qed.

End MemLog.

(** ** [InMemoryLogStore] of [test_harness.rs]

    Keeps no start offset: an empty log starts and ends at zero. *)

Module HarnessLog.

Record Store := mkStore { entries : list LogEntry }.

Definition new : Store := mkStore [].

Definition append (es : list LogEntry) : SE Store XraftError unit := fun s =>
  (mkStore (entries s ++ es), Ok tt).

Definition read (start end_ : N) (s : Store) : Result (list LogEntry) :=
  Ok (list_filter (fun e => (start <=? offset e) && (offset e <? end_)) (entries s)).

Definition truncate_suffix (from : N) : SE Store XraftError unit := fun s =>
  (mkStore (list_filter (fun e => offset e <? from) (entries s)), Ok tt).

Definition truncate_prefix (up_to : N) : SE Store XraftError unit := fun s =>
  (mkStore (list_filter (fun e => up_to <=? offset e) (entries s)), Ok tt).

Definition log_start_offset (s : Store) : N :=
  match head (entries s) with Some e => offset e | None => 0 end.

Definition log_end_offset (s : Store) : N :=
  match last (entries s) with Some e => u64_add (offset e) 1 | None => 0 end.

Definition entry_at (off : N) (s : Store) : Result (option LogEntry) :=
  Ok (list_find_first (fun e => offset e =? off) (entries s)).

#[global] Instance harness_LogStore : LogStore Store := {|
  ls_append := append;
  ls_read := read;
  ls_truncate_suffix := truncate_suffix;
  ls_truncate_prefix := truncate_prefix;
  ls_log_start_offset := log_start_offset;
  ls_log_end_offset := log_end_offset;
  ls_entry_at := entry_at;
|}.

Definition abs (s : Store) : AbsLog := mkAbsLog 0 (entries s).

(** The laws hold for logs that were never truncated from the front. *)
#[global] Instance harness_LogStoreLaws : LogStoreLaws Store.
Proof.
  refine {| ls_inv l := al_wf (abs l) /\ al_end (abs l) <= u64_max; ls_abs := abs |}.
  - by intros l [? _].
  - intros l [Hwf _]. cbn. unfold log_start_offset, al_wf in *. cbn in *.
    destruct (entries l) as [|e es]; [done|]. cbn in *. lia.
  - intros l [Hwf Hle]. by apply (contiguous_last_end 0 (entries l)).
  - done.
  - done.
  - intros l es l' r [Hwf _] Hc Hle [= <- <-]. split; [split|split]; try done.
    unfold al_wf, al_end, abs in *; cbn in *. by rewrite contiguous_app, Hwf, Hc.
  - intros l from [Hwf Hle] Hf. eexists. split; [done|]. split; [|done].
    unfold al_wf, al_end, abs in *; cbn in *.
    rewrite (contiguous_filter_below 0) by done.
    split; [by apply contiguous_take|]. rewrite length_take. lia.
Defined.

(** Emptying a log that had been compacted makes it start at zero again. *)
Lemma emptied_log_forgets_position :
  let s := (truncate_suffix 2 (truncate_prefix 2
              (append (map (fun o => mkLogEntry o 1 Command []) [0; 1; 2; 3]) new).1).1).1 in
  log_end_offset s = 0 /\ log_start_offset s = 0.
Proof. by vm_compute. Qed.

End HarnessLog.

(** ** Voting state: [memory_quorum_state.rs] and the harness *)

Module MemQuorum.
Section MemQuorum.
Context {QS : Type}.

Record Store := mkStore { state : option QS }.

Definition new : Store := mkStore None.
Definition last_saved (s : Store) : option QS := state s.
Definition load (s : Store) : Result (option QS) := Ok (state s).
Definition save (qs : QS) : SE Store XraftError unit := fun _ => (mkStore (Some qs), Ok tt).

(** [InMemoryQuorumStateStore] of the harness. *)
Definition harness_load (s : Store) : Result (option QS) := Ok (state s).
Definition harness_save (qs : QS) : SE Store XraftError unit := fun _ => (mkStore (Some qs), Ok tt).

#[global] Instance mem_QuorumStateStore : QuorumStateStore QS Store :=
  {| qss_load := load; qss_save := save |}.

#[global] Instance mem_QuorumStateStoreLaws : QuorumStateStoreLaws QS Store.
Proof.
  refine {| qss_persisted := state |}; [done| |]; cbn; unfold save; intros; by simplify_eq/=.
Defined.
End MemQuorum.
Arguments Store : clear implicits.
End MemQuorum.

(** ** Snapshots: [memory_snapshot.rs] *)

(** [Iterator::max_by_key]: of several maxima the last. *)
Definition max_by_key {A} (f : A -> N) (l : list A) : option A :=
  foldl (fun acc x => match acc with
                      | None => Some x
                      | Some y => if f x <? f y then Some y else Some x
                      end) None l.

Lemma max_by_key_snoc {A} (f : A -> N) (l : list A) (x : A) :
  max_by_key f (l ++ [x]) =
  match max_by_key f l with
  | None => Some x
  | Some y => if f x <? f y then Some y else Some x
  end.
Proof. unfold max_by_key. by rewrite foldl_app. Qed.

Lemma max_by_key_spec {A} (f : A -> N) (l : list A) :
  match max_by_key f l with
  | None => l = []
  | Some x => exists l1 l2, l = l1 ++ x :: l2 /\
      (forall y, y ∈ l1 -> f y <= f x) /\ (forall y, y ∈ l2 -> f y < f x)
  end.
Proof.
  induction l as [|x l IH] using rev_ind; [done|]. rewrite max_by_key_snoc.
  destruct (max_by_key f l) as [y|].
  - destruct IH as (l1 & l2 & -> & H1 & H2). destruct (f x <? f y) eqn:E.
    + exists l1, (l2 ++ [x]). split; [by rewrite <- app_assoc|]. split; [done|].
      intros z [Hz|Hz]%elem_of_app; [auto|]. apply list_elem_of_singleton in Hz as ->. lia.
    + exists (l1 ++ y :: l2), []. split; [done|]. split; [|set_solver].
      intros z [Hz|[->|Hz]%elem_of_cons]%elem_of_app; [|lia|].
      * specialize (H1 z Hz). lia.
      * specialize (H2 z Hz). lia.
  - subst l. exists [], []. set_solver.
Qed.

Module MemSnapshot.

Record Store := mkStore { snapshots : list Snapshot }.

Definition new : Store := mkStore [].

Definition save (s : Snapshot) : SE Store XraftError unit := fun st =>
  (mkStore (snapshots st ++ [s]), Ok tt).

Definition load_latest (st : Store) : Result (option Snapshot) :=
  Ok (max_by_key (fun s => last_included_offset (snap_metadata s)) (snapshots st)).

(** Chunked transfer is not supported: an empty last chunk. *)
Definition read_chunk (id : SnapshotId) (position max_bytes : N) (st : Store)
  : Result (bytes * bool) := Ok ([], true).

#[global] Instance mem_SnapshotIO : SnapshotIO Store :=
  {| sio_save := save; sio_load_latest := load_latest |}.

Definition run_saves (ss : list Snapshot) : Store := foldl (fun st s => (save s st).1) new ss.

Lemma run_saves_snapshots ss : snapshots (run_saves ss) = ss.
Proof.
  induction ss as [|s ss IH] using rev_ind; [done|]. unfold run_saves. rewrite foldl_app.
  change (snapshots (run_saves ss) ++ [s] = ss ++ [s]). by rewrite IH.
Qed.

(** After any saves, [load_latest] answers with a saved snapshot that covers
    the longest prefix of the log, the last saved of several, and with none
    only if nothing was saved. *)
Theorem mem_load_latest_correct (ss : list Snapshot) :
  exists r, load_latest (run_saves ss) = Ok r /\
  match r with
  | None => ss = []
  | Some s => exists before after, ss = before ++ s :: after /\
      (forall s', s' ∈ before ->
         last_included_offset (snap_metadata s') <= last_included_offset (snap_metadata s)) /\
      (forall s', s' ∈ after ->
         last_included_offset (snap_metadata s') < last_included_offset (snap_metadata s))
  end.
Proof.
  eexists. split; [done|]. rewrite run_saves_snapshots. apply max_by_key_spec.
Qed.

End MemSnapshot.

(** ** [memory_state_machine.rs] *)

Module MemStateMachine.

Record State := mkState { applied_offsets : list N; snapshot_data : bytes }.

Definition new : State := mkState [] [].

Definition apply (off : N) (record : AppRecord) : SE State XraftError unit := fun s =>
  (mkState (applied_offsets s ++ [off]) (snapshot_data s), Ok tt).

Definition snapshot (s : State) : Result AppSnapshot := Ok (mkAppSnapshot (snapshot_data s)).

Definition restore (snap : AppSnapshot) : SE State XraftError unit := fun _ =>
  (mkState [] (snap_data snap), Ok tt).

#[global] Instance mem_StateMachine : StateMachine State :=
  {| sm_apply := apply; sm_restore := restore |}.

(** A restored machine has the snapshot's data and has applied nothing. *)
Lemma restore_snapshot (s s0 : State) (snap : AppSnapshot) :
  snapshot s = Ok snap -> (restore snap s0).1 = mkState [] (snapshot_data s).
Proof. by intros [= <-]. Qed.

End MemStateMachine.

(** ** Null objects and the recording listener of [test_harness.rs] *)

Module Harness.

Record NullTransport := mkNullTransport {}.
Record NullSnapshotIO := mkNullSnapshotIO {}.
Record NullStateMachine := mkNullStateMachine {}.

#[global] Instance null_TransportSender : TransportSender NullTransport :=
  {| ts_send _ _ := se_ret tt |}.

#[global] Instance null_TransportSenderLaws : TransportSenderLaws NullTransport.
Proof. refine {| ts_sent _ := [] |}. intros target env t t' r _ m Hm. by left. Defined.

#[global] Instance null_SnapshotIO : SnapshotIO NullSnapshotIO :=
  {| sio_save _ := se_ret tt; sio_load_latest _ := Ok None |}.
Definition null_read_chunk (id : SnapshotId) (position max_bytes : N) (s : NullSnapshotIO)
  : Result (bytes * bool) := Ok ([], true).
Definition null_begin_receive (id : SnapshotId) (s : NullSnapshotIO) : Result bytes := Ok [].

#[global] Instance null_StateMachine : StateMachine NullStateMachine :=
  {| sm_apply _ _ := se_ret tt; sm_restore _ := se_ret tt |}.
Definition null_snapshot (s : NullStateMachine) : Result AppSnapshot := Ok (mkAppSnapshot []).

Record RecordingListener := mkRecordingListener {
  leader_changes : list (NodeId * Term);
  shutdown_called : bool;
}.

Definition listener_new : RecordingListener := mkRecordingListener [] false.

Definition handle_leader_change (leader : NodeId) (t : Term) (l : RecordingListener)
  : RecordingListener :=
  mkRecordingListener (leader_changes l ++ [(leader, t)]) (shutdown_called l).

Definition begin_shutdown (l : RecordingListener) : RecordingListener :=
  mkRecordingListener (leader_changes l) true.

#[global] Instance recording_Listener : Listener RecordingListener :=
  {| li_handle_commit _ l := l; li_handle_load_snapshot _ _ l := l;
     li_handle_leader_change := handle_leader_change; li_begin_shutdown := begin_shutdown |}.

End Harness.
