(* ===== verification/SimSupport.v ===== *)
(** * Supporting parts of the simulated cluster

    What the scenario tests of [xraft-test] run on: the recording state
    machine ([test_state_machine.rs]) and listener ([test_listener.rs]), the
    tracker of proposals ([completion_tracker.rs]), the message bus
    ([simulated_network.rs]) and the clock that only moves when told
    ([simulated_clock.rs]). *)

From Stdlib Require Import ZifyBool ZifyN ZifyNat Lia.
From Stdlib Require Import Strings.Byte.
From stdpp Require Import base list sets numbers option sorting strings.
From S2P Require Import Prelude Types Interfaces BTree Bytes DeferredCompletion.

(** ** [test_state_machine.rs] *)

Module TestStateMachine.

Record State := mkState {
  applied : BTreeMap AppRecord;
  applied_history : list (N * AppRecord);
  apply_order : list N;
  duplicate_apply_count : N;
}.

Definition new : State := mkState [] [] [] 0.
Definition reset (s : State) : State := mkState [] [] [] 0.

Definition applied_count (s : State) : nat := length (applied s).
Definition has_applied (off : N) (s : State) : bool :=
  match bt_get off (applied s) with Some _ => true | None => false end.
Definition get_applied (off : N) (s : State) : option AppRecord := bt_get off (applied s).
Definition highest_applied_offset (s : State) : option N := last (map fst (applied s)).

Definition apply (off : N) (record : AppRecord) : SE State XraftError unit := fun s =>
  let dup := if has_applied off s then u64_add (duplicate_apply_count s) 1
             else duplicate_apply_count s in
  (mkState (bt_insert off record (applied s)) (applied_history s ++ [(off, record)])
     (apply_order s ++ [off]) dup, Ok tt).

(** Offset and length in big endian, then the data; the length is cast to
    32 bits. *)
Definition encode_record (kv : N * AppRecord) : bytes :=
  to_be_bytes 8 (fst kv) ++
  to_be_bytes 4 (N.of_nat (length (rec_data (snd kv))) mod u32_modulus) ++ rec_data (snd kv).

Definition snapshot (s : State) : Result AppSnapshot :=
  Ok (mkAppSnapshot (concat (map encode_record (applied s)))).

(** One record at the front of [rest], [data[cursor..]]; [None] ends the
    loop, because fewer than twelve bytes are left or the record is cut. *)
Definition next_record (rest : bytes) : option (N * AppRecord * bytes) :=
  if (length rest <? 12)%nat then None
  else
    let off := from_be_bytes (take 8 rest) in
    let rest := drop 8 rest in
    let len := N.to_nat (from_be_bytes (take 4 rest)) in
    let rest := drop 4 rest in
    if (length rest <? len)%nat then None
    else Some (off, mkAppRecord (take len rest), drop len rest).

Fixpoint restore_loop (fuel : nat) (rest : bytes) (s : State) : State :=
  match fuel with
  | O => s
  | S fuel' =>
      match next_record rest with
      | None => s
      | Some (off, record, rest') =>
          restore_loop fuel' rest'
            (mkState (bt_insert off record (applied s)) (applied_history s ++ [(off, record)])
               (apply_order s ++ [off]) (duplicate_apply_count s))
      end
  end.

(** The loop runs at most once per twelve bytes. *)
Definition restore (snap : AppSnapshot) : SE State XraftError unit := fun _ =>
  (restore_loop (length (snap_data snap)) (snap_data snap) new, Ok tt).

#[global] Instance test_StateMachine : StateMachine State :=
  {| sm_apply := apply; sm_restore := restore |}.

(** *** Lemmas *)

Lemma next_record_shorter rest off record rest' :
  next_record rest = Some (off, record, rest') -> (length rest' + 12 <= length rest)%nat.
Proof.
  unfold next_record. destruct (length rest <? 12)%nat eqn:E; [done|]. cbn zeta.
  case_match; [done|]. intros [= <- <- <-]. rewrite !length_drop. lia.
Qed.

(** More fuel than bytes changes nothing. *)
Lemma restore_loop_fuel fuel1 fuel2 rest s :
  (length rest <= fuel1)%nat -> (length rest <= fuel2)%nat ->
  restore_loop fuel1 rest s = restore_loop fuel2 rest s.
Proof.
  revert fuel2 rest s. induction fuel1 as [|fuel1 IH]; intros fuel2 rest s H1 H2.
  - destruct rest; [|cbn in H1; lia]. by destruct fuel2.
  - destruct fuel2 as [|fuel2].
    + destruct rest; [done|cbn in H2; lia].
    + cbn [restore_loop]. destruct (next_record rest) as [[[off r] rest']|] eqn:E; [|done].
      apply next_record_shorter in E. apply IH; lia.
Qed.

Lemma encode_record_length kv : (12 <= length (encode_record kv))%nat.
Proof. unfold encode_record. rewrite !length_app, !length_to_be_bytes. lia. Qed.

Lemma next_record_encode off record rest :
  off <= u64_max -> N.of_nat (length (rec_data record)) < u32_modulus ->
  next_record (encode_record (off, record) ++ rest) = Some (off, record, rest).
Proof.
  intros Hoff Hlen. unfold next_record, encode_record. cbn [fst snd].
  rewrite N.mod_small by done. rewrite <- !app_assoc.
  rewrite length_app, length_to_be_bytes, length_app, length_to_be_bytes.
  destruct (_ <? 12)%nat eqn:E; [lia|]. clear E.
  rewrite take_app_length', drop_app_length' by by rewrite length_to_be_bytes.
  rewrite take_app_length', drop_app_length' by by rewrite length_to_be_bytes.
  rewrite !from_to_be_bytes by (unfold u64_max, u32_modulus in *; cbn; lia).
  rewrite Nat2N.id, length_app. destruct (_ <? _)%nat eqn:E; [lia|].
  rewrite take_app_length, drop_app_length. by destruct record.
Qed.

(** Inserting above all keys appends. *)
Lemma bt_insert_last {V} (m : BTreeMap V) k v :
  (forall k', k' ∈ map fst m -> k' < k) -> bt_insert k v m = m ++ [(k, v)].
Proof.
  induction m as [|[k0 v0] m IH]; intros Hk; cbn; [done|].
  assert (k0 < k) by (apply Hk; set_solver). destruct (k <? k0) eqn:E1; [lia|].
  destruct (k =? k0) eqn:E2; [lia|]. rewrite IH by set_solver. done.
Qed.

Definition records_ok (m : BTreeMap AppRecord) : Prop :=
  bt_wf m /\ forall k r, (k, r) ∈ m -> k <= u64_max /\ N.of_nat (length (rec_data r)) < u32_modulus.

Lemma restore_loop_encoded m1 m2 fuel :
  records_ok (m1 ++ m2) ->
  (length (concat (map encode_record m2)) <= fuel)%nat ->
  restore_loop fuel (concat (map encode_record m2)) (mkState m1 m1 (map fst m1) 0) =
  mkState (m1 ++ m2) (m1 ++ m2) (map fst (m1 ++ m2)) 0.
Proof.
  revert m1 fuel. induction m2 as [|[k r] m2 IH]; intros m1 fuel Hok Hfuel.
  - cbn. rewrite app_nil_r. by destruct fuel.
  - cbn [map concat] in *. rewrite length_app in Hfuel.
    assert (k <= u64_max /\ N.of_nat (length (rec_data r)) < u32_modulus) as [Hk Hr]
      by (apply Hok; set_solver).
    destruct fuel as [|fuel].
    { pose proof (encode_record_length (k, r)). lia. }
    cbn [restore_loop]. rewrite next_record_encode by done. cbn [applied applied_history apply_order].
    rewrite bt_insert_last.
    + replace (map fst m1 ++ [k]) with (map fst (m1 ++ [(k, r)])) by by rewrite map_app.
      rewrite IH, <- app_assoc; [done|by rewrite <- app_assoc|].
      pose proof (encode_record_length (k, r)). lia.
    + intros k' Hk'. destruct Hok as [Hwf _]. unfold bt_wf in Hwf. rewrite map_app in Hwf.
      cbn in Hwf. apply StronglySorted_app_1_elem_of with (x1 := k') (x2 := k) in Hwf; set_solver.
Qed.

(** C38: Restoring a snapshot of the state machine on any other machine gives
    back exactly the applied records: same entries at same offsets, an apply
    order that lists them by offset, no duplicates, and the restore loop ends
    whatever bytes it is given.  Records must be shorter than 4 GiB, the width
    of the length field. *)
Theorem state_machine_snapshot_roundtrip (s s0 : State) :
  records_ok (applied s) ->
  exists snap s', snapshot s = Ok snap /\ restore snap s0 = (s', Ok tt) /\
    applied s' = applied s /\ apply_order s' = map fst (applied s) /\
    duplicate_apply_count s' = 0 /\ applied_history s' = applied s /\
    (forall fuel, (length (snap_data snap) <= fuel)%nat ->
       restore_loop fuel (snap_data snap) new = s').
Proof.
  intros Hok. do 2 eexists. split; [done|]. split; [done|]. cbn [snap_data].
  pose proof (restore_loop_encoded [] (applied s) (length (concat (map encode_record (applied s))))
                Hok ltac:(done)) as E. cbn [app map] in E. unfold new. rewrite E. cbn.
  split_and!; try done. intros fuel Hf. rewrite <- E. by apply restore_loop_fuel.
Qed.

(** *** Duplicates *)

Definition run_applies (ops : list (N * AppRecord)) : State :=
  foldl (fun s op => (apply (fst op) (snd op) s).1) new ops.

Lemma run_applies_snoc ops off r :
  run_applies (ops ++ [(off, r)]) = (apply off r (run_applies ops)).1.
Proof. unfold run_applies. by rewrite foldl_app. Qed.

Lemma bt_insert_length {V} (m : BTreeMap V) k v :
  bt_wf m ->
  length (bt_insert k v m) = match bt_get k m with
                             | Some _ => length m
                             | None => S (length m)
                             end.
Proof.
  induction m as [|[k0 v0] m IH]; intros Hwf; cbn; [done|].
  pose proof Hwf as Hwf0. apply bt_wf_cons in Hwf as [Hwf Hall].
  destruct (k <? k0) eqn:E1; destruct (k =? k0) eqn:E2; destruct (k0 =? k) eqn:E3; try lia; cbn; try done.
  - rewrite (bt_get_gt k k0) by (done || lia). done.
  - rewrite IH by done. by destruct (bt_get k m).
Qed.

Lemma run_applies_inv ops :
  let s := run_applies ops in
  bt_wf (applied s) /\ applied_history s = ops /\ apply_order s = map fst ops /\
  (forall off, has_applied off s = true <-> off ∈ map fst ops) /\
  (N.of_nat (length ops) <= u64_max ->
   duplicate_apply_count s = N.of_nat (length ops - length (applied s)) /\
   (length (applied s) <= length ops)%nat /\
   (duplicate_apply_count s = 0 <-> NoDup (map fst ops))).
Proof.
  induction ops as [|[off r] ops IH] using rev_ind; cbn zeta.
  { split_and!; try done; [constructor|set_solver|]. intros _. split_and!; try done.
    split; [constructor|done]. }
  cbn zeta in IH. destruct IH as (Hwf & Hh & Ho & Hhas & Hdup). rewrite run_applies_snoc.
  cbn [apply fst applied applied_history apply_order duplicate_apply_count].
  rewrite Hh, Ho, map_app, length_app. cbn [map length fst]. split_and!; [by apply bt_wf_insert|done|done|..].
  - intros k. unfold has_applied in *. cbn [applied]. rewrite bt_get_insert.
    rewrite elem_of_app, list_elem_of_singleton, <- Hhas. destruct (off =? k) eqn:E.
    + split; [right; lia|done].
    + split; [auto|intros [?|?]; [done|lia]].
  - intros Hlen. destruct Hdup as (Hd & Hle & Hnd); [lia|].
    pose proof (bt_insert_length (applied (run_applies ops)) off r Hwf) as Hil.
    rewrite NoDup_app, <- Hnd. specialize (Hhas off). unfold has_applied in *.
    destruct (bt_get off (applied (run_applies ops))); rewrite Hil.
    + assert (off ∈ map fst ops) as Hin by by apply Hhas.
      rewrite u64_add_small by lia. split_and!; [lia|lia|]. split; [lia|].
      intros (_ & Hni & _). exfalso. apply (Hni off); [done|set_solver].
    + assert (off ∉ map fst ops) as Hni by (intros Hin%Hhas; done).
      split_and!; [lia|lia|]. split; [|by intros []].
      intros ?. split_and!; [done|set_solver|apply NoDup_singleton].
Qed.

End TestStateMachine.

Lemma state_machine_snapshot_roundtrip_witness :
  exists snap s',
    TestStateMachine.snapshot
      (TestStateMachine.run_applies [(3, mkAppRecord [x61; x62]); (1, mkAppRecord [])]) = Ok snap /\
    TestStateMachine.restore snap TestStateMachine.new = (s', Ok tt) /\
    TestStateMachine.apply_order s' = [1; 3].
Proof.
  destruct (TestStateMachine.state_machine_snapshot_roundtrip
              (TestStateMachine.run_applies [(3, mkAppRecord [x61; x62]); (1, mkAppRecord [])])
              TestStateMachine.new) as (snap & s' & H1 & H2 & _ & H3 & _).
  - split; [apply TestStateMachine.run_applies_inv|]. intros k r Hin. vm_compute in Hin.
    repeat (apply elem_of_cons in Hin as [Hin|Hin]; [by injection Hin as -> ->; vm_compute|]).
    by apply elem_of_nil in Hin.
  - exists snap, s'. split; [exact H1|]. split; [exact H2|exact H3].
Defined.

(** ** [test_listener.rs] *)

Module TestListener.

Record State := mkState {
  commit_batches : list (list AppRecord);
  total_committed : N;
  leader_changes : list (option NodeId * Term);
}.

Definition new : State := mkState [] 0 [].
Definition reset (s : State) : State := mkState [] 0 [].
Definition batch_count (s : State) : nat := length (commit_batches s).

Definition handle_commit (committed : list AppRecord) (s : State) : State :=
  mkState (commit_batches s ++ [committed])
    (u64_add (total_committed s) (N.of_nat (length committed))) (leader_changes s).

Definition handle_leader_change (new_leader : option NodeId) (t : Term) (s : State) : State :=
  mkState (commit_batches s) (total_committed s) (leader_changes s ++ [(new_leader, t)]).

(** The total is the number of records in the batches. *)
Lemma total_committed_batches (batches : list (list AppRecord)) :
  N.of_nat (length (concat batches)) <= u64_max ->
  total_committed (foldl (fun s b => handle_commit b s) new batches) =
  N.of_nat (length (concat batches)).
Proof.
  induction batches as [|b batches IH] using rev_ind; [done|].
  rewrite foldl_app, concat_app, length_app. cbn [foldl concat handle_commit total_committed].
  rewrite app_nil_r. intros Hle. rewrite IH by lia. rewrite u64_add_small; lia.
Qed.

End TestListener.

(** ** [completion_tracker.rs] *)

Module CompletionTracker.

Record State := mkState { pending : list N; completed : list N }.

Definition new : State := mkState [] [].

Definition track (off : N) (s : State) : State := mkState (pending s ++ [off]) (completed s).

(** The loop over the drained offsets. *)
Fixpoint resolve_loop (hw : N) (drained still_pending done_ : list N) : State :=
  match drained with
  | [] => mkState still_pending done_
  | off :: drained' =>
      if off <? hw then resolve_loop hw drained' still_pending (done_ ++ [off])
      else resolve_loop hw drained' (still_pending ++ [off]) done_
  end.

Definition resolve (hw : N) (s : State) : State := resolve_loop hw (pending s) [] (completed s).

Definition all_completed (s : State) : bool := match pending s with [] => true | _ => false end.
Definition pending_count (s : State) : nat := length (pending s).
Definition completed_count (s : State) : nat := length (completed s).

(** The loop is an order-preserving partition. *)
Lemma resolve_loop_spec hw drained sp dn :
  resolve_loop hw drained sp dn =
  mkState (sp ++ list_filter (fun o => hw <=? o) drained)
          (dn ++ list_filter (fun o => o <? hw) drained).
Proof.
  revert sp dn. induction drained as [|o drained IH]; intros sp dn; cbn.
  - by rewrite !app_nil_r.
  - destruct (o <? hw) eqn:E; destruct (hw <=? o) eqn:E2; try lia; rewrite IH, <- app_assoc; done.
Qed.

Lemma resolve_spec hw s :
  resolve hw s = mkState (list_filter (fun o => hw <=? o) (pending s))
                         (completed s ++ list_filter (fun o => o <? hw) (pending s)).
Proof. apply resolve_loop_spec. Qed.

(** The same calls on the tracker and on the completion queue. *)
Definition tracker_step (s : State) (op : DcqOp) : State :=
  match op with
  | OpPark off _ => track off s
  | OpComplete hw => resolve hw s
  | OpFail _ => s
  end.

Lemma parked_offsets_filter (f : N -> bool) (q : DeferredCompletionQueue) :
  map snd (parked (list_filter (fun kv => f (fst kv)) q)) = list_filter f (map snd (parked q)).
Proof.
  induction q as [|[k ss] q IH]; [done|]. cbn [list_filter fst].
  change (parked ((k, ss) :: q)) with (map (fun s => (s, k)) ss ++ parked q).
  rewrite map_app, list_filter_app, map_map. cbn [snd].
  assert (list_filter f (map (fun _ : N => k) ss) = if f k then map (fun _ : N => k) ss else []) as ->.
  { destruct (f k) eqn:E; [apply list_filter_all|apply list_filter_none];
      intros x (? & -> & _)%list_elem_of_fmap; done. }
  destruct (f k); [|done].
  change (parked ((k, ss) :: list_filter (fun kv => f (fst kv)) q))
    with (map (fun s => (s, k)) ss ++ parked (list_filter (fun kv => f (fst kv)) q)).
  rewrite map_app, map_map, IH. done.
Qed.

Lemma list_filter_perm {A} (f : A -> bool) (l1 l2 : list A) :
  l1 ≡ₚ l2 -> list_filter f l1 ≡ₚ list_filter f l2.
Proof.
  induction 1; cbn; repeat case_match; try done; try by constructor. by etrans.
Qed.

(** The tracker of the scenario tests simulates the deferred completion
    queue: under the same proposals and watermark advances both have the same
    offsets completed and the same pending, counting repetitions, and the
    tracker reports everything completed exactly when the queue is empty. *)
Theorem tracker_matches_queue (ops : list DcqOp) :
  (forall th, OpFail th ∉ ops) ->
  let s := foldl tracker_step new ops in
  let t := dcq_run ops in
  completed s ≡ₚ map snd (tr_sent t) /\ pending s ≡ₚ map snd (parked (tr_queue t)) /\
  all_completed s = dcq_is_empty (tr_queue t).
Proof.
  intros Hnf s t.
  assert (completed s ≡ₚ map snd (tr_sent t) /\ pending s ≡ₚ map snd (parked (tr_queue t)))
    as [Hc Hp].
  { subst s t. unfold dcq_run.
    induction ops as [|op ops IH] using rev_ind; [done|]. rewrite !foldl_app. cbn [foldl].
    destruct IH as [Hc Hp]; [set_solver|].
    pose proof (proj1 (dcq_run_accounted ops)) as Hinv. unfold dcq_run in Hinv.
    destruct op as [off snd_|hw|th]; cbn [tracker_step dcq_step].
    - cbn. split; [done|]. rewrite parked_park by done. cbn. rewrite Hp. solve_Permutation.
    - rewrite resolve_spec, complete_spec by done. cbn [completed pending tr_sent tr_queue].
      rewrite map_app. unfold bt_range_lt, bt_range_ge.
      rewrite !(parked_offsets_filter (fun k => k <? hw)), !(parked_offsets_filter (fun k => hw <=? k)).
      split; [|by apply list_filter_perm]. rewrite Hc. by rewrite (list_filter_perm _ _ _ Hp).
    - exfalso. apply (Hnf th). set_solver. }
  split_and!; [done|done|].
  pose proof (dcq_empty_len (tr_queue t) (proj1 (dcq_run_accounted ops))) as He.
  rewrite dcq_len_parked, <- (length_map snd), <- Hp in He.
  unfold all_completed. destruct (pending s), (dcq_is_empty (tr_queue t)); cbn in He; try done.
  - symmetry. by apply He.
  - symmetry. apply not_true_is_false. by intros ?%He.
Qed.

Lemma tracker_matches_queue_witness :
  let ops := [OpPark 4 0; OpPark 2 1; OpComplete 3; OpPark 3 2] in
  all_completed (foldl tracker_step new ops) = dcq_is_empty (tr_queue (dcq_run ops)).
Proof.
  apply (tracker_matches_queue [OpPark 4 0; OpPark 2 1; OpComplete 3; OpPark 3 2]).
  intros th Hin. by repeat (apply elem_of_cons in Hin as [Hin|Hin]; [done|]); apply elem_of_nil in Hin.
Defined.

End CompletionTracker.

(** ** [simulated_network.rs]

    One bus is shared by all senders of a cluster. *)

Module SimulatedNetwork.

Abbreviation MessageBus := (list (NodeId * RpcEnvelope)) (only parsing).

Definition new : MessageBus := [].
Definition push (target : NodeId) (env : RpcEnvelope) (bus : MessageBus) : MessageBus :=
  bus ++ [(target, env)].
Definition drain (bus : MessageBus) : MessageBus * list (NodeId * RpcEnvelope) := ([], bus).
Definition is_empty (bus : MessageBus) : bool := match bus with [] => true | _ => false end.

Record SimulatedTransportSender := mkSender { source : NodeId; bus : MessageBus }.

Definition send (target : NodeId) (message : RpcEnvelope)
  : SE SimulatedTransportSender XraftError unit := fun s =>
  (mkSender (source s) (push target message (bus s)), Ok tt).

#[global] Instance simulated_TransportSender : TransportSender SimulatedTransportSender :=
  {| ts_send := send |}.

#[global] Instance simulated_TransportSenderLaws : TransportSenderLaws SimulatedTransportSender.
Proof.
  refine {| ts_sent := bus |}. cbn. unfold send, push. intros target env t t' r [= <- <-] m Hm.
  apply elem_of_app in Hm as [?|Hm]; [by left|right]. by apply list_elem_of_singleton.
Defined.

End SimulatedNetwork.

(** ** [simulated_clock.rs] *)

Module SimulatedClock.

Record State := mkState { now : Instant; election_timeout : Duration }.

Definition new (start : Instant) (timeout : Duration) : State := mkState start timeout.
Definition advance (d : Duration) (c : State) : State := mkState (now c + d) (election_timeout c).
Definition current (c : State) : Instant := now c.

(** Yields at most once and leaves the clock where it is. *)
Definition sleep_until (deadline : Instant) (c : State) : State := c.

#[global] Instance simulated_Clock : Clock State := {|
  clk_now c := (c, now c);
  clk_random_election_timeout c := (c, election_timeout c);
  clk_sleep_until := sleep_until;
|}.

End SimulatedClock.
