(* ===== verification/InvariantChecker.v ===== *)
(** * The run-time invariant checker

    [invariant_checker.rs] looks at a simulated cluster and panics when one of
    the five safety properties of Raft is violated.  What it reads of the
    cluster is the record [ClusterView]; a check that does not panic is
    [true], and the stateful check of append-only leaders returns the new
    table of snapshots or [None] when it panics.

    For every check there is a theorem that says which property of the view
    it decides. *)

From Stdlib Require Import ZifyBool ZifyN ZifyNat Lia.
From stdpp Require Import base list gmap sets numbers option sorting.
From S2P Require Import Prelude Types Interfaces BTree SimSupport.

Module InvariantChecker.

(** ** What the checker reads *)

Record NodeView := mkNodeView {
  nv_is_leader : bool;
  nv_term : Term;
  nv_log : list LogEntry;
  nv_log_end_offset : N;
  nv_high_watermark : N;
  nv_state_machine : TestStateMachine.State;
}.

Record ClusterView := mkView {
  cv_node_ids : list NodeId;
  cv_stopped : list NodeId;
  cv_node : NodeId -> NodeView;
  cv_voter_count : nat;
}.

(** [stopped_nodes.contains(&id)] and the nodes that are not stopped. *)
Definition is_stopped (v : ClusterView) (id : NodeId) : bool :=
  existsb (fun x => x =? id) (cv_stopped v).
Definition active_ids (v : ClusterView) : list NodeId :=
  list_filter (fun id => negb (is_stopped v id)) (cv_node_ids v).

(** [log.iter().find(|e| e.offset == offset)] *)
Definition find_entry (off : N) (log : list LogEntry) : option LogEntry :=
  list_find_first (fun e => offset e =? off) log.

(** [0..n] *)
Definition range (n : N) : list N := map N.of_nat (seq 0 (N.to_nat n)).

(** [for i in 0..n { for j in (i+1)..n { body(l[i], l[j]) } }] *)
Fixpoint for_pairs {A} (body : A -> A -> bool) (l : list A) : bool :=
  match l with
  | [] => true
  | x :: l' => forallb (body x) l' && for_pairs body l'
  end.

(** [for i in 1..l.len() { body(l[i - 1], l[i]) }] *)
Fixpoint for_adjacent {A} (body : A -> A -> bool) (l : list A) : bool :=
  match l with
  | x :: ((y :: _) as l') => body x y && for_adjacent body l'
  | _ => true
  end.

(** ** 1. Election safety *)

(** [entry(term).or_default().push(id)] *)
Definition push_leader (m : gmap Term (list NodeId)) (t : Term) (id : NodeId)
  : gmap Term (list NodeId) := <[t := default [] (m !! t) ++ [id]]> m.

Definition leaders_per_term (v : ClusterView) : gmap Term (list NodeId) :=
  foldl (fun m id =>
           if is_stopped v id then m
           else if nv_is_leader (cv_node v id) then push_leader m (nv_term (cv_node v id)) id
           else m) ∅ (cv_node_ids v).

Definition check_leader_election_safety (v : ClusterView) : bool :=
  forallb (fun kv => (length (snd kv) <=? 1)%nat) (map_to_list (leaders_per_term v)).

(** ** 2. Leader append-only *)

Abbreviation Snapshots := (gmap (NodeId * Term) (list LogEntry)) (only parsing).

Definition bytes_eqb (a b : bytes) : bool := bool_decide (a = b).

(** One previous entry against the current log. *)
Definition entry_kept (log : list LogEntry) (prev : LogEntry) : bool :=
  match find_entry (offset prev) log with
  | None => false
  | Some ce => (term ce =? term prev) && bytes_eqb (payload ce) (payload prev)
  end.

(** One node of the loop. *)
Definition check_leader (v : ClusterView) (snaps : Snapshots) (id : NodeId) : option Snapshots :=
  if is_stopped v id then Some snaps
  else
    let node := cv_node v id in
    if negb (nv_is_leader node) then Some snaps
    else
      let log := nv_log node in
      if negb (for_adjacent (fun a b => offset a <? offset b) log) then None
      else if negb (for_adjacent (fun a b => term a <=? term b) log) then None
      else
        let key := (id, nv_term node) in
        match snaps !! key with
        | Some prev =>
            if forallb (entry_kept log) prev && (length prev <=? length log)%nat
            then Some (<[key := log]> snaps)
            else None
        | None => Some (<[key := log]> snaps)
        end.

Fixpoint check_leaders (v : ClusterView) (ids : list NodeId) (snaps : Snapshots) : option Snapshots :=
  match ids with
  | [] => Some snaps
  | id :: ids' => match check_leader v snaps id with
                  | Some snaps' => check_leaders v ids' snaps'
                  | None => None
                  end
  end.

Definition check_leader_append_only (v : ClusterView) (snaps : Snapshots) : option Snapshots :=
  check_leaders v (cv_node_ids v) snaps.

(** ** 3. Log matching *)

Definition match_at (log_a log_b : list LogEntry) (off : N) : bool :=
  match find_entry off log_a, find_entry off log_b with
  | Some ea, Some eb =>
      (term ea =? term eb) && EntryType_eqb (entry_type ea) (entry_type eb) &&
      bytes_eqb (payload ea) (payload eb)
  | Some _, None => negb (existsb (fun e => off <? offset e) log_b)
  | None, Some _ => negb (existsb (fun e => off <? offset e) log_a)
  | None, None => true
  end.

(** [for offset in 0..=up_to_offset] *)
Definition verify_prefix_match (log_a log_b : list LogEntry) (up_to_offset : N) : bool :=
  forallb (match_at log_a log_b) (range (up_to_offset + 1)).

Definition logs_match (log_a log_b : list LogEntry) : bool :=
  forallb (fun ea => forallb (fun eb =>
    if (offset ea =? offset eb) && (term ea =? term eb)
    then verify_prefix_match log_a log_b (offset ea) else true) log_b) log_a.

Definition check_log_matching (v : ClusterView) : bool :=
  for_pairs (fun i j => logs_match (nv_log (cv_node v i)) (nv_log (cv_node v j))) (active_ids v).

(** ** 4. Leader completeness *)

Abbreviation Counts := (list ((Term * bytes) * nat)) (only parsing).

(** [*entry_counts.entry(key).or_insert(0) += 1] *)
Fixpoint bump (key : Term * bytes) (counts : Counts) : Counts :=
  match counts with
  | [] => [(key, 1%nat)]
  | (k, n) :: counts' => if bool_decide (k = key) then (k, S n) :: counts' else (k, n) :: bump key counts'
  end.

Definition entry_counts (v : ClusterView) (off : N) : Counts :=
  foldl (fun counts id =>
           match find_entry off (nv_log (cv_node v id)) with
           | Some e => bump (term e, payload e) counts
           | None => counts
           end) [] (cv_node_ids v).

Definition max_offset (v : ClusterView) : N :=
  foldl N.max 0 (map (fun id => nv_log_end_offset (cv_node v id)) (cv_node_ids v)).

Definition has_committed (leader_log : list LogEntry) (majority : nat) (off : N)
    (kv : (Term * bytes) * nat) : bool :=
  if (majority <=? snd kv)%nat then
    match find_entry off leader_log with
    | None => false
    | Some le => (term le =? fst (fst kv)) && bytes_eqb (payload le) (snd (fst kv))
    end
  else true.

Definition check_leader_completeness (v : ClusterView) : bool :=
  match list_find_first (fun id => nv_is_leader (cv_node v id)) (active_ids v) with
  | None => true
  | Some leader =>
      let majority := majority_of (cv_voter_count v) in
      forallb (fun off =>
        forallb (has_committed (nv_log (cv_node v leader)) majority off) (entry_counts v off))
        (range (max_offset v))
  end.

(** ** 5. State machine safety *)

Definition no_gaps (n : NodeView) : bool :=
  forallb (fun off => match find_entry off (nv_log n) with Some _ => true | None => false end)
    (range (nv_high_watermark n)).

Definition applied_once (n : NodeView) : bool :=
  (TestStateMachine.duplicate_apply_count (nv_state_machine n) =? 0) &&
  for_adjacent N.ltb (TestStateMachine.apply_order (nv_state_machine n)).

Definition same_applied (a b : NodeView) : bool :=
  forallb (fun kv =>
    match TestStateMachine.get_applied (fst kv) (nv_state_machine b) with
    | Some rb => bytes_eqb (rec_data (snd kv)) (rec_data rb)
    | None => true
    end) (TestStateMachine.applied (nv_state_machine a)).

Definition same_committed (a b : NodeView) : bool :=
  forallb (fun off =>
    match find_entry off (nv_log a), find_entry off (nv_log b) with
    | Some ea, Some eb => (term ea =? term eb) && bytes_eqb (payload ea) (payload eb)
    | _, _ => true
    end) (range (N.min (nv_high_watermark a) (nv_high_watermark b))).

Definition check_state_machine_safety (v : ClusterView) : bool :=
  match active_ids v with
  | [] => true
  | ids =>
      forallb (fun id => no_gaps (cv_node v id)) ids &&
      forallb (fun id => applied_once (cv_node v id)) ids &&
      for_pairs (fun i j => same_applied (cv_node v i) (cv_node v j)) ids &&
      for_pairs (fun i j => same_committed (cv_node v i) (cv_node v j)) ids
  end.

(** ** All of them, in order *)

Definition new : Snapshots := ∅.

Definition check_all (v : ClusterView) (snaps : Snapshots) : option Snapshots :=
  if negb (check_leader_election_safety v) then None
  else
    match check_leader_append_only v snaps with
    | None => None
    | Some snaps' =>
        if check_log_matching v && check_leader_completeness v && check_state_machine_safety v
        then Some snaps' else None
    end.

(** ** Loops as quantifiers *)

Lemma elem_of_range k n : k ∈ range n <-> k < n.
Proof.
  unfold range. rewrite list_elem_of_fmap. split.
  - intros (i & -> & Hi). apply elem_of_seq in Hi. lia.
  - intros Hk. exists (N.to_nat k). split; [lia|]. apply elem_of_seq. lia.
Qed.

Lemma forallb_true {A} (f : A -> bool) (l : list A) :
  forallb f l = true <-> forall x, x ∈ l -> f x = true.
Proof. rewrite forallb_forall. by setoid_rewrite list_elem_of_In. Qed.

Lemma for_pairs_true {A} (body : A -> A -> bool) (l : list A) :
  for_pairs body l = true <->
  forall i j x y, (i < j)%nat -> l !! i = Some x -> l !! j = Some y -> body x y = true.
Proof.
  induction l as [|z l IH]; cbn [for_pairs]; [done|].
  rewrite andb_true_iff, IH, forallb_true. split.
  - intros [Hz Hl] [|i] [|j] x y Hij Hx Hy; cbn in *; simplify_eq; [lia| |lia|].
    + apply Hz. by eapply list_elem_of_lookup_2.
    + apply (Hl i j); auto. lia.
  - intros Hall. split.
    + intros y [j Hj]%list_elem_of_lookup. apply (Hall 0%nat (S j)); cbn; auto. lia.
    + intros i j x y Hij Hx Hy. apply (Hall (S i) (S j)); cbn; auto. lia.
Qed.

(** For a property that does not care about the order of the pair, the loop
    covers all pairs. *)
Lemma for_pairs_sym {A} (body : A -> A -> bool) (P : A -> A -> Prop) (l : list A) :
  (forall x y, x ∈ l -> y ∈ l -> body x y = true <-> P x y) ->
  (forall x, P x x) -> (forall x y, P x y -> P y x) ->
  for_pairs body l = true <-> forall x y, x ∈ l -> y ∈ l -> P x y.
Proof.
  intros Hbody Hrefl Hsym. rewrite for_pairs_true. split.
  - intros Hall x y Hx Hy. pose proof Hx as Hx'. pose proof Hy as Hy'.
    apply list_elem_of_lookup in Hx' as [i Hi]. apply list_elem_of_lookup in Hy' as [j Hj].
    destruct (lt_eq_lt_dec i j) as [[Hlt| ->]|Hgt].
    + apply Hbody; eauto.
    + simplify_eq. apply Hrefl.
    + apply Hsym, Hbody; eauto.
  - intros Hall i j x y _ Hi Hj. apply Hbody; [by eapply list_elem_of_lookup_2..|].
    apply Hall; by eapply list_elem_of_lookup_2.
Qed.

Lemma for_adjacent_sorted {A} (body : A -> A -> bool) (l : list A) :
  (forall x y z, body x y = true -> body y z = true -> body x z = true) ->
  for_adjacent body l = true <-> StronglySorted (fun x y => body x y = true) l.
Proof.
  intros Htr. induction l as [|x [|y l] IH]; cbn [for_adjacent].
  - split; [constructor|done].
  - split; [|done]. intros _. by repeat constructor.
  - rewrite andb_true_iff, IH. split.
    + intros [Hxy Hs]. constructor; [done|].
      apply list.Forall_cons. split; [done|]. inversion Hs as [|? ? _ Hall]; subst.
      eapply list.Forall_impl; [exact Hall|]. cbn. eauto.
    + intros Hs. inversion Hs as [|? ? Hs' Hall]; subst. apply list.Forall_cons in Hall as [Hxy _].
      done.
Qed.

Lemma bytes_eqb_true a b : bytes_eqb a b = true <-> a = b.
Proof. apply bool_decide_eq_true. Qed.

(** ** Election safety, decided *)

Definition leads (v : ClusterView) (t : Term) (id : NodeId) : bool :=
  negb (is_stopped v id) && nv_is_leader (cv_node v id) && (nv_term (cv_node v id) =? t).

Lemma leaders_per_term_lookup v t :
  default [] (leaders_per_term v !! t) = list_filter (leads v t) (cv_node_ids v).
Proof.
  unfold leaders_per_term. induction (cv_node_ids v) as [|id ids IH] using rev_ind; [done|].
  rewrite foldl_app, list_filter_app, <- IH. cbn [foldl list_filter]. unfold leads.
  destruct (is_stopped v id); cbn; [by rewrite app_nil_r|].
  destruct (nv_is_leader (cv_node v id)); cbn; [|by rewrite app_nil_r].
  unfold push_leader. destruct (nv_term (cv_node v id) =? t) eqn:E.
  - apply N.eqb_eq in E. subst t. by rewrite lookup_insert_eq.
  - rewrite lookup_insert_ne by lia. by rewrite app_nil_r.
Qed.

Lemma length_le_1_NoDup {A} (l : list A) :
  NoDup l -> (length l <= 1)%nat <-> forall x y, x ∈ l -> y ∈ l -> x = y.
Proof.
  intros Hnd. destruct l as [|a [|b l]]; cbn.
  - split; [set_solver|lia].
  - split; [|lia]. intros _ x y. rewrite !list_elem_of_singleton. congruence.
  - split; [lia|]. intros Hall. exfalso. apply NoDup_cons in Hnd as [Hn _].
    rewrite (Hall a b) in Hn by set_solver. set_solver.
Qed.

Lemma NoDup_list_filter {A} (f : A -> bool) (l : list A) : NoDup l -> NoDup (list_filter f l).
Proof.
  induction 1 as [|x l Hx Hl IH]; cbn; [constructor|]. destruct (f x); [|done].
  constructor; [|done]. by intros [? _]%elem_of_list_filter_b.
Qed.

Lemma elem_of_active v id : id ∈ active_ids v <-> id ∈ cv_node_ids v /\ is_stopped v id = false.
Proof. unfold active_ids. rewrite elem_of_list_filter_b, negb_true_iff. done. Qed.

Definition one_leader_per_term (v : ClusterView) : Prop :=
  forall a b, a ∈ active_ids v -> b ∈ active_ids v ->
    nv_is_leader (cv_node v a) = true -> nv_is_leader (cv_node v b) = true ->
    nv_term (cv_node v a) = nv_term (cv_node v b) -> a = b.

Lemma election_safety_decided v :
  NoDup (cv_node_ids v) -> check_leader_election_safety v = true <-> one_leader_per_term v.
Proof.
  intros Hnd. unfold check_leader_election_safety. rewrite forallb_true.
  transitivity (forall t, (length (list_filter (leads v t) (cv_node_ids v)) <= 1)%nat).
  - setoid_rewrite <- leaders_per_term_lookup. split.
    + intros Hall t. destruct (leaders_per_term v !! t) as [l|] eqn:E; cbn; [|lia].
      apply elem_of_map_to_list in E. specialize (Hall _ E). cbn in Hall. lia.
    + intros Hall [t l] Hin. apply elem_of_map_to_list in Hin. specialize (Hall t).
      rewrite Hin in Hall. cbn in *. lia.
  - setoid_rewrite (length_le_1_NoDup _ (NoDup_list_filter _ _ Hnd)).
    unfold one_leader_per_term. setoid_rewrite elem_of_active.
    setoid_rewrite elem_of_list_filter_b. unfold leads. split.
    + intros Hall a b [Ha Sa] [Hb Sb] La Lb Ht. apply (Hall (nv_term (cv_node v a))).
      * by rewrite Sa, La, N.eqb_refl.
      * by rewrite Sb, Lb, <- Ht, N.eqb_refl.
    + intros Hall t a b [Ha Pa] [Hb Pb].
      apply andb_prop in Pa as [[Sa La]%andb_prop Ta]. apply andb_prop in Pb as [[Sb Lb]%andb_prop Tb].
      apply negb_true_iff in Sa, Sb. apply Hall; auto. lia.
Qed.

(** ** Log matching, decided *)

(** Logs without gaps from offset zero. *)
Definition logs_contiguous (v : ClusterView) : Prop :=
  forall id, id ∈ active_ids v -> contiguous 0 (nv_log (cv_node v id)) = true.

Lemma find_entry_lookup log off :
  contiguous 0 log = true -> find_entry off log = log !! N.to_nat off.
Proof. intros Hc. unfold find_entry. rewrite (contiguous_find 0) by (done || lia). f_equal. lia. Qed.

Lemma contiguous_none_below log off :
  contiguous 0 log = true -> log !! N.to_nat off = None ->
  existsb (fun e => off <? offset e) log = false.
Proof.
  intros Hc Hn. apply existsb_false. intros e He. pose proof (contiguous_bounds _ _ _ Hc He).
  apply lookup_ge_None in Hn. lia.
Qed.

Definition entry_eqb (a b : LogEntry) : bool :=
  (term a =? term b) && EntryType_eqb (entry_type a) (entry_type b) && bytes_eqb (payload a) (payload b).

Lemma entry_eqb_true a b : offset a = offset b -> entry_eqb a b = true <-> a = b.
Proof.
  intros Ho. unfold entry_eqb, EntryType_eqb. rewrite !andb_true_iff, bool_decide_eq_true, bytes_eqb_true.
  destruct a, b; cbn in *. split; [intros [[? ?] ?]; f_equal; try done; lia|].
  intros [=]; subst. split_and!; try done. lia.
Qed.

Lemma match_at_true la lb off :
  contiguous 0 la = true -> contiguous 0 lb = true ->
  match_at la lb off = true <->
  forall ea eb, la !! N.to_nat off = Some ea -> lb !! N.to_nat off = Some eb -> ea = eb.
Proof.
  intros Ha Hb. unfold match_at. rewrite !find_entry_lookup by done.
  destruct (la !! N.to_nat off) as [ea|] eqn:Ea, (lb !! N.to_nat off) as [eb|] eqn:Eb.
  - fold (entry_eqb ea eb). rewrite entry_eqb_true.
    + split; [|auto]. intros -> x y. congruence.
    + rewrite (contiguous_lookup _ _ _ _ Ha Ea), (contiguous_lookup _ _ _ _ Hb Eb). done.
  - rewrite contiguous_none_below by done. done.
  - rewrite contiguous_none_below by done. done.
  - done.
Qed.

(** The classical statement: when two logs have an entry of the same term at
    the same place, they are equal up to there. *)
Definition log_matching (la lb : list LogEntry) : Prop :=
  forall i ea eb, la !! i = Some ea -> lb !! i = Some eb -> term ea = term eb ->
    take (S i) la = take (S i) lb.

Lemma take_eq_lookup (la lb : list LogEntry) (n : nat) :
  (n <= length la)%nat -> (n <= length lb)%nat ->
  take n la = take n lb <->
  forall i ea eb, (i < n)%nat -> la !! i = Some ea -> lb !! i = Some eb -> ea = eb.
Proof.
  intros Hla Hlb. split.
  - intros E i ea eb Hi Ha Hb. rewrite <- (lookup_take_lt la n i) in Ha by done.
    rewrite <- (lookup_take_lt lb n i), <- E in Hb by done. congruence.
  - intros Hall. apply list_eq. intros i. destruct (decide (i < n)%nat) as [Hi|Hi].
    + rewrite !lookup_take_lt by done.
      destruct (lookup_lt_is_Some_2 la i) as [ea Ea]; [lia|].
      destruct (lookup_lt_is_Some_2 lb i) as [eb Eb]; [lia|].
      rewrite Ea, Eb. f_equal. eauto.
    + rewrite !lookup_take_ge by lia. done.
Qed.

Lemma logs_match_true la lb :
  contiguous 0 la = true -> contiguous 0 lb = true ->
  logs_match la lb = true <-> log_matching la lb.
Proof.
  intros Ha Hb. unfold logs_match. rewrite forallb_true. split.
  - intros Hall i ea eb Ea Eb Ht. apply take_eq_lookup.
    + apply lookup_lt_Some in Ea. lia.
    + apply lookup_lt_Some in Eb. lia.
    + pose proof (contiguous_lookup _ _ _ _ Ha Ea) as Oa. pose proof (contiguous_lookup _ _ _ _ Hb Eb) as Ob.
      specialize (Hall ea ltac:(by eapply list_elem_of_lookup_2)). rewrite forallb_true in Hall.
      specialize (Hall eb ltac:(by eapply list_elem_of_lookup_2)).
      rewrite (proj2 (N.eqb_eq (offset ea) (offset eb))), (proj2 (N.eqb_eq (term ea) (term eb))) in Hall
        by (done || lia). cbn in Hall. unfold verify_prefix_match in Hall. rewrite forallb_true in Hall.
      intros k xa xb Hk Hxa Hxb.
      specialize (Hall (N.of_nat k) ltac:(apply elem_of_range; lia)).
      apply match_at_true with (ea := xa) (eb := xb) in Hall; rewrite ?Nat2N.id; done.
  - intros Hm ea Hea. rewrite forallb_true. intros eb Heb.
    destruct ((offset ea =? offset eb) && (term ea =? term eb)) eqn:E; [|done].
    apply andb_prop in E as [Eo Et]. apply list_elem_of_lookup in Hea as [i Hi].
    apply list_elem_of_lookup in Heb as [j Hj].
    pose proof (contiguous_lookup _ _ _ _ Ha Hi) as Oa. pose proof (contiguous_lookup _ _ _ _ Hb Hj) as Ob.
    assert (i = j) as <- by lia. specialize (Hm i ea eb Hi Hj ltac:(lia)).
    pose proof (lookup_lt_Some _ _ _ Hi). pose proof (lookup_lt_Some _ _ _ Hj).
    rewrite take_eq_lookup in Hm by lia.
    unfold verify_prefix_match. apply forallb_true. intros k Hk. apply elem_of_range in Hk.
    apply match_at_true; [done|done|]. intros xa xb Hxa Hxb. eapply Hm; [|done|done]. lia.
Qed.

Lemma log_matching_decided v :
  logs_contiguous v ->
  check_log_matching v = true <->
  forall a b, a ∈ active_ids v -> b ∈ active_ids v ->
    log_matching (nv_log (cv_node v a)) (nv_log (cv_node v b)).
Proof.
  intros Hc. unfold check_log_matching.
  apply (for_pairs_sym _ (fun a b => log_matching (nv_log (cv_node v a)) (nv_log (cv_node v b)))).
  - intros a b Ha Hb. apply logs_match_true; by apply Hc.
  - intros a i ea eb _ _ _. done.
  - intros a b Hm i ea eb Ea Eb Ht. symmetry. eapply Hm; [done|done|congruence].
Qed.

(** ** Leader completeness, decided *)

(** How many nodes hold an entry with this term and data at [off]. *)
Definition holders (v : ClusterView) (off : N) (key : Term * bytes) : nat :=
  length (list_filter (fun id => match find_entry off (nv_log (cv_node v id)) with
                                 | Some e => bool_decide ((term e, payload e) = key)
                                 | None => false
                                 end) (cv_node_ids v)).

Definition count_of (key : Term * bytes) (counts : Counts) : nat :=
  match list_find_first (fun kn => bool_decide (fst kn = key)) counts with
  | Some (_, n) => n
  | None => O
  end.

Lemma count_of_bump key k counts :
  count_of key (bump k counts) =
  (count_of key counts + if bool_decide (k = key) then 1 else 0)%nat.
Proof.
  unfold count_of. induction counts as [|[k' n] counts IH]; cbn.
  - by destruct (bool_decide (k = key)).
  - destruct (bool_decide (k' = k)) eqn:E; cbn.
    + apply bool_decide_eq_true in E as ->. destruct (bool_decide (k = key)) eqn:E2; [lia|].
      destruct (list_find_first _ counts) as [[??]|]; lia.
    + destruct (bool_decide (k' = key)) eqn:E2; [|done].
      apply bool_decide_eq_true in E2 as ->. apply bool_decide_eq_false in E.
      rewrite bool_decide_false by congruence. lia.
Qed.

(** Keys are distinct, so every pair of the table is the count of its key. *)
Definition counts_ok (counts : Counts) : Prop :=
  NoDup (map fst counts) /\ forall k n, (k, n) ∈ counts -> (0 < n)%nat.

Lemma bump_keys k counts x : x ∈ map fst (bump k counts) <-> x = k \/ x ∈ map fst counts.
Proof.
  induction counts as [|[k' n] counts IH]; cbn; [set_solver|].
  case_bool_decide; cbn; set_solver.
Qed.

Lemma bump_ok k counts : counts_ok counts -> counts_ok (bump k counts).
Proof.
  intros [Hnd Hpos]. induction counts as [|[k' n] counts IH]; cbn.
  - split; [apply NoDup_singleton|]. intros x m ?%list_elem_of_singleton. simplify_eq. lia.
  - cbn in Hnd. apply NoDup_cons in Hnd as [Hn Hnd]. destruct IH as [IHnd IHpos]; [done| |].
    { intros x m Hin. eapply Hpos. by constructor. }
    case_bool_decide as E; split; cbn.
    + by constructor.
    + intros x m [?|Hin]%elem_of_cons; [simplify_eq; lia|]. eapply Hpos. by constructor.
    + constructor; [|done]. rewrite bump_keys. naive_solver.
    + intros x m [?|Hin]%elem_of_cons; [simplify_eq; eapply Hpos; constructor|eauto].
Qed.

Lemma elem_of_counts counts k n :
  counts_ok counts -> (k, n) ∈ counts <-> count_of k counts = n /\ (0 < n)%nat.
Proof.
  intros [Hnd Hpos]. split.
  - intros Hin. split; [|eauto]. clear Hpos. unfold count_of.
    induction counts as [|[k' n'] counts IH]; cbn; [set_solver|].
    cbn in Hnd. apply NoDup_cons in Hnd as [Hn Hnd]. apply elem_of_cons in Hin as [?|Hin].
    + simplify_eq. by rewrite bool_decide_true.
    + rewrite bool_decide_false; [auto|]. intros ->. destruct Hn.
      apply list_elem_of_fmap. by exists (k, n).
  - intros [Hc Hn]. unfold count_of in Hc.
    destruct (list_find_first _ counts) as [[k' n']|] eqn:E; [|lia].
    apply list_find_first_Some in E as [Hin Hk]. apply bool_decide_eq_true in Hk. cbn in *. by subst.
Qed.

Lemma entry_counts_spec v off :
  counts_ok (entry_counts v off) /\
  forall key, count_of key (entry_counts v off) = holders v off key.
Proof.
  unfold entry_counts, holders. induction (cv_node_ids v) as [|id ids IH] using rev_ind.
  - split; [split; [constructor|set_solver]|done].
  - destruct IH as [Hok Hc]. rewrite foldl_app. cbn [foldl].
    destruct (find_entry off (nv_log (cv_node v id))) as [e|] eqn:E.
    + split; [by apply bump_ok|]. intros key.
      rewrite count_of_bump, Hc, list_filter_app, length_app. cbn [list_filter]. rewrite E.
      by destruct (bool_decide _).
    + split; [done|]. intros key. rewrite Hc, list_filter_app, length_app. cbn [list_filter].
      rewrite E. cbn. lia.
Qed.

(** [leader] holds every entry that a majority of the voters' number holds. *)
Definition holds_committed (v : ClusterView) (leader : NodeId) : Prop :=
  forall off t d, (majority_of (cv_voter_count v) <= holders v off (t, d))%nat ->
    exists le, find_entry off (nv_log (cv_node v leader)) = Some le /\ term le = t /\ payload le = d.

Definition active_leader (v : ClusterView) (id : NodeId) : Prop :=
  id ∈ active_ids v /\ nv_is_leader (cv_node v id) = true.

(** Every active leader does. *)
Definition leader_complete (v : ClusterView) : Prop :=
  forall id, active_leader v id -> holds_committed v id.

Definition at_most_one_leader (v : ClusterView) : Prop :=
  forall a b, active_leader v a -> active_leader v b -> a = b.

(** No node has entries at or beyond the log end it reports. *)
Definition log_ends (v : ClusterView) : Prop :=
  forall id e, id ∈ cv_node_ids v -> e ∈ nv_log (cv_node v id) -> offset e < nv_log_end_offset (cv_node v id).

Lemma foldl_max_ge (l : list N) (x n : N) : n <= x \/ Exists (fun y => n <= y) l -> n <= foldl N.max x l.
Proof.
  revert x. induction l as [|y l IH]; intros x [Hn|Hn]; cbn; try (by inversion Hn); [done|apply IH..].
  - left. lia.
  - inversion Hn; subst; [left; lia|by right].
Qed.

Lemma held_below_max v off key : log_ends v -> (0 < holders v off key)%nat -> off < max_offset v.
Proof.
  intros He Hh. unfold holders in Hh. destruct (list_filter _ _) as [|id ids] eqn:E; [cbn in Hh; lia|].
  assert (id ∈ id :: ids) as Hin by left. rewrite <- E in Hin. apply elem_of_list_filter_b in Hin as [Hid Hf].
  destruct (find_entry off (nv_log (cv_node v id))) as [e|] eqn:Ef; [|done].
  unfold find_entry in Ef. apply list_find_first_Some in Ef as [Hel Ho].
  specialize (He id e Hid Hel). assert (off + 1 <= max_offset v); [|lia].
  apply foldl_max_ge. right. apply Exists_exists. eexists. split; [apply list_elem_of_fmap; by exists id|]. lia.
Qed.

(** The body of the check, for the leader it has chosen. *)
Lemma leader_loop_decided v leader :
  log_ends v ->
  forallb (fun off => forallb (has_committed (nv_log (cv_node v leader)) (majority_of (cv_voter_count v)) off)
    (entry_counts v off)) (range (max_offset v)) = true <-> holds_committed v leader.
Proof.
  intros He. rewrite forallb_true. setoid_rewrite elem_of_range. setoid_rewrite forallb_true. split.
  - intros Hall off t d Hmaj. destruct (entry_counts_spec v off) as [Hok Hc].
    assert (0 < holders v off (t, d))%nat as Hpos by (unfold majority_of in Hmaj; lia).
    specialize (Hall off (held_below_max _ _ _ He Hpos) ((t, d), holders v off (t, d))).
    rewrite (elem_of_counts _ _ _ Hok), Hc in Hall. specialize (Hall ltac:(done)).
    unfold has_committed in Hall. cbn [fst snd] in Hall. rewrite (proj2 (Nat.leb_le _ _) Hmaj) in Hall.
    destruct (find_entry off _) as [le|]; [|done]. exists le.
    apply andb_prop in Hall as [Ht Hd%bytes_eqb_true]. split_and!; [done|lia|done].
  - intros Hall off Hoff [[t d] n] Hin. destruct (entry_counts_spec v off) as [Hok Hc].
    apply (elem_of_counts _ _ _ Hok) in Hin as [Hn _]. rewrite Hc in Hn. subst n.
    unfold has_committed. cbn [fst snd]. case_match eqn:E; [|done].
    destruct (Hall off t d ltac:(lia)) as (le & -> & <- & <-).
    by rewrite N.eqb_refl, (proj2 (bytes_eqb_true _ _) eq_refl).
Qed.

Lemma leader_completeness_decided v :
  log_ends v -> at_most_one_leader v -> check_leader_completeness v = true <-> leader_complete v.
Proof.
  intros He Hone. unfold check_leader_completeness, leader_complete.
  destruct (list_find_first _ (active_ids v)) as [leader|] eqn:E.
  - apply list_find_first_Some in E as [Hin Hl]. rewrite leader_loop_decided by done. split.
    + intros Hh id Hid. by rewrite (Hone id leader).
    + intros Hall. by apply Hall.
  - split; [|done]. intros _ id [Hin Hl]. rewrite list_find_first_None in E. specialize (E id Hin). cbn in E. congruence.
Qed.

(** ** State machine safety, decided *)

Definition machine_safe (n : NodeView) : Prop :=
  (forall off, off < nv_high_watermark n -> is_Some (find_entry off (nv_log n))) /\
  TestStateMachine.duplicate_apply_count (nv_state_machine n) = 0 /\
  StronglySorted N.lt (TestStateMachine.apply_order (nv_state_machine n)).

Definition machines_agree (a b : NodeView) : Prop :=
  (forall off ra rb, TestStateMachine.get_applied off (nv_state_machine a) = Some ra ->
     TestStateMachine.get_applied off (nv_state_machine b) = Some rb -> ra = rb) /\
  (forall off ea eb, off < nv_high_watermark a -> off < nv_high_watermark b ->
     find_entry off (nv_log a) = Some ea -> find_entry off (nv_log b) = Some eb ->
     term ea = term eb /\ payload ea = payload eb).

Lemma sorted_ltb (l : list N) :
  for_adjacent N.ltb l = true <-> StronglySorted N.lt l.
Proof.
  rewrite for_adjacent_sorted by (intros; lia).
  split; intros Hs; induction Hs as [|x l Hs IH Hall]; constructor; try done;
    eapply list.Forall_impl; try exact Hall; cbn; intros; lia.
Qed.

Lemma machine_safe_true n : no_gaps n && applied_once n = true <-> machine_safe n.
Proof.
  unfold no_gaps, applied_once, machine_safe. rewrite !andb_true_iff, forallb_true, sorted_ltb, N.eqb_eq.
  setoid_rewrite elem_of_range. split; intros [Hg Hr]; (split; [|exact Hr]); intros off Hoff;
    specialize (Hg off Hoff).
  - by destruct (find_entry off (nv_log n)).
  - by destruct Hg as [? ->].
Qed.

Lemma same_applied_true a b :
  bt_wf (TestStateMachine.applied (nv_state_machine a)) ->
  same_applied a b = true <->
  forall off ra rb, TestStateMachine.get_applied off (nv_state_machine a) = Some ra ->
     TestStateMachine.get_applied off (nv_state_machine b) = Some rb -> ra = rb.
Proof.
  intros Hwf. unfold same_applied. rewrite forallb_true. split.
  - intros Hall off ra rb Ha Hb. apply (bt_elem_get _ _ _ Hwf) in Ha. specialize (Hall _ Ha).
    cbn in Hall. rewrite Hb in Hall. apply bytes_eqb_true in Hall. destruct ra, rb. cbn in *. congruence.
  - intros Hall [off ra] Hin. cbn. apply (bt_elem_get _ _ _ Hwf) in Hin.
    destruct (TestStateMachine.get_applied off (nv_state_machine b)) as [rb|] eqn:E; [|done].
    apply bytes_eqb_true. f_equal. eauto.
Qed.

Lemma same_committed_true a b :
  same_committed a b = true <->
  forall off ea eb, off < nv_high_watermark a -> off < nv_high_watermark b ->
     find_entry off (nv_log a) = Some ea -> find_entry off (nv_log b) = Some eb ->
     term ea = term eb /\ payload ea = payload eb.
Proof.
  unfold same_committed. rewrite forallb_true. setoid_rewrite elem_of_range. split.
  - intros Hall off ea eb Ha Hb Ea Eb. specialize (Hall off ltac:(lia)). rewrite Ea, Eb in Hall.
    apply andb_prop in Hall as [? ?%bytes_eqb_true]. split; [lia|done].
  - intros Hall off Hoff. destruct (find_entry off (nv_log a)) eqn:Ea; [|done].
    destruct (find_entry off (nv_log b)) eqn:Eb; [|done].
    destruct (Hall off _ _ ltac:(lia) ltac:(lia) Ea Eb) as [-> ->].
    by rewrite N.eqb_refl, (proj2 (bytes_eqb_true _ _) eq_refl).
Qed.

Definition machines_wf (v : ClusterView) : Prop :=
  forall id, id ∈ active_ids v -> bt_wf (TestStateMachine.applied (nv_state_machine (cv_node v id))).

Definition state_machine_safe (v : ClusterView) : Prop :=
  (forall id, id ∈ active_ids v -> machine_safe (cv_node v id)) /\
  (forall a b, a ∈ active_ids v -> b ∈ active_ids v -> machines_agree (cv_node v a) (cv_node v b)).

Lemma state_machine_safety_decided v :
  machines_wf v -> check_state_machine_safety v = true <-> state_machine_safe v.
Proof.
  intros Hwf. unfold check_state_machine_safety.
  transitivity (forallb (fun id => no_gaps (cv_node v id)) (active_ids v) &&
      forallb (fun id => applied_once (cv_node v id)) (active_ids v) &&
      for_pairs (fun i j => same_applied (cv_node v i) (cv_node v j)) (active_ids v) &&
      for_pairs (fun i j => same_committed (cv_node v i) (cv_node v j)) (active_ids v) = true).
  { by destruct (active_ids v). }
  rewrite !andb_true_iff, !forallb_true.
  rewrite (for_pairs_sym _ (fun i j => forall off ra rb,
    TestStateMachine.get_applied off (nv_state_machine (cv_node v i)) = Some ra ->
    TestStateMachine.get_applied off (nv_state_machine (cv_node v j)) = Some rb -> ra = rb));
    [|intros; by apply same_applied_true, Hwf|intros; congruence|intros; symmetry; eauto].
  rewrite (for_pairs_sym _ (fun i j => forall off ea eb,
    off < nv_high_watermark (cv_node v i) -> off < nv_high_watermark (cv_node v j) ->
    find_entry off (nv_log (cv_node v i)) = Some ea ->
    find_entry off (nv_log (cv_node v j)) = Some eb -> term ea = term eb /\ payload ea = payload eb));
    [|intros; apply same_committed_true|intros; simplify_eq; done
     |intros x y Hxy off ea eb ? ? ? ?; destruct (Hxy off eb ea) as [-> ->]; done].
  unfold state_machine_safe, machines_agree. split.
  - intros [[[H1 H2] H3] H4]. split.
    + intros id Hid. apply machine_safe_true. by rewrite H1, H2.
    + intros a b Ha Hb. split; [by apply H3|by apply H4].
  - intros [H1 H2].
    assert (forall id, id ∈ active_ids v -> no_gaps (cv_node v id) = true /\
              applied_once (cv_node v id) = true) as H1'.
    { intros id Hid. apply andb_prop, machine_safe_true, H1, Hid. }
    split; [split; [split|]|].
    + intros id Hid. by apply H1'.
    + intros id Hid. by apply H1'.
    + intros a b Ha Hb. by apply (H2 a b).
    + intros a b Ha Hb. by apply (H2 a b).
Qed.

(** ** Append-only leaders, over a history of checks *)

(** Every entry of [l1] is still in [l2], with its term and data. *)
Definition kept (l1 l2 : list LogEntry) : Prop :=
  (forall e, e ∈ l1 -> exists e', find_entry (offset e) l2 = Some e' /\
     term e' = term e /\ payload e' = payload e) /\
  (length l1 <= length l2)%nat.

Definition offsets_increase (l : list LogEntry) : Prop :=
  StronglySorted (fun a b => offset a < offset b) l.

Lemma offsets_increase_true l :
  for_adjacent (fun a b => offset a <? offset b) l = true <-> offsets_increase l.
Proof.
  rewrite for_adjacent_sorted by (intros; lia). unfold offsets_increase.
  split; intros Hs; induction Hs as [|x l Hs IH Hall]; constructor; try done;
    eapply list.Forall_impl; try exact Hall; cbn; intros; lia.
Qed.

Lemma find_entry_increasing l e : offsets_increase l -> e ∈ l -> find_entry (offset e) l = Some e.
Proof.
  unfold find_entry. induction 1 as [|x l Hs IH Hall]; cbn; [set_solver|].
  intros [->|He]%elem_of_cons; [by rewrite N.eqb_refl|].
  rewrite list.Forall_forall in Hall. specialize (Hall _ He). cbn in Hall.
  destruct (offset x =? offset e) eqn:E; [lia|auto].
Qed.

Lemma kept_refl l : offsets_increase l -> kept l l.
Proof. intros Hs. split; [|done]. intros e He. exists e. split; [by apply find_entry_increasing|done]. Qed.

Lemma kept_trans l1 l2 l3 : kept l1 l2 -> kept l2 l3 -> kept l1 l3.
Proof.
  intros [H12 Hl12] [H23 Hl23]. split; [|lia]. intros e He.
  destruct (H12 e He) as (e2 & Hf & Ht & Hp). unfold find_entry in Hf.
  apply list_find_first_Some in Hf as [Hin Ho].
  destruct (H23 e2 Hin) as (e3 & Hf3 & Ht3 & Hp3). exists e3.
  replace (offset e) with (offset e2) by lia. split_and!; [done|congruence..].
Qed.

Lemma entry_kept_true log e :
  entry_kept log e = true <->
  exists e', find_entry (offset e) log = Some e' /\ term e' = term e /\ payload e' = payload e.
Proof.
  unfold entry_kept. destruct (find_entry (offset e) log) as [ce|]; [|naive_solver].
  rewrite andb_true_iff, bytes_eqb_true. split.
  - intros [? ?]. exists ce. split_and!; [done|lia|done].
  - intros (e' & [= <-] & Ht & Hp). split; [lia|done].
Qed.

Definition snapshots_ok (snaps : Snapshots) : Prop :=
  forall key l, snaps !! key = Some l -> offsets_increase l.

(** What one accepted node does to the table: nothing if it is no active
    leader; otherwise its log, which keeps the previous snapshot, replaces
    it. *)
Lemma check_leader_Some v snaps id snaps' :
  check_leader v snaps id = Some snaps' ->
  let node := cv_node v id in
  if negb (is_stopped v id) && nv_is_leader node then
    snaps' = <[(id, nv_term node) := nv_log node]> snaps /\ offsets_increase (nv_log node) /\
    (forall prev, snaps !! (id, nv_term node) = Some prev -> kept prev (nv_log node))
  else snaps' = snaps.
Proof.
  unfold check_leader. destruct (is_stopped v id); cbn; [by intros [= <-]|].
  destruct (nv_is_leader (cv_node v id)); cbn; [|by intros [= <-]].
  destruct (for_adjacent (fun a b => offset a <? offset b) _) eqn:Eo; cbn; [|done].
  destruct (for_adjacent (fun a b => term a <=? term b) _); cbn; [|done].
  apply offsets_increase_true in Eo.
  destruct (snaps !! (id, nv_term (cv_node v id))) as [prev|] eqn:Es.
  - destruct (_ && _) eqn:Ek; [|done]. intros [= <-]. split_and!; [done|done|].
    intros prev' [= <-]. apply andb_prop in Ek as [Ek El]. rewrite forallb_true in Ek. split; [|lia].
    intros e He. by apply entry_kept_true, Ek.
  - intros [= <-]. split_and!; [done|done|]. by intros prev' [=].
Qed.

(** The table moves forward: a recorded log is kept by the one that replaces
    it. *)
Lemma check_leaders_forward v ids snaps snaps' :
  check_leaders v ids snaps = Some snaps' -> snapshots_ok snaps ->
  snapshots_ok snaps' /\
  (forall key prev, snaps !! key = Some prev -> exists cur, snaps' !! key = Some cur /\ kept prev cur) /\
  (forall id, id ∈ ids -> is_stopped v id = false -> nv_is_leader (cv_node v id) = true ->
     exists cur, snaps' !! (id, nv_term (cv_node v id)) = Some cur /\ kept (nv_log (cv_node v id)) cur /\
       (forall prev, snaps !! (id, nv_term (cv_node v id)) = Some prev -> kept prev (nv_log (cv_node v id)))).
Proof.
  revert snaps. induction ids as [|id ids IH]; intros snaps; cbn [check_leaders].
  - intros [= <-] Hok. split_and!; [done| |set_solver].
    intros key prev Hp. exists prev. split; [done|]. apply kept_refl. eauto.
  - destruct (check_leader v snaps id) as [snaps1|] eqn:E; [|done]. intros Hr Hok.
    apply check_leader_Some in E. cbn zeta in E.
    destruct (negb (is_stopped v id) && nv_is_leader (cv_node v id)) eqn:Ea.
    + destruct E as (-> & Hinc & Hprev).
      destruct (IH _ Hr) as (Hok' & Hfwd & Hin).
      { intros key l. destruct (decide (key = (id, nv_term (cv_node v id)))) as [->|Hne].
        - rewrite lookup_insert_eq. by intros [= <-].
        - rewrite lookup_insert_ne by done. apply Hok. }
      split_and!; [done|..].
      * intros key prev Hp. destruct (decide (key = (id, nv_term (cv_node v id)))) as [->|Hne].
        -- destruct (Hfwd (id, nv_term (cv_node v id)) (nv_log (cv_node v id))) as (cur & Hc & Hk);
             [by rewrite lookup_insert_eq|].
           exists cur. split; [done|]. eapply kept_trans; [by apply Hprev|done].
        -- apply Hfwd. by rewrite lookup_insert_ne.
      * intros k [->|Hk]%elem_of_cons Hs Hl.
        -- destruct (Hfwd (id, nv_term (cv_node v id)) (nv_log (cv_node v id))) as (cur & Hc & Hkp);
             [by rewrite lookup_insert_eq|]. exists cur. done.
        -- destruct (Hin k Hk Hs Hl) as (cur & Hc & Hkp & Hp). exists cur. split_and!; [done|done|].
           intros prev Hpr. destruct (decide (k = id)) as [->|Hne]; [by apply Hprev|].
           apply Hp. rewrite lookup_insert_ne; [done|congruence].
    + subst snaps1. destruct (IH _ Hr Hok) as (Hok' & Hfwd & Hin). split_and!; [done|done|].
      intros k [->|Hk]%elem_of_cons Hs Hl; [by rewrite Hs, Hl in Ea|eauto].
Qed.

Fixpoint run_checks (vs : list ClusterView) (snaps : Snapshots) : option Snapshots :=
  match vs with
  | [] => Some snaps
  | v :: vs' => match check_leader_append_only v snaps with
                | Some snaps' => run_checks vs' snaps'
                | None => None
                end
  end.

Lemma run_checks_later vs snaps snaps' key log0 :
  run_checks vs snaps = Some snaps' -> snapshots_ok snaps ->
  (exists cur, snaps !! key = Some cur /\ kept log0 cur) ->
  forall i v id, vs !! i = Some v -> id ∈ active_ids v -> nv_is_leader (cv_node v id) = true ->
    key = (id, nv_term (cv_node v id)) -> kept log0 (nv_log (cv_node v id)).
Proof.
  revert snaps. induction vs as [|v0 vs IH]; intros snaps; cbn [run_checks]; [done|].
  unfold check_leader_append_only.
  destruct (check_leaders v0 (cv_node_ids v0) snaps) as [snaps1|] eqn:E; [|done].
  intros Hr Hok (cur & Hcur & Hk) [|i] v id Hv Hid Hl ->;
    apply check_leaders_forward in E as (Hok1 & Hfwd & Hin); [|done| |done].
  - cbn in Hv. simplify_eq. apply elem_of_active in Hid as [Hid Hs].
    destruct (Hin id Hid Hs Hl) as (_ & _ & _ & Hp). eapply kept_trans; [done|auto].
  - destruct (Hfwd _ _ Hcur) as (cur1 & Hc1 & Hk1).
    apply (IH snaps1 Hr Hok1 ltac:(exists cur1; split; [done|by eapply kept_trans]) i); done.
Qed.

Lemma run_checks_kept vs : forall snaps snaps' i j vi vj id,
  run_checks vs snaps = Some snaps' -> snapshots_ok snaps ->
  (i < j)%nat -> vs !! i = Some vi -> vs !! j = Some vj ->
  id ∈ active_ids vi -> id ∈ active_ids vj ->
  nv_is_leader (cv_node vi id) = true -> nv_is_leader (cv_node vj id) = true ->
  nv_term (cv_node vi id) = nv_term (cv_node vj id) ->
  kept (nv_log (cv_node vi id)) (nv_log (cv_node vj id)).
Proof.
  induction vs as [|v0 vs IH]; intros snaps snaps' i j vi vj id Hr Hok Hij Hi Hj Hai Haj Hli Hlj Ht;
    [done|].
  cbn [run_checks] in Hr. unfold check_leader_append_only in Hr.
  destruct (check_leaders v0 (cv_node_ids v0) snaps) as [snaps1|] eqn:E; [|done].
  apply check_leaders_forward in E as (Hok1 & Hfwd & Hin); [|done].
  destruct i as [|i], j as [|j]; try lia; cbn in Hi, Hj.
  - simplify_eq. apply elem_of_active in Hai as [Hid Hs].
    destruct (Hin id Hid Hs Hli) as (cur & Hc & Hkp & _).
    apply (run_checks_later vs snaps1 snaps' (id, nv_term (cv_node vi id)) _ Hr Hok1
             ltac:(by exists cur) j vj id); try done. by rewrite Ht.
  - apply (IH snaps1 snaps' i j vi vj id); try done. lia.
Qed.

(** C25: A checker that has accepted a sequence of cluster states has seen
    append-only leaders: whenever the same node leads the same term in two of
    the states, every entry it held in the earlier one is in its log in the
    later one, at the same offset with the same term and data, and the log has
    not become shorter, however many states lie between. *)
Theorem append_only_history (vs : list ClusterView) snaps i j vi vj id :
  run_checks vs new = Some snaps ->
  (i < j)%nat -> vs !! i = Some vi -> vs !! j = Some vj ->
  id ∈ active_ids vi -> id ∈ active_ids vj ->
  nv_is_leader (cv_node vi id) = true -> nv_is_leader (cv_node vj id) = true ->
  nv_term (cv_node vi id) = nv_term (cv_node vj id) ->
  (forall e, e ∈ nv_log (cv_node vi id) ->
     exists e', e' ∈ nv_log (cv_node vj id) /\ offset e' = offset e /\ term e' = term e /\
       payload e' = payload e) /\
  (length (nv_log (cv_node vi id)) <= length (nv_log (cv_node vj id)))%nat.
Proof.
  intros Hr Hij Hi Hj Hai Haj Hli Hlj Ht.
  destruct (run_checks_kept vs new snaps i j vi vj id) as [Hk Hlen]; try done.
  split; [|done]. intros e He. destruct (Hk e He) as (e' & Hf & ? & ?). exists e'.
  unfold find_entry in Hf. apply list_find_first_Some in Hf as [? ?]. split_and!; try done. lia.
Qed.

(** C24: On cluster states with distinct node ids, gapless logs and ordered
    apply maps the stateless checks decide exactly the safety properties they
    are named after: at most one active leader per term; logs that agree on an
    entry agree on everything before it; committed entries are present, applied
    once, in order and alike everywhere; and, when no log goes beyond its
    reported end and at most one active node is a leader, that every active
    leader holds every entry that a majority holds. *)
Theorem checks_decide_invariants (v : ClusterView) :
  NoDup (cv_node_ids v) -> logs_contiguous v -> machines_wf v ->
  (check_leader_election_safety v = true <-> one_leader_per_term v) /\
  (check_log_matching v = true <->
   forall a b, a ∈ active_ids v -> b ∈ active_ids v ->
     log_matching (nv_log (cv_node v a)) (nv_log (cv_node v b))) /\
  (check_state_machine_safety v = true <-> state_machine_safe v) /\
  (log_ends v -> at_most_one_leader v -> (check_leader_completeness v = true <-> leader_complete v)).
Proof.
  intros Hnd Hc Hm. split_and!.
  - by apply election_safety_decided.
  - by apply log_matching_decided.
  - by apply state_machine_safety_decided.
  - apply leader_completeness_decided.
Qed.

(** ** Demonstration *)

Definition cmd (off t : N) : LogEntry := mkLogEntry off t Command [].

Definition node_view (leader : bool) (t : Term) (log : list LogEntry) : NodeView :=
  mkNodeView leader t log (N.of_nat (length log)) 0 TestStateMachine.new.

(** Node 1 leads term 1 with a longer and longer log. *)
Definition growing (n : nat) : ClusterView :=
  mkView [1; 2] [] (fun id => if id =? 1 then node_view true 1 (map (fun i => cmd (N.of_nat i) 1) (seq 0 n))
                              else node_view false 1 []) 2.

Lemma append_only_history_witness :
  (forall e, e ∈ nv_log (cv_node (growing 1) 1) ->
     exists e', e' ∈ nv_log (cv_node (growing 3) 1) /\ offset e' = offset e /\ term e' = term e /\
       payload e' = payload e) /\ (1 <= 3)%nat.
Proof.
  destruct (run_checks [growing 1; growing 2; growing 3] new) as [snaps|] eqn:E; [|by vm_compute in E].
  apply (append_only_history [growing 1; growing 2; growing 3] snaps 0 2 (growing 1) (growing 3) 1 E);
    [lia|reflexivity|reflexivity|by vm_compute; left|by vm_compute; left|reflexivity..].
Defined.

(** Node 1 led term 1 and is cut off; node 2 leads term 2 and has committed
    an entry with node 3. *)
Definition stale_leader (ids : list NodeId) : ClusterView :=
  mkView ids [] (fun id =>
    if id =? 1 then node_view true 1 [cmd 0 1]
    else node_view (id =? 2) 2 [cmd 0 1; cmd 1 2]) 3.

Lemma stale_leader_hypotheses :
  NoDup (cv_node_ids (stale_leader [1; 2; 3])) /\ logs_contiguous (stale_leader [1; 2; 3]) /\
  machines_wf (stale_leader [1; 2; 3]).
Proof.
  split_and!.
  - by apply (bool_decide_unpack _); vm_compute.
  - intros id _. cbn. by destruct (id =? 1).
  - intros id _. cbn. destruct (id =? 1); constructor.
Qed.

(** The same logs with node 1 stopped: node 2 is
    the only leader. *)
Definition one_leader : ClusterView :=
  mkView [1; 2; 3] [1] (fun id =>
    if id =? 1 then node_view true 1 [cmd 0 1]
    else node_view (id =? 2) 2 [cmd 0 1; cmd 1 2]) 3.

Lemma one_leader_active id : active_leader one_leader id -> id = 2.
Proof.
  intros [Hin Hl]. change (active_ids one_leader) with [2; 3] in Hin.
  repeat (apply elem_of_cons in Hin as [->|Hin]; [by vm_compute in Hl|]). by apply elem_of_nil in Hin.
Qed.

Lemma one_leader_hypotheses :
  NoDup (cv_node_ids one_leader) /\ logs_contiguous one_leader /\ machines_wf one_leader /\
  log_ends one_leader /\ at_most_one_leader one_leader.
Proof.
  split_and!.
  - by apply (bool_decide_unpack _); vm_compute.
  - intros id _. cbn. by destruct (id =? 1).
  - intros id _. cbn. destruct (id =? 1); constructor.
  - intros id e _ He. cbn in *. destruct (id =? 1); cbn in *;
      repeat (apply elem_of_cons in He as [->|He]; [done|]); by apply elem_of_nil in He.
  - by intros a b ->%one_leader_active ->%one_leader_active.
Qed.

Lemma checks_decide_invariants_witness :
  one_leader_per_term one_leader /\ log_matching [cmd 0 1; cmd 1 2] [cmd 0 1; cmd 1 2] /\
  holds_committed one_leader 2.
Proof.
  destruct one_leader_hypotheses as (Hnd & Hc & Hm & He & Ho).
  destruct (checks_decide_invariants one_leader Hnd Hc Hm) as ([H1 _] & [H2 _] & _ & H3).
  destruct (H3 He Ho) as [H4 _]. split_and!; [by apply H1; vm_compute| |].
  - apply (H2 ltac:(by vm_compute) 2 3); vm_compute; [left|right; left].
  - apply (H4 ltac:(by vm_compute) 2). split; [vm_compute; left|by vm_compute].
Defined.

(** ** What modelling showed *)

(** A stale leader that a partition has cut off is legal: the state satisfies
    election safety and log matching, and the leader of the newest term holds
    everything committed.  Yet the completeness check panics or not depending
    on which leader the iteration of the node map meets first. *)
Lemma completeness_depends_on_order :
  check_leader_election_safety (stale_leader [1; 2; 3]) = true /\
  check_log_matching (stale_leader [1; 2; 3]) = true /\
  check_leader_completeness (stale_leader [1; 2; 3]) = false /\
  check_leader_completeness (stale_leader [2; 1; 3]) = true.
Proof. by vm_compute. Qed.

(** Replacing the type of an entry, a command by a configuration say, passes
    the append-only check. *)
Lemma entry_type_change_unnoticed :
  let v e := mkView [1] [] (fun _ => node_view true 1 [e]) 1 in
  run_checks [v (cmd 0 1); v (mkLogEntry 0 1 VotersRecordEntry [])] new <> None.
Proof. by vm_compute. Qed.

End InvariantChecker.
