(* ===== verification/SimulatedCluster.v ===== *)
(** * The simulated cluster

    [simulated_cluster.rs]: several nodes in one process, driven step by step
    by the scenario tests.  Messages go to a shared bus and are delivered in
    phases; stores are the in-memory ones of the storage crate.

    The event-loop driver, the node it owns and the three-store [IoStage] that
    the file imports are not among the sources: they are the class
    [EventLoopDriver] and the argument [stage_execute], with what the file
    relies on as laws.  The iteration order of a [HashMap] is an argument too.
    A panic ([unwrap], [expect], [assert!]) is [None]. *)

From Stdlib Require Import ZifyBool ZifyN ZifyNat Lia QArith.
From Stdlib Require Import Strings.Byte.
From stdpp Require Import base list gmap sets numbers option strings pretty.
From S2P Require Import Prelude Types NodeState Interfaces MemoryLog IoStage TestStores SimSupport.
From S2P Require Import InvariantChecker.

#[local] Open Scope N_scope.

(** ** The node as the cluster sees it

    The fields of [node.state] that the file reads or assigns. *)

Record EpochEntry := mkEpochEntry { epoch : N; epoch_start_offset : N }.

Record SimNodeState := mkSimNode {
  sn_node_id : NodeId;
  sn_log : list LogEntry;
  sn_current_term : Term;
  sn_voted_for : option NodeId;
  sn_high_watermark : N;
  sn_last_applied : N;
  sn_role : Role;
  sn_leader_id : option NodeId;
  sn_votes_received : gset NodeId;
  sn_follower_progress : gmap NodeId FollowerProgress;
  sn_leader_epoch_checkpoint : list EpochEntry;
  sn_voter_set : list VoterInfo;
}.

Inductive InboundMessage :=
| InVoteRequest (from : NodeId) (request : VoteRequest)
| InVoteResponse (from : NodeId) (response : VoteResponse)
| InFetchRequest (from : NodeId) (request : FetchRequest)
| InFetchResponse (from : NodeId) (response : FetchResponse)
| InPropose (record : AppRecord).

(** [EventLoopDriver] with the node, state machine and listener it owns. *)
Class EventLoopDriver (D : Type) := {
  (** [RaftNode::new], [bootstrap], [EventLoopDriver::new]. *)
  drv_new : NodeId -> list VoterInfo -> RaftConfig -> ClusterId -> D;
  drv_process : InboundMessage -> Instant -> D -> D * list IoAction * option N;
  drv_start_election : Instant -> D -> D * list IoAction;
  drv_build_fetch_request : D -> FetchRequest;
  drv_state : D -> SimNodeState;
  drv_set_state : SimNodeState -> D -> D;
  drv_log_end_offset : D -> N;
  drv_state_machine : D -> TestStateMachine.State;
  drv_set_state_machine : TestStateMachine.State -> D -> D;
  drv_listener : D -> TestListener.State;
  drv_set_listener : TestListener.State -> D -> D;
}.

(** [HashMap::keys]: some order of the keys. *)
Class HashMapOrder := {
  hash_keys : gset NodeId -> list NodeId;
  hash_keys_perm : forall X, hash_keys X ≡ₚ elements X;
}.

(** What the cluster relies on: the fields of the node it assigns are plain
    storage. *)
Class EventLoopDriverLaws (D : Type) `{EventLoopDriver D} := {
  drv_get_set_state : forall s d, drv_state (drv_set_state s d) = s;
  drv_state_set_machine : forall m d, drv_state (drv_set_state_machine m d) = drv_state d;
  drv_state_set_listener : forall l d, drv_state (drv_set_listener l d) = drv_state d;
}.

Module SimulatedCluster.

(** ** Storage of a node *)

Record Stores := mkStores {
  st_log : MemoryLogStore.Inner;
  st_quorum : MemoryQuorumState.Store QuorumState;
}.

Abbreviation Bus := (list (NodeId * RpcEnvelope)) (only parsing).

Definition stores_new : Stores := mkStores MemoryLogStore.new MemoryQuorumState.new.

Section Cluster.
Context {D : Type} `{EventLoopDriver D} `{HashMapOrder}.
Context (stage_execute : IoAction -> Stores * Bus -> (Stores * Bus) * result unit XraftError).

Record Cluster := mkCluster {
  drivers : gmap NodeId D;
  io_stages : gmap NodeId Stores;
  message_bus : Bus;
  partitioned : list (NodeId * NodeId);
  stopped_nodes : list NodeId;
  clock : SimulatedClock.State;
  config : RaftConfig;
  cl_cluster_id : ClusterId;
}.

(** The number that stands for the string test-cluster. *)
Definition test_cluster : ClusterId := 7.

(** ** Creation *)

Definition voters_up_to (node_count : N) : list VoterInfo :=
  map (fun i => mkVoterInfo (N.of_nat i) ("127.0.0.1:" +:+ pretty (9000 + N.of_nat i)))
    (seq 1 (N.to_nat node_count)).

Definition new (node_count : N) : Cluster :=
  let config := default_inner in
  let voters := voters_up_to node_count in
  mkCluster
    (foldl (fun m info => <[voter_id info := drv_new (voter_id info) voters config test_cluster]> m)
       ∅ voters)
    (foldl (fun m info => <[voter_id info := stores_new]> m) ∅ voters)
    SimulatedNetwork.new [] []
    (SimulatedClock.new 0 (election_timeout_min_ms config)) config test_cluster.

(** ** Node access *)

(** [drivers.values()] *)
Definition driver_values (c : Cluster) : list D :=
  omap (fun id => drivers c !! id) (hash_keys (dom (drivers c))).
Definition node_ids (c : Cluster) : list NodeId := hash_keys (dom (drivers c)).

Definition is_leader (d : D) : bool := role_eqb (sn_role (drv_state d)) Leader.
Definition contains (id : NodeId) (l : list NodeId) : bool := existsb (fun x => x =? id) l.

Definition can_communicate (a b : NodeId) (c : Cluster) : bool :=
  if contains a (stopped_nodes c) || contains b (stopped_nodes c) then false
  else negb (existsb (fun p => ((fst p =? a) && (snd p =? b)) || ((fst p =? b) && (snd p =? a)))
               (partitioned c)).

Definition advance_time (ms : N) (c : Cluster) : Cluster :=
  mkCluster (drivers c) (io_stages c) (message_bus c) (partitioned c) (stopped_nodes c)
    (SimulatedClock.advance ms (clock c)) (config c) (cl_cluster_id c).

Definition now_ms (c : Cluster) : N := SimulatedClock.now (clock c).

(** ** IoStage execution *)

(** The loop over the actions; a failing store panics. *)
Fixpoint execute_actions (actions : list IoAction) (s : Stores * Bus) : option (Stores * Bus) :=
  match actions with
  | [] => Some s
  | a :: actions' => match stage_execute a s with
                     | (s', Ok _) => execute_actions actions' s'
                     | (_, Err _) => None
                     end
  end.

Definition execute_batch (from : NodeId) (batch : list IoAction) (c : Cluster) : option Cluster :=
  match io_stages c !! from with
  | None => None
  | Some stage =>
      match execute_actions batch (stage, message_bus c) with
      | None => None
      | Some (stage', bus) =>
          Some (mkCluster (drivers c) (<[from := stage']> (io_stages c)) bus (partitioned c)
                  (stopped_nodes c) (clock c) (config c) (cl_cluster_id c))
      end
  end.

Definition with_driver (id : NodeId) (d : D) (c : Cluster) : Cluster :=
  mkCluster (<[id := d]> (drivers c)) (io_stages c) (message_bus c) (partitioned c)
    (stopped_nodes c) (clock c) (config c) (cl_cluster_id c).

Definition with_bus (bus : Bus) (c : Cluster) : Cluster :=
  mkCluster (drivers c) (io_stages c) bus (partitioned c) (stopped_nodes c) (clock c) (config c)
    (cl_cluster_id c).

(** ** Message bus delivery *)

(** The four payloads the delivery knows. *)
Definition to_inbound (source : NodeId) (p : RpcPayload) : option InboundMessage :=
  match p with
  | PVoteRequest r => Some (InVoteRequest source r)
  | PVoteResponse r => Some (InVoteResponse source r)
  | PFetchRequest r => Some (InFetchRequest source r)
  | PFetchResponse r => Some (InFetchResponse source r)
  | _ => None
  end.

(** Process through the driver, then execute what it returns. *)
Definition process_at (target : NodeId) (msg : InboundMessage) (c : Cluster) : option Cluster :=
  match drivers c !! target with
  | None => None
  | Some d =>
      let '(d', batch, _) := drv_process msg (now_ms c) d in
      execute_batch target batch (with_driver target d' c)
  end.

Definition deliver_one (target : NodeId) (env : RpcEnvelope) (c : Cluster) : option Cluster :=
  if negb (env_cluster_id env =? cl_cluster_id c) then Some c
  else if negb (can_communicate (env_source env) target c) then Some c
  else match to_inbound (env_source env) (env_payload env) with
       | None => None
       | Some msg => process_at target msg c
       end.

Fixpoint deliver_loop (messages : Bus) (c : Cluster) : option Cluster :=
  match messages with
  | [] => Some c
  | (target, env) :: messages' =>
      match deliver_one target env c with
      | Some c' => deliver_loop messages' c'
      | None => None
      end
  end.

Definition deliver_pending (c : Cluster) : option Cluster :=
  let '(bus, messages) := SimulatedNetwork.drain (message_bus c) in
  deliver_loop messages (with_bus bus c).

(** ** Cluster operations *)

Definition elect_leader (leader : NodeId) (c : Cluster) : option Cluster :=
  match drivers c !! leader with
  | None => None
  | Some d =>
      let '(d', batch) := drv_start_election (now_ms c) d in
      c ← execute_batch leader batch (with_driver leader d' c);
      c ← deliver_pending c;
      c ← deliver_pending c;
      d ← drivers c !! leader;
      if is_leader d then Some c else None
  end.

Definition find_leader (c : Cluster) : option NodeId :=
  (fun d => sn_node_id (drv_state d)) <$>
  list_find_first is_leader
    (list_filter (fun d => negb (contains (sn_node_id (drv_state d)) (stopped_nodes c)))
       (driver_values c)).

(** Phase one of a fetch round: every follower puts its request on the bus. *)
Fixpoint send_fetches (leader : NodeId) (followers : list NodeId) (c : Cluster) : option Cluster :=
  match followers with
  | [] => Some c
  | fid :: followers' =>
      match drivers c !! fid with
      | None => None
      | Some d =>
          let envelope := mkRpcEnvelope (cl_cluster_id c) (sn_current_term (drv_state d)) fid
                            (PFetchRequest (drv_build_fetch_request d)) in
          match execute_batch fid [SendRpc leader envelope] c with
          | Some c' => send_fetches leader followers' c'
          | None => None
          end
      end
  end.

Definition run_fetch_round (c : Cluster) : option (Cluster * option NodeId) :=
  match find_leader c with
  | None => Some (c, None)
  | Some leader =>
      let followers := list_filter (fun id => negb (id =? leader) && negb (contains id (stopped_nodes c)))
                         (node_ids c) in
      c ← send_fetches leader followers c;
      c ← deliver_pending c;
      c ← deliver_pending c;
      Some (c, Some leader)
  end.

Definition active_nodes (c : Cluster) : list D :=
  list_filter (fun d => negb (contains (sn_node_id (drv_state d)) (stopped_nodes c)))
    (driver_values c).

Definition all_converged (c : Cluster) : bool :=
  match active_nodes c with
  | [] | [_] => true
  | d0 :: _ =>
      forallb (fun d => (drv_log_end_offset d =? drv_log_end_offset d0) &&
                        (sn_high_watermark (drv_state d) =? sn_high_watermark (drv_state d0)))
        (active_nodes c)
  end.

Fixpoint replicate_fully (max_rounds : nat) (c : Cluster) : option Cluster :=
  match max_rounds with
  | O => Some c
  | S n =>
      match run_fetch_round c with
      | None => None
      | Some (c', _) => if all_converged c' then Some c' else replicate_fully n c'
      end
  end.

Definition wait_for_leader (preferred : option NodeId) (c : Cluster) : option (Cluster * NodeId) :=
  match find_leader c with
  | Some lid => Some (c, lid)
  | None =>
      candidate ← match preferred with
                  | Some p => Some p
                  | None => list_find_first (fun id => negb (contains id (stopped_nodes c))) (node_ids c)
                  end;
      c ← elect_leader candidate (advance_time (election_timeout_max_ms (config c) + 1) c);
      Some (c, candidate)
  end.

(** The outer option is a panic, the inner one what the function returns. *)
Definition propose_to (node : NodeId) (record : AppRecord) (c : Cluster)
  : option (Cluster * option N) :=
  match drivers c !! node with
  | None => Some (c, None)
  | Some d =>
      let '(d', batch, _) := drv_process (InPropose record) (now_ms c) d in
      let leo := drv_log_end_offset d' in
      c ← execute_batch node batch (with_driver node d' c);
      Some (c, if 0 <? leo then Some (leo - 1) else None)
  end.

Definition propose (record : AppRecord) (c : Cluster) : option (Cluster * option N) :=
  match find_leader c with
  | None => Some (c, None)
  | Some leader => propose_to leader record c
  end.

Definition propose_with_completion (record : AppRecord) (c : Cluster)
  : option (Cluster * option (N * N)) :=
  match find_leader c with
  | None => Some (c, None)
  | Some leader =>
      match drivers c !! leader with
      | None => Some (c, None)
      | Some d =>
          let '(d', batch, completion_rx) := drv_process (InPropose record) (now_ms c) d in
          let leo := drv_log_end_offset d' in
          c ← execute_batch leader batch (with_driver leader d' c);
          Some (c, if 0 <? leo then (fun rx => (leo - 1, rx)) <$> completion_rx else None)
      end
  end.

(** ** Failures *)

Definition stop_node (id : NodeId) (c : Cluster) : Cluster :=
  mkCluster (drivers c) (io_stages c) (message_bus c) (partitioned c) (stopped_nodes c ++ [id])
    (clock c) (config c) (cl_cluster_id c).

Definition partition (a b : NodeId) (c : Cluster) : Cluster :=
  mkCluster (drivers c) (io_stages c) (message_bus c) (partitioned c ++ [(a, b)]) (stopped_nodes c)
    (clock c) (config c) (cl_cluster_id c).

Definition heal_partitions (c : Cluster) : Cluster :=
  mkCluster (drivers c) (io_stages c) (message_bus c) [] (stopped_nodes c)
    (clock c) (config c) (cl_cluster_id c).

(** A new epoch entry whenever the term differs from the last one. *)
Definition checkpoint_step (cp : list EpochEntry) (e : LogEntry) : list EpochEntry :=
  if bool_decide ((epoch <$> last cp) = Some (term e)) then cp
  else cp ++ [mkEpochEntry (term e) (offset e)].

Definition rebuild_checkpoint (log : list LogEntry) : list EpochEntry := foldl checkpoint_step [] log.

(** The volatile state of a node after a restart. *)
Definition recovered_state (log : list LogEntry) (qs : option QuorumState) (s : SimNodeState)
  : SimNodeState :=
  mkSimNode (sn_node_id s) log
    (match qs with Some q => qs_current_term q | None => sn_current_term s end)
    (match qs with Some _ => None | None => sn_voted_for s end)
    0 0 Follower None ∅ ∅ (rebuild_checkpoint log) (sn_voter_set s).

Definition restart_node (id : NodeId) (c : Cluster) : option Cluster :=
  let stopped := list_filter (fun nid => negb (nid =? id)) (stopped_nodes c) in
  match io_stages c !! id with
  | None => None
  | Some stage =>
      match ls_read 0 (ls_log_end_offset (st_log stage)) (st_log stage), qss_load (st_quorum stage) with
      | Ok recovered_log, Ok recovered_qs =>
          let drivers' :=
            match drivers c !! id with
            | None => drivers c
            | Some d =>
                let d := drv_set_state (recovered_state recovered_log recovered_qs (drv_state d)) d in
                let d := drv_set_state_machine (TestStateMachine.reset (drv_state_machine d)) d in
                let d := drv_set_listener (TestListener.reset (drv_listener d)) d in
                <[id := d]> (drivers c)
            end in
          Some (mkCluster drivers' (io_stages c) (message_bus c) (partitioned c) stopped
                  (clock c) (config c) (cl_cluster_id c))
      | _, _ => None
      end
  end.

(** ** Queries *)

Definition voter_count (c : Cluster) : nat :=
  match head (driver_values c) with
  | Some d => length (sn_voter_set (drv_state d))
  | None => O
  end.

Definition verify_storage_consistency (id : NodeId) (c : Cluster) : option bool :=
  match drivers c !! id, io_stages c !! id with
  | Some d, Some stage =>
      let store_leo := ls_log_end_offset (st_log stage) in
      if negb (store_leo =? drv_log_end_offset d) then Some false
      else match ls_read 0 store_leo (st_log stage) with
           | Err _ => None
           | Ok stored =>
               let in_memory := sn_log (drv_state d) in
               if negb (length stored =? length in_memory)%nat then Some false
               else Some (forallb (fun p => (offset (fst p) =? offset (snd p)) &&
                                            (term (fst p) =? term (snd p)) &&
                                            InvariantChecker.bytes_eqb (payload (fst p)) (payload (snd p)))
                            (zip stored in_memory))
           end
  | _, _ => None
  end.

(** What the invariant checker reads of a cluster. *)
Definition view (c : Cluster) : option InvariantChecker.ClusterView :=
  match head (driver_values c) with
  | None => None
  | Some d0 =>
      Some (InvariantChecker.mkView (node_ids c) (stopped_nodes c)
        (fun id => let d := default d0 (drivers c !! id) in
                   InvariantChecker.mkNodeView (is_leader d) (sn_current_term (drv_state d))
                     (sn_log (drv_state d)) (drv_log_end_offset d)
                     (sn_high_watermark (drv_state d)) (drv_state_machine d))
        (voter_count c))
  end.

#[local] Arguments deliver_pending : simpl never.
#[local] Arguments execute_batch : simpl never.
#[local] Arguments elect_leader : simpl never.

(** ** Replication rounds *)

Fixpoint rounds (n : nat) (c : Cluster) : option Cluster :=
  match n with
  | O => Some c
  | S n' => match run_fetch_round c with
            | Some (c', _) => rounds n' c'
            | None => None
            end
  end.

(** [replicate_fully] terminates within the given number of fetch rounds:
    it stops after the first round that leaves the active nodes converged, or
    after exactly the maximum number of rounds. *)
Theorem replicate_fully_rounds (max_rounds : nat) (c c' : Cluster) :
  replicate_fully max_rounds c = Some c' <->
  exists k, (k <= max_rounds)%nat /\ rounds k c = Some c' /\
    (k = max_rounds \/ (0 < k)%nat /\ all_converged c' = true) /\
    (forall j cj, (0 < j < k)%nat -> rounds j c = Some cj -> all_converged cj = false).
Proof.
  revert c. induction max_rounds as [|n IH]; intros c; cbn [replicate_fully].
  - split.
    + intros [= <-]. exists 0%nat. split_and!; [lia|done|by left|lia].
    + intros (k & Hk & Hr & _). assert (k = 0)%nat as -> by lia. done.
  - destruct (run_fetch_round c) as [[c1 r]|] eqn:E.
    + assert (forall k, rounds (S k) c = rounds k c1) as Hs by (intros k; cbn; by rewrite E).
      destruct (all_converged c1) eqn:Ec.
      * split.
        -- intros [= <-]. exists 1%nat. rewrite Hs. split_and!; [lia|done|right; split; [lia|done]|lia].
        -- intros (k & Hk & Hr & Hstop & Hearly). destruct k as [|[|k]].
           ++ destruct Hstop as [?|[? _]]; lia.
           ++ by rewrite Hs in Hr.
           ++ specialize (Hearly 1%nat c1 ltac:(lia)). rewrite Hs in Hearly.
              by rewrite Hearly in Ec.
      * rewrite IH. split.
        -- intros (k & Hk & Hr & Hstop & Hearly). exists (S k). rewrite Hs.
           split_and!; [lia|done|destruct Hstop as [->|[? ?]]; [by left|right; split; [lia|done]]|].
           intros [|[|j]] cj Hj; [lia| |]; rewrite Hs; [by intros [= <-]|].
           apply Hearly. lia.
        -- intros (k & Hk & Hr & Hstop & Hearly). destruct k as [|k].
           ++ destruct Hstop as [?|[? _]]; lia.
           ++ exists k. rewrite Hs in Hr. split_and!; [lia|done| |].
              ** destruct Hstop as [?|[_ Hc]]; [left; lia|]. right. split; [|done].
                 destruct k; [|lia]. cbn in Hr. simplify_eq. by rewrite Hc in Ec.
              ** intros j cj Hj Hrj. apply (Hearly (S j)); [lia|]. by rewrite Hs.
    + split; [done|]. intros ([|k] & Hk & Hr & Hstop & _).
      * destruct Hstop as [?|[? _]]; lia.
      * cbn in Hr. by rewrite E in Hr.
Qed.

(** ** A stopped node does nothing *)

(** Everything about a node that a step leaves alone, with the failures. *)
Definition untouched (id : NodeId) (c c' : Cluster) : Prop :=
  drivers c' !! id = drivers c !! id /\ io_stages c' !! id = io_stages c !! id /\
  stopped_nodes c' = stopped_nodes c /\ partitioned c' = partitioned c /\
  cl_cluster_id c' = cl_cluster_id c.

Lemma untouched_refl id c : untouched id c c.
Proof. done. Qed.

Lemma untouched_trans id c1 c2 c3 : untouched id c1 c2 -> untouched id c2 c3 -> untouched id c1 c3.
Proof. unfold untouched. intros (?&?&?&?&?) (?&?&?&?&?). split_and!; congruence. Qed.

Lemma execute_batch_untouched id from batch c c' :
  from <> id -> execute_batch from batch c = Some c' -> untouched id c c'.
Proof.
  intros Hne. unfold execute_batch. destruct (io_stages c !! from); [|done].
  destruct (execute_actions _ _) as [[st bus]|]; [|done]. intros [= <-].
  split_and!; cbn; try done. by rewrite lookup_insert_ne.
Qed.

Lemma with_driver_untouched id k d c : k <> id -> untouched id c (with_driver k d c).
Proof. intros Hne. split_and!; cbn; try done. by rewrite lookup_insert_ne. Qed.

Lemma process_at_untouched id target msg c c' :
  target <> id -> process_at target msg c = Some c' -> untouched id c c'.
Proof.
  intros Hne. unfold process_at. destruct (drivers c !! target); [|done].
  destruct (drv_process _ _ _) as [[d' batch] rx]. intros He.
  eapply untouched_trans; [by apply with_driver_untouched|by eapply execute_batch_untouched].
Qed.

(** Delivery reaches a node only from the same cluster and over a link that
    is up. *)
Definition deliverable (c : Cluster) (target : NodeId) (env : RpcEnvelope) : bool :=
  (env_cluster_id env =? cl_cluster_id c) && can_communicate (env_source env) target c.

Lemma deliver_one_untouched id target env c c' :
  (target = id -> deliverable c target env = false) ->
  deliver_one target env c = Some c' -> untouched id c c'.
Proof.
  intros Hd. unfold deliver_one, deliverable in *.
  destruct (env_cluster_id env =? cl_cluster_id c); cbn in *; [|by intros [= <-]].
  destruct (can_communicate _ _ _); cbn in *; [|by intros [= <-]].
  destruct (to_inbound _ _); [|done]. apply process_at_untouched. intros ->. by discriminate Hd.
Qed.

Lemma deliverable_untouched id c c' target env :
  untouched id c c' -> deliverable c' target env = deliverable c target env.
Proof.
  intros (_ & _ & Hs & Hp & Hc). unfold deliverable, can_communicate. by rewrite Hs, Hp, Hc.
Qed.

Lemma deliver_loop_untouched id messages c c' :
  (forall env, (id, env) ∈ messages -> deliverable c id env = false) ->
  deliver_loop messages c = Some c' -> untouched id c c'.
Proof.
  revert c. induction messages as [|[target env] messages IH]; intros c Hd; cbn [deliver_loop].
  - by intros [= <-].
  - destruct (deliver_one target env c) as [c1|] eqn:E; [|done]. intros Hr.
    assert (untouched id c c1) as Hu.
    { eapply deliver_one_untouched; [|done]. intros ->. apply Hd. constructor. }
    eapply untouched_trans; [exact Hu|]. apply IH; [|done].
    intros env' Hin. rewrite (deliverable_untouched _ _ _ _ _ Hu). apply Hd. by constructor.
Qed.

(** C34: Delivering the bus changes a node only through a message of the same
    cluster whose source is alive and not partitioned from it: a node all of
    whose waiting messages are from other clusters, from stopped nodes, across
    a partition, or that is stopped itself, keeps its state and its stores. *)
Theorem delivery_respects_failures (id : NodeId) (c c' : Cluster) :
  deliver_pending c = Some c' ->
  (forall env, (id, env) ∈ message_bus c -> deliverable c id env = false) ->
  drivers c' !! id = drivers c !! id /\ io_stages c' !! id = io_stages c !! id.
Proof.
  unfold deliver_pending, SimulatedNetwork.drain. intros Hr Hd.
  destruct (deliver_loop_untouched id (message_bus c) (with_bus [] c) c') as (? & ? & _); done.
Qed.

Lemma stopped_not_deliverable id c env :
  contains id (stopped_nodes c) = true -> deliverable c id env = false.
Proof. intros Hs. unfold deliverable, can_communicate. rewrite Hs, orb_true_r. by rewrite andb_false_r. Qed.

Lemma deliver_pending_stopped id c c' :
  contains id (stopped_nodes c) = true -> deliver_pending c = Some c' -> untouched id c c'.
Proof.
  intros Hs Hr. eapply deliver_loop_untouched in Hr; [exact Hr|].
  intros env _. by apply stopped_not_deliverable.
Qed.

Lemma send_fetches_stopped id leader followers c c' :
  id ∉ followers -> send_fetches leader followers c = Some c' -> untouched id c c'.
Proof.
  revert c. induction followers as [|f followers IH]; intros c Hni; cbn [send_fetches].
  - by intros [= <-].
  - destruct (drivers c !! f); [|done]. destruct (execute_batch _ _ _) as [c1|] eqn:E; [|done].
    intros Hr. eapply untouched_trans; [eapply execute_batch_untouched; [|done]|apply IH; [|done]];
      set_solver.
Qed.

Lemma untouched_stopped id c c' :
  untouched id c c' -> contains id (stopped_nodes c) = true -> contains id (stopped_nodes c') = true.
Proof. by intros (_ & _ & -> & _). Qed.

Lemma run_fetch_round_stopped id c c' r :
  contains id (stopped_nodes c) = true -> run_fetch_round c = Some (c', r) -> untouched id c c'.
Proof.
  intros Hs. unfold run_fetch_round. destruct (find_leader c) as [l|]; [|by intros [= <- <-]].
  destruct (send_fetches _ _ _) as [c1|] eqn:E1; cbn; [|done].
  destruct (deliver_pending c1) as [c2|] eqn:E2; cbn; [|done].
  destruct (deliver_pending c2) as [c3|] eqn:E3; cbn; [|done]. intros [= <- <-].
  apply (send_fetches_stopped id) in E1.
  2: { intros [_ Hf]%elem_of_list_filter_b. by rewrite Hs, andb_false_r in Hf. }
  pose proof (untouched_stopped _ _ _ E1 Hs) as Hs1.
  apply (deliver_pending_stopped id) in E2; [|done].
  pose proof (untouched_stopped _ _ _ E2 Hs1) as Hs2.
  apply (deliver_pending_stopped id) in E3; [|done].
  eapply untouched_trans; [done|]. by eapply untouched_trans.
Qed.

Lemma rounds_stopped id n c c' :
  contains id (stopped_nodes c) = true -> rounds n c = Some c' -> untouched id c c'.
Proof.
  revert c. induction n as [|n IH]; intros c Hs; cbn [rounds]; [by intros [= <-]|].
  destruct (run_fetch_round c) as [[c1 r]|] eqn:E; [|done]. intros Hr.
  apply (run_fetch_round_stopped id) in E; [|done].
  eapply untouched_trans; [done|]. apply IH; [by eapply untouched_stopped|done].
Qed.

(** ** The storage check *)



(** Reading all of a store from offset zero. *)
Lemma store_read_all l :
  MemoryLogStore.inv l ->
  al_read 0 (MemoryLogStore.log_end_offset l) (MemoryLogStore.abs l) = MemoryLogStore.entries l.
Proof.
  intros [Hwf Hle]. unfold al_read. cbn [al_entries MemoryLogStore.abs]. apply list_filter_all.
  intros e Hin. pose proof (contiguous_bounds _ _ _ Hwf Hin).
  unfold al_end in *. cbn in *. unfold MemoryLogStore.log_end_offset. rewrite u64_add_small by lia. lia.
Qed.

(** What the check compares of an entry. *)
Definition stored_fields (e : LogEntry) : N * Term * list byte := (offset e, term e, payload e).

Lemma zip_check_spec (l1 l2 : list LogEntry) :
  length l1 = length l2 ->
  forallb (fun p => (offset (fst p) =? offset (snd p)) && (term (fst p) =? term (snd p)) &&
                    InvariantChecker.bytes_eqb (payload (fst p)) (payload (snd p))) (zip l1 l2) = true <->
  map stored_fields l1 = map stored_fields l2.
Proof.
  revert l2. induction l1 as [|e l1 IH]; intros [|e2 l2] Hlen; try done.
  cbn in *. rewrite !andb_true_iff, !N.eqb_eq, InvariantChecker.bytes_eqb_true, IH by lia.
  unfold stored_fields. split; [by intros [[[-> ->] ->] ->]|by intros [= -> -> -> ->]].
Qed.

(** [verify_storage_consistency] decides whether the store of a node holds the
    node's log: it returns true exactly when the two ends agree and the
    entries agree in offset, term and data. *)
Lemma storage_check_decides id c d st :
  drivers c !! id = Some d -> io_stages c !! id = Some st -> MemoryLogStore.inv (st_log st) ->
  exists b, verify_storage_consistency id c = Some b /\
    (b = true <->
     MemoryLogStore.log_end_offset (st_log st) = drv_log_end_offset d /\
     map stored_fields (MemoryLogStore.entries (st_log st)) = map stored_fields (sn_log (drv_state d))).
Proof.
  intros Hd Est Hinv. unfold verify_storage_consistency. rewrite Hd, Est.
  cbn [ls_log_end_offset ls_read MemoryLogStore.memory_LogStore].
  destruct (N.eqb_spec (MemoryLogStore.log_end_offset (st_log st)) (drv_log_end_offset d)) as [Ee|Ee]; cbn [negb].
  2: { exists false. split; [done|]. split; [done|]. by intros [? _]. }
  rewrite MemoryLogStore.read_abs, store_read_all by done.
  destruct (Nat.eqb_spec (length (MemoryLogStore.entries (st_log st))) (length (sn_log (drv_state d)))) as [El|El];
    cbn [negb].
  - eexists. split; [done|]. rewrite zip_check_spec by done. naive_solver.
  - exists false. split; [done|]. split; [done|]. intros [_ Hm%(f_equal length)]. by rewrite !length_map in Hm.
Qed.

Lemma find_leader_active c l :
  find_leader c = Some l -> contains l (stopped_nodes c) = false.
Proof.
  unfold find_leader. intros (d & Hd & ->)%fmap_Some.
  apply list_find_first_Some in Hd as [Hin _]. apply elem_of_list_filter_b in Hin as [_ Hs].
  by apply negb_true_iff in Hs.
Qed.

Lemma elect_leader_stopped id k c c' :
  contains id (stopped_nodes c) = true -> k <> id -> elect_leader k c = Some c' -> untouched id c c'.
Proof.
  intros Hs Hne. unfold elect_leader. destruct (drivers c !! k) as [d|]; [|done].
  destruct (drv_start_election (now_ms c) d) as [d' batch].
  destruct (execute_batch k batch _) as [c1|] eqn:E1; cbn; [|done].
  destruct (deliver_pending c1) as [c2|] eqn:E2; cbn; [|done].
  destruct (deliver_pending c2) as [c3|] eqn:E3; cbn; [|done].
  destruct (drivers c3 !! k) as [d3|]; cbn; [|done]. destruct (is_leader d3); [|done]. intros [= <-].
  apply (execute_batch_untouched id) in E1; [|done].
  assert (untouched id c c1) as Hu1 by (eapply untouched_trans; [by apply with_driver_untouched|done]).
  apply (deliver_pending_stopped id) in E2; [|by eapply untouched_stopped].
  assert (untouched id c c2) as Hu2 by by eapply untouched_trans.
  apply (deliver_pending_stopped id) in E3; [|by eapply untouched_stopped].
  by eapply untouched_trans.
Qed.

Lemma propose_to_untouched id k rec c c' r :
  k <> id -> propose_to k rec c = Some (c', r) -> untouched id c c'.
Proof.
  intros Hne. unfold propose_to. destruct (drivers c !! k) as [d|]; [|by intros [= <- <-]].
  destruct (drv_process _ _ _) as [[d' batch] rx].
  destruct (execute_batch k batch _) as [c1|] eqn:E1; cbn; [|done]. intros [= <- <-].
  eapply untouched_trans; [by apply with_driver_untouched|by eapply execute_batch_untouched].
Qed.

(** A stopped node is frozen: deliveries, fetch rounds, full replication,
    elections of other nodes and proposals leave its state and its stores
    exactly as they were, until it is restarted. *)
Theorem stopped_node_frozen (id : NodeId) (c : Cluster) :
  contains id (stopped_nodes c) = true ->
  (forall c', deliver_pending c = Some c' -> untouched id c c') /\
  (forall c' r, run_fetch_round c = Some (c', r) -> untouched id c c') /\
  (forall n c', replicate_fully n c = Some c' -> untouched id c c') /\
  (forall k c', k <> id -> elect_leader k c = Some c' -> untouched id c c') /\
  (forall rec c' r, propose rec c = Some (c', r) -> untouched id c c').
Proof.
  intros Hs. split_and!.
  - intros c'. by apply deliver_pending_stopped.
  - intros c' r. by apply run_fetch_round_stopped.
  - intros n c' Hr. assert (exists k, rounds k c = Some c') as [k Hk].
    { revert c Hr Hs. induction n as [|n IH]; intros c; cbn; [intros [= <-] _; by exists 0%nat|].
      destruct (run_fetch_round c) as [[c1 r]|] eqn:E; [|done]. intros Hr Hs.
      destruct (all_converged c1).
      - simplify_eq. exists 1%nat. cbn. by rewrite E.
      - destruct (IH c1 Hr) as [k Hk].
        { eapply untouched_stopped; [by eapply run_fetch_round_stopped|done]. }
        exists (S k). cbn. by rewrite E. }
    by eapply rounds_stopped.
  - intros k c'. by apply elect_leader_stopped.
  - intros rec c' r. unfold propose. destruct (find_leader c) as [l|] eqn:El; [|by intros [= <- <-]].
    apply propose_to_untouched. intros ->. apply find_leader_active in El. by rewrite El in Hs.
Qed.

(** ** Restart *)





(** A durable vote is forgotten by the restart. *)
Lemma restart_forgets_vote `{!EventLoopDriverLaws D} (id : NodeId) (c c' : Cluster) d st qs v d' :
  drivers c !! id = Some d -> io_stages c !! id = Some st ->
  MemoryQuorumState.state (st_quorum st) = Some qs -> qs_voted_for qs = Some v ->
  restart_node id c = Some c' -> drivers c' !! id = Some d' ->
  sn_current_term (drv_state d') = qs_current_term qs /\ sn_voted_for (drv_state d') = None.
Proof.
  intros Hd Est Hq Hv. unfold restart_node. rewrite Hd, Est.
  destruct (ls_read _ _ _) as [log|e]; [|done]. cbn. rewrite Hq. intros [= <-]. cbn.
  rewrite lookup_insert_eq. intros [= <-].
  by rewrite drv_state_set_listener, drv_state_set_machine, drv_get_set_state.
Qed.

End Cluster.

(** ** Demonstration

    A small driver that elects itself, appends what it is asked to and serves
    fetches, and the stage of [io_action.rs] over the cluster's stores. *)

Module Demo.

(** [IoStage] of [io_action.rs] with a batch of one action. *)
Definition joined_stage (a : IoAction) (s : Stores * Bus) : (Stores * Bus) * result unit XraftError :=
  let '(st, bus) := s in
  let '(g, r) := TryJoined.execute [a]
      (TryJoined.mkStage (st_log st) (SimulatedNetwork.mkSender 0 bus) (st_quorum st) MemSnapshot.new) in
  ((mkStores (TryJoined.log_store g) (TryJoined.quorum_store g),
    SimulatedNetwork.bus (TryJoined.transport g)), r).

Record Driver := mkDriver {
  dd_state : SimNodeState;
  dd_machine : TestStateMachine.State;
  dd_listener : TestListener.State;
}.

Definition with_log (log : list LogEntry) (hw : N) (s : SimNodeState) : SimNodeState :=
  mkSimNode (sn_node_id s) log (sn_current_term s) (sn_voted_for s) hw (sn_last_applied s) (sn_role s)
    (sn_leader_id s) (sn_votes_received s) (sn_follower_progress s) (sn_leader_epoch_checkpoint s)
    (sn_voter_set s).

(** Append what continues the log. *)
Definition accept (es : list LogEntry) (hw : N) (d : Driver) : Driver * list IoAction * option N :=
  let s := dd_state d in
  if contiguous (N.of_nat (length (sn_log s))) es && (N.of_nat (length (sn_log s ++ es)) <=? u64_max)
  then (mkDriver (with_log (sn_log s ++ es) hw s) (dd_machine d) (dd_listener d), [AppendLog es], None)
  else (d, [], None).

Definition process (msg : InboundMessage) (now : Instant) (d : Driver)
  : Driver * list IoAction * option N :=
  let s := dd_state d in
  let len := N.of_nat (length (sn_log s)) in
  match msg with
  | InPropose r =>
      if role_eqb (sn_role s) Leader
      then accept [command_entry len (sn_current_term s) r] (len + 1) d else (d, [], None)
  | InFetchRequest from req =>
      if role_eqb (sn_role s) Leader then
        (d, [SendRpc from (mkRpcEnvelope test_cluster (sn_current_term s) (sn_node_id s)
               (PFetchResponse (mkFetchResponse (sn_node_id s) (sn_current_term s)
                  (sn_high_watermark s) 0 (drop (N.to_nat (fetch_offset req)) (sn_log s)) None None)))],
         None)
      else (d, [], None)
  | InFetchResponse _ resp => accept (fr_entries resp) (fr_high_watermark resp) d
  | _ => (d, [], None)
  end.

Definition start_election (now : Instant) (d : Driver) : Driver * list IoAction :=
  let s := dd_state d in
  let t := sn_current_term s + 1 in
  let id := sn_node_id s in
  (mkDriver (mkSimNode id (sn_log s) t (Some id) (sn_high_watermark s) (sn_last_applied s) Leader
               (Some id) {[id]} (sn_follower_progress s) (sn_leader_epoch_checkpoint s) (sn_voter_set s))
     (dd_machine d) (dd_listener d),
   [PersistQuorumState (mkQuorumState t (Some id) (Some id) t)]).

#[export] Instance demo_driver : EventLoopDriver Driver := {|
  drv_new id vs cfg cid :=
    mkDriver (mkSimNode id [] 0 None 0 0 Follower None ∅ ∅ [] vs) TestStateMachine.new TestListener.new;
  drv_process := process;
  drv_start_election := start_election;
  drv_build_fetch_request d :=
    mkFetchRequest (sn_node_id (dd_state d)) (N.of_nat (length (sn_log (dd_state d))))
      (sn_current_term (dd_state d)) 1048576;
  drv_state := dd_state;
  drv_set_state s d := mkDriver s (dd_machine d) (dd_listener d);
  drv_log_end_offset d := N.of_nat (length (sn_log (dd_state d)));
  drv_state_machine := dd_machine;
  drv_set_state_machine m d := mkDriver (dd_state d) m (dd_listener d);
  drv_listener := dd_listener;
  drv_set_listener l d := mkDriver (dd_state d) (dd_machine d) l;
|}.

#[export] Instance demo_driver_laws : EventLoopDriverLaws Driver.
Proof. by split. Defined.

#[export] Instance demo_order : HashMapOrder := {| hash_keys := elements; hash_keys_perm X := reflexivity _ |}.

(** Three nodes: an election, a crash, a proposal, a partition, replication,
    a restart and replication again. *)
Definition scenario : option Cluster :=
  c ← elect_leader joined_stage 1 (new 3);
  c ← fst <$> propose joined_stage (mkAppRecord [x61]) (stop_node 3 c);
  c ← replicate_fully joined_stage 5 (partition 1 2 c);
  c ← replicate_fully joined_stage 5 (heal_partitions c);
  c ← restart_node 3 c;
  replicate_fully joined_stage 5 c.

Definition final : Cluster := default (new 0) scenario.

Lemma scenario_runs : scenario = Some final.
Proof. by vm_compute. Qed.

Lemma scenario_converged :
  all_converged final = true /\
  (map (fun d => length (sn_log (dd_state d))) (driver_values final)) = [1; 1; 1]%nat.
Proof. by vm_compute. Qed.

(** At the end every store holds the log of its node. *)
Lemma scenario_stored :
  map (fun id => verify_storage_consistency id final) [1; 2; 3] = [Some true; Some true; Some true].
Proof. by vm_compute. Qed.

(** The cluster of the scenario after the election, node 3 stopped and a
    message for it on the bus. *)
Definition letter : RpcEnvelope :=
  mkRpcEnvelope test_cluster 1 1 (PFetchRequest (mkFetchRequest 1 0 0 10)).
Definition stopped_three : Cluster :=
  with_bus [(3, letter)] (stop_node 3 (default (new 0) (elect_leader joined_stage 1 (new 3)))).

Lemma delivery_respects_failures_witness :
  exists c', deliver_pending joined_stage stopped_three = Some c' /\
    drivers c' !! 3 = drivers stopped_three !! 3.
Proof.
  destruct (deliver_pending joined_stage stopped_three) as [c'|] eqn:E; [|by vm_compute in E].
  exists c'. split; [reflexivity|].
  apply (delivery_respects_failures joined_stage 3 stopped_three c' E).
  intros env _. apply stopped_not_deliverable. by vm_compute.
Defined.

Lemma stopped_node_frozen_witness :
  exists c', replicate_fully joined_stage 4 stopped_three = Some c' /\ untouched 3 stopped_three c'.
Proof.
  destruct (stopped_node_frozen joined_stage 3 stopped_three) as (_ & _ & Hr & _); [by vm_compute|].
  destruct (replicate_fully joined_stage 4 stopped_three) as [c'|] eqn:E; [|by vm_compute in E].
  exists c'. split; [done|]. by apply (Hr _ _ E).
Defined.


End Demo.

End SimulatedCluster.
