(* ===== verification/FollowerLoop.v ===== *)
(** * The follower's fetch loop

    The two front ends of [replication.rs], [RaftNode] and
    [FollowerEventLoop], and the loop their comments describe: sleep until the
    fetch deadline and tick, or receive a message and handle it.

    The clock is any [Clock] whose readings do not go back, the class
    [MonotoneClock]; the mock clock and the clock of the simulated cluster are
    instances. *)

From Stdlib Require Import ZifyBool ZifyN ZifyNat Lia.
From stdpp Require Import base gmap numbers option strings list.
From S2P Require Import Prelude Types NodeState Interfaces BTree DeferredCompletion.
From S2P Require Import Mocks Replication ReplicationProps ReplicationClaims SimSupport.

(** What the loop relies on about time: [clk_floor] is a lower bound of every
    later reading. *)
Class MonotoneClock (C : Type) `{Clock C} := {
  clk_floor : C -> Instant;
  clk_now_floor : forall c c' t, clk_now c = (c', t) -> clk_floor c <= t <= clk_floor c';
  clk_random_floor : forall c c' d,
    clk_random_election_timeout c = (c', d) -> clk_floor c <= clk_floor c';
}.

#[global] Instance mock_MonotoneClock : MonotoneClock Mocks.MockClock.
Proof.
  refine {| clk_floor := Mocks.clock_now |}; [intros c c' t [= <- <-]|intros c c' d [= <- _]]; lia.
Defined.

#[global] Instance simulated_MonotoneClock : MonotoneClock SimulatedClock.State.
Proof.
  refine {| clk_floor := SimulatedClock.now |}; [intros c c' t [= <- <-]|intros c c' d [= <- _]]; lia.
Defined.

Module FollowerLoop.

Import Replication.

(** ** The front ends *)

Record RaftNode := mkRaftNode { replication : ReplicationManager }.
Definition node_new (config : RaftConfig) : RaftNode := mkRaftNode (manager_new config).

Record FollowerEventLoop := mkEventLoop { fel_replication : ReplicationManager }.
Definition loop_new (config : RaftConfig) : FollowerEventLoop := mkEventLoop (manager_new config).

(** A batch the loop has handed to its I/O stage. *)
Inductive Origin := Tick | Message (payload : RpcPayload).
Abbreviation Output := (Instant * Origin * IoActionBatch)%type.

Section FrontEnds.
Context {LG SM LI SC CK : Type}.
Context `{!InMemoryLog LG} `{!StateMachine SM} `{!Listener LI}.
Context `{!SnapshotCoordinator SC} `{!Clock CK}.
Context (as_app_record : LogEntry -> AppRecord).
Context (deserialize_voters : bytes -> Result VotersRecord).

Abbreviation RWorld := (World LG SM LI SC CK).
Implicit Types (w : RWorld) (st : FollowerState LG).

Definition next_fetch_deadline st : Instant := fetch_deadline st.

Definition run_tick (self : FollowerEventLoop) st (c : CK) : FollowerState LG * CK * IoActionBatch :=
  let '(c', now) := clk_now c in
  let '(st', b) := poll_fetch (fel_replication self) now st in
  (st', c', default [] b).

Definition time_until_next_tick (self : FollowerEventLoop) st (c : CK) : CK * Duration :=
  let '(c', now) := clk_now c in (c', time_until_fetch st now).

Definition handle_response (self : FollowerEventLoop) (response : FetchResponse)
  : SE RWorld XraftError FetchResponseResult :=
  handle_fetch_response as_app_record deserialize_voters (fel_replication self) response.

(** ** The loop

    One step of the loop, on the node with everything around it and the batches
    it has handed to its I/O stage so far: time passes, a tick, or a message
    through either front end.  Each batch carries where it comes from and a
    time: that of the tick, or for a message the time at which its handling
    began.  The tick looks at the clock itself, so it may come at any time, not
    only when the sleep is over. *)

Definition loop_tick (self : FollowerEventLoop) w : RWorld * list Output :=
  let now := (clk_now (clock w)).2 in
  let '(st, c, b) := run_tick self (state w) (clock w) in
  (set_clock c (set_state st w), match b with [] => [] | _ => [(now, Tick, b)] end).

Context `{!MonotoneClock CK}.

(** The batch of an accepted message. *)
Definition answer w (payload : RpcPayload) (r : Result FetchResponseResult) : list Output :=
  match r with Ok res => [(clk_floor (clock w), Message payload, io_batch res)] | Err _ => [] end.

Inductive loop_step (self : FollowerEventLoop) : RWorld * list Output -> RWorld * list Output -> Prop :=
| step_elapse w out c :
    clk_floor (clock w) <= clk_floor c -> loop_step self (w, out) (set_clock c w, out)
| step_tick w out w' sent :
    loop_tick self w = (w', sent) -> loop_step self (w, out) (w', out ++ sent)
| step_message w out env w' r :
    handle_message as_app_record deserialize_voters (fel_replication self) env w = (w', r) ->
    loop_step self (w, out) (w', out ++ answer w (env_payload env) r)
| step_response w out response w' r :
    handle_response self response w = (w', r) ->
    loop_step self (w, out) (w', out ++ answer w (PFetchResponse response) r).

(** ** Messages and the fetch timer *)

Abbreviation deadline w := (fetch_deadline (state w)) (only parsing).

(** Neither the clock nor the fetch deadline is touched. *)
Definition keeps_time w w' : Prop := clock w' = clock w /\ deadline w' = deadline w.

Lemma keeps_time_trans w1 w2 w3 : keeps_time w1 w2 -> keeps_time w2 w3 -> keeps_time w1 w3.
Proof. unfold keeps_time. naive_solver congruence. Qed.

(** [m] does not touch the timer. *)
Definition timeless {A} (m : SE RWorld XraftError A) : Prop :=
  forall w, wp m (fun w' _ => keeps_time w w') w.

Lemma timeless_bind {A B} (m : SE RWorld XraftError A) (k : A -> SE RWorld XraftError B) :
  timeless m -> (forall a, timeless (k a)) -> timeless (se_bind m k).
Proof.
  intros Hm Hk w. apply wp_bind. eapply wp_mono; [apply Hm|]. intros w1 [a|e] H1; [|done].
  eapply wp_mono; [apply Hk|]. intros w2 r. by apply keeps_time_trans.
Qed.

Lemma timeless_ret {A} (a : A) : timeless (se_ret a).
Proof. by intros w. Qed.
Lemma timeless_throw {A} e : timeless (A := A) (se_throw e).
Proof. by intros w. Qed.
Lemma timeless_get {A} (f : RWorld -> A) : timeless (se_get f).
Proof. by intros w. Qed.
Lemma timeless_modify f : (forall w, keeps_time w (f w)) -> timeless (se_modify f).
Proof. intros Hf w. apply Hf. Qed.
Lemma timeless_upd f : timeless (upd f).
Proof. by intros w. Qed.
Lemma timeless_upd_state f :
  (forall st, fetch_deadline (f st) = fetch_deadline st) -> timeless (upd_state f).
Proof. intros Hf w. split; [done|]. apply Hf. Qed.

Create HintDb timeless.
#[local] Hint Resolve timeless_bind timeless_ret timeless_throw timeless_get timeless_modify
  timeless_upd timeless_upd_state : timeless.

(** Walk through a handler by its branches. *)
Ltac timeless_walk :=
  repeat first
    [ match goal with |- forall _, _ => intro end
    | apply timeless_bind
    | progress auto with timeless
    | match goal with
      | |- timeless (match ?x with _ => _ end) => destruct x eqn:?
      end
    | apply timeless_modify; intros; try split_code; done
    | apply timeless_upd_state; done ].

Lemma timeless_apply_entries es : timeless (apply_entries as_app_record deserialize_voters es).
Proof.
  induction es as [|e es IH]; cbn [apply_entries]; [by auto with timeless|].
  apply timeless_bind; [|done]. destruct (entry_type e).
  - intros w. apply wp_try, wp_zoom. intros s r _. by destruct r; wp_steps.
  - timeless_walk.
  - timeless_walk.
Qed.
#[local] Hint Resolve timeless_apply_entries : timeless.

Lemma timeless_validate response : timeless (validate_and_update_term response).
Proof. unfold validate_and_update_term, get. timeless_walk. Qed.

Lemma timeless_handle_snapshot response sid d : timeless (handle_snapshot response sid d).
Proof. unfold handle_snapshot. timeless_walk. Qed.

Lemma timeless_handle_divergence mgr d q : timeless (handle_divergence mgr d q).
Proof. unfold handle_divergence, get. timeless_walk. Qed.

Lemma timeless_handle_entries response d :
  timeless (handle_entries as_app_record deserialize_voters response d).
Proof.
  unfold handle_entries, append_entries, advance_high_watermark, execute_commit_notification, get.
  timeless_walk.
Qed.
(** A message leaves the deadline alone or moves it one interval past a
    reading of the clock. *)
Definition paced (interval : Duration) w w' : Prop :=
  clk_floor (clock w) <= clk_floor (clock w') /\
  (deadline w' = deadline w \/
   exists now, clk_floor (clock w) <= now <= clk_floor (clock w') /\ deadline w' = now + interval).

Lemma keeps_time_paced i w w' : keeps_time w w' -> paced i w w'.
Proof. intros [Hc Hd]. split; [by rewrite Hc|]. by left. Qed.

Lemma paced_keeps_time i w0 w1 w2 w3 :
  keeps_time w0 w1 -> paced i w1 w2 -> keeps_time w2 w3 -> paced i w0 w3.
Proof.
  unfold keeps_time, paced. intros [Hc1 Hd1] [Hf Hd] [Hc3 Hd3]. rewrite Hc1, Hd1 in *.
  rewrite Hc3, Hd3. by split.
Qed.

(** An accepted response restarts the fetch timer. *)
Definition restarted (interval : Duration) w w' (r : Result FetchResponseResult) : Prop :=
  paced interval w w' /\ (is_ok r = true -> clk_floor (clock w) + interval <= deadline w').

Lemma reset_timers_paced mgr w :
  let w' := (reset_timers mgr w).1 in
  paced (fetch_interval mgr) w w' /\ clk_floor (clock w) + fetch_interval mgr <= deadline w'.
Proof.
  unfold reset_timers, se_modify. cbn. destruct (clk_now (clock w)) as [c1 now] eqn:En.
  destruct (clk_random_election_timeout c1) as [c2 t] eqn:Er.
  apply clk_now_floor in En. apply clk_random_floor in Er. split; [split|]; cbn; [lia| |lia].
  right. exists now. split; [lia|done].
Qed.

Lemma handle_fetch_response_paced mgr response w :
  wp (handle_fetch_response as_app_record deserialize_voters mgr response)
     (restarted (fetch_interval mgr) w) w.
Proof.
  unfold handle_fetch_response. apply wp_bind. eapply wp_mono; [apply timeless_validate|].
  intros w1 [d|e] H1; [|split; [by apply keeps_time_paced|done]].
  destruct (both_fields response); [split; [by apply keeps_time_paced|done]|].
  apply wp_bind. apply (wp_mono _ (fun w2 r => (paced (fetch_interval mgr) w1 w2 /\
    clk_floor (clock w1) + fetch_interval mgr <= deadline w2) /\ r = Ok tt)).
  { split; [apply reset_timers_paced|done]. }
  intros w2 r [[H2 H2'] ->]. apply (wp_mono _ (fun w3 _ => keeps_time w2 w3)).
  - destruct (fr_snapshot_id response); [apply timeless_handle_snapshot|].
    destruct (fr_diverging_epoch response);
      [apply timeless_handle_divergence|apply timeless_handle_entries].
  - intros w3 r H3. split; [by eapply paced_keeps_time|]. intros _.
    destruct H1 as [Hc _], H3 as [_ Hd]. rewrite Hd, <- Hc. done.
Qed.

Lemma handle_message_paced mgr env w :
  wp (handle_message as_app_record deserialize_voters mgr env) (restarted (fetch_interval mgr) w) w.
Proof.
  assert (forall e, restarted (fetch_interval mgr) w w (Err e)) as Hw
    by (intros e; split; [by apply keeps_time_paced|done]).
  unfold handle_message, get. wp_steps; [done|].
  destruct (env_payload env); wp_steps; try done. apply handle_fetch_response_paced.
Qed.

(** ** The fetches of a batch *)

Definition is_fetch (act : IoAction) : bool :=
  match act with
  | SendRpc _ env => match env_payload env with PFetchRequest _ => true | _ => false end
  | _ => false
  end.
Definition fetches (b : IoActionBatch) : nat := length (list_filter is_fetch b).

(** How many fetches the answer to a response that offers no snapshot may have:
    one if it reports a divergence, otherwise none. *)
Definition few_fetches (payload : RpcPayload) (b : IoActionBatch) : Prop :=
  match payload with
  | PFetchResponse response => fr_snapshot_id response = None ->
      (fetches b <= match fr_diverging_epoch response with Some _ => 1 | None => 0 end)%nat
  | _ => fetches b = 0%nat
  end.

Lemma fetches_quorum b d : fetches (push_quorum b d) = fetches b.
Proof. destruct d; [|done]. unfold fetches, push_quorum, batch_push. by rewrite list_filter_app, app_nil_r. Qed.

Lemma fetches_push mgr b st : (fetches (push_fetch mgr b st) <= fetches b + 1)%nat.
Proof.
  unfold push_fetch. destruct (build_fetch_request mgr st) as [[leader env]|]; [|lia].
  unfold fetches, batch_push. rewrite list_filter_app, length_app. cbn. destruct (env_payload env); cbn; lia.
Qed.

Lemma wp_divergence_fetches mgr d q w :
  wp (handle_divergence mgr d q) (fun _ r => forall res, r = Ok res -> (fetches (io_batch res) <= 1)%nat) w.
Proof.
  unfold handle_divergence, get, upd, upd_state. wp_steps; [done|]. intros res [= <-]. cbn [io_batch]. rewrite fetches_quorum.
  etrans; [apply fetches_push|]. done.
Qed.

Lemma wp_entries_fetches response d w :
  wp (handle_entries as_app_record deserialize_voters response d)
     (fun _ r => forall res, r = Ok res -> fetches (io_batch res) = 0%nat) w.
Proof.
  unfold handle_entries. apply wp_bind. apply (wp_mono _ (fun _ _ => True)); [done|].
  intros w1 [u|e] _; [|done]. apply wp_bind. apply (wp_mono _ (fun _ _ => True)); [done|].
  intros w2 [u'|e] _; [|done]. wp_steps. intros res [= <-]. cbn [io_batch]. rewrite fetches_quorum. by case_match.
Qed.

Lemma wp_response_fetches mgr response w :
  wp (handle_fetch_response as_app_record deserialize_voters mgr response)
     (fun _ r => forall res, r = Ok res -> few_fetches (PFetchResponse response) (io_batch res)) w.
Proof.
  unfold handle_fetch_response. apply wp_bind. apply (wp_mono _ (fun _ _ => True)); [done|].
  intros w1 [d|e] _; [|done]. destruct (both_fields response); [done|].
  apply wp_bind. apply (wp_mono _ (fun _ _ => True)); [done|]. intros w2 [u|e] _; [|done]. cbn.
  destruct (fr_snapshot_id response) as [sid|]; [by apply (wp_mono _ (fun _ _ => True))|].
  destruct (fr_diverging_epoch response) as [dv|].
  - eapply wp_mono; [apply wp_divergence_fetches|]. intros w3 r Hr res Hres _. by apply Hr.
  - eapply wp_mono; [apply wp_entries_fetches|]. intros w3 r Hr res Hres _. by rewrite (Hr res Hres).
Qed.

Lemma wp_message_fetches mgr env w :
  wp (handle_message as_app_record deserialize_voters mgr env)
     (fun _ r => forall res, r = Ok res -> few_fetches (env_payload env) (io_batch res)) w.
Proof.
  unfold handle_message, get. wp_steps; [done|]. destruct (env_payload env); wp_steps; try done.
  apply wp_response_fetches.
Qed.

(** ** The pace of the loop *)

(** What a batch may hold, by where it comes from. *)
Definition output_ok (o : Output) : Prop :=
  match o with
  | (_, Tick, b) => exists leader env req, b = [SendRpc leader env] /\ env_payload env = PFetchRequest req
  | (_, Message payload, b) => few_fetches payload b
  end.

(** The deadline is at most one interval away and at least one after every
    batch; a tick's batch is at least one interval after every earlier batch. *)
Definition loop_inv (interval : Duration) (x : RWorld * list Output) : Prop :=
  let '(w, out) := x in
  deadline w <= clk_floor (clock w) + interval /\
  (forall t o b, (t, o, b) ∈ out -> t + interval <= deadline w) /\
  (forall k j t o b t' b', (k < j)%nat -> out !! k = Some (t, o, b) -> out !! j = Some (t', Tick, b') ->
     t + interval <= t') /\
  Forall output_ok out.

Lemma loop_inv_paced i w w' out : loop_inv i (w, out) -> paced i w w' -> loop_inv i (w', out).
Proof.
  intros (Hd & Hl & Hg & Hf) [Hfl Hp]. split_and!; [|intros t o b ?%Hl|done..];
    destruct Hp as [->|(now & ? & ->)]; lia.
Qed.

(** One more batch, a tick's only after its deadline. *)
Lemma loop_inv_push i w w' out t o b :
  loop_inv i (w, out) -> paced i w w' -> t + i <= deadline w' -> output_ok (t, o, b) ->
  (o = Tick -> deadline w <= t) -> loop_inv i (w', out ++ [(t, o, b)]).
Proof.
  intros Hi Hp Ht Ho Hdue. pose proof (loop_inv_paced _ _ _ _ Hi Hp) as (H1 & H2 & H3 & H4).
  destruct Hi as (_ & Hl & _ & _). split_and!; [done| | |].
  - intros t' o' b' [Hin|Heq%list_elem_of_singleton]%elem_of_app; [by eapply H2|].
    by injection Heq as -> -> ->.
  - intros k j t1 o1 b1 t2 b2 Hkj Hk Hj. apply lookup_lt_Some in Hj as Hlen.
    rewrite length_app in Hlen. cbn in Hlen. rewrite lookup_app_l in Hk by lia.
    apply lookup_app_Some in Hj as [Hj|[Hge Hj]]; [exact (H3 k j _ _ _ _ _ Hkj Hk Hj)|].
    apply list_lookup_singleton_Some in Hj as [_ Heq]. injection Heq as -> -> ->.
    apply list_elem_of_lookup_2 in Hk. specialize (Hl _ _ _ Hk). specialize (Hdue eq_refl). lia.
  - by apply Forall_app; split; [|apply Forall_singleton].
Qed.

Lemma push_fetch_nil mgr st :
  push_fetch mgr [] st = [] \/ exists leader env req,
    push_fetch mgr [] st = [SendRpc leader env] /\ env_payload env = PFetchRequest req.
Proof.
  unfold push_fetch, build_fetch_request. destruct (leader_id (Replication.base st)); [|by left].
  destruct (negb _); [by left|]. right. by eexists _, _, _.
Qed.

Lemma loop_tick_cases self w w' sent :
  loop_tick self w = (w', sent) ->
  exists c now, clk_now (clock w) = (c, now) /\ clock w' = c /\
    (deadline w' = deadline w /\ sent = [] \/
     deadline w <= now /\ deadline w' = now + fetch_interval (fel_replication self) /\
     (sent = [] \/ exists leader env req,
        sent = [(now, Tick, [SendRpc leader env])] /\ env_payload env = PFetchRequest req)).
Proof.
  unfold loop_tick, run_tick, poll_fetch, on_fetch_tick.
  destruct (clk_now (clock w)) as [c now] eqn:En. cbn. exists c, now. split; [done|].
  destruct (deadline w <=? now) eqn:Ed; cbn in *; [|by simplify_eq; eauto].
  destruct (role_eqb _ _); cbn in *; [|by simplify_eq; eauto].
  simplify_eq. split; [done|]. right. split; [lia|]. split; [done|].
  destruct (push_fetch_nil (fel_replication self)
    (set_fetch_deadline (now + fetch_interval (fel_replication self)) (state w)))
    as [->|(leader & env & req & -> & Hr)]; [by left|right; by eexists _, _, _].
Qed.

Lemma loop_inv_tick self w w' out sent :
  let i := fetch_interval (fel_replication self) in
  loop_inv i (w, out) -> loop_tick self w = (w', sent) -> loop_inv i (w', out ++ sent).
Proof.
  intros i Hi (c & now & En & <- & Ht)%loop_tick_cases.
  apply clk_now_floor in En as Hn.
  assert (paced i w w') as Hp.
  { split; [lia|]. destruct Ht as [[? _]|(? & ? & _)]; [by left|right; exists now; by split]. }
  destruct Ht as [[_ ->]|(Hdue & Hd & [->|(leader & env & req & -> & Hr)])];
    [rewrite app_nil_r; by eapply loop_inv_paced..|].
  eapply loop_inv_push; [done|done|fold i in Hd; lia|by eexists _, _, _|done].
Qed.

Lemma loop_inv_answer i w w' out payload r :
  loop_inv i (w, out) -> restarted i w w' r ->
  (forall res, r = Ok res -> few_fetches payload (io_batch res)) ->
  loop_inv i (w', out ++ answer w payload r).
Proof.
  intros Hi [Hp Hr] Hf. destruct r as [res|e]; cbn [answer].
  - eapply loop_inv_push; [done|done|by apply Hr|by apply Hf|done].
  - rewrite app_nil_r. by eapply loop_inv_paced.
Qed.

Lemma loop_inv_step self x y :
  loop_inv (fetch_interval (fel_replication self)) x -> loop_step self x y ->
  loop_inv (fetch_interval (fel_replication self)) y.
Proof.
  intros Hi Hs. destruct Hs as [w out c Hc|w out w' sent Ht|w out env w' r Hm|w out resp w' r Hm].
  - apply (loop_inv_paced _ _ _ _ Hi). split; [done|by left].
  - by eapply loop_inv_tick.
  - apply (loop_inv_answer _ _ _ _ _ _ Hi); [|intros res].
    + exact (wp_run _ _ _ _ _ (handle_message_paced (fel_replication self) env w) Hm).
    + exact (wp_run _ _ _ _ _ (wp_message_fetches (fel_replication self) env w) Hm res).
  - apply (loop_inv_answer _ _ _ _ _ _ Hi); [|intros res].
    + exact (wp_run _ _ _ _ _ (handle_fetch_response_paced (fel_replication self) resp w) Hm).
    + exact (wp_run _ _ _ _ _ (wp_response_fetches (fel_replication self) resp w) Hm res).
Qed.

(** The fetch that a tick of a follower with a known leader sends. *)
Lemma due_tick_fetches self leader c c1 now w :
  role (Replication.base (state w)) = Follower ->
  leader_id (Replication.base (state w)) = Some leader ->
  clk_now c = (c1, now) -> deadline w <= now ->
  exists env req, (loop_tick self (set_clock c w)).2 = [(now, Tick, [SendRpc leader env])] /\
    env_payload env = PFetchRequest req /\
    fetch_offset req = log_end_offset (Replication.base (state w)) /\
    replica_id req = node_id (Replication.base (state w)).
Proof.
  intros Hr Hl Hn Hd. unfold loop_tick, run_tick, poll_fetch, on_fetch_tick. cbn. rewrite Hn. cbn.
  destruct (deadline w <=? now) eqn:E; [|lia]. rewrite Hr. cbn.
  unfold push_fetch, build_fetch_request. cbn. rewrite Hl, Hr. cbn. by eexists _, _.
Qed.

(** C39: The fetch loop of a follower keeps its pace, whatever messages arrive
    and whenever it ticks.  A tick that sends anything sends one fetch request,
    at least one fetch interval after every batch the loop has produced before,
    by a tick or by an accepted message.  Between ticks the only fetches are
    answers: an accepted response that offers no snapshot is answered by one
    fetch at most if it reports a divergence and by none otherwise.  The wait
    the loop computes is never longer than one interval; and once that wait is
    over, a tick of a follower that knows its leader sends the leader a fetch
    for the end of the follower's log. *)
Theorem fetch_loop_paced (self : FollowerEventLoop) w0 w out c now wait :
  let interval := fetch_interval (fel_replication self) in
  deadline w0 <= clk_floor (clock w0) + interval ->
  rtc (loop_step self) (w0, []) (w, out) ->
  clk_now (clock w) = (c, now) ->
  (time_until_next_tick self (state w) (clock w)).2 = wait ->
  (forall k j t o b t' b', (k < j)%nat -> out !! k = Some (t, o, b) -> out !! j = Some (t', Tick, b') ->
     t + interval <= t') /\
  (forall t b, (t, Tick, b) ∈ out -> exists leader env req,
     b = [SendRpc leader env] /\ env_payload env = PFetchRequest req) /\
  (forall t response b, (t, Message (PFetchResponse response), b) ∈ out -> fr_snapshot_id response = None ->
     (fetches b <= match fr_diverging_epoch response with Some _ => 1 | None => 0 end)%nat) /\
  wait <= interval /\
  (forall leader later c2 now2,
     role (Replication.base (state w)) = Follower ->
     leader_id (Replication.base (state w)) = Some leader ->
     clk_now later = (c2, now2) -> now + wait <= now2 ->
     exists env req, (loop_tick self (set_clock later w)).2 = [(now2, Tick, [SendRpc leader env])] /\
       env_payload env = PFetchRequest req /\
       fetch_offset req = log_end_offset (Replication.base (state w)) /\
       replica_id req = node_id (Replication.base (state w))).
Proof.
  intros interval Hd Hrun Hn Hw.
  assert (loop_inv interval (w, out)) as (H1 & H2 & H3 & H4).
  { refine (rtc_ind_r (loop_inv interval) (w0, []) _ _ (w, out) Hrun).
    - split_and!; [done| |done|done]. by intros t o b ?%elem_of_nil.
    - intros x y _ Hs Hi. by eapply loop_inv_step. }
  rewrite list.Forall_forall in H4.
  revert Hw. unfold time_until_next_tick, time_until_fetch. rewrite Hn. cbn. intros <-.
  apply clk_now_floor in Hn. split_and!; [done| | |case_match; lia|].
  - intros t b Hin. by apply (H4 (t, Tick, b)).
  - intros t response b Hin. by apply (H4 (t, Message (PFetchResponse response), b)).
  - intros leader later c2 now2 Hr Hl Hn2 Hle. apply (due_tick_fetches self leader later c2); try done.
    case_match; lia.
Qed.
End FrontEnds.

Module Demo.

Import FollowerDemo.

Abbreviation SWorld :=
  (World (list LogEntry) Recorder Batches DefaultSnapshotCoordinator SimulatedClock.State).

Definition self : FollowerEventLoop := loop_new default_inner.

(** The follower of [FollowerDemo] on the simulated clock. *)
Definition start : SWorld :=
  mkWorld _ _ _ _ _ (state follower) (state_machine follower) (listener follower) dcq_new [] []
    (coordinator_new 1024) (SimulatedClock.new 0 200).

(** It fetches at time 0; at 10 a tick comes too early and a response reports a
    divergence, which is answered by a fetch at once and restarts the timer; at
    60 it fetches again. *)
Definition later (d : Duration) (w : SWorld) : SWorld :=
  set_clock (SimulatedClock.advance d (clock w)) w.
Definition ticked (w : SWorld) : SWorld := (loop_tick self w).1.
Definition early : SWorld := later 10 (ticked start).
Abbreviation respond := (handle_response record_of no_voters self diverge).
Definition answered : SWorld := (respond (ticked early)).1.
Definition final : SWorld := ticked (later 50 answered).
Abbreviation out1 := (loop_tick self start).2.
Abbreviation out2 := (loop_tick self early).2.
Abbreviation out3 := (answer (ticked early) (PFetchResponse diverge) (respond (ticked early)).2).
Abbreviation out4 := (loop_tick self (later 50 answered)).2.
Definition sent : list Output := out1 ++ out2 ++ out3 ++ out4.

Example sent_times : map (fun o => (o.1.1, fetches o.2)) sent = [(0, 1%nat); (10, 1%nat); (60, 1%nat)].
Proof. by vm_compute. Qed.

Lemma later_step d (w : SWorld) out : loop_step record_of no_voters self (w, out) (later d w, out).
Proof. apply step_elapse. cbn. lia. Qed.
Lemma ticked_step (w : SWorld) out : loop_step record_of no_voters self (w, out) (ticked w, out ++ (loop_tick self w).2).
Proof. apply step_tick, surjective_pairing. Qed.
Lemma respond_step out :
  loop_step record_of no_voters self (ticked early, out) (answered, out ++ out3).
Proof. unfold answered. apply step_response, surjective_pairing. Qed.
Lemma final_step out :
  loop_step record_of no_voters self (later 50 answered, out) (final, out ++ out4).
Proof. exact (ticked_step (later 50 answered) out). Qed.
Lemma early_step out : loop_step record_of no_voters self (ticked start, out) (early, out).
Proof. exact (later_step 10 (ticked start) out). Qed.

Lemma demo_run : rtc (loop_step record_of no_voters self) (start, []) (final, sent).
Proof.
  unfold sent. rewrite !app_assoc.
  apply (rtc_l _ _ _ _ (ticked_step start [])). apply (rtc_l _ _ _ _ (early_step _)).
  apply (rtc_l _ _ _ _ (ticked_step early _)). apply (rtc_l _ _ _ _ (respond_step _)).
  apply (rtc_l _ _ _ _ (later_step 50 answered _)). apply (rtc_l _ _ _ _ (final_step _)). apply rtc_refl.
Qed.

Lemma fetch_loop_paced_witness :
  (time_until_next_tick self (state final) (clock final)).2 <= fetch_interval (fel_replication self) /\
  exists env req, (loop_tick self (later 1000 final)).2 = [(1060, Tick, [SendRpc 1 env])] /\
    env_payload env = PFetchRequest req /\ fetch_offset req = 1.
Proof.
  destruct (fetch_loop_paced record_of no_voters self start final sent (clock final) 60
              (fetch_interval (fel_replication self))) as (_ & _ & _ & Hw & Hs);
    [by vm_compute|exact demo_run|by vm_compute|by vm_compute|].
  split; [by vm_compute|].
  destruct (Hs 1 (clock (later 1000 final)) (clock (later 1000 final)) 1060)
    as (env & req & H1 & H2 & H3 & _); [by vm_compute..|].
  exists env, req. split; [exact H1|]. split; [exact H2|]. rewrite H3. by vm_compute.
Defined.

End Demo.
End FollowerLoop.
