(* ===== verification/FollowerDisk.v ===== *)
(** * The follower's log on disk

    A follower that executes the batches of its message handler on the stores
    of an I/O stage: the handler of [replication.rs], the execution of
    [io_action.rs] and, as the log store, the segmented log of the storage
    crate.  The log in memory and the log on disk stay the same log, through
    restarts of the store. *)

From Stdlib Require Import ZifyBool ZifyN ZifyNat Lia.
From stdpp Require Import base list gmap numbers option strings.
From S2P Require Import Prelude Types NodeState Interfaces BTree DeferredCompletion.
From S2P Require Import Mocks Replication ReplicationProps ReplicationClaims IoStage Segment SegmentLog.

(** ** Batches a log can execute *)

(** Every append continues the log and every truncation is within it. *)
Fixpoint log_safe (a : AbsLog) (b : IoActionBatch) : Prop :=
  match b with
  | [] => True
  | AppendLog es :: b' =>
      contiguous (al_end a) es = true /\ al_end (al_append es a) <= u64_max /\ log_safe (al_append es a) b'
  | TruncateSuffix from :: b' => al_start a <= from /\ log_safe (al_truncate_suffix from a) b'
  | TruncatePrefix _ :: _ => False
  | _ :: b' => log_safe a b'
  end.

Lemma log_safe_app (a : AbsLog) (b1 b2 : IoActionBatch) :
  log_safe a b1 -> log_safe (foldl exec_log a b1) b2 -> log_safe a (b1 ++ b2).
Proof.
  revert a. induction b1 as [|x b1 IH]; intros a H1 H2; [done|].
  destruct x; cbn in *; try done; try (by apply IH); naive_solver.
Qed.

Lemma sends_log_safe (a : AbsLog) (b : IoActionBatch) : forallb is_send b = true -> log_safe a b.
Proof. induction b as [|[] b IH]; cbn; done. Qed.

Section Stage.
Context {L T Q S : Type} `{LogStore L} `{TransportSender T} `{QuorumStateStore QuorumState Q} `{SnapshotIO S}.
Context `{!LogStoreLaws L}.

Abbreviation Stage := (TryJoined.IoStage (L := L) (T := T) (Q := Q) (S := S)).
Implicit Types st : Stage.

(** The store of the stage holds the log [a]. *)
Definition holds_log (a : AbsLog) st : Prop :=
  ls_inv (TryJoined.log_store st) /\ ls_abs (TryJoined.log_store st) = a.

Lemma exec_action_log (x : IoAction) (a : AbsLog) st st' :
  holds_log a st -> log_safe a [x] -> TryJoined.exec_action x st = (st', Ok tt) -> holds_log (exec_log a x) st'.
Proof.
  intros [Hi <-] Hs. unfold holds_log. destruct x as [qs|es|from|up|tg env|snap]; cbn in *.
  - destruct (qss_save _ _). by intros [= <- _].
  - destruct (ls_append es _) as [l r] eqn:E. intros [= <- ->]. cbn. destruct Hs as (Hc & Hb & _).
    destruct (ls_append_abs _ _ _ _ Hi Hc Hb E) as (H1' & H2' & _). auto.
  - destruct Hs as [Hf _]. destruct (ls_truncate_suffix_abs _ _ Hi Hf) as (l & -> & H1' & H2').
    by intros [= <-].
  - done.
  - destruct (ts_send _ _ _). by intros [= <- _].
  - destruct (sio_save _ _). by intros [= <- _].
Qed.

Lemma exec_all_log (b : list IoAction) (a : AbsLog) st st' :
  holds_log a st -> log_safe a b -> TryJoined.exec_all b st = (st', Ok tt) -> holds_log (foldl exec_log a b) st'.
Proof.
  revert a st. induction b as [|x b IH]; intros a st Hh Hs; cbn; [by intros [= <-]|].
  destruct (TryJoined.exec_action x st) as [st1 [[]|e]] eqn:E; [|done]. apply IH.
  - eapply exec_action_log; [done| |done]. destruct x; cbn in *; naive_solver.
  - destruct x; cbn in *; naive_solver.
Qed.

(** The sends of a batch do not touch the log. *)
Lemma storage_log (a : AbsLog) (b : IoActionBatch) :
  (log_safe a b -> log_safe a (TryJoined.storage_actions b)) /\
  foldl exec_log a (TryJoined.storage_actions b) = foldl exec_log a b.
Proof.
  unfold TryJoined.storage_actions. revert a.
  induction b as [|x b IH]; intros a; [done|].
  destruct x; cbn; try done; try (split; [|by apply IH]; intros; naive_solver).
Qed.

Lemma network_log (a : AbsLog) (b : IoActionBatch) :
  log_safe a (TryJoined.network_actions b) /\ foldl exec_log a (TryJoined.network_actions b) = a.
Proof. unfold TryJoined.network_actions. induction b as [|[] b IH]; cbn; done. Qed.

Lemma execute_log (b : IoActionBatch) (a : AbsLog) st st' :
  holds_log a st -> log_safe a b -> TryJoined.execute b st = (st', Ok tt) -> holds_log (foldl exec_log a b) st'.
Proof.
  intros Hh Hs. unfold TryJoined.execute. destruct (storage_log a b) as [Hs' Hf].
  destruct (TryJoined.exec_all (TryJoined.storage_actions b) st) as [st1 [[]|e]] eqn:E; [|done].
  apply exec_all_log with (a := a) in E; [|done|auto]. rewrite Hf in E. intros He.
  destruct (network_log (foldl exec_log a b) b) as [Hn Hn'].
  apply exec_all_log with (a := foldl exec_log a b) in He; [|done|done]. by rewrite Hn' in He.
Qed.
End Stage.

(** ** What the handler asks of the log *)

Section Follower.
Context {LG SM LI SC CK : Type}.
Context `{!InMemoryLog LG} `{!StateMachine SM} `{!Listener LI}.
Context `{!SnapshotCoordinator SC} `{!Clock CK}.
Context `{!InMemoryLogLaws LG} `{!StateMachineTrace SM} `{!ListenerTrace LI}.
Context (as_app_record : LogEntry -> AppRecord).
Context (deserialize_voters : bytes -> Result VotersRecord).
Context (mgr : Replication.ReplicationManager).
Context (coordinator_sends : only_sends (SC := SC)).

Import Replication.

Abbreviation RWorld := (World LG SM LI SC CK).
Implicit Types w : RWorld.

Abbreviation handle := (handle_message as_app_record deserialize_voters mgr).

(** An accepted message comes with a batch the log can execute; a rejected one
    leaves the log alone. *)
Definition asks w w' (r : Result FetchResponseResult) : Prop :=
  match r with
  | Ok res => log_safe (wlog w) (io_batch res)
  | Err _ => commit_failure r = false -> wlog w' = wlog w
  end.

Lemma quorum_log_safe (a : AbsLog) (b : IoActionBatch) (d : option QuorumState) :
  log_safe a b -> log_safe a (push_quorum b d).
Proof. intros Hb. destruct d; [|done]. by apply log_safe_app. Qed.

Lemma asks_quiet w w1 w' (r : Result FetchResponseResult) :
  wlog w1 = wlog w -> asks w1 w' r -> asks w w' r.
Proof. unfold asks. by intros ->. Qed.

Lemma wp_snapshot_asks (response : FetchResponse) (sid : SnapshotId) (d : option QuorumState) w :
  wp (handle_snapshot response sid d) (asks w) w.
Proof.
  unfold handle_snapshot. wp_steps; [by apply quorum_log_safe|].
  unfold wp at 1. destruct (sc_begin_snapshot_transfer _ _ _ _) as [c b] eqn:Hb. cbn [fst snd].
  wp_steps. cbn. rewrite foldl_batch_push. apply quorum_log_safe, sends_log_safe. by eapply coordinator_sends.
Qed.

Lemma wp_entries_asks (response : FetchResponse) (d : option QuorumState) w :
  winv w -> al_end (wlog w) + N.of_nat (length (fr_entries response)) <= u64_max ->
  wp (handle_entries as_app_record deserialize_voters response d) (asks w) w.
Proof.
  intros Hi Hb. unfold handle_entries. apply wp_bind.
  eapply wp_mono; [by apply wp_append_entries|]. intros w1 [u|e]; cbn beta iota; [|by intros (-> & _)].
  intros [Happ Hc]. pose proof (appended_winv _ _ _ Hi Hc Happ) as Hi1.
  apply wp_bind. eapply wp_mono; [by apply wp_advance_high_watermark|].
  intros w2 r [A1 A2 A3 A4 A5 A6]. destruct r as [[]|e]; wp_steps.
  - apply quorum_log_safe. destruct (al_append_wf _ _ (wi_wf _ Hi) Hc) as [_ Hend].
    destruct (fr_entries response) as [|e es]; [done|]. cbn in *. split_and!; [done|lia|done].
  - destruct A6 as [[=]|A6]. cbn in *. congruence.
Qed.

Lemma wp_handle_asks (env : RpcEnvelope) w :
  winv w -> fits env w -> wp (handle env) (asks w) w.
Proof.
  intros Hi Hf. unfold handle_message, get, fits, entries_of in *. wp_steps; [done|].
  destruct (env_payload env) as [| | |response| | | | | |]; wp_steps; try done.
  unfold handle_fetch_response. apply wp_bind.
  eapply wp_mono; [apply wp_validate|]. intros w1 [d|e] [(Hq & _ & _) _];
    assert (wlog w1 = wlog w) as Hl1 by (unfold wlog; by destruct Hq as [-> _]); [|intros _; exact Hl1].
  wp_steps; [intros _; exact Hl1|]. apply wp_reset_timers. intros c te tf. set (w2 := with_timers c te tf w1).
  assert (winv w2 /\ wlog w2 = wlog w) as [Hi2 Hl2] by (split; [by apply (quiet_winv w1 w2), (quiet_winv w w1)|done]).
  eapply wp_mono; [|intros w' r; by apply asks_quiet].
  destruct (fr_snapshot_id response) as [sid|]; [apply wp_snapshot_asks|].
  destruct (fr_diverging_epoch response) as [dv|]; [|apply wp_entries_asks; [done|by rewrite Hl2]].
  eapply wp_mono; [by apply wp_handle_divergence|]. cbn zeta. intros w' [res|e] Hp; [|by destruct Hp as (-> & _)].
  destruct Hp as (Hhw & _ & ->). apply quorum_log_safe. destruct Hi2 as [_ _ Hhw2 _].
  assert (al_start (wlog w2) <= truncation_point dv w2) as Hp by lia.
  unfold push_fetch. by destruct (build_fetch_request mgr (state w')) as [[leader e]|].
Qed.

(** ** The follower with its stage *)

Context {L T Q S : Type} `{LogStore L} `{TransportSender T} `{QuorumStateStore QuorumState Q} `{SnapshotIO S}.
Context `{!LogStoreLaws L}.

Abbreviation Stage := (TryJoined.IoStage (L := L) (T := T) (Q := Q) (S := S)).
Implicit Types st : Stage.

(** Messages one after the other, the batch of each executed before the next.
    The node stops when the state machine refuses a command or a batch fails;
    after any other error of the handler it goes on with the next message. *)
Fixpoint serve_stored (envs : list RpcEnvelope) w st : RWorld * Stage * bool :=
  match envs with
  | [] => (w, st, false)
  | env :: envs' =>
      match handle env w with
      | (w', Ok res) =>
          match TryJoined.execute (io_batch res) st with
          | (st', Ok _) => serve_stored envs' w' st'
          | (st', Err _) => (w', st', true)
          end
      | (w', Err e) =>
          if apply_failure (A := FetchResponseResult) (Err e) then (w', st, true)
          else serve_stored envs' w' st
      end
  end.

Lemma serve_stored_committed (envs : list RpcEnvelope) w st w' st' (stopped : bool) :
  winv w -> al_end (wlog w) + total_entries envs <= u64_max ->
  serve_stored envs w st = (w', st', stopped) -> committed w `prefix_of` committed w'.
Proof.
  revert w st. induction envs as [|env envs IH]; intros w st Hi Hb; cbn [serve_stored]; [by intros [= <- _ _]|].
  destruct (handle env w) as [w1 r] eqn:Er.
  destruct (serve_step as_app_record deserialize_voters mgr env envs w w1 r Hi Hb Er) as (Hc & _ & Hb1).
  assert (committed w `prefix_of` committed w1) as Hp
    by (rewrite (core_post_committed _ _ _ _ _ _ Hi Hc); by apply prefix_app_r).
  destruct r as [res|e].
  - destruct (TryJoined.execute (io_batch res) st) as [st1 [[]|e]]; [|by intros [= <- _ _]].
    intros Hs. etrans; [exact Hp|]. eapply IH; [apply Hc|done|done].
  - destruct (apply_failure _); [by intros [= <- _ _]|]. intros Hs. etrans; [exact Hp|]. eapply IH; [apply Hc|done|done].
Qed.

Lemma serve_stored_mirrors (envs : list RpcEnvelope) w st w' st' :
  winv w -> al_end (wlog w) + total_entries envs <= u64_max -> holds_log (wlog w) st ->
  serve_stored envs w st = (w', st', false) -> records_decode deserialize_voters w' ->
  winv w' /\ holds_log (wlog w') st'.
Proof.
  revert w st. induction envs as [|env envs IH]; intros w st Hi Hb Hh; cbn [serve_stored]; [by intros [= <- <-]|].
  destruct (handle env w) as [w1 r] eqn:Er.
  destruct (serve_step as_app_record deserialize_voters mgr env envs w w1 r Hi Hb Er) as (Hc & Hf & Hb1).
  pose proof (wp_run _ _ _ _ _ (wp_handle_asks env w Hi Hf) Er) as Hask.
  pose proof (cp_inv _ _ _ _ _ _ Hc) as Hi1. destruct r as [res|e].
  - pose proof (batch_mirrors_log as_app_record deserialize_voters mgr env w w1 res coordinator_sends Hi Hf Er) as Hlog.
    destruct (TryJoined.execute (io_batch res) st) as [st1 [[]|e]] eqn:Ee; [|done].
    apply IH; [done|done|]. rewrite <- Hlog. by eapply execute_log.
  - destruct (apply_failure (Err e)) eqn:Haf; [done|]. intros Hs Hd.
    pose proof (serve_stored_committed envs w1 st w' st' false Hi1 Hb1 Hs) as Hp.
    pose proof (decoded_failure _ _ _ _ _ _ _ Hi Hc Hp Hd Haf) as Hcf.
    apply (IH w1 st); [done|done|by rewrite (Hask Hcf)|done|done].
Qed.
End Follower.

(** ** On the segmented log *)

Section SegmentFollower.
Context {LG SM LI SC CK : Type}.
Context `{!InMemoryLog LG} `{!StateMachine SM} `{!Listener LI}.
Context `{!SnapshotCoordinator SC} `{!Clock CK}.
Context `{!InMemoryLogLaws LG} `{!StateMachineTrace SM} `{!ListenerTrace LI}.
Context (as_app_record : LogEntry -> AppRecord).
Context (deserialize_voters : bytes -> Result VotersRecord).
Context (mgr : Replication.ReplicationManager).
(** bincode of entries, which refuses what does not fit a batch, and the checksum. *)
Context (serialize : list LogEntry -> option bytes) (deserialize : bytes -> option (list LogEntry)).
Context (crc32c : bytes -> N).
Context (deserialize_serialize : forall es p, serialize es = Some p -> deserialize p = Some es).
Context (crc_bound : forall p, crc32c p < u32_modulus).
Context (serialize_prefix : forall es p k, serialize es = Some p ->
  exists p', serialize (take k es) = Some p' /\ (length p' <= length p)%nat).
Context (serialize_fits : forall es, SegmentLog.fits serialize es).
Context {T Q S : Type} `{TransportSender T} `{QuorumStateStore QuorumState Q} `{SnapshotIO S}.

Import Replication SegmentLog.

#[local] Instance disk_LogStore : LogStore SegmentLog := segment_LogStore serialize deserialize crc32c.
#[local] Instance disk_LogStoreLaws : LogStoreLaws SegmentLog :=
  segment_LogStoreLaws serialize deserialize crc32c deserialize_serialize crc_bound serialize_prefix serialize_fits.

Abbreviation RWorld := (World LG SM LI SC CK).
Abbreviation Stage := (TryJoined.IoStage (L := SegmentLog) (T := T) (Q := Q) (S := S)).

Abbreviation handle := (handle_message as_app_record deserialize_voters mgr).
Abbreviation disk_of st := (TryJoined.log_store st).

(** C16: The log on disk is the log in memory.  A follower whose handler,
    I/O stage and segmented log start with the same log serves any messages,
    with the batch of each executed before the next, and goes on after errors of
    the handler.  As long as it has not stopped, which it does when the state
    machine refuses a command or a batch fails, and every voters record it has
    committed decodes, what a restart reads from the segment files, in whatever order the
    directory lists them, is the whole log the follower has in memory; and a
    crash while the next append has written any part of its bytes leaves the
    log without or with all the appended entries. *)
Theorem follower_log_on_disk (envs : list RpcEnvelope) (w w' : RWorld) (st st' : Stage) :
  only_sends (SC := SC) -> winv w -> al_end (wlog w) + total_entries envs <= u64_max ->
  log_inv serialize crc32c (disk_of st) -> log_abs deserialize crc32c (disk_of st) = wlog w ->
  serve_stored as_app_record deserialize_voters mgr envs w st = (w', st', false) ->
  records_decode deserialize_voters w' ->
  let reopen dir := open_with_limit deserialize crc32c dir (start_file (disk_of st')) (segment_size_limit (disk_of st')) in
  (forall dir, dir ≡ₚ files (segments (disk_of st')) ->
     read deserialize crc32c (al_start (wlog w')) (al_end (wlog w')) (reopen dir) = Ok (al_entries (wlog w'))) /\
  (forall env w2 res es rest k, ReplicationClaims.fits env w' -> handle env w' = (w2, Ok res) ->
     io_batch res = AppendLog es :: rest -> is_Some (serialize es) -> es <> [] ->
     let recovered := log_abs deserialize crc32c (crash_append serialize deserialize crc32c es k (disk_of st')) in
     recovered = wlog w' \/ recovered = al_append es (wlog w')).
Proof.
  intros Hso Hi Hb Hinv Habs Hs Hd reopen.
  destruct (serve_stored_mirrors as_app_record deserialize_voters mgr Hso envs w st w' st')
    as [Hi' [Hinv' Habs']]; [done|done|by split|done|done|]. cbn in Hinv', Habs'.
  pose proof (seg_op_abs serialize deserialize crc32c deserialize_serialize crc_bound serialize_prefix
    (disk_of st')) as Hop. split.
  - intros dir Hdir. destruct (Hop (SReopen dir) Hinv' Hdir) as [Hr Ha]. cbn in Hr, Ha. fold (reopen dir) in Hr, Ha.
    etrans; [exact (ls_read_abs (reopen dir) _ _ Hr)|].
    change (ls_abs (reopen dir)) with (log_abs deserialize crc32c (reopen dir)).
    rewrite Ha, Habs'. f_equal. apply al_read_all. apply Hi'.
  - intros env w2 res es rest k Hf Hh Hbatch [p Hp] Hne recovered.
    pose proof (wp_run _ _ _ _ _ (wp_handle_asks as_app_record deserialize_voters mgr Hso env w' Hi' Hf) Hh) as Hask.
    cbn in Hask. rewrite Hbatch in Hask. destruct Hask as (Hc & Hle & _).
    destruct (al_append_wf _ _ (wi_wf _ Hi') Hc) as [_ Hend].
    destruct (Hop (SCrashAppend es k) Hinv') as [_ Ha].
    { split; [|done]. rewrite Habs'. unfold append_fits. rewrite Hc, Hp.
      pose proof (serialize_fits es p Hp). rewrite Hend in Hle. cbn [andb]. lia. }
    cbn in Ha. unfold recovered. rewrite Ha, Habs'. destruct (whole_batch _ _ _ _); auto.
Qed.
End SegmentFollower.

(** ** A follower on segment files *)

Module FollowerDiskDemo.

Import Mocks Replication FollowerDemo SegmentLog.

(** Short batches of the demonstration encoding of [Segment]. *)
Definition short_ser (es : list LogEntry) : option bytes :=
  if (length es <=? 100)%nat then Segment.demo_ser es else None.

Lemma short_de_ser (es : list LogEntry) (p : bytes) : short_ser es = Some p -> Segment.demo_de p = Some es.
Proof. unfold short_ser. destruct (_ <=? _)%nat; [apply Segment.demo_de_ser|done]. Qed.

Lemma demo_ser_length (es : list LogEntry) (p : bytes) :
  Segment.demo_ser es = Some p -> length p = (2 * length es)%nat.
Proof.
  revert p. induction es as [|[o t ty pl] es IH]; intros p; cbn; [by intros [= <-]|].
  destruct ty, pl; try done. destruct (Segment.demo_ser es) as [q|]; [|done].
  destruct (_ && _); [|done]. intros [= <-]. cbn. rewrite (IH q eq_refl). lia.
Qed.

Lemma short_ser_fits (es : list LogEntry) : SegmentLog.fits short_ser es.
Proof.
  intros p. unfold short_ser. destruct (length es <=? 100)%nat eqn:E; [|done].
  intros ->%demo_ser_length. unfold u32_modulus. lia.
Qed.

Lemma short_ser_prefix (es : list LogEntry) (p : bytes) (k : nat) :
  short_ser es = Some p -> exists p', short_ser (take k es) = Some p' /\ (length p' <= length p)%nat.
Proof.
  unfold short_ser. destruct (length es <=? 100)%nat eqn:E; [|done]. intros Hp.
  rewrite (proj2 (Nat.leb_le (length (take k es)) 100)) by (rewrite length_take; lia).
  by apply Segment.demo_ser_prefix.
Qed.

Abbreviation DiskStage := (TryJoined.IoStage (L := SegmentLog) (T := MockTransportSender)
  (Q := MockQuorumStateStore QuorumState) (S := MockSnapshotIO)).

(** Two entries in segments of about one batch. *)
Definition disk_log : SegmentLog :=
  (append short_ser Segment.demo_de Segment.demo_crc [cmd 0; cmd 1]
     (open_with_limit Segment.demo_de Segment.demo_crc [] None 14)).1.
Definition disk_stage : DiskStage := TryJoined.mkStage disk_log sender_new quorum_new snapshot_new.

Lemma disk_log_inv :
  log_inv short_ser Segment.demo_crc disk_log /\
  log_abs Segment.demo_de Segment.demo_crc disk_log = wlog follower.
Proof.
  destruct (open_empty_ok short_ser Segment.demo_de Segment.demo_crc 14) as [Hl Ha]; [done|].
  destruct (seg_op_abs short_ser Segment.demo_de Segment.demo_crc short_de_ser Segment.demo_crc_bound
    short_ser_prefix (open_with_limit Segment.demo_de Segment.demo_crc [] None 14) (SAppend [cmd 0; cmd 1]))
    as [H1 H2]; [by eexists|rewrite Ha; by vm_compute|].
  split; [exact H1|]. etrans; [exact H2|]. rewrite Ha. by vm_compute.
Qed.

(** An append, a divergence that undoes a commit and is refused, one that is
    followed, and the entry behind it again. *)
Definition demo_msgs : list RpcEnvelope :=
  [append_msg; from_leader diverge;
   from_leader (mkFetchResponse 1 1 0 0 [] (Some (mkDivergingEpoch 1 3)) None);
   from_leader (mkFetchResponse 1 1 4 0 [cmd 3] None None)].

Abbreviation served := (serve_stored (H := segment_LogStore short_ser Segment.demo_de Segment.demo_crc)
  record_of no_voters mgr demo_msgs follower disk_stage).
Definition disk_after : SegmentLog := TryJoined.log_store served.1.2.

Lemma served_committed : committed served.1.1 = [cmd 0; cmd 1; cmd 2; cmd 3].
Proof. vm_compute. reflexivity. Qed.

Lemma served_decode : records_decode no_voters served.1.1.
Proof.
  unfold records_decode. rewrite served_committed.
  repeat (apply Forall_cons; split; [by intros [[=] _]|]). apply Forall_nil_2.
Qed.

Lemma follower_log_on_disk_witness :
  read Segment.demo_de Segment.demo_crc 0 4
    (open_with_limit Segment.demo_de Segment.demo_crc (rev (files (segments disk_after)))
       (start_file disk_after) (segment_size_limit disk_after))
  = Ok [cmd 0; cmd 1; cmd 2; cmd 3].
Proof.
  destruct disk_log_inv as [Hinv Habs].
  destruct (follower_log_on_disk record_of no_voters mgr short_ser Segment.demo_de Segment.demo_crc
    short_de_ser Segment.demo_crc_bound short_ser_prefix short_ser_fits
    demo_msgs follower served.1.1 disk_stage served.1.2) as [Hread _];
    [apply default_only_sends|apply follower_winv|by vm_compute|exact Hinv|exact Habs|by vm_compute|exact served_decode|].
  etrans; [|etrans; [apply (Hread (rev (files (segments disk_after))))|by vm_compute]].
  - by vm_compute.
  - symmetry. apply Permutation_rev.
Defined.

(** A committed record that does not deserialize makes the handler fail after it
    has appended the entries in memory, so no batch writes them: the next fetch
    asks for what follows entries that are nowhere on disk. *)
Lemma failed_commit_loses_append :
  let '(w', r) := run malformed follower in
  is_ok r = false /\ al_end (wlog w') = 4 /\ al_end (log_abs Segment.demo_de Segment.demo_crc disk_log) = 2 /\
  exists leader env req, build_fetch_request mgr (state w') = Some (leader, env) /\
    env_payload env = PFetchRequest req /\ fetch_offset req = 4.
Proof. vm_compute. repeat split. eexists _, _, _. repeat split. Qed.

End FollowerDiskDemo.
