(* ===== verification/TestScripts.v ===== *)
(** * Scripts for transcribed unit tests

    A unit test of the repository is a script over the objects it creates: a
    computation in the state-and-error monad whose state is those objects.  An
    operation runs on the part of the state it changes and hands its outcome
    over as a value; an assertion that does not hold, or an [unwrap] of an
    error, ends the script. *)

From stdpp Require Import base list numbers option strings.
From S2P Require Import Prelude Types.

Section Scripts.
Context {S : Type}.

Abbreviation Script := (SE S XraftError).

Definition assertion_failed : XraftError := InvalidResponse "assertion failed"%string.

Definition assert (b : bool) : Script unit := if b then se_ret tt else se_throw assertion_failed.
Definition check (f : S -> bool) : Script unit := b <- se_get f ;; assert b.

(** [unwrap] and [expect]. *)
Definition expect {A E} (r : result A E) : Script A :=
  match r with Ok a => se_ret a | Err _ => se_throw assertion_failed end.
Definition expect_some {A} (o : option A) : Script A :=
  match o with Some a => se_ret a | None => se_throw assertion_failed end.

(** A fallible operation on the state, its outcome as a value. *)
Definition call {A E} (m : SE S E A) : Script (result A E) := fun s => let '(s', r) := m s in (s', Ok r).
(** [op(..).unwrap()] *)
Definition call_ok {A E} (m : SE S E A) : Script A := r <- call m ;; expect r.

Definition passes (s : S) (script : Script unit) : bool := is_ok (script s).2.
End Scripts.
