(* ===== verification/ReplicationTests.v ===== *)
(** * The unit tests of [replication.rs]

    The test module of the file, transcribed: its test doubles, its builders,
    and each test as an executable script over the model.  A script runs on
    everything [handle_fetch_response] may change; an assertion that does not
    hold ends it with an error.  That all tests pass, for every fresh node
    state, cluster identifier and encoding, checks the model against what the
    authors of the code expect of it.

    [Instant::now()] is one fixed reading; the clock of the tests does not
    move.  [NodeState::new], [LogEntry::voters_record], [LogEntry::as_app_record]
    and [bincode] are parameters.  Where a test looks into the text of an error
    the script looks at its variant, and at the offset an error carries. *)

From Stdlib Require Import NArith ZifyBool ZifyN ZifyNat Lia.
From stdpp Require Import base gmap numbers option strings pretty list.
From S2P Require Import Prelude Types NodeState Interfaces BTree DeferredCompletion.
From S2P Require Import Replication ReplicationProps ReplicationClaims FollowerLoop TestScripts.

Module ReplicationTests.

Import Replication FollowerLoop FollowerDemo.

(** ** Test doubles *)

Record TestStateMachine := mkTestSm {
  applied : list (N * AppRecord);
  fail_at_offset : option N;
}.
Definition sm_new : TestStateMachine := mkTestSm [] None.
Definition failing_at (off : N) : TestStateMachine := mkTestSm [] (Some off).

#[global] Instance unit_StateMachine : StateMachine TestStateMachine := {|
  sm_apply off record sm :=
    if bool_decide (fail_at_offset sm = Some off) then (sm, Err (StateMachineApplyError off))
    else (mkTestSm (applied sm ++ [(off, record)]) (fail_at_offset sm), Ok tt);
  sm_restore _ := se_ret tt;
|}.

Record TestListener := mkTestListener {
  committed : list (list (N * AppRecord));
  shutdown_called : bool;
  leader_changes : list (NodeId * Term);
}.
Definition new_listener : TestListener := mkTestListener [] false [].

#[global] Instance unit_Listener : Listener TestListener := {|
  li_handle_commit batch l :=
    mkTestListener (committed l ++ [batch]) (shutdown_called l) (leader_changes l);
  li_handle_load_snapshot _ _ l := l;
  li_handle_leader_change leader t l :=
    mkTestListener (committed l) (shutdown_called l) (leader_changes l ++ [(leader, t)]);
  li_begin_shutdown l := mkTestListener (committed l) true (leader_changes l);
|}.

Record TestSnapshotCoordinator := mkTestSc {
  transfers_started : list SnapshotId;
  sc_in_progress : bool;
}.
Definition sc_new : TestSnapshotCoordinator := mkTestSc [] false.

#[global] Instance unit_SnapshotCoordinator : SnapshotCoordinator TestSnapshotCoordinator := {|
  sc_begin_snapshot_transfer leader sid s c :=
    let request := {| fsr_snapshot_id := sid; fsr_position := 0; fsr_max_bytes := 1024 * 1024 |} in
    let envelope := {| env_cluster_id := cluster_id s; env_leader_epoch := current_term s;
                       env_source := node_id s; env_payload := PFetchSnapshotRequest request |} in
    (mkTestSc (transfers_started c ++ [sid]) true, batch_push [] (SendRpc leader envelope));
  sc_is_transfer_in_progress := sc_in_progress;
|}.

Record TestClock := mkTestClock { instant : Instant; election_timeout : Duration }.

#[global] Instance unit_Clock : Clock TestClock := {|
  clk_now c := (c, instant c);
  clk_random_election_timeout c := (c, election_timeout c);
  clk_sleep_until _ c := c;
|}.

(** [Instant::now()] and [Duration::from_secs], in milliseconds. *)
Definition Instant_now : Instant := 1000000.
Definition from_secs (n : N) : Duration := n * 1000.

Definition clock_at (t : Instant) : TestClock := mkTestClock t 200.
Definition new_clock : TestClock := clock_at Instant_now.

(** ** Builders *)

Definition make_entry (off : N) (t : Term) : LogEntry :=
  mkLogEntry off t Command (String.list_byte_of_string ("data-" +:+ pretty off)%string).
Definition make_entries (start end_ : N) (t : Term) : list LogEntry :=
  map (fun k => make_entry (start + N.of_nat k) t) (seq 0 (N.to_nat (end_ - start))).
Definition make_fetch_response (entries : list LogEntry) (hw : N) : FetchResponse :=
  {| fr_leader_id := 1; fr_leader_epoch := 1; fr_high_watermark := hw; fr_log_start_offset := 0;
     fr_entries := entries; fr_diverging_epoch := None; fr_snapshot_id := None |}.

Section Tests.
Context (as_app_record : LogEntry -> AppRecord).
Context (deserialize_voters : bytes -> Result VotersRecord).
Context (serialize_voters : VotersRecord -> bytes).
(** [NodeState::new] for the two identifiers the tests use. *)
Context (state1 state2 : FollowerState (list LogEntry)).

Abbreviation TWorld :=
  (World (list LogEntry) TestStateMachine TestListener TestSnapshotCoordinator TestClock).
Abbreviation Script := (SE TWorld XraftError).

Definition node_state_new (id : NodeId) : FollowerState (list LogEntry) :=
  if id =? 1 then state1 else state2.
(** [LogEntry::voters_record]. *)
Definition voters_record (off : N) (t : Term) (r : VotersRecord) : LogEntry :=
  mkLogEntry off t VotersRecordEntry (serialize_voters r).

Definition make_follower_state (id leader : N) : FollowerState (list LogEntry) :=
  let st := node_state_new id in
  set_base ((base st) <| role := Follower |> <| leader_id := Some leader |> <| current_term := 1 |>) st.

(** ** Scripts *)

Definition config : RaftConfig := default_inner.
Definition test_mgr : ReplicationManager := manager_new config.
Definition event_loop : FollowerEventLoop := loop_new config.

(** The objects a test creates before it starts. *)
Definition world (st : FollowerState (list LogEntry)) (sm : TestStateMachine) : TWorld :=
  mkWorld _ _ _ _ _ st sm new_listener dcq_new [] [] sc_new new_clock.
Definition follower : TWorld := world (make_follower_state 2 1) sm_new.

(** [mgr.handle_fetch_response(..., clock)], with its outcome as a value. *)
Definition respond (c : TestClock) (response : FetchResponse) : Script (Result FetchResponseResult) :=
  se_modify (set_clock c) ;;;
  call (handle_fetch_response as_app_record deserialize_voters test_mgr response).
Definition poll (now : Instant) : Script (option IoActionBatch) :=
  fun w => let '(st, b) := poll_fetch test_mgr now (state w) in (set_state st w, Ok b).
Definition fetch_tick (now : Instant) : Script IoActionBatch :=
  fun w => let '(st, b) := on_fetch_tick test_mgr now (state w) in (set_state st w, Ok b).
Definition loop_run_tick (c : TestClock) : Script IoActionBatch :=
  fun w => let '(st, c', b) := run_tick event_loop (state w) c in (set_state st w, Ok b).
Definition loop_respond (c : TestClock) (response : FetchResponse) : Script (Result FetchResponseResult) :=
  se_modify (set_clock c) ;;;
  call (handle_response as_app_record deserialize_voters event_loop response).

Definition append_local (entries : list LogEntry) : Script unit :=
  upd_state (fun st => set_log (iml_append_entries entries (log st, log_end_offset (base st))) st).
Definition set_deadline (d : Instant) : Script unit := upd_state (set_fetch_deadline d).
Definition park_completion (off : N) (future : N) : Script unit :=
  se_modify (fun w => set_queue (park off future (completion_queue w)) (resolved w) (failed w) w).

(** [rx.try_recv()]: what has been sent on the channel. *)
Definition try_recv (future : N) (w : TWorld) : option N :=
  snd <$> List.find (fun p => p.1 =? future) (resolved w).

Definition log_end_is (n : N) (w : TWorld) : bool := log_end_offset (base (state w)) =? n.
Definition log_len_is (n : nat) (w : TWorld) : bool := (length (log (state w)) =? n)%nat.
Definition hw_is (n : N) (w : TWorld) : bool := high_watermark (base (state w)) =? n.
Definition applied_len (n : nat) (w : TWorld) : bool := (length (applied (state_machine w)) =? n)%nat.
Definition applied_at (i : nat) (off : N) (w : TWorld) : bool :=
  bool_decide (fst <$> applied (state_machine w) !! i = Some off).
(** The sizes of the batches the listener got. *)
Definition batch_sizes (ns : list nat) (w : TWorld) : bool :=
  bool_decide (map (@length _) (committed (listener w)) = ns).
Definition queue_len_is (n : nat) (w : TWorld) : bool := (dcq_len (completion_queue w) =? n)%nat.

Definition is_append (a : IoAction) : bool := match a with AppendLog _ => true | _ => false end.
Definition is_send (a : IoAction) : bool := match a with SendRpc _ _ => true | _ => false end.
Definition is_truncate (n : N) (a : IoAction) : bool :=
  match a with TruncateSuffix m => m =? n | _ => false end.
Definition is_persist (f : QuorumState -> bool) (a : IoAction) : bool :=
  match a with PersistQuorumState qs => f qs | _ => false end.
Definition is_fetch_at (off : N) (a : IoAction) : bool :=
  match a with
  | SendRpc _ env => match env_payload env with PFetchRequest req => fetch_offset req =? off | _ => false end
  | _ => false
  end.
Definition batch_is_empty (b : IoActionBatch) : bool := (length b =? 0)%nat.
Definition invalid_response {A} (r : Result A) : bool :=
  match r with Err (InvalidResponse _) => true | _ => false end.

(** ** Appending and committing *)

Definition test_normal_replication : bool := passes follower (
  check (log_end_is 0) ;;;
  r <- respond new_clock (make_fetch_response (make_entries 0 10 1) 10) ;;
  result <- expect r ;;
  check (log_end_is 10) ;;; check (log_len_is 10) ;;; check (hw_is 10) ;;;
  assert (negb (snapshot_transfer_initiated result)) ;;;
  check (applied_len 10) ;;;
  check (batch_sizes [10%nat]) ;;;
  assert (negb (batch_is_empty (io_batch result))) ;;;
  assert (existsb is_append (io_batch result))).

Definition test_incremental_fetch : bool := passes follower (
  append_local (make_entries 0 5 1) ;;;
  upd (fun s => s <| high_watermark := 5 |>) ;;;
  check (log_end_is 5) ;;;
  request <- se_get (fun w => build_fetch_request test_mgr (state w)) ;;
  assert (match request with
          | Some (leader, env) => (leader =? 1) && is_fetch_at 5 (SendRpc leader env)
          | None => false
          end) ;;;
  r <- respond new_clock (make_fetch_response (make_entries 5 10 1) 10) ;;
  expect r ;;;
  check (log_end_is 10) ;;; check (log_len_is 10) ;;; check (hw_is 10) ;;;
  check (applied_len 5) ;;; check (applied_at 0 5) ;;; check (applied_at 4 9)).

Definition test_election_timer_reset_on_empty_response : bool := passes follower (
  let old_deadline := Instant_now - from_secs 10 in
  upd (fun s => s <| election_deadline := old_deadline |>) ;;;
  let current := Instant_now in
  r <- respond (clock_at current) (make_fetch_response [] 0) ;;
  expect r ;;;
  check (fun w => old_deadline <? election_deadline (base (state w))) ;;;
  check (fun w => current + election_timeout_min_ms config <=? election_deadline (base (state w))) ;;;
  check (log_end_is 0) ;;; check (applied_len 0) ;;; check (batch_sizes [])).

Definition test_fetch_deadline_updated_on_response : bool := passes follower (
  let current := Instant_now + from_secs 1 in
  r <- respond (clock_at current) (make_fetch_response [] 0) ;;
  expect r ;;;
  check (fun w => fetch_deadline (state w) =? current + fetch_interval_ms config)).

Definition test_on_fetch_tick_updates_deadline : bool := passes follower (
  let current := Instant_now in
  fetch_tick current ;;;
  check (fun w => fetch_deadline (state w) =? current + fetch_interval_ms config)).

(** ** Divergence *)

Definition diverging (hw : N) (end_offset : N) : FetchResponse :=
  {| fr_leader_id := 1; fr_leader_epoch := 2; fr_high_watermark := hw; fr_log_start_offset := 0;
     fr_entries := []; fr_diverging_epoch := Some (mkDivergingEpoch 2 end_offset);
     fr_snapshot_id := None |}.

(** The oneshot channel for offset [n] is the future [n]. *)
Definition test_divergence_truncation : bool := passes follower (
  append_local (make_entries 0 8 1) ;;;
  upd (fun s => s <| high_watermark := 5 |>) ;;;
  upd (fun s => s <| current_term := 2 |>) ;;;
  check (log_end_is 8) ;;;
  park_completion 5 5 ;;; park_completion 6 6 ;;; park_completion 7 7 ;;;
  r <- respond new_clock (diverging 5 5) ;;
  result <- expect r ;;
  check (log_end_is 5) ;;; check (log_len_is 5) ;;; check (hw_is 5) ;;;
  check (fun w => bool_decide (try_recv 5 w = None)) ;;;
  check (fun w => bool_decide (try_recv 6 w = None)) ;;;
  check (fun w => bool_decide (try_recv 7 w = None)) ;;;
  check (queue_len_is 0) ;;;
  assert (existsb (is_truncate 5) (io_batch result)) ;;;
  assert (existsb is_send (io_batch result)) ;;;
  check (applied_len 0)).

Definition test_divergence_truncation_clears_state_and_fails_completions : bool := passes follower (
  append_local (make_entries 0 8 1) ;;;
  upd (fun s => s <| high_watermark := 5 |>) ;;;
  upd (fun s => s <| current_term := 2 |>) ;;;
  upd (fun s => s <| pending_membership_change := Some (mkPending 6 []) |>) ;;;
  upd_state (fun st => set_checkpoint (<[1 := 0]> (leader_epoch_checkpoint st)) st) ;;;
  upd_state (fun st => set_checkpoint (<[2 := 6]> (leader_epoch_checkpoint st)) st) ;;;
  park_completion 5 5 ;;; park_completion 6 6 ;;;
  r <- respond new_clock (diverging 5 5) ;;
  expect r ;;;
  check (log_end_is 5) ;;; check (hw_is 5) ;;;
  check (fun w => match pending_membership_change (base (state w)) with None => true | _ => false end) ;;;
  check (fun w => (size (leader_epoch_checkpoint (state w)) =? 1)%nat) ;;;
  check (fun w => bool_decide (is_Some (leader_epoch_checkpoint (state w) !! (1 : Term)))) ;;;
  check (fun w => negb (bool_decide (is_Some (leader_epoch_checkpoint (state w) !! (2 : Term))))) ;;;
  check (fun w => bool_decide (try_recv 5 w = None)) ;;;
  check (fun w => bool_decide (try_recv 6 w = None)) ;;;
  check (queue_len_is 0)).

Definition test_divergence_below_hw_is_safety_violation : bool := passes follower (
  append_local (make_entries 0 8 1) ;;;
  upd (fun s => s <| high_watermark := 7 |>) ;;;
  upd (fun s => s <| current_term := 2 |>) ;;;
  r <- respond new_clock (diverging 5 5) ;;
  assert (invalid_response r) ;;;
  check (log_end_is 8) ;;; check (hw_is 7)).

Definition test_divergence_end_offset_beyond_log_clamped : bool := passes follower (
  upd (fun s => s <| current_term := 2 |>) ;;;
  append_local (make_entries 0 5 1) ;;;
  upd (fun s => s <| high_watermark := 3 |>) ;;;
  r <- respond new_clock (diverging 3 10) ;;
  result <- expect r ;;
  check (log_end_is 5) ;;; check (log_len_is 5) ;;; check (hw_is 3) ;;;
  assert (existsb (is_fetch_at 5) (io_batch result)) ;;;
  assert (existsb (is_truncate 5) (io_batch result))).

(** ** When to fetch *)

Definition set_fetcher (r : Role) (leader : option NodeId) : Script unit :=
  upd (fun s => s <| role := r |> <| leader_id := leader |>).

Definition test_no_fetch_without_leader : bool := passes (world (node_state_new 2) sm_new) (
  set_fetcher Follower None ;;;
  check (fun w => bool_decide (build_fetch_request test_mgr (state w) = None)) ;;;
  batch <- fetch_tick Instant_now ;;
  assert (batch_is_empty batch)).

Definition test_no_fetch_from_non_follower : bool := passes (world (node_state_new 1) sm_new) (
  set_fetcher Leader (Some 1) ;;;
  check (fun w => bool_decide (build_fetch_request test_mgr (state w) = None))).

Definition test_poll_fetch_fires_when_deadline_elapsed : bool := passes follower (
  set_deadline (Instant_now - from_secs 1) ;;;
  let current := Instant_now in
  result <- poll current ;;
  assert (match result with Some batch => negb (batch_is_empty batch) | None => false end) ;;;
  check (fun w => fetch_deadline (state w) =? current + fetch_interval_ms config)).

Definition test_poll_fetch_does_not_fire_before_deadline : bool := passes follower (
  set_deadline (Instant_now + from_secs 10) ;;;
  result <- poll Instant_now ;;
  assert (bool_decide (result = None))).

Definition test_poll_fetch_skipped_for_non_follower : bool := passes follower (
  upd (fun s => s <| role := Candidate |>) ;;;
  set_deadline (Instant_now - from_secs 1) ;;;
  result <- poll Instant_now ;;
  assert (bool_decide (result = None))).

Definition test_time_until_fetch : bool := passes follower (
  let now := Instant_now in
  set_deadline (now + 100) ;;;
  check (fun w => time_until_fetch (state w) now <=? 100) ;;;
  check (fun w => 0 <? time_until_fetch (state w) now) ;;;
  set_deadline (now - from_secs 1) ;;;
  check (fun w => time_until_fetch (state w) now =? 0)).

(** ** Snapshots *)

Definition snapshot_response : FetchResponse :=
  {| fr_leader_id := 1; fr_leader_epoch := 1; fr_high_watermark := 100; fr_log_start_offset := 50;
     fr_entries := []; fr_diverging_epoch := None; fr_snapshot_id := Some (mkSnapshotId 50 1) |}.

Definition test_snapshot_id_delegates_to_coordinator : bool := passes follower (
  r <- respond new_clock snapshot_response ;;
  result <- expect r ;;
  assert (snapshot_transfer_initiated result) ;;;
  check (fun w => match transfers_started (snapshot_coordinator w) with
                  | [sid] => (sid_end_offset sid =? 50) && (sid_epoch sid =? 1)
                  | _ => false
                  end) ;;;
  check (fun w => sc_is_transfer_in_progress (snapshot_coordinator w)) ;;;
  assert (existsb is_send (io_batch result))).

(** ** Commit notification *)

Definition three_voters : VotersRecord :=
  {| vr_version := 1;
     vr_voters := [mkVoterInfo 1 "127.0.0.1:5001"; mkVoterInfo 2 "127.0.0.1:5002";
                   mkVoterInfo 3 "127.0.0.1:5003"] |}.

Definition test_commit_processes_control_records_internally : bool := passes follower (
  let entries := [make_entry 0 1; leader_change_entry 1 1; make_entry 2 1;
                  voters_record 3 1 three_voters] in
  r <- respond new_clock (make_fetch_response entries 4) ;;
  expect r ;;;
  check (applied_len 2) ;;; check (applied_at 0 0) ;;; check (applied_at 1 2) ;;;
  check (batch_sizes [2%nat]) ;;;
  check (fun w => bool_decide (map voter_id (voter_set (base (state w))) = [1; 2; 3]))).

Definition test_hw_capped_at_local_log_end : bool := passes follower (
  let response := {| fr_leader_id := 1; fr_leader_epoch := 1; fr_high_watermark := 100;
                     fr_log_start_offset := 0; fr_entries := make_entries 0 5 1;
                     fr_diverging_epoch := None; fr_snapshot_id := None |} in
  r <- respond new_clock response ;;
  expect r ;;;
  check (hw_is 5) ;;; check (log_end_is 5)).

Definition test_deferred_completions_fire : bool := passes follower (
  park_completion 0 0 ;;; park_completion 1 1 ;;; park_completion 2 2 ;;;
  r <- respond new_clock (make_fetch_response (make_entries 0 3 1) 2) ;;
  expect r ;;;
  check (fun w => bool_decide (try_recv 0 w = Some 0)) ;;;
  check (fun w => bool_decide (try_recv 1 w = Some 1)) ;;;
  check (fun w => bool_decide (try_recv 2 w = None)) ;;;
  check (queue_len_is 1)).

Definition test_state_machine_apply_error_halts : bool :=
  passes (world (make_follower_state 2 1) (failing_at 2)) (
  r <- respond new_clock (make_fetch_response (make_entries 0 5 1) 5) ;;
  assert (match r with Err (StateMachineApplyError off) => off =? 2 | _ => false end) ;;;
  check (fun w => shutdown_called (listener w)) ;;;
  check (applied_len 2) ;;; check (applied_at 0 0) ;;; check (applied_at 1 1)).

Definition test_append_log_io_action_after_callbacks : bool := passes follower (
  r <- respond new_clock (make_fetch_response (make_entries 0 3 1) 3) ;;
  result <- expect r ;;
  check (applied_len 3) ;;;
  check (fun w => (length (committed (listener w)) =? 1)%nat) ;;;
  assert (existsb is_append (io_batch result))).

Definition test_leader_change_message_updates_epoch_checkpoint : bool := passes follower (
  let entries := [make_entry 0 1; leader_change_entry 1 1; make_entry 2 1; leader_change_entry 3 2] in
  upd (fun s => s <| current_term := 2 |>) ;;;
  let response := {| fr_leader_id := 1; fr_leader_epoch := 2; fr_high_watermark := 4;
                     fr_log_start_offset := 0; fr_entries := entries;
                     fr_diverging_epoch := None; fr_snapshot_id := None |} in
  r <- respond new_clock response ;;
  expect r ;;;
  check (fun w => (size (leader_epoch_checkpoint (state w)) =? 2)%nat) ;;;
  check (fun w => bool_decide (leader_epoch_checkpoint (state w) !! (1 : Term) = Some 1)) ;;;
  check (fun w => bool_decide (leader_epoch_checkpoint (state w) !! (2 : Term) = Some 3))).

(** The payload that is not an encoded record. *)
Definition garbage : bytes := String.list_byte_of_string "not-valid-bincode".

Definition test_voters_record_deserialization_error_surfaces : bool := passes follower (
  let bad_voters_entry := mkLogEntry 0 1 VotersRecordEntry garbage in
  r <- respond new_clock (make_fetch_response [bad_voters_entry] 1) ;;
  assert (invalid_response r)).

Definition test_handle_commit_called_for_control_records_only : bool := passes follower (
  r <- respond new_clock (make_fetch_response [leader_change_entry 0 1; leader_change_entry 1 1] 2) ;;
  expect r ;;;
  check (applied_len 0) ;;;
  check (batch_sizes [0%nat])).

(** ** Rejected responses *)

(** An empty response of a leader in a term. *)
Definition empty_response (leader : NodeId) (epoch : Term) : FetchResponse :=
  {| fr_leader_id := leader; fr_leader_epoch := epoch; fr_high_watermark := 0;
     fr_log_start_offset := 0; fr_entries := []; fr_diverging_epoch := None; fr_snapshot_id := None |}.

Definition test_stale_term_rejected : bool := passes follower (
  upd (fun s => s <| current_term := 5 |>) ;;;
  r <- respond new_clock (empty_response 1 3) ;;
  assert (invalid_response r)).

Definition test_wrong_leader_rejected : bool := passes follower (
  r <- respond new_clock (empty_response 3 1) ;;
  assert (invalid_response r)).

Definition test_invalid_entry_offset_returns_error : bool := passes follower (
  r <- respond new_clock (make_fetch_response (make_entries 5 8 1) 8) ;;
  assert (invalid_response r) ;;;
  check (log_end_is 0)).

Definition test_non_contiguous_entries_returns_error : bool := passes follower (
  r <- respond new_clock (make_fetch_response [make_entry 0 1; make_entry 2 1] 3) ;;
  assert (invalid_response r)).

Definition test_mutually_exclusive_snapshot_and_divergence_rejected : bool := passes follower (
  let response := {| fr_leader_id := 1; fr_leader_epoch := 1; fr_high_watermark := 0;
                     fr_log_start_offset := 0; fr_entries := [];
                     fr_diverging_epoch := Some (mkDivergingEpoch 1 0);
                     fr_snapshot_id := Some (mkSnapshotId 0 1) |} in
  r <- respond new_clock response ;;
  assert (invalid_response r)).

Definition test_stale_response_after_role_change_to_candidate : bool := passes follower (
  upd (fun s => s <| current_term := 3 |>) ;;;
  upd (fun s => s <| role := Candidate |> <| leader_id := None |>) ;;;
  upd (fun s => s <| votes_received := {[ 2 ]} ∪ votes_received s |>) ;;;
  r <- respond new_clock (empty_response 1 3) ;;
  assert (invalid_response r) ;;;
  check (fun w => role_eqb (role (base (state w))) Candidate)).

Definition test_stale_response_after_role_change_to_leader : bool := passes follower (
  upd (fun s => s <| current_term := 5 |>) ;;;
  upd (fun s => s <| role := Leader |> <| leader_id := Some 2 |>) ;;;
  r <- respond new_clock (empty_response 1 5) ;;
  assert (negb (is_ok r)) ;;;
  check (fun w => role_eqb (role (base (state w))) Leader)).

(** ** Terms and leaders *)

Definition test_higher_leader_epoch_updates_term_and_persists : bool := passes follower (
  upd (fun s => s <| current_term := 1 |>) ;;;
  r <- respond new_clock (empty_response 1 3) ;;
  result <- expect r ;;
  check (fun w => current_term (base (state w)) =? 3) ;;;
  check (fun w => bool_decide (voted_for (base (state w)) = None)) ;;;
  check (fun w => bool_decide (leader_id (base (state w)) = Some 1)) ;;;
  check (fun w => role_eqb (role (base (state w))) Follower) ;;;
  assert (existsb (is_persist (fun qs => qs_current_term qs =? 3)) (io_batch result))).

Definition test_candidate_steps_down_on_higher_epoch : bool :=
  passes (world (node_state_new 2) sm_new) (
  upd (fun s => s <| role := Candidate |> <| current_term := 2 |> <| leader_id := None |>) ;;;
  upd (fun s => s <| votes_received := {[ 2 ]} ∪ votes_received s |>) ;;;
  r <- respond new_clock (empty_response 1 5) ;;
  result <- expect r ;;
  check (fun w => role_eqb (role (base (state w))) Follower) ;;;
  check (fun w => current_term (base (state w)) =? 5) ;;;
  check (fun w => bool_decide (leader_id (base (state w)) = Some 1)) ;;;
  check (fun w => bool_decide (votes_received (base (state w)) = ∅)) ;;;
  assert (existsb (is_persist (fun _ => true)) (io_batch result))).

Definition test_same_term_leader_discovery_persists_quorum_state : bool :=
  passes (world (node_state_new 2) sm_new) (
  upd (fun s => s <| role := Follower |> <| current_term := 3 |> <| leader_id := None |>) ;;;
  r <- respond new_clock (empty_response 1 3) ;;
  result <- expect r ;;
  check (fun w => bool_decide (leader_id (base (state w)) = Some 1)) ;;;
  assert (existsb (is_persist (fun qs => (qs_current_term qs =? 3)
                                          && bool_decide (qs_leader_id qs = Some 1))) (io_batch result))).

Definition test_persist_quorum_state_after_callbacks_on_term_bump : bool := passes follower (
  upd (fun s => s <| current_term := 1 |>) ;;;
  park_completion 0 0 ;;;
  let response := {| fr_leader_id := 1; fr_leader_epoch := 2; fr_high_watermark := 3;
                     fr_log_start_offset := 0; fr_entries := make_entries 0 3 2;
                     fr_diverging_epoch := None; fr_snapshot_id := None |} in
  r <- respond new_clock response ;;
  result <- expect r ;;
  check (applied_len 3) ;;;
  check (fun w => (length (committed (listener w)) =? 1)%nat) ;;;
  check (fun w => bool_decide (try_recv 0 w = Some 0)) ;;;
  assert (existsb (is_persist (fun qs => qs_current_term qs =? 2)) (io_batch result)) ;;;
  assert (existsb is_append (io_batch result))).

(** ** Whole cycles *)

(** The fetch timer is polled, then the response is processed. *)
Definition run_follower_cycle (response : FetchResponse)
  : Script (option IoActionBatch * Result FetchResponseResult) :=
  let '(clk, instant) := clk_now new_clock in
  fetch_batch <- poll instant ;;
  result <- respond clk response ;;
  se_ret (fetch_batch, result).

Definition test_integrated_follower_full_cycle : bool := passes follower (
  set_deadline (Instant_now - from_secs 1) ;;;
  cycle <- run_follower_cycle (make_fetch_response (make_entries 0 5 1) 5) ;;
  assert (match cycle.1 with Some fb => existsb is_send fb | None => false end) ;;;
  result <- expect cycle.2 ;;
  assert (negb (snapshot_transfer_initiated result)) ;;;
  check (log_end_is 5) ;;; check (hw_is 5) ;;; check (applied_len 5) ;;;
  check (batch_sizes [5%nat]) ;;;
  check (fun w => Instant_now - from_secs 2 <? fetch_deadline (state w))).

Definition test_integrated_follower_divergence_recovery : bool := passes follower (
  append_local (make_entries 0 8 1) ;;;
  upd (fun s => s <| high_watermark := 5 |>) ;;;
  upd (fun s => s <| current_term := 2 |>) ;;;
  set_deadline (Instant_now - from_secs 1) ;;;
  cycle <- run_follower_cycle (diverging 5 5) ;;
  expect cycle.2 ;;;
  check (log_end_is 5) ;;; check (hw_is 5) ;;;
  set_deadline (Instant_now - from_secs 1) ;;;
  let catch_up_response := {| fr_leader_id := 1; fr_leader_epoch := 2; fr_high_watermark := 10;
                              fr_log_start_offset := 0; fr_entries := make_entries 5 10 2;
                              fr_diverging_epoch := None; fr_snapshot_id := None |} in
  cycle <- run_follower_cycle catch_up_response ;;
  expect cycle.2 ;;;
  check (log_end_is 10) ;;; check (hw_is 10) ;;; check (applied_len 5)).

Definition test_integrated_follower_no_leader_no_fetch : bool :=
  passes (world (node_state_new 2) sm_new) (
  set_fetcher Follower None ;;;
  set_deadline (Instant_now - from_secs 1) ;;;
  result <- poll Instant_now ;;
  assert (match result with Some batch => batch_is_empty batch | None => false end)).

Definition test_integrated_follower_snapshot_cycle : bool := passes follower (
  set_deadline (Instant_now - from_secs 1) ;;;
  cycle <- run_follower_cycle snapshot_response ;;
  assert (bool_decide (is_Some cycle.1)) ;;;
  result <- expect cycle.2 ;;
  assert (snapshot_transfer_initiated result) ;;;
  check (fun w => (length (transfers_started (snapshot_coordinator w)) =? 1)%nat) ;;;
  check (applied_len 0) ;;; check (batch_sizes [])).

Definition test_integrated_three_phase_commit_order : bool := passes follower (
  park_completion 0 0 ;;;
  set_deadline (Instant_now - from_secs 1) ;;;
  cycle <- run_follower_cycle (make_fetch_response (make_entries 0 3 1) 3) ;;
  expect cycle.2 ;;;
  check (applied_len 3) ;;;
  check (batch_sizes [3%nat]) ;;;
  check (fun w => bool_decide (try_recv 0 w = Some 0))).

Definition test_integrated_apply_error_halts_node : bool :=
  passes (world (make_follower_state 2 1) (failing_at 1)) (
  set_deadline (Instant_now - from_secs 1) ;;;
  cycle <- run_follower_cycle (make_fetch_response (make_entries 0 3 1) 3) ;;
  assert (negb (is_ok cycle.2)) ;;;
  check (fun w => shutdown_called (listener w)) ;;;
  check (applied_len 1) ;;; check (applied_at 0 0)).

Definition test_follower_event_loop_run_tick : bool := passes follower (
  let clock_now := Instant_now in
  set_deadline (clock_now - from_secs 1) ;;;
  batch <- loop_run_tick (clock_at clock_now) ;;
  assert (negb (batch_is_empty batch)) ;;;
  assert (existsb is_send batch) ;;;
  check (fun w => fetch_deadline (state w) =? clock_now + fetch_interval_ms config) ;;;
  batch2 <- loop_run_tick (clock_at clock_now) ;;
  assert (batch_is_empty batch2)).

Definition test_follower_event_loop_handle_response : bool := passes follower (
  r <- loop_respond (clock_at Instant_now) (make_fetch_response (make_entries 0 3 1) 3) ;;
  result <- expect r ;;
  check (log_end_is 3) ;;; check (hw_is 3) ;;; check (applied_len 3) ;;;
  assert (negb (snapshot_transfer_initiated result))).

(** ** All of them *)

Definition tests : list bool :=
  [test_normal_replication; test_incremental_fetch; test_election_timer_reset_on_empty_response;
   test_fetch_deadline_updated_on_response; test_on_fetch_tick_updates_deadline;
   test_divergence_truncation; test_no_fetch_without_leader; test_no_fetch_from_non_follower;
   test_snapshot_id_delegates_to_coordinator; test_commit_processes_control_records_internally;
   test_hw_capped_at_local_log_end; test_deferred_completions_fire;
   test_state_machine_apply_error_halts; test_stale_term_rejected; test_wrong_leader_rejected;
   test_invalid_entry_offset_returns_error; test_non_contiguous_entries_returns_error;
   test_append_log_io_action_after_callbacks; test_poll_fetch_fires_when_deadline_elapsed;
   test_poll_fetch_does_not_fire_before_deadline; test_poll_fetch_skipped_for_non_follower;
   test_time_until_fetch; test_leader_change_message_updates_epoch_checkpoint;
   test_voters_record_deserialization_error_surfaces;
   test_divergence_truncation_clears_state_and_fails_completions;
   test_divergence_below_hw_is_safety_violation;
   test_handle_commit_called_for_control_records_only; test_integrated_follower_full_cycle;
   test_integrated_follower_divergence_recovery; test_integrated_follower_no_leader_no_fetch;
   test_integrated_follower_snapshot_cycle; test_integrated_three_phase_commit_order;
   test_integrated_apply_error_halts_node; test_higher_leader_epoch_updates_term_and_persists;
   test_candidate_steps_down_on_higher_epoch;
   test_mutually_exclusive_snapshot_and_divergence_rejected; test_follower_event_loop_run_tick;
   test_follower_event_loop_handle_response; test_divergence_end_offset_beyond_log_clamped;
   test_stale_response_after_role_change_to_candidate;
   test_stale_response_after_role_change_to_leader;
   test_same_term_leader_discovery_persists_quorum_state;
   test_persist_quorum_state_after_callbacks_on_term_bump].

End Tests.

(** What the tests rely on about a new state. *)
Definition fresh_state (st : FollowerState (list LogEntry)) : Prop :=
  log st = [] /\ log_end_offset (base st) = 0 /\ high_watermark (base st) = 0 /\
  pending_membership_change (base st) = None /\ leader_epoch_checkpoint st = ∅.

(** The tests of the file pass on the model, whatever the encoding of a record,
    provided it round trips and rejects garbage, and whatever else is in a new
    node state. *)
Theorem replication_tests_pass (as_app_record : LogEntry -> AppRecord)
    (deserialize_voters : bytes -> Result VotersRecord) (serialize_voters : VotersRecord -> bytes)
    (state1 state2 : FollowerState (list LogEntry)) :
  fresh_state state1 -> fresh_state state2 ->
  deserialize_voters (serialize_voters three_voters) = Ok three_voters ->
  is_ok (deserialize_voters garbage) = false ->
  forallb id (tests as_app_record deserialize_voters serialize_voters state1 state2) = true.
Proof.
  destruct state1 as [[] ? ? ?], state2 as [[] ? ? ?].
  intros (E1 & E2 & E3 & E4 & E5) (F1 & F2 & F3 & F4 & F5) Hd Hg. simpl in E1, E2, E3, E4, E5, F1, F2, F3, F4, F5.
  subst. destruct (deserialize_voters garbage) as [|e] eqn:He; [discriminate|]. clear Hg.
  vm_compute in Hd, He |- *. rewrite Hd, He. reflexivity.
Qed.

End ReplicationTests.
