(* ===== verification/UnitTests.v ===== *)
(** * The unit tests of the other crates' files

    The test modules of membership.rs, memory_log_store.rs, memory_log.rs,
    memory_quorum_state.rs, segment_index.rs, codec.rs, snapshot_store.rs,
    snapshot_coordinator.rs, lib.rs of the storage crate and simulator.rs,
    transcribed as scripts over the models, each test with the prefix [test_]
    and all of them passing.  Temporary directories are the files a component
    is opened with.  The encodings of the storage tests are small concrete
    ones; the codec's tests are for any encoding that round trips. *)

From Stdlib Require Import NArith QArith ZifyBool ZifyN ZifyNat Lia.
From Stdlib Require Import Strings.Byte.
From stdpp Require Import base gmap numbers option strings list sorting.
From S2P Require Import Prelude Types Interfaces Tasks BTree Membership MemoryLog Bytes Codec.
From S2P Require Import Segment SegmentLog SegmentIndex StoreFiles StorageEngine Snapshots.
From S2P Require Import Channel Simulator TestScripts.

#[local] Open Scope N_scope.

(** [start..end] *)
Definition range (start end_ : N) : list N :=
  map (fun k => start + N.of_nat k) (seq 0 (N.to_nat (end_ - start))).

(** ** membership.rs *)

Module MembershipTests.
Import Membership.

Definition voters_of (ids : list N) : gset N := list_to_set ids.
Definition initial_state : MembershipState := new (mkVotersRecord (voters_of [1; 2; 3]) 0).

Abbreviation pending_is b := (check (fun s => Bool.eqb (has_pending_change s) b)) (only parsing).

Definition test_propose_and_commit_change : bool := passes initial_state (
  call_ok (propose_change (voters_of [1; 2; 3; 4]) 5) ;;;
  pending_is true ;;;
  committed <- call_ok (commit_change 5) ;;
  assert (bool_decide (voters committed = voters_of [1; 2; 3; 4])) ;;;
  pending_is false).

Definition test_single_change_invariant_rejects_second_proposal : bool := passes initial_state (
  call_ok (propose_change (voters_of [1; 2; 3; 4]) 5) ;;;
  err <- call (propose_change (voters_of [1; 2]) 6) ;;
  assert (match err with Err (ChangeAlreadyPending off) => off =? 5 | _ => false end)).

Definition test_clear_pending_if_truncated_clears_at_boundary : bool := passes initial_state (
  call_ok (propose_change (voters_of [1; 2; 3; 4]) 10) ;;;
  pending_is true ;;;
  se_modify (clear_pending_if_truncated 10) ;;;
  pending_is false).

Definition test_clear_pending_if_truncated_clears_beyond : bool := passes initial_state (
  call_ok (propose_change (voters_of [1; 2; 3; 4]) 10) ;;;
  se_modify (clear_pending_if_truncated 8) ;;;
  pending_is false).

Definition test_clear_pending_if_truncated_preserves_when_before : bool := passes initial_state (
  call_ok (propose_change (voters_of [1; 2; 3; 4]) 10) ;;;
  se_modify (clear_pending_if_truncated 11) ;;;
  pending_is true).

Definition test_clear_pending_if_truncated_noop_when_no_pending : bool := passes initial_state (
  se_modify (clear_pending_if_truncated 5) ;;;
  pending_is false).

Definition test_truncation_unblocks_new_proposal : bool := passes initial_state (
  call_ok (propose_change (voters_of [1; 2; 3; 4]) 10) ;;;
  se_modify (clear_pending_if_truncated 10) ;;;
  call_ok (propose_change (voters_of [1; 2; 5]) 12) ;;;
  pending_is true).

Definition test_apply_snapshot_resets_pending : bool := passes initial_state (
  call_ok (propose_change (voters_of [1; 2; 3; 4]) 5) ;;;
  se_modify (apply_snapshot (mkVotersRecord (voters_of [1; 2; 3]) 20)) ;;;
  pending_is false ;;;
  check (fun s => offset (committed_voters s) =? 20)).

Definition test_effective_voters_reflects_pending : bool := passes initial_state (
  check (fun s => bool_decide (voters (effective_voters s) = voters_of [1; 2; 3])) ;;;
  call_ok (propose_change (voters_of [1; 2; 3; 4]) 5) ;;;
  check (fun s => bool_decide (voters (effective_voters s) = voters_of [1; 2; 3; 4]))).

Definition test_quorum_size : bool := passes tt (
  assert (Nat.eqb (quorum_size (mkVotersRecord (voters_of [1; 2; 3]) 0)) 2) ;;;
  assert (Nat.eqb (quorum_size (mkVotersRecord (voters_of [1; 2; 3; 4; 5]) 0)) 3)).

Definition tests : list bool :=
  [test_propose_and_commit_change; test_single_change_invariant_rejects_second_proposal;
   test_clear_pending_if_truncated_clears_at_boundary; test_clear_pending_if_truncated_clears_beyond;
   test_clear_pending_if_truncated_preserves_when_before;
   test_clear_pending_if_truncated_noop_when_no_pending; test_truncation_unblocks_new_proposal;
   test_apply_snapshot_resets_pending; test_effective_voters_reflects_pending; test_quorum_size].

Lemma membership_tests_pass : forallb id tests = true.
Proof. by vm_compute. Qed.
End MembershipTests.

(** ** memory_log_store.rs *)

Module MemoryLogStoreTests.
Import MemoryLogStore.

Definition cmd (off t : N) (data : bytes) : LogEntry := command_entry off t (mkAppRecord data).
Definition x_entries : list LogEntry := map (fun i => cmd i 1 [x78]) (range 0 10).

(** [entry_at_sync(off).unwrap()] *)
Definition entry_at (off : N) : SE Inner XraftError (option LogEntry) :=
  r <- se_get (entry_at_sync off) ;; expect r.

Definition test_append_and_read_back : bool := passes new (
  call_ok (append_sync (map (fun i => cmd i 1 (to_le_bytes 8 i)) (range 0 100))) ;;;
  check (fun s => start_offset s =? 0) ;;;
  check (fun s => log_end_offset s =? 100) ;;;
  r <- se_get (read_sync 0 100) ;;
  readback <- expect r ;;
  assert (Nat.eqb (length readback) 100) ;;;
  assert (bool_decide (map offset readback = range 0 100)) ;;;
  assert (forallb (fun e => term e =? 1) readback)).

Definition test_entry_at_returns_correct_entry : bool := passes new (
  call_ok (append_sync [cmd 0 1 [x61]; cmd 1 1 [x62]]) ;;;
  o <- entry_at 1 ;;
  e <- expect_some o ;;
  assert (bool_decide (payload e = [x62])) ;;;
  o <- entry_at 5 ;;
  assert (bool_decide (o = None))).

Definition test_truncate_suffix_removes_tail : bool := passes new (
  call_ok (append_sync x_entries) ;;;
  call_ok (truncate_suffix_sync 5) ;;;
  check (fun s => log_end_offset s =? 5) ;;;
  o <- entry_at 5 ;;
  assert (bool_decide (o = None))).

Definition test_truncate_prefix_compacts : bool := passes new (
  call_ok (append_sync x_entries) ;;;
  call_ok (truncate_prefix_sync 5) ;;;
  check (fun s => start_offset s =? 5) ;;;
  check (fun s => log_end_offset s =? 10) ;;;
  o <- entry_at 3 ;;
  assert (bool_decide (o = None)) ;;;
  o <- entry_at 5 ;;
  assert (bool_decide (is_Some o))).

Definition test_fsync_failure_injection : bool := passes new (
  se_modify (set_fsync_failure_probability 1%Q) ;;;
  result <- call (append_sync [cmd 0 1 [x78]]) ;;
  assert (negb (is_ok result))).

Definition tests : list bool :=
  [test_append_and_read_back; test_entry_at_returns_correct_entry; test_truncate_suffix_removes_tail;
   test_truncate_prefix_compacts; test_fsync_failure_injection].

Lemma memory_log_store_tests_pass : forallb id tests = true.
Proof. by vm_compute. Qed.
End MemoryLogStoreTests.

(** ** memory_log.rs *)

Module MemoryLogTests.
Import MemoryLog.

Definition entries_of (n : N) (data : N -> bytes) : list LogEntry :=
  map (fun i => command_entry i 1 (mkAppRecord (data i))) (range 0 n).

Definition test_append_and_read_back : bool := passes new (
  se_modify (append (entries_of 100 (to_be_bytes 8))) ;;;
  check (fun s => log_end_offset s =? 100) ;;;
  check (fun s => start_offset s =? 0) ;;;
  check (fun s => (length (read 0 100 s) =? 100)%nat) ;;;
  check (fun s => bool_decide (map offset (read 0 100 s) = range 0 100))).

Definition test_truncate_suffix_removes_tail : bool := passes new (
  se_modify (append (entries_of 10 (fun i => [byte_of i]))) ;;;
  se_modify (truncate_suffix 5) ;;;
  check (fun s => log_end_offset s =? 5) ;;;
  check (fun s => (length (read 0 10 s) =? 5)%nat)).

Definition test_entry_at_returns_correct_entry : bool := passes new (
  se_modify (append (entries_of 5 (fun i => [byte_of i]))) ;;;
  entry <- se_get (entry_at 3) ;;
  e <- expect_some entry ;;
  assert (offset e =? 3) ;;;
  missing <- se_get (entry_at 10) ;;
  assert (bool_decide (missing = None))).

Definition tests : list bool :=
  [test_append_and_read_back; test_truncate_suffix_removes_tail; test_entry_at_returns_correct_entry].

Lemma memory_log_tests_pass : forallb id tests = true.
Proof. by vm_compute. Qed.
End MemoryLogTests.

(** ** memory_quorum_state.rs *)

Module MemoryQuorumStateTests.
Import MemoryQuorumState.

(** The record of the test: no leader. *)
Definition record_of (t : Term) (vote : option NodeId) (epoch : N) : QuorumState :=
  mkQuorumState t vote None epoch.

Definition loaded : SE (Store QuorumState) XraftError (option QuorumState) :=
  r <- se_get load ;; expect r.

Definition test_load_returns_none_initially : bool := passes new (
  state <- loaded ;; assert (bool_decide (state = None))).

Definition test_save_and_load_roundtrip : bool := passes new (
  call_ok (save (record_of 5 (Some 2) 3)) ;;;
  o <- loaded ;;
  qs <- expect_some o ;;
  assert (qs_current_term qs =? 5) ;;;
  assert (bool_decide (qs_voted_for qs = Some 2)) ;;;
  assert (qs_leader_epoch qs =? 3)).

Definition test_save_overwrites_previous : bool := passes new (
  call_ok (save (record_of 1 None 0)) ;;;
  call_ok (save (record_of 3 (Some 1) 2)) ;;;
  o <- loaded ;;
  qs <- expect_some o ;;
  assert (qs_current_term qs =? 3)).

Definition tests : list bool :=
  [test_load_returns_none_initially; test_save_and_load_roundtrip; test_save_overwrites_previous].

Lemma memory_quorum_state_tests_pass : forallb id tests = true.
Proof. by vm_compute. Qed.
End MemoryQuorumStateTests.

(** ** segment_index.rs *)

Module SparseIndexTests.
Import SparseIndex.

Definition expect_index (r : Result SparseIndex) (script : SE SparseIndex XraftError unit) : bool :=
  match r with Ok idx => passes idx script | Err _ => false end.
Definition looks_up (off : N) (pos : option N) : SE SparseIndex XraftError unit :=
  check (fun idx => bool_decide (lookup off idx = pos)).

Definition test_lookup_empty_returns_none : bool := expect_index (create None 16) (
  looks_up 0 None ;;; looks_up 100 None).

Definition test_lookup_finds_floor_entry : bool := expect_index (create None 16) (
  se_modify (append 0 0) ;;; se_modify (append 16 1000) ;;;
  se_modify (append 32 2500) ;;; se_modify (append 48 4000) ;;;
  looks_up 0 (Some 0) ;;; looks_up 5 (Some 0) ;;; looks_up 16 (Some 1000) ;;;
  looks_up 31 (Some 1000) ;;; looks_up 32 (Some 2500) ;;; looks_up 100 (Some 4000)).

Definition test_persistence_roundtrip : bool :=
  match create None 16 with
  | Ok idx =>
      let idx := append 32 1200 (append 16 500 (append 0 0 idx)) in
      expect_index (open (file idx) 16) (
        check (fun idx => (len idx =? 3)%nat) ;;; looks_up 20 (Some 500))
  | Err _ => false
  end.

Definition tests : list bool :=
  [test_lookup_empty_returns_none; test_lookup_finds_floor_entry; test_persistence_roundtrip].

Lemma sparse_index_tests_pass : forallb id tests = true.
Proof. by vm_compute. Qed.
End SparseIndexTests.

(** ** codec.rs *)

Module CodecTests.
Import Codec.

Section Codec.
Context (serialize : RpcEnvelope -> option bytes) (deserialize : bytes -> option RpcEnvelope).
(** The identifiers [Uuid::new_v4] makes up. *)
Context (cid_a cid_b : ClusterId).

Abbreviation enc := (encode serialize).
Abbreviation dec := (decode deserialize).

Definition sample_envelope (cid : ClusterId) : RpcEnvelope :=
  {| env_cluster_id := cid; env_leader_epoch := 1; env_source := 1;
     env_payload := PVoteRequest {| vreq_term := 2; candidate_id := 1; last_log_offset := 0;
                                    last_log_term := 0; vreq_is_pre_vote := false |} |}.

Definition envelopes_equal (a b : RpcEnvelope) : bool :=
  (env_cluster_id a =? env_cluster_id b) && (env_leader_epoch a =? env_leader_epoch b)
  && (env_source a =? env_source b)
  && match env_payload a, env_payload b with
     | PVoteRequest x, PVoteRequest y =>
         (vreq_term x =? vreq_term y) && (candidate_id x =? candidate_id y)
         && (last_log_offset x =? last_log_offset y) && (last_log_term x =? last_log_term y)
         && Bool.eqb (vreq_is_pre_vote x) (vreq_is_pre_vote y)
     | _, _ => false
     end.

(** The tests that start from an encoded sample. *)
Definition with_encoded (cid : ClusterId) (script : bytes -> SE unit XraftError unit) : bool :=
  passes tt (encoded <- expect (enc (mkCodec cid) (sample_envelope cid)) ;; script encoded).

Definition test_round_trip : bool := with_encoded cid_a (fun encoded =>
  decoded <- expect (dec (mkCodec cid_a) encoded) ;;
  assert (envelopes_equal (sample_envelope cid_a) decoded)).

Definition test_cluster_id_mismatch_rejected : bool := with_encoded cid_a (fun encoded =>
  assert (match dec (mkCodec cid_b) encoded with Err InvalidClusterId => true | _ => false end)).

Definition test_truncated_buffer_rejected : bool := with_encoded cid_a (fun encoded =>
  assert (negb (is_ok (dec (mkCodec cid_a) (take (length encoded - 5) encoded))))).

Definition test_trailing_bytes_rejected : bool := with_encoded cid_a (fun encoded =>
  assert (negb (is_ok (dec (mkCodec cid_a) (encoded ++ [xff] ++ [xab]))))).

Definition test_empty_buffer_rejected : bool := passes tt (
  assert (negb (is_ok (dec (mkCodec cid_a) [])))).

Definition test_short_length_prefix_rejected : bool := passes tt (
  assert (negb (is_ok (dec (mkCodec cid_a) [x00; x00; x00])))).

Definition test_oversized_frame_rejected_on_decode : bool := passes tt (
  let buf := to_be_bytes 4 (MAX_FRAME_LEN + 1) ++ [x00; x00; x00; x00] in
  assert (negb (is_ok (dec (mkCodec cid_a) buf)))).

Definition tests : list bool :=
  [test_round_trip; test_cluster_id_mismatch_rejected; test_truncated_buffer_rejected;
   test_trailing_bytes_rejected; test_empty_buffer_rejected; test_short_length_prefix_rejected;
   test_oversized_frame_rejected_on_decode].

(** The codec's tests pass for every encoding that round trips and encodes the
    sample in the size of a frame, and every two different clusters. *)
Theorem codec_tests_pass (payload : bytes) :
  serialize (sample_envelope cid_a) = Some payload -> N.of_nat (length payload) <= MAX_FRAME_LEN ->
  deserialize payload = Some (sample_envelope cid_a) -> cid_a <> cid_b -> forallb id tests = true.
Proof.
  intros Hs Hl Hd Hne. unfold tests, test_round_trip, test_cluster_id_mismatch_rejected,
    test_truncated_buffer_rejected, test_trailing_bytes_rejected, with_encoded.
  assert (enc (mkCodec cid_a) (sample_envelope cid_a) = Ok (frame payload)) as -> by (apply encode_ok; eauto).
  unfold passes, se_bind, expect, se_ret. rewrite !(decode_frame serialize deserialize _ _ _ Hl Hd).
  assert (is_ok (dec (mkCodec cid_a) (take (length (frame payload) - 5) (frame payload))) = false) as ->.
  { apply (decode_no_frame serialize). intros q Hq Hlq. eapply (frame_cut deserialize payload q); [done| |done|done].
    destruct (frame_split deserialize payload Hl) as [-> _]. lia. }
  assert (is_ok (dec (mkCodec cid_a) (frame payload ++ [xff] ++ [xab])) = false) as ->.
  { apply (decode_no_frame serialize). intros q Hq Hlq. by apply (frame_extend deserialize payload q ([xff] ++ [xab])). }
  cbn [env_cluster_id sample_envelope expected_cluster_id]. rewrite N.eqb_refl.
  replace (cid_a =? cid_b) with false by lia. unfold envelopes_equal. cbn. by rewrite N.eqb_refl.
Qed.
End Codec.
End CodecTests.

(** ** snapshot_store.rs *)

Module SnapshotStoreTests.
Import SnapshotStore.

Definition test_meta : SnapshotMeta := mkMeta 3 100.

(** A chunk read at a position has the text and the end flag. *)
Definition chunk_is (pos : N) (text : string) (last : bool) : SE SnapshotStore XraftError unit :=
  r <- se_get (read_chunk test_meta pos) ;;
  c <- expect r ;;
  assert (bool_decide (data c = String.list_byte_of_string text)) ;;;
  assert (Bool.eqb (done c) last).

Definition test_read_chunk_seeks_without_reading_entire_file (to_vec : SnapshotMeta -> option bytes) : bool :=
  match with_chunk_size 4 new with
  | Some store => passes store (
      call_ok (save_snapshot to_vec test_meta (String.list_byte_of_string "hello world!")) ;;;
      chunk_is 0 "hell" false ;;;
      chunk_is 4 "o wo" false ;;;
      chunk_is 8 "rld!" true ;;;
      chunk_is 12 EmptyString true)
  | None => false
  end.

Lemma snapshot_store_tests_pass (to_vec : SnapshotMeta -> option bytes) :
  is_Some (to_vec test_meta) -> test_read_chunk_seeks_without_reading_entire_file to_vec = true.
Proof. intros [b Hb]. vm_compute in Hb |- *. by rewrite Hb. Qed.
End SnapshotStoreTests.

(** ** snapshot_coordinator.rs *)

Module SnapshotCoordinatorTests.
Import SnapshotCoordinator.

(** [FakeLog]: the terms of some indices. *)
Record FakeLog := mkFakeLog { terms : gmap N N }.
Definition fake_term_at (l : FakeLog) (index : N) : option N := terms l !! index.
Definition fake_discard_before (_ : N) (l : FakeLog) : FakeLog * Result unit := (l, Ok tt).

Definition test_leader_epoch_comes_from_caller_not_current_term (default_voters : VotersRecord) : bool :=
  let state := mkRaftState 5 10 default_voters in
  passes (new ∅) (
    let log := mkFakeLog {[ 10 := 3 ]} in
    snap <- call_ok (create_snapshot fake_term_at None state 3 log [x01; x02; x03]) ;;
    assert (cm_leader_epoch (metadata snap) =? 3) ;;;
    assert (negb (cm_leader_epoch (metadata snap) =? rs_current_term state))).

Lemma snapshot_coordinator_tests_pass (default_voters : VotersRecord) :
  test_leader_epoch_comes_from_caller_not_current_term default_voters = true.
Proof. by vm_compute. Qed.
End SnapshotCoordinatorTests.

(** ** lib.rs of the storage crate *)

Module StorageEngineTests.
Import StorageEngine AtomicFile.

(** *** Encodings

    One byte per number; an optional identifier is zero or its successor. *)

Definition type_byte (t : EntryType) : byte :=
  match t with Command => x00 | LeaderChangeMessage => x01 | VotersRecordEntry => x02 end.
Definition byte_type (b : byte) : EntryType :=
  match b with x00 => Command | x01 => LeaderChangeMessage | _ => VotersRecordEntry end.
Definition entry_code (e : LogEntry) : bytes :=
  [byte_of (Types.offset e); byte_of (term e); type_byte (entry_type e);
   byte_of (N.of_nat (length (payload e)))] ++ payload e.
Definition ser (es : list LogEntry) : option bytes := Some (concat (map entry_code es)).
Fixpoint de_loop (fuel : nat) (bs : bytes) : option (list LogEntry) :=
  match fuel, bs with
  | _, [] => Some []
  | S fuel', o :: t :: ty :: len :: rest =>
      let n := N.to_nat (Byte.to_N len) in
      cons (mkLogEntry (Byte.to_N o) (Byte.to_N t) (byte_type ty) (take n rest)) <$> de_loop fuel' (drop n rest)
  | _, _ => None
  end.
Definition de (bs : bytes) : option (list LogEntry) := de_loop (length bs) bs.

Definition id_byte (o : option N) : byte := match o with None => x00 | Some n => byte_of (n + 1) end.
Definition byte_id (b : byte) : option N := if Byte.to_N b =? 0 then None else Some (Byte.to_N b - 1).
Definition print (q : QuorumState) : option bytes :=
  Some [byte_of (qs_current_term q); id_byte (qs_voted_for q); id_byte (qs_leader_id q);
        byte_of (qs_leader_epoch q)].
Definition parse (bs : bytes) : option QuorumState :=
  match bs with
  | [t; v; l; e] => Some (mkQuorumState (Byte.to_N t) (byte_id v) (byte_id l) (Byte.to_N e))
  | _ => None
  end.

(** *** The engine and its directory

    The snapshot store of the engine is not in the sources: [saved] is what it
    has stored, which its [load_latest] finds. *)

Record Engine := mkTestEngine { engine : StorageEngine; saved : option Snapshot }.
Abbreviation Script := (SE Engine XraftError).

Definition open_engine (dd : DataDir) (snap : option Snapshot) : Result Engine :=
  result_bind (open de Segment.demo_crc parse demo_ser_epochs demo_de_epochs "1" dd (Ok snap))
    (fun e => Ok (mkTestEngine e snap)).

(** What the directory holds when the engine is dropped. *)
Definition directory (e : Engine) : DataDir :=
  let l := log (engine e) in
  mkDataDir (SegmentLog.files (SegmentLog.segments l)) (SegmentLog.start_file l)
    (QuorumStateFile.fs (quorum_state (engine e))) [].
Definition fresh_dir : DataDir := mkDataDir [] None ∅ [].

Definition on_log {A} (m : SE SegmentLog.SegmentLog XraftError A) : Script A :=
  call_ok (se_zoom (fun e => log (engine e)) (fun l e =>
    mkTestEngine (mkEngine l (quorum_state (engine e)) (leader_epochs (engine e))
      (latest_snapshot (engine e))) (saved e)) m).
Definition on_quorum {A} (m : SE QuorumStateFile.QuorumStateFile XraftError A) : Script A :=
  call_ok (se_zoom (fun e => quorum_state (engine e)) (fun q e =>
    mkTestEngine (mkEngine (log (engine e)) q (leader_epochs (engine e))
      (latest_snapshot (engine e))) (saved e)) m).
Definition store_snapshot (s : Snapshot) : Script unit := se_modify (fun e => mkTestEngine (engine e) (Some s)).

Definition append (es : list LogEntry) : Script unit := on_log (SegmentLog.append ser de Segment.demo_crc es).
Definition read (a b : N) : Script (list LogEntry) :=
  r <- se_get (fun e => SegmentLog.read de Segment.demo_crc a b (log (engine e))) ;; expect r.
Definition entry_at (off : N) : Script (option LogEntry) :=
  r <- se_get (fun e => SegmentLog.entry_at de Segment.demo_crc off (log (engine e))) ;; expect r.
Definition save_state (q : QuorumState) : Script unit := on_quorum (QuorumStateFile.save print q).
Definition load_state : Script QuorumState :=
  r <- se_get (fun e => QuorumStateFile.load (quorum_state (engine e))) ;;
  o <- expect r ;; expect_some o.

Definition opened (r : Result Engine) (script : Script unit) : bool :=
  match r with Ok e => passes e script | Err _ => false end.
(** Two scripts with a restart in between. *)
Definition reopened (first second : Script unit) : bool :=
  match open_engine fresh_dir None with
  | Ok e => let '(e', r) := first e in is_ok r && opened (open_engine (directory e') (saved e')) second
  | Err _ => false
  end.

(** *** The tests *)

Definition make_entry (off t : N) (ty : EntryType) : LogEntry := mkLogEntry off t ty [byte_of off; byte_of t].
Definition commands (n : N) : list LogEntry := map (fun i => make_entry i 1 Command) (range 0 n).
Definition offset_at (i : nat) (es : list LogEntry) : option N := Types.offset <$> es !! i.

Definition test_snapshot : Snapshot :=
  mkSnapshot (mkSnapshotMetadata 10 1 [] 2) (mkAppSnapshot (repeat x2a 64)).

Definition test_full_lifecycle : bool := reopened
  (check (fun e => match latest_snapshot (engine e) with None => true | _ => false end) ;;;
   append (commands 20) ;;;
   read_back <- read 0 20 ;;
   assert (Nat.eqb (length read_back) 20) ;;;
   assert (bool_decide (offset_at 0 read_back = Some 0)) ;;;
   assert (bool_decide (offset_at 19 read_back = Some 19)) ;;;
   save_state (mkQuorumState 3 (Some 1) (Some 1) 2) ;;;
   store_snapshot test_snapshot ;;;
   on_log (SegmentLog.truncate_prefix 10) ;;;
   after_trunc <- read 0 20 ;;
   assert (Nat.eqb (length after_trunc) 10) ;;;
   assert (bool_decide (offset_at 0 after_trunc = Some 10)))
  (o <- se_get (fun e => latest_snapshot (engine e)) ;;
   snap <- expect_some o ;;
   assert (last_included_offset (snap_metadata snap) =? 10) ;;;
   assert (bool_decide (snap_data (app_snapshot snap) = repeat x2a 64)) ;;;
   state <- load_state ;;
   assert (qs_current_term state =? 3) ;;;
   assert (bool_decide (qs_voted_for state = Some 1)) ;;;
   entries <- read 10 20 ;;
   assert (Nat.eqb (length entries) 10) ;;;
   assert (bool_decide (offset_at 0 entries = Some 10)) ;;;
   assert (bool_decide (offset_at 9 entries = Some 19))).

(** The three tasks use different stores: one order of them. *)
Definition test_concurrent_trait_usage : bool := opened (open_engine fresh_dir None) (
  append (commands 10) ;;;
  result <- read 0 10 ;;
  assert (Nat.eqb (length result) 10) ;;;
  save_state (mkQuorumState 5 (Some 2) (Some 2) 4) ;;;
  loaded <- load_state ;;
  assert (qs_current_term loaded =? 5) ;;;
  check (fun e => match saved e with None => true | _ => false end)).

Definition test_leader_epoch_rebuild : bool := reopened
  (append [make_entry 0 1 LeaderChangeMessage; make_entry 1 1 Command; make_entry 2 1 Command;
           make_entry 3 3 LeaderChangeMessage; make_entry 4 3 Command;
           make_entry 5 5 LeaderChangeMessage])
  (epochs <- se_get (fun e => LeaderEpochCheckpoint.all_epochs (leader_epochs (engine e))) ;;
   assert (Nat.eqb (length epochs) 3) ;;;
   assert (bool_decide (bt_get 1 epochs = Some 0)) ;;;
   assert (bool_decide (bt_get 3 epochs = Some 3)) ;;;
   assert (bool_decide (bt_get 5 epochs = Some 5)) ;;;
   check (fun e => bool_decide (LeaderEpochCheckpoint.lookup 3 (leader_epochs (engine e)) = Some 3)) ;;;
   check (fun e => bool_decide (LeaderEpochCheckpoint.lookup 2 (leader_epochs (engine e)) = None)) ;;;
   check (fun e => bool_decide (LeaderEpochCheckpoint.lookup_le 4 (leader_epochs (engine e)) = Some (3, 3)))).

Definition test_entry_at : bool := opened (open_engine fresh_dir None) (
  append (commands 5) ;;;
  o <- entry_at 3 ;;
  e <- expect_some o ;;
  assert (Types.offset e =? 3) ;;;
  none <- entry_at 10 ;;
  assert (bool_decide (none = None))).

Definition test_truncate_suffix : bool := opened (open_engine fresh_dir None) (
  append (commands 100) ;;;
  on_log (SegmentLog.truncate_suffix ser de Segment.demo_crc 50) ;;;
  remaining <- read 0 100 ;;
  assert (Nat.eqb (length remaining) 50) ;;;
  assert (bool_decide (Types.offset <$> last remaining = Some 49))).

Definition tests : list bool :=
  [test_full_lifecycle; test_concurrent_trait_usage; test_leader_epoch_rebuild; test_entry_at;
   test_truncate_suffix].

Lemma storage_engine_tests_pass : forallb id tests = true.
Proof. by vm_compute. Qed.
End StorageEngineTests.

(** ** simulator.rs *)

Module SimulatorTests.
Import Simulator Simulator.Demo.

(** The simulated network of a test and the time that has passed. *)
Record Net := mkNet { world : DWorld; clock : Instant }.
Abbreviation Script := (SE Net XraftError).
Abbreviation Halves := (gmap NodeId (SimulatorSender * SimulatorReceiver)).

(** Await a task; nothing else runs, so a task that is pending stays so. *)
Definition await_task {A} (t : Task DWorld A) : Script A := fun n =>
  match task_run t (world n) with
  | Some (w, a, d) => (mkNet w (clock n + d), Ok a)
  | None => (n, Err assertion_failed)
  end.
(** [tokio::time::timeout]; [None] is [Elapsed]. *)
Definition timeout {A} (limit : Duration) (t : Task DWorld A) : Script (option A) := fun n =>
  match task_run t (world n) with
  | Some (w, a, d) => if d <=? limit then (mkNet w (clock n + d), Ok (Some a))
                      else (mkNet (world n) (clock n + limit), Ok None)
  | None => (mkNet (world n) (clock n + limit), Ok None)
  end.
Definition from_millis (n : N) : Duration := n * 1000000.

Definition configuring (f : SimulatorState -> SimulatorState) : Script unit :=
  await_task (write_guard (fun s => (f s, tt))).
Definition on_mesh (f : Channel.Mesh Channel.Chan -> Channel.Mesh Channel.Chan) : Script unit :=
  se_modify (fun n => mkNet (set_mesh (f (mesh (world n))) (world n)) (clock n)).

(** [NetworkSimulator::create(ids, buffer, 42)] *)
Definition simulated (ids : list NodeId) (buffer : N) (script : NetworkSimulator -> Halves -> Script unit) : bool :=
  match create ids buffer 42 with
  | Some (simulator, transports, w) => passes (mkNet w 0) (script simulator transports)
  | None => false
  end.
(** [transports.remove(&n).unwrap()] *)
Definition take_half (transports : Halves) (n : NodeId) : Script (SimulatorSender * SimulatorReceiver) :=
  expect_some (transports !! n).
Definition drop_sender : Script unit := on_mesh Channel.arc_drop.
Definition drop_half_receiver (r : SimulatorReceiver) : Script unit := on_mesh (Channel.drop_receiver (sr_rx r)).

Definition make_envelope (source : NodeId) : RpcEnvelope :=
  {| env_cluster_id := uuid_nil; env_leader_epoch := 1; env_source := source;
     env_payload := PVoteRequest {| vreq_term := 1; candidate_id := source; last_log_offset := 0;
                                    last_log_term := 0; vreq_is_pre_vote := false |} |}.

Definition send_ok (s : SimulatorSender) (target : NodeId) (msg : RpcEnvelope) : Script unit :=
  r <- await_task (send s target msg) ;; expect r.
Definition recv_ok (r : SimulatorReceiver) : Script RpcEnvelope :=
  m <- await_task (recv r) ;; expect m.
Definition receives_nothing (r : SimulatorReceiver) : Script unit :=
  result <- timeout (from_millis 50) (recv r) ;;
  assert (match result with None => true | Some _ => false end).
Definition from (source : NodeId) (msg : RpcEnvelope) : Script unit := assert (env_source msg =? source).

Fixpoint repeat_script (n : nat) (s : nat -> Script unit) : Script unit :=
  match n with O => se_ret tt | S n' => repeat_script n' s ;;; s n' end.

(** The set-up of the tests that send from node 1 to node 2: the receiver of
    node 1 and the sender of node 2 are dropped at the end of the block. *)
Definition one_way (transports : Halves) : Script (SimulatorSender * SimulatorReceiver) :=
  h1 <- take_half transports 1 ;;
  h2 <- take_half transports 2 ;;
  drop_sender ;;; drop_half_receiver h1.2 ;;;
  se_ret (h1.1, h2.2).

Definition test_full_partition : bool := simulated [1; 2; 3] 64 (fun _ transports =>
  h1 <- take_half transports 1 ;;
  h2 <- take_half transports 2 ;;
  h3 <- take_half transports 3 ;;
  configuring (partition [1] [2; 3]) ;;;
  send_ok h1.1 2 (make_envelope 1) ;;; send_ok h1.1 3 (make_envelope 1) ;;;
  send_ok h2.1 1 (make_envelope 2) ;;;
  send_ok h3.1 1 (make_envelope 3) ;;;
  send_ok h2.1 3 (make_envelope 2) ;;;
  send_ok h3.1 2 (make_envelope 3) ;;;
  msg <- recv_ok h2.2 ;; from 3 msg ;;;
  msg <- recv_ok h3.2 ;; from 2 msg ;;;
  drop_sender ;;; drop_sender ;;; drop_sender ;;;
  receives_nothing h1.2).

Definition test_asymmetric_partition : bool := simulated [1; 2] 64 (fun _ transports =>
  h1 <- take_half transports 1 ;;
  h2 <- take_half transports 2 ;;
  configuring (partition_one_way 1 2) ;;;
  send_ok h1.1 2 (make_envelope 1) ;;;
  send_ok h2.1 1 (make_envelope 2) ;;;
  msg <- recv_ok h1.2 ;; from 2 msg ;;;
  receives_nothing h2.2).

(** The time from [start] on. *)
Definition elapsed_at_least (start : Instant) (d : Duration) : Script unit :=
  check (fun n => d <=? clock n - start).

Definition test_message_delay_200ms : bool := simulated [1; 2] 64 (fun _ transports =>
  h <- one_way transports ;;
  let delay := from_millis 200 in
  configuring (set_delay 1 2 delay delay) ;;;
  start <- se_get clock ;;
  send_ok h.1 2 (make_envelope 1) ;;;
  msg <- recv_ok h.2 ;;
  from 1 msg ;;;
  elapsed_at_least start delay).

Definition test_heal_partition_restores_connectivity : bool := simulated [1; 2] 64 (fun _ transports =>
  h <- one_way transports ;;
  configuring (partition [1] [2]) ;;;
  check (fun n => is_partitioned 1 2 (sim (world n))) ;;;
  check (fun n => is_partitioned 2 1 (sim (world n))) ;;;
  send_ok h.1 2 (make_envelope 1) ;;;
  receives_nothing h.2 ;;;
  configuring heal_partition ;;;
  check (fun n => negb (is_partitioned 1 2 (sim (world n)))) ;;;
  send_ok h.1 2 (make_envelope 1) ;;;
  msg <- recv_ok h.2 ;; from 1 msg).

Definition test_message_drop_probability : bool := simulated [1; 2] 256 (fun _ transports =>
  h <- one_way transports ;;
  configuring (set_drop_probability 1 2 (Fin 1)) ;;;
  repeat_script 10 (fun _ => send_ok h.1 2 (make_envelope 1)) ;;;
  receives_nothing h.2 ;;;
  configuring (set_drop_probability 1 2 (Fin 0)) ;;;
  repeat_script 5 (fun _ => send_ok h.1 2 (make_envelope 1)) ;;;
  repeat_script 5 (fun _ => result <- timeout (from_millis 100) (recv h.2) ;;
                            assert (match result with Some _ => true | None => false end))).

Fixpoint receive_epochs (n : nat) (r : SimulatorReceiver) : Script (list N) :=
  match n with
  | O => se_ret []
  | S n' =>
      o <- timeout (from_millis 100) (recv r) ;;
      m <- expect_some o ;;
      msg <- expect m ;;
      rest <- receive_epochs n' r ;;
      se_ret (env_leader_epoch msg :: rest)
  end.

Definition test_message_reordering : bool := simulated [1; 2] 256 (fun simulator transports =>
  h <- one_way transports ;;
  configuring (enable_reordering 1 2) ;;;
  repeat_script 10 (fun i =>
    let env := make_envelope 1 in
    send_ok h.1 2 (mkRpcEnvelope (env_cluster_id env) (N.of_nat i) (env_source env) (env_payload env))) ;;;
  receives_nothing h.2 ;;;
  await_task (flush_reorder_buffer simulator 1 2) ;;;
  received_epochs <- receive_epochs 10 h.2 ;;
  assert (Nat.eqb (length received_epochs) 10) ;;;
  assert (bool_decide (merge_sort N.le received_epochs = range 0 10))).

Definition test_delay_with_range : bool := simulated [1; 2] 64 (fun _ transports =>
  h <- one_way transports ;;
  let min_delay := from_millis 50 in
  configuring (set_delay 1 2 min_delay (from_millis 150)) ;;;
  start <- se_get clock ;;
  send_ok h.1 2 (make_envelope 1) ;;;
  recv_ok h.2 ;;;
  elapsed_at_least start min_delay).

Definition test_heal_specific_link : bool := simulated [1; 2; 3] 64 (fun _ transports =>
  h1 <- take_half transports 1 ;;
  h2 <- take_half transports 2 ;;
  h3 <- take_half transports 3 ;;
  configuring (partition [1] [2; 3]) ;;;
  configuring (heal_link 1 2) ;;;
  send_ok h1.1 2 (make_envelope 1) ;;;
  msg <- recv_ok h2.2 ;; from 1 msg ;;;
  send_ok h1.1 3 (make_envelope 1) ;;;
  receives_nothing h3.2).

Definition test_combined_partition_and_delay : bool := simulated [1; 2; 3] 64 (fun _ transports =>
  h1 <- take_half transports 1 ;;
  h2 <- take_half transports 2 ;;
  h3 <- take_half transports 3 ;;
  configuring (partition_one_way 1 3) ;;;
  let delay := from_millis 100 in
  configuring (set_delay 1 2 delay delay) ;;;
  send_ok h1.1 3 (make_envelope 1) ;;;
  receives_nothing h3.2 ;;;
  start <- se_get clock ;;
  send_ok h1.1 2 (make_envelope 1) ;;;
  recv_ok h2.2 ;;;
  elapsed_at_least start delay).

Definition tests : list bool :=
  [test_full_partition; test_asymmetric_partition; test_message_delay_200ms;
   test_heal_partition_restores_connectivity; test_message_drop_probability; test_message_reordering;
   test_delay_with_range; test_heal_specific_link; test_combined_partition_and_delay].

Lemma simulator_tests_pass : forallb id tests = true.
Proof. by vm_compute. Qed.
End SimulatorTests.
