(* ===== verification/EventLoopCluster.v ===== *)
(** * A cluster of event loops

    Nodes that run the event loop of [EventLoop], joined by a network that
    delays, reorders, duplicates and loses messages and may hold anything that
    is not a vote.  A step is one half of an iteration of one node, its timer
    check or the handling of a message, or a crash.

    A node can crash between handlers and at any point of the execution of a
    batch.  Three modes say what may follow: a crashed node stays away; it
    restarts from its stores and its stage finishes the writes of a batch
    before it sends; it restarts and the stage interleaves writes and sends as
    [io_action.rs] does.  In the first two there is at most one leader per
    term; in the third a run ends with two. *)

From Stdlib Require Import ZifyBool ZifyN ZifyNat Lia.
From stdpp Require Import base gmap numbers option strings relations list.
From S2P Require Import Prelude Types NodeState Interfaces Mocks RaftNodeProps IoStage EventLoop.

(** ** Writes before sends

    The schedules of a batch in which the network group waits for the storage
    group. *)

Section Ordered.
Context {L T Q S : Type} `{LogStore L} `{TransportSender T} `{QuorumStateStore QuorumState Q} `{SnapshotIO S}.

Import TryJoined.

Abbreviation Stage := (IoStage (L := L) (T := T) (Q := Q) (S := S)).
Abbreviation Joined := (Joint (L := L) (T := T) (Q := Q) (S := S)).

Inductive ordered_poll : Joined -> Joined -> Prop :=
| ordered_storage a storage network st st' :
    exec_action a st = (st', Ok tt) ->
    ordered_poll (Running (a :: storage) network st) (Running storage network st')
| ordered_storage_err a storage network st st' e :
    exec_action a st = (st', Err e) -> ordered_poll (Running (a :: storage) network st) (Failed st' e)
| ordered_network a network st st' :
    exec_action a st = (st', Ok tt) ->
    ordered_poll (Running [] (a :: network) st) (Running [] network st')
| ordered_network_err a network st st' e :
    exec_action a st = (st', Err e) -> ordered_poll (Running [] (a :: network) st) (Failed st' e).

Lemma ordered_poll_poll j j' : ordered_poll j j' -> poll j j'.
Proof. destruct 1; by constructor. Qed.

Definition stage_of (j : Joined) : Stage :=
  match j with Running _ _ st | Failed st _ => st end.

Context `{!QuorumStateStoreLaws QuorumState Q} `{!TransportSenderLaws T}.

Import EventLoop.

Definition stage_sent (st : Stage) : list (NodeId * RpcEnvelope) := ts_sent (transport st).

(** The vote of a record. *)
Definition record_vote_of (qs : QuorumState) : Vote := (qs_current_term qs, qs_voted_for qs).

Lemma exec_action_sent (a : IoAction) (st st' : Stage) r m :
  exec_action a st = (st', r) -> m ∈ stage_sent st' -> m ∈ stage_sent st \/ a = SendRpc m.1 m.2.
Proof.
  unfold stage_sent. destruct a as [qs|es|from|up|tg env|snap]; cbn.
  - destruct (qss_save _ _). intros [= <- _]. by left.
  - destruct (ls_append _ _). intros [= <- _]. by left.
  - destruct (ls_truncate_suffix _ _). intros [= <- _]. by left.
  - destruct (ls_truncate_prefix _ _). intros [= <- _]. by left.
  - destruct (ts_send tg env (transport st)) as [t r'] eqn:E. intros [= <- _]. cbn. intros Hm.
    destruct (ts_send_sent _ _ _ _ _ E _ Hm) as [?| ->]; [by left|by right].
  - destruct (sio_save _ _). intros [= <- _]. by left.
Qed.

(** Whatever the result of an action, the vote on disk is the old one or the
    one it records. *)
Lemma exec_action_durable_any (a : IoAction) (st st' : Stage) r :
  exec_action a st = (st', r) ->
  durable_vote st' = durable_vote st \/
  exists qs, a = PersistQuorumState qs /\ durable_vote st' = record_vote_of qs.
Proof.
  unfold durable_vote. destruct a as [qs|es|from|up|tg env|snap]; cbn.
  - destruct (qss_save qs (quorum_store st)) as [q [[]|e]] eqn:E; intros [= <- _]; cbn.
    + right. exists qs. by rewrite (qss_save_ok _ _ _ E).
    + destruct (qss_save_err _ _ _ _ E) as [->| ->]; [by left|right; by exists qs].
  - destruct (ls_append _ _). intros [= <- _]. by left.
  - destruct (ls_truncate_suffix _ _). intros [= <- _]. by left.
  - destruct (ls_truncate_prefix _ _). intros [= <- _]. by left.
  - destruct (ts_send _ _ _). intros [= <- _]. by left.
  - destruct (sio_save _ _). intros [= <- _]. by left.
Qed.

(** What every schedule leaves: messages of the batch only. *)
Definition sends_of (batch : IoActionBatch) (st st' : Stage) : Prop :=
  forall m, m ∈ stage_sent st' -> m ∈ stage_sent st \/ SendRpc m.1 m.2 ∈ batch.

Definition polled (batch : IoActionBatch) (st : Stage) (j : Joined) : Prop :=
  sends_of batch st (stage_of j) /\
  match j with Running s n _ => s ⊆ batch /\ n ⊆ batch | Failed _ _ => True end.

Lemma polled_action (batch : IoActionBatch) (a : IoAction) (st st1 st2 : Stage) r :
  sends_of batch st st1 -> a ∈ batch -> exec_action a st1 = (st2, r) -> sends_of batch st st2.
Proof.
  intros Hs Ha He m Hm. destruct (exec_action_sent _ _ _ _ _ He Hm) as [?| ->]; [by apply Hs|by right].
Qed.

Lemma poll_polled (batch : IoActionBatch) (st : Stage) (j : Joined) :
  rtc poll (start batch st) j -> polled batch st j.
Proof.
  assert (polled batch st (start batch st)) as Hinit.
  { split; [intros m Hm; by left|]. split; intros a [Ha _]%elem_of_list_filter_b; done. }
  intros Hr. revert Hinit. induction Hr as [|j j1 j2 Hp _ IH]; [done|]. intros [Hs Hin]. apply IH.
  destruct Hp; destruct Hin as [Hi1 Hi2]; (split; [eapply polled_action; [done| |done]; set_solver|]);
    try done; set_solver.
Qed.

(** What an ordered schedule leaves: the vote on disk is the old one or a
    record of the batch, and when anything was sent all records are there. *)
Definition ordered_done (batch : IoActionBatch) (st st' : Stage) : Prop :=
  (durable_vote st' = durable_vote st \/
   exists qs, PersistQuorumState qs ∈ batch /\ durable_vote st' = record_vote_of qs) /\
  (forall m, m ∈ stage_sent st' -> m ∈ stage_sent st \/
     SendRpc m.1 m.2 ∈ batch /\ durable_vote st' = recorded (durable_vote st) batch).

Definition ordered_inv (batch : IoActionBatch) (st : Stage) (j : Joined) : Prop :=
  ordered_done batch st (stage_of j) /\
  match j with
  | Running s n st' =>
      n ⊆ network_actions batch /\ (s <> [] -> stage_sent st' ⊆ stage_sent st) /\
      exists sd, storage_actions batch = sd ++ s /\ durable_vote st' = recorded (durable_vote st) sd
  | Failed _ _ => True
  end.

Lemma storage_action_sent (a : IoAction) (st st' : Stage) r :
  is_send a = false -> exec_action a st = (st', r) -> stage_sent st' ⊆ stage_sent st.
Proof.
  intros Ha He m Hm. destruct (exec_action_sent _ _ _ _ _ He Hm) as [?| ->]; [done|]. by cbn in Ha.
Qed.

Lemma send_durable (a : IoAction) (st st' : Stage) r :
  is_send a = true -> exec_action a st = (st', r) -> durable_vote st' = durable_vote st.
Proof. intros Ha He. by destruct (exec_action_durable_any _ _ _ _ He) as [?|(qs & -> & _)]. Qed.

Lemma recorded_all (batch : IoActionBatch) (v : Vote) :
  recorded v (storage_actions batch) = recorded v batch.
Proof.
  unfold recorded, storage_actions. revert v.
  induction batch as [|a batch IH]; intros v; cbn; [done|]. destruct a; cbn; apply IH.
Qed.

(** One storage action more, when nothing has been sent. *)
Lemma ordered_storage_done (batch : IoActionBatch) (a : IoAction) (st st1 st2 : Stage) r :
  ordered_done batch st st1 -> stage_sent st1 ⊆ stage_sent st -> is_send a = false -> a ∈ batch ->
  exec_action a st1 = (st2, r) -> ordered_done batch st st2 /\ stage_sent st2 ⊆ stage_sent st.
Proof.
  intros [Hd _] Hs Ha Hin He. pose proof (storage_action_sent _ _ _ _ Ha He) as Hs2.
  assert (stage_sent st2 ⊆ stage_sent st) as Hs' by set_solver. split; [split|done].
  - destruct (exec_action_durable_any _ _ _ _ He) as [->|(qs & -> & ->)]; [done|right; by exists qs].
  - intros m Hm. left. by apply Hs'.
Qed.

(** One send more, when all is written. *)
Lemma ordered_send_done (batch : IoActionBatch) (a : IoAction) (st st1 st2 : Stage) r :
  ordered_done batch st st1 -> durable_vote st1 = recorded (durable_vote st) batch ->
  is_send a = true -> a ∈ batch -> exec_action a st1 = (st2, r) -> ordered_done batch st st2.
Proof.
  intros [Hd Hm] Hrec Ha Hin He. pose proof (send_durable _ _ _ _ Ha He) as Hd2.
  split; [by rewrite Hd2|]. rewrite Hd2. intros m Hm2.
  destruct (exec_action_sent _ _ _ _ _ He Hm2) as [?| ->]; [by apply Hm|by right].
Qed.

Lemma ordered_poll_inv (batch : IoActionBatch) (st : Stage) (j j' : Joined) :
  ordered_inv batch st j -> ordered_poll j j' -> ordered_inv batch st j'.
Proof.
  assert (forall a, a ∈ network_actions batch -> a ∈ batch /\ is_send a = true) as Hnet
    by (intros a [? ?]%elem_of_list_filter_b; done).
  assert (forall sd a s, storage_actions batch = sd ++ a :: s -> a ∈ batch /\ is_send a = false) as Hsto.
  { intros sd a s Hs. assert (a ∈ storage_actions batch) as [? Ha]%elem_of_list_filter_b
      by (rewrite Hs; set_solver). split; [done|]. by destruct (is_send a). }
  intros [Hd Hj] Hp. destruct Hp as [a s n x x' He|a s n x x' e He|a n x x' He|a n x x' e He];
    destruct Hj as (Hn & Hq & sd & Hs & Hr); cbn [stage_of] in *.
  - destruct (Hsto _ _ _ Hs) as [Hin Ha].
    destruct (ordered_storage_done batch a st x x' _ Hd (Hq ltac:(done)) Ha Hin He) as [Hd' Hq'].
    split; [done|]. split_and!; [done|done|]. exists (sd ++ [a]). rewrite <- app_assoc. split; [done|].
    rewrite (exec_action_durable _ _ _ He), Hr. unfold recorded. by rewrite foldl_app.
  - destruct (Hsto _ _ _ Hs) as [Hin Ha]. split; [|done].
    by destruct (ordered_storage_done batch a st x x' _ Hd (Hq ltac:(done)) Ha Hin He).
  - destruct (Hnet a) as [Hin Ha]; [set_solver|]. rewrite app_nil_r in Hs. subst sd.
    rewrite recorded_all in Hr. split; [by eapply ordered_send_done|]. split_and!; [set_solver|done|].
    exists (storage_actions batch). rewrite app_nil_r, recorded_all. split; [done|].
    by rewrite (send_durable _ _ _ _ Ha He).
  - destruct (Hnet a) as [Hin Ha]; [set_solver|]. rewrite app_nil_r in Hs. subst sd.
    rewrite recorded_all in Hr. split; [by eapply ordered_send_done|done].
Qed.

Lemma ordered_schedule_inv (batch : IoActionBatch) (st : Stage) (j : Joined) :
  rtc ordered_poll (start batch st) j -> ordered_inv batch st j.
Proof.
  assert (ordered_inv batch st (start batch st)) as Hinit.
  { split; [split; [by left|intros m Hm; by left]|]. split_and!; [done|done|]. by exists []. }
  intros Hr. revert Hinit. induction Hr as [j|j j1 j2 Hp _ IH]; [done|]. intros Hi.
  apply IH. by eapply ordered_poll_inv.
Qed.

Lemma ordered_schedule (batch : IoActionBatch) (st : Stage) (j : Joined) :
  rtc ordered_poll (start batch st) j -> ordered_done batch st (stage_of j).
Proof. by intros [? _]%ordered_schedule_inv. Qed.

(** In the middle of a save nothing has been sent. *)
Lemma ordered_saving (batch : IoActionBatch) (st st' : Stage) (qs : QuorumState) s n :
  rtc ordered_poll (start batch st) (Running (PersistQuorumState qs :: s) n st') ->
  PersistQuorumState qs ∈ batch /\ stage_sent st' ⊆ stage_sent st.
Proof.
  intros [_ (_ & Hs & sd & Hsd & _)]%ordered_schedule_inv. split; [|by apply Hs].
  assert (PersistQuorumState qs ∈ storage_actions batch) as [? _]%elem_of_list_filter_b
    by (rewrite Hsd; set_solver). done.
Qed.

(** The schedule of [execute] writes before it sends. *)
Lemma exec_all_ordered_network (n : list IoAction) (st st' : Stage) :
  exec_all n st = (st', Ok tt) -> rtc ordered_poll (Running [] n st) (Running [] [] st').
Proof.
  revert st. induction n as [|a n IH]; intros st; cbn; [by intros [= <-]|].
  destruct (exec_action a st) as [st1 [[]|e]] eqn:E; [|done]. intros He.
  eapply rtc_l; [by apply ordered_network|]. by apply IH.
Qed.

Lemma execute_ordered (batch : IoActionBatch) (st st' : Stage) :
  execute batch st = (st', Ok tt) -> rtc ordered_poll (start batch st) (Running [] [] st').
Proof.
  unfold execute, start. destruct (exec_all (storage_actions batch) st) as [st1 [[]|e]] eqn:E; [|done].
  intros Hn%exec_all_ordered_network. etrans; [|exact Hn]. clear Hn.
  revert st E. induction (storage_actions batch) as [|a s IH]; intros st; cbn; [by intros [= <-]|].
  destruct (exec_action a st) as [st2 [[]|e]] eqn:E; [|done]. intros He.
  eapply rtc_l; [by apply ordered_storage|]. by apply IH.
Qed.
End Ordered.

(** ** What a handler does to a node *)

Section Handlers.
Context `{NodeTransitions} {CK LI L T Q S : Type} `{Clock CK} `{Listener LI}.
Context `{LogStore L} `{TransportSender T} `{QuorumStateStore QuorumState Q} `{SnapshotIO S}.
Context `{!NodeTransitionsLaws}.

Import ElectionManager EventLoop.

Abbreviation Loop := (EventLoop (CK := CK) (LI := LI) (L := L) (T := T) (Q := Q) (S := S)).
Implicit Types (l : Loop) (G : N -> N -> N -> Prop).

Abbreviation vote l := (vote_of_state (state l)).
Abbreviation me l := (node_id (base (state l))).

Definition ident l : NodeId * list VoterInfo := (me l, voter_set (base (state l))).

Definition running l : Prop := role (base (state l)) = Candidate \/ role (base (state l)) = Leader.

(** Every vote a candidate or leader counts was given: [G v t c] says that
    [v] voted for [c] in term [t]. *)
Definition counted G l : Prop :=
  running l -> forall v, v ∈ votes_received (base (state l)) ->
    v = me l \/ G v (current_term (base (state l))) (me l).

(** A granted real vote on the wire is a vote of its sender for its target. *)
Definition msg_ok G (m : NodeId * RpcEnvelope) : Prop :=
  match env_payload m.2 with
  | PVoteResponse r =>
      vote_granted r = true -> vresp_is_pre_vote r = false -> G (env_source m.2) (vresp_term r) m.1
  | _ => True
  end.

Record outcome G l (b : IoActionBatch) l' (b' : IoActionBatch) : Prop := {
  oc_ident : ident l' = ident l;
  oc_counted : counted G l -> counted G l';
  oc_sends : forall tg env, SendRpc tg env ∈ b' -> SendRpc tg env ∈ b \/ env_source env = me l;
  oc_records : forall qs, PersistQuorumState qs ∈ b' ->
    PersistQuorumState qs ∈ b \/ vote_le (vote l) (record_vote_of qs);
}.

Lemma outcome_trans G l1 b1 l2 b2 l3 b3 :
  vote_le (vote l1) (vote l2) ->
  outcome G l1 b1 l2 b2 -> outcome G l2 b2 l3 b3 -> outcome G l1 b1 l3 b3.
Proof.
  intros Hv [A1 A2 A3 A4] [B1 B2 B3 B4]. assert (me l2 = me l1) as Hme by (unfold ident in A1; congruence).
  split; [congruence|auto| |].
  - intros tg env [Hin|Hs]%B3; [by apply A3|right; congruence].
  - intros qs [Hin|Hs]%B4; [by apply A4|right; by etrans].
Qed.

(** A change that leaves the candidacy alone. *)
Lemma outcome_same G l b l' b' :
  ident l' = ident l -> role (base (state l')) = role (base (state l)) ->
  votes_received (base (state l')) = votes_received (base (state l)) ->
  current_term (base (state l')) = current_term (base (state l)) ->
  (forall tg env, SendRpc tg env ∈ b' -> SendRpc tg env ∈ b \/ env_source env = me l) ->
  (forall qs, PersistQuorumState qs ∈ b' ->
     PersistQuorumState qs ∈ b \/ vote_le (vote l) (record_vote_of qs)) ->
  outcome G l b l' b'.
Proof.
  intros Hid Hr Hv Ht Hs Hq. split; try done. unfold counted, running. rewrite Hr, Hv, Ht.
  unfold ident in Hid. by injection Hid as -> _.
Qed.

Lemma outcome_refl G l b : outcome G l b l b.
Proof. apply outcome_same; auto. Qed.

(** A change that ends the candidacy. *)
Lemma outcome_follower G l b l' qs :
  ident l' = ident l -> role (base (state l')) = Follower -> vote_le (vote l) (record_vote_of qs) ->
  outcome G l b l' (batch_push b (PersistQuorumState qs)).
Proof.
  intros Hid Hr Hv. split; [done| | |].
  - intros _. unfold counted, running. rewrite Hr. intros [?|?]; done.
  - intros tg env [?|[=]%list_elem_of_singleton]%elem_of_app. by left.
  - intros qs' [?|[= ->]%list_elem_of_singleton]%elem_of_app; [by left|by right].
Qed.

Lemma elem_push (a x : IoAction) (b : IoActionBatch) : a ∈ batch_push b x -> a ∈ b \/ a = x.
Proof. intros [?|?%list_elem_of_singleton]%elem_of_app; auto. Qed.

Lemma step_down_outcome G (t : Term) l s c sd :
  maybe_step_down_on_higher_term t (state l) (clock l) = (s, c, sd) ->
  outcome G l [] (set_state s (set_clock c l))
    (if sd then [PersistQuorumState (mkQuorumState (current_term (base s)) None None term_zero)] else []).
Proof.
  unfold maybe_step_down_on_higher_term. destruct (current_term (base (state l)) <? t) eqn:E.
  - destruct (next_deadline (clock l)) as [c' d]. intros [= <- <- <-].
    destruct (follower_fields t None d (state l)) as (F1 & F2 & _).
    pose proof (follower_identity t None d (state l)) as Hid. unfold identity_of in Hid. injection Hid as I1 _ I3 _.
    apply (outcome_follower G l []); [unfold ident; cbn; congruence|done|].
    left. cbn. rewrite F1. lia.
  - intros [= <- <- <-]. by apply outcome_same; auto.
Qed.

Lemma win_election_outcome G l b l' b' :
  role (base (state l)) = Candidate -> win_election l b = (l', b') -> outcome G l b l' b'.
Proof.
  intros Hc. unfold win_election. destruct (clk_now (clock l)) as [c1 now], (clk_random_election_timeout c1) as [c2 t].
  unfold on_become_leader, append_leader_change_message. cbn.
  set (s1 := nt_become_leader now t (state l)). intros [= <- <-].
  destruct (leader_fields now t (state l)) as (F1 & F2 & F3 & F4). fold s1 in F1, F2, F3, F4.
  pose proof (leader_identity now t (state l)) as Hid. fold s1 in Hid. unfold identity_of in Hid. injection Hid as I1 I2 I3 I4.
  unfold vote_of_state in F3. injection F3 as F3 F3'.
  set (s2 := set_base _ s1). destruct (update_base (current_term (base s1)) s2) as [Hb _].
  split; cbn.
  - unfold ident. cbn. rewrite Hb. cbn. congruence.
  - unfold counted, running. cbn. rewrite Hb. cbn. rewrite I1, F3, F4. intros Hl _. apply Hl. by left.
  - intros tg env [[?|[=]]%elem_push|[=]]%elem_push. by left.
  - intros qs [[?|[= ->]]%elem_push|[=]]%elem_push; [by left|right]. cbn. rewrite F3, F3'. done.
Qed.

Lemma vote_request_outcome G (req : VoteRequest) l b s c b' :
  vreq_term req <= current_term (base (state l)) ->
  handle_vote_request req (state l) (clock l) b = (s, c, b') ->
  outcome G l b (set_state s (set_clock c l)) b'.
Proof.
  intros Ht. unfold handle_vote_request, maybe_step_down_on_higher_term.
  replace (current_term (base (state l)) <? vreq_term req) with false by lia.
  assert (forall granted tg env, SendRpc tg env ∈ batch_push b (SendRpc (candidate_id req) (envelope_of (state l)
      (PVoteResponse (mkVoteResponse (current_term (base (state l))) granted false)))) ->
      SendRpc tg env ∈ b \/ env_source env = me l) as Hsend.
  { intros granted tg env [?|[= -> ->]]%elem_push; [by left|by right]. }
  destruct (vote_rejected req (state l)) eqn:Erej; [|destruct (log_ok req (state l))].
  - intros [= <- <- <-]. apply outcome_same; try done; [apply Hsend|]. intros qs [?|[=]]%elem_push. by left.
  - destruct (next_deadline (clock l)) as [c' d]. intros [= <- <- <-].
    unfold vote_rejected in Erej. apply orb_false_iff in Erej as [_ Ev].
    apply outcome_same; try done; cbn.
    + intros tg env [[?|[=]]%elem_push|[= -> ->]]%elem_push; [by left|by right].
    + intros qs [[?|[= ->]]%elem_push|[=]]%elem_push; [by left|right]. right. split; [done|]. cbn.
      destruct (voted_for (base (state l))) as [v|]; [right|by left]. f_equal. lia.
  - intros [= <- <- <-]. apply outcome_same; try done; [apply Hsend|]. intros qs [?|[=]]%elem_push. by left.
Qed.

Lemma count_vote_outcome G (env : RpcEnvelope) (resp : VoteResponse) (sd : bool) l l' b b' :
  env_payload env = PVoteResponse resp -> vresp_is_pre_vote resp = false -> msg_ok G (me l, env) ->
  count_vote (env_source env) resp sd l b = (l', b') -> outcome G l b l' b'.
Proof.
  intros Hp Hpre Hm. unfold count_vote.
  destruct (_ && (vresp_term resp =? _)) eqn:E; [|intros [= <- <-]; apply outcome_refl].
  apply andb_prop in E as [[[_ Hr%role_eqb_spec]%andb_prop Hgr]%andb_prop Ht%N.eqb_eq].
  unfold msg_ok in Hm. cbn in Hm. rewrite Hp in Hm. specialize (Hm Hgr Hpre).
  destruct (negb _); [intros [= <- <-]; apply outcome_refl|].
  unfold record_vote. rewrite Hr. replace (negb (role_eqb Candidate Candidate)) with false by done.
  set (s1 := set_base _ (state l)).
  assert (outcome G l b (set_state s1 l) b) as Hoc.
  { split; auto. unfold counted, running. cbn. rewrite Hr. intros Hl Hrun v.
    intros [->%elem_of_singleton|Hv]%elem_of_union; [right; by rewrite <- Ht|by apply Hl]. }
  destruct (_ <=? _)%nat; [|by intros [= <- <-]].
  intros Hw. eapply (outcome_trans G l b (set_state s1 l) b); [done|done|].
  by eapply win_election_outcome.
Qed.

Lemma dispatch_outcome G (env : RpcEnvelope) (sd : bool) l l' b b' :
  (is_pre_vote (env_payload env) = false -> effective_term env <= current_term (base (state l))) ->
  msg_ok G (me l, env) ->
  dispatch env sd l b = (l', b') -> outcome G l b l' b'.
Proof.
  intros Ht Hm. unfold dispatch. unfold is_pre_vote, effective_term in Ht.
  destruct (env_payload env) as [req|resp|req|resp|r|r|v|n|v|ok e] eqn:Ep;
    try (intros [= <- <-]; apply outcome_refl).
  - destruct (vreq_is_pre_vote req).
    + intros [= <- <-]. unfold handle_pre_vote_request. apply outcome_same; try done.
      * intros tg env' [?|[= -> ->]]%elem_push; [by left|by right].
      * intros qs [?|[=]]%elem_push. by left.
    + destruct (handle_vote_request req (state l) (clock l) b) as [[s c] b1] eqn:Ev. intros [= <- <-].
      eapply vote_request_outcome; [|done]. auto.
  - destruct (vresp_is_pre_vote resp) eqn:Epre; [|by eapply count_vote_outcome].
    destruct (vote_granted resp && _); intros [= <- <-]; [by apply outcome_same; auto|apply outcome_refl].
  - destruct (role_eqb _ Leader); [|intros [= <- <-]; apply outcome_refl].
    destruct (clk_now (clock l)) as [c now]. intros [= <- <-].
    destruct (fetch_fields (env_source env) (fetch_offset req) now (state l)) as (F1 & F2 & F3).
    pose proof (fetch_identity (env_source env) (fetch_offset req) now (state l)) as Hid.
    unfold identity_of in Hid. injection Hid as I1 I2 I3 I4. unfold vote_of_state in F3. injection F3 as F3 _.
    apply outcome_same; auto. unfold ident. cbn. congruence.
Qed.

Lemma react_outcome G (env : RpcEnvelope) l l' b' :
  msg_ok G (me l, env) -> react env l = (l', b') -> outcome G l [] l' b'.
Proof.
  intros Hm. unfold react. destruct (is_pre_vote (env_payload env)) eqn:Ep.
  - intros Hd. eapply dispatch_outcome; [|done|done]. congruence.
  - destruct (maybe_step_down_on_higher_term _ _ _) as [[s c] sd] eqn:Es. intros Hd.
    destruct (step_down_reaction _ _ _ _ _ Es) as (Hrx & Hid & Hle & _).
    eapply outcome_trans; [apply Hrx|by eapply step_down_outcome|].
    eapply dispatch_outcome; [done| |done]. cbn. unfold identity_of in Hid. by injection Hid as -> _.
Qed.

Lemma elem_foldl_push {X} (keep : X -> bool) (f : X -> IoAction) (vs : list X) (b : IoActionBatch) a :
  a ∈ foldl (fun b x => if keep x then batch_push b (f x) else b) b vs -> a ∈ b \/ exists x, a = f x.
Proof.
  revert b. induction vs as [|x vs IH]; intros b; cbn; [by left|]. intros [Hin|?]%IH; [|by right].
  destruct (keep x); [|by left]. apply elem_push in Hin as [?|?]; [by left|right; by exists x].
Qed.

Lemma start_election_outcome G l s c b :
  current_term (base (state l)) < u64_max -> start_election (state l) (clock l) [] = (s, c, b) ->
  outcome G l [] (set_state s (set_clock c l)) b /\ vote_le (vote l) (vote_of_state s) /\
  role (base s) = Candidate.
Proof.
  intros Hb. unfold start_election. destruct (next_deadline (clock l)) as [c' d].
  set (s1 := nt_become_candidate d (state l)). intros [= <- <- <-].
  destruct (candidate_fields d (state l)) as (F1 & F2 & F3 & F4). fold s1 in F1, F2, F3, F4.
  pose proof (candidate_identity d (state l)) as Hid. fold s1 in Hid.
  unfold identity_of in Hid. injection Hid as I1 I2 I3 I4.
  unfold next_term in F1. rewrite u64_add_small in F1 by lia.
  assert (vote_le (vote l) (vote_of_state s1)) as Hv by (left; cbn; lia).
  split_and!; [split|done|done].
  - unfold ident. cbn. congruence.
  - intros _ _ v. cbn. rewrite F4, I1. intros ->%elem_of_singleton. by left.
  - intros tg env [[?%elem_of_nil|[=]]%elem_push|[x [= -> ->]]]%elem_foldl_push; [done|]. right. cbn. congruence.
  - intros qs [[?%elem_of_nil|[= ->]]%elem_push|[x [=]]]%elem_foldl_push; [done|]. by right.
Qed.

Lemma time_out_outcome G l l' b' :
  current_term (base (state l)) < u64_max -> time_out l = (l', b') -> outcome G l [] l' b'.
Proof.
  intros Hb. unfold time_out. destruct (start_election (state l) (clock l) []) as [[s c] b] eqn:Es.
  destruct (start_election_outcome G l s c b Hb Es) as (Hoc & Hv & Hr).
  destruct (_ =? 1)%nat; [|by intros [= <- <-]]. intros Hw.
  eapply outcome_trans; [|exact Hoc|by eapply win_election_outcome]. done.
Qed.

Lemma lose_quorum_outcome G (now : Instant) l l' b' :
  lose_quorum now l = (l', b') -> outcome G l [] l' b'.
Proof.
  unfold lose_quorum. destruct (clk_random_election_timeout (clock l)) as [c t]. intros [= <- <-].
  destruct (follower_fields (current_term (base (state l))) None (now + t) (state l)) as (F1 & F2 & _).
  pose proof (follower_identity (current_term (base (state l))) None (now + t) (state l)) as Hid.
  unfold identity_of in Hid. injection Hid as I1 _ I3 _.
  apply (outcome_follower G l []); [unfold ident; cbn; congruence|done|]. cbn. rewrite F1. by right; auto.
Qed.

Lemma time_out_grants l l' b' a : time_out l = (l', b') -> a ∈ b' -> grants a = None.
Proof.
  unfold time_out. destruct (start_election (state l) (clock l) []) as [[s c] b] eqn:Es. intros Hw Ha.
  assert (forall x, x ∈ b -> grants x = None) as Hb.
  { unfold start_election in Es. destruct (next_deadline (clock l)) as [c' d]. injection Es as _ _ <-.
    intros x [[?%elem_of_nil| ->]%elem_push|[v ->]]%elem_foldl_push; done. }
  destruct (_ =? 1)%nat; [|injection Hw as _ <-; auto].
  destruct (win_election_grants _ _ _ _ Hw) as (b1 & -> & Hb1). apply elem_of_app in Ha as [?|Ha]; [auto|].
  rewrite list.Forall_forall in Hb1. auto.
Qed.

(** ** Handling up to the I/O *)

(** A handler has changed [l] to [l'] and is about to execute [batch]; [inbox]
    is what may be delivered. *)
Inductive handling (inbox : RpcEnvelope -> Prop) l : Loop -> IoActionBatch -> Prop :=
| handling_rpc env l' batch :
    inbox env -> env_cluster_id env = cluster_id (base (state l)) -> react env l = (l', batch) ->
    handling inbox l l' batch
| handling_timeout l' batch :
    nt_is_voter (state l) = true -> current_term (base (state l)) < u64_max ->
    time_out l = (l', batch) -> handling inbox l l' batch
| handling_quorum now l' batch :
    lose_quorum now l = (l', batch) -> handling inbox l l' batch.

Lemma handling_spec G inbox l l' batch :
  good (state l) -> (forall env, inbox env -> msg_ok G (me l, env)) -> handling inbox l l' batch ->
  reaction l [] l' batch /\ outcome G l [] l' batch /\
  (forall a tg t, a ∈ batch -> grants a = Some (tg, t) -> vote l' = (t, Some tg)).
Proof.
  intros Hg Hin [env l1 b He Hc Hr|l1 b Hv Hb Ht|now l1 b Hq].
  - split_and!; [by eapply react_reaction|eapply react_outcome; [by apply Hin|done]|].
    intros a tg t Ha Hgr. by destruct (react_grants _ _ _ _ _ _ _ Hr Ha Hgr).
  - split_and!; [by apply time_out_reaction|by apply time_out_outcome|].
    intros a tg t Ha Hgr. by rewrite (time_out_grants _ _ _ _ Ht Ha) in Hgr.
  - split_and!; [by eapply lose_quorum_reaction|by eapply lose_quorum_outcome|].
    unfold lose_quorum in Hq. destruct (clk_random_election_timeout (clock l)). injection Hq as _ <-.
    by intros a tg t ->%list_elem_of_singleton.
Qed.

(** A step of a handler that executes nothing. *)
Definition quiet l l' : Prop :=
  ident l' = ident l /\ vote l' = vote l /\ role (base (state l')) = role (base (state l)) /\
  votes_received (base (state l')) = votes_received (base (state l)) /\
  cluster_id (base (state l')) = cluster_id (base (state l)) /\ io_stage l' = io_stage l.

Lemma check_timers_cases inbox l l' :
  current_term (base (state l)) < u64_max -> check_timers l = (l', Ok tt) ->
  quiet l l' \/ exists l0 l1 batch, quiet l l0 /\ handling inbox l0 l1 batch /\
    publish_and_execute batch l1 = (l', Ok tt).
Proof.
  intros Hb. unfold check_timers. destruct (clk_now (clock l)) as [c now]. cbn [set_clock state base].
  assert (quiet l (set_clock c l)) as Hq by done.
  destruct (role_eqb _ Leader); [destruct (_ <=? now)|destruct (_ && _)]; try (intros [= <-]; by left).
  - unfold handle_check_quorum. cbn. destruct (clk_now c) as [c1 now1].
    destruct (nt_check_quorum now1 _ (state l)); [intros [= <-]; by left|].
    destruct (lose_quorum now1 _) as [l1 b1] eqn:El. intros He. right.
    eexists _, l1, b1. split; [|split; [by eapply handling_quorum|done]]. done.
  - unfold handle_election_timeout. cbn. destruct (nt_is_voter (state l)) eqn:Ev; cbn [negb].
    + destruct (time_out (set_clock c l)) as [l1 b1] eqn:Et. intros He. right.
      exists (set_clock c l), l1, b1. split_and!; [done|by eapply handling_timeout|done].
    + destruct (next_deadline c) as [c' d]. intros [= <-]. by left.
Qed.

Lemma handle_rpc_cases (inbox : RpcEnvelope -> Prop) (env : RpcEnvelope) l l' :
  inbox env -> handle_rpc env l = (l', Ok tt) ->
  l' = l \/ exists l1 batch, handling inbox l l1 batch /\ publish_and_execute batch l1 = (l', Ok tt).
Proof.
  intros Hin. unfold handle_rpc. destruct (env_cluster_id env =? _) eqn:Ec; cbn [negb]; [|intros [= <-]; by left].
  destruct (react env l) as [l1 batch] eqn:Er. intros He. right. exists l1, batch. split; [|done].
  eapply handling_rpc; [done|lia|done].
Qed.
End Handlers.

(** ** The cluster *)

(** What a crash may be followed by. *)
Inductive Mode := CrashStop | WritesFirst | AnySchedule.

Section Cluster.
Context `{NodeTransitions} {CK LI L T Q S : Type} `{Clock CK} `{Listener LI}.
Context `{LogStore L} `{TransportSender T} `{QuorumStateStore QuorumState Q} `{SnapshotIO S}.
Context `{!NodeTransitionsLaws} `{!QuorumStateStoreLaws QuorumState Q} `{!TransportSenderLaws T}.
(** The voters, the same for all nodes. *)
Context (V : gset N).

Import ElectionManager EventLoop.

Abbreviation Loop := (EventLoop (CK := CK) (LI := LI) (L := L) (T := T) (Q := Q) (S := S)).
Abbreviation Stage := (TryJoined.IoStage (L := L) (T := T) (Q := Q) (S := S)).
Implicit Types (l : Loop) (G : N -> N -> N -> Prop) (mode : Mode).

Abbreviation vote l := (vote_of_state (state l)).
Abbreviation me l := (node_id (base (state l))).

Record Cluster := mkCluster {
  nodes : gmap N Loop;
  net : list (NodeId * RpcEnvelope);
}.

Definition inbox (i : N) (c : Cluster) (env : RpcEnvelope) : Prop := (i, env) ∈ net c.

(** Node [i] after a handler, with what it has sent on the network. *)
Definition set_node (i : N) l (c : Cluster) : Cluster :=
  mkCluster (<[i := l]> (nodes c)) (net c ++ stage_sent (io_stage l)).

(** How the stage may have got from one point of a batch to another. *)
Definition schedule mode (j j' : TryJoined.Joint (L := L) (T := T) (Q := Q) (S := S)) : Prop :=
  match mode with WritesFirst => rtc ordered_poll j j' | _ => rtc TryJoined.poll j j' end.

(** The stage a crash of node [i] leaves: that of an idle node, one between two
    actions of a batch, or one in the middle of a save, with either record. *)
Inductive crash_point mode (i : N) (c : Cluster) l : Stage -> Prop :=
| crash_idle : crash_point mode i c l (io_stage l)
| crash_busy l1 batch j :
    handling (inbox i c) l l1 batch -> schedule mode (TryJoined.start batch (io_stage l1)) j ->
    crash_point mode i c l (stage_of j)
| crash_saving l1 batch qs storage network st q :
    handling (inbox i c) l l1 batch ->
    schedule mode (TryJoined.start batch (io_stage l1))
      (TryJoined.Running (PersistQuorumState qs :: storage) network st) ->
    qss_persisted q = qss_persisted (TryJoined.quorum_store st) \/ qss_persisted q = Some qs ->
    crash_point mode i c l
      (TryJoined.mkStage (TryJoined.log_store st) (TryJoined.transport st) q (TryJoined.snapshot_io st)).

(** [l'] starts as a follower from what node [l] left on disk. *)
Definition recovers l (st : Stage) l' : Prop :=
  ident l' = ident l /\ role (base (state l')) = Follower /\
  qss_persisted (TryJoined.quorum_store (io_stage l')) = qss_persisted (TryJoined.quorum_store st) /\
  vote l' = durable_vote st /\ stage_sent (io_stage l') = [].

Inductive estep mode (c : Cluster) : Cluster -> Prop :=
| estep_timers i l l' :
    nodes c !! i = Some l -> current_term (base (state l)) < u64_max ->
    check_timers l = (l', Ok tt) -> estep mode c (set_node i l' c)
| estep_rpc i env l l' :
    nodes c !! i = Some l -> inbox i c env ->
    handle_rpc env l = (l', Ok tt) -> estep mode c (set_node i l' c)
| estep_sleep i l ck : nodes c !! i = Some l -> estep mode c (set_node i (set_clock ck l) c)
| estep_crash i l st :
    nodes c !! i = Some l -> crash_point mode i c l st ->
    estep mode c (mkCluster (delete i (nodes c)) (net c ++ stage_sent st))
| estep_restart i l st l' :
    mode <> CrashStop -> nodes c !! i = Some l -> crash_point mode i c l st -> recovers l st l' ->
    estep mode c (mkCluster (<[i := l']> (nodes c)) (net c ++ stage_sent st)).

(** Initially every node is a follower whose vote is on disk; no vote is on
    the network. *)
Definition initial (c : Cluster) : Prop :=
  (forall m, m ∈ net c -> msg_ok (fun _ _ _ => False) m) /\
  forall i l, nodes c !! i = Some l ->
    me l = i /\ NoDup (voter_ids (voter_set (base (state l)))) /\
    list_to_set (voter_ids (voter_set (base (state l)))) = V /\
    role (base (state l)) = Follower /\ durable_vote (io_stage l) = vote l /\
    stage_sent (io_stage l) = [].

Definition reachable mode (c : Cluster) : Prop := exists c0, initial c0 /\ rtc (estep mode) c0 c.

(** ** The invariant

    [G v t c] is ghost: [v] voted for [c] in term [t]. *)

Definition add_vote G (i : N) (v : Vote) : N -> N -> N -> Prop := fun w t c =>
  G w t c \/ (w = i /\ v = (t, Some c)).

Record node_ok mode G (i : N) l : Prop := {
  no_id : me l = i;
  no_nodup : NoDup (voter_ids (voter_set (base (state l))));
  no_voters : list_to_set (voter_ids (voter_set (base (state l)))) = V;
  no_good : good (state l);
  no_ghost : forall t c, G i t c -> vote_le (t, Some c) (vote l);
  no_known : forall t c, vote l = (t, Some c) -> G i t c;
  no_counted : counted G l;
  no_durable : mode = WritesFirst -> durable_vote (io_stage l) = vote l;
  no_sent : forall m, m ∈ stage_sent (io_stage l) -> msg_ok G m;
}.

Definition functional G : Prop := forall v t c c', G v t c -> G v t c' -> c = c'.

Record cluster_inv mode G (c : Cluster) : Prop := {
  ci_fun : functional G;
  ci_nodes : forall i l, nodes c !! i = Some l -> node_ok mode G i l;
  ci_net : forall m, m ∈ net c -> msg_ok G m;
}.

Lemma loop_msg_ok_mono G (i : N) (v : Vote) m : msg_ok G m -> msg_ok (add_vote G i v) m.
Proof. unfold msg_ok, add_vote. destruct (env_payload m.2); auto. Qed.

Lemma loop_node_ok_other mode G i j (v : Vote) l : i <> j -> node_ok mode G j l -> node_ok mode (add_vote G i v) j l.
Proof.
  intros Hij [N1 N2 N3 N4 N5 N6 N7 N8 N9]. split; try done; unfold add_vote.
  - intros t c [?|[? _]]; [auto|congruence].
  - auto.
  - intros Hr w Hw. destruct (N7 Hr w Hw) as [?|?]; auto.
  - intros m Hm. by apply loop_msg_ok_mono, N9.
Qed.

(** Node [i] moves its vote forward to [v]: the ghost stays functional. *)
Lemma functional_add mode G i l (v : Vote) :
  functional G -> node_ok mode G i l -> vote_le (vote l) v -> functional (add_vote G i v).
Proof.
  intros Hf Hok Hv.
  assert (forall t c c', G i t c -> v = (t, Some c') -> c = c') as Hnew.
  { intros t c c' Hg ->. pose proof (no_ghost _ _ _ _ Hok _ _ Hg) as Hle.
    assert (vote_le (t, Some c) (t, Some c')) as [?|[_ [= ->]]]%vote_le_some by (by etrans); [lia|done]. }
  intros w t c c' [H1'|[-> H1']] [H2'|[He H2']]; subst; eauto; [|congruence]. symmetry. eauto.
Qed.

(** Messages of a batch, once the vote behind them is known. *)
Lemma batch_msgs G i l l' (batch : IoActionBatch) m :
  me l = i -> outcome G l [] l' batch ->
  (forall a tg t, a ∈ batch -> grants a = Some (tg, t) -> vote l' = (t, Some tg)) ->
  SendRpc m.1 m.2 ∈ batch -> msg_ok (add_vote G i (vote l')) m.
Proof.
  intros Hme Hoc Hgr Hin. unfold msg_ok. destruct (env_payload m.2) as [|resp| | | | | | | |] eqn:Ep; try done.
  intros Hg Hp. right. destruct (oc_sends _ _ _ _ _ Hoc _ _ Hin) as [?%elem_of_nil|Hs]; [done|].
  split; [congruence|]. apply (Hgr _ _ _ Hin). cbn. by rewrite Ep, Hg, Hp.
Qed.

(** The memory of a node after a handler, before the I/O. *)
Lemma handled_memory mode G inbox i l l' batch :
  node_ok mode G i l -> (forall env, inbox env -> msg_ok G (i, env)) -> handling inbox l l' batch ->
  let G' := add_vote G i (vote l') in
  ident l' = ident l /\ good (state l') /\ counted G' l' /\ vote_le (vote l) (vote l') /\
  io_stage l' = io_stage l /\
  (forall m, SendRpc m.1 m.2 ∈ batch -> msg_ok G' m) /\
  (forall v, v = vote l -> recorded v batch = vote l') /\
  (forall qs, PersistQuorumState qs ∈ batch -> vote_le (vote l) (record_vote_of qs)).
Proof.
  intros Hok Hin Hh G'. pose proof (no_id _ _ _ _ Hok) as Hme.
  destruct (handling_spec G inbox l l' batch) as (Hrx & Hoc & Hgr);
    [apply Hok|by rewrite Hme|done|]. split_and!.
  - apply Hoc.
  - apply Hrx, Hok.
  - intros Hr v Hv. destruct (oc_counted _ _ _ _ _ Hoc (no_counted _ _ _ _ Hok) Hr v Hv) as [?|?];
      [by left|right; by left].
  - apply Hrx.
  - apply Hrx.
  - intros m Hm. by eapply batch_msgs.
  - intros v ->. by apply (rx_recorded _ _ _ _ Hrx).
  - intros qs Hq. by destruct (oc_records _ _ _ _ _ Hoc qs Hq) as [?%elem_of_nil|?].
Qed.

(** A node whose vote has moved forward. *)
Lemma node_ok_moved mode G i l l' :
  node_ok mode G i l -> ident l' = ident l -> good (state l') -> vote_le (vote l) (vote l') ->
  let G' := add_vote G i (vote l') in
  counted G' l' -> (mode = WritesFirst -> durable_vote (io_stage l') = vote l') ->
  (forall m, m ∈ stage_sent (io_stage l') -> msg_ok G' m) -> node_ok mode G' i l'.
Proof.
  intros [N1 N2 N3 N4 N5 N6 N7 N8 N9] Hid Hg Hv G' Hc Hd Hs.
  unfold ident in Hid. injection Hid as I1 I2. split; try done; [congruence|congruence|congruence| |].
  - intros t c [Hg'|[_ ->]]; [|done]. etrans; [by apply N5|done].
  - intros t c Hvt. by right.
Qed.

Lemma cluster_inv_set mode G i l l' (sent : list (NodeId * RpcEnvelope)) (c : Cluster) :
  cluster_inv mode G c -> nodes c !! i = Some l -> vote_le (vote l) (vote l') ->
  let G' := add_vote G i (vote l') in
  node_ok mode G' i l' -> (forall m, m ∈ sent -> msg_ok G' m) ->
  cluster_inv mode G' (mkCluster (<[i := l']> (nodes c)) (net c ++ sent)).
Proof.
  intros [Hf Hn Hm] Hi Hv G' Hok Hs. split; cbn.
  - eapply functional_add; [done|by apply Hn|done].
  - intros j k. destruct (decide (i = j)) as [<-|Hne].
    + rewrite lookup_insert_eq. by intros [= <-].
    + rewrite lookup_insert_ne by done. intros Hj. apply loop_node_ok_other; auto.
  - intros m [Hin|Hin]%elem_of_app; [by apply loop_msg_ok_mono, Hm|by apply Hs].
Qed.

(** *** Handlers whose I/O succeeds *)

Lemma publish_and_execute_sent (batch : IoActionBatch) l l' :
  publish_and_execute batch l = (l', Ok tt) ->
  state l' = state l /\ durable_vote (io_stage l') = recorded (durable_vote (io_stage l)) batch /\
  sends_of batch (io_stage l) (io_stage l').
Proof.
  intros He. destruct (publish_and_execute_ok _ _ _ _ He) as [Hs Hd]. split_and!; [done|auto|].
  unfold publish_and_execute in He. cbn in He.
  destruct (TryJoined.execute batch (io_stage l)) as [io r] eqn:Ex. injection He as <- ->.
  apply execute_ordered in Ex. cbn.
  apply (poll_polled batch (io_stage l) (TryJoined.Running [] [] io)).
  revert Ex. generalize (TryJoined.start batch (io_stage l)). intros j Hr.
  induction Hr as [|? ? ? Hp _ IH]; [done|]. eapply rtc_l; [by apply ordered_poll_poll|done].
Qed.

Lemma executed_inv mode G i l l1 l' batch (c : Cluster) :
  cluster_inv mode G c -> nodes c !! i = Some l ->
  handling (inbox i c) l l1 batch -> publish_and_execute batch l1 = (l', Ok tt) ->
  exists G', cluster_inv mode G' (set_node i l' c).
Proof.
  intros Hinv Hi Hh He. pose proof (ci_nodes _ _ _ Hinv _ _ Hi) as Hok.
  destruct (handled_memory mode G (inbox i c) i l l1 batch Hok) as (M1 & M2 & M3 & M4 & M5 & M6 & M7 & _);
    [intros env Hin; by apply (ci_net _ _ _ Hinv)|done|].
  destruct (publish_and_execute_sent _ _ _ He) as (Hs & Hd & Hsend).
  assert (node_ok mode (add_vote G i (vote l')) i l') as Hok'.
  { apply node_ok_moved with (l := l); unfold ident, counted, running in *; rewrite ?Hs; try done.
    - intros Hm. rewrite Hd, M5. apply M7. by apply (no_durable _ _ _ _ Hok).
    - intros m Hm. destruct (Hsend m Hm) as [Hold|Hnew]; [|by apply M6].
      rewrite M5 in Hold. by apply loop_msg_ok_mono, (no_sent _ _ _ _ Hok). }
  exists (add_vote G i (vote l')). eapply cluster_inv_set; [done|done|by rewrite Hs|done|apply Hok'].
Qed.

Lemma quiet_inv mode G i l l' (c : Cluster) :
  cluster_inv mode G c -> nodes c !! i = Some l -> quiet l l' -> cluster_inv mode G (set_node i l' c).
Proof.
  intros [Hf Hn Hm] Hi (Q1 & Q2 & Q3 & Q4 & _ & Q6). pose proof (Hn _ _ Hi) as [N1 N2 N3 N4 N5 N6 N7 N8 N9].
  unfold ident in Q1. injection Q1 as I1 I2. pose proof Q2 as Q2'. unfold vote_of_state in Q2. injection Q2 as V1 V2.
  assert (node_ok mode G i l') as Hok'.
  { split; try done; rewrite ?I1, ?I2, ?Q2', ?Q6; try done.
    - unfold good. by rewrite Q3, Q4, V2, I1, I2.
    - unfold counted, running. by rewrite Q3, Q4, V1, I1. }
  split; [done| |]; cbn.
  - intros j k. destruct (decide (i = j)) as [<-|Hne]; [rewrite lookup_insert_eq; by intros [= <-]|].
    rewrite lookup_insert_ne by done. auto.
  - intros m [Hin|Hin]%elem_of_app; [auto|by apply Hok'].
Qed.
(** *** Crashes *)

Lemma cluster_inv_sub mode G (c c' : Cluster) :
  cluster_inv mode G c -> nodes c' = nodes c -> net c' ⊆ net c -> cluster_inv mode G c'.
Proof. intros [Hf Hn Hm] He Hs. split; [done|by rewrite He|]. intros m Hin. auto. Qed.

Lemma timers_inv mode G i l l' (c : Cluster) :
  cluster_inv mode G c -> nodes c !! i = Some l -> current_term (base (state l)) < u64_max ->
  check_timers l = (l', Ok tt) -> exists G', cluster_inv mode G' (set_node i l' c).
Proof.
  intros Hinv Hi Hb Ht.
  assert (forall l0, quiet l l0 -> cluster_inv mode G (set_node i l0 c)) as Hq by (intros; by eapply quiet_inv).
  destruct (check_timers_cases (fun _ => False) _ _ Hb Ht) as [Hl|(l0 & l1 & batch & Hl & Hh & He)];
    [by exists G; apply Hq|].
  destruct (executed_inv mode G i l0 l1 l' batch (set_node i l0 c)) as [G' HG'];
    [by apply Hq|apply lookup_insert_eq| |done|].
  - destruct Hh; [done|by eapply handling_timeout|by eapply handling_quorum].
  - exists G'. eapply cluster_inv_sub; [done| |]; cbn; [by rewrite insert_insert_eq|set_solver].
Qed.

Lemma rtc_ordered_poll (j j' : TryJoined.Joint (L := L) (T := T) (Q := Q) (S := S)) :
  rtc ordered_poll j j' -> rtc TryJoined.poll j j'.
Proof. induction 1 as [|? ? ? Hp _ IH]; [done|]. eapply rtc_l; [by apply ordered_poll_poll|done]. Qed.

Lemma schedule_poll mode (j j' : TryJoined.Joint (L := L) (T := T) (Q := Q) (S := S)) :
  schedule mode j j' -> rtc TryJoined.poll j j'.
Proof. destruct mode; [done|apply rtc_ordered_poll|done]. Qed.

(** Whatever the schedule, the messages of a batch are covered by the vote it
    is about to write. *)
Lemma scheduled_msgs mode G i l l1 batch j (c : Cluster) :
  cluster_inv mode G c -> nodes c !! i = Some l -> handling (inbox i c) l l1 batch ->
  schedule mode (TryJoined.start batch (io_stage l1)) j ->
  vote_le (vote l) (vote l1) /\
  forall m, m ∈ stage_sent (stage_of j) -> msg_ok (add_vote G i (vote l1)) m.
Proof.
  intros Hinv Hi Hh Hj. pose proof (ci_nodes _ _ _ Hinv _ _ Hi) as Hok.
  destruct (handled_memory mode G (inbox i c) i l l1 batch Hok) as (_ & _ & _ & M4 & M5 & M6 & _);
    [intros env Hin; by apply (ci_net _ _ _ Hinv)|done|].
  split; [done|]. intros m Hm. destruct (poll_polled _ _ _ (schedule_poll _ _ _ Hj)) as [Hsend _].
  destruct (Hsend m Hm) as [Hold|Hnew]; [|by apply M6].
  rewrite M5 in Hold. by apply loop_msg_ok_mono, (no_sent _ _ _ _ Hok).
Qed.

Lemma crash_inv mode G i l (st : Stage) (c : Cluster) :
  cluster_inv mode G c -> nodes c !! i = Some l -> crash_point mode i c l st ->
  exists G', cluster_inv mode G' (mkCluster (delete i (nodes c)) (net c ++ stage_sent st)).
Proof.
  intros Hinv Hi Hcp. pose proof (ci_nodes _ _ _ Hinv _ _ Hi) as Hok.
  assert (exists v, vote_le (vote l) v /\ forall m, m ∈ stage_sent st -> msg_ok (add_vote G i v) m) as (v & Hv & Hs).
  { destruct Hcp as [|l1 batch j Hh Hj|l1 batch qs s n st q Hh Hj _].
    - exists (vote l). split; [done|]. intros m Hm. by apply loop_msg_ok_mono, (no_sent _ _ _ _ Hok).
    - exists (vote l1). by eapply scheduled_msgs.
    - exists (vote l1). by destruct (scheduled_msgs _ _ _ _ _ _ _ _ Hinv Hi Hh Hj). }
  exists (add_vote G i v). destruct Hinv as [Hf Hn Hm]. split; cbn.
  - by eapply functional_add.
  - intros j k [Hne Hj]%lookup_delete_Some. apply loop_node_ok_other; auto.
  - intros m [Hin|Hin]%elem_of_app; [by apply loop_msg_ok_mono, Hm|by apply Hs].
Qed.

(** What a restart finds when the stage writes before it sends. *)
Lemma crash_writes_first G i l (st : Stage) (c : Cluster) :
  cluster_inv WritesFirst G c -> nodes c !! i = Some l -> crash_point WritesFirst i c l st ->
  vote_le (vote l) (durable_vote st) /\
  forall m, m ∈ stage_sent st -> msg_ok (add_vote G i (durable_vote st)) m.
Proof.
  intros Hinv Hi Hcp. pose proof (ci_nodes _ _ _ Hinv _ _ Hi) as Hok.
  pose proof (no_durable _ _ _ _ Hok eq_refl) as Hd.
  assert (forall v m, m ∈ stage_sent (io_stage l) -> msg_ok (add_vote G i v) m) as Hold
    by (intros v m Hm; by apply loop_msg_ok_mono, (no_sent _ _ _ _ Hok)).
  destruct Hcp as [|l1 batch j Hh Hj|l1 batch qs s n st q Hh Hj Hq]; [rewrite Hd; by split; [|apply Hold]|..];
    (destruct (handled_memory WritesFirst G (inbox i c) i l l1 batch Hok) as (_ & _ & _ & _ & M5 & M6 & M7 & M8);
      [intros env Hin; by apply (ci_net _ _ _ Hinv)|done|]);
    pose proof (ordered_schedule _ _ _ Hj) as [Hdur Hsend]; rewrite M5, Hd in Hdur, Hsend.
  - split; [destruct Hdur as [->|(qs & Hq & ->)]; [done|by apply M8]|].
    intros m Hm. destruct (Hsend m Hm) as [?|[Hnew ->]]; [by apply Hold|].
    rewrite (M7 _ eq_refl). by apply M6.
  - destruct (ordered_saving _ _ _ _ _ _ Hj) as [Hin Hs]. rewrite M5 in Hs. cbn [stage_of] in Hdur. split.
    + unfold durable_vote at 1. cbn. destruct Hq as [->| ->]; [|by apply M8].
      fold (durable_vote st). destruct Hdur as [->|(qs' & Hq & ->)]; [done|by apply M8].
    + intros m Hm. by apply Hold, Hs.
Qed.

Lemma restart_inv G i l (st : Stage) l' (c : Cluster) :
  cluster_inv WritesFirst G c -> nodes c !! i = Some l -> crash_point WritesFirst i c l st ->
  recovers l st l' ->
  exists G', cluster_inv WritesFirst G' (mkCluster (<[i := l']> (nodes c)) (net c ++ stage_sent st)).
Proof.
  intros Hinv Hi Hcp (R1 & R2 & R3 & R4 & R5).
  destruct (crash_writes_first _ _ _ _ _ Hinv Hi Hcp) as [Hv Hs]. rewrite <- R4 in Hv, Hs.
  exists (add_vote G i (vote l')). eapply cluster_inv_set; [done|done|done| |done].
  apply node_ok_moved with (l := l); try done.
  - by eapply ci_nodes.
  - unfold good. rewrite R2. intros [?|?]; done.
  - unfold counted, running. rewrite R2. intros [?|?]; done.
  - intros _. rewrite R4. unfold durable_vote. by rewrite R3.
  - rewrite R5. by intros m ?%elem_of_nil.
Qed.

Lemma estep_inv mode G (c c' : Cluster) :
  mode <> AnySchedule -> cluster_inv mode G c -> estep mode c c' -> exists G', cluster_inv mode G' c'.
Proof.
  intros Hmode Hinv [i l l' Hi Hb Ht|i env l l' Hi Hin Hr|i l ck Hi|i l st Hi Hcp|i l st l' Hne Hi Hcp Hrec].
  - by eapply timers_inv.
  - destruct (handle_rpc_cases (inbox i c) env l l' Hin Hr) as [->|(l1 & batch & Hh & He)].
    + exists G. by eapply quiet_inv.
    + by eapply executed_inv.
  - exists G. by eapply quiet_inv.
  - by eapply crash_inv.
  - destruct mode; [done|by eapply restart_inv|done].
Qed.

Lemma initial_inv mode (c : Cluster) : initial c -> exists G, cluster_inv mode G c.
Proof.
  intros [Hm Hn]. exists (fun w t k => exists l, nodes c !! w = Some l /\ vote l = (t, Some k)). split.
  - intros v t k k' (l & Hl & Hv) (l' & Hl' & Hv'). simplify_eq. congruence.
  - intros i l Hi. destruct (Hn i l Hi) as (H1' & H2' & H3' & H4' & H5' & H6'). split; try done.
    + unfold good. rewrite H4'. intros [?|?]; done.
    + intros t k (l' & Hl' & Hv). simplify_eq. by rewrite Hv.
    + intros t k Hv. by exists l.
    + unfold counted, running. rewrite H4'. intros [?|?]; done.
    + rewrite H6'. by intros m ?%elem_of_nil.
  - intros m Hin. specialize (Hm m Hin). unfold msg_ok in *. destruct (env_payload m.2); naive_solver.
Qed.

Lemma loop_reachable_inv mode (c : Cluster) :
  mode <> AnySchedule -> reachable mode c -> exists G, cluster_inv mode G c.
Proof.
  intros Hmode (c0 & Hinit & Hr). apply (initial_inv mode) in Hinit as [G HG]. revert G HG.
  induction Hr as [c|c c1 c2 Hs _ IH]; intros G HG; [by exists G|].
  destruct (estep_inv _ _ _ _ Hmode HG Hs) as [G' HG']. by eapply IH.
Qed.

(** Leaders of the same term share a voter, which voted once. *)
Lemma loop_one_leader mode (c : Cluster) (i j : N) l k :
  mode <> AnySchedule -> reachable mode c ->
  nodes c !! i = Some l -> nodes c !! j = Some k ->
  role (base (state l)) = Leader -> role (base (state k)) = Leader ->
  current_term (base (state l)) = current_term (base (state k)) -> i = j.
Proof.
  intros Hmode Hr Hi Hj Hli Hlj Ht. destruct (loop_reachable_inv mode c Hmode Hr) as [G [Hf Hn _]].
  assert (forall i l, nodes c !! i = Some l -> role (base (state l)) = Leader ->
    (forall v, v ∈ votes_received (base (state l)) -> v ∈ V /\ G v (current_term (base (state l))) i) /\
    (majority_of (size V) <= size (votes_received (base (state l))))%nat) as Hlead.
  { clear -Hn. intros i l Hi Hl. destruct (Hn i l Hi) as [N1 N2 N3 N4 N5 N6 N7 _ _].
    destruct (N4 (or_intror Hl)) as (G1 & G2 & G3). split.
    - intros v Hv. split; [rewrite <- N3; by apply G2|].
      destruct (N7 (or_intror Hl) v Hv) as [->|Hg]; [|by rewrite N1 in Hg].
      rewrite N1. apply N6. unfold vote_of_state. by rewrite G1, N1.
    - rewrite <- N3, size_list_to_set by done. unfold voter_ids. rewrite length_map. auto. }
  destruct (Hlead i l Hi Hli) as [Ai Mi], (Hlead j k Hj Hlj) as [Aj Mj].
  destruct (majority_intersect V (votes_received (base (state l))) (votes_received (base (state k))))
    as (x & Hx & Hy); [intros v Hv; by apply Ai|intros v Hv; by apply Aj|done|done|].
  eapply Hf; [by apply Ai|rewrite Ht; by apply Aj].
Qed.

(** C12: Election safety of the event-driven node.  In a cluster of event loops
    on a network that delays, reorders, duplicates and loses messages, two
    leaders of the same term are the same node: when crashed nodes stay away,
    whatever the interleaving of writes and sends and whatever fails, and also
    when crashed nodes restart from their disks at any point, provided the I/O
    stage writes the records of a batch before it sends its messages. *)
Theorem event_loop_election_safety mode (c : Cluster) (i j : N) l k :
  mode <> AnySchedule -> reachable mode c ->
  nodes c !! i = Some l -> nodes c !! j = Some k ->
  role (base (state l)) = Leader -> role (base (state k)) = Leader ->
  current_term (base (state l)) = current_term (base (state k)) -> i = j.
Proof. apply loop_one_leader. Qed.
End Cluster.

(** ** Runs of three nodes *)

Module ClusterDemo.

Import ElectionManager EventLoop EventLoopDemo.

Abbreviation DCluster := (Cluster (CK := Mocks.MockClock) (LI := unit) (L := Mocks.MockLogStore)
  (T := Mocks.MockTransportSender) (Q := Mocks.MockQuorumStateStore QuorumState) (S := Mocks.MockSnapshotIO)).

Definition V3 : gset N := {[1; 2; 3]}.

(** Node [i], a follower without a vote. *)
Definition fresh (i : N) : Loop :=
  mkLoop (mkElectionState ((new_unattached i 0) <| cluster_id := 9 |> <| role := Follower |>
            <| voter_set := voter_set demo_base |>) 0 0) (Mocks.clock_new 0)
    (TryJoined.mkStage Mocks.log_new Mocks.sender_new Mocks.quorum_new Mocks.snapshot_new) tt [].

Definition start3 : DCluster :=
  mkCluster (<[1 := fresh 1]> (<[2 := fresh 2]> (<[3 := fresh 3]> ∅))) [].

Lemma loop_start3_initial : initial V3 start3.
Proof.
  split; [by intros m ?%elem_of_nil|]. intros i l Hi. cbn in Hi.
  assert (l = fresh i /\ i ∈ V3) as [-> _].
  { repeat (apply lookup_insert_Some in Hi as [[<- <-]|[_ Hi]]; [by split; vm_compute|]). done. }
  split_and!; try done. cbn. repeat (constructor; [set_solver|]). constructor.
Qed.

Definition node_at (i : N) (c : DCluster) : Loop := default (fresh 0) (nodes c !! i).

Definition timers (i : N) (c : DCluster) : DCluster := set_node i (check_timers (node_at i c)).1 c.
Definition hand_over (i : N) (env : RpcEnvelope) (c : DCluster) : DCluster :=
  set_node i (handle_rpc env (node_at i c)).1 c.

(** The request of [i] and the answer of [j], both in term 1. *)
Definition request (i : N) : RpcEnvelope :=
  mkRpcEnvelope 9 0 i (PVoteRequest (mkVoteRequest 1 i 0 0 false)).
Definition grant (j : N) : RpcEnvelope :=
  mkRpcEnvelope 9 0 j (PVoteResponse (mkVoteResponse 1 true false)).

Lemma timers_step mode i c :
  is_Some (nodes c !! i) -> (current_term (base (state (node_at i c))) <? u64_max) = true ->
  is_ok (check_timers (node_at i c)).2 = true -> estep mode c (timers i c).
Proof.
  intros [l Hl] Hb Hok. unfold timers, node_at in *. rewrite Hl in *. cbn [from_option id] in *.
  revert Hok. destruct (check_timers l) as [l' [[]|e]] eqn:E; cbn [snd is_ok]; [intros _|done]. eapply estep_timers; [done| |done].
  by apply N.ltb_lt.
Qed.

Lemma deliver_step mode i env c :
  is_Some (nodes c !! i) -> (i, env) ∈ net c ->
  is_ok (handle_rpc env (node_at i c)).2 = true -> estep mode c (hand_over i env c).
Proof.
  intros [l Hl] Hin Hok. unfold hand_over, node_at in *. rewrite Hl in *. cbn [from_option id] in *.
  revert Hok. destruct (handle_rpc env l) as [l' [[]|e]] eqn:E; cbn [snd is_ok]; [intros _|done]. by eapply estep_rpc.
Qed.

(** Nodes 1 and 2 time out, node 3 votes for 1. *)
Definition rivals : DCluster := timers 2 (timers 1 start3).
Definition elected : DCluster := hand_over 1 (grant 3) (hand_over 3 (request 1) rivals).

Lemma rivals_reachable mode : rtc (estep mode) start3 rivals.
Proof.
  eapply rtc_l; [apply (timers_step mode 1); [eexists; by vm_compute|by vm_compute..]|].
  eapply rtc_l; [apply (timers_step mode 2); [eexists; by vm_compute|by vm_compute..]|].
  apply rtc_refl.
Qed.

Lemma lookup_net (c : DCluster) (k : nat) m : net c !! k = Some m -> m ∈ net c.
Proof. apply list_elem_of_lookup_2. Qed.
Lemma loop_elected_reachable mode : reachable V3 mode elected.
Proof.
  exists start3. split; [apply loop_start3_initial|]. etrans; [apply rivals_reachable|].
  eapply rtc_l; [apply (deliver_step mode 3 (request 1)); [eexists; by vm_compute| |by vm_compute]|].
  { apply (lookup_net _ 1). by vm_compute. }
  eapply rtc_l; [apply (deliver_step mode 1 (grant 3)); [eexists; by vm_compute| |by vm_compute]|].
  { apply (lookup_net _ 4). by vm_compute. }
  apply rtc_refl.
Qed.

Lemma event_loop_election_safety_witness :
  role (base (state (node_at 1 elected))) = Leader /\
  (forall j k, nodes elected !! j = Some k -> role (base (state k)) = Leader ->
     current_term (base (state k)) = 1 -> 1 = j).
Proof.
  split; [by vm_compute|]. intros j k Hj Hl Ht.
  apply (event_loop_election_safety V3 WritesFirst elected 1 j (node_at 1 elected) k);
    [done|apply loop_elected_reachable|by vm_compute|exact Hj|by vm_compute|exact Hl|rewrite Ht; by vm_compute].
Defined.

(** Node 3 handles the request of node 1. *)
Definition voting : Loop := (react (request 1) (fresh 3)).1.
Definition vote_records : list IoAction :=
  [PersistQuorumState (mkQuorumState 1 None None 0); PersistQuorumState (mkQuorumState 1 (Some 1) None 0)].

Lemma voting_react : react (request 1) (fresh 3) = (voting, vote_records ++ [SendRpc 1 (grant 3)]).
Proof. by vm_compute. Qed.
Lemma voting_stage : io_stage voting = io_stage (fresh 3).
Proof. by vm_compute. Qed.

(** The grant is on the wire, its record is not on disk. *)
Definition torn_stage : TryJoined.IoStage (L := Mocks.MockLogStore) (T := Mocks.MockTransportSender)
    (Q := Mocks.MockQuorumStateStore QuorumState) (S := Mocks.MockSnapshotIO) :=
  TryJoined.mkStage Mocks.log_new (Mocks.sender_send 1 (grant 3) Mocks.sender_new).1 Mocks.quorum_new
    Mocks.snapshot_new.

(** Node 3 restarts there. *)
Definition forgetful : DCluster :=
  mkCluster (<[3 := fresh 3]> (nodes rivals)) (net rivals ++ stage_sent torn_stage).

Lemma forgetful_step : estep AnySchedule rivals forgetful.
Proof.
  apply (estep_restart AnySchedule rivals 3 (fresh 3) torn_stage (fresh 3)); [done|by vm_compute| |by vm_compute].
  apply (crash_busy AnySchedule 3 rivals (fresh 3) voting (vote_records ++ [SendRpc 1 (grant 3)])
    (TryJoined.Running vote_records [] torn_stage)).
  - apply (handling_rpc _ _ (request 1)); [|by vm_compute|exact voting_react].
    apply (lookup_net _ 1). by vm_compute.
  - rewrite voting_stage. eapply rtc_l; [|apply rtc_refl].
    by apply (TryJoined.poll_network (SendRpc 1 (grant 3))).
Qed.

Definition split_brain : DCluster :=
  hand_over 2 (grant 3) (hand_over 1 (grant 3) (hand_over 3 (request 2) forgetful)).

(** With the interleaving of [io_action.rs] a node that crashes after it sent a
    vote and before it wrote it votes a second time in the same term: the
    cluster has two leaders of term 1. *)
Lemma torn_batch_elects_two_leaders :
  reachable V3 AnySchedule split_brain /\
  role (base (state (node_at 1 split_brain))) = Leader /\
  role (base (state (node_at 2 split_brain))) = Leader /\
  current_term (base (state (node_at 1 split_brain))) = 1 /\
  current_term (base (state (node_at 2 split_brain))) = 1.
Proof.
  split; [|by vm_compute]. exists start3. split; [apply loop_start3_initial|].
  etrans; [apply rivals_reachable|]. eapply rtc_l; [apply forgetful_step|].
  eapply rtc_l; [apply (deliver_step AnySchedule 3 (request 2)); [eexists; by vm_compute| |by vm_compute]|].
  { apply (lookup_net _ 3). by vm_compute. }
  eapply rtc_l; [apply (deliver_step AnySchedule 1 (grant 3)); [eexists; by vm_compute| |by vm_compute]|].
  { apply (lookup_net _ 4). by vm_compute. }
  eapply rtc_l; [apply (deliver_step AnySchedule 2 (grant 3)); [eexists; by vm_compute| |by vm_compute]|].
  { apply (lookup_net _ 5). by vm_compute. }
  apply rtc_refl.
Qed.

End ClusterDemo.
