(* ===== verification/DiskCluster.v ===== *)
(** * Event loops on files

    The cluster of [EventLoopCluster] with the quorum-state file of the storage
    crate under it.  A crash leaves files: those of an idle node, those between
    two actions of a batch, or what the file operations of a save have got to
    when the process dies or the power fails inside it.  A restart opens the
    file and starts from the record it finds.  Every run of this cluster is a
    run of the abstract one in which the stage writes before it sends, so that
    election safety holds there down to the bytes on disk, and no crash leaves
    a file that cannot be opened. *)

From Stdlib Require Import ZifyBool ZifyN ZifyNat Lia.
From stdpp Require Import base gmap numbers option strings relations list.
From S2P Require Import Prelude Types NodeState Interfaces Mocks RaftNodeProps IoStage EventLoop.
From S2P Require Import StoreFiles StorageEngine EventLoopCluster.

Section Disk.
Context `{NodeTransitions} {CK LI L T S : Type} `{Clock CK} `{Listener LI}.
Context `{LogStore L} `{TransportSender T} `{SnapshotIO S}.
Context `{!NodeTransitionsLaws} `{!TransportSenderLaws T}.
(** JSON. *)
Context (print : QuorumState -> option bytes) (parse : bytes -> option QuorumState).
Context (parse_print : forall s json, print s = Some json -> parse json = Some s).
Context (V : gset N).

Import ElectionManager EventLoop AtomicFile QuorumStateFile.

#[local] Instance disk_QuorumStateStore : QuorumStateStore QuorumState QuorumStateFile :=
  file_QuorumStateStore print.
#[local] Instance disk_QuorumStateStoreLaws : QuorumStateStoreLaws QuorumState QuorumStateFile :=
  file_QuorumStateStoreLaws print.

Abbreviation Loop := (EventLoop (CK := CK) (LI := LI) (L := L) (T := T) (Q := QuorumStateFile) (S := S)).
Abbreviation Stage := (TryJoined.IoStage (L := L) (T := T) (Q := QuorumStateFile) (S := S)).
Abbreviation DiskCluster := (Cluster (CK := CK) (LI := LI) (L := L) (T := T) (Q := QuorumStateFile) (S := S)).
Implicit Types (l : Loop) (st : Stage) (c : DiskCluster).

Abbreviation quorum_file st := (TryJoined.quorum_store st).
Abbreviation file_of l := (TryJoined.quorum_store (io_stage l)).

(** The files of a crashed node, and the messages it had sent.  The process may
    die or the power fail; the directory survives ([DirKept]). *)
Inductive left_on_disk (i : N) c l : FileSystem -> list (NodeId * RpcEnvelope) -> Prop :=
| left_idle f' :
    after_crash DirKept (fs (file_of l)) f' -> left_on_disk i c l f' (stage_sent (io_stage l))
| left_between l1 batch j f' :
    handling (inbox i c) l l1 batch -> rtc ordered_poll (TryJoined.start batch (io_stage l1)) j ->
    after_crash DirKept (fs (quorum_file (stage_of j))) f' ->
    left_on_disk i c l f' (stage_sent (stage_of j))
| left_saving l1 batch qs storage network st ops f' :
    handling (inbox i c) l l1 batch ->
    rtc ordered_poll (TryJoined.start batch (io_stage l1))
      (TryJoined.Running (PersistQuorumState qs :: storage) network st) ->
    save_ops print qs (quorum_file st) = Some ops ->
    crash_in DirKept ops (fs (quorum_file st)) f' ->
    left_on_disk i c l f' (stage_sent st).

(** The vote in the file of a new process. *)
Definition loaded_vote (q : QuorumStateFile) : Vote :=
  match load q with Ok (Some qs) => record_vote_of qs | _ => (term_zero, None) end.

(** [l'] starts over the files [f] that [l] left, as a new process. *)
Definition restarts l (f : FileSystem) l' : Prop :=
  ident l' = ident l /\ role (base (state l')) = Follower /\
  (exists pid faults, open parse f pid faults = Ok (file_of l')) /\
  vote_of_state (state l') = loaded_vote (file_of l') /\ stage_sent (io_stage l') = [].

Inductive dstep c : DiskCluster -> Prop :=
| dstep_timers i l l' :
    nodes c !! i = Some l -> current_term (base (state l)) < u64_max ->
    check_timers l = (l', Ok tt) -> dstep c (set_node i l' c)
| dstep_rpc i env l l' :
    nodes c !! i = Some l -> inbox i c env ->
    handle_rpc env l = (l', Ok tt) -> dstep c (set_node i l' c)
| dstep_sleep i l ck : nodes c !! i = Some l -> dstep c (set_node i (set_clock ck l) c)
| dstep_crash i l f sent :
    nodes c !! i = Some l -> left_on_disk i c l f sent ->
    dstep c (mkCluster (delete i (nodes c)) (net c ++ sent))
| dstep_restart i l f sent l' :
    nodes c !! i = Some l -> left_on_disk i c l f sent -> restarts l f l' ->
    dstep c (mkCluster (<[i := l']> (nodes c)) (net c ++ sent)).

(** Initially every node has opened its file, in a directory at rest. *)
Definition disk_initial c : Prop :=
  initial V c /\
  forall i l, nodes c !! i = Some l -> exists f pid faults, at_rest f /\ open parse f pid faults = Ok (file_of l).

Definition disk_reachable c : Prop := exists c0, disk_initial c0 /\ rtc dstep c0 c.

(** ** The file of a node *)

Lemma exec_action_file (a : IoAction) st st' r :
  file_ok parse (quorum_file st) -> TryJoined.exec_action a st = (st', r) -> file_ok parse (quorum_file st').
Proof.
  intros Hq. destruct a as [qs|es|from|up|tg env|snap]; cbn.
  - destruct (save print qs (quorum_file st)) as [q r'] eqn:E. intros [= <- _]. cbn.
    by destruct (save_file_ok print parse parse_print qs _ _ _ Hq E).
  - destruct (ls_append _ _). by intros [= <- _].
  - destruct (ls_truncate_suffix _ _). by intros [= <- _].
  - destruct (ls_truncate_prefix _ _). by intros [= <- _].
  - destruct (ts_send _ _ _). by intros [= <- _].
  - destruct (sio_save _ _). by intros [= <- _].
Qed.

Lemma ordered_poll_file j j' :
  file_ok parse (quorum_file (stage_of j)) -> rtc ordered_poll j j' -> file_ok parse (quorum_file (stage_of j')).
Proof.
  intros Hq Hr. induction Hr as [|j j1 j2 Hp _ IH]; [done|]. apply IH.
  destruct Hp; cbn in *; by eapply exec_action_file.
Qed.

(** Handlers change the stage through the batch only. *)
Lemma executed_file (batch : IoActionBatch) l l' :
  file_ok parse (file_of l) -> publish_and_execute batch l = (l', Ok tt) -> file_ok parse (file_of l').
Proof.
  intros Hq He. unfold publish_and_execute in He. cbn in He.
  destruct (TryJoined.execute batch (io_stage l)) as [io r] eqn:Ex. injection He as <- ->.
  apply execute_ordered in Ex. 
  exact (ordered_poll_file (TryJoined.start batch (io_stage l)) (TryJoined.Running [] [] io) Hq Ex).
Qed.

Lemma handling_stage G (box : RpcEnvelope -> Prop) i l l1 batch :
  node_ok V WritesFirst G i l -> (forall env, box env -> msg_ok G (i, env)) -> handling box l l1 batch ->
  io_stage l1 = io_stage l.
Proof.
  intros Hok Hin Hh. by destruct (handled_memory V WritesFirst G box i l l1 batch Hok Hin Hh)
    as (_ & _ & _ & _ & ? & _).
Qed.

Lemma timers_file G i l l' c :
  cluster_inv V WritesFirst G c -> nodes c !! i = Some l -> current_term (base (state l)) < u64_max ->
  check_timers l = (l', Ok tt) -> file_ok parse (file_of l) -> file_ok parse (file_of l').
Proof.
  intros Hinv Hi Hb Ht Hq.
  destruct (check_timers_cases (fun _ => False) _ _ Hb Ht) as [Hl|(l0 & l1 & batch & Hl & Hh & He)].
  { destruct Hl as (_ & _ & _ & _ & _ & ->). done. }
  eapply executed_file; [|exact He].
  rewrite (handling_stage G (fun _ => False) i l0 l1 batch); [|..|done|exact Hh].
  - destruct Hl as (_ & _ & _ & _ & _ & ->). done.
  - apply (ci_nodes _ _ _ _ (quiet_inv V _ _ i l l0 c Hinv Hi Hl)). apply lookup_insert_eq.
Qed.

Lemma rpc_file G i env l l' c :
  cluster_inv V WritesFirst G c -> nodes c !! i = Some l -> inbox i c env ->
  handle_rpc env l = (l', Ok tt) -> file_ok parse (file_of l) -> file_ok parse (file_of l').
Proof.
  intros Hinv Hi Hin Hr Hq.
  destruct (handle_rpc_cases (inbox i c) env l l' Hin Hr) as [->|(l1 & batch & Hh & He)]; [done|].
  eapply executed_file; [|exact He].
  rewrite (handling_stage G (inbox i c) i l l1 batch); [done|by eapply ci_nodes| |done].
  intros env' Hin'. by apply (ci_net _ _ _ _ Hinv).
Qed.

(** ** Crashes *)

Definition files_ok c : Prop := forall i l, nodes c !! i = Some l -> file_ok parse (file_of l).

(** What a crash leaves is a crash of the abstract cluster: some stage it may
    have stopped in has sent the same messages, and its record is the one on
    disk. *)
Lemma left_crash_point G i l f sent c :
  cluster_inv V WritesFirst G c -> nodes c !! i = Some l -> file_ok parse (file_of l) ->
  left_on_disk i c l f sent ->
  exists st, crash_point WritesFirst i c l st /\ stage_sent st = sent /\
    on_disk parse f = Some (cached (quorum_file st)) /\
    forall pid faults, file_ok parse (mkFile f pid (cached (quorum_file st)) faults).
Proof.
  intros Hinv Hi Hq Hleft.
  assert (forall l1 batch j, handling (inbox i c) l l1 batch ->
    rtc ordered_poll (TryJoined.start batch (io_stage l1)) j -> file_ok parse (quorum_file (stage_of j))) as Hfile.
  { intros l1 batch j Hh Hr. eapply ordered_poll_file; [|exact Hr]. cbn.
    rewrite (handling_stage G (inbox i c) i l l1 batch); [done|by eapply ci_nodes| |done].
    intros env Hin. by apply (ci_net _ _ _ _ Hinv). }
  destruct Hleft as [f Hc|l1 batch j f Hh Hr Hc|l1 batch qs s n st ops f Hh Hr Hp Hc].
  - destruct (idle_crash parse _ _ _ _ Hq Hc) as (o & Ho & Hm & _ & Hok).
    exists (io_stage l). rewrite <- Hm by done. split_and!; [constructor|done|done|done].
  - destruct (idle_crash parse _ _ _ _ (Hfile _ _ _ Hh Hr) Hc) as (o & Ho & Hm & _ & Hok).
    exists (stage_of j). rewrite <- Hm by done. split_and!; [by eapply crash_busy|done|done|done].
  - destruct (saving_crash print parse parse_print _ _ qs _ ops f I (Hfile _ _ _ Hh Hr) Hp Hc)
      as (o & Ho & Hm & _ & Hok). cbn in Hm.
    exists (TryJoined.mkStage (TryJoined.log_store st) (TryJoined.transport st) (mkFile f EmptyString o [])
              (TryJoined.snapshot_io st)). split_and!; [|done|done|done].
    eapply crash_saving; [exact Hh|exact Hr|]. cbn. by apply Hm.
Qed.

(** ** Refinement *)

Lemma dstep_estep G c c' :
  cluster_inv V WritesFirst G c -> files_ok c -> dstep c c' -> estep WritesFirst c c' /\ files_ok c'.
Proof.
  intros Hinv Hok Hd.
  assert (forall i l', file_ok parse (file_of l') -> forall net, files_ok (mkCluster (<[i := l']> (nodes c)) net)) as Hset.
  { intros i l' Hl' net j k Hj. cbn in Hj. apply lookup_insert_Some in Hj as [[_ <-]|[_ Hj]]; [done|by eapply Hok]. }
  destruct Hd as [i l l' Hi Hb Ht|i env l l' Hi Hin Hr|i l ck Hi|i l f sent Hi Hl|i l f sent l' Hi Hl Hr].
  - split; [by eapply estep_timers|]. apply Hset. eapply timers_file; eauto.
  - split; [by eapply estep_rpc|]. apply Hset. eapply rpc_file; eauto.
  - split; [by eapply estep_sleep|]. apply Hset. by apply (Hok i l).
  - destruct (left_crash_point G i l f sent c Hinv Hi (Hok _ _ Hi) Hl) as (st & Hcp & <- & _ & _).
    split; [by eapply estep_crash|]. intros j k Hj. cbn in Hj. apply lookup_delete_Some in Hj as [_ Hj]. by eapply Hok.
  - destruct (left_crash_point G i l f sent c Hinv Hi (Hok _ _ Hi) Hl) as (st & Hcp & <- & Hd & Hnew).
    destruct Hr as (R1 & R2 & (pid & faults & R3) & R4 & R5).
    rewrite (proj1 (open_on_disk parse _ _ _ _) Hd) in R3. injection R3 as R3. split.
    + eapply estep_restart; [done|done|exact Hcp|]. split_and!; try done; cbn.
      * by rewrite <- R3.
      * rewrite R4. unfold loaded_vote, durable_vote. rewrite <- R3. cbn. by destruct (cached (quorum_file st)).
    + apply Hset. rewrite <- R3. apply Hnew.
Qed.

Lemma disk_reachable_inv c :
  disk_reachable c -> reachable V WritesFirst c /\ files_ok c.
Proof.
  intros (c0 & [Hinit Hopen] & Hr).
  assert (files_ok c0) as H0'.
  { intros i l Hi. destruct (Hopen i l Hi) as (f & pid & faults & Hf & Ho).
    eapply file_inv_mono; [|by eapply open_at_rest]. done. }
  assert (forall c1, reachable V WritesFirst c1 -> files_ok c1 -> rtc dstep c1 c ->
    reachable V WritesFirst c /\ files_ok c) as Hrun; [|apply (Hrun c0); [|done|done]; by exists c0].
  clear Hr. intros c1 Hc1 Hf1 Hr. revert Hc1 Hf1.
  induction Hr as [c|c c1 c2 Hs _ IH]; [done|]. intros Hc Hf.
  destruct (loop_reachable_inv V WritesFirst c) as [G HG]; [done|done|].
  destruct (dstep_estep G c c1 HG Hf Hs) as [He Hf1]. apply IH; [|done].
  destruct Hc as (c0' & Hi' & Hr'). exists c0'. split; [done|]. by eapply rtc_r.
Qed.

(** C11: Election safety down to the files, for a stage that writes before it
    sends.  In a cluster of event loops over a fixed voter set, each executing
    the storage actions of a batch before the sends of that batch, whose votes
    are in quorum-state files, with crashes at any point: the process may die
    or the power fail between any two actions and between any two file
    operations of a save, losing what was not synced, as long as the directory
    survives.  Restarts open what is on disk.  Then two leaders of the same
    term are the same node; and whatever a crash leaves, a new process can open
    it. *)
Theorem disk_election_safety c :
  disk_reachable c ->
  (forall i j l k, nodes c !! i = Some l -> nodes c !! j = Some k ->
     role (base (state l)) = Leader -> role (base (state k)) = Leader ->
     current_term (base (state l)) = current_term (base (state k)) -> i = j) /\
  (forall i l f sent pid faults, nodes c !! i = Some l -> left_on_disk i c l f sent ->
     exists q, open parse f pid faults = Ok q).
Proof.
  intros Hr. destruct (disk_reachable_inv c Hr) as [Hreach Hf]. split.
  - intros i j l k. by apply (loop_one_leader V WritesFirst).
  - intros i l f sent pid faults Hi Hl. destruct (loop_reachable_inv V WritesFirst c) as [G HG]; [done|done|].
    destruct (left_crash_point G i l f sent c HG Hi (Hf _ _ Hi) Hl) as (st & _ & _ & Hd & _).
    eexists. by apply open_on_disk.
Qed.
End Disk.

(** ** A run of three nodes on files *)

Module DiskDemo.

Import ElectionManager EventLoop EventLoopDemo AtomicFile QuorumStateFile ClusterDemo.

(** A record is printed as the bits of its code. *)
Definition record_code (q : QuorumState) : positive :=
  encode (qs_current_term q, qs_voted_for q, qs_leader_id q, qs_leader_epoch q).
Definition disk_print (q : QuorumState) : option bytes := Some (StorageEngine.bits_of (record_code q)).
Definition disk_parse (b : bytes) : option QuorumState :=
  match decode (StorageEngine.of_bits b) with
  | Some (t, v, l, e) => Some (mkQuorumState t v l e)
  | None => None
  end.

Lemma disk_parse_print (q : QuorumState) (json : bytes) : disk_print q = Some json -> disk_parse json = Some q.
Proof.
  intros [= <-]. unfold disk_parse, record_code. rewrite StorageEngine.of_bits_of, decode_encode. by destruct q.
Qed.

#[local] Instance demo_store : QuorumStateStore QuorumState QuorumStateFile := file_QuorumStateStore disk_print.
#[local] Instance demo_store_laws : QuorumStateStoreLaws QuorumState QuorumStateFile :=
  file_QuorumStateStoreLaws disk_print.

Abbreviation FLoop := (EventLoop (CK := Mocks.MockClock) (LI := unit) (L := Mocks.MockLogStore)
  (T := Mocks.MockTransportSender) (Q := QuorumStateFile) (S := Mocks.MockSnapshotIO)).
Abbreviation FCluster := (Cluster (CK := Mocks.MockClock) (LI := unit) (L := Mocks.MockLogStore)
  (T := Mocks.MockTransportSender) (Q := QuorumStateFile) (S := Mocks.MockSnapshotIO)).

(** Node [i], a follower with the vote [v] over the file [q]. *)
Definition follower (i t : N) (v : option N) (q : QuorumStateFile) : FLoop :=
  mkLoop (mkElectionState ((new_unattached i 0) <| cluster_id := 9 |> <| role := Follower |>
            <| voter_set := voter_set demo_base |> <| current_term := t |> <| voted_for := v |>) 0 0)
    (Mocks.clock_new 0)
    (TryJoined.mkStage Mocks.log_new Mocks.sender_new q Mocks.snapshot_new) tt [].
Definition empty_file : QuorumStateFile := mkFile ∅ "1" None [].

Definition disk3 : FCluster :=
  mkCluster (<[1 := follower 1 0 None empty_file]> (<[2 := follower 2 0 None empty_file]>
    (<[3 := follower 3 0 None empty_file]> ∅))) [].

Definition fnode (i : N) (c : FCluster) : FLoop := default (follower 0 0 None empty_file) (nodes c !! i).
Definition ftimers (i : N) (c : FCluster) : FCluster := set_node i (check_timers (fnode i c)).1 c.
Definition fdeliver (i : N) (env : RpcEnvelope) (c : FCluster) : FCluster :=
  set_node i (handle_rpc env (fnode i c)).1 c.

(** Nodes 1 and 2 are candidates of term 1, node 3 votes for node 1, crashes
    and starts again. *)
Definition voted : FCluster := fdeliver 3 (request 1) (ftimers 2 (ftimers 1 disk3)).
Definition files3 : FileSystem := fs (TryJoined.quorum_store (io_stage (fnode 3 voted))).
Definition restarted3 : FLoop :=
  follower 3 1 (Some 1) (mkFile files3 "2" (Some (mkQuorumState 1 (Some 1) None 0)) []).
Definition restarted : FCluster :=
  mkCluster (<[3 := restarted3]> (nodes voted)) (net voted ++ stage_sent (io_stage (fnode 3 voted))).
(** Then the request of node 2 arrives, and the vote at node 1. *)
Definition elected1 : FCluster := fdeliver 1 (grant 3) (fdeliver 3 (request 2) restarted).

Abbreviation dstep_ := (dstep disk_print disk_parse).

Lemma ftimers_step i (c : FCluster) :
  is_Some (nodes c !! i) -> (current_term (base (state (fnode i c))) <? u64_max) = true ->
  is_ok (check_timers (fnode i c)).2 = true -> dstep_ c (ftimers i c).
Proof.
  intros [l Hl] Hb Hok. unfold ftimers, fnode in *. rewrite Hl in *. cbn [from_option id] in *.
  revert Hok. destruct (check_timers l) as [l' [[]|e]] eqn:E; cbn [snd is_ok]; [intros _|done].
  eapply dstep_timers; [done| |exact E]. by apply N.ltb_lt.
Qed.

Lemma fdeliver_step i env (c : FCluster) :
  is_Some (nodes c !! i) -> (i, env) ∈ net c ->
  is_ok (handle_rpc env (fnode i c)).2 = true -> dstep_ c (fdeliver i env c).
Proof.
  intros [l Hl] Hin Hok. unfold fdeliver, fnode in *. rewrite Hl in *. cbn [from_option id] in *.
  revert Hok. destruct (handle_rpc env l) as [l' [[]|e]] eqn:E; cbn [snd is_ok]; [intros _|done].
  by eapply dstep_rpc.
Qed.

Lemma disk3_initial : disk_initial disk_print disk_parse V3 disk3.
Proof.
  assert (forall i l, nodes disk3 !! i = Some l -> l = follower i 0 None empty_file) as Hn.
  { intros i l Hi. cbn in Hi.
    repeat (apply lookup_insert_Some in Hi as [[<- <-]|[_ Hi]]; [done|]). done. }
  split; [split; [by intros m ?%elem_of_nil|]|].
  - intros i l ->%Hn. split_and!; try done. cbn. repeat (constructor; [set_solver|]). constructor.
  - intros i l ->%Hn. exists ∅, "1"%string, []. split; [apply at_rest_empty|done].
Qed.

Lemma flookup_net (c : FCluster) (k : nat) m : net c !! k = Some m -> m ∈ net c.
Proof. apply list_elem_of_lookup_2. Qed.

Lemma voted3_restarts : restarts disk_parse (fnode 3 voted) files3 restarted3.
Proof.
  split_and!; [by vm_compute|by vm_compute| |by vm_compute|by vm_compute].
  exists "2"%string, []. by vm_compute.
Qed.

Lemma voted3 : nodes voted !! 3 = Some (fnode 3 voted).
Proof. by vm_compute. Qed.

Lemma restart_step : dstep_ voted restarted.
Proof.
  unfold restarted. eapply dstep_restart; [exact voted3| |exact voted3_restarts].
  unfold files3. apply left_idle, process_crash.
Qed.

Lemma elected1_reachable : disk_reachable disk_print disk_parse V3 elected1.
Proof.
  exists disk3. split; [apply disk3_initial|].
  eapply rtc_l; [apply (ftimers_step 1); [eexists; by vm_compute|by vm_compute..]|].
  eapply rtc_l; [apply (ftimers_step 2); [eexists; by vm_compute|by vm_compute..]|].
  eapply rtc_l; [apply (fdeliver_step 3 (request 1)); [eexists; by vm_compute| |by vm_compute]|].
  { apply (flookup_net _ 1). by vm_compute. }
  eapply rtc_l; [apply restart_step|].
  eapply rtc_l; [apply (fdeliver_step 3 (request 2)); [eexists; by vm_compute| |by vm_compute]|].
  { apply (flookup_net _ 3). by vm_compute. }
  eapply rtc_l; [apply (fdeliver_step 1 (grant 3)); [eexists; by vm_compute| |by vm_compute]|].
  { apply (flookup_net _ 4). by vm_compute. }
  apply rtc_refl.
Qed.

Lemma disk_election_safety_witness :
  role (base (state (fnode 1 elected1))) = Leader /\ role (base (state (fnode 2 elected1))) = Candidate /\
  exists q, open disk_parse (fs (TryJoined.quorum_store (io_stage (fnode 3 elected1)))) "5" [] = Ok q.
Proof.
  split; [by vm_compute|]. split; [by vm_compute|].
  destruct (disk_election_safety disk_print disk_parse disk_parse_print V3 elected1 elected1_reachable)
    as [_ Hopen].
  eapply (Hopen 3 (fnode 3 elected1)); [by vm_compute|apply left_idle, process_crash].
Defined.

End DiskDemo.
