(* ===== verification/CheckedClusters.v ===== *)
(** * Clusters under the invariant checker

    The reachable states of the clusters of [ElectionSafety] and
    [EventLoopCluster], looked at by the run-time checker of
    [InvariantChecker]: its first check never fires on them (event loops: in
    the modes that are safe), whatever order it visits the nodes in and
    whichever of them it takes for stopped. *)

From stdpp Require Import base gmap numbers option strings relations list.
From S2P Require Import Prelude Types NodeState Interfaces Mocks RaftNode RaftNodeClaims IoStage EventLoop.
From S2P Require Import ElectionSafety EventLoopCluster SimSupport InvariantChecker.

Import InvariantChecker.

(** [v] shows the checker the role and the term of the nodes of a cluster;
    [node] gives them for the nodes that exist. *)
Definition shows (node : NodeId -> option NodeState) (v : ClusterView) : Prop :=
  NoDup (cv_node_ids v) /\
  forall id, id ∈ active_ids v -> exists s, node id = Some s /\
    nv_is_leader (cv_node v id) = role_eqb (role s) Leader /\ nv_term (cv_node v id) = current_term s.

(** No two nodes lead the same term. *)
Definition safe_election (node : NodeId -> option NodeState) : Prop :=
  forall i j s t, node i = Some s -> node j = Some t -> role s = Leader -> role t = Leader ->
    current_term s = current_term t -> i = j.

Lemma shown_check (node : NodeId -> option NodeState) (v : ClusterView) :
  safe_election node -> shows node v -> check_leader_election_safety v = true.
Proof.
  intros Hs [Hnd Hv]. apply election_safety_decided; [done|]. intros a b Ha Hb La Lb Ht.
  destruct (Hv a Ha) as (s & Hna & Hla & Hta), (Hv b Hb) as (t & Hnb & Hlb & Htb).
  rewrite Hla in La. rewrite Hlb in Lb. apply role_eqb_spec in La, Lb.
  eapply Hs; [done|done|done|done|congruence].
Qed.

Section Nodes.
Context {LS QSS SN TS TR CK SM LI : Type}.
Context `{!LogStore LS} `{!QuorumStateStore RaftNode.QuorumState QSS} `{!SnapshotIO SN}.
Context `{!TransportSender TS} `{!TransportReceiver TR} `{!Clock CK}.
Context `{!StateMachine SM} `{!Listener LI}.
Context `{!QuorumStateStoreLaws RaftNode.QuorumState QSS} `{!TransportSenderLaws TS}.
Context (ser : VotersRecord -> Result bytes) (de : bytes -> Result VotersRecord) (V : gset N).

(** The states of a cluster of [raft_node.rs] nodes. *)
Definition node_states (c : ElectionSafety.Cluster (LS := LS) (QSS := QSS) (SN := SN) (TS := TS)
    (TR := TR) (CK := CK) (SM := SM) (LI := LI)) (i : N) : option NodeState :=
  RaftNode.state <$> ElectionSafety.nodes c !! i.

Lemma reachable_safe_election c : ElectionSafety.reachable ser de V c -> safe_election (node_states c).
Proof.
  intros Hr i j s t. unfold node_states. destruct (ElectionSafety.nodes c !! i) as [n|] eqn:Hi; [|done].
  destruct (ElectionSafety.nodes c !! j) as [m|] eqn:Hj; [|done]. intros [= <-] [= <-].
  by eapply ElectionSafety.one_leader.
Qed.

(** C15: The run-time check of election safety never fires on a cluster of
    [raft_node.rs] nodes over a fixed voter set: in every state reachable with
    lost, reordered and duplicated messages, failing stores and restarts from
    the durable stores, whichever nodes the checker skips as stopped and in
    whatever order it visits the others. *)
Theorem nodes_pass_election_check c (v : ClusterView) :
  ElectionSafety.reachable ser de V c -> shows (node_states c) v -> check_leader_election_safety v = true.
Proof. intros Hr. apply shown_check. by eapply reachable_safe_election. Qed.
End Nodes.

Section Loops.
Context `{NodeTransitions} {CK LI L T Q S : Type} `{Clock CK} `{Listener LI}.
Context `{LogStore L} `{TransportSender T} `{QuorumStateStore QuorumState Q} `{SnapshotIO S}.
Context `{!NodeTransitionsLaws} `{!QuorumStateStoreLaws QuorumState Q} `{!TransportSenderLaws T}.
Context (V : gset N).

(** The states of a cluster of event loops. *)
Definition loop_states (c : EventLoopCluster.Cluster (CK := CK) (LI := LI) (L := L) (T := T) (Q := Q) (S := S))
    (i : N) : option NodeState :=
  (fun l => EventLoop.base (EventLoop.state l)) <$> EventLoopCluster.nodes c !! i.

Lemma loops_safe_election mode c :
  mode <> AnySchedule -> EventLoopCluster.reachable V mode c -> safe_election (loop_states c).
Proof.
  intros Hm Hr i j s t. unfold loop_states. destruct (EventLoopCluster.nodes c !! i) as [n|] eqn:Hi; [|done].
  destruct (EventLoopCluster.nodes c !! j) as [m|] eqn:Hj; [|done]. intros [= <-] [= <-].
  by eapply EventLoopCluster.loop_one_leader.
Qed.

(** Nor does it on a cluster of event loops whose crashed nodes stay away, or
    whose I/O stages write before they send; with restarts and the schedules of
    the code it can ([split_brain_caught]). *)
Theorem loops_pass_election_check mode c (v : ClusterView) :
  mode <> AnySchedule -> EventLoopCluster.reachable V mode c -> shows (loop_states c) v ->
  check_leader_election_safety v = true.
Proof. intros Hm Hr. apply shown_check. by eapply loops_safe_election. Qed.
End Loops.

(** ** What the checker sees of a run *)

Module CheckedDemo.

Import EventLoopDemo ClusterDemo.

(** The view of a cluster: roles, terms and nothing else. *)
Definition view_of (ids : list NodeId) (c : DCluster) : ClusterView :=
  mkView ids [] (fun id =>
    let s := EventLoop.base (EventLoop.state (node_at id c)) in
    mkNodeView (role_eqb (role s) Leader) (current_term s) [] 0 0 TestStateMachine.new) 3.

(** The view of a cluster of [raft_node.rs] nodes. *)
Definition node_view_of (ids : list NodeId) (c : Demo.DCluster) : ClusterView :=
  mkView ids [] (fun id =>
    let s := RaftNode.state (Demo.node_at id c) in
    mkNodeView (role_eqb (role s) Leader) (current_term s) [] 0 0 TestStateMachine.new) 3.

Lemma nodes_pass_election_check_witness :
  check_leader_election_safety (node_view_of [3; 1; 2] Demo.elected) = true /\
  nv_is_leader (cv_node (node_view_of [3; 1; 2] Demo.elected) 1) = true.
Proof.
  split; [|by vm_compute].
  apply (nodes_pass_election_check NodeDemo.ser NodeDemo.de Demo.V3 Demo.elected); [apply Demo.elected_reachable|].
  split; [cbn; repeat (constructor; [set_solver|]); constructor|].
  intros id Hid. change (active_ids _) with [3; 1; 2] in Hid. unfold node_states.
  repeat (apply elem_of_cons in Hid as [->|Hid]; [eexists; split_and!; by vm_compute|]).
  by apply elem_of_nil in Hid.
Defined.

Lemma loops_pass_election_check_witness : check_leader_election_safety (view_of [3; 1; 2] elected) = true.
Proof.
  apply (loops_pass_election_check V3 WritesFirst elected); [done|apply loop_elected_reachable|].
  split; [cbn; repeat (constructor; [set_solver|]); constructor|].
  intros id Hid. change (active_ids _) with [3; 1; 2] in Hid. unfold loop_states.
  repeat (apply elem_of_cons in Hid as [->|Hid]; [eexists; split_and!; by vm_compute|]).
  by apply elem_of_nil in Hid.
Defined.

(** The two leaders of the torn batch are caught. *)
Example split_brain_caught : check_leader_election_safety (view_of [1; 2; 3] split_brain) = false.
Proof. by vm_compute. Qed.

End CheckedDemo.
